(* ===== verification/_CoqProject ===== *)
-Q . S2P
Prelude.v
Abi.v
Memory.v
Value.v
ValueSpec.v
ValueProps.v
Wire.v
WireSpec.v
WireProps.v
TypeProps.v
Iname.v
InameSpec.v
InameProps.v
Frame.v
FrameSpec.v
FrameProps.v
Policy.v
PolicySpec.v
PolicyProps.v
Store.v
StoreMem.v
Future.v
Locks.v
LocksSpec.v
Pool.v
PoolSpec.v
LocksProps.v
PoolLocks.v
PoolProps.v
Lifecycle.v
LifecycleSpec.v
Task.v
SignSpec.v
TaskSpec.v
SignProps.v
LifecycleProps.v
TaskProps.v
Embed.v
EmbedProps.v
StoreSql.v
StoreSqlSpec.v
StoreSqlProps.v
Sqlite.v
Driver.v
Rows.v
Float.v
Surface.v
Park.v
Render.v
RowsSpec.v
SqliteTxn.v
ParkSpec.v
ResumeSpec.v
ResumeRun.v
ParkRun.v
SurfaceSpec.v
AggSpec.v
Shelf.v
RenderProps.v
PartialProps.v
RowsProps.v
ReconcileProps.v
ParkProps.v
SurfaceProps.v
Boot.v
BootProps.v
Host.v
HostProps.v
