(* ===== verification/Prelude.v ===== *)
(** * The Geas runtime: a verification development

    Geas programs are contracts: a contract type declares vows (values fixed when
    an instance is signed) and pledges (bodies a host or another body fulfills);
    the C runtime under [src/runtime/] registers the types, signs instances,
    fulfills pledges inline or on a worker pool, recomputes an instance's state
    from its latches, keeps a SQLite connection per instance with a schema, parks
    instances to a database row and resumes them, and speaks a canonical wire
    format.  This development models that runtime as it is written, executably,
    and proves what makes each part correct.

    ** The program's parts and where they are modelled

    - [Abi]: [geas_abi.h].  Tags, statuses, states, the 40 byte [GeasValue] word by
      word, the descriptors.
    - [Memory]: [GeasBlock], [geas_bytes], [contract_free_owned].  The heap is a map
      from words to blocks of bytes or of value slots; each owner (an instance, a
      query's arena) has its block list.  [M] is the monad of the heap: a result,
      or [Undef] for what C leaves undefined (an unmapped address, an out of range
      slot, a read of the wrong kind), or [NoFuel].  [malloc] is a function of the
      request's number and size and may refuse any request.
    - [Value], [ValueSpec], [ValueProps]: runtime.c "allocation helpers", "deep
      values", "maps".  [repr h v t]: the struct [v] in heap [h] stands for the
      tree [t].
    - [Wire], [WireSpec], [WireProps]: wire.c.  [enc] and [dec] are the reference
      printer and parser of the byte format.
    - [Iname], [InameSpec], [InameProps]: runtime.c's registry, the iname table,
      bindings, module loading, the freeze.
    - [Frame], [FrameSpec], [FrameProps]: the argument frame of a pledge body and
      its by-reference parameters.
    - [Policy], [PolicySpec], [PolicyProps]: [struct GeasContract], the evaluator of
      requirement lines, the structural defaults, the partial result; and the
      default trees of [src/compiler/cgenreq.dusk], which the evaluator runs.
    - [TypeProps]: the typing of values the runtime checks as it goes.
    - [Store], [StoreMem]: what the lifecycle relies on of a store backend, as a
      class ([StoreApi]) with laws ([StoreLaws]), and a small instance of the laws.
    - [Lifecycle], [LifecycleSpec], [SignSpec], with the theorems in [SignProps] and
      [LifecycleProps]: sign, inline fulfillment, latches, transactional episodes,
      break.  [W] is the monad of the world: heap, instances, backend, registry,
      instance table, clock, futures, links, queue.  A pledge body is a tree of
      the calls it can make ([body]): memory, store, fulfill, sign, break.  What
      one fulfillment comes to outside an episode and the forward order of states
      hold of any body, reentrant ones too; the theorem on episodes is about bodies
      that touch their own instance's memory and store only ([local_body]).
    - [Future], [Task], [TaskSpec], [TaskProps]: futures, the queue, a worker's turn,
      fulfill, wait, release and shutdown, each as the sequence of its critical
      sections run without interruption.
    - [Pool], [PoolSpec], [PoolProps]: the same critical sections as a step
      relation over any number of host threads and workers, interleaved freely.
      [Embed], [EmbedProps]: the runs of [Task] as runs of [Pool].
    - [Locks], [LocksSpec], [LocksProps]: what every function of runtime.c that touches
      a mutex does to it, as a skeleton of its lock operations; a checker of the
      lock hierarchy on skeletons, and what it gives to any number of threads that
      run them.  [PoolLocks]: the bodies of [Locks] as the scripts of [Pool].
    - [StoreSql], [StoreSqlSpec], [StoreSqlProps]: the builders of the SQL texts, over
      their sized buffers.
    - [Sqlite], [Driver], [Rows], [RowsSpec], with [RowsProps] and [ReconcileProps]:
      store.c over a class of the [sqlite3_*] calls it makes.  [SqliteTxn] makes the
      driver the instance of [StoreLaws] that the lifecycle runs on.
    - [Float], [Surface], with [SurfaceSpec], [AggSpec] and [SurfaceProps]: the
      [geas_store_*] calls of a body.
    - [Park], [ParkSpec], [ResumeSpec], [ResumeRun], [ParkRun], [ParkProps]: the parked
      instance.  [Shelf] holds two small executable stand-ins for the SQLite
      library, for the concrete runs.
    - [Render], [RenderProps], [PartialProps]: the debug renderer; and the partial
      report as a value.
    - [Boot], [BootProps]: the start of the runtime and of its pool, and the matching
      tear down, over the system objects they make and destroy.
    - [Host], [HostProps]: [src/skeleton/host.c], the example host, as one program over
      the public entries of every part above.

    A [*Spec] file holds a component's specification and the lemmas that relate the
    code to it; a [*Props] file holds the theorems, each with a run that shows its
    hypotheses can hold.

    ** What the theorems show

    - Memory safety and ownership.  The decoder on untrusted bytes, the deep copy,
      sign, fulfill, resume and break never reach undefined behaviour under their
      stated hypotheses; what they allocate hangs off the instance they serve;
      a refusal frees what was built; break and shutdown free exactly what there
      is.  The future theorems say the same of every interleaving.  Start up holds
      all its objects and threads or none.
    - Types.  Copies, pushes, stores, insertions and decoded bytes are typed values,
      and what would break the typing is refused with nothing changed.
    - Refinement.  The deep copy implements the copy of the value tree; the SQLite
      driver implements the store the lifecycle is proved against; the calls of
      [Task], run one after another, are runs of the interleaved pool.
    - Function.  Encoder, decoder, renderer, SQL builders, the registry's search,
      map and list operations, a policy line, the policy, the partial report, sign,
      one fulfillment, a query, the fourteen calls of a body on its table and schema
      reconciliation are each equal to a reference definition, on every branch.
    - Round trips.  Frames; values through the wire both ways; values through a
      database row; an instance through park and resume; [set] then [get].
    - Invariants.  No sequence of calls moves an instance backwards; an episode is
      durable as a whole or not at all; the registry stays sorted and exact; under
      the defaults progress is never lost.
    - Equivalences.  The queued and the inline synchronous fulfillment, over an idle
      pool and for bodies that do not break the instance called; two runs next to
      the theorem ([TaskProps]) show where the paths part.  The runtime's defaults
      and the compiler's trees.
    - Termination and liveness.  The recursive functions take fuel and each theorem
      gives the fuel that is enough (the height of the tree, the depth cap of the
      decoder, the rows of a cursor); the workers come to rest, and a shutdown
      leaves no future without its outcome.
    - Locks.  Every call, on every path, takes its locks down the hierarchy of
      [docs/abi.md] and gives them all back; threads that run such calls, with the
      bodies a compiler makes, never deadlock on a lock.  The hypotheses (a body
      uses what it signed, callbacks do not call back) are each shown to be needed.

    ** Modelling choices

    - Widths: a machine word is a [Z] in its range, with [u8], [u32], [u64], [i32] and
      [i64] written where C converts.  The target is LP64, little endian.
    - Locks: in the sequential files a critical section runs whole, so the code
      between a lock and its unlock is one function of the state.  [Pool] is where
      sections interleave.  [Locks] looks at the lock operations alone: a branch may go
      either way and a loop any number of rounds, so its runs include the code's.
      A lawful body is given by depths: an instance is deeper than the one whose
      body signed it, and a body of one names that and deeper ones only.
    - Objects of the system: [pthread_mutex_init] and [pthread_cond_init] may be
      refused, by the system of [Boot] and, in [Lifecycle], [Park] and [Task], as a
      request of no bytes to the allocator's oracle.
    - Pointers: a call that reads a struct or array through a pointer takes what it
      names.  NULL is a case where the code tells it apart, but for the uniform
      first line of the [geas_store_*] calls ([Surface]).
    - The driver as a store ([Rows.sqlite_store]): the interface has no undefined
      behaviour, so an undefined driver call, which takes a text past 2 GiB, counts
      there as GEAS_ERR_STORE.  The driver's own theorems keep the two apart.
    - Borrowed bytes: a C string or a [calloc]ed latch array the code passes to the
      driver as a String value is given an address for the length of the call and
      takes it back afterwards ([Park], expose and conceal).
    - Static text: names in static storage are addressed by a function of the name.
    - Other code: [dlopen], registrars, SQLite and
      the C library's [%g] are parameters.  SQLite's hypotheses are about one
      statement's answers: what stepping it visits and what its columns show.
    - Floats are bit patterns; the two operations the runtime computes with are the
      Standard Library's IEEE 754 ones.

    ** Not modelled

    The compiler is in another language, but for the default trees; the standard
    library of the language and the packaging are outside, and so are the texts the
    example host prints.  The host's threads in [Host] take whole turns: their calls'
    critical sections interleave in [Pool] only.  The module the host loads is a
    parameter of [Host]; the example runs of [HostProps] stand in for it with one
    written after [hello.geas], and no theorem rests on that.  A pledge body that queues a
    fulfillment and does not wait for it, which the compiler never emits, is in
    [Locks] and not among the scripts of [Pool]. *)
From Stdlib Require Export ZArith Lia.
From stdpp Require Export base tactics list gmap strings.

#[global] Open Scope Z_scope.

(** ** Machine integers

    The runtime is C on an LP64 little endian target.  A [uintN_t] is a [Z] in
    [0, 2^N); a conversion to the type is the modulus written out, and the
    signed reading of a 64 bit word is [i64]. *)

Abbreviation U8_MAX := 255 (only parsing).
Abbreviation U32_MAX := 4294967295 (only parsing).
Abbreviation U64_MAX := 18446744073709551615 (only parsing).

Definition u8 (z : Z) : Z := z mod 256.
Definition u32 (z : Z) : Z := z mod 4294967296.
Definition u64 (z : Z) : Z := z mod 18446744073709551616.
Definition i32 (z : Z) : Z :=
  if u32 z <? 2147483648 then u32 z else u32 z - 4294967296.
Definition i64 (z : Z) : Z :=
  if u64 z <? 9223372036854775808 then u64 z else u64 z - 18446744073709551616.

Definition is_u8 (z : Z) : Prop := 0 <= z < 256.
Definition is_u32 (z : Z) : Prop := 0 <= z < 4294967296.
Definition is_u64 (z : Z) : Prop := 0 <= z < 18446744073709551616.
Definition is_i64 (z : Z) : Prop :=
  -9223372036854775808 <= z < 9223372036854775808.

#[export] Instance is_u8_dec z : Decision (is_u8 z).
Proof. unfold is_u8. apply _. Defined.
#[export] Instance is_u32_dec z : Decision (is_u32 z).
Proof. unfold is_u32. apply _. Defined.
#[export] Instance is_u64_dec z : Decision (is_u64 z).
Proof. unfold is_u64. apply _. Defined.

(** The development's automation: [geas] holds the width and arithmetic facts
    the components discharge their side conditions with. *)
Create HintDb geas.
Create Rewrite HintDb geas.

(** [z_norm] unfolds the width vocabulary, [zlia] then calls [lia]. *)
Ltac z_norm :=
  unfold u8, u32, u64, i32, i64, is_u8, is_u32, is_u64, is_i64 in *.
Ltac zlia := z_norm; Z.to_euclidean_division_equations; lia.

(** Case analysis on the scrutinee of the first [match] or [if] in the goal,
    closing the branches that are contradictory. *)
Ltac case_all :=
  repeat match goal with
         | |- context [match ?x with _ => _ end] => destruct x eqn:?; simplify_eq/=
         end.

Lemma u8_range z : is_u8 (u8 z).
Proof. zlia. Qed.
Lemma u32_range z : is_u32 (u32 z).
Proof. zlia. Qed.
Lemma u64_range z : is_u64 (u64 z).
Proof. zlia. Qed.
Lemma u8_id z : is_u8 z → u8 z = z.
Proof. zlia. Qed.
Lemma u32_id z : is_u32 z → u32 z = z.
Proof. zlia. Qed.
Lemma u64_id z : is_u64 z → u64 z = z.
Proof. zlia. Qed.
Lemma i64_range z : is_i64 (i64 z).
Proof. unfold i64. destruct (u64 z <? _) eqn:E; zlia. Qed.
(** A signed word survives the trip through its unsigned bit pattern. *)
Lemma i64_u64 z : is_i64 z → i64 (u64 z) = z.
Proof. intros H. unfold i64. destruct (u64 (u64 z) <? _) eqn:E; zlia. Qed.
Lemma u64_i64 z : is_u64 z → u64 (i64 z) = z.
Proof. intros H. unfold i64. destruct (u64 z <? _) eqn:E; zlia. Qed.

#[export] Hint Resolve u8_range u32_range u64_range i64_range : geas.
#[export] Hint Rewrite u8_id u32_id u64_id using (first [assumption | zlia]) : geas.

(** ** Lists *)

Section Lists.
Context {A : Type}.

Lemma take_snoc_lookup (l : list A) (i : nat) x :
  l !! i = Some x → take (S i) l = take i l ++ [x].
Proof. apply take_S_r. Qed.

Lemma Forall2_snoc {B} (P : A → B → Prop) l k x y :
  Forall2 P l k → P x y → Forall2 P (l ++ [x]) (k ++ [y]).
Proof. intros. apply Forall2_app; auto. Qed.

Lemma drop_cons_lookup (l : list A) (i : nat) x :
  l !! i = Some x → drop i l = x :: drop (S i) l.
Proof. apply drop_S. Qed.

Lemma lookup_total_lt (l : list A) (i : nat) :
  (i < length l)%nat → ∃ x, l !! i = Some x.
Proof. intros H. by apply lookup_lt_is_Some_2. Qed.

(** Predicates that agree on the list's elements select the same ones. *)
Lemma filter_ext_Forall (P Q : A → Prop) `{∀ x, Decision (P x)} `{∀ x, Decision (Q x)} l :
  Forall (λ x, P x ↔ Q x) l → filter P l = filter Q l.
Proof.
  induction 1 as [|x l Hx _ IH]; [done|]. rewrite !filter_cons, IH.
  destruct (decide (P x)), (decide (Q x)); tauto || done.
Qed.

Lemma Forall2_impl_in {B} (P Q : A → B → Prop) l k :
  Forall2 P l k → (∀ x y, x ∈ l → P x y → Q x y) → Forall2 Q l k.
Proof.
  induction 1 as [|x y l k Hx _ IH]; intros H; constructor; [apply H; [left|done]|].
  apply IH. intros x' y' Hin. apply H. by right.
Qed.

End Lists.

(** ** C strings

    A [const char*] the runtime reads as a NUL terminated string is a Rocq
    [string] (no NUL byte inside, by construction of the descriptors).
    [strcmp] compares the bytes as unsigned characters. *)

Fixpoint strcmp (a b : string) : comparison :=
  match a, b with
  | EmptyString, EmptyString => Eq
  | EmptyString, String _ _ => Lt
  | String _ _, EmptyString => Gt
  | String x a', String y b' =>
      match N.compare (Ascii.N_of_ascii x) (Ascii.N_of_ascii y) with
      | Eq => strcmp a' b'
      | c => c
      end
  end.

Definition str_eqb (a b : string) : bool :=
  match strcmp a b with Eq => true | _ => false end.
Definition str_ltb (a b : string) : bool :=
  match strcmp a b with Lt => true | _ => false end.

Lemma strcmp_refl a : strcmp a a = Eq.
Proof. induction a; simpl; [done|]. by rewrite N.compare_refl. Qed.

Lemma N_of_ascii_inj x y : Ascii.N_of_ascii x = Ascii.N_of_ascii y → x = y.
Proof.
  intros H. rewrite <- (Ascii.ascii_N_embedding x), <- (Ascii.ascii_N_embedding y).
  by rewrite H.
Qed.

Lemma strcmp_eq a b : strcmp a b = Eq ↔ a = b.
Proof.
  split; [|intros ->; apply strcmp_refl].
  revert b; induction a as [|x a IH]; intros [|y b]; simpl; try done.
  destruct (N.compare_spec (Ascii.N_of_ascii x) (Ascii.N_of_ascii y)); try done.
  intros Hs. f_equal; [by apply N_of_ascii_inj|auto].
Qed.

Lemma strcmp_antisym a b : strcmp b a = CompOpp (strcmp a b).
Proof.
  revert b; induction a as [|x a IH]; intros [|y b]; simpl; try done.
  rewrite (N.compare_antisym (Ascii.N_of_ascii x)).
  destruct (N.compare _ _); simpl; auto.
Qed.

Lemma strcmp_trans a b c : strcmp a b = Lt → strcmp b c = Lt → strcmp a c = Lt.
Proof.
  revert b c; induction a as [|x a IH]; intros [|y b] [|z c]; simpl; try done.
  destruct (N.compare_spec (Ascii.N_of_ascii x) (Ascii.N_of_ascii y)),
    (N.compare_spec (Ascii.N_of_ascii y) (Ascii.N_of_ascii z)); try done; intros;
    destruct (N.compare_spec (Ascii.N_of_ascii x) (Ascii.N_of_ascii z));
    try done; try lia; eauto.
Qed.

Lemma str_eqb_eq a b : str_eqb a b = true ↔ a = b.
Proof. unfold str_eqb. rewrite <- strcmp_eq. by destruct (strcmp a b). Qed.
Lemma str_eqb_refl a : str_eqb a a = true.
Proof. by apply str_eqb_eq. Qed.
Lemma str_eqb_neq a b : str_eqb a b = false ↔ a ≠ b.
Proof. rewrite <- str_eqb_eq. by destruct (str_eqb a b). Qed.

(** ** Maps *)

(** A list of keys deleted. *)
Lemma lookup_foldr_delete {A} (h : gmap Z A) l p :
  foldr delete h l !! p = if bool_decide (p ∈ l) then None else h !! p.
Proof.
  induction l as [|q l IH]; simpl.
  - done.
  - destruct (decide (p = q)) as [->|Hne].
    + rewrite lookup_delete_eq, bool_decide_true; [done|left].
    + rewrite lookup_delete_ne, IH by done.
      by rewrite (bool_decide_ext (p ∈ l) (p ∈ q :: l)) by (rewrite elem_of_cons; tauto).
Qed.

Lemma foldr_delete_union {A} (hn h : gmap Z A) l :
  hn ##ₘ h → (∀ p, p ∈ l ↔ is_Some (hn !! p)) → foldr delete (hn ∪ h) l = h.
Proof.
  intros Hd Hl. apply map_eq. intros p. rewrite lookup_foldr_delete. case_bool_decide as Hp.
  - apply Hl in Hp as [b Hp]. symmetry. by eapply map_disjoint_Some_l.
  - rewrite lookup_union_r; [done|]. apply eq_None_not_Some. by rewrite <- Hl.
Qed.

(** The bytes of a C string, its NUL aside. *)
Fixpoint str_bytes (s : string) : list Z :=
  match s with EmptyString => [] | String a s' => Z.of_N (Ascii.N_of_ascii a) :: str_bytes s' end.

#[export] Hint Resolve strcmp_refl str_eqb_refl : geas.
#[export] Hint Rewrite strcmp_refl str_eqb_refl : geas.
