(* ===== verification/Abi.v ===== *)
(** * The ABI: tags, statuses, states, the value struct and the descriptors

    [runtime/include/geas/geas_abi.h].  Enumerations are inductive types with
    the numbers the header gives them; [GeasValue] is the 40 byte struct word
    by word, so [memset] to zero, the union arms and their aliasing read as
    they do in C. *)
From S2P Require Import Prelude.

(** ** Type tags *)

Inductive GeasTypeTag :=
| GEAS_TY_UNIT | GEAS_TY_INT | GEAS_TY_UINT | GEAS_TY_FLOAT | GEAS_TY_BOOL
| GEAS_TY_BYTE | GEAS_TY_CHAR | GEAS_TY_STRING | GEAS_TY_LIST | GEAS_TY_MAP
| GEAS_TY_TUPLE | GEAS_TY_OPTION | GEAS_TY_RESULT | GEAS_TY_RECORD
| GEAS_TY_PLEDGE_REF | GEAS_TY_SUM | GEAS_TY_INSTANCE.

#[export] Instance GeasTypeTag_eq_dec : EqDecision GeasTypeTag.
Proof. solve_decision. Defined.

Definition tag_num (t : GeasTypeTag) : Z :=
  match t with
  | GEAS_TY_UNIT => 0 | GEAS_TY_INT => 1 | GEAS_TY_UINT => 2
  | GEAS_TY_FLOAT => 3 | GEAS_TY_BOOL => 4 | GEAS_TY_BYTE => 5
  | GEAS_TY_CHAR => 6 | GEAS_TY_STRING => 7 | GEAS_TY_LIST => 8
  | GEAS_TY_MAP => 9 | GEAS_TY_TUPLE => 10 | GEAS_TY_OPTION => 11
  | GEAS_TY_RESULT => 12 | GEAS_TY_RECORD => 13 | GEAS_TY_PLEDGE_REF => 14
  | GEAS_TY_SUM => 15 | GEAS_TY_INSTANCE => 16
  end.

(** The cast a [switch] makes on the raw [ty] field; [None] is its default arm. *)
Definition tag_of (z : Z) : option GeasTypeTag :=
  match z with
  | 0 => Some GEAS_TY_UNIT | 1 => Some GEAS_TY_INT | 2 => Some GEAS_TY_UINT
  | 3 => Some GEAS_TY_FLOAT | 4 => Some GEAS_TY_BOOL | 5 => Some GEAS_TY_BYTE
  | 6 => Some GEAS_TY_CHAR | 7 => Some GEAS_TY_STRING | 8 => Some GEAS_TY_LIST
  | 9 => Some GEAS_TY_MAP | 10 => Some GEAS_TY_TUPLE | 11 => Some GEAS_TY_OPTION
  | 12 => Some GEAS_TY_RESULT | 13 => Some GEAS_TY_RECORD
  | 14 => Some GEAS_TY_PLEDGE_REF | 15 => Some GEAS_TY_SUM
  | 16 => Some GEAS_TY_INSTANCE | _ => None
  end.

(** ** Statuses and contract states *)

Inductive GeasStatus :=
| GEAS_OK | GEAS_ERR_STATE | GEAS_ERR_TYPE | GEAS_ERR_VERSION | GEAS_ERR_UNBOUND
| GEAS_ERR_NAME | GEAS_ERR_DEADLOCK | GEAS_ERR_OOM | GEAS_ERR_LOAD | GEAS_ERR_NET
| GEAS_ERR_STORE.

#[export] Instance GeasStatus_eq_dec : EqDecision GeasStatus.
Proof. solve_decision. Defined.

Definition st_ok (s : GeasStatus) : bool :=
  match s with GEAS_OK => true | _ => false end.

Inductive GeasContractState :=
| GEAS_UNSIGNED | GEAS_SIGNED | GEAS_FULFILLED | GEAS_PARTIAL | GEAS_BROKEN.

#[export] Instance GeasContractState_eq_dec : EqDecision GeasContractState.
Proof. solve_decision. Defined.

Definition state_num (s : GeasContractState) : Z :=
  match s with
  | GEAS_UNSIGNED => 0 | GEAS_SIGNED => 1 | GEAS_FULFILLED => 2
  | GEAS_PARTIAL => 3 | GEAS_BROKEN => 4
  end.

Definition state_of (z : Z) : option GeasContractState :=
  match z with
  | 0 => Some GEAS_UNSIGNED | 1 => Some GEAS_SIGNED | 2 => Some GEAS_FULFILLED
  | 3 => Some GEAS_PARTIAL | 4 => Some GEAS_BROKEN | _ => None
  end.

(** ** The value struct

    [ty] and [tag] are the two [uint32_t] fields; [w0]..[w3] are the four 64 bit
    words of the union.  [as.i], [as.u], [as.f] and [as.box] live in [w0];
    [as.b] is its low byte and [as.ch] its low 32 bits; [as.s] is
    [ptr = w0, len = w1]; [as.list] is [data = w0, len = w1, cap = w2] and
    [elem_ty] the low half of [w3].  A pointer is a word, NULL is 0. *)
Record GeasValue := GV {
  ty : Z; tag : Z; w0 : Z; w1 : Z; w2 : Z; w3 : Z
}.

#[export] Instance GeasValue_eq_dec : EqDecision GeasValue.
Proof. solve_decision. Defined.

Definition as_i (v : GeasValue) : Z := i64 (w0 v).
Definition as_u (v : GeasValue) : Z := w0 v.
(** The IEEE 754 bit pattern of [as.f]. *)
Definition as_f (v : GeasValue) : Z := w0 v.
Definition as_b (v : GeasValue) : Z := u8 (w0 v).
Definition as_ch (v : GeasValue) : Z := u32 (w0 v).
Definition s_ptr (v : GeasValue) : Z := w0 v.
Definition s_len (v : GeasValue) : Z := w1 v.
Definition l_data (v : GeasValue) : Z := w0 v.
Definition l_len (v : GeasValue) : Z := w1 v.
Definition l_cap (v : GeasValue) : Z := w2 v.
Definition l_elem (v : GeasValue) : Z := u32 (w3 v).
Definition as_box (v : GeasValue) : Z := w0 v.

(** [memset(v, 0, sizeof *v)] *)
Definition gzero : GeasValue := GV 0 0 0 0 0 0.
Definition sizeof_GeasValue : Z := 40.

Definition g_scalar (t : GeasTypeTag) (w : Z) : GeasValue := GV (tag_num t) 0 w 0 0 0.
Definition g_string (p len : Z) : GeasValue :=
  GV (tag_num GEAS_TY_STRING) 0 p len 0 0.
(** A value on the list arm. *)
Definition g_seq (t : GeasTypeTag) (tg data len cap elem : Z) : GeasValue :=
  GV (tag_num t) tg data len cap elem.
Definition g_box (t : GeasTypeTag) (tg p : Z) : GeasValue := GV (tag_num t) tg p 0 0 0.

(** The four tag families the switches group. *)
Definition scalar_tag (t : GeasTypeTag) : bool :=
  match t with
  | GEAS_TY_UNIT | GEAS_TY_INT | GEAS_TY_UINT | GEAS_TY_FLOAT | GEAS_TY_BOOL
  | GEAS_TY_BYTE | GEAS_TY_CHAR | GEAS_TY_PLEDGE_REF | GEAS_TY_INSTANCE => true
  | _ => false
  end.
Definition seq_tag (t : GeasTypeTag) : bool :=
  match t with
  | GEAS_TY_LIST | GEAS_TY_MAP | GEAS_TY_TUPLE | GEAS_TY_RECORD | GEAS_TY_SUM => true
  | _ => false
  end.
Definition box_tag (t : GeasTypeTag) : bool :=
  match t with GEAS_TY_OPTION | GEAS_TY_RESULT => true | _ => false end.

(** The payload bits of a scalar arm, at the width the arm reads. *)
Definition scalar_arm (t : GeasTypeTag) (v : GeasValue) : Z :=
  match t with
  | GEAS_TY_UNIT => 0
  | GEAS_TY_BOOL | GEAS_TY_BYTE => as_b v
  | GEAS_TY_CHAR => as_ch v
  | _ => w0 v
  end.

(** ** IEEE doubles

    [as.f == bs.f] on the bit patterns: a NaN equals nothing, the two zeros are
    equal, everything else is equal exactly when the bits are. *)
Definition f64_is_nan (b : Z) : bool :=
  (Z.land (Z.shiftr b 52) 2047 =? 2047) && negb (Z.land b 4503599627370495 =? 0).
Definition f64_is_zero (b : Z) : bool := Z.land b 9223372036854775807 =? 0.
Definition f64_eq (a b : Z) : bool :=
  negb (f64_is_nan a) && negb (f64_is_nan b) &&
  ((a =? b) || (f64_is_zero a && f64_is_zero b)).

Lemma tag_of_num t : tag_of (tag_num t) = Some t.
Proof. by destruct t. Qed.
Lemma tag_of_Some z t : tag_of z = Some t → z = tag_num t.
Proof.
  unfold tag_of. destruct z as [|p|p]; [by intros [= <-]| |done].
  do 5 (try destruct p as [p|p|]; try done); by intros [= <-].
Qed.
Lemma tag_num_inj t t' : tag_num t = tag_num t' → t = t'.
Proof. intros H. apply (f_equal tag_of) in H. rewrite !tag_of_num in H. congruence. Qed.
Lemma tag_num_range t : 0 <= tag_num t <= 16.
Proof. destruct t; simpl; lia. Qed.
Lemma state_of_num s : state_of (state_num s) = Some s.
Proof. by destruct s. Qed.
Lemma state_num_inj s s' : state_num s = state_num s' → s = s'.
Proof. by destruct s, s'. Qed.
Lemma st_ok_spec s : st_ok s = true ↔ s = GEAS_OK.
Proof. by destruct s. Qed.

#[export] Hint Rewrite tag_of_num state_of_num : geas.

(** ** Descriptor tables

    The static tables a compiled module hands to the registrar.  A table and its
    count are one list; a NULL string or array is [None]; a function pointer is
    a word, 0 for NULL. *)

Record GeasPledgeDesc := PledgeDesc {
  p_name : string;
  p_mangled : option string;
  p_nargs : Z;
  p_fn : Z;                      (* 0 marks an abstract pledge *)
  p_sub : Z                      (* subs index; outside [0, nsubs) reads loose *)
}.

Inductive atom_kind := GEAS_ATOM_FULFILLED | GEAS_ATOM_BROKEN.
Record GeasReqAtom := ReqAtom {
  a_name : option string; a_kind : Z; a_sub : Z; a_pledge : Z
}.
Definition atom_num (k : atom_kind) : Z :=
  match k with GEAS_ATOM_FULFILLED => 0 | GEAS_ATOM_BROKEN => 1 end.

Inductive req_code := GEAS_REQ_ATOM | GEAS_REQ_NOT | GEAS_REQ_AND | GEAS_REQ_OR.
Definition req_num (c : req_code) : Z :=
  match c with
  | GEAS_REQ_ATOM => 0 | GEAS_REQ_NOT => 1 | GEAS_REQ_AND => 2 | GEAS_REQ_OR => 3
  end.
Record GeasReqOp := ReqOp { o_op : Z; o_atom : Z }.

Record GeasVowDesc := VowDesc {
  v_name : string; v_ty : Z; v_has_default : Z; v_default : GeasValue
}.

Record GeasSchemaCol := SchemaCol { sc_name : string; sc_ty : Z }.
Record GeasSchemaDesc := SchemaDesc { s_table : string; s_cols : list GeasSchemaCol }.

Definition GEAS_SUB_TRANSACTIONAL : Z := 1.

Record GeasContractDesc := ContractDesc {
  d_name : string;
  d_shape_hash : Z;
  d_version : Z;
  d_pledges : list GeasPledgeDesc;
  d_vows : list GeasVowDesc;
  d_subs : list (option string);           (* [None] is an anonymous subcontract *)
  d_atoms : list GeasReqAtom;
  d_has_reqs : Z;
  d_req_fulfill : list GeasReqOp;
  d_req_partial : list GeasReqOp;
  d_req_break : list GeasReqOp;
  d_schemas : list GeasSchemaDesc;
  d_sub_flags : option (list Z)
}.

Record GeasVowBinding := VowBinding { vb_name : option string; vb_value : GeasValue }.

(** A descriptor with pledges and nothing else, as a handwritten table is. *)
Definition plain_desc (name : string) (hash ver : Z) (ps : list GeasPledgeDesc)
    : GeasContractDesc :=
  ContractDesc name hash ver ps [] [] [] 0 [] [] [] [] None.
