(* ===== verification/Memory.v ===== *)
(** * The C heap, the instance block lists and the execution monad

    The runtime's memory as the code uses it: [malloc]ed blocks, each holding
    either bytes or an array of [GeasValue] slots, addressed by a nonzero word,
    and for every contract instance the list of blocks hanging off its [owned]
    field ([runtime.c], [GeasBlock], [geas_bytes], [contract_free_owned]).

    The C library is a parameter of the model: [lib_malloc] says which
    allocation requests succeed and [lib_junk_val], [lib_junk_byte] are what
    fresh memory holds, so every theorem holds for every allocator and for
    every content of uninitialised memory.  A computation ends in [Ret], in
    [Undef] when the C program would touch memory it may not touch, or in
    [NoFuel] when a recursion outran the fuel the caller gave it. *)
From S2P Require Import Prelude Abi.

(** ** Memory *)

Inductive block :=
| BBytes (bs : list Z)
| BVals (vs : list GeasValue).

Inductive block_kind := KBytes | KVals.

Record clib := CLib {
  lib_malloc : nat → Z → bool;   (* n-th request, size asked for *)
  lib_junk_val : GeasValue;
  lib_junk_byte : Z
}.

Record mem := Mem {
  heap : gmap Z block;
  owned : gmap Z (list Z);       (* instance address -> its GeasBlock list *)
  brk : Z;                       (* the next fresh address *)
  ticks : nat;                   (* malloc requests so far *)
  lib : clib
}.

Definition set_heap (f : gmap Z block → gmap Z block) (m : mem) : mem :=
  Mem (f (heap m)) (owned m) (brk m) (ticks m) (lib m).
Definition set_owned (f : gmap Z (list Z) → gmap Z (list Z)) (m : mem) : mem :=
  Mem (heap m) (f (owned m)) (brk m) (ticks m) (lib m).

(** ** The monad *)

Inductive outcome (A : Type) :=
| Ret (a : A) (m : mem)
| Undef
| NoFuel.
Arguments Ret {A} a m.
Arguments Undef {A}.
Arguments NoFuel {A}.

Definition M (A : Type) : Type := mem → outcome A.

Definition ret {A} (a : A) : M A := λ m, Ret a m.
Definition undef {A} : M A := λ _, Undef.
Definition nofuel {A} : M A := λ _, NoFuel.
Definition bind {A B} (e : M A) (k : A → M B) : M B :=
  λ m, match e m with
       | Ret a m' => k a m'
       | Undef => Undef
       | NoFuel => NoFuel
       end.

Declare Scope geas_scope.
Delimit Scope geas_scope with geas.
Notation "x <- e ; k" := (bind e (λ x, k))
  (at level 20, e at level 100, k at level 200) : geas_scope.
Notation "' p <- e ; k" := (bind e (λ x, match x with p => k end))
  (at level 20, p pattern, e at level 100, k at level 200) : geas_scope.
Notation "e ;;; k" := (bind e (λ _, k))
  (at level 100, k at level 200, right associativity) : geas_scope.
#[global] Open Scope geas_scope.

(** ** Memory access *)

Definition load_block (p : Z) : M block :=
  λ m, match heap m !! p with Some b => Ret b m | None => Undef end.

(** [((GeasValue* )p)[i]] *)
Definition load_slot (p : Z) (i : nat) : M GeasValue :=
  λ m, match heap m !! p with
       | Some (BVals vs) =>
           match vs !! i with Some v => Ret v m | None => Undef end
       | _ => Undef
       end.

(** The argument [&((GeasValue* )p)[i]] of a call whose callee tests its pointer
    for NULL before it reads: slot 0 of a NULL array is the NULL pointer. *)
Definition load_opt (p : Z) (i : nat) : M (option GeasValue) :=
  if (p =? 0) && bool_decide (i = 0%nat) then ret None
  else v <- load_slot p i; ret (Some v).

Definition store_slot (p : Z) (i : nat) (v : GeasValue) : M unit :=
  λ m, match heap m !! p with
       | Some (BVals vs) =>
           if decide (i < length vs)%nat
           then Ret tt (set_heap (λ h, <[p := BVals (<[i := v]> vs)]> h) m)
           else Undef
       | _ => Undef
       end.

(** The first [n] bytes at [p], a [memcpy] source or a [memcmp] operand. *)
Definition load_bytes (p : Z) (n : nat) : M (list Z) :=
  λ m, match heap m !! p with
       | Some (BBytes bs) =>
           if decide (n ≤ length bs)%nat then Ret (take n bs) m else Undef
       | _ => Undef
       end.

(** [memcpy] of [bs] to byte offset [off] of block [p]. *)
Definition store_bytes (p : Z) (off : nat) (bs : list Z) : M unit :=
  λ m, match heap m !! p with
       | Some (BBytes old) =>
           if decide (off + length bs ≤ length old)%nat
           then Ret tt (set_heap (λ h, <[p := BBytes (list_inserts off bs old)]> h) m)
           else Undef
       | _ => Undef
       end.

(** [memset(p, 0, n * sizeof(GeasValue))] over the first [n] slots. *)
Definition zero_slots (p : Z) (n : nat) : M unit :=
  λ m, match heap m !! p with
       | Some (BVals vs) =>
           if decide (n ≤ length vs)%nat
           then Ret tt (set_heap (λ h, <[p := BVals (replicate n gzero ++ drop n vs)]> h) m)
           else Undef
       | _ => Undef
       end.

(** ** Allocation *)

Definition sizeof_GeasBlock : Z := 8.

(** What [n] caller bytes of fresh memory hold, seen as bytes or as slots. *)
Definition fresh_block (l : clib) (k : block_kind) (n : Z) : block :=
  match k with
  | KBytes => BBytes (replicate (Z.to_nat n) (lib_junk_byte l))
  | KVals => BVals (replicate (Z.to_nat (n / sizeof_GeasValue)) (lib_junk_val l))
  end.

(** [geas_bytes(c, n)]: one block of [n] bytes linked on the instance, or NULL.
    The request is [sizeof(GeasBlock) + n] in 64 bit arithmetic; when that sum
    wraps and the short request is granted, writing the block header already
    runs past the block. *)
Definition geas_bytes (k : block_kind) (c : Z) (n : Z) : M Z :=
  λ m,
    if c =? 0 then Ret 0 m else
    let want := u64 (sizeof_GeasBlock + n) in
    let m1 := Mem (heap m) (owned m) (brk m) (S (ticks m)) (lib m) in
    if lib_malloc (lib m) (ticks m) want then
      if want <? sizeof_GeasBlock then Undef else
      match owned m !! c with
      | None => Undef
      | Some bl =>
          Ret (brk m)
            (Mem (<[brk m := fresh_block (lib m) k n]> (heap m))
                 (<[c := brk m :: bl]> (owned m))
                 (brk m + 1) (S (ticks m)) (lib m))
      end
    else Ret 0 m1.

(** [geas_box(c)] *)
Definition geas_box (c : Z) : M Z :=
  p <- geas_bytes KVals c sizeof_GeasValue;
  if p =? 0 then ret 0 else zero_slots p 1;;; ret p.

(** The block walk of [contract_free_owned]: every block of the list goes. *)
Definition free_owned (c : Z) : M unit :=
  λ m, match owned m !! c with
       | None => Undef
       | Some bl =>
           Ret tt (Mem (foldr delete (heap m) bl) (<[c := []]> (owned m))
                       (brk m) (ticks m) (lib m))
       end.

(** A C [for] loop from [i], [n] rounds, whose body may stop it with a status. *)
Fixpoint for_slots (n : nat) (i : nat) (body : nat → M GeasStatus) : M GeasStatus :=
  match n with
  | O => ret GEAS_OK
  | S n' =>
      st <- body i;
      if st_ok st then for_slots n' (S i) body else ret st
  end.

(** ** Weakest preconditions

    [wp e m Q]: from [m], [e] runs to completion inside defined behaviour and
    its result satisfies [Q].  The rules are the development's symbolic
    execution; [wp_step] applies them. *)

Definition wp {A} (e : M A) (m : mem) (Q : A → mem → Prop) : Prop :=
  match e m with Ret a m' => Q a m' | _ => False end.

Lemma wp_ret {A} (a : A) m (Q : A → mem → Prop) : Q a m → wp (ret a) m Q.
Proof. done. Qed.

Lemma wp_bind {A B} (e : M A) (k : A → M B) m (Q : B → mem → Prop) :
  wp e m (λ a m', wp (k a) m' Q) → wp (bind e k) m Q.
Proof. unfold wp, bind. by destruct (e m). Qed.

Lemma wp_mono {A} (e : M A) m (Q Q' : A → mem → Prop) :
  wp e m Q → (∀ a m', Q a m' → Q' a m') → wp e m Q'.
Proof. unfold wp. destruct (e m); auto. Qed.

Lemma wp_run {A} (e : M A) m (Q : A → mem → Prop) :
  wp e m Q ↔ ∃ a m', e m = Ret a m' ∧ Q a m'.
Proof.
  unfold wp. destruct (e m) as [a m'| |]; split; [eauto|by intros (?&?&[= <- <-]&?)|..];
    try done; by intros (?&?&?&?).
Qed.

Lemma wp_load_slot p i m (Q : GeasValue → mem → Prop) vs v :
  heap m !! p = Some (BVals vs) → vs !! i = Some v →
  Q v m → wp (load_slot p i) m Q.
Proof. unfold wp, load_slot. by intros -> ->. Qed.

Lemma wp_load_opt p i m (Q : option GeasValue → mem → Prop) vs v :
  p ≠ 0 → heap m !! p = Some (BVals vs) → vs !! i = Some v →
  Q (Some v) m → wp (load_opt p i) m Q.
Proof.
  intros Hp Hh Hi HQ. unfold load_opt. rewrite (proj2 (Z.eqb_neq p 0)) by done. simpl.
  apply wp_bind. by eapply wp_load_slot.
Qed.

Lemma wp_store_slot p i v m (Q : unit → mem → Prop) vs :
  heap m !! p = Some (BVals vs) → (i < length vs)%nat →
  Q tt (set_heap (λ h, <[p := BVals (<[i := v]> vs)]> h) m) →
  wp (store_slot p i v) m Q.
Proof. unfold wp, store_slot. intros -> ?. by rewrite decide_True. Qed.

Lemma wp_load_bytes p n m (Q : list Z → mem → Prop) bs :
  heap m !! p = Some (BBytes bs) → (n ≤ length bs)%nat →
  Q (take n bs) m → wp (load_bytes p n) m Q.
Proof. unfold wp, load_bytes. intros -> ?. by rewrite decide_True. Qed.

Lemma wp_store_bytes p off bs m (Q : unit → mem → Prop) old :
  heap m !! p = Some (BBytes old) → (off + length bs ≤ length old)%nat →
  Q tt (set_heap (λ h, <[p := BBytes (list_inserts off bs old)]> h) m) →
  wp (store_bytes p off bs) m Q.
Proof. unfold wp, store_bytes. intros -> ?. by rewrite decide_True. Qed.

Lemma wp_zero_slots p n m (Q : unit → mem → Prop) vs :
  heap m !! p = Some (BVals vs) → (n ≤ length vs)%nat →
  Q tt (set_heap (λ h, <[p := BVals (replicate n gzero ++ drop n vs)]> h) m) →
  wp (zero_slots p n) m Q.
Proof. unfold wp, zero_slots. intros -> ?. by rewrite decide_True. Qed.

(** ** Well-formed memories and the growth order *)

(** Addresses in use are below the break and nonzero; the block lists hold only
    live blocks, no block twice and none on two instances. *)
Record mem_wf (m : mem) : Prop := MemWf {
  wf_brk : 0 < brk m;
  wf_dom : ∀ p, is_Some (heap m !! p) → 0 < p < brk m;
  wf_owned : ∀ c bl p, owned m !! c = Some bl → p ∈ bl → is_Some (heap m !! p);
  wf_nodup : ∀ c bl, owned m !! c = Some bl → NoDup bl;
  wf_disj : ∀ c c' bl bl' p, owned m !! c = Some bl → owned m !! c' = Some bl' →
    p ∈ bl → p ∈ bl' → c = c'
}.

(** [grown c m hn m']: from [m] to [m'] the heap gained exactly the blocks [hn],
    all of them on instance [c]'s list; nothing that was there has moved. *)
Record grown (c : Z) (m : mem) (hn : gmap Z block) (m' : mem) : Prop := Grown {
  gr_wf : mem_wf m';
  gr_heap : heap m' = hn ∪ heap m;
  gr_fresh : hn ##ₘ heap m;
  gr_new : ∀ p, is_Some (hn !! p) → brk m ≤ p;
  gr_owned : ∃ new old, owned m !! c = Some old ∧
    owned m' = <[c := new ++ old]> (owned m) ∧
    (∀ p, p ∈ new ↔ is_Some (hn !! p));
  gr_lib : lib m' = lib m;
  gr_ticks : (ticks m ≤ ticks m')%nat;
  gr_brk : brk m ≤ brk m'
}.

(** Some allocation request made between [m] and [m'] was refused. *)
Definition refused (m m' : mem) : Prop :=
  ∃ n z, (ticks m ≤ n < ticks m')%nat ∧ lib_malloc (lib m) n z = false.

Definition live (c : Z) (m : mem) : Prop := c ≠ 0 ∧ is_Some (owned m !! c).

(** The allocator never refuses. *)
Definition no_oom (m : mem) : Prop := ∀ n z, lib_malloc (lib m) n z = true.

Lemma no_oom_refused m m' : no_oom m → ¬ refused m m'.
Proof. intros H (n & z & _ & Hf). by rewrite H in Hf. Qed.

Section Growth.
Context (c : Z).
Implicit Types (m : mem) (h : gmap Z block).

Lemma grown_live m h m' : grown c m h m' → live c m → live c m'.
Proof.
  intros [_ _ _ _ (new & old & _ & E & _) _ _ _] [? _]. split; [done|].
  rewrite E, lookup_insert_eq. eauto.
Qed.

Lemma grown_incl m h m' : grown c m h m' → heap m ⊆ heap m'.
Proof. intros []. rewrite gr_heap0. by apply map_union_subseteq_r. Qed.

Lemma grown_incl_new m h m' : grown c m h m' → h ⊆ heap m'.
Proof. intros []. rewrite gr_heap0. by apply map_union_subseteq_l. Qed.

Lemma grown_refl m : mem_wf m → live c m → grown c m ∅ m.
Proof.
  intros Hwf [_ [old Hold]]. split; auto.
  - by rewrite map_empty_union.
  - apply map_disjoint_empty_l.
  - intros p [? Hp]. by rewrite lookup_empty in Hp.
  - exists [], old. split_and!; [done| |]; simpl.
    + by rewrite insert_id.
    + intros p. rewrite lookup_empty. split; [by intros ?%not_elem_of_nil|by intros [? ?]].
  - lia.
Qed.

Lemma grown_trans m h1 m1 h2 m2 :
  grown c m h1 m1 → grown c m1 h2 m2 → grown c m (h2 ∪ h1) m2.
Proof.
  intros [W1 H1 F1 N1 (n1 & o1 & O1 & E1 & I1) L1 T1 B1]
         [W2 H2 F2 N2 (n2 & o2 & O2 & E2 & I2) L2 T2 B2].
  rewrite E1, lookup_insert_eq in O2. simplify_eq.
  rewrite H1 in F2. apply map_disjoint_union_r in F2 as [F21 F2].
  split; auto; try congruence; try lia.
  - by rewrite H2, H1, map_union_assoc.
  - by apply map_disjoint_union_l.
  - intros p Hp. destruct (h2 !! p) eqn:E.
    + etransitivity; [exact B1|]. eauto.
    + apply N1. by rewrite lookup_union_r in Hp.
  - exists (n2 ++ n1), o1. split_and!; auto.
    + by rewrite E2, E1, insert_insert_eq, app_assoc.
    + intros p. rewrite elem_of_app, I1, I2, lookup_union_is_Some. tauto.
Qed.

Lemma refused_trans_l m h m1 m2 :
  grown c m1 h m2 → refused m m1 → refused m m2.
Proof. intros G (n & z & ? & ?). exists n, z. destruct G. split; [lia|done]. Qed.

Lemma refused_trans_r m h m1 m2 :
  grown c m h m1 → refused m1 m2 → refused m m2.
Proof.
  intros G (n & z & ? & Hf). destruct G. exists n, z. rewrite <- gr_lib0. split; [lia|done].
Qed.

(** A list freed with its owner: the blocks go, the other lists stand. *)
Definition without_list (x : Z) (bl : list Z) (m : mem) : mem :=
  Mem (foldr delete (heap m) bl) (delete x (owned m)) (brk m) (ticks m) (lib m).

Lemma mem_wf_without m x bl : mem_wf m → owned m !! x = Some bl → mem_wf (without_list x bl m).
Proof.
  intros [B D O N J] Hx.
  assert (K : ∀ p, p ∉ bl → foldr delete (heap m) bl !! p = heap m !! p).
  { intros p Hp. by rewrite lookup_foldr_delete, bool_decide_false. }
  split; simpl; [done|..].
  - intros p. rewrite lookup_foldr_delete. case_bool_decide; [by intros []|]. apply D.
  - intros y l p [Hne Hy]%lookup_delete_Some Hp. rewrite K; [by eapply O|].
    intros Hb. apply Hne. by eapply J.
  - intros y l [_ Hy]%lookup_delete_Some. by eapply N.
  - intros y z l k p [_ Hy]%lookup_delete_Some [_ Hz]%lookup_delete_Some. by apply J.
Qed.

(** Overwriting a block that is already there keeps a memory well formed. *)
Lemma mem_wf_update m p b :
  mem_wf m → is_Some (heap m !! p) → mem_wf (set_heap (λ h, <[p := b]> h) m).
Proof.
  intros [Hb Hd Ho Hn Hdj] Hp. split; simpl; auto.
  - intros q [->|[_ Hq]]%lookup_insert_is_Some; auto.
  - intros c' bl q Hc Hq. apply lookup_insert_is_Some.
    destruct (decide (p = q)); [by left|right]. eauto.
Qed.

Lemma grown_update m h m1 p b b' :
  grown c m h m1 → h !! p = Some b →
  grown c m (<[p := b']> h) (set_heap (λ hp, <[p := b']> hp) m1).
Proof.
  intros [W1 H1 F1 N1 (n1 & o1 & O1 & E1 & I1) L1 T1 B1] Hp.
  split; simpl; auto.
  - apply mem_wf_update; [done|]. rewrite H1. erewrite lookup_union_Some_l; eauto.
  - by rewrite H1, insert_union_l.
  - apply map_disjoint_insert_l_2; [|done]. eapply map_disjoint_Some_l; eauto.
  - intros q [->|[_ Hq]]%lookup_insert_is_Some; eauto.
  - exists n1, o1. split_and!; auto. intros q. rewrite I1.
    rewrite lookup_insert_is_Some. destruct (decide (p = q)) as [->|]; [|by intuition auto].
    rewrite Hp. split; eauto.
Qed.

End Growth.

(** ** The allocator's contract *)

(** A granted block, whatever it holds, and a refused request. *)
Lemma grown_alloc c m b : mem_wf m → live c m →
  ∃ bl, owned m !! c = Some bl ∧ brk m ≠ 0 ∧
    grown c m {[brk m := b]}
      (Mem (<[brk m := b]> (heap m)) (<[c := brk m :: bl]> (owned m)) (brk m + 1) (S (ticks m)) (lib m)).
Proof.
  intros Hwf [Hc [bl Hbl]]. exists bl. split; [done|].
  assert (Hfresh : heap m !! brk m = None).
  { apply eq_None_not_Some. intros Hs. apply (wf_dom _ Hwf) in Hs. lia. }
  destruct Hwf as [Hb Hd Ho Hnd Hdj]. split; [lia|].
  assert (Hnew : ∀ c' bl', owned m !! c' = Some bl' → brk m ∉ bl').
  { intros c' bl' Hl Hin. destruct (Ho _ _ _ Hl Hin). congruence. }
  split; simpl; auto; [|by rewrite insert_union_singleton_l|..].
  - split; simpl; [lia|..].
    + intros p [<-|[_ Hp]]%lookup_insert_is_Some; [lia|]. apply Hd in Hp. lia.
    + intros c' bl' p Hc' Hp. apply lookup_insert_is_Some.
      destruct (decide (brk m = p)); [by left|right; split; [done|]].
      apply lookup_insert_Some in Hc' as [[<- <-]|[? ?]]; [|eauto].
      apply elem_of_cons in Hp as [->|?]; [done|eauto].
    + intros c' bl' [[<- <-]|[? ?]]%lookup_insert_Some; [|eauto].
      constructor; eauto.
    + intros c1 c2 b1 b2 p [[<- <-]|[? ?]]%lookup_insert_Some
        [[<- <-]|[? ?]]%lookup_insert_Some;
        rewrite ?elem_of_cons; intros; destruct_or?; subst; eauto;
        exfalso; eapply Hnew; eauto.
  - apply map_disjoint_singleton_l_2. done.
  - intros p [? [-> _]%lookup_singleton_Some]. lia.
  - exists [brk m], bl. split_and!; auto. intros p.
    rewrite list_elem_of_singleton. split; [intros ->; rewrite lookup_singleton_eq; eauto|].
    by intros [? [-> _]%lookup_singleton_Some].
  - lia.
Qed.

(** A request outside the blocks of [c] moves nothing but the request count. *)
Lemma grown_tick c m hn m1 :
  grown c m hn m1 → grown c m hn (Mem (heap m1) (owned m1) (brk m1) (S (ticks m1)) (lib m1)).
Proof. intros [W]. split; simpl; auto. by destruct W; split. Qed.

Lemma wp_geas_bytes k c n m (Q : Z → mem → Prop) :
  mem_wf m → live c m → 0 <= n → sizeof_GeasBlock + n <= U64_MAX →
  (∀ m', grown c m {[brk m := fresh_block (lib m) k n]} m' → brk m ≠ 0 → Q (brk m) m') →
  (∀ m', grown c m ∅ m' → refused m m' → Q 0 m') →
  wp (geas_bytes k c n) m Q.
Proof.
  intros Hwf Hl Hn Hmax Hok Hoom. unfold wp, geas_bytes.
  rewrite (proj2 (Z.eqb_neq c 0)) by apply Hl.
  unfold sizeof_GeasBlock in *. rewrite u64_id by (z_norm; lia).
  destruct (lib_malloc (lib m) (ticks m) (8 + n)) eqn:El.
  - rewrite (proj2 (Z.ltb_ge _ _)) by lia.
    destruct (grown_alloc c m (fresh_block (lib m) k n) Hwf Hl) as (bl & -> & Hb & G). by apply Hok.
  - apply Hoom; [by apply grown_tick, grown_refl|]. exists (ticks m), (8 + n). simpl. split; [lia|done].
Qed.

Lemma wp_geas_box c m (Q : Z → mem → Prop) :
  mem_wf m → live c m →
  (∀ m', grown c m {[brk m := BVals [gzero]]} m' → brk m ≠ 0 → Q (brk m) m') →
  (∀ m', grown c m ∅ m' → refused m m' → Q 0 m') →
  wp (geas_box c) m Q.
Proof.
  intros Hwf Hlive Hok Hoom. unfold geas_box. apply wp_bind.
  apply wp_geas_bytes; [done..| |].
  - intros m1 G Hb. rewrite (proj2 (Z.eqb_neq (brk m) 0)) by done. apply wp_bind.
    apply (wp_zero_slots _ _ _ _ [lib_junk_val (lib m)]); [|simpl; lia|].
    { eapply lookup_weaken; [|by eapply grown_incl_new]. apply lookup_singleton_eq. }
    apply wp_ret, Hok; [|done].
    eapply (grown_update _ _ _ _ _ _ (BVals [gzero])) in G; [|apply lookup_singleton_eq].
    by rewrite insert_singleton_eq in G.
  - intros m1 G Href. simpl. apply wp_ret. by apply Hoom.
Qed.

(** Reads as equations, for the computations that do not change memory. *)
Lemma bind_Ret {A B} (e : M A) (k : A → M B) m m' a :
  e m = Ret a m' → bind e k m = k a m'.
Proof. unfold bind. by intros ->. Qed.

Lemma load_slot_eq p i m vs v :
  heap m !! p = Some (BVals vs) → vs !! i = Some v → load_slot p i m = Ret v m.
Proof. unfold load_slot. by intros -> ->. Qed.

Lemma load_opt_eq p i m vs v :
  p ≠ 0 → heap m !! p = Some (BVals vs) → vs !! i = Some v →
  load_opt p i m = Ret (Some v) m.
Proof.
  intros Hp Hh Hi. unfold load_opt. rewrite (proj2 (Z.eqb_neq p 0)) by done. simpl.
  by erewrite bind_Ret by (by eapply load_slot_eq).
Qed.

Lemma load_bytes_eq p n m bs :
  heap m !! p = Some (BBytes bs) → (n ≤ length bs)%nat →
  load_bytes p n m = Ret (take n bs) m.
Proof. unfold load_bytes. intros -> ?. by rewrite decide_True. Qed.

Lemma for_slots_step n i body m m1 :
  body i m = Ret GEAS_OK m1 → for_slots (S n) i body m = for_slots n (S i) body m1.
Proof. intros H. simpl. by rewrite (bind_Ret _ _ _ _ _ H). Qed.

Lemma store_slot_eq p i v m vs :
  heap m !! p = Some (BVals vs) → (i < length vs)%nat →
  store_slot p i v m = Ret tt (set_heap (λ h, <[p := BVals (<[i := v]> vs)]> h) m).
Proof. unfold store_slot. intros -> ?. by rewrite decide_True. Qed.
