(* ===== verification/Value.v ===== *)
(** * The value helpers

    [runtime.c], the sections "allocation helpers", "deep values" and "maps":
    strings, lists, tuples, maps, structural equality and the recursive copy.
    A pointer parameter the C code tests for NULL is an [option]; an [out]
    parameter is passed in and handed back, so what a failing call leaves in it
    is part of the model.  The two recursive functions take fuel; the theorems
    of [ValueSpec] give the fuel that is enough. *)
From S2P Require Import Prelude Abi Memory.

Definition is_ty (t : GeasTypeTag) (v : GeasValue) : bool := ty v =? tag_num t.

(** ** Strings *)

(** [src] is the [memcpy] source: heap memory in [geas_string_copy] itself, the
    caller's wire buffer when the decoder calls it. *)
Definition string_copy_from (c : Z) (src : M (list Z)) (len : Z) : M GeasValue :=
  dst <- geas_bytes KBytes c len;
  if dst =? 0 then ret (g_string 0 0) else
  (if len =? 0 then ret tt else bs <- src; store_bytes dst 0 bs);;;
  ret (g_string dst len).

Definition geas_string_copy (c p len : Z) : M GeasValue :=
  string_copy_from c (load_bytes p (Z.to_nat len)) len.

Definition geas_string_concat (c : Z) (a b out : option GeasValue)
    : M (GeasStatus * option GeasValue) :=
  match a, b, out with
  | Some a, Some b, Some _ =>
      if c =? 0 then ret (GEAS_ERR_TYPE, out) else
      if negb (is_ty GEAS_TY_STRING a) || negb (is_ty GEAS_TY_STRING b)
      then ret (GEAS_ERR_TYPE, out) else
      let n := u64 (s_len a + s_len b) in
      buf <- geas_bytes KBytes c n;
      if buf =? 0 then ret (GEAS_ERR_OOM, out) else
      (if s_len a =? 0 then ret tt
       else bs <- load_bytes (s_ptr a) (Z.to_nat (s_len a)); store_bytes buf 0 bs);;;
      (if s_len b =? 0 then ret tt
       else bs <- load_bytes (s_ptr b) (Z.to_nat (s_len b));
            store_bytes buf (Z.to_nat (s_len a)) bs);;;
      ret (GEAS_OK, Some (g_string buf n))
  | _, _, _ => ret (GEAS_ERR_TYPE, out)
  end.

Definition geas_string_eq (a b : option GeasValue) : M bool :=
  match a, b with
  | Some a, Some b =>
      if negb (is_ty GEAS_TY_STRING a) || negb (is_ty GEAS_TY_STRING b) then ret false else
      if negb (s_len a =? s_len b) then ret false else
      if s_len a =? 0 then ret true else
      x <- load_bytes (s_ptr a) (Z.to_nat (s_len a));
      y <- load_bytes (s_ptr b) (Z.to_nat (s_len a));
      ret (bool_decide (x = y))
  | _, _ => ret false
  end.

(** ** Lists and tuples *)

(** The slots a [memset] or [memcpy] of [n * sizeof(GeasValue)] bytes covers,
    the product taken in 64 bits. *)
Definition slot_bytes (n : Z) : Z := u64 (n * sizeof_GeasValue).
Definition slot_count (n : Z) : nat := Z.to_nat (slot_bytes n / sizeof_GeasValue).

(** [memcpy] of [n] slots between two blocks. *)
Definition copy_slots (src dst : Z) (n : nat) : M GeasStatus :=
  for_slots n 0 (λ i, v <- load_slot src i; store_slot dst i v;;; ret GEAS_OK).

Definition geas_list_new (c elem_ty cap : Z) (out : option GeasValue)
    : M (GeasStatus * option GeasValue) :=
  match out with
  | None => ret (GEAS_ERR_TYPE, out)
  | Some _ =>
      if c =? 0 then ret (GEAS_ERR_TYPE, out) else
      let empty := g_seq GEAS_TY_LIST 0 0 0 0 elem_ty in
      if cap =? 0 then ret (GEAS_OK, Some empty) else
      data <- geas_bytes KVals c (slot_bytes cap);
      if data =? 0 then ret (GEAS_ERR_OOM, Some empty) else
      zero_slots data (slot_count cap);;;
      ret (GEAS_OK, Some (g_seq GEAS_TY_LIST 0 data 0 cap elem_ty))
  end.

(** The growth step the list and the map share: a new block of [cap] slots, the
    live slots moved over; [None] when the block cannot be had. *)
Definition grow_slots (c data len cap : Z) : M (option Z) :=
  ndata <- geas_bytes KVals c (slot_bytes cap);
  if ndata =? 0 then ret None else
  (if len =? 0 then ret GEAS_OK else copy_slots data ndata (slot_count len));;;
  ret (Some ndata).

Definition geas_list_push (c : Z) (list elem : option GeasValue)
    : M (GeasStatus * option GeasValue) :=
  match list, elem with
  | Some l, Some e =>
      if c =? 0 then ret (GEAS_ERR_TYPE, list) else
      if negb (is_ty GEAS_TY_LIST l) then ret (GEAS_ERR_TYPE, list) else
      if negb (ty e =? l_elem l) then ret (GEAS_ERR_TYPE, list) else
      let put data cap :=
        store_slot data (Z.to_nat (l_len l)) e;;;
        ret (GEAS_OK, Some (GV (ty l) (tag l) data (u64 (l_len l + 1)) cap (w3 l))) in
      if l_len l =? l_cap l then
        let cap := if l_cap l =? 0 then 4 else u64 (l_cap l * 2) in
        r <- grow_slots c (l_data l) (l_len l) cap;
        match r with
        | None => ret (GEAS_ERR_OOM, list)
        | Some data => put data cap
        end
      else put (l_data l) (l_cap l)
  | _, _ => ret (GEAS_ERR_TYPE, list)
  end.

(** The address handed back: the slot array and the index into it. *)
Definition geas_list_get (v : option GeasValue) (idx : Z) : option (Z * Z) :=
  match v with
  | None => None
  | Some v =>
      if negb (is_ty GEAS_TY_LIST v) && negb (is_ty GEAS_TY_TUPLE v) then None else
      if l_len v <=? idx then None else Some (l_data v, idx)
  end.

Definition geas_list_set (list : option GeasValue) (idx : Z) (elem : option GeasValue)
    : M GeasStatus :=
  match list, elem with
  | Some l, Some e =>
      if negb (is_ty GEAS_TY_LIST l) then ret GEAS_ERR_TYPE else
      if negb (ty e =? l_elem l) then ret GEAS_ERR_TYPE else
      if l_len l <=? idx then ret GEAS_ERR_TYPE else
      store_slot (l_data l) (Z.to_nat idx) e;;; ret GEAS_OK
  | _, _ => ret GEAS_ERR_TYPE
  end.

Definition geas_tuple_new (c count : Z) (out : option GeasValue)
    : M (GeasStatus * option GeasValue) :=
  match out with
  | None => ret (GEAS_ERR_TYPE, out)
  | Some _ =>
      if c =? 0 then ret (GEAS_ERR_TYPE, out) else
      let empty := g_seq GEAS_TY_TUPLE 0 0 0 0 0 in
      if count =? 0 then ret (GEAS_OK, Some empty) else
      data <- geas_bytes KVals c (slot_bytes count);
      if data =? 0 then ret (GEAS_ERR_OOM, Some empty) else
      zero_slots data (slot_count count);;;
      ret (GEAS_OK, Some (g_seq GEAS_TY_TUPLE 0 data count count 0))
  end.

(** ** Structural equality *)

(** The element loop: stops with [false] at the first unequal pair. *)
Fixpoint eq_slots (veq : option GeasValue → option GeasValue → M bool)
    (pa pb : Z) (n i : nat) : M bool :=
  match n with
  | O => ret true
  | S n' =>
      x <- load_opt pa i;
      y <- load_opt pb i;
      e <- veq x y;
      if e then eq_slots veq pa pb n' (S i) else ret false
  end.

Fixpoint geas_value_eq (fuel : nat) (a b : option GeasValue) : M bool :=
  match fuel, a, b with
  | O, _, _ => nofuel
  | S fuel', Some a, Some b =>
      if negb (ty a =? ty b) then ret false else
      match tag_of (ty a) with
      | Some GEAS_TY_UNIT => ret true
      | Some GEAS_TY_INT => ret (as_i a =? as_i b)
      | Some GEAS_TY_UINT => ret (as_u a =? as_u b)
      | Some GEAS_TY_FLOAT => ret (f64_eq (as_f a) (as_f b))
      | Some GEAS_TY_BOOL | Some GEAS_TY_BYTE => ret (as_b a =? as_b b)
      | Some GEAS_TY_CHAR => ret (as_ch a =? as_ch b)
      | Some GEAS_TY_STRING => geas_string_eq (Some a) (Some b)
      | Some GEAS_TY_LIST | Some GEAS_TY_MAP | Some GEAS_TY_TUPLE
      | Some GEAS_TY_RECORD | Some GEAS_TY_SUM =>
          if negb (tag a =? tag b) then ret false else
          if negb (l_len a =? l_len b) then ret false else
          eq_slots (geas_value_eq fuel') (l_data a) (l_data b) (Z.to_nat (l_len a)) 0
      | Some GEAS_TY_OPTION | Some GEAS_TY_RESULT =>
          if negb (tag a =? tag b) then ret false else
          if (as_box a =? 0) && (as_box b =? 0) then ret true else
          if (as_box a =? 0) || (as_box b =? 0) then ret false else
          x <- load_opt (as_box a) 0;
          y <- load_opt (as_box b) 0;
          geas_value_eq fuel' x y
      | Some GEAS_TY_INSTANCE => ret (as_box a =? as_box b)
      | Some GEAS_TY_PLEDGE_REF | None => ret false
      end
  | _, _, _ => ret false
  end.

(** ** The recursive copy *)

(** The element loop: [data[i]] receives whatever the recursive call left in
    its [dst], then a failing status stops the loop. *)
Definition copy_elems
    (copy : option GeasValue → GeasValue → M (GeasStatus * GeasValue))
    (from data : Z) (n : nat) : M GeasStatus :=
  for_slots n 0 (λ i,
    x <- load_opt from i;
    d <- load_slot data i;
    '(st, d') <- copy x d;
    store_slot data i d';;; ret st).

(** [dst] is a local or a live slot at every call, so it is never NULL; it is
    handed back with the status. *)
Fixpoint geas_value_deep_copy (fuel : nat) (c : Z) (src : option GeasValue)
    (dst : GeasValue) : M (GeasStatus * GeasValue) :=
  match fuel, src with
  | O, _ => nofuel
  | S _, None => ret (GEAS_ERR_TYPE, dst)
  | S fuel', Some src =>
      if c =? 0 then ret (GEAS_ERR_TYPE, dst) else
      match tag_of (ty src) with
      | Some GEAS_TY_UNIT | Some GEAS_TY_INT | Some GEAS_TY_UINT | Some GEAS_TY_FLOAT
      | Some GEAS_TY_BOOL | Some GEAS_TY_BYTE | Some GEAS_TY_CHAR
      | Some GEAS_TY_PLEDGE_REF | Some GEAS_TY_INSTANCE => ret (GEAS_OK, src)
      | Some GEAS_TY_STRING =>
          d <- geas_string_copy c (s_ptr src) (s_len src);
          if negb (s_len src =? 0) && (s_ptr d =? 0)
          then ret (GEAS_ERR_OOM, d) else ret (GEAS_OK, d)
      | Some GEAS_TY_LIST | Some GEAS_TY_MAP | Some GEAS_TY_TUPLE
      | Some GEAS_TY_RECORD | Some GEAS_TY_SUM =>
          let n := l_len src in
          let d data := GV (ty src) (tag src) data n n (l_elem src) in
          if n =? 0 then ret (GEAS_OK, d 0) else
          data <- geas_bytes KVals c (slot_bytes n);
          if data =? 0 then ret (GEAS_ERR_OOM, d 0) else
          st <- copy_elems (geas_value_deep_copy fuel' c) (l_data src) data (Z.to_nat n);
          if st_ok st then ret (GEAS_OK, d data) else ret (st, d 0)
      | Some GEAS_TY_OPTION | Some GEAS_TY_RESULT =>
          let d box := GV (ty src) (tag src) box 0 0 0 in
          if as_box src =? 0 then ret (GEAS_OK, d 0) else
          boxed <- geas_box c;
          if boxed =? 0 then ret (GEAS_ERR_OOM, d 0) else
          x <- load_opt (as_box src) 0;
          b <- load_slot boxed 0;
          '(st, b') <- geas_value_deep_copy fuel' c x b;
          store_slot boxed 0 b';;;
          if st_ok st then ret (GEAS_OK, d boxed) else ret (st, d 0)
      | None => ret (GEAS_ERR_TYPE, dst)
      end
  end.

(** ** Maps *)

Definition geas_map_new (c key_ty : Z) : GeasValue :=
  g_seq GEAS_TY_MAP 0 0 0 0 key_ty.

(** The key scan: [i] is a key slot, [i + 1 < len] bounds the loop; [n] rounds
    are enough when [len <= i + 2 * n]. *)
Fixpoint find_slots (fuel : nat) (e len : Z) (k : GeasValue) (n : nat) (i : Z) : M Z :=
  match n with
  | O => ret (-1)
  | S n' =>
      if negb (i + 1 <? len) then ret (-1) else
      x <- load_opt e (Z.to_nat i);
      hit <- geas_value_eq fuel x (Some k);
      if hit then ret (i + 1) else find_slots fuel e len k n' (i + 2)
  end.

Definition map_find (fuel : nat) (m k : GeasValue) : M Z :=
  find_slots fuel (l_data m) (l_len m) k (Z.to_nat (l_len m / 2)) 0.

Definition geas_map_set (fuel : nat) (c : Z) (m k v : option GeasValue)
    : M (GeasStatus * option GeasValue) :=
  match m, k, v with
  | Some mv, Some k, Some v =>
      if c =? 0 then ret (GEAS_ERR_TYPE, m) else
      if negb (is_ty GEAS_TY_MAP mv) then ret (GEAS_ERR_TYPE, m) else
      if negb (ty k =? l_elem mv) then ret (GEAS_ERR_TYPE, m) else
      '(st, vc) <- geas_value_deep_copy fuel c (Some v) gzero;
      if negb (st_ok st) then ret (st, m) else
      hit <- map_find fuel mv k;
      if 0 <=? hit then store_slot (l_data mv) (Z.to_nat hit) vc;;; ret (GEAS_OK, m) else
      '(st, kc) <- geas_value_deep_copy fuel c (Some k) gzero;
      if negb (st_ok st) then ret (st, m) else
      let put data cap :=
        store_slot data (Z.to_nat (l_len mv)) kc;;;
        store_slot data (Z.to_nat (l_len mv + 1)) vc;;;
        ret (GEAS_OK, Some (GV (ty mv) (tag mv) data (u64 (l_len mv + 2)) cap (w3 mv))) in
      if l_cap mv <? u64 (l_len mv + 2) then
        let cap := if l_cap mv =? 0 then 8 else u64 (l_cap mv * 2) in
        r <- grow_slots c (l_data mv) (l_len mv) cap;
        match r with
        | None => ret (GEAS_ERR_OOM, m)
        | Some data => put data cap
        end
      else put (l_data mv) (l_cap mv)
  | _, _, _ => ret (GEAS_ERR_TYPE, m)
  end.

(** A hit is the slot array and the index of the value slot. *)
Definition geas_map_get (fuel : nat) (m k : option GeasValue) : M (option (Z * Z)) :=
  match m, k with
  | Some m, Some k =>
      if negb (is_ty GEAS_TY_MAP m) then ret None else
      if negb (ty k =? l_elem m) then ret None else
      hit <- map_find fuel m k;
      if hit <? 0 then ret None else ret (Some (l_data m, hit))
  | _, _ => ret None
  end.
