(* ===== verification/ValueSpec.v ===== *)
(** * What a value is, and what the value helpers do to it

    [val] is the mathematical value a [GeasValue] struct and the blocks behind
    its pointers stand for; [repr h v t] says struct [v] in heap [h] stands for
    [t].  The helpers of [Value] are proved against operations on [val]: the
    copy builds the same value out of fresh blocks of the owning instance, the
    comparison decides [veq], list push appends, map set is insertion-ordered
    association-list update. *)
From S2P Require Import Prelude Abi Memory Value.

#[local] Set Warnings "-register-all".

(** ** Values *)

Inductive val :=
| VScalar (k : GeasTypeTag) (tg w : Z)
| VString (tg : Z) (bs : list Z)
| VSeq (k : GeasTypeTag) (tg elem : Z) (els : list val)
| VBox (k : GeasTypeTag) (tg : Z) (b : option val).

Section ValInd.
Context (P : val → Prop).
Hypothesis Hscalar : ∀ k tg w, P (VScalar k tg w).
Hypothesis Hstring : ∀ tg bs, P (VString tg bs).
Hypothesis Hseq : ∀ k tg elem els, Forall P els → P (VSeq k tg elem els).
Hypothesis Hnone : ∀ k tg, P (VBox k tg None).
Hypothesis Hsome : ∀ k tg t, P t → P (VBox k tg (Some t)).

Fixpoint val_ind' (t : val) : P t :=
  match t with
  | VScalar k tg w => Hscalar k tg w
  | VString tg bs => Hstring tg bs
  | VSeq k tg elem els =>
      Hseq k tg elem els
        ((fix go (l : list val) : Forall P l :=
            match l with
            | [] => List.Forall_nil P
            | x :: l' => List.Forall_cons P x l' (val_ind' x) (go l')
            end) els)
  | VBox k tg None => Hnone k tg
  | VBox k tg (Some t') => Hsome k tg t' (val_ind' t')
  end.
End ValInd.

(** The type tag a value carries. *)
Definition val_ty (t : val) : GeasTypeTag :=
  match t with
  | VScalar k _ _ => k | VString _ _ => GEAS_TY_STRING
  | VSeq k _ _ _ => k | VBox k _ _ => k
  end.

(** Recursion depth: enough fuel for the copy and the comparison. *)
Fixpoint height (t : val) : nat :=
  match t with
  | VScalar _ _ _ | VString _ _ => 1
  | VSeq _ _ _ els => S ((fix go l := match l with [] => O | x :: l' => Nat.max (height x) (go l') end) els)
  | VBox _ _ None => 1
  | VBox _ _ (Some t') => S (height t')
  end%nat.

Definition heights (els : list val) : nat :=
  foldr (λ x n, Nat.max (height x) n) 0%nat els.

(** ** Representation *)

Definition fits_bytes (n : nat) : Prop := sizeof_GeasBlock + Z.of_nat n <= U64_MAX.
Definition fits_slots (n : nat) : Prop :=
  sizeof_GeasBlock + Z.of_nat n * sizeof_GeasValue <= U64_MAX.

Fixpoint repr (h : gmap Z block) (v : GeasValue) (t : val) {struct t} : Prop :=
  match t with
  | VScalar k tg w =>
      ty v = tag_num k ∧ scalar_tag k = true ∧ tag v = tg ∧ scalar_arm k v = w
  | VString tg bs =>
      ty v = tag_num GEAS_TY_STRING ∧ tag v = tg ∧ s_len v = Z.of_nat (length bs) ∧
      fits_bytes (length bs) ∧
      (bs = [] ∨ s_ptr v ≠ 0 ∧ ∃ raw, h !! s_ptr v = Some (BBytes raw) ∧
                                 take (length bs) raw = bs)
  | VSeq k tg elem els =>
      ty v = tag_num k ∧ seq_tag k = true ∧ tag v = tg ∧ l_elem v = elem ∧
      l_len v = Z.of_nat (length els) ∧ fits_slots (length els) ∧
      (els = [] ∨ l_data v ≠ 0 ∧ ∃ slots, h !! l_data v = Some (BVals slots) ∧
        (fix go (ss : list GeasValue) (ts : list val) {struct ts} : Prop :=
           match ts with
           | [] => True
           | t' :: ts' => match ss with [] => False | s :: ss' => repr h s t' ∧ go ss' ts' end
           end) slots els)
  | VBox k tg b =>
      ty v = tag_num k ∧ box_tag k = true ∧ tag v = tg ∧
      match b with
      | None => as_box v = 0
      | Some t' => as_box v ≠ 0 ∧ ∃ s ss, h !! as_box v = Some (BVals (s :: ss)) ∧ repr h s t'
      end
  end.

(** Slot array [ss] starts with the representations of [ts]. *)
Definition reprs (h : gmap Z block) (ss : list GeasValue) (ts : list val) : Prop :=
  ∀ i t, ts !! i = Some t → ∃ s, ss !! i = Some s ∧ repr h s t.

(** ** The operations on values *)

Definition scalar_eq (k : GeasTypeTag) (w w' : Z) : bool :=
  match k with
  | GEAS_TY_UNIT => true
  | GEAS_TY_INT => i64 w =? i64 w'
  | GEAS_TY_FLOAT => f64_eq w w'
  | GEAS_TY_PLEDGE_REF => false
  | _ => w =? w'
  end.

Fixpoint veq (a b : val) : bool :=
  match a, b with
  | VScalar k _ w, VScalar k' _ w' => bool_decide (k = k') && scalar_eq k w w'
  | VString _ x, VString _ y => bool_decide (x = y)
  | VSeq k tg _ xs, VSeq k' tg' _ ys =>
      bool_decide (k = k') && (tg =? tg') &&
      (fix go xs ys :=
         match xs, ys with
         | [], [] => true
         | x :: xs', y :: ys' => veq x y && go xs' ys'
         | _, _ => false
         end) xs ys
  | VBox k tg x, VBox k' tg' y =>
      bool_decide (k = k') && (tg =? tg') &&
      match x, y with
      | None, None => true
      | Some x, Some y => veq x y
      | _, _ => false
      end
  | _, _ => false
  end.

Fixpoint veqs (xs ys : list val) : bool :=
  match xs, ys with
  | [], [] => true
  | x :: xs', y :: ys' => veq x y && veqs xs' ys'
  | _, _ => false
  end.

(** What a deep copy keeps: everything but the unused variant tag of a string,
    which [geas_string_copy] writes as 0. *)
Fixpoint scrub (t : val) : val :=
  match t with
  | VScalar k tg w => VScalar k tg w
  | VString _ bs => VString 0 bs
  | VSeq k tg elem els => VSeq k tg elem (map scrub els)
  | VBox k tg b => VBox k tg (option_map scrub b)
  end.

(** Values that compare equal to themselves: no NaN and no pledge reference. *)
Fixpoint self_equal (t : val) : bool :=
  match t with
  | VScalar k _ w => scalar_eq k w w
  | VString _ _ => true
  | VSeq _ _ _ els => forallb self_equal els
  | VBox _ _ b => match b with None => true | Some t' => self_equal t' end
  end.

(** ** Structure lemmas *)

Lemma height_seq k tg e els : height (VSeq k tg e els) = S (heights els).
Proof. done. Qed.

Lemma heights_lookup els i t : els !! i = Some t → (height t ≤ heights els)%nat.
Proof.
  revert i; induction els as [|x els IH]; intros [|i] Hi; simplify_eq/=; [lia|].
  apply IH in Hi. lia.
Qed.

Lemma height_pos t : (1 ≤ height t)%nat.
Proof. destruct t as [| | |?? [|]]; simpl; lia. Qed.

Lemma reprs_go h ss ts :
  (fix go (ss : list GeasValue) (ts : list val) {struct ts} : Prop :=
     match ts with
     | [] => True
     | t' :: ts' => match ss with [] => False | s :: ss' => repr h s t' ∧ go ss' ts' end
     end) ss ts ↔ reprs h ss ts.
Proof.
  revert ss; induction ts as [|t ts IH]; intros ss.
  - split; [by intros _ i t|done].
  - destruct ss as [|s ss].
    + split; [done|]. intros H. by destruct (H 0%nat t eq_refl) as (? & ? & _).
    + rewrite (IH ss). split.
      * intros [Hs Hss] [|i] t' Hi; simplify_eq/=; eauto.
      * intros H. split; [destruct (H 0%nat t eq_refl) as (? & ? & ?); by simplify_eq/=|].
        intros i t' Hi. apply (H (S i) t' Hi).
Qed.

Lemma repr_seq h v k tg e els :
  repr h v (VSeq k tg e els) ↔
  ty v = tag_num k ∧ seq_tag k = true ∧ tag v = tg ∧ l_elem v = e ∧
  l_len v = Z.of_nat (length els) ∧ fits_slots (length els) ∧
  (els = [] ∨ l_data v ≠ 0 ∧ ∃ slots, h !! l_data v = Some (BVals slots) ∧ reprs h slots els).
Proof. simpl. setoid_rewrite reprs_go. done. Qed.

Lemma reprs_nil h ss : reprs h ss [].
Proof. by intros i t. Qed.

Lemma reprs_length h ss ts : reprs h ss ts → (length ts ≤ length ss)%nat.
Proof.
  intros H. destruct (decide (length ts ≤ length ss)%nat) as [|Hn]; [done|].
  destruct (lookup_lt_is_Some_2 ts (length ss)) as [t Ht]; [lia|].
  destruct (H _ _ Ht) as (s & Hs & _). apply lookup_lt_Some in Hs. lia.
Qed.

Lemma repr_mono h h' t : ∀ v, h ⊆ h' → repr h v t → repr h' v t.
Proof.
  induction t as [| |k tg e els IH| |k tg t IH] using val_ind'; intros v Hsub.
  - done.
  - intros (? & ? & ? & ? & [?|(? & raw & ? & ?)]); split_and!; auto.
    right. split; [done|]. exists raw. split; [by eapply lookup_weaken|done].
  - rewrite !repr_seq. intros (? & ? & ? & ? & ? & ? & [?|(? & ss & ? & Hr)]); split_and!; auto.
    right. split; [done|]. exists ss. split; [by eapply lookup_weaken|].
    intros i t Hi. destruct (Hr i t Hi) as (s & ? & ?). exists s. split; [done|].
    eapply (Forall_lookup_1 _ _ _ _ IH); eauto.
  - done.
  - intros (? & ? & ? & ? & s & ss & ? & ?). split_and!; auto.
    exists s, ss. split; [by eapply lookup_weaken|auto].
Qed.

Lemma reprs_mono h h' ss ts : h ⊆ h' → reprs h ss ts → reprs h' ss ts.
Proof. intros Hsub H i t Hi. destruct (H i t Hi) as (s & ? & ?). eauto using repr_mono. Qed.

(** Storing at the end of the represented prefix extends it. *)
Lemma reprs_snoc h ss ts s t :
  reprs h ss ts → (length ts < length ss)%nat → repr h s t →
  reprs h (<[length ts := s]> ss) (ts ++ [t]).
Proof.
  intros H Hlt Hs i t' Hi. apply lookup_app_Some in Hi as [Hi|[Hge Hi]].
  - pose proof (lookup_lt_Some _ _ _ Hi). destruct (H _ _ Hi) as (s' & ? & ?).
    exists s'. rewrite list_lookup_insert_ne by lia. done.
  - apply list_lookup_singleton_Some in Hi as [Hi ->].
    exists s. split; [|done]. replace i with (length ts) by lia. by apply list_lookup_insert_eq.
Qed.

Lemma repr_ty h v t : repr h v t → ty v = tag_num (val_ty t).
Proof. destruct t; simpl; tauto. Qed.

Lemma veqs_go xs ys :
  (fix go xs ys :=
     match xs, ys with
     | [], [] => true
     | x :: xs', y :: ys' => veq x y && go xs' ys'
     | _, _ => false
     end) xs ys = veqs xs ys.
Proof. revert ys; induction xs; intros [|? ?]; simpl; congruence. Qed.

Lemma veq_seq k tg e xs k' tg' e' ys :
  veq (VSeq k tg e xs) (VSeq k' tg' e' ys) =
  bool_decide (k = k') && (tg =? tg') && veqs xs ys.
Proof. simpl. by rewrite veqs_go. Qed.

Lemma length_scrub els : length (map scrub els) = length els.
Proof. apply length_map. Qed.

(** ** The string copy *)

(** [bs] is readable at [p]. *)
Definition bytes_at (h : gmap Z block) (p : Z) (bs : list Z) : Prop :=
  bs = [] ∨ p ≠ 0 ∧ ∃ raw, h !! p = Some (BBytes raw) ∧ take (length bs) raw = bs.

Lemma take_prefix_length (bs raw : list Z) :
  take (length bs) raw = bs → (length bs ≤ length raw)%nat.
Proof. intros H. rewrite <- H, length_take. lia. Qed.

Lemma list_inserts_take_eq {A} (bs old : list A) :
  (length bs ≤ length old)%nat → take (length bs) (list_inserts 0 bs old) = bs.
Proof.
  intros H. apply list_eq. intros i. destruct (decide (i < length bs)%nat) as [Hi|Hi].
  - rewrite lookup_take_lt by done. rewrite list_lookup_inserts; try lia.
    by rewrite Nat.sub_0_r.
  - rewrite lookup_take_ge by lia. symmetry. apply lookup_ge_None_2. lia.
Qed.

Lemma wp_string_copy_from c src bs m :
  mem_wf m → live c m → fits_bytes (length bs) →
  (bs = [] ∨ ∀ m', heap m ⊆ heap m' → src m' = Ret bs m') →
  wp (string_copy_from c src (Z.of_nat (length bs))) m (λ d m', ∃ hn, grown c m hn m' ∧
    ((s_ptr d ≠ 0 ∧ repr hn d (VString 0 bs)) ∨ (d = g_string 0 0 ∧ refused m m'))).
Proof.
  intros Hwf Hlive Hfits Hp. unfold string_copy_from. apply wp_bind.
  apply wp_geas_bytes; auto; [lia|..].
  - intros m' G Hb. rewrite (proj2 (Z.eqb_neq _ 0)) by done. apply wp_bind.
    set (blk := fresh_block _ _ _) in G.
    assert (Hblk : heap m' !! brk m = Some blk).
    { eapply lookup_weaken; [|eapply grown_incl_new; eauto]. apply lookup_singleton_eq. }
    destruct (Z.eqb_spec (Z.of_nat (length bs)) 0) as [E0|Hne].
    + apply wp_ret, wp_ret. exists {[brk m := blk]}. split; [done|]. left.
      split; [done|]. destruct bs; [|done]. simpl. split_and!; auto.
    + destruct Hp as [->|Hsrc]; [done|]. apply wp_bind, wp_run. exists bs, m'.
      split; [apply Hsrc; by eapply grown_incl|]. eapply wp_store_bytes; [exact Hblk|..].
      { rewrite length_replicate, Nat2Z.id. lia. }
      apply wp_ret. eexists. split.
      { eapply grown_update; [exact G|]. apply lookup_singleton_eq. }
      left. split; [done|]. simpl. split_and!; auto. right. split; [done|].
      eexists. rewrite lookup_insert_eq. split; [done|].
      apply list_inserts_take_eq. by rewrite length_replicate, Nat2Z.id.
  - intros m' G Hr. rewrite Z.eqb_refl. apply wp_ret. eauto.
Qed.

Lemma wp_string_copy c p bs m :
  mem_wf m → live c m → fits_bytes (length bs) → bytes_at (heap m) p bs →
  wp (geas_string_copy c p (Z.of_nat (length bs))) m (λ d m', ∃ hn, grown c m hn m' ∧
    ((s_ptr d ≠ 0 ∧ repr hn d (VString 0 bs)) ∨ (d = g_string 0 0 ∧ refused m m'))).
Proof.
  intros Hwf Hlive Hfits Hp. apply wp_string_copy_from; auto.
  destruct Hp as [?|(Hp0 & raw & Hraw & Htk)]; [by left|right]. intros m' Hsub.
  rewrite Nat2Z.id. rewrite <- Htk at 2. apply load_bytes_eq.
  - by eapply lookup_weaken.
  - by apply take_prefix_length.
Qed.

(** ** The recursive copy *)

(** What a copy into instance [c] promises: the heap grows by blocks of [c]
    only, and the result is represented inside those new blocks. *)
Definition copies (c : Z) (m : mem) (t : val) (r : GeasStatus * GeasValue) (m' : mem) : Prop :=
  ∃ hn, grown c m hn m' ∧
    ((r.1 = GEAS_OK ∧ repr hn r.2 (scrub t)) ∨ (r.1 = GEAS_ERR_OOM ∧ refused m m')).

Definition copy_ok (fuel : nat) (c : Z) (t : val) : Prop := ∀ src dst m,
  mem_wf m → live c m → repr (heap m) src t →
  wp (geas_value_deep_copy fuel c (Some src) dst) m (copies c m t).

Lemma slot_bytes_fits n :
  fits_slots n → slot_bytes (Z.of_nat n) = Z.of_nat n * 40 ∧ slot_count (Z.of_nat n) = n.
Proof.
  unfold fits_slots, slot_count, slot_bytes, sizeof_GeasBlock, sizeof_GeasValue.
  intros H. rewrite u64_id by (z_norm; lia). split; [done|].
  rewrite Z.div_mul by lia. lia.
Qed.

(** Filling slot [i] of a new array with a value made of yet newer blocks. *)
Lemma fill_grown c m data ds hd m1 h2 m2 i d :
  grown c m (<[data := BVals ds]> hd) m1 → hd !! data = None → grown c m1 h2 m2 →
  grown c m (<[data := BVals (<[i := d]> ds)]> (h2 ∪ hd))
    (set_heap (λ h, <[data := BVals (<[i := d]> ds)]> h) m2) ∧ (h2 ∪ hd) !! data = None.
Proof.
  intros G Hdata G2.
  assert (Hd2 : h2 !! data = None).
  { eapply map_disjoint_Some_r; [exact (gr_fresh _ _ _ _ G2)|].
    eapply lookup_weaken; [|eapply grown_incl_new; eauto]. apply lookup_insert_eq. }
  split; [|by apply lookup_union_None]. pose proof (grown_trans _ _ _ _ _ _ G G2) as G12.
  rewrite <- insert_union_r in G12 by done.
  eapply grown_update in G12; [|apply lookup_insert_eq]. by rewrite insert_insert_eq in G12.
Qed.

Lemma fill_reprs c m data ds hd m1 h2 m2 els d t :
  grown c m (<[data := BVals ds]> hd) m1 → hd !! data = None → grown c m1 h2 m2 →
  reprs hd ds els → (length els < length ds)%nat → repr h2 d t →
  reprs (h2 ∪ hd) (<[length els := d]> ds) (els ++ [t]).
Proof.
  intros G Hdata G2 Hr Hl Hrep. apply reprs_snoc; [|done|].
  - eapply reprs_mono; [|exact Hr]. apply map_union_subseteq_r.
    pose proof (gr_fresh _ _ _ _ G2) as F. rewrite (gr_heap _ _ _ _ G) in F.
    apply map_disjoint_union_r in F as [F _]. by apply map_disjoint_insert_r in F as [_ ?].
  - eapply repr_mono; [apply map_union_subseteq_l|exact Hrep].
Qed.

(** The element loop, from element [i] on: slot [i..] still to be filled, slots
    below [i] already represented in the new blocks [hd] beside the array. *)
Lemma wp_copy_elems fuel c m els from ss data :
  (∀ t, t ∈ els → copy_ok fuel c t) →
  from ≠ 0 → heap m !! from = Some (BVals ss) → reprs (heap m) ss els →
  ∀ n i m1 hd ds,
    (i + n = length els)%nat →
    grown c m (<[data := BVals ds]> hd) m1 → hd !! data = None → live c m →
    (length els ≤ length ds)%nat → reprs hd ds (map scrub (take i els)) →
    wp (for_slots n i (λ i,
          x <- load_opt from i; d <- load_slot data i;
          '(st, d') <- geas_value_deep_copy fuel c x d;
          store_slot data i d';;; ret st)) m1
      (λ st m2, ∃ hd' ds', grown c m (<[data := BVals ds']> hd') m2 ∧ hd' !! data = None ∧
        length ds' = length ds ∧
        ((st = GEAS_OK ∧ reprs hd' ds' (map scrub els)) ∨
         (st = GEAS_ERR_OOM ∧ refused m m2))).
Proof.
  intros Hok Hfrom Hss Hreprs. induction n as [|n IH];
    intros i m1 hd ds Hi G Hdata Hlive Hlen Hr; simpl.
  { apply wp_ret. exists hd, ds. split_and!; [done..|]. left. split; [done|].
    replace i with (length els) in Hr by lia. by rewrite firstn_all in Hr. }
  destruct (lookup_lt_is_Some_2 els i) as [t Ht]; [lia|].
  destruct (Hreprs i t Ht) as (s & Hs & Hst).
  destruct (lookup_lt_is_Some_2 ds i) as [d0 Hd0]; [lia|].
  assert (Hdl : heap m1 !! data = Some (BVals ds)).
  { eapply lookup_weaken; [|eapply grown_incl_new; eauto]. apply lookup_insert_eq. }
  pose proof (gr_wf _ _ _ _ G) as Hwf1.
  pose proof (grown_live _ _ _ _ G Hlive) as Hlive1.
  do 2 apply wp_bind. eapply wp_load_opt; [done| |exact Hs|].
  { eapply lookup_weaken; [exact Hss|]. by eapply grown_incl. }
  apply wp_bind. eapply wp_load_slot; [exact Hdl|exact Hd0|]. apply wp_bind.
  eapply wp_mono.
  { apply (Hok t); [by eapply list_elem_of_lookup_2|done|done|].
    eapply repr_mono; [by eapply grown_incl|exact Hst]. }
  intros [st d] m2 (h2 & G2 & Hres). simpl in Hres.
  apply wp_bind. eapply wp_store_slot.
  { eapply lookup_weaken; [exact Hdl|]. by eapply grown_incl. }
  { lia. }
  apply wp_ret.
  destruct (fill_grown _ _ _ _ _ _ _ _ i d G Hdata G2) as [G3 Hn].
  destruct Hres as [[-> Hrep]|[-> Href]]; simpl.
  - rewrite <- (length_insert ds i d).
    eapply IH; [lia|exact G3|done|done|by rewrite length_insert|].
    assert (El : length (map scrub (take i els)) = i) by (rewrite length_map, length_take; lia).
    rewrite (take_S_r _ _ _ Ht), map_app. rewrite <- El at 1.
    eapply fill_reprs; [done..|lia|done].
  - apply wp_ret. eexists _, _. split; [exact G3|]. split; [done|]. split; [by rewrite length_insert|]. right. split; [done|].
    destruct (refused_trans_r _ _ _ _ _ G Href) as (k & z & ? & ?).
    exists k, z. by split.
Qed.

Lemma wp_copy_scalar fuel c k tg w : copy_ok (S fuel) c (VScalar k tg w).
Proof.
  intros src dst m Hwf Hlive (Hty & Hk & Htg & Hw). simpl.
  rewrite (proj2 (Z.eqb_neq c 0)) by apply Hlive. rewrite Hty, tag_of_num.
  destruct k; try done; apply wp_ret; (eexists ∅; split; [by apply grown_refl|]; left;
    split; [done|]; simpl; auto).
Qed.

Lemma wp_copy_string fuel c tg bs : copy_ok (S fuel) c (VString tg bs).
Proof.
  intros src dst m Hwf Hlive (Hty & Htg & Hlen & Hfits & Hp).
  change (tag_num GEAS_TY_STRING) with 7 in Hty. simpl.
  rewrite (proj2 (Z.eqb_neq c 0)) by apply Hlive. rewrite Hty, Hlen. simpl.
  apply wp_bind. eapply wp_mono; [by apply wp_string_copy|].
  intros d m' (hn & G & [[Hd Hr]|[-> Href]]); simpl.
  - rewrite (proj2 (Z.eqb_neq (s_ptr d) 0)) by done. rewrite andb_false_r.
    apply wp_ret. exists hn. auto.
  - destruct (Z.of_nat (length bs) =? 0) eqn:E; simpl; apply wp_ret; exists hn; (split; [done|]).
    + left. destruct bs; [|done]. simpl. split_and!; auto.
    + by right.
Qed.

Lemma wp_copy_seq fuel c k tg elem els :
  (∀ t, t ∈ els → copy_ok fuel c t) → copy_ok (S fuel) c (VSeq k tg elem els).
Proof.
  intros Hok src dst m Hwf Hlive Hrepr. apply repr_seq in Hrepr
    as (Hty & Hk & Htg & Helem & Hlen & Hfits & Hdata). cbn [geas_value_deep_copy].
  rewrite (proj2 (Z.eqb_neq c 0)) by apply Hlive. rewrite Hty, tag_of_num, Hlen.
  destruct (slot_bytes_fits _ Hfits) as [Hsb _]. rewrite Hsb, Nat2Z.id.
  enough (H : wp (if Z.of_nat (length els) =? 0
    then ret (GEAS_OK, GV (tag_num k) (tag src) 0 (Z.of_nat (length els))
                          (Z.of_nat (length els)) (l_elem src))
    else data <- geas_bytes KVals c (Z.of_nat (length els) * 40);
         if data =? 0
         then ret (GEAS_ERR_OOM, GV (tag_num k) (tag src) 0 (Z.of_nat (length els))
                          (Z.of_nat (length els)) (l_elem src))
         else st <- copy_elems (geas_value_deep_copy fuel c) (l_data src) data (length els);
              if st_ok st
              then ret (GEAS_OK, GV (tag_num k) (tag src) data (Z.of_nat (length els))
                          (Z.of_nat (length els)) (l_elem src))
              else ret (st, GV (tag_num k) (tag src) 0 (Z.of_nat (length els))
                          (Z.of_nat (length els)) (l_elem src)))
    m (copies c m (VSeq k tg elem els))) by (destruct k; done).
  assert (Hres : ∀ data h ss, data ≠ 0 ∨ els = [] →
    (els = [] ∨ h !! data = Some (BVals ss) ∧ reprs h ss (map scrub els)) →
    repr h (GV (tag_num k) (tag src) data (Z.of_nat (length els))
                          (Z.of_nat (length els)) (l_elem src)) (scrub (VSeq k tg elem els))).
  { intros data h ss Hd Hs. simpl scrub. apply repr_seq. rewrite length_map. simpl.
    unfold l_elem at 1; simpl. split_and!; auto.
    - subst elem. apply u32_id, u32_range.
    - destruct Hs as [->|[? ?]]; [by left|]. destruct Hd as [?| ->]; [|by left].
      right. split; [done|]. eauto. }
  destruct (Z.eqb_spec (Z.of_nat (length els)) 0) as [E0|Hne].
  { apply wp_ret. exists ∅. split; [by apply grown_refl|]. left. split; [done|].
    destruct els; [|done]. apply (Hres 0 ∅ []); auto. }
  destruct Hdata as [->|(Hd0 & ss & Hss & Hreprs)]; [done|]. apply wp_bind.
  unfold fits_slots, sizeof_GeasValue in Hfits.
  apply wp_geas_bytes; auto; [lia|..].
  - intros m1 G Hb. rewrite (proj2 (Z.eqb_neq _ 0)) by done. apply wp_bind.
    unfold copy_elems. eapply wp_mono.
    { eapply (wp_copy_elems fuel c m els _ ss (brk m) Hok Hd0 Hss Hreprs _ 0 m1 ∅ _);
        [done|exact G|apply lookup_empty|done|..].
      - unfold sizeof_GeasValue. rewrite Z.div_mul, Nat2Z.id, length_replicate by lia. done.
      - rewrite take_0. apply reprs_nil. }
    intros st m2 (hd & ds & G2 & Hn & _ & [[-> Hr]|[-> Href]]); simpl; apply wp_ret;
      (eexists; split; [exact G2|]); [left|right; done]. split; [done|].
    apply (Hres (brk m) _ ds); [by left|]. right. rewrite lookup_insert_eq. split; [done|].
    eapply reprs_mono; [by apply insert_subseteq|done].
  - intros m1 G Href. rewrite Z.eqb_refl. apply wp_ret. exists ∅. split; [done|]. by right.
Qed.

(** The code both boxed families share, and its run on a box that is there. *)
Definition copy_boxed (fuel : nat) (c : Z) (p : Z) (d : Z → GeasValue) : M (GeasStatus * GeasValue) :=
  boxed <- geas_box c;
  if boxed =? 0 then ret (GEAS_ERR_OOM, d 0) else
  x <- load_opt p 0;
  b <- load_slot boxed 0;
  '(st, b') <- geas_value_deep_copy fuel c x b;
  store_slot boxed 0 b';;;
  if st_ok st then ret (GEAS_OK, d boxed) else ret (st, d 0).

Lemma wp_copy_boxed fuel c k t src m s ss :
  copy_ok fuel c t → mem_wf m → live c m → box_tag k = true → as_box src ≠ 0 →
  heap m !! as_box src = Some (BVals (s :: ss)) → repr (heap m) s t →
  let d box := GV (tag_num k) (tag src) box 0 0 0 in
  wp (copy_boxed fuel c (as_box src) d) m (copies c m (VBox k (tag src) (Some t))).
Proof.
  intros Hok Hwf Hlive Hk Hb0 Hs Hrep d. unfold copy_boxed. apply wp_bind.
  apply wp_geas_box; [done..| |].
  - intros m2 G Hbrk. rewrite (proj2 (Z.eqb_neq (brk m) 0)) by done. apply wp_bind.
    set (blk := BVals _) in G.
    assert (Hblk : heap m2 !! brk m = Some blk).
    { eapply lookup_weaken; [|by eapply grown_incl_new]. apply lookup_singleton_eq. }
    apply (wp_load_opt _ 0 _ _ (s :: ss) s); [done| |done|].
    { eapply lookup_weaken; [exact Hs|]. by eapply grown_incl. }
    apply wp_bind. eapply wp_load_slot; [exact Hblk|done|]. apply wp_bind.
    eapply wp_mono.
    { apply Hok.
      - by eapply gr_wf.
      - by eapply grown_live.
      - eapply repr_mono; [by eapply grown_incl|exact Hrep]. }
    intros [st b'] m3 (h3 & G3 & Hres). simpl in Hres. apply wp_bind.
    eapply wp_store_slot.
    { eapply lookup_weaken; [exact Hblk|]. by eapply grown_incl. }
    { simpl. lia. }
    pose proof (grown_trans _ _ _ _ _ _ G G3) as G4.
    assert (Hn : h3 !! brk m = None).
    { eapply map_disjoint_Some_r; [exact (gr_fresh _ _ _ _ G3)|exact Hblk]. }
    eapply (grown_update _ _ _ _ (brk m)) in G4;
      [|rewrite lookup_union_r by done; apply lookup_singleton_eq].
    destruct Hres as [[-> Hr]|[-> Href]]; simpl; apply wp_ret; (eexists; split; [exact G4|]).
    + left. split; [done|]. simpl. split_and!; auto. eexists _, _.
      rewrite lookup_insert_eq. split; [reflexivity|]. eapply repr_mono; [|exact Hr].
      apply insert_subseteq_r; [done|apply map_union_subseteq_l].
    + right. split; [done|]. destruct (refused_trans_r _ _ _ _ _ G Href) as (n & z & ? & ?).
      exists n, z. by split.
  - intros m1 G Href. simpl. apply wp_ret. exists ∅. split; [done|]. by right.
Qed.

Lemma wp_copy_box fuel c k tg b :
  (∀ t, b = Some t → copy_ok fuel c t) → copy_ok (S fuel) c (VBox k tg b).
Proof.
  intros Hok src dst m Hwf Hlive (Hty & Hk & Htg & Hb). cbn [geas_value_deep_copy].
  rewrite (proj2 (Z.eqb_neq c 0)) by apply Hlive. rewrite Hty, tag_of_num.
  set (d := λ box, GV (tag_num k) (tag src) box 0 0 0).
  enough (H : wp (if as_box src =? 0 then ret (GEAS_OK, d 0) else copy_boxed fuel c (as_box src) d)
    m (copies c m (VBox k tg b))) by (destruct k; done).
  destruct b as [t|]; simpl in Hb.
  - destruct Hb as (Hb0 & s & ss & Hs & Hrep). rewrite (proj2 (Z.eqb_neq _ 0)), <- Htg by done.
    apply (wp_copy_boxed fuel c k t src m s ss); auto.
  - rewrite Hb. simpl. apply wp_ret. exists ∅. split; [by apply grown_refl|]. left.
    split; [done|]. simpl. auto.
Qed.

(** Fuel at least the height of the value is enough for the copy. *)
Lemma wp_deep_copy t : ∀ fuel c, (height t ≤ fuel)%nat → copy_ok fuel c t.
Proof.
  induction t as [| |k tg e els IH|k tg|k tg t IH] using val_ind';
    intros [|fuel] c Hf; rewrite ?height_seq in Hf; try (simpl in Hf; lia).
  - apply wp_copy_scalar.
  - apply wp_copy_string.
  - apply wp_copy_seq. intros t Ht. rewrite Forall_forall in IH. apply IH; [done|].
    apply list_elem_of_lookup in Ht as [i Hi]. apply heights_lookup in Hi. lia.
  - by apply wp_copy_box.
  - apply wp_copy_box. intros t' [= <-]. apply IH. simpl in Hf. lia.
Qed.

(** ** Equality *)

Lemma veq_ty h a b ta tb :
  repr h a ta → repr h b tb → ty a ≠ ty b → veq ta tb = false.
Proof.
  intros Ha Hb Hne. rewrite (repr_ty _ _ _ Ha), (repr_ty _ _ _ Hb) in Hne.
  assert (Hk : val_ty ta ≠ val_ty tb) by congruence. clear Ha Hb Hne.
  destruct ta, tb; simpl in *; try done; by rewrite bool_decide_eq_false_2.
Qed.

Lemma string_eq_run m a b ta tb x y :
  repr (heap m) a (VString ta x) → repr (heap m) b (VString tb y) →
  geas_string_eq (Some a) (Some b) m = Ret (bool_decide (x = y)) m.
Proof.
  intros (Ha & _ & La & _ & Pa) (Hb & _ & Lb & _ & Pb). unfold geas_string_eq, is_ty.
  rewrite Ha, Hb, La, Lb. cbn [tag_num negb orb Z.eqb Pos.eqb].
  destruct (Z.eqb_spec (Z.of_nat (length x)) (Z.of_nat (length y))) as [E|Hne]; simpl.
  2: { rewrite bool_decide_eq_false_2; [done|]. by intros ->. }
  apply Nat2Z.inj in E. destruct (Z.eqb_spec (Z.of_nat (length x)) 0) as [E0|Hne].
  { destruct x, y; try done. }
  destruct Pa as [->|(_ & ra & Hra & Ta)]; [done|].
  destruct Pb as [->|(_ & rb & Hrb & Tb)]; [by rewrite E in Hne|].
  rewrite !Nat2Z.id.
  erewrite bind_Ret by (eapply load_bytes_eq; [exact Hra|by apply take_prefix_length]).
  erewrite bind_Ret by (eapply load_bytes_eq; [exact Hrb|rewrite E; by apply take_prefix_length]).
  rewrite Ta, E, Tb. done.
Qed.

(** Closes a case where one tag would have to be of two families at once. *)
Ltac kind_clash := try done;
  exfalso;
  repeat match goal with
         | H : repr _ _ (VSeq _ _ _ _) |- _ => apply repr_seq in H as (_ & ? & _)
         | H : repr _ _ _ |- _ => destruct H as (_ & ? & _)
         | H : _ ∧ _ |- _ => destruct H as (_ & ? & _)
         end;
  subst; repeat match goal with k : GeasTypeTag |- _ => destruct k end; done.

Definition eq_ok (fuel : nat) (ta : val) : Prop := ∀ tb a b m,
  repr (heap m) a ta → repr (heap m) b tb →
  geas_value_eq fuel (Some a) (Some b) m = Ret (veq ta tb) m.

Lemma eq_slots_run fuel m pa pb sa sb xs ys :
  (∀ t, t ∈ xs → eq_ok fuel t) → length xs = length ys →
  pa ≠ 0 → pb ≠ 0 → heap m !! pa = Some (BVals sa) → heap m !! pb = Some (BVals sb) →
  reprs (heap m) sa xs → reprs (heap m) sb ys →
  ∀ n i, (i + n = length xs)%nat →
  eq_slots (geas_value_eq fuel) pa pb n i m = Ret (veqs (drop i xs) (drop i ys)) m.
Proof.
  intros Hok Hl Hpa Hpb Hsa Hsb Hra Hrb. induction n as [|n IH]; intros i Hi; simpl.
  { rewrite !drop_ge by lia. done. }
  destruct (lookup_lt_is_Some_2 xs i) as [x Hx]; [lia|].
  destruct (lookup_lt_is_Some_2 ys i) as [y Hy]; [lia|].
  destruct (Hra i x Hx) as (s & Hs & Hsx). destruct (Hrb i y Hy) as (s' & Hs' & Hsy).
  erewrite bind_Ret by (by eapply load_opt_eq).
  erewrite bind_Ret by (by eapply load_opt_eq).
  erewrite bind_Ret by (apply (Hok x); [by eapply list_elem_of_lookup_2|done|done]).
  rewrite (drop_S _ _ _ Hx), (drop_S _ _ _ Hy). simpl.
  destruct (veq x y); [|done]. apply IH. lia.
Qed.

Lemma veqs_length xs ys : veqs xs ys = true → length xs = length ys.
Proof.
  revert ys; induction xs as [|x xs IH]; intros [|y ys]; simpl; try done.
  intros [_ H]%andb_prop. f_equal. auto.
Qed.

Lemma eq_seq_run fuel k tg e xs :
  (∀ t, t ∈ xs → eq_ok fuel t) → eq_ok (S fuel) (VSeq k tg e xs).
Proof.
  intros Hok tb a b m Ha Hb. destruct (decide (ty a = ty b)) as [E|Hne].
  2: { rewrite (veq_ty _ _ _ _ _ Ha Hb Hne). simpl. by rewrite (proj2 (Z.eqb_neq _ _)). }
  pose proof (repr_ty _ _ _ Ha) as Ea. rewrite E, (repr_ty _ _ _ Hb) in Ea.
  apply tag_num_inj in Ea. apply repr_seq in Ha as (Ha & Hk & Hta & _ & Hla & _ & Hda).
  destruct tb as [k' ? ?| |k' tg' e' ys|k' ? ?]; simpl in Ea; [kind_clash|kind_clash| |kind_clash]. subst k'.
  apply repr_seq in Hb as (Hb & _ & Htb & _ & Hlb & _ & Hdb). rewrite veq_seq. simpl.
  rewrite E, Z.eqb_refl, Hb, tag_of_num, Hla, Hlb, Htb. simpl.
  rewrite bool_decide_eq_true_2, Nat2Z.id by done. simpl.
  enough (H : (if negb (tag a =? tg') then ret false else
            if negb (Z.of_nat (length xs) =? Z.of_nat (length ys)) then ret false else
            eq_slots (geas_value_eq fuel) (l_data a) (l_data b) (length xs) 0) m
     = Ret ((tg =? tg') && veqs xs ys) m) by (destruct k; done).
  rewrite Hta.
  destruct (tg =? tg'); simpl; [|done].
  destruct (Z.eqb_spec (Z.of_nat (length xs)) (Z.of_nat (length ys))) as [El|Hl]; simpl.
  2: { destruct (veqs xs ys) eqn:Ev; [|done]. apply veqs_length in Ev. congruence. }
  apply Nat2Z.inj in El.
  destruct Hda as [->|(? & sa & ? & ?)]; [by destruct ys|].
  destruct Hdb as [->|(? & sb & ? & ?)]; [by destruct xs|].
  by eapply (eq_slots_run fuel m _ _ sa sb xs ys).
Qed.

Lemma eq_box_run fuel k tg x :
  (∀ t, x = Some t → eq_ok fuel t) → eq_ok (S fuel) (VBox k tg x).
Proof.
  intros Hok tb a b m Ha Hb. destruct (decide (ty a = ty b)) as [E|Hne].
  2: { rewrite (veq_ty _ _ _ _ _ Ha Hb Hne). simpl. by rewrite (proj2 (Z.eqb_neq _ _)). }
  pose proof (repr_ty _ _ _ Ha) as Ea. rewrite E, (repr_ty _ _ _ Hb) in Ea.
  apply tag_num_inj in Ea. destruct Ha as (Ha & Hk & Hta & Hxa).
  destruct tb as [k' ? ?| |k' tg' e' ys|k' tg' y]; simpl in Ea; [kind_clash..|]. subst k'.
  destruct Hb as (Hb & _ & Htb & Hyb). simpl.
  rewrite E, Z.eqb_refl, Hb, tag_of_num, Htb, bool_decide_eq_true_2 by done. simpl.
  enough (H : (if negb (tag a =? tg') then ret false else
          if (as_box a =? 0) && (as_box b =? 0) then ret true else
          if (as_box a =? 0) || (as_box b =? 0) then ret false else
          x <- load_opt (as_box a) 0; y <- load_opt (as_box b) 0; geas_value_eq fuel x y) m
     = Ret ((tg =? tg') && match x, y with None, None => true
         | Some x, Some y => veq x y | _, _ => false end) m) by (destruct k; done).
  rewrite Hta. destruct (tg =? tg'); simpl; [|done]. destruct x as [x|], y as [y|].
  - destruct Hxa as (Ha0 & sa & ssa & Hsa & Hra), Hyb as (Hb0 & sb & ssb & Hsb & Hrb).
    rewrite (proj2 (Z.eqb_neq (as_box a) 0)), (proj2 (Z.eqb_neq (as_box b) 0)) by done.
    simpl. erewrite bind_Ret by (by eapply load_opt_eq).
    erewrite bind_Ret by (by eapply load_opt_eq). by apply Hok.
  - destruct Hxa as (Ha0 & _). rewrite Hyb, (proj2 (Z.eqb_neq (as_box a) 0)) by done. done.
  - destruct Hyb as (Hb0 & _). rewrite Hxa, (proj2 (Z.eqb_neq (as_box b) 0)) by done. done.
  - by rewrite Hxa, Hyb.
Qed.

(** Fuel at least the height of the left operand is enough to compare. *)
Lemma value_eq_run ta : ∀ fuel, (height ta ≤ fuel)%nat → eq_ok fuel ta.
Proof.
  induction ta as [k tg w|tg x|k tg e els IH|k tg|k tg t IH] using val_ind';
    intros [|fuel] Hf; rewrite ?height_seq in Hf; try (simpl in Hf; lia).
  - intros tb a b m Ha Hb. destruct (decide (ty a = ty b)) as [E|Hne].
    2: { rewrite (veq_ty _ _ _ _ _ Ha Hb Hne). simpl. by rewrite (proj2 (Z.eqb_neq _ _)). }
    pose proof (repr_ty _ _ _ Ha) as Ea. rewrite E, (repr_ty _ _ _ Hb) in Ea.
    apply tag_num_inj in Ea. destruct Ha as (Ha & Hk & _ & Hwa).
    destruct tb as [k' tg' w'| |k' ? ? ?|k' ? ?]; simpl in Ea; [|kind_clash..]. subst k'.
    destruct Hb as (Hb & _ & _ & Hwb). subst. simpl.
    rewrite E, Z.eqb_refl, Hb, tag_of_num, bool_decide_eq_true_2 by done. by destruct k.
  - intros tb a b m Ha Hb. destruct (decide (ty a = ty b)) as [E|Hne].
    2: { rewrite (veq_ty _ _ _ _ _ Ha Hb Hne). simpl. by rewrite (proj2 (Z.eqb_neq _ _)). }
    pose proof (repr_ty _ _ _ Ha) as Ea. rewrite E, (repr_ty _ _ _ Hb) in Ea.
    apply tag_num_inj in Ea.
    destruct tb as [k' ? ?|tg' y|k' ? ? ?|k' ? ?]; simpl in Ea; [kind_clash| |kind_clash..].
    pose proof (proj1 Ha) as Ha1. simpl. rewrite E, Z.eqb_refl, <- E, Ha1. simpl.
    by eapply string_eq_run.
  - apply eq_seq_run. intros t Ht. rewrite Forall_forall in IH. apply IH; [done|].
    apply list_elem_of_lookup in Ht as [i Hi]. apply heights_lookup in Hi. lia.
  - by apply eq_box_run.
  - apply eq_box_run. intros t' [= <-]. apply IH. simpl in Hf. lia.
Qed.

(** ** Growable arrays: lists and maps *)

(** [l] is a list or map struct whose array stands for [els].  The elements do
    not live in the array itself ([delete]): that is what makes the in place
    store of a push harmless to them. *)
Record seq_at (k : GeasTypeTag) (h : gmap Z block) (l : GeasValue) (elem : Z)
    (els : list val) : Prop := SeqAt {
  sa_ty : ty l = tag_num k;
  sa_elem : l_elem l = elem;
  sa_len : l_len l = Z.of_nat (length els);
  sa_cap : Z.of_nat (length els) <= l_cap l;
  sa_fits : sizeof_GeasBlock + l_cap l * sizeof_GeasValue <= U64_MAX;
  sa_data : l_cap l = 0 ∨ l_data l ≠ 0 ∧ ∃ slots, h !! l_data l = Some (BVals slots) ∧
    l_cap l <= Z.of_nat (length slots) ∧ reprs (delete (l_data l) h) slots els
}.

Lemma seq_at_repr k h l elem els :
  seq_tag k = true → seq_at k h l elem els → repr h l (VSeq k (tag l) elem els).
Proof.
  intros Hk [Hty He Hl Hc Hf Hd]. apply repr_seq.
  assert (Hfs : fits_slots (length els)).
  { unfold fits_slots, sizeof_GeasValue in *. lia. }
  split_and!; auto. destruct Hd as [Hd|(? & ss & ? & ? & Hr)].
  - left. destruct els; [done|]. rewrite Hd in Hc. simpl in Hc. lia.
  - right. split; [done|]. exists ss. split; [done|].
    eapply reprs_mono; [apply delete_subseteq|done].
Qed.

Lemma copy_slots_run src dst ss n : ∀ i m ds,
  src ≠ dst → heap m !! src = Some (BVals ss) → heap m !! dst = Some (BVals ds) →
  (i + n ≤ length ss)%nat → (i + n ≤ length ds)%nat → take i ds = take i ss →
  ∃ ds', for_slots n i (λ i, v <- load_slot src i; store_slot dst i v;;; ret GEAS_OK) m
           = Ret GEAS_OK (set_heap (λ h, <[dst := BVals ds']> h) m) ∧
         length ds' = length ds ∧ take (i + n) ds' = take (i + n) ss.
Proof.
  induction n as [|n IH]; intros i m ds Hne Hs Hd Hls Hld Ht.
  - exists ds. rewrite Nat.add_0_r. split_and!; auto. unfold ret. f_equal.
    destruct m; unfold set_heap; simpl in *. by rewrite insert_id.
  - destruct (lookup_lt_is_Some_2 ss i) as [v Hv]; [lia|].
    set (m1 := set_heap (λ h, <[dst := BVals (<[i:=v]> ds)]> h) m).
    assert (Hb : (v <- load_slot src i; store_slot dst i v;;; ret GEAS_OK) m = Ret GEAS_OK m1).
    { rewrite (bind_Ret _ _ _ _ _ (load_slot_eq _ _ _ _ _ Hs Hv)).
      by erewrite bind_Ret by (apply store_slot_eq; [exact Hd|lia]). }
    pose proof (for_slots_step n i
      (λ i, v <- load_slot src i; store_slot dst i v;;; ret GEAS_OK) m m1 Hb) as Hstep.
    destruct (IH (S i) m1 (<[i:=v]> ds))
      as (ds' & Hrun & Hlen & Htk); simpl; rewrite ?length_insert; try lia; try done.
    + by rewrite lookup_insert_ne.
    + apply lookup_insert_eq.
    + rewrite (take_S_r _ _ v) by (apply list_lookup_insert_eq; lia).
      rewrite (take_S_r ss _ v Hv), <- Ht. f_equal. apply take_insert_ge. lia.
    + rewrite Hrun in Hstep. exists ds'. rewrite <- Nat.add_succ_comm, Hlen, length_insert.
      split_and!; auto. etransitivity; [exact Hstep|]. f_equal. unfold set_heap; simpl.
      by rewrite insert_insert_eq.
Qed.

Lemma wp_grow_slots c data n cap m slots :
  mem_wf m → live c m → (n ≤ cap)%nat → (0 < cap)%nat → fits_slots cap →
  (n = 0%nat ∨ heap m !! data = Some (BVals slots) ∧ (n ≤ length slots)%nat) →
  wp (grow_slots c data (Z.of_nat n) (Z.of_nat cap)) m (λ r m',
    match r with
    | Some nd => nd = brk m ∧ nd ≠ 0 ∧ ∃ ns, grown c m {[nd := BVals ns]} m' ∧
                   length ns = cap ∧ take n ns = take n slots
    | None => grown c m ∅ m' ∧ refused m m'
    end).
Proof.
  intros Hwf Hlive Hn Hcap Hfits Hd. unfold grow_slots. apply wp_bind.
  destruct (slot_bytes_fits _ Hfits) as [Hsb _]. rewrite Hsb.
  unfold fits_slots, sizeof_GeasValue in Hfits.
  apply wp_geas_bytes; auto; [lia|..].
  - intros m1 G Hb. rewrite (proj2 (Z.eqb_neq _ 0)) by done. apply wp_bind.
    assert (Hblk : heap m1 !! brk m = Some (BVals (replicate cap (lib_junk_val (lib m))))).
    { eapply lookup_weaken; [|by eapply grown_incl_new].
      rewrite lookup_singleton_eq. simpl. unfold sizeof_GeasValue.
      by rewrite Z.div_mul, Nat2Z.id by lia. }
    destruct (Z.eqb_spec (Z.of_nat n) 0) as [E|Hne].
    + apply wp_ret, wp_ret. split_and!; [done..|]. eexists. split; [exact G|].
      replace n with 0%nat by lia. rewrite !take_0. split; [|done].
      unfold sizeof_GeasValue. by rewrite length_replicate, Z.div_mul, Nat2Z.id by lia.
    + destruct Hd as [->|[Hd Hl]]; [done|].
      assert (Hdb : data ≠ brk m).
      { assert (data < brk m); [|lia]. apply (wf_dom _ Hwf). eauto. }
      assert (Hfn : fits_slots n) by (unfold fits_slots, sizeof_GeasValue; lia).
      destruct (slot_bytes_fits _ Hfn) as [_ ->]. apply wp_run.
      destruct (copy_slots_run data (brk m) slots n 0 m1
        (replicate cap (lib_junk_val (lib m))) Hdb) as (ds' & Hrun & Hlen & Htk); [|done..| |done|].
      { eapply lookup_weaken; [exact Hd|]. by eapply grown_incl. }
      { by rewrite length_replicate. }
      eexists _, _. split; [exact Hrun|]. apply wp_ret. split_and!; [done..|].
      exists ds'. rewrite length_replicate in Hlen. split_and!; [|done..].
      eapply (grown_update _ _ _ _ _ _ (BVals ds')) in G; [|apply lookup_singleton_eq].
      by rewrite insert_singleton_eq in G.
  - intros m1 G Href. rewrite Z.eqb_refl. apply wp_ret. done.
Qed.

Lemma reprs_take h ss ss' ts n :
  (length ts ≤ n)%nat → take n ss = take n ss' → reprs h ss ts → reprs h ss' ts.
Proof.
  intros Hn Ht H i t Hi. destruct (H i t Hi) as (s & Hs & Hr). exists s. split; [|done].
  apply lookup_lt_Some in Hi. rewrite <- (lookup_take_lt ss' n) by lia.
  by rewrite <- Ht, lookup_take_lt by lia.
Qed.

(** Replacing one represented element. *)
Lemma reprs_insert h ss ts i s t :
  reprs h ss ts → (i < length ts)%nat → repr h s t → reprs h (<[i := s]> ss) (<[i := t]> ts).
Proof.
  intros H Hi Hs j t' Hj. pose proof (reprs_length _ _ _ H) as Hl.
  destruct (decide (i = j)) as [->|Hne].
  - rewrite list_lookup_insert_eq in Hj by done. simplify_eq. exists s.
    by rewrite list_lookup_insert_eq by lia.
  - rewrite list_lookup_insert_ne in Hj by done. destruct (H j t' Hj) as (s' & ? & ?).
    exists s'. by rewrite list_lookup_insert_ne.
Qed.

(** Every block of [m] but [p] is where it was, unchanged, in [m']. *)
Definition kept_but (p : Z) (m m' : mem) : Prop :=
  ∀ q b, heap m !! q = Some b → q ≠ p → heap m' !! q = Some b.

Lemma delete_fresh_insert (h : gmap Z block) p b :
  h !! p = None → delete p (<[p := b]> h) = h.
Proof. apply delete_insert_id. Qed.

Lemma grown_singleton c m b m' : grown c m {[brk m := b]} m' →
  heap m' = <[brk m := b]> (heap m) ∧ heap m !! brk m = None.
Proof.
  intros [_ H F _ _ _ _ _]. split; [by rewrite H, insert_union_singleton_l|].
  eapply map_disjoint_Some_l; [exact F|]. apply lookup_singleton_eq.
Qed.

(** Appending [ts] (one slot for a list, two for a map) after the [n] live
    slots of an array with room for them. *)
Lemma seq_at_extend k h p l (l' : GeasValue) elem els (slots : list GeasValue) ts cap :
  ty l = tag_num k → l_elem l = elem → p ≠ 0 →
  ty l' = ty l → w3 l' = w3 l → w0 l' = p → w2 l' = cap →
  w1 l' = Z.of_nat (length els + length ts) →
  Z.of_nat (length els + length ts) <= cap → cap <= Z.of_nat (length slots) →
  sizeof_GeasBlock + cap * sizeof_GeasValue <= U64_MAX →
  h !! p = Some (BVals slots) →
  reprs (delete p h) slots (els ++ ts) →
  seq_at k h l' elem (els ++ ts).
Proof.
  intros Hty He Hp Hty' Hw3 Hw0 Hw2 Hw1 Hc Hcl Hf Hh Hr.
  split; unfold l_elem, l_len, l_cap, l_data in *; rewrite ?length_app; try congruence; try lia.
  right. rewrite Hw0, Hw2. split; [done|]. exists slots. split_and!; auto.
Qed.

Section Push.
Context (c : Z) (m : mem) (Hwf : mem_wf m) (Hlive : live c m).

Definition list_push_post (l : GeasValue) (els : list val) (te : val)
    (r : GeasStatus * option GeasValue) (m' : mem) : Prop :=
  mem_wf m' ∧
  ((r.1 = GEAS_OK ∧ ∃ l', r.2 = Some l' ∧ tag l' = tag l ∧
      seq_at GEAS_TY_LIST (heap m') l' (l_elem l) (els ++ [te]) ∧ kept_but (l_data l) m m') ∨
   (r = (GEAS_ERR_OOM, Some l) ∧ heap m' = heap m ∧ refused m m')).

Lemma wp_list_push_room l e els te slots :
  seq_at GEAS_TY_LIST (heap m) l (l_elem l) els → l_len l < l_cap l →
  ty e = l_elem l → repr (delete (l_data l) (heap m)) e te →
  heap m !! l_data l = Some (BVals slots) →
  let l' := GV (ty l) (tag l) (l_data l) (l_len l + 1) (l_cap l) (w3 l) in
  let m' := set_heap (λ h, <[l_data l := BVals (<[length els := e]> slots)]> h) m in
  geas_list_push c (Some l) (Some e) m = Ret (GEAS_OK, Some l') m' ∧
  seq_at GEAS_TY_LIST (heap m') l' (l_elem l) (els ++ [te]).
Proof.
  intros [Hty He Hl Hc Hf Hd] Hlt Hety Hrep Hslots l' m'.
  destruct Hd as [Hd|(Hd0 & ss & Hss & Hcs & Hr)]; [lia|]. simplify_eq.
  assert (Hput : store_slot (l_data l) (Z.to_nat (l_len l)) e m = Ret tt m').
  { subst m'. rewrite Hl, Nat2Z.id. apply store_slot_eq; [done|lia]. }
  split.
  - unfold geas_list_push, is_ty. rewrite (proj2 (Z.eqb_neq c 0)) by apply Hlive.
    rewrite Hty, Hety, !Z.eqb_refl. cbn [negb].
    rewrite (proj2 (Z.eqb_neq _ _)) by lia. rewrite (bind_Ret _ _ _ _ _ Hput).
    unfold ret, l'. rewrite u64_id, Hty; [done|]. unfold is_u64, sizeof_GeasBlock,
      sizeof_GeasValue in *. lia.
  - apply (seq_at_extend _ _ (l_data l) l _ _ els (<[length els := e]> ss) [te] (l_cap l));
      try done; simpl.
    + by rewrite Hl, Nat2Z.inj_add.
    + lia.
    + by rewrite length_insert.
    + apply lookup_insert_eq.
    + rewrite delete_insert_eq. apply reprs_snoc; [done|lia|done].
Qed.

Lemma wp_list_push_full l e els te :
  seq_at GEAS_TY_LIST (heap m) l (l_elem l) els → ty e = l_elem l →
  repr (delete (l_data l) (heap m)) e te → l_len l = l_cap l →
  fits_slots (Z.to_nat (Z.max 4 (l_cap l * 2))) →
  wp (geas_list_push c (Some l) (Some e)) m (list_push_post l els te).
Proof.
  intros Hs Hety Hrep E Hfits. pose proof Hs as [Hty He Hl Hc Hf Hd].
  unfold geas_list_push, is_ty. rewrite (proj2 (Z.eqb_neq c 0)) by apply Hlive.
  rewrite Hty, Hety, !Z.eqb_refl. cbn [negb]. rewrite E, Z.eqb_refl. apply wp_bind.
  unfold sizeof_GeasBlock, sizeof_GeasValue, fits_slots, sizeof_GeasBlock, sizeof_GeasValue in *.
  rewrite u64_id by (unfold is_u64; lia).
  set (cap := Z.to_nat (if l_cap l =? 0 then 4 else l_cap l * 2)).
  replace (if l_cap l =? 0 then 4 else l_cap l * 2) with (Z.of_nat cap)
    by (unfold cap; destruct (l_cap l =? 0); lia).
  assert (Hcap : (length els < cap)%nat ∧ fits_slots cap).
  { unfold cap, fits_slots, sizeof_GeasBlock, sizeof_GeasValue.
    destruct (Z.eqb_spec (l_cap l) 0); lia. }
  destruct Hcap as [Hcap Hfc]. rewrite <- E, Hl.
  assert (Hsl : ∃ slots, reprs (heap m) slots els ∧
    (length els = 0%nat ∨ heap m !! l_data l = Some (BVals slots) ∧ (length els ≤ length slots)%nat)).
  { destruct Hd as [Hd|(Hd0 & ss & Hss & Hcs & Hr)].
    - exists []. destruct els; [|simpl in *; lia]. split; [apply reprs_nil|by left].
    - exists ss. split; [eapply reprs_mono; [apply delete_subseteq|done]|right; split; [done|lia]]. }
  destruct Hsl as (slots & Hr & Hsl).
  eapply wp_mono; [apply (wp_grow_slots c (l_data l) (length els) cap m slots); auto; lia|].
  intros [nd|] m1; simpl.
  2: { intros [G Href]. apply wp_ret. split; [by eapply gr_wf|]. right. split_and!; [done| |done].
       rewrite (gr_heap _ _ _ _ G). apply map_empty_union. }
  intros (-> & Hnd & ns & G & Hlen & Htk).
  destruct (grown_singleton _ _ _ _ G) as [Hh Hnone].
  apply wp_bind. rewrite Nat2Z.id. eapply wp_store_slot.
  { rewrite Hh. apply lookup_insert_eq. }
  { lia. }
  apply wp_ret. split; [apply mem_wf_update; [by eapply gr_wf|rewrite Hh, lookup_insert_eq; eauto]|].
  left. split; [done|]. eexists. split_and!; [done..| |].
  - unfold fits_slots, sizeof_GeasBlock, sizeof_GeasValue in Hfc.
    apply (seq_at_extend _ _ (brk m) l _ _ els (<[length els := e]> ns) [te] (Z.of_nat cap));
      try done; simpl.
    + rewrite u64_id by (unfold is_u64; lia). lia.
    + lia.
    + rewrite length_insert. lia.
    + apply lookup_insert_eq.
    + rewrite delete_insert_eq, Hh, delete_insert_id by done. apply reprs_snoc.
      * eapply (reprs_take _ slots); [done|by rewrite Htk|done].
      * lia.
      * eapply repr_mono; [apply delete_subseteq|done].
  - intros q b Hq Hn. simpl. rewrite Hh, insert_insert_eq, lookup_insert_ne; [done|].
    intros <-. congruence.
Qed.

Lemma wp_list_push l e els te :
  seq_at GEAS_TY_LIST (heap m) l (l_elem l) els → ty e = l_elem l →
  repr (delete (l_data l) (heap m)) e te →
  (l_len l = l_cap l → fits_slots (Z.to_nat (Z.max 4 (l_cap l * 2)))) →
  wp (geas_list_push c (Some l) (Some e)) m (list_push_post l els te).
Proof.
  intros Hs Hety Hrep Hfits. destruct (decide (l_len l = l_cap l)) as [E|Hne].
  2: { pose proof Hs as [_ _ Hl Hc _ [Hd|(Hd0 & ss & Hss & Hcs & Hr)]]; [lia|].
       destruct (wp_list_push_room l e els te ss) as [Hrun Hs']; auto; [lia|].
       apply wp_run. eexists _, _. split; [exact Hrun|].
       split; [apply mem_wf_update; eauto|]. left. split; [done|]. eexists.
       split_and!; [done..|]. intros q b Hq Hn. simpl. by rewrite lookup_insert_ne. }
  apply wp_list_push_full; auto.
Qed.

End Push.

(** ** Maps *)

(** The array of a map: its pairs interleaved, in insertion order. *)
Fixpoint flat (kvs : list (val * val)) : list val :=
  match kvs with [] => [] | (k, v) :: kvs' => k :: v :: flat kvs' end.

(** The first pair whose key compares equal to [k]. *)
Fixpoint kfind (kvs : list (val * val)) (k : val) : option nat :=
  match kvs with
  | [] => None
  | (k', _) :: kvs' => if veq k' k then Some 0%nat else S <$> kfind kvs' k
  end.

(** Insertion-ordered update: an existing key keeps its place and its spelling,
    a new pair goes last. *)
Fixpoint amap_set (kvs : list (val * val)) (k v : val) : list (val * val) :=
  match kvs with
  | [] => [(k, v)]
  | (k', v') :: kvs' => if veq k' k then (k', v) :: kvs' else (k', v') :: amap_set kvs' k v
  end.

Fixpoint amap_get (kvs : list (val * val)) (k : val) : option val :=
  match kvs with
  | [] => None
  | (k', v') :: kvs' => if veq k' k then Some v' else amap_get kvs' k
  end.

Lemma flat_app a b : flat (a ++ b) = flat a ++ flat b.
Proof. induction a as [|[k v] a IH]; simpl; congruence. Qed.

Lemma length_flat kvs : length (flat kvs) = (2 * length kvs)%nat.
Proof. induction kvs as [|[k v] kvs IH]; simpl; lia. Qed.

Lemma flat_lookup kvs j k v : kvs !! j = Some (k, v) →
  flat kvs !! (2 * j)%nat = Some k ∧ flat kvs !! (2 * j + 1)%nat = Some v.
Proof.
  revert j; induction kvs as [|[k' v'] kvs IH]; intros [|j] H; simplify_eq/=; [done|].
  replace (j + S (j + 0))%nat with (S (2 * j)) by lia. simpl.
  destruct (IH j H) as [H1 H2]. simpl in H1, H2. by rewrite H1, H2.
Qed.

Lemma flat_set_hit kvs k v j :
  kfind kvs k = Some j → flat (amap_set kvs k v) = <[(2 * j + 1)%nat := v]> (flat kvs).
Proof.
  revert j; induction kvs as [|[k' v'] kvs IH]; intros j H; simplify_eq/=.
  destruct (veq k' k); simplify_eq/=; [done|].
  destruct (kfind kvs k) as [i|] eqn:E; simplify_eq/=. rewrite (IH i) by done.
  replace (i + S (i + 0) + 1)%nat with (S (2 * i + 1)) by lia. done.
Qed.

Lemma amap_set_miss kvs k v : kfind kvs k = None → amap_set kvs k v = kvs ++ [(k, v)].
Proof.
  induction kvs as [|[k' v'] kvs IH]; simpl; intros H; [done|].
  destruct (veq k' k); [done|]. destruct (kfind kvs k); [done|]. by rewrite IH.
Qed.

Lemma amap_get_find kvs k :
  amap_get kvs k = match kfind kvs k with Some j => snd <$> kvs !! j | None => None end.
Proof.
  induction kvs as [|[k' v'] kvs IH]; simpl; [done|].
  destruct (veq k' k); [done|]. rewrite IH. by destruct (kfind kvs k).
Qed.

Lemma kfind_lt kvs k j : kfind kvs k = Some j → (j < length kvs)%nat.
Proof.
  revert j; induction kvs as [|[k' v'] kvs IH]; intros j H; simplify_eq/=.
  destruct (veq k' k); simplify_eq/=; [lia|].
  destruct (kfind kvs k); simplify_eq/=. specialize (IH _ eq_refl). lia.
Qed.

Definition find_result (r : option nat) (off : nat) : Z :=
  match r with Some j => Z.of_nat (2 * (off + j) + 1) | None => -1 end.

Lemma find_slots_run fuel m e slots tk k all :
  e ≠ 0 → heap m !! e = Some (BVals slots) → reprs (heap m) slots (flat all) →
  repr (heap m) k tk →
  ∀ kvs j, drop j all = kvs → (j ≤ length all)%nat →
  (∀ p, p ∈ kvs → (height p.1 ≤ fuel)%nat) →
  find_slots fuel e (Z.of_nat (length (flat all))) k (length kvs) (Z.of_nat (2 * j)) m =
    Ret (find_result (kfind kvs tk) j) m.
Proof.
  intros He Hs Hr Hk kvs. induction kvs as [|[k' v'] kvs IH]; intros j Hd Hj Hfuel; [done|].
  assert (Hl : all !! j = Some (k', v')).
  { rewrite <- (Nat.add_0_r j). rewrite <- lookup_drop, Hd. done. }
  pose proof (lookup_lt_Some _ _ _ Hl) as Hlt.
  destruct (flat_lookup _ _ _ _ Hl) as [Hf _]. destruct (Hr _ _ Hf) as (s & Hss & Hsr).
  cbn [length find_slots kfind]. rewrite length_flat.
  rewrite (proj2 (Z.ltb_lt _ _)) by lia. cbn [negb].
  rewrite Nat2Z.id. erewrite bind_Ret by (by eapply load_opt_eq).
  erewrite bind_Ret.
  2: { apply (value_eq_run k' fuel); [|done|done]. apply (Hfuel (k', v')). left. }
  destruct (veq k' tk).
  - unfold ret, find_result. f_equal. lia.
  - replace (Z.of_nat (2 * j) + 2) with (Z.of_nat (2 * S j)) by lia.
    rewrite <- length_flat, (IH (S j)).
    + f_equal. destruct (kfind kvs tk); simpl; [|done]. f_equal. lia.
    + by rewrite <- (Nat.add_1_r j), <- drop_drop, Hd.
    + lia.
    + intros p Hp. apply Hfuel. by right.
Qed.

Lemma map_find_run fuel m mv k tk kvs :
  seq_at GEAS_TY_MAP (heap m) mv (l_elem mv) (flat kvs) → repr (heap m) k tk →
  (∀ p, p ∈ kvs → (height p.1 ≤ fuel)%nat) →
  map_find fuel mv k m = Ret (find_result (kfind kvs tk) 0) m.
Proof.
  intros [_ _ Hl Hc _ Hd] Hk Hfuel. unfold map_find. rewrite Hl.
  assert (Hn : Z.to_nat (Z.of_nat (length (flat kvs)) / 2) = length kvs).
  { rewrite length_flat. replace (Z.of_nat (2 * length kvs)) with (Z.of_nat (length kvs) * 2) by lia.
    rewrite Z.div_mul by lia. lia. }
  rewrite Hn. destruct Hd as [Hd|(Hd0 & ss & Hss & _ & Hr)].
  - destruct kvs; [done|]. exfalso. rewrite length_flat in Hc. simpl in Hc. lia.
  - eapply (find_slots_run fuel m (l_data mv) ss tk k kvs) with (kvs := kvs) (j := 0%nat);
      auto; [|lia]. eapply reprs_mono; [apply delete_subseteq|done].
Qed.

(** A lookup answers the value slot of the first matching pair. *)
Lemma map_get_run fuel m mv k tk kvs :
  seq_at GEAS_TY_MAP (heap m) mv (l_elem mv) (flat kvs) → repr (heap m) k tk →
  ty k = l_elem mv → (∀ p, p ∈ kvs → (height p.1 ≤ fuel)%nat) →
  geas_map_get fuel (Some mv) (Some k) m =
    Ret (match kfind kvs tk with
         | Some j => Some (l_data mv, Z.of_nat (2 * j + 1)) | None => None end) m.
Proof.
  intros Hs Hk Hty Hfuel. unfold geas_map_get, is_ty. rewrite (sa_ty _ _ _ _ _ Hs).
  rewrite Hty, !Z.eqb_refl. cbn [negb]. rewrite (bind_Ret _ _ _ _ _ (map_find_run _ _ _ _ _ _ Hs Hk Hfuel)).
  destruct (kfind kvs tk) as [j|]; simpl; [|done].
  rewrite (proj2 (Z.ltb_ge _ _)) by lia. done.
Qed.

(** The comparison does not see the tag a copy scrubs. *)
Lemma veq_scrub_r a : ∀ b, veq a (scrub b) = veq a b.
Proof.
  induction a as [|tg x|k tg e els IH|k tg|k tg t IH] using val_ind';
    intros [k' ? ?|? ?|k' tg' ? ys|k' tg' y]; try done.
  - simpl scrub. rewrite !veq_seq. f_equal.
    revert ys; induction IH as [|x xs Hx _ IHl]; intros [|y ys]; simpl; [done..|].
    by rewrite Hx, IHl.
  - simpl. by destruct y.
  - simpl. destruct y; simpl; [by rewrite IH|done].
Qed.

Lemma kfind_scrub kvs k : kfind kvs (scrub k) = kfind kvs k.
Proof.
  induction kvs as [|[k' v'] kvs IH]; simpl; [done|]. by rewrite veq_scrub_r, IH.
Qed.

Lemma seq_at_mono k h h' l e els :
  h ⊆ h' → seq_at k h l e els → seq_at k h' l e els.
Proof.
  intros Hsub [? ? ? ? ? Hd]. split; auto. destruct Hd as [|(? & ss & ? & ? & ?)]; [by left|].
  right. split; [done|]. exists ss. split_and!; [by eapply lookup_weaken|done|].
  eapply reprs_mono; [|done]. by apply delete_mono.
Qed.

Section MapSet.
Context (fuel : nat) (c : Z) (m : mem) (Hwf : mem_wf m) (Hlive : live c m).
Context (mv : GeasValue) (kvs : list (val * val)) (k : GeasValue) (tk : val)
        (v : GeasValue) (tv : val).
Hypothesis Hmap : seq_at GEAS_TY_MAP (heap m) mv (l_elem mv) (flat kvs).
Hypothesis Hk : repr (heap m) k tk.
Hypothesis Hv : repr (heap m) v tv.
Hypothesis Hkty : ty k = l_elem mv.
Hypothesis Hfk : (height tk ≤ fuel)%nat.
Hypothesis Hfv : (height tv ≤ fuel)%nat.
Hypothesis Hfuel : ∀ p, p ∈ kvs → (height p.1 ≤ fuel)%nat.
Hypothesis Hfits : l_cap mv < l_len mv + 2 → fits_slots (Z.to_nat (Z.max 8 (l_cap mv * 2))).

Definition map_set_post (r : GeasStatus * option GeasValue) (m' : mem) : Prop :=
  mem_wf m' ∧
  ((r.1 = GEAS_OK ∧ ∃ mv', r.2 = Some mv' ∧
      seq_at GEAS_TY_MAP (heap m') mv' (l_elem mv) (flat (amap_set kvs (scrub tk) (scrub tv))) ∧
      kept_but (l_data mv) m m') ∨
   (r = (GEAS_ERR_OOM, Some mv) ∧ heap m ⊆ heap m' ∧ refused m m')).

Lemma map_data_block : l_cap mv ≠ 0 → l_data mv ≠ 0 ∧ ∃ slots,
  heap m !! l_data mv = Some (BVals slots) ∧ l_cap mv <= Z.of_nat (length slots) ∧
  reprs (delete (l_data mv) (heap m)) slots (flat kvs).
Proof. destruct Hmap as [_ _ _ _ _ [?|?]]; [done|auto]. Qed.

(** What a copy put beside the array stays beside it. *)
Lemma copy_beside h1 m1 t x :
  grown c m h1 m1 → repr h1 x t → l_cap mv ≠ 0 → repr (delete (l_data mv) (heap m1)) x t.
Proof.
  intros G Hr Hc. destruct (map_data_block Hc) as (_ & ss & Hss & _).
  eapply repr_mono; [|exact Hr].
  assert (Hn : h1 !! l_data mv = None).
  { eapply map_disjoint_Some_r; [exact (gr_fresh _ _ _ _ G)|exact Hss]. }
  rewrite <- (delete_id h1 (l_data mv)) by done. apply delete_mono.
  by eapply grown_incl_new.
Qed.

(** The update of an existing key, after the value has been copied. *)
Lemma map_hit_post m1 h1 vc j :
  grown c m h1 m1 → repr h1 vc (scrub tv) → kfind kvs tk = Some j →
  wp (store_slot (l_data mv) (Z.to_nat (Z.of_nat (2 * j + 1))) vc;;; ret (GEAS_OK, Some mv)) m1
     map_set_post.
Proof.
  intros G Hvc Hj. pose proof (kfind_lt _ _ _ Hj) as Hjl.
  pose proof Hmap as [Hty _ Hl Hc Hf _]. rewrite length_flat in *.
  destruct map_data_block as (Hd0 & ss & Hss & Hcs & Hr); [lia|].
  apply wp_bind. rewrite Nat2Z.id.
  assert (Hss1 : heap m1 !! l_data mv = Some (BVals ss)).
  { eapply lookup_weaken; [exact Hss|]. by eapply grown_incl. }
  eapply wp_store_slot; [exact Hss1|lia|]. apply wp_ret.
  split; [apply mem_wf_update; [by eapply gr_wf|eauto]|]. left. split; [done|].
  exists mv. split; [done|]. rewrite (flat_set_hit _ _ _ j) by (by rewrite kfind_scrub). split.
  - split; auto; simpl; rewrite ?length_insert, ?length_flat; auto.
    right. split; [done|]. eexists. rewrite lookup_insert_eq, length_insert.
    split_and!; [done..|]. rewrite delete_insert_eq. apply reprs_insert.
    + eapply reprs_mono; [|exact Hr]. apply delete_mono. by eapply grown_incl.
    + rewrite length_flat. lia.
    + eapply copy_beside; [done..|lia].
  - intros q b Hq Hn. simpl. rewrite lookup_insert_ne by done.
    eapply lookup_weaken; [exact Hq|]. by eapply grown_incl.
Qed.

(** The two stores of a fresh pair into an array with room. *)
Lemma map_append_post m2 h2 kc vc p slots cap :
  grown c m h2 m2 → kfind kvs tk = None → p ≠ 0 →
  heap m2 !! p = Some (BVals slots) → reprs (delete p (heap m2)) slots (flat kvs) →
  repr (delete p (heap m2)) kc (scrub tk) → repr (delete p (heap m2)) vc (scrub tv) →
  l_len mv + 2 <= cap → cap <= Z.of_nat (length slots) →
  sizeof_GeasBlock + cap * sizeof_GeasValue <= U64_MAX →
  (∀ b, heap m !! p = Some b → p = l_data mv) →
  wp (store_slot p (Z.to_nat (l_len mv)) kc;;;
      store_slot p (Z.to_nat (l_len mv + 1)) vc;;;
      ret (GEAS_OK, Some (GV (ty mv) (tag mv) p (u64 (l_len mv + 2)) cap (w3 mv)))) m2
     map_set_post.
Proof.
  intros G Hmiss Hp Hs Hr Hkc Hvc Hcap Hcl Hcf Hold.
  pose proof Hmap as [Hty He Hl Hc Hf _]. rewrite Hl, length_flat in *.
  unfold sizeof_GeasBlock, sizeof_GeasValue in *.
  set (n := (2 * length kvs)%nat) in *.
  replace (Z.to_nat (Z.of_nat n + 1)) with (S n) by lia.
  apply wp_bind. rewrite Nat2Z.id. eapply wp_store_slot; [exact Hs|lia|].
  apply wp_bind. eapply wp_store_slot; simpl.
  { apply lookup_insert_eq. }
  { rewrite length_insert. lia. }
  apply wp_ret. split.
  { apply (mem_wf_update (set_heap _ m2) p); simpl; [|rewrite lookup_insert_eq; eauto].
    apply mem_wf_update; [by eapply gr_wf|eauto]. }
  left. split; [done|]. eexists. split; [done|]. split.
  - rewrite amap_set_miss by (by rewrite kfind_scrub). rewrite flat_app. simpl.
    apply (seq_at_extend _ _ p mv _ _ _ (<[S n:=vc]> (<[n:=kc]> slots)) _ cap);
      rewrite ?length_insert, ?length_flat; try done; simpl.
    + fold n. rewrite u64_id by (unfold is_u64; lia). lia.
    + fold n. lia.
    + by rewrite insert_insert_eq, lookup_insert_eq.
    + rewrite insert_insert_eq, delete_insert_eq.
      assert (Hr1 : reprs (delete p (heap m2)) (<[n:=kc]> slots) (flat kvs ++ [scrub tk])).
      { unfold n. rewrite <- length_flat. apply reprs_snoc; [done|rewrite length_flat; lia|done]. }
      apply (reprs_snoc _ _ _ vc (scrub tv)) in Hr1; [|rewrite length_app, length_insert, length_flat; simpl; lia|done].
      rewrite length_app, length_flat in Hr1. simpl in Hr1.
      replace (length kvs + (length kvs + 0) + 1)%nat with (S n) in Hr1 by lia.
      by rewrite <- app_assoc in Hr1.
  - intros q b Hq Hn. simpl. rewrite !insert_insert_eq, lookup_insert_ne.
    + eapply lookup_weaken; [exact Hq|]. by eapply grown_incl.
    + intros <-. apply Hn. eauto.
Qed.

(** The fresh pair into the array as it is, or into a grown copy of it. *)
Definition put_pair (kc vc : GeasValue) (data cap : Z) : M (GeasStatus * option GeasValue) :=
  store_slot data (Z.to_nat (l_len mv)) kc;;;
  store_slot data (Z.to_nat (l_len mv + 1)) vc;;;
  ret (GEAS_OK, Some (GV (ty mv) (tag mv) data (u64 (l_len mv + 2)) cap (w3 mv))).

Lemma map_room_post m2 h kc vc : grown c m h m2 → kfind kvs tk = None → repr h kc (scrub tk) → repr h vc (scrub tv) →
  l_len mv + 2 <= l_cap mv → wp (put_pair kc vc (l_data mv) (l_cap mv)) m2 map_set_post.
Proof.
  intros G Ej Hkc Hvc Hroom. pose proof Hmap as [_ _ Hl _ Hf _]. unfold sizeof_GeasBlock, sizeof_GeasValue in Hf.
  rewrite length_flat in *. destruct map_data_block as (Hd0 & ss & Hss & Hcs & Hr); [lia|].
  pose proof (grown_incl _ _ _ _ G) as Hsub. eapply map_append_post; eauto.
  - by eapply lookup_weaken.
  - eapply reprs_mono; [|exact Hr]. by apply delete_mono.
  - eapply copy_beside; [done..|lia].
  - eapply copy_beside; [done..|lia].
Qed.

Lemma map_slots m2 h : grown c m h m2 → ∃ slots, reprs (heap m2) slots (flat kvs) ∧
  (2 * length kvs = 0 ∨ heap m2 !! l_data mv = Some (BVals slots) ∧ 2 * length kvs ≤ length slots)%nat.
Proof.
  intros G. pose proof Hmap as [_ _ Hl Hc _ _]. rewrite length_flat in *.
  destruct (decide (l_cap mv = 0)) as [E|Hne].
  - exists []. destruct kvs; [|simpl in *; lia]. split; [apply reprs_nil|by left].
  - destruct (map_data_block Hne) as (Hd0 & ss & Hss & Hcs & Hr). exists ss. split.
    + eapply reprs_mono; [|exact Hr]. etransitivity; [apply delete_subseteq|by eapply grown_incl].
    + right. split; [|lia]. eapply lookup_weaken; [exact Hss|by eapply grown_incl].
Qed.

Lemma map_grow_post m2 h kc vc : grown c m h m2 → kfind kvs tk = None → repr h kc (scrub tk) → repr h vc (scrub tv) →
  l_cap mv < l_len mv + 2 →
  wp (let cap := if l_cap mv =? 0 then 8 else u64 (l_cap mv * 2) in
      r <- grow_slots c (l_data mv) (l_len mv) cap;
      match r with None => ret (GEAS_ERR_OOM, Some mv) | Some data => put_pair kc vc data cap end) m2 map_set_post.
Proof.
  intros G Ej Hkc Hvc Hfull. pose proof Hmap as [_ _ Hl Hc Hf _]. rewrite length_flat in *.
  pose proof (grown_live _ _ _ _ G Hlive) as Hlive2. pose proof (Hfits Hfull) as Hft.
  unfold fits_slots, sizeof_GeasBlock, sizeof_GeasValue in Hf, Hft.
  rewrite (u64_id (l_cap mv * 2)) by (unfold is_u64; lia). cbv zeta.
  set (cap := Z.to_nat (if l_cap mv =? 0 then 8 else l_cap mv * 2)).
  replace (if l_cap mv =? 0 then 8 else l_cap mv * 2) with (Z.of_nat cap) by (unfold cap; destruct (l_cap mv =? 0); lia).
  assert (Hcap : (2 * length kvs + 2 ≤ cap)%nat ∧ fits_slots cap).
  { unfold cap, fits_slots, sizeof_GeasBlock, sizeof_GeasValue. destruct (Z.eqb_spec (l_cap mv) 0); lia. }
  destruct Hcap as [Hcap Hfc]. destruct (map_slots m2 h G) as (slots & Hr & Hsl). rewrite Hl. apply wp_bind.
  eapply wp_mono; [apply (wp_grow_slots c (l_data mv) (2 * length kvs) cap m2 slots); auto; try lia; by eapply gr_wf|].
  intros [nd|] m3; cbv beta iota.
  2: { intros [G3 Href]. apply wp_ret. split; [by eapply gr_wf|]. right. split_and!; [done| |by eapply refused_trans_r].
       etransitivity; by eapply grown_incl. }
  intros (-> & Hnd & ns & G3 & Hlen & Htk). destruct (grown_singleton _ _ _ _ G3) as [Hh Hnone].
  assert (Hdel : delete (brk m2) (heap m3) = heap m2) by (by rewrite Hh, delete_insert_id).
  unfold put_pair. rewrite Hl. pose proof (map_append_post m3 _ kc vc (brk m2) ns (Z.of_nat cap) (grown_trans _ _ _ _ _ _ G G3) Ej Hnd) as Happ.
  rewrite Hdel, Hl in Happ. unfold fits_slots in Hfc. apply Happ; try lia; auto.
  - rewrite Hh. apply lookup_insert_eq.
  - apply (reprs_take _ slots _ _ (2 * length kvs)); [rewrite length_flat; lia|by rewrite Htk|done].
  - eapply repr_mono; [|exact Hkc]. by eapply grown_incl_new.
  - eapply repr_mono; [|exact Hvc]. by eapply grown_incl_new.
  - intros b Hb. exfalso. eapply lookup_weaken in Hb; [|exact (grown_incl _ _ _ _ G)]. congruence.
Qed.

Lemma wp_map_set : wp (geas_map_set fuel c (Some mv) (Some k) (Some v)) m map_set_post.
Proof.
  pose proof Hmap as [Hty _ Hl Hc Hf _].
  unfold geas_map_set, is_ty. rewrite (proj2 (Z.eqb_neq c 0)) by apply Hlive.
  rewrite Hty, Hkty, !Z.eqb_refl. cbn [negb]. rewrite <- Hty.
  apply wp_bind. eapply wp_mono; [by apply (wp_deep_copy tv fuel c Hfv)|].
  intros [st vc] m1 (h1 & G1 & [[E Hvc]|[E Href]]); simpl in E; subst st; cbn [st_ok negb].
  2: { apply wp_ret. split; [by eapply gr_wf|]. right. split_and!; [done|by eapply grown_incl|done]. }
  simpl in Hvc. pose proof (grown_live _ _ _ _ G1 Hlive) as Hlive1.
  assert (Hk1 : repr (heap m1) k tk) by (eapply repr_mono; [by eapply grown_incl|done]).
  apply wp_bind. apply wp_run. eexists _, _. split.
  { apply (map_find_run fuel m1 mv k tk kvs); auto. eapply seq_at_mono; [by eapply grown_incl|done]. }
  destruct (kfind kvs tk) as [j|] eqn:Ej; cbn [find_result].
  { rewrite (proj2 (Z.leb_le _ _)) by lia. rewrite Nat.add_0_l. by eapply map_hit_post. }
  cbn [Z.leb Z.compare]. apply wp_bind.
  eapply wp_mono; [by apply (wp_deep_copy tk fuel c Hfk); [eapply gr_wf|..]|].
  intros [st kc] m2 (h2 & G2 & [[E Hkc]|[E Href]]); simpl in E; subst st; cbn [st_ok negb].
  2: { apply wp_ret. split; [by eapply gr_wf|]. right. split_and!; [done| |by eapply refused_trans_r].
       etransitivity; by eapply grown_incl. }
  simpl in Hkc. pose proof (grown_trans _ _ _ _ _ _ G1 G2) as G.
  assert (Hkc' : repr (h2 ∪ h1) kc (scrub tk)) by (eapply repr_mono; [apply map_union_subseteq_l|done]).
  assert (Hvc' : repr (h2 ∪ h1) vc (scrub tv)).
  { eapply repr_mono; [|done]. apply map_union_subseteq_r. pose proof (gr_fresh _ _ _ _ G2) as F.
    rewrite (gr_heap _ _ _ _ G1) in F. by apply map_disjoint_union_r in F as [F _]. }
  rewrite length_flat in *. unfold sizeof_GeasBlock, sizeof_GeasValue in Hf.
  change (wp (if l_cap mv <? u64 (l_len mv + 2)
    then let cap := if l_cap mv =? 0 then 8 else u64 (l_cap mv * 2) in
         r <- grow_slots c (l_data mv) (l_len mv) cap;
         match r with None => ret (GEAS_ERR_OOM, Some mv) | Some data => put_pair kc vc data cap end
    else put_pair kc vc (l_data mv) (l_cap mv)) m2 map_set_post).
  rewrite (u64_id (l_len mv + 2)) by (unfold is_u64; lia).
  destruct (Z.ltb_spec (l_cap mv) (l_len mv + 2)); [by eapply map_grow_post|by eapply map_room_post].
Qed.

End MapSet.

(** ** Equality is a partial equivalence

    Reflexive exactly where [self_equal] says so: a NaN or a pledge reference
    anywhere inside makes a value unequal to itself. *)

Lemma f64_eq_sym a b : f64_eq a b = f64_eq b a.
Proof.
  unfold f64_eq. rewrite (Z.eqb_sym a b).
  destruct (f64_is_nan a), (f64_is_nan b), (b =? a), (f64_is_zero a), (f64_is_zero b); done.
Qed.

Lemma f64_eq_trans a b c : f64_eq a b = true → f64_eq b c = true → f64_eq a c = true.
Proof.
  unfold f64_eq. destruct (f64_is_nan a), (f64_is_nan b), (f64_is_nan c); try done. simpl.
  rewrite !orb_true_iff, !andb_true_iff, !Z.eqb_eq.
  intros [->|[? ?]] [->|[? ?]]; auto.
Qed.

Lemma scalar_eq_sym k a b : scalar_eq k a b = scalar_eq k b a.
Proof. destruct k; simpl; first [apply Z.eqb_sym|apply f64_eq_sym|done]. Qed.

Lemma scalar_eq_trans k a b c :
  scalar_eq k a b = true → scalar_eq k b c = true → scalar_eq k a c = true.
Proof.
  destruct k; simpl; rewrite ?Z.eqb_eq; intros; try congruence. by eapply f64_eq_trans.
Qed.

Lemma veq_sym a : ∀ b, veq a b = veq b a.
Proof.
  induction a as [k tg w|tg x|k tg e xs IH|k tg|k tg t IH] using val_ind';
    intros [k' tg' w'|tg' y|k' tg' e' ys|k' tg' [t'|]]; try done.
  - simpl. destruct (decide (k = k')) as [->|].
    + by rewrite scalar_eq_sym.
    + by rewrite !bool_decide_eq_false_2 by congruence.
  - simpl. apply bool_decide_ext. split; congruence.
  - rewrite !veq_seq, (Z.eqb_sym tg tg').
    rewrite (bool_decide_ext (k = k') (k' = k)) by (split; congruence). f_equal.
    revert ys; induction IH as [|x xs Hx _ IHl]; intros [|y ys]; simpl; [done..|].
    by rewrite Hx, IHl.
  - simpl. rewrite (Z.eqb_sym tg tg').
    by rewrite (bool_decide_ext (k = k') (k' = k)) by (split; congruence).
  - simpl. rewrite (Z.eqb_sym tg tg').
    by rewrite (bool_decide_ext (k = k') (k' = k)) by (split; congruence).
  - simpl. rewrite (Z.eqb_sym tg tg'), IH.
    by rewrite (bool_decide_ext (k = k') (k' = k)) by (split; congruence).
  - simpl. rewrite (Z.eqb_sym tg tg').
    by rewrite (bool_decide_ext (k = k') (k' = k)) by (split; congruence).
Qed.

Lemma andb3 a b c : a && b && c = true ↔ a = true ∧ b = true ∧ c = true.
Proof. destruct a, b, c; intuition. Qed.

Lemma veq_trans a : ∀ b c, veq a b = true → veq b c = true → veq a c = true.
Proof.
  induction a as [k tg w|tg x|k tg e xs IH|k tg|k tg t IH] using val_ind';
    intros [k' tg' w'|tg' y|k' tg' e' ys|k' tg' [t'|]] [k2 tg2 w2|tg2 z|k2 tg2 e2 zs|k2 tg2 [t2|]];
    rewrite ?veq_seq; simpl; try done; rewrite ?andb_false_r; try done;
    rewrite ?andb3, ?andb_true_iff, ?bool_decide_eq_true, ?Z.eqb_eq; try (intuition congruence).
  - intros [-> ?] [-> ?]. split; [done|]. by eapply scalar_eq_trans.
  - intros (-> & -> & Hxy) (-> & -> & Hyz). split_and!; [done..|].
    revert ys zs Hxy Hyz; induction IH as [|x xs Hx _ IHl]; intros [|y ys] [|z zs]; simpl; try done.
    rewrite !andb_true_iff. intros [? ?] [? ?]. eauto.
  - intros (-> & -> & Hxy) (-> & -> & Hyz). split_and!; [done..|]. by eapply IH.
Qed.

Lemma veq_scrub_l a b : veq (scrub a) b = veq a b.
Proof. by rewrite veq_sym, veq_scrub_r, veq_sym. Qed.

Lemma veq_refl a : veq a a = self_equal a.
Proof.
  induction a as [k tg w|tg x|k tg e xs IH|k tg|k tg t IH] using val_ind'; rewrite ?veq_seq; simpl;
    rewrite ?Z.eqb_refl, ?bool_decide_eq_true_2 by done; simpl; try done.
  induction IH as [|x xs Hx _ IHl]; simpl; [done|]. by rewrite Hx, IHl.
Qed.

(** A map update read back: the abstract law of the two operations. *)
Lemma amap_get_set kvs k v k2 :
  amap_get (amap_set kvs k v) k2 = if veq k k2 then Some v else amap_get kvs k2.
Proof.
  induction kvs as [|[k' v'] kvs IH]; simpl; [done|].
  destruct (veq k' k) eqn:E; simpl.
  - destruct (veq k' k2) eqn:E2, (veq k k2) eqn:E3; try done.
    + rewrite veq_sym in E. rewrite (veq_trans k k' k2) in E3; done.
    + rewrite (veq_trans k' k k2) in E2; done.
  - rewrite IH. destruct (veq k' k2) eqn:E2; [|done].
    destruct (veq k k2) eqn:E3; [|done]. rewrite veq_sym in E3.
    rewrite (veq_trans k' k2 k) in E; done.
Qed.
