(* ===== verification/ValueProps.v ===== *)
(** * The value helpers: what they promise

    The theorems about strings, lists, maps, equality and the recursive copy,
    stated over the definitions of [Value], with concrete runs as witnesses.
    The proofs are the lemmas of [ValueSpec] applied. *)
From S2P Require Import Prelude Abi Memory Value ValueSpec.

(** ** A concrete memory

    Two live instances, 1 and 2; instance 1 owns a text block and an array of
    two slots: the number 7 and the text "hi". *)
Definition lib0 : clib := CLib (λ _ _, true) (GV 99 99 99 99 99 99) 170.

Definition hi_text : GeasValue := g_string 10 2.
Definition demo_list : GeasValue := g_seq GEAS_TY_LIST 0 11 1 2 1.
Definition demo_pair : GeasValue := g_seq GEAS_TY_TUPLE 0 12 2 2 0.
Definition demo_mem : mem :=
  Mem {[ 10 := BBytes [104; 105];
         11 := BVals [g_scalar GEAS_TY_INT 7; gzero];
         12 := BVals [g_scalar GEAS_TY_INT 7; hi_text] ]}
      {[ 1 := [12; 11; 10]; 2 := [] ]} 20 0 lib0.

Definition demo_pair_val : val :=
  VSeq GEAS_TY_TUPLE 0 0 [VScalar GEAS_TY_INT 0 7; VString 0 [104; 105]].

Lemma demo_mem_wf : mem_wf demo_mem.
Proof.
  split; simpl; [lia|..].
  - intros p Hp. assert (Hb : map_Forall (λ p _, 0 < p < 20) (heap demo_mem)) by (apply (bool_decide_unpack _); by vm_compute).
    destruct Hp as [b Hp]. by apply (Hb p b).
  - assert (Hb : map_Forall (λ _ bl, Forall (λ p, is_Some (heap demo_mem !! p)) bl) (owned demo_mem)).
    { apply (bool_decide_unpack _). by vm_compute. }
    intros c bl p Hc Hp. specialize (Hb c bl Hc). simpl in Hb. rewrite Forall_forall in Hb. by apply Hb.
  - assert (Hb : map_Forall (λ _ bl, NoDup bl) (owned demo_mem)).
    { apply (bool_decide_unpack _). by vm_compute. }
    intros c bl Hc. by apply (Hb c bl).
  - intros c c' bl bl' p Hc Hc' Hp Hp'.
    rewrite !lookup_insert_Some in Hc. rewrite !lookup_insert_Some in Hc'.
    destruct Hc as [[<- <-]|[? [<- <-]%lookup_singleton_Some]],
      Hc' as [[<- <-]|[? [<- <-]%lookup_singleton_Some]];
      try done; by apply not_elem_of_nil in Hp || by apply not_elem_of_nil in Hp'.
Qed.

Lemma demo_live : live 2 demo_mem.
Proof. split; [done|]. by eexists. Qed.

Lemma demo_pair_repr : repr (heap demo_mem) demo_pair demo_pair_val.
Proof.
  simpl. split_and!; try done. right. split; [done|]. eexists. split; [reflexivity|].
  split; [by split_and!|]. split; [|done]. split_and!; try done.
  right. split; [done|]. eexists. by split.
Qed.

Section Copy.

(** Blocks of one instance survive the end of another. *)
Lemma free_owned_keeps m c d bl hn :
  mem_wf m → c ≠ d → owned m !! c = Some bl → (∀ p, is_Some (hn !! p) → p ∈ bl) →
  hn ⊆ heap m → ∀ m', free_owned d m = Ret tt m' → hn ⊆ heap m'.
Proof.
  intros Hwf Hne Hbl Hin Hsub m' Hrun. unfold free_owned in Hrun.
  destruct (owned m !! d) as [dl|] eqn:Hd; [|done]. simplify_eq/=.
  assert (Hdis : ∀ p, p ∈ dl → hn !! p = None).
  { intros p Hp. destruct (hn !! p) eqn:E; [|done]. exfalso. apply Hne.
    eapply (wf_disj _ Hwf _ _ _ _ p Hbl Hd); [|done]. apply Hin. by rewrite E. }
  clear Hd. induction dl as [|p dl IH]; simpl; [done|].
  apply map_subseteq_spec. intros q b Hq. rewrite lookup_delete_ne.
  - eapply lookup_weaken; [exact Hq|]. apply IH. intros r Hr. apply Hdis. by right.
  - intros ->. rewrite (Hdis q) in Hq; [done|]. by left.
Qed.

(** C2: [geas_value_deep_copy] of a represented value into a live instance [c]
    always completes inside defined behaviour.  It answers GEAS_OK or, only
    when the allocator refused a request, GEAS_ERR_OOM; it only adds blocks, all
    on [c]'s list; and the copy stands for the same value entirely inside those
    new blocks, so it outlives the release of any other instance, the source's
    own included. *)
Theorem deep_copy_correct t fuel c src dst m :
  mem_wf m → live c m → repr (heap m) src t → (height t ≤ fuel)%nat →
  ∃ st out m' hn,
    geas_value_deep_copy fuel c (Some src) dst m = Ret (st, out) m' ∧
    grown c m hn m' ∧
    (no_oom m → st = GEAS_OK) ∧
    (st = GEAS_ERR_OOM ∧ refused m m' ∨
     st = GEAS_OK ∧ repr hn out (scrub t) ∧
     ∀ d m2, d ≠ c → free_owned d m' = Ret tt m2 → repr (heap m2) out (scrub t)).
Proof.
  intros Hwf Hlive Hr Hf.
  pose proof (wp_deep_copy t fuel c Hf src dst m Hwf Hlive Hr) as H.
  apply wp_run in H as ([st out] & m' & Hrun & hn & G & Hres). simpl in Hres.
  exists st, out, m', hn. split_and!; [done..| |].
  - intros Hno. destruct Hres as [[? _]|[_ Href]]; [done|]. by apply no_oom_refused in Href.
  - destruct Hres as [[-> Ho]|[-> ?]]; [right|left; done]. split_and!; [done..|].
    intros d m2 Hd Hfree. eapply repr_mono; [|exact Ho].
    destruct (gr_owned _ _ _ _ G) as (new & old & _ & Eo & Hin).
    eapply (free_owned_keeps m' c d (new ++ old)); [by eapply gr_wf|done|..|done].
    + by rewrite Eo, lookup_insert_eq.
    + intros p Hp. apply elem_of_app. left. by apply Hin.
    + by eapply grown_incl_new.
Qed.

Lemma deep_copy_correct_witness : ∃ st out m' hn,
    geas_value_deep_copy 2 2 (Some demo_pair) gzero demo_mem = Ret (st, out) m' ∧
    grown 2 demo_mem hn m' ∧
    (no_oom demo_mem → st = GEAS_OK) ∧
    (st = GEAS_ERR_OOM ∧ refused demo_mem m' ∨
     st = GEAS_OK ∧ repr hn out (scrub demo_pair_val) ∧
     ∀ d m2, d ≠ 2 → free_owned d m' = Ret tt m2 → repr (heap m2) out (scrub demo_pair_val)).
Proof.
  apply (deep_copy_correct demo_pair_val 2 2 demo_pair gzero demo_mem).
  - apply demo_mem_wf.
  - apply demo_live.
  - apply demo_pair_repr.
  - vm_compute. lia.
Defined.

(** A copy that succeeded compares equal to its source exactly when the
    source compares equal to itself: everything but a value with a NaN or a
    pledge reference in it. *)
Theorem deep_copy_equal t fuel c src dst m out m' :
  mem_wf m → live c m → repr (heap m) src t → (height t ≤ fuel)%nat →
  geas_value_deep_copy fuel c (Some src) dst m = Ret (GEAS_OK, out) m' →
  geas_value_eq fuel (Some src) (Some out) m' = Ret (self_equal t) m'.
Proof.
  intros Hwf Hlive Hr Hf Hrun.
  pose proof (wp_deep_copy t fuel c Hf src dst m Hwf Hlive Hr) as H.
  unfold wp in H. rewrite Hrun in H. destruct H as (hn & G & [[_ Ho]|[? _]]); [|done].
  rewrite <- veq_refl, <- veq_scrub_r. apply value_eq_run; [done|..].
  - eapply repr_mono; [by eapply grown_incl|done].
  - eapply repr_mono; [by eapply grown_incl_new|done].
Qed.

Lemma deep_copy_equal_witness : ∃ out m',
  geas_value_deep_copy 2 2 (Some demo_pair) gzero demo_mem = Ret (GEAS_OK, out) m' ∧
  geas_value_eq 2 (Some demo_pair) (Some out) m' = Ret (self_equal demo_pair_val) m'.
Proof.
  eexists _, _. split; [vm_compute; reflexivity|].
  apply (deep_copy_equal demo_pair_val 2 2 demo_pair gzero demo_mem).
  - apply demo_mem_wf.
  - apply demo_live.
  - apply demo_pair_repr.
  - vm_compute. lia.
  - vm_compute. reflexivity.
Defined.

End Copy.

(** [geas_value_eq] is a partial equivalence that reads memory and changes
    nothing: with fuel for the values' depth every comparison returns, both
    orders agree, two hits compose, and a value is equal to itself exactly when
    it holds no NaN and no pledge reference. *)
Theorem value_eq_equivalence fuel m a b c ta tb tc :
  repr (heap m) a ta → repr (heap m) b tb → repr (heap m) c tc →
  (height ta ≤ fuel)%nat → (height tb ≤ fuel)%nat →
  ∃ ab bc ac,
    geas_value_eq fuel (Some a) (Some b) m = Ret ab m ∧
    geas_value_eq fuel (Some b) (Some a) m = Ret ab m ∧
    geas_value_eq fuel (Some b) (Some c) m = Ret bc m ∧
    geas_value_eq fuel (Some a) (Some c) m = Ret ac m ∧
    geas_value_eq fuel (Some a) (Some a) m = Ret (self_equal ta) m ∧
    (ab = true → bc = true → ac = true).
Proof.
  intros Ha Hb Hc Hfa Hfb. exists (veq ta tb), (veq tb tc), (veq ta tc).
  split_and!; [by apply value_eq_run|rewrite veq_sym; by apply value_eq_run|
    by apply value_eq_run|by apply value_eq_run|rewrite <- veq_refl; by apply value_eq_run|].
  apply veq_trans.
Qed.

Lemma value_eq_equivalence_witness : ∃ ab bc ac,
    geas_value_eq 2 (Some demo_pair) (Some demo_pair) demo_mem = Ret ab demo_mem ∧
    geas_value_eq 2 (Some demo_pair) (Some demo_pair) demo_mem = Ret ab demo_mem ∧
    geas_value_eq 2 (Some demo_pair) (Some hi_text) demo_mem = Ret bc demo_mem ∧
    geas_value_eq 2 (Some demo_pair) (Some hi_text) demo_mem = Ret ac demo_mem ∧
    geas_value_eq 2 (Some demo_pair) (Some demo_pair) demo_mem = Ret (self_equal demo_pair_val) demo_mem ∧
    (ab = true → bc = true → ac = true).
Proof.
  apply (value_eq_equivalence 2 demo_mem demo_pair demo_pair hi_text
           demo_pair_val demo_pair_val (VString 0 [104; 105])).
  - apply demo_pair_repr.
  - apply demo_pair_repr.
  - simpl. split_and!; try done. right. split; [done|]. eexists. by split.
  - vm_compute. lia.
  - vm_compute. lia.
Defined.

Section Arrays.

(** [geas_list_push] of an element of the list's type appends it: with room
    or after the doubling growth the list stands for its old elements followed
    by the new one, [geas_list_get] at the old length is that element, every
    block but the list's own array is untouched, and a refused allocation
    leaves list and memory blocks as they were. *)
Theorem list_push_appends c m l els e te :
  mem_wf m → live c m →
  seq_at GEAS_TY_LIST (heap m) l (l_elem l) els → ty e = l_elem l →
  repr (delete (l_data l) (heap m)) e te →
  (l_len l = l_cap l → fits_slots (Z.to_nat (Z.max 4 (l_cap l * 2)))) →
  ∃ st l' m', geas_list_push c (Some l) (Some e) m = Ret (st, Some l') m' ∧ mem_wf m' ∧
    (st = GEAS_OK ∧ seq_at GEAS_TY_LIST (heap m') l' (l_elem l) (els ++ [te]) ∧
       kept_but (l_data l) m m' ∧
       (∃ p i slots s, geas_list_get (Some l') (l_len l) = Some (p, i) ∧
          heap m' !! p = Some (BVals slots) ∧ slots !! Z.to_nat i = Some s ∧ repr (heap m') s te) ∨
     st = GEAS_ERR_OOM ∧ l' = l ∧ heap m' = heap m ∧ refused m m').
Proof.
  intros Hwf Hlive Hs Hty Hr Hf.
  pose proof (wp_list_push c m Hwf Hlive l e els te Hs Hty Hr Hf) as H.
  apply wp_run in H as ([st o] & m' & Hrun & Hwf' & [(E & l' & E' & _ & Hs' & Hk)|([= -> ->] & Hh & Href)]);
    simpl in *; subst.
  2: { exists GEAS_ERR_OOM, l, m'. split_and!; auto. }
  exists GEAS_OK, l', m'. split_and!; auto. left. split_and!; auto.
  pose proof (sa_len _ _ _ _ _ Hs) as Hl. destruct Hs' as [Ht He Hl' Hc Hfit Hd].
  rewrite length_app in Hl', Hc. simpl in Hl', Hc.
  destruct Hd as [Hd|(Hd0 & ss & Hss & _ & Hrs)]; [lia|].
  destruct (Hrs (length els) te) as (s & Hsi & Hsr).
  { rewrite lookup_app_r by lia. by rewrite Nat.sub_diag. }
  exists (l_data l'), (l_len l), ss, s. split_and!.
  - unfold geas_list_get, is_ty. rewrite Ht, Z.eqb_refl. cbn [negb andb].
    by rewrite (proj2 (Z.leb_gt _ _)) by lia.
  - done.
  - by rewrite Hl, Nat2Z.id.
  - eapply repr_mono; [apply delete_subseteq|done].
Qed.

Lemma list_push_appends_witness :
  ∃ st l' m', geas_list_push 1 (Some demo_list) (Some (g_scalar GEAS_TY_INT 8)) demo_mem
                = Ret (st, Some l') m' ∧ mem_wf m' ∧
    (st = GEAS_OK ∧
       seq_at GEAS_TY_LIST (heap m') l' (l_elem demo_list)
         ([VScalar GEAS_TY_INT 0 7] ++ [VScalar GEAS_TY_INT 0 8]) ∧
       kept_but (l_data demo_list) demo_mem m' ∧
       (∃ p i slots s, geas_list_get (Some l') (l_len demo_list) = Some (p, i) ∧
          heap m' !! p = Some (BVals slots) ∧ slots !! Z.to_nat i = Some s ∧
          repr (heap m') s (VScalar GEAS_TY_INT 0 8)) ∨
     st = GEAS_ERR_OOM ∧ l' = demo_list ∧ heap m' = heap demo_mem ∧ refused demo_mem m').
Proof.
  apply (list_push_appends 1 demo_mem demo_list [VScalar GEAS_TY_INT 0 7]).
  - apply demo_mem_wf.
  - split; [done|]. by eexists.
  - split; try done. right. split; [done|]. eexists. split_and!; [reflexivity|done|].
    intros [|[|i]] t Ht; simplify_eq/=. eexists. split; [reflexivity|]. by split_and!.
  - reflexivity.
  - simpl. by split_and!.
  - vm_compute. done.
Defined.

(** C29: [geas_map_set] then [geas_map_get]: a successful update leaves a
    well-formed map in which a key equal to the one set finds a copy of the new
    value and every other key finds what it found before; an existing key keeps
    its place, a new pair is appended; a refused allocation leaves the map's
    struct and every old block in place. *)
Theorem map_set_then_get fuel c m mv kvs k tk v tv :
  mem_wf m → live c m →
  seq_at GEAS_TY_MAP (heap m) mv (l_elem mv) (flat kvs) →
  repr (heap m) k tk → repr (heap m) v tv → ty k = l_elem mv →
  (height tk ≤ fuel)%nat → (height tv ≤ fuel)%nat →
  (∀ p, p ∈ kvs → (height p.1 ≤ fuel)%nat) →
  (l_cap mv < l_len mv + 2 → fits_slots (Z.to_nat (Z.max 8 (l_cap mv * 2)))) →
  ∃ st mv' m', geas_map_set fuel c (Some mv) (Some k) (Some v) m = Ret (st, Some mv') m' ∧
    mem_wf m' ∧
    (st = GEAS_ERR_OOM ∧ mv' = mv ∧ heap m ⊆ heap m' ∧ refused m m' ∨
     st = GEAS_OK ∧ kept_but (l_data mv) m m' ∧
     let kvs' := amap_set kvs (scrub tk) (scrub tv) in
     seq_at GEAS_TY_MAP (heap m') mv' (l_elem mv) (flat kvs') ∧
     ∀ k2 tk2, repr (heap m') k2 tk2 → ty k2 = l_elem mv →
       (∀ p, p ∈ kvs' → (height p.1 ≤ fuel)%nat) →
       let want := if veq tk tk2 then Some (scrub tv) else amap_get kvs tk2 in
       match want with
       | None => geas_map_get fuel (Some mv') (Some k2) m' = Ret None m'
       | Some t => ∃ p i slots s,
           geas_map_get fuel (Some mv') (Some k2) m' = Ret (Some (p, i)) m' ∧
           heap m' !! p = Some (BVals slots) ∧ slots !! Z.to_nat i = Some s ∧ repr (heap m') s t
       end).
Proof.
  intros Hwf Hlive Hs Hk Hv Hty Hfk Hfv Hfs Hfit.
  pose proof (wp_map_set fuel c m Hwf Hlive mv kvs k tk v tv Hs Hk Hv Hty Hfk Hfv Hfs Hfit) as H.
  apply wp_run in H as ([st o] & m' & Hrun & Hwf' & [(E & mv' & E' & Hs' & Hkp)|([= -> ->] & Hh & Href)]);
    simpl in *; subst.
  2: { exists GEAS_ERR_OOM, mv, m'. split_and!; auto. }
  exists GEAS_OK, mv', m'. split_and!; auto. right. split_and!; auto.
  intros k2 tk2 Hk2 Hty2 Hf2. rewrite <- (veq_scrub_l tk), <- (amap_get_set kvs (scrub tk)).
  pose proof (sa_elem _ _ _ _ _ Hs') as He'.
  rewrite <- He' in Hs', Hty2.
  pose proof (map_get_run fuel m' mv' k2 tk2 _ Hs' Hk2 Hty2 Hf2) as Hg.
  rewrite amap_get_find. destruct (kfind _ tk2) as [j|] eqn:Ej; [|done].
  pose proof (kfind_lt _ _ _ Ej) as Hj. apply lookup_lt_is_Some_2 in Hj as [[k' v'] Hkv].
  rewrite Hkv. simpl. destruct (flat_lookup _ _ _ _ Hkv) as [_ Hfl].
  destruct Hs' as [_ _ _ Hc _ [Hd|(Hd0 & ss & Hss & _ & Hrs)]].
  { rewrite length_flat in Hc. apply lookup_lt_Some in Hkv. lia. }
  destruct (Hrs _ _ Hfl) as (s & Hsi & Hsr).
  eexists _, _, ss, s. split_and!; [exact Hg|done|by rewrite Nat2Z.id|].
  eapply repr_mono; [apply delete_subseteq|done].
Qed.

Definition demo_map : GeasValue := geas_map_new 1 1.

Lemma map_set_then_get_witness :
  ∃ st mv' m', geas_map_set 1 1 (Some demo_map) (Some (g_scalar GEAS_TY_INT 3)) (Some hi_text) demo_mem
                 = Ret (st, Some mv') m' ∧
    mem_wf m' ∧
    (st = GEAS_ERR_OOM ∧ mv' = demo_map ∧ heap demo_mem ⊆ heap m' ∧ refused demo_mem m' ∨
     st = GEAS_OK ∧ kept_but (l_data demo_map) demo_mem m' ∧
     let kvs' := amap_set [] (scrub (VScalar GEAS_TY_INT 0 3)) (scrub (VString 0 [104; 105])) in
     seq_at GEAS_TY_MAP (heap m') mv' (l_elem demo_map) (flat kvs') ∧
     ∀ k2 tk2, repr (heap m') k2 tk2 → ty k2 = l_elem demo_map →
       (∀ p, p ∈ kvs' → (height p.1 ≤ 1)%nat) →
       let want := if veq (VScalar GEAS_TY_INT 0 3) tk2
                   then Some (scrub (VString 0 [104; 105])) else amap_get [] tk2 in
       match want with
       | None => geas_map_get 1 (Some mv') (Some k2) m' = Ret None m'
       | Some t => ∃ p i slots s,
           geas_map_get 1 (Some mv') (Some k2) m' = Ret (Some (p, i)) m' ∧
           heap m' !! p = Some (BVals slots) ∧ slots !! Z.to_nat i = Some s ∧ repr (heap m') s t
       end).
Proof.
  apply (map_set_then_get 1 1 demo_mem demo_map []).
  - apply demo_mem_wf.
  - split; [done|]. by eexists.
  - split; try done. by left.
  - by split_and!.
  - simpl. split_and!; try done. right. split; [done|]. eexists. by split.
  - reflexivity.
  - vm_compute. lia.
  - vm_compute. lia.
  - intros p Hp. by apply not_elem_of_nil in Hp.
  - vm_compute. done.
Defined.

(** C30: [geas_list_new] takes the product of the capacity and the slot size in 64
    bits unchecked: asked for 2^61 slots it allocates none, answers GEAS_OK with
    a list that claims them all, and the first [geas_list_push] into that list
    writes outside the block. *)
Theorem list_new_capacity_wraps c elem e m bl :
  c ≠ 0 → owned m !! c = Some bl → brk m ≠ 0 → (∀ n z, lib_malloc (lib m) n z = true) →
  ty e = u32 elem →
  ∃ l m', geas_list_new c elem (2 ^ 61) (Some gzero) m = Ret (GEAS_OK, Some l) m' ∧
    l_cap l = 2 ^ 61 ∧ heap m' !! l_data l = Some (BVals []) ∧
    geas_list_push c (Some l) (Some e) m' = Undef.
Proof.
  intros Hc Ho Hb Hno Hty. unfold geas_list_new, geas_bytes.
  rewrite (proj2 (Z.eqb_neq c 0)) by done.
  assert (E : slot_bytes (2 ^ 61) = 0) by (by vm_compute). rewrite E.
  change (2 ^ 61 =? 0) with false. cbv beta iota. unfold bind.
  rewrite Hno, Ho.
  change (u64 (sizeof_GeasBlock + 0) <? sizeof_GeasBlock) with false. cbv beta iota.
  rewrite (proj2 (Z.eqb_neq (brk m) 0)) by done.
  change (slot_count (2 ^ 61)) with 0%nat. unfold zero_slots. simpl heap.
  rewrite lookup_insert_eq. simpl fresh_block. cbv beta iota.
  eexists _, _. split; [reflexivity|]. split_and!; [done|simpl; by rewrite lookup_insert_eq|].
  unfold geas_list_push, is_ty, g_seq, l_elem, l_len, l_cap; cbn [ty tag w0 w1 w2 w3].
  rewrite (proj2 (Z.eqb_neq c 0)) by done. rewrite Hty, !Z.eqb_refl.
  change (0 =? 2 ^ 61) with false. cbn [negb]. unfold bind, store_slot. simpl.
  by rewrite lookup_insert_eq.
Qed.

Lemma list_new_capacity_wraps_witness :
  ∃ l m', geas_list_new 2 1 (2 ^ 61) (Some gzero) demo_mem = Ret (GEAS_OK, Some l) m' ∧
    l_cap l = 2 ^ 61 ∧ heap m' !! l_data l = Some (BVals []) ∧
    geas_list_push 2 (Some l) (Some (g_scalar GEAS_TY_INT 7)) m' = Undef.
Proof.
  apply (list_new_capacity_wraps 2 1 (g_scalar GEAS_TY_INT 7) demo_mem []).
  - done.
  - reflexivity.
  - done.
  - done.
  - reflexivity.
Defined.

End Arrays.
