(* ===== verification/Wire.v ===== *)
(** * The canonical wire codec

    [runtime/src/wire.c] with its header [geas_wire.h]: the little endian
    primitives, the frame header, the sizing and writing passes of the encoder,
    and the recursive decoder.  The encoder's output buffer is the list of
    bytes written so far under a capacity, and writing past the capacity is
    undefined behaviour ([Undef]); the decoder's cursor is the list of bytes
    left.  Both run over the heap of [Memory].  The C recursion is bounded by
    GEAS_WIRE_MAX_DEPTH, so fuel 65 is enough for each pass ([WireSpec]). *)
From S2P Require Import Prelude Abi Memory Value.

Definition GEAS_WIRE_HEADER_LEN : nat := 20.
Definition GEAS_WIRE_MAX_PAYLOAD : Z := 64 * 1024 * 1024.
Definition GEAS_WIRE_MAX_DEPTH : Z := 64.
(** "ASHW" *)
Definition GEAS_WIRE_MAGIC : list Z := [65; 83; 72; 87].

Inductive GeasWireKind :=
| GEAS_WIRE_HELLO | GEAS_WIRE_HELLO_OK | GEAS_WIRE_INAME_SYNC | GEAS_WIRE_INAME_TABLE
| GEAS_WIRE_SIGN | GEAS_WIRE_SIGNED | GEAS_WIRE_FULFILL | GEAS_WIRE_RESULT
| GEAS_WIRE_BREAK | GEAS_WIRE_BROKEN | GEAS_WIRE_PARTIAL_QUERY | GEAS_WIRE_PARTIAL
| GEAS_WIRE_ERROR.

Definition kind_num (k : GeasWireKind) : Z :=
  match k with
  | GEAS_WIRE_HELLO => 1 | GEAS_WIRE_HELLO_OK => 2 | GEAS_WIRE_INAME_SYNC => 3
  | GEAS_WIRE_INAME_TABLE => 4 | GEAS_WIRE_SIGN => 5 | GEAS_WIRE_SIGNED => 6
  | GEAS_WIRE_FULFILL => 7 | GEAS_WIRE_RESULT => 8 | GEAS_WIRE_BREAK => 9
  | GEAS_WIRE_BROKEN => 10 | GEAS_WIRE_PARTIAL_QUERY => 11 | GEAS_WIRE_PARTIAL => 12
  | GEAS_WIRE_ERROR => 13
  end.

Record GeasWireFrame := WireFrame { kind : Z; request_id : Z; payload_len : Z }.

(** ** Little endian primitives *)

Definition put_u32 (v : Z) : list Z :=
  [u8 v; u8 (Z.shiftr v 8); u8 (Z.shiftr v 16); u8 (Z.shiftr v 24)].
Definition put_u64 (v : Z) : list Z := put_u32 (u32 v) ++ put_u32 (u32 (Z.shiftr v 32)).

(** [p[i]] of a buffer known to be long enough. *)
Definition byte_at (p : list Z) (i : nat) : Z := nth i p 0.

Definition get_u32 (p : list Z) : Z :=
  Z.lor (Z.lor (Z.lor (byte_at p 0) (Z.shiftl (byte_at p 1) 8))
               (Z.shiftl (byte_at p 2) 16)) (Z.shiftl (byte_at p 3) 24).
Definition get_u64 (p : list Z) : Z :=
  Z.lor (get_u32 p) (Z.shiftl (get_u32 (drop 4 p)) 32).

(** ** Frame header *)

Definition kind_known (k : Z) : bool :=
  negb ((k <? kind_num GEAS_WIRE_HELLO) || (kind_num GEAS_WIRE_ERROR <? k)).

(** [out] is the caller's 20 byte buffer. *)
Definition geas_wire_frame_write (kind request_id payload_len : Z) (out : option (list Z))
    : GeasStatus * option (list Z) :=
  match out with
  | None => (GEAS_ERR_TYPE, None)
  | Some buf =>
      if negb (kind_known kind) then (GEAS_ERR_TYPE, Some buf) else
      if GEAS_WIRE_MAX_PAYLOAD <? payload_len then (GEAS_ERR_OOM, Some buf) else
      let buf := list_inserts 0 GEAS_WIRE_MAGIC buf in
      let buf := list_inserts 4 (put_u32 kind) buf in
      let buf := list_inserts 8 (put_u64 request_id) buf in
      let buf := list_inserts 16 (put_u32 payload_len) buf in
      (GEAS_OK, Some buf)
  end.

Definition geas_wire_frame_read (inp : option (list Z)) (out : option GeasWireFrame)
    : GeasStatus * option GeasWireFrame :=
  match inp, out with
  | Some inp, Some _ =>
      if negb (bool_decide (take 4 inp = GEAS_WIRE_MAGIC)) then (GEAS_ERR_TYPE, out) else
      let kind := get_u32 (drop 4 inp) in
      if negb (kind_known kind) then (GEAS_ERR_TYPE, out) else
      let payload_len := get_u32 (drop 16 inp) in
      if GEAS_WIRE_MAX_PAYLOAD <? payload_len then (GEAS_ERR_OOM, out) else
      (GEAS_OK, Some (WireFrame kind (get_u64 (drop 8 inp)) payload_len))
  | _, _ => (GEAS_ERR_TYPE, out)
  end.

(** ** Shared tag rules *)

Definition tag_crosses (ty : Z) : bool :=
  (ty <=? tag_num GEAS_TY_SUM) && negb (ty =? tag_num GEAS_TY_PLEDGE_REF).

Definition tag_keyable (ty : Z) : bool :=
  match tag_of ty with
  | Some GEAS_TY_INT | Some GEAS_TY_UINT | Some GEAS_TY_BOOL | Some GEAS_TY_BYTE
  | Some GEAS_TY_CHAR | Some GEAS_TY_STRING => true
  | _ => false
  end.

(** A Unicode scalar value. *)
Definition char_ok (ch : Z) : bool :=
  negb ((0x10FFFF <? ch) || ((0xD800 <=? ch) && (ch <=? 0xDFFF))).

(** ** Encode: the sizing pass *)

(** [SIZE_MAX] is the 64 bit maximum; the total is left alone on overflow. *)
Definition size_add (total n : Z) : GeasStatus * Z :=
  if U64_MAX - total <? n then (GEAS_ERR_OOM, total) else (GEAS_OK, total + n).

Section SizeElems.
Context (rec : GeasValue → Z → M (GeasStatus * Z)) (chk : nat → GeasValue → bool) (data : Z).

Fixpoint size_elems (n i : nat) (total : Z) : M (GeasStatus * Z) :=
  match n with
  | O => ret (GEAS_OK, total)
  | S n' =>
      e <- load_slot data i;
      if negb (chk i e) then ret (GEAS_ERR_TYPE, total) else
      '(st, total) <- rec e total;
      if negb (st_ok st) then ret (st, total) else size_elems n' (S i) total
  end.
End SizeElems.

(** The [switch], after the depth check and the header's eight bytes; [rec] is
    the recursive call. *)
Definition size_switch (rec : GeasValue → Z → Z → M (GeasStatus * Z))
    (v : GeasValue) (depth total : Z) : M (GeasStatus * Z) :=
  let elems chk total :=
    size_elems (λ e t, rec e (depth + 1) t) chk (l_data v)
      (Z.to_nat (l_len v)) 0 total in
  let no_data := negb (l_len v =? 0) && (l_data v =? 0) in
  match tag_of (ty v) with
  | Some GEAS_TY_UNIT =>
      ret (if tag v =? 0 then GEAS_OK else GEAS_ERR_TYPE, total)
  | Some GEAS_TY_INT | Some GEAS_TY_UINT | Some GEAS_TY_FLOAT =>
      if tag v =? 0 then ret (size_add total 8) else ret (GEAS_ERR_TYPE, total)
  | Some GEAS_TY_BOOL =>
      if negb (tag v =? 0) || (1 <? as_b v) then ret (GEAS_ERR_TYPE, total)
      else ret (size_add total 1)
  | Some GEAS_TY_BYTE =>
      if tag v =? 0 then ret (size_add total 1) else ret (GEAS_ERR_TYPE, total)
  | Some GEAS_TY_CHAR =>
      if negb (tag v =? 0) || negb (char_ok (as_ch v)) then ret (GEAS_ERR_TYPE, total)
      else ret (size_add total 4)
  | Some GEAS_TY_STRING =>
      if negb (tag v =? 0) then ret (GEAS_ERR_TYPE, total) else
      if negb (s_len v =? 0) && (s_ptr v =? 0) then ret (GEAS_ERR_TYPE, total) else
      let '(st, total) := size_add total 8 in
      if negb (st_ok st) then ret (st, total) else ret (size_add total (s_len v))
  | Some GEAS_TY_LIST =>
      if negb (tag v =? 0) then ret (GEAS_ERR_TYPE, total) else
      if negb (tag_crosses (l_elem v)) then ret (GEAS_ERR_TYPE, total) else
      if no_data then ret (GEAS_ERR_TYPE, total) else
      let '(st, total) := size_add total 12 in
      if negb (st_ok st) then ret (st, total) else
      elems (λ _ e, ty e =? l_elem v) total
  | Some GEAS_TY_MAP =>
      if negb (tag v =? 0) then ret (GEAS_ERR_TYPE, total) else
      if negb (tag_keyable (l_elem v)) then ret (GEAS_ERR_TYPE, total) else
      if negb (l_len v mod 2 =? 0) then ret (GEAS_ERR_TYPE, total) else
      if no_data then ret (GEAS_ERR_TYPE, total) else
      let '(st, total) := size_add total 12 in
      if negb (st_ok st) then ret (st, total) else
      elems (λ i e, negb (Nat.even i && negb (ty e =? l_elem v))) total
  | Some GEAS_TY_TUPLE | Some GEAS_TY_RECORD | Some GEAS_TY_SUM =>
      if negb (is_ty GEAS_TY_SUM v) && negb (tag v =? 0)
      then ret (GEAS_ERR_TYPE, total) else
      if no_data then ret (GEAS_ERR_TYPE, total) else
      let '(st, total) := size_add total 8 in
      if negb (st_ok st) then ret (st, total) else
      elems (λ _ _, true) total
  | Some GEAS_TY_OPTION =>
      if 1 <? tag v then ret (GEAS_ERR_TYPE, total) else
      if tag v =? 0 then
        ret (if as_box v =? 0 then GEAS_OK else GEAS_ERR_TYPE, total) else
      if as_box v =? 0 then ret (GEAS_ERR_TYPE, total) else
      e <- load_slot (as_box v) 0; rec e (depth + 1) total
  | Some GEAS_TY_RESULT =>
      if (1 <? tag v) || (as_box v =? 0) then ret (GEAS_ERR_TYPE, total) else
      e <- load_slot (as_box v) 0; rec e (depth + 1) total
  | Some GEAS_TY_PLEDGE_REF | Some GEAS_TY_INSTANCE | None => ret (GEAS_ERR_TYPE, total)
  end.

Fixpoint encode_size (fuel : nat) (v : GeasValue) (depth total : Z) : M (GeasStatus * Z) :=
  match fuel with
  | O => nofuel
  | S fuel' =>
      if GEAS_WIRE_MAX_DEPTH <? depth then ret (GEAS_ERR_TYPE, total) else
      let '(st, total) := size_add total 8 in
      if negb (st_ok st) then ret (st, total) else
      size_switch (encode_size fuel') v depth total
  end.

(** ** Encode: the write pass *)

(** Storing [bs] at the write pointer of a buffer of [cap] bytes of which [out]
    is written. *)
Definition put (cap : Z) (out bs : list Z) : M (list Z) :=
  if Z.of_nat (length out + length bs) <=? cap then ret (out ++ bs) else undef.

Section WriteElems.
Context (rec : GeasValue → list Z → M (list Z)) (data : Z).

Fixpoint write_elems (n i : nat) (out : list Z) : M (list Z) :=
  match n with
  | O => ret out
  | S n' => e <- load_slot data i; out <- rec e out; write_elems n' (S i) out
  end.
End WriteElems.

Definition write_switch (rec : GeasValue → list Z → M (list Z)) (cap : Z)
    (v : GeasValue) (out : list Z) : M (list Z) :=
  let elems out :=
    write_elems rec (l_data v) (Z.to_nat (l_len v)) 0 out in
  match tag_of (ty v) with
  | Some GEAS_TY_UNIT => ret out
  | Some GEAS_TY_INT => put cap out (put_u64 (u64 (as_i v)))
  | Some GEAS_TY_UINT => put cap out (put_u64 (as_u v))
  | Some GEAS_TY_FLOAT => put cap out (put_u64 (as_f v))
  | Some GEAS_TY_BOOL | Some GEAS_TY_BYTE => put cap out [as_b v]
  | Some GEAS_TY_CHAR => put cap out (put_u32 (as_ch v))
  | Some GEAS_TY_STRING =>
      out <- put cap out (put_u64 (s_len v));
      if s_len v =? 0 then ret out else
      bs <- load_bytes (s_ptr v) (Z.to_nat (s_len v)); put cap out bs
  | Some GEAS_TY_LIST | Some GEAS_TY_MAP =>
      out <- put cap out (put_u64 (l_len v) ++ put_u32 (l_elem v)); elems out
  | Some GEAS_TY_TUPLE | Some GEAS_TY_RECORD | Some GEAS_TY_SUM =>
      out <- put cap out (put_u64 (l_len v)); elems out
  | Some GEAS_TY_OPTION =>
      if tag v =? 1 then e <- load_slot (as_box v) 0; rec e out
      else ret out
  | Some GEAS_TY_RESULT =>
      e <- load_slot (as_box v) 0; rec e out
  | Some GEAS_TY_PLEDGE_REF | Some GEAS_TY_INSTANCE | None => ret out
  end.

Fixpoint encode_write (fuel : nat) (cap : Z) (v : GeasValue) (out : list Z) : M (list Z) :=
  match fuel with
  | O => nofuel
  | S fuel' =>
      out <- put cap out (put_u32 (ty v) ++ put_u32 (tag v));
      write_switch (encode_write fuel' cap) cap v out
  end.

(** Recursion is at most one call past the depth cap. *)
Definition wire_fuel : nat := 65.

(** [buf] says whether the caller passed a buffer; the bytes written to it come
    back beside the status and [*need] ([None] when unset). *)
Definition geas_wire_encode_value (v : option GeasValue) (buf : bool) (cap : Z)
    (need : bool) : M (GeasStatus * option Z * list Z) :=
  match v with
  | None => ret (GEAS_ERR_TYPE, None, [])
  | Some v =>
      if negb need then ret (GEAS_ERR_TYPE, None, []) else
      '(st, total) <- encode_size wire_fuel v 1 0;
      if negb (st_ok st) then ret (st, None, []) else
      if negb buf || (cap <? total) then ret (GEAS_ERR_OOM, Some total, []) else
      out <- encode_write wire_fuel cap v [];
      ret (GEAS_OK, Some total, out)
  end.

(** ** Decode *)

(** The cursor is the bytes not yet consumed ([p] and [left] in one). *)
Definition take_bytes (n : nat) (c : list Z) : option (list Z * list Z) :=
  if (length c <? n)%nat then None else Some (take n c, drop n c).

Definition count_plausible (c : list Z) (count : Z) : bool :=
  count <=? Z.of_nat (length c) / 8.

Definition decoded : Type := GeasStatus * list Z * GeasValue.

(** What an uninitialised local holds. *)
Definition junk_val : M GeasValue := λ m, Ret (lib_junk_val (lib m)) m.

(** The comparison a map's duplicate scan makes; decoded keys are scalars or
    strings, so one level is enough. *)
Definition key_eq : option GeasValue → option GeasValue → M bool := geas_value_eq wire_fuel.

Section DecodeElems.
Context (rec : list Z → GeasValue → M decoded).

(** The list loop: decode into a local, check its tag, push. *)
Fixpoint decode_list_elems (owner elem_ty : Z) (n : nat) (c : list Z) (out : GeasValue)
    : M decoded :=
  match n with
  | O => ret (GEAS_OK, c, out)
  | S n' =>
      j <- junk_val;
      '(st, c, elem) <- rec c j;
      if negb (st_ok st) then ret (st, c, out) else
      if negb (ty elem =? elem_ty) then ret (GEAS_ERR_TYPE, c, out) else
      '(st, out') <- geas_list_push owner (Some out) (Some elem);
      let out := default out out' in
      if negb (st_ok st) then ret (st, c, out) else
      decode_list_elems owner elem_ty n' c out
  end.

(** The loop over a slot array: decode in place, then the per slot check. *)
Fixpoint decode_slots (chk : nat → M GeasStatus) (data : Z) (n i : nat) (c : list Z)
    : M (GeasStatus * list Z) :=
  match n with
  | O => ret (GEAS_OK, c)
  | S n' =>
      d <- load_slot data i;
      '(st, c, d') <- rec c d;
      store_slot data i d';;;
      if negb (st_ok st) then ret (st, c) else
      st <- chk i;
      if negb (st_ok st) then ret (st, c) else decode_slots chk data n' (S i) c
  end.
End DecodeElems.

(** [for (j = 0; j < i; j += 2)] over the keys before slot [i]. *)
Fixpoint dup_scan (data : Z) (n j i : nat) : M GeasStatus :=
  match n with
  | O => ret GEAS_OK
  | S n' =>
      if negb (j <? i)%nat then ret GEAS_OK else
      x <- load_slot data j;
      y <- load_slot data i;
      hit <- key_eq (Some x) (Some y);
      if hit then ret GEAS_ERR_TYPE else dup_scan data n' (j + 2) i
  end.

Definition map_slot_chk (data key_ty : Z) (i : nat) : M GeasStatus :=
  if Nat.even i then
    x <- load_slot data i;
    if negb (ty x =? key_ty) then ret GEAS_ERR_TYPE else dup_scan data i 0 i
  else ret GEAS_OK.

(** [if (tag != 0 || !take(c, n, &h)) return GEAS_ERR_TYPE;] then [k]. *)
Definition untagged (tg : Z) (n : nat) (c : list Z) (out : GeasValue)
    (k : list Z → list Z → M decoded) : M decoded :=
  if negb (tg =? 0) then ret (GEAS_ERR_TYPE, c, out) else
  match take_bytes n c with
  | None => ret (GEAS_ERR_TYPE, c, out)
  | Some (h, c) => k h c
  end.

(** The slot array a record, a sum or a map decodes into: [empty] is what [out]
    reads when the block cannot be had, [out data] with it. *)
Definition decode_block (rec : list Z → GeasValue → M decoded) (owner : Z)
    (chk : Z → nat → M GeasStatus) (count : Z) (c : list Z) (empty : GeasValue)
    (out : Z → GeasValue) : M decoded :=
  fields <- (if count =? 0 then ret (Some 0) else
             p <- geas_bytes KVals owner (slot_bytes count);
             if p =? 0 then ret None else zero_slots p (slot_count count);;; ret (Some p));
  match fields with
  | None => ret (GEAS_ERR_OOM, c, empty)
  | Some data =>
      '(st, c) <- decode_slots rec (chk data) data (Z.to_nat count) 0 c;
      ret (st, c, out data)
  end.

(** The payload of an Option that is Some, or of a Result. *)
Definition decode_boxed (rec : list Z → GeasValue → M decoded) (owner t tg : Z)
    (c : list Z) : M decoded :=
  box <- geas_box owner;
  if box =? 0 then ret (GEAS_ERR_OOM, c, GV t tg 0 0 0 0) else
  b <- load_slot box 0;
  '(st, c, b') <- rec c b;
  store_slot box 0 b';;;
  ret (st, c, GV t tg box 0 0 0).

(** Past the eight byte header [t], [tg], with [c] the bytes after it. *)
Definition decode_switch (rec : list Z → GeasValue → M decoded) (owner t tg : Z)
    (c : list Z) : M decoded :=
  let out := GV t tg 0 0 0 0 in
  match tag_of t with
  | Some GEAS_TY_UNIT => ret (if tg =? 0 then GEAS_OK else GEAS_ERR_TYPE, c, out)
  | Some GEAS_TY_INT | Some GEAS_TY_UINT | Some GEAS_TY_FLOAT =>
      untagged tg 8 c out (λ h c, ret (GEAS_OK, c, GV t tg (get_u64 h) 0 0 0))
  | Some GEAS_TY_BOOL =>
      untagged tg 1 c out (λ h c,
        if 1 <? byte_at h 0 then ret (GEAS_ERR_TYPE, c, out) else
        ret (GEAS_OK, c, GV t tg (byte_at h 0) 0 0 0))
  | Some GEAS_TY_BYTE =>
      untagged tg 1 c out (λ h c, ret (GEAS_OK, c, GV t tg (byte_at h 0) 0 0 0))
  | Some GEAS_TY_CHAR =>
      untagged tg 4 c out (λ h c,
        if negb (char_ok (get_u32 h)) then ret (GEAS_ERR_TYPE, c, out) else
        ret (GEAS_OK, c, GV t tg (get_u32 h) 0 0 0))
  | Some GEAS_TY_STRING =>
      untagged tg 8 c out (λ h c,
        let len := get_u64 h in
        if Z.of_nat (length c) <? len then ret (GEAS_ERR_TYPE, c, out) else
        let bytes := take (Z.to_nat len) c in
        let c := drop (Z.to_nat len) c in
        out <- string_copy_from owner (ret bytes) len;
        if negb (len =? 0) && (s_ptr out =? 0) then ret (GEAS_ERR_OOM, c, out)
        else ret (GEAS_OK, c, out))
  | Some GEAS_TY_LIST =>
      untagged tg 12 c out (λ h c,
        let count := get_u64 h in
        let elem_ty := get_u32 (drop 8 h) in
        if negb (tag_crosses elem_ty) then ret (GEAS_ERR_TYPE, c, out) else
        if negb (count_plausible c count) then ret (GEAS_ERR_TYPE, c, out) else
        '(st, o) <- geas_list_new owner elem_ty count (Some out);
        let out := default out o in
        if negb (st_ok st) then ret (st, c, out) else
        decode_list_elems rec owner elem_ty (Z.to_nat count) c out)
  | Some GEAS_TY_TUPLE =>
      untagged tg 8 c out (λ h c,
        let arity := get_u64 h in
        if negb (count_plausible c arity) then ret (GEAS_ERR_TYPE, c, out) else
        '(st, o) <- geas_tuple_new owner arity (Some out);
        let out := default out o in
        if negb (st_ok st) then ret (st, c, out) else
        '(st, c) <- decode_slots rec (λ _, ret GEAS_OK) (l_data out) (Z.to_nat arity) 0 c;
        ret (st, c, out))
  | Some GEAS_TY_RECORD | Some GEAS_TY_SUM =>
      if (t =? tag_num GEAS_TY_RECORD) && negb (tg =? 0) then ret (GEAS_ERR_TYPE, c, out) else
      match take_bytes 8 c with
      | None => ret (GEAS_ERR_TYPE, c, out)
      | Some (h, c) =>
          let count := get_u64 h in
          if negb (count_plausible c count) then ret (GEAS_ERR_TYPE, c, out) else
          decode_block rec owner (λ _ _, ret GEAS_OK) count c out (λ data, GV t tg data count count 0)
      end
  | Some GEAS_TY_MAP =>
      untagged tg 12 c out (λ h c,
        let count := get_u64 h in
        let key_ty := get_u32 (drop 8 h) in
        if negb (count mod 2 =? 0) then ret (GEAS_ERR_TYPE, c, out) else
        if negb (tag_keyable key_ty) then ret (GEAS_ERR_TYPE, c, out) else
        if negb (count_plausible c count) then ret (GEAS_ERR_TYPE, c, out) else
        decode_block rec owner (λ data, map_slot_chk data key_ty) count c (geas_map_new owner key_ty)
          (λ data, g_seq GEAS_TY_MAP 0 data count count key_ty))
  | Some GEAS_TY_OPTION =>
      if 1 <? tg then ret (GEAS_ERR_TYPE, c, out) else
      if tg =? 0 then ret (GEAS_OK, c, out) else decode_boxed rec owner t tg c
  | Some GEAS_TY_RESULT =>
      if 1 <? tg then ret (GEAS_ERR_TYPE, c, out) else decode_boxed rec owner t tg c
  | Some GEAS_TY_PLEDGE_REF | Some GEAS_TY_INSTANCE | None => ret (GEAS_ERR_TYPE, c, out)
  end.

Fixpoint decode_rec (fuel : nat) (owner : Z) (c : list Z) (depth : Z) (out : GeasValue)
    : M decoded :=
  match fuel with
  | O => nofuel
  | S fuel' =>
      if GEAS_WIRE_MAX_DEPTH <? depth then ret (GEAS_ERR_TYPE, c, out) else
      match take_bytes 8 c with
      | None => ret (GEAS_ERR_TYPE, c, out)
      | Some (h, c) =>
          decode_switch (λ c o, decode_rec fuel' owner c (depth + 1) o) owner
            (get_u32 h) (get_u32 (drop 4 h)) c
      end
  end.

(** [buf] is [None] for a NULL pointer; the caller's [out] and [*consumed] come
    back with the status. *)
Definition geas_wire_decode_value (owner : Z) (buf : option (list Z)) (len : Z)
    (out : option GeasValue) : M (GeasStatus * option GeasValue * Z) :=
  match out with
  | None => ret (GEAS_ERR_TYPE, None, 0)
  | Some o =>
      if owner =? 0 then ret (GEAS_ERR_TYPE, out, 0) else
      match buf with
      | None => if negb (len =? 0) then ret (GEAS_ERR_TYPE, out, 0) else
          '(st, c, v) <- decode_rec wire_fuel owner [] 1 o;
          if negb (st_ok st) then ret (st, Some gzero, 0) else
          ret (GEAS_OK, Some v, len - Z.of_nat (length c))
      | Some bytes =>
          '(st, c, v) <- decode_rec wire_fuel owner (take (Z.to_nat len) bytes) 1 o;
          if negb (st_ok st) then ret (st, Some gzero, 0) else
          ret (GEAS_OK, Some v, len - Z.of_nat (length c))
      end
  end.
