(* ===== verification/WireSpec.v ===== *)
(** * The wire codec's specification

    The canonical byte string of a value tree ([enc]), the values that have one
    ([wire_shape]), a reference parser ([dec]), and the lemmas that relate the
    heap level passes of [Wire] to them: the sizing pass measures [enc], the
    write pass writes exactly [enc] inside the measured buffer, and the decoder
    builds on the heap what [dec] parses. *)
From Stdlib Require Import Btauto.
From S2P Require Import Prelude Abi Memory Value ValueSpec Wire.

(** ** Little endian words *)

Definition bytes_ok (bs : list Z) : Prop := Forall is_u8 bs.

Lemma lor_shiftl_add a b n :
  0 <= n → 0 <= a < 2 ^ n → Z.lor a (Z.shiftl b n) = a + b * 2 ^ n.
Proof.
  intros Hn Ha. rewrite <- Z.shiftl_mul_pow2 by done.
  assert (Hz : Z.land a (Z.shiftl b n) = 0).
  { apply Z.bits_inj'. intros i Hi. rewrite Z.land_spec, Z.bits_0.
    destruct (Z.lt_ge_cases i n) as [Hlt|Hge].
    - by rewrite Z.shiftl_spec_low, andb_false_r by lia.
    - replace a with (a mod 2 ^ n) by (apply Z.mod_small; lia).
      by rewrite Z.mod_pow2_bits_high by lia. }
  by rewrite Z.add_nocarry_lxor, Z.lxor_lor by done.
Qed.

Lemma shiftr_div a n : 0 <= n → Z.shiftr a n = a / 2 ^ n.
Proof. apply Z.shiftr_div_pow2. Qed.

(** The word four bytes spell. *)
Definition le32 (a b c d : Z) : Z := a + b * 256 + c * 65536 + d * 16777216.

Lemma get_u32_le a b c d rest : is_u8 a → is_u8 b → is_u8 c → is_u8 d →
  get_u32 (a :: b :: c :: d :: rest) = le32 a b c d.
Proof.
  unfold is_u8, get_u32, byte_at, le32. simpl. intros.
  rewrite (lor_shiftl_add a b 8) by lia.
  rewrite (lor_shiftl_add _ c 16), (lor_shiftl_add _ d 24) by lia. lia.
Qed.

Lemma put_u32_le v : is_u32 v → ∃ a b c d,
  put_u32 v = [a; b; c; d] ∧ is_u8 a ∧ is_u8 b ∧ is_u8 c ∧ is_u8 d ∧ v = le32 a b c d.
Proof.
  intros H. unfold put_u32. rewrite !shiftr_div by lia.
  change (2 ^ 8) with 256. change (2 ^ 16) with 65536. change (2 ^ 24) with 16777216.
  eexists _, _, _, _. split; [reflexivity|]. split_and!; try apply u8_range.
  unfold le32, u8, is_u32 in *. Z.to_euclidean_division_equations. lia.
Qed.

Lemma get_put_u32 v rest : is_u32 v → get_u32 (put_u32 v ++ rest) = v.
Proof.
  intros H. destruct (put_u32_le v H) as (a & b & c & d & -> & ? & ? & ? & ? & ->).
  by apply get_u32_le.
Qed.

Lemma u8_le_0 a b c d : is_u8 a → u8 (le32 a b c d) = a.
Proof. unfold is_u8, u8, le32. intros. Z.to_euclidean_division_equations. lia. Qed.

Lemma put_get_u32 a b c d rest : is_u8 a → is_u8 b → is_u8 c → is_u8 d →
  put_u32 (get_u32 (a :: b :: c :: d :: rest)) = [a; b; c; d].
Proof.
  intros. rewrite get_u32_le by done. unfold put_u32. rewrite !shiftr_div by lia.
  unfold is_u8, u8, le32 in *.
  change (2 ^ 8) with 256. change (2 ^ 16) with 65536. change (2 ^ 24) with 16777216.
  repeat f_equal; Z.to_euclidean_division_equations; lia.
Qed.

Lemma put_u32_len v : length (put_u32 v) = 4%nat.
Proof. done. Qed.
Lemma put_u64_len v : length (put_u64 v) = 8%nat.
Proof. done. Qed.

Lemma put_u32_bytes v : bytes_ok (put_u32 v).
Proof. repeat constructor; apply u8_range. Qed.
Lemma put_u64_bytes v : bytes_ok (put_u64 v).
Proof. apply Forall_app. split; apply put_u32_bytes. Qed.

Lemma get_u32_range bs : bytes_ok bs → (4 ≤ length bs)%nat → is_u32 (get_u32 bs).
Proof.
  intros Hb Hl. destruct bs as [|a [|b [|c [|d rest]]]]; simpl in Hl; try lia.
  unfold bytes_ok in Hb. rewrite !Forall_cons in Hb. destruct Hb as (? & ? & ? & ? & _).
  rewrite get_u32_le by done. unfold is_u8, is_u32, le32 in *. lia.
Qed.

Lemma get_put_u64 v rest : is_u64 v → get_u64 (put_u64 v ++ rest) = v.
Proof.
  intros H. unfold get_u64, put_u64. rewrite <- app_assoc.
  rewrite get_put_u32 by apply u32_range.
  change (drop 4 (put_u32 (u32 v) ++ ?r)) with r. rewrite get_put_u32 by apply u32_range.
  rewrite shiftr_div by lia. rewrite lor_shiftl_add by (lia || (pose proof (u32_range v); unfold is_u32 in *; lia)).
  change (2 ^ 32) with 4294967296. unfold u32, is_u64 in *.
  Z.to_euclidean_division_equations. lia.
Qed.

Lemma put_get_u64 bs : bytes_ok bs → length bs = 8%nat → put_u64 (get_u64 bs) = bs.
Proof.
  intros Hb Hl. destruct bs as [|a [|b [|c [|d [|e [|f [|g [|h [|]]]]]]]]]; simpl in Hl; try lia.
  unfold bytes_ok in Hb. rewrite !Forall_cons in Hb. destruct Hb as (? & ? & ? & ? & ? & ? & ? & ? & _).
  unfold get_u64, put_u64. change (drop 4 [a; b; c; d; e; f; g; h]) with [e; f; g; h].
  rewrite shiftr_div by lia.
  assert (R1 : is_u32 (get_u32 [a; b; c; d; e; f; g; h])) by (apply get_u32_range; [unfold bytes_ok; rewrite !Forall_cons; auto 10|simpl; lia]).
  assert (R2 : is_u32 (get_u32 [e; f; g; h])) by (apply get_u32_range; [unfold bytes_ok; rewrite !Forall_cons; auto 10|simpl; lia]).
  rewrite lor_shiftl_add by (unfold is_u32 in *; lia).
  set (x := get_u32 [a; b; c; d; e; f; g; h]) in *. set (y := get_u32 [e; f; g; h]) in *.
  replace (u32 (x + y * 2 ^ 32)) with x.
  2: { unfold u32, is_u32 in *. change (2 ^ 32) with 4294967296. Z.to_euclidean_division_equations. lia. }
  replace (u32 ((x + y * 2 ^ 32) / 2 ^ 32)) with y.
  2: { unfold u32, is_u32 in *. change (2 ^ 32) with 4294967296. Z.to_euclidean_division_equations. lia. }
  subst x y. rewrite !put_get_u32 by done. done.
Qed.

Lemma get_u64_range bs : bytes_ok bs → (8 ≤ length bs)%nat → is_u64 (get_u64 bs).
Proof.
  intros Hb Hl. unfold get_u64.
  assert (R1 : is_u32 (get_u32 bs)) by (apply get_u32_range; [done|lia]).
  assert (R2 : is_u32 (get_u32 (drop 4 bs))).
  { apply get_u32_range; [by apply Forall_drop|rewrite length_drop; lia]. }
  rewrite lor_shiftl_add by (unfold is_u32 in *; lia). unfold is_u32, is_u64 in *.
  change (2 ^ 32) with 4294967296. lia.
Qed.

Lemma put_u64_mod v : put_u64 (u64 v) = put_u64 v.
Proof.
  unfold put_u64. rewrite !shiftr_div by lia. change (2 ^ 32) with 4294967296.
  f_equal; f_equal; unfold u32, u64; Z.to_euclidean_division_equations; lia.
Qed.

(** ** The canonical byte string of a value *)

(** The unsigned words of a value tree fit their fields. *)
Definition scalar_fits (k : GeasTypeTag) (w : Z) : Prop :=
  match k with
  | GEAS_TY_UNIT => w = 0
  | GEAS_TY_BOOL | GEAS_TY_BYTE => is_u8 w
  | GEAS_TY_CHAR => is_u32 w
  | _ => is_u64 w
  end.

Fixpoint val_wf (t : val) : Prop :=
  match t with
  | VScalar k tg w => is_u32 tg ∧ scalar_fits k w
  | VString tg bs => is_u32 tg ∧ bytes_ok bs ∧ is_u64 (Z.of_nat (length bs))
  | VSeq k tg e els =>
      is_u32 tg ∧ is_u32 e ∧ is_u64 (Z.of_nat (length els)) ∧
      (fix go l := match l with [] => True | x :: l' => val_wf x ∧ go l' end) els
  | VBox k tg b => is_u32 tg ∧ match b with None => True | Some t' => val_wf t' end
  end.

Definition header (k : GeasTypeTag) (tg : Z) : list Z := put_u32 (tag_num k) ++ put_u32 tg.

Definition scalar_bytes (k : GeasTypeTag) (w : Z) : list Z :=
  match k with
  | GEAS_TY_INT | GEAS_TY_UINT | GEAS_TY_FLOAT => put_u64 w
  | GEAS_TY_BOOL | GEAS_TY_BYTE => [w]
  | GEAS_TY_CHAR => put_u32 w
  | _ => []
  end.

(** The element tag a list and a map carry. *)
Definition elem_bytes (k : GeasTypeTag) (e : Z) : list Z :=
  match k with GEAS_TY_LIST | GEAS_TY_MAP => put_u32 e | _ => [] end.

Fixpoint enc (t : val) : list Z :=
  match t with
  | VScalar k tg w => header k tg ++ scalar_bytes k w
  | VString tg bs => header GEAS_TY_STRING tg ++ put_u64 (Z.of_nat (length bs)) ++ bs
  | VSeq k tg e els =>
      header k tg ++ (put_u64 (Z.of_nat (length els)) ++ elem_bytes k e) ++
      (fix go l := match l with [] => [] | x :: l' => enc x ++ go l' end) els
  | VBox k tg b => header k tg ++ match b with None => [] | Some t' => enc t' end
  end.

Fixpoint encs (els : list val) : list Z :=
  match els with [] => [] | x :: els' => enc x ++ encs els' end.

(** ** The values that have an encoding *)

(** The keys of a map's slots. *)
Fixpoint evens (els : list val) : list val :=
  match els with [] => [] | [x] => [x] | x :: _ :: els' => x :: evens els' end.

(** The check slot [t] must pass after the slots [pre]; [strict] adds what only
    the decoder enforces: no key twice and no stray element tag. *)
Definition slot_ok (strict : bool) (k : GeasTypeTag) (e : Z) (pre : list val) (t : val) : bool :=
  match k with
  | GEAS_TY_LIST => tag_num (val_ty t) =? e
  | GEAS_TY_MAP =>
      negb (Nat.even (length pre)) ||
      (tag_num (val_ty t) =? e) && (negb strict || forallb (λ s, negb (veq s t)) (evens pre))
  | _ => true
  end.

Fixpoint slots_ok (strict : bool) (k : GeasTypeTag) (e : Z) (pre els : list val) : bool :=
  match els with
  | [] => true
  | t :: els' => slot_ok strict k e pre t && slots_ok strict k e (pre ++ [t]) els'
  end.

Definition scalar_shape (k : GeasTypeTag) (w : Z) : bool :=
  match k with
  | GEAS_TY_UNIT | GEAS_TY_INT | GEAS_TY_UINT | GEAS_TY_FLOAT | GEAS_TY_BYTE => true
  | GEAS_TY_BOOL => w <=? 1
  | GEAS_TY_CHAR => char_ok w
  | _ => false
  end.

(** The sequence header's own conditions. *)
Definition seq_shape (strict : bool) (k : GeasTypeTag) (tg e n : Z) : bool :=
  match k with
  | GEAS_TY_LIST => (tg =? 0) && tag_crosses e
  | GEAS_TY_MAP => (tg =? 0) && tag_keyable e && (n mod 2 =? 0)
  | GEAS_TY_TUPLE | GEAS_TY_RECORD => (tg =? 0) && (negb strict || (e =? 0))
  | GEAS_TY_SUM => negb strict || (e =? 0)
  | _ => false
  end.

Definition box_shape (k : GeasTypeTag) (tg : Z) (full : bool) : bool :=
  match k with
  | GEAS_TY_OPTION => (tg =? 0) && negb full || (tg =? 1) && full
  | GEAS_TY_RESULT => (tg <=? 1) && full
  | _ => false
  end.

Fixpoint wire_shape (strict : bool) (t : val) : bool :=
  match t with
  | VScalar k tg w => (tg =? 0) && scalar_shape k w
  | VString tg _ => tg =? 0
  | VSeq k tg e els =>
      seq_shape strict k tg e (Z.of_nat (length els)) && slots_ok strict k e [] els &&
      (fix go l := match l with [] => true | x :: l' => wire_shape strict x && go l' end) els
  | VBox k tg b =>
      box_shape k tg (match b with Some _ => true | None => false end) &&
      match b with None => true | Some t' => wire_shape strict t' end
  end.

Fixpoint wire_shapes (strict : bool) (els : list val) : bool :=
  match els with [] => true | x :: els' => wire_shape strict x && wire_shapes strict els' end.

(** ** The reference parser *)

Section DecElems.
Context (rec : list Z → option (val * list Z)) (chk : list val → val → bool).

Fixpoint dec_elems (n : nat) (pre : list val) (c : list Z) : option (list val * list Z) :=
  match n with
  | O => Some (pre, c)
  | S n' =>
      match rec c with
      | Some (t, c) => if chk pre t then dec_elems n' (pre ++ [t]) c else None
      | None => None
      end
  end.
End DecElems.

Definition dec_scalar (k : GeasTypeTag) (c : list Z) : option (Z * list Z) :=
  match k with
  | GEAS_TY_UNIT => Some (0, c)
  | GEAS_TY_INT | GEAS_TY_UINT | GEAS_TY_FLOAT =>
      match take_bytes 8 c with Some (h, c) => Some (get_u64 h, c) | None => None end
  | GEAS_TY_BOOL | GEAS_TY_BYTE =>
      match take_bytes 1 c with Some (h, c) => Some (byte_at h 0, c) | None => None end
  | GEAS_TY_CHAR =>
      match take_bytes 4 c with Some (h, c) => Some (get_u32 h, c) | None => None end
  | _ => None
  end.

(** The count field and, for a list or a map, the element tag. *)
Definition dec_count (k : GeasTypeTag) (c : list Z) : option (Z * Z * list Z) :=
  match k with
  | GEAS_TY_LIST | GEAS_TY_MAP =>
      match take_bytes 12 c with
      | Some (h, c) => Some (get_u64 h, get_u32 (drop 8 h), c) | None => None end
  | _ => match take_bytes 8 c with Some (h, c) => Some (get_u64 h, 0, c) | None => None end
  end.

(** Past the header of a value of type [k] and tag [tg]. *)
Definition dec_switch (rec : list Z → option (val * list Z)) (k : GeasTypeTag) (tg : Z)
    (c : list Z) : option (val * list Z) :=
  if scalar_tag k then
    if negb (tg =? 0) then None else
    match dec_scalar k c with
    | Some (w, c) => if scalar_shape k w then Some (VScalar k tg w, c) else None
    | None => None
    end
  else match k with
  | GEAS_TY_STRING =>
      if negb (tg =? 0) then None else
      match take_bytes 8 c with
      | Some (h, c) =>
          if Z.of_nat (length c) <? get_u64 h then None else
          Some (VString tg (take (Z.to_nat (get_u64 h)) c), drop (Z.to_nat (get_u64 h)) c)
      | None => None
      end
  | GEAS_TY_OPTION | GEAS_TY_RESULT =>
      if bool_decide (k = GEAS_TY_OPTION) && (tg =? 0) then Some (VBox k tg None, c) else
      if 1 <? tg then None else
      match rec c with Some (t, c) => Some (VBox k tg (Some t), c) | None => None end
  | _ =>
      match dec_count k c with
      | Some (cnt, e, c) =>
          if negb (seq_shape true k tg e cnt) then None else
          if negb (count_plausible c cnt) then None else
          match dec_elems rec (slot_ok true k e) (Z.to_nat cnt) [] c with
          | Some (els, c) => Some (VSeq k tg e els, c)
          | None => None
          end
      | None => None
      end
  end.

Fixpoint dec (n : nat) (bs : list Z) : option (val * list Z) :=
  match n with
  | O => None
  | S n' =>
      match take_bytes 8 bs with
      | None => None
      | Some (h, c) =>
          match tag_of (get_u32 h) with
          | None => None
          | Some k => dec_switch (dec n') k (get_u32 (drop 4 h)) c
          end
      end
  end.

(** ** Structure lemmas *)

Lemma enc_seq k tg e els :
  enc (VSeq k tg e els) =
  header k tg ++ (put_u64 (Z.of_nat (length els)) ++ elem_bytes k e) ++ encs els.
Proof. done. Qed.

Lemma wire_shape_seq strict k tg e els :
  wire_shape strict (VSeq k tg e els) =
  seq_shape strict k tg e (Z.of_nat (length els)) && slots_ok strict k e [] els &&
  wire_shapes strict els.
Proof. simpl. f_equal. induction els; simpl; congruence. Qed.

Lemma val_wf_seq k tg e els :
  val_wf (VSeq k tg e els) ↔
  is_u32 tg ∧ is_u32 e ∧ is_u64 (Z.of_nat (length els)) ∧ Forall val_wf els.
Proof.
  simpl. do 3 f_equiv. induction els as [|x els IH]; simpl; [by split|].
  by rewrite Forall_cons, IH.
Qed.

Lemma encs_app a b : encs (a ++ b) = encs a ++ encs b.
Proof. induction a; simpl; [done|]. by rewrite IHa, app_assoc. Qed.

Lemma header_len k tg : length (header k tg) = 8%nat.
Proof. done. Qed.
Lemma header_eq k tg : header k tg = put_u32 (tag_num k) ++ put_u32 tg.
Proof. done. Qed.
#[local] Opaque header put_u32 put_u64.

Lemma enc_len_pos t : (8 ≤ length (enc t))%nat.
Proof.
  destruct t; simpl; rewrite length_app, header_len; lia.
Qed.

(** ** The sizing pass *)

Definition zlen (bs : list Z) : Z := Z.of_nat (length bs).

(** What sizing [n] more bytes may answer: the new total, GEAS_ERR_TYPE exactly
    for a value without an encoding, GEAS_ERR_OOM only past 2^64. *)
Definition size_post (fits : bool) (n total : Z) (r : GeasStatus * Z) : Prop :=
  match r.1 with
  | GEAS_OK => fits = true ∧ r.2 = total + n ∧ r.2 <= U64_MAX
  | GEAS_ERR_TYPE => fits = false
  | GEAS_ERR_OOM => U64_MAX < total + n
  | _ => False
  end.

Lemma size_add_post total n : size_post true n total (size_add total n).
Proof.
  unfold size_add, size_post. destruct (Z.ltb_spec (U64_MAX - total) n); simpl; [lia|].
  split_and!; [done..|lia].
Qed.

(** Two sizes in a row. *)
Lemma size_post_seq f1 f2 n1 n2 total r1 r2 :
  0 <= n2 → size_post f1 n1 total r1 → (r1.1 ≠ GEAS_OK → r2 = r1) →
  (r1.1 = GEAS_OK → size_post f2 n2 r1.2 r2) → size_post (f1 && f2) (n1 + n2) total r2.
Proof.
  unfold size_post. destruct r1 as [[] t1]; simpl; intros Hn H1 Hne Hok;
    try (rewrite (Hne ltac:(done)); simpl); try done.
  - destruct H1 as (-> & -> & _). specialize (Hok eq_refl). destruct r2 as [[] t2]; simpl in *; try done.
    + destruct Hok as (-> & -> & ?). split_and!; [done|lia..].
    + lia.
  - by rewrite H1.
  - lia.
Qed.

Lemma size_post_type total n r : r.1 = GEAS_ERR_TYPE → size_post false n total r.
Proof. unfold size_post. by intros ->. Qed.

Section Sizing.
Context (m : mem).

(** [e] sizes [t] at depth [d]. *)
Definition sizes (rec : GeasValue → Z → M (GeasStatus * Z)) (d : nat) (t : val) : Prop :=
  ∀ s total, repr (heap m) s t → 0 <= total <= U64_MAX →
  ∃ r, rec s total m = Ret r m ∧
    size_post (wire_shape false t && (d + height t <=? 65)%nat) (zlen (enc t)) total r.

Lemma size_elems_run rec d chk data k e slots all :
  (∀ pre t s, ty s = tag_num (val_ty t) → chk (length pre) s = slot_ok false k e pre t) →
  (all = [] ∨ heap m !! data = Some (BVals slots) ∧ reprs (heap m) slots all) →
  (∀ t, t ∈ all → sizes rec d t) →
  ∀ els pre total, all = pre ++ els → 0 <= total <= U64_MAX →
  ∃ r, size_elems rec chk data (length els) (length pre) total m = Ret r m ∧
    size_post (slots_ok false k e pre els && wire_shapes false els &&
               forallb (λ t, (d + height t <=? 65)%nat) els) (zlen (encs els)) total r.
Proof.
  intros Hchk Hd Hrec. induction els as [|t els IH]; intros pre total Hall Ht; simpl.
  { eexists. split; [reflexivity|]. unfold size_post, zlen; simpl. split_and!; [done|lia..]. }
  destruct Hd as [->|[Hblk Hr]]; [by destruct pre|].
  destruct (Hr (length pre) t) as (s & Hs & Hsr).
  { rewrite Hall, lookup_app_r by lia. by rewrite Nat.sub_diag. }
  rewrite (bind_Ret _ _ _ _ _ (load_slot_eq _ _ _ _ _ Hblk Hs)).
  rewrite (Hchk pre t s) by (by eapply repr_ty). destruct (slot_ok false k e pre t); simpl.
  2: { eexists. split; [reflexivity|]. by apply size_post_type. }
  assert (Hin : t ∈ all) by (rewrite Hall; apply elem_of_app; right; left).
  destruct (Hrec t Hin s total Hsr Ht) as ([st1 t1] & Hrun & Hp1).
  rewrite (bind_Ret _ _ _ _ _ Hrun).
  assert (Hone : ∀ r2, (st1 ≠ GEAS_OK → r2 = (st1, t1)) → (st1 = GEAS_OK →
      size_post (slots_ok false k e (pre ++ [t]) els && wire_shapes false els &&
        forallb (λ t, (d + height t <=? 65)%nat) els) (zlen (encs els)) t1 r2) →
    size_post (slots_ok false k e (pre ++ [t]) els && (wire_shape false t && wire_shapes false els) &&
      ((d + height t <=? 65)%nat && forallb (λ t, (d + height t <=? 65)%nat) els))
      (zlen (enc t ++ encs els)) total r2).
  { intros r2 Hne Hok. unfold zlen. rewrite length_app, Nat2Z.inj_add.
    match goal with |- size_post ?b _ _ _ => replace b with
      ((wire_shape false t && (d + height t <=? 65)%nat) &&
       (slots_ok false k e (pre ++ [t]) els && wire_shapes false els &&
        forallb (λ t, (d + height t <=? 65)%nat) els)) by btauto end.
    eapply size_post_seq; [lia|exact Hp1|exact Hne|exact Hok]. }
  destruct (st_ok st1) eqn:Hst; simpl.
  - apply st_ok_spec in Hst as ->. pose proof Hp1 as (_ & Ht1 & Ht1').
    destruct (IH (pre ++ [t]) t1) as (r2 & Hrun2 & Hp2).
    { by rewrite <- app_assoc. }
    { simpl in *. unfold zlen in *. lia. }
    rewrite length_app, Nat.add_1_r in Hrun2. exists r2. split; [exact Hrun2|].
    apply Hone; [done|auto].
  - eexists. split; [reflexivity|]. apply Hone; [done|]. intros ->. done.
Qed.

Lemma heights_le d els :
  forallb (λ t, (S d + height t <=? 65)%nat) els = ((d + S (heights els) <=? 65)%nat || bool_decide (els = [])).
Proof.
  induction els as [|t els IH]; cbn [forallb]; [by rewrite orb_true_r|]. rewrite IH.
  unfold heights. cbn [foldr]. fold (heights els). rewrite (bool_decide_eq_false_2 (t :: els = [])) by done.
  apply Bool.eq_iff_eq_true. rewrite !andb_true_iff, !orb_true_iff, !Nat.leb_le, bool_decide_eq_true.
  destruct els; simpl; [intuition lia|]. split; [intros [? [?|?]]; [left; lia|done]|].
  intros [?|?]; [|done]. split; [|left]; lia.
Qed.

(** A checked addition, then the rest of the pass. *)
Lemma size_step n0 n fits total (k : Z → M (GeasStatus * Z)) :
  0 <= n0 <= n → 0 <= total →
  (0 <= total + n0 <= U64_MAX →
   ∃ r, k (total + n0) m = Ret r m ∧ size_post fits (n - n0) (total + n0) r) →
  ∃ r, (let '(st, total) := size_add total n0 in
        if negb (st_ok st) then ret (st, total) else k total) m = Ret r m ∧
       size_post fits n total r.
Proof.
  intros Hn Ht Hk. unfold size_add. destruct (Z.ltb_spec (U64_MAX - total) n0); simpl.
  - eexists. split; [reflexivity|]. unfold size_post; simpl. lia.
  - destruct Hk as (r & Hrun & Hp); [lia|]. exists r. split; [done|].
    unfold size_post in *. destruct r as [[] ?]; simpl in *; intuition lia.
Qed.

Lemma size_ret_add total n fits n' :
  fits = true → n = n' → ∃ r, ret (size_add total n) m = Ret r m ∧ size_post fits n' total r.
Proof. intros -> ->. eexists. split; [reflexivity|]. apply size_add_post. Qed.

Lemma size_ret_ok total n fits :
  fits = true → n = 0 → 0 <= total <= U64_MAX →
  ∃ r, ret (GEAS_OK, total) m = Ret r m ∧ size_post fits n total r.
Proof.
  intros -> ->. eexists. split; [reflexivity|]. unfold size_post; simpl. split_and!; [done|lia..].
Qed.

Lemma size_ret_type total t n fits :
  fits = false → ∃ r, ret (GEAS_ERR_TYPE, t) m = Ret r m ∧ size_post fits n total r.
Proof. intros ->. eexists. split; [reflexivity|]. by apply size_post_type. Qed.

(** The header every encoded value starts with, and the depth check before it. *)
Lemma encode_size_header fuel v d total n shape h :
  (1 ≤ d ≤ 65)%nat → (1 ≤ h)%nat → 8 <= n → 0 <= total →
  ((d ≤ 64)%nat → 0 <= total + 8 <= U64_MAX →
   ∃ r, size_switch (encode_size fuel) v (Z.of_nat d) (total + 8) m = Ret r m ∧
     size_post (shape && (d + h <=? 65)%nat) (n - 8) (total + 8) r) →
  ∃ r, encode_size (S fuel) v (Z.of_nat d) total m = Ret r m ∧
    size_post (shape && (d + h <=? 65)%nat) n total r.
Proof.
  intros Hd Hh Hn Ht Hk. cbn [encode_size]. unfold GEAS_WIRE_MAX_DEPTH.
  destruct (Z.ltb_spec 64 (Z.of_nat d)).
  - apply size_ret_type. rewrite (proj2 (Nat.leb_gt _ _)) by lia. apply andb_false_r.
  - apply size_step; [lia|done|]. apply Hk. lia.
Qed.

Lemma encode_size_scalar fuel d k tg w :
  val_wf (VScalar k tg w) → (1 ≤ d ≤ 65)%nat →
  sizes (λ v n, encode_size (S fuel) v (Z.of_nat d) n) d (VScalar k tg w).
Proof.
  intros Hwf Hd v total (Hty & Hk & Htg & Hw) Ht.
  eapply encode_size_header; [done|simpl; lia|pose proof (enc_len_pos (VScalar k tg w)); unfold zlen; lia|lia|].
  intros Hd' Ht'. unfold size_switch. rewrite Hty, tag_of_num, Htg, (proj2 (Nat.leb_le _ _)), andb_true_r by (simpl; lia).
  unfold zlen; simpl enc; rewrite length_app, header_len, Nat2Z.inj_add.
  destruct k; try done; simpl; simpl in Hw; destruct (Z.eqb_spec tg 0); simpl;
    rewrite ?Hw, ?put_u64_len, ?put_u32_len;
    try (by apply size_ret_type); try (by apply size_ret_add); try (by apply size_ret_ok).
  - destruct (Z.ltb_spec 1 w); [apply size_ret_type|apply size_ret_add; [|done]]; simpl.
    + apply Z.leb_gt. lia.
    + by apply Z.leb_le.
  - destruct (char_ok w); simpl; [by apply size_ret_add|by apply size_ret_type].
Qed.

Lemma encode_size_string fuel d tg bs :
  val_wf (VString tg bs) → (1 ≤ d ≤ 65)%nat →
  sizes (λ v n, encode_size (S fuel) v (Z.of_nat d) n) d (VString tg bs).
Proof.
  intros Hwf Hd v total (Hty & Htg & Hlen & Hf & Hp) Ht.
  eapply encode_size_header; [done|simpl; lia|pose proof (enc_len_pos (VString tg bs)); unfold zlen; lia|lia|].
  intros Hd' Ht'. unfold size_switch. rewrite Hty, tag_of_num, Htg, (proj2 (Nat.leb_le _ _)), andb_true_r by (simpl; lia).
  unfold zlen; simpl enc; rewrite !length_app, header_len, put_u64_len, !Nat2Z.inj_add.
  simpl wire_shape. destruct (Z.eqb_spec tg 0); simpl negb; cbv iota; [|by apply size_ret_type].
  replace (negb (s_len v =? 0) && (s_ptr v =? 0)) with false.
  2: { rewrite Hlen. destruct Hp as [->|[Hp _]]; [done|].
       by rewrite (proj2 (Z.eqb_neq (s_ptr v) 0)), andb_false_r. }
  apply size_step; [lia..|]. intros Ht''. rewrite Hlen. apply size_ret_add; [done|lia].
Qed.

Lemma encode_size_seq fuel d k tg e els :
  (∀ t, t ∈ els → (d ≤ 64)%nat → sizes (λ v n, encode_size fuel v (Z.of_nat (S d)) n) (S d) t) →
  (1 ≤ d ≤ 65)%nat →
  sizes (λ v n, encode_size (S fuel) v (Z.of_nat d) n) d (VSeq k tg e els).
Proof.
  intros Hrec Hd v total Hr Ht. apply repr_seq in Hr as (Hty & Hk & Htg & He & Hlen & Hf & Hdata).
  pose proof (enc_len_pos (VSeq k tg e els)) as Hpos. rewrite height_seq.
  eapply encode_size_header; [done|lia|unfold zlen; lia|lia|].
  intros Hd' Ht'. unfold size_switch. revert Hrec. generalize (encode_size fuel). intros es Hrec.
  rewrite Hty, tag_of_num, Htg, He, wire_shape_seq, enc_seq.
  replace (negb (l_len v =? 0) && (l_data v =? 0)) with false.
  2: { rewrite Hlen. destruct Hdata as [->|[Hp _]]; [done|].
       by rewrite (proj2 (Z.eqb_neq (l_data v) 0)), andb_false_r. }
  assert (Hel : ∀ chk n total, n = zlen (encs els) →
    (∀ pre t s, ty s = tag_num (val_ty t) → chk (length pre) s = slot_ok false k e pre t) →
    0 <= total <= U64_MAX →
    ∃ r, size_elems (λ e t, es e (Z.of_nat d + 1) t) chk (l_data v)
           (Z.to_nat (l_len v)) 0 total m = Ret r m ∧
      size_post (slots_ok false k e [] els && wire_shapes false els &&
        (d + S (heights els) <=? 65)%nat) n total r).
  { intros chk n total0 -> Hchk Ht0. replace (Z.of_nat d + 1) with (Z.of_nat (S d)) by lia.
    rewrite Hlen, Nat2Z.id.
    assert (Hslots : els = [] ∨ ∃ slots, heap m !! l_data v = Some (BVals slots) ∧ reprs (heap m) slots els).
    { destruct Hdata as [?|(_ & ss & ? & ?)]; [by left|right; eauto]. }
    pose proof (heights_le d els) as Hh.
    rewrite (orb_comm (_ <=? _)%nat) in Hh.
    assert (Hh' : forallb (λ t, (S d + height t <=? 65)%nat) els = (d + S (heights els) <=? 65)%nat).
    { rewrite Hh. destruct els; [|done]. simpl. symmetry. apply Nat.leb_le. lia. }
    rewrite <- Hh'.
    destruct Hslots as [Hnil|(slots & Hs & Hrs)].
    - exact (size_elems_run _ (S d) chk _ k e [] els Hchk (or_introl Hnil)
               (λ t Hin, Hrec t Hin Hd') els [] total0 eq_refl Ht0).
    - exact (size_elems_run _ (S d) chk _ k e slots els Hchk (or_intror (conj Hs Hrs))
               (λ t Hin, Hrec t Hin Hd') els [] total0 eq_refl Ht0). }
  unfold zlen in *. rewrite !length_app, header_len, put_u64_len, !Nat2Z.inj_add in *.
  destruct k; try done; unfold is_ty; simpl; rewrite ?Hty;
    destruct (Z.eqb_spec tg 0); simpl; try (by apply size_ret_type).
  - destruct (tag_crosses e); simpl; [|by apply size_ret_type].
    rewrite put_u32_len. apply size_step; [lia..|]. intros Ht2.
    apply Hel; [lia| |done]. intros pre t s ->. done.
  - destruct (tag_keyable e); simpl; [|by apply size_ret_type].
    rewrite Hlen. destruct (Z.of_nat (length els) mod 2 =? 0); simpl; [|by apply size_ret_type].
    rewrite <- Hlen, put_u32_len. apply size_step; [lia..|]. intros Ht2.
    apply Hel; [lia| |done]. intros pre t s ->. unfold slot_ok.
    destruct (Nat.even _); simpl; [|done]. by rewrite negb_involutive, andb_true_r.
  - apply size_step; [lia..|]. intros Ht2. apply Hel; [lia|done|done].
  - apply size_step; [lia..|]. intros Ht2. apply Hel; [lia|done|done].
  - apply size_step; [lia..|]. intros Ht2. apply Hel; [lia|done|done].
  - apply size_step; [lia..|]. intros Ht2. apply Hel; [lia|done|done].
Qed.

Lemma encode_size_box fuel d k tg b :
  (∀ t, b = Some t → (d ≤ 64)%nat → sizes (λ v n, encode_size fuel v (Z.of_nat (S d)) n) (S d) t) →
  (1 ≤ d ≤ 65)%nat → is_u32 tg →
  sizes (λ v n, encode_size (S fuel) v (Z.of_nat d) n) d (VBox k tg b).
Proof.
  intros Hrec Hd Hu v total (Hty & Hk & Htg & Hb) Ht.
  pose proof (enc_len_pos (VBox k tg b)) as Hpos.
  eapply encode_size_header; [done|destruct b; simpl; lia|unfold zlen; lia|lia|].
  intros Hd' Ht'. unfold size_switch. revert Hrec. generalize (encode_size fuel). intros es Hrec.
  rewrite Hty, tag_of_num, Htg.
  unfold zlen. simpl enc. rewrite length_app, header_len, Nat2Z.inj_add.
  assert (Hin : ∀ t, b = Some t → ∃ r,
    (e <- load_slot (as_box v) 0; es e (Z.of_nat d + 1) (total + 8)) m = Ret r m ∧
    size_post (wire_shape false t && (d + S (height t) <=? 65)%nat)
      (Z.of_nat 8 + Z.of_nat (length (enc t)) - 8) (total + 8) r).
  { intros t ->. destruct Hb as (_ & s & ss & Hs & Hr).
    rewrite (bind_Ret _ _ _ _ _ (load_slot_eq _ 0 _ _ s Hs eq_refl)).
    destruct (Hrec t eq_refl Hd' s (total + 8) Hr Ht') as (r & Hrun & Hp).
    exists r. replace (Z.of_nat d + 1) with (Z.of_nat (S d)) by lia. split; [done|].
    unfold zlen in Hp. replace (Z.of_nat 8 + Z.of_nat (length (enc t)) - 8)
      with (Z.of_nat (length (enc t))) by lia.
    replace (d + S (height t))%nat with (S d + height t)%nat by lia. done. }
  unfold is_u32 in Hu. destruct k; try done; simpl.
  - destruct (Z.ltb_spec 1 tg).
    { apply size_ret_type. rewrite (proj2 (Z.eqb_neq tg 0)), (proj2 (Z.eqb_neq tg 1)) by lia. done. }
    destruct (Z.eqb_spec tg 0) as [->|Hn0]; simpl.
    + destruct b as [t|]; simpl in *.
      * destruct Hb as [Hb _]. rewrite (proj2 (Z.eqb_neq _ _)) by done. by apply size_ret_type.
      * rewrite Hb. simpl. apply size_ret_ok; [apply Nat.leb_le; lia|lia|done].
    + rewrite (proj2 (Z.eqb_eq tg 1)) by lia. destruct b as [t|]; simpl in *.
      * destruct Hb as [Hb _]. rewrite (proj2 (Z.eqb_neq _ _)) by done. by apply Hin.
      * rewrite Hb. by apply size_ret_type.
  - destruct (Z.ltb_spec 1 tg); simpl.
    { apply size_ret_type. rewrite (proj2 (Z.leb_gt tg 1)) by lia. done. }
    rewrite (proj2 (Z.leb_le tg 1)) by lia. destruct b as [t|]; simpl in *.
    + destruct Hb as [Hb _]. rewrite (proj2 (Z.eqb_neq _ _)) by done. by apply Hin.
    + rewrite Hb. by apply size_ret_type.
Qed.

(** Fuel for the depth left and one call past it is enough to size a value. *)
Lemma encode_size_run t : ∀ fuel d, val_wf t → (66 ≤ fuel + d)%nat → (1 ≤ d ≤ 65)%nat →
  sizes (λ v n, encode_size fuel v (Z.of_nat d) n) d t.
Proof.
  induction t as [k tg w|tg bs|k tg e els IH|k tg|k tg t IH] using val_ind';
    intros [|fuel] d Hwf Hfuel Hd; try lia.
  - by apply encode_size_scalar.
  - by apply encode_size_string.
  - apply encode_size_seq; [|done]. intros t Hin Hd'. rewrite Forall_forall in IH.
    apply val_wf_seq in Hwf as (_ & _ & _ & Hwf). rewrite Forall_forall in Hwf.
    apply IH; auto; lia.
  - apply encode_size_box; [done|done|]. apply Hwf.
  - apply encode_size_box; [|done|apply Hwf]. intros t' [= <-] Hd'. apply IH; [apply Hwf|lia..].
Qed.
End Sizing.

(** ** The write pass *)

Section Writing.
Context (m : mem) (cap : Z).

Lemma put_run out bs :
  zlen out + zlen bs <= cap → put cap out bs m = Ret (out ++ bs) m.
Proof.
  unfold put, zlen. intros H. rewrite Nat2Z.inj_add. by rewrite (proj2 (Z.leb_le _ _)).
Qed.

Definition writes (rec : GeasValue → list Z → M (list Z)) (t : val) : Prop :=
  ∀ v out, repr (heap m) v t → zlen out + zlen (enc t) <= cap →
  rec v out m = Ret (out ++ enc t) m.

Lemma zlen_app a b : zlen (a ++ b) = zlen a + zlen b.
Proof. unfold zlen. by rewrite length_app, Nat2Z.inj_add. Qed.

Lemma write_elems_run rec data slots all :
  (all = [] ∨ heap m !! data = Some (BVals slots) ∧ reprs (heap m) slots all) →
  (∀ t, t ∈ all → writes rec t) →
  ∀ els pre out, all = pre ++ els → zlen out + zlen (encs els) <= cap →
  write_elems rec data (length els) (length pre) out m = Ret (out ++ encs els) m.
Proof.
  intros Hd Hrec. induction els as [|t els IH]; intros pre out Hall Hcap; simpl.
  { by rewrite app_nil_r. }
  destruct Hd as [->|[Hblk Hr]]; [by destruct pre|].
  destruct (Hr (length pre) t) as (s & Hs & Hsr).
  { rewrite Hall, lookup_app_r by lia. by rewrite Nat.sub_diag. }
  simpl in Hcap. rewrite zlen_app in Hcap. pose proof (Nat2Z.is_nonneg (length (encs els))) as Hnn.
  rewrite (bind_Ret _ _ _ _ _ (load_slot_eq _ _ _ _ _ Hblk Hs)).
  erewrite bind_Ret; [|apply (Hrec t); [rewrite Hall; apply elem_of_app; right; left|done|unfold zlen in *; lia]].
  specialize (IH (pre ++ [t]) (out ++ enc t)). rewrite length_app, Nat.add_1_r in IH.
  rewrite IH; [by rewrite <- app_assoc|by rewrite <- app_assoc|rewrite zlen_app; lia].
Qed.

Lemma encode_write_header fuel k tg v t body :
  ty v = tag_num k → tag v = tg → enc t = header k tg ++ body →
  ∀ out, zlen out + zlen (enc t) <= cap →
  (∀ out', zlen out' + zlen body <= cap →
     write_switch (encode_write fuel cap) cap v out' m = Ret (out' ++ body) m) →
  encode_write (S fuel) cap v out m = Ret (out ++ enc t) m.
Proof.
  intros Hty Htg He out Hcap Hk. cbn [encode_write]. rewrite He, zlen_app in Hcap.
  rewrite Hty, Htg, <- header_eq. pose proof (Nat2Z.is_nonneg (length body)) as Hnn.
  erewrite bind_Ret by (apply put_run; unfold zlen in *; lia).
  rewrite Hk, He; [by rewrite app_assoc|]. rewrite zlen_app. lia.
Qed.

Lemma encode_write_seq fuel k tg e els :
  (∀ t, t ∈ els → writes (encode_write fuel cap) t) → writes (encode_write (S fuel) cap) (VSeq k tg e els).
Proof.
  intros Hrec v out Hr Hcap. apply repr_seq in Hr as (Hty & Hk & Htg & He & Hlen & Hf & Hdata).
  eapply (encode_write_header _ k tg); [done|done|apply enc_seq|done|].
  intros out' Hc. unfold write_switch. revert Hrec. generalize (encode_write fuel cap). intros ew Hrec.
  rewrite Hty, tag_of_num, He, Hlen, Nat2Z.id.
  assert (Hel : ∀ o, zlen o + zlen (encs els) <= cap →
    write_elems ew (l_data v) (length els) 0 o m = Ret (o ++ encs els) m).
  { intros o Ho. destruct Hdata as [Hnil|(_ & ss & Hs & Hrs)].
    - exact (write_elems_run ew (l_data v) [] els (or_introl Hnil) Hrec els [] o eq_refl Ho).
    - exact (write_elems_run ew (l_data v) ss els (or_intror (conj Hs Hrs)) Hrec els [] o eq_refl Ho). }
  rewrite !zlen_app in Hc. pose proof (Nat2Z.is_nonneg (length (encs els))) as Hnn. unfold zlen in *.
  destruct k; try done; simpl in *; rewrite ?app_nil_r;
    (erewrite bind_Ret by (apply put_run; rewrite ?zlen_app; unfold zlen; lia));
    rewrite Hel by (rewrite ?length_app; lia); by rewrite <- app_assoc.
Qed.

Lemma encode_write_run t : ∀ fuel, val_wf t → wire_shape false t = true →
  (height t ≤ fuel)%nat → writes (encode_write fuel cap) t.
Proof.
  induction t as [k tg w|tg bs|k tg e els IH|k tg|k tg t IH] using val_ind';
    intros [|fuel] Hwf Hs Hf; rewrite ?height_seq in Hf; try (simpl in Hf; lia).
  - intros v out (Hty & Hk & Htg & Hw) Hc. apply andb_true_iff in Hs as [_ Hs].
    eapply (encode_write_header _ k tg); [done|done|reflexivity|done|].
    intros out' Hc'. unfold write_switch. rewrite Hty, tag_of_num. destruct Hwf as [_ Hwf].
    destruct k; try done; simpl in *; rewrite ?app_nil_r; subst w; try done; try by apply put_run.
    unfold as_i. rewrite u64_i64 by done. by apply put_run.
  - intros v out (Hty & Htg & Hlen & Hfit & Hp) Hc.
    eapply (encode_write_header _ GEAS_TY_STRING tg); [done|done|reflexivity|done|].
    intros out' Hc'. unfold write_switch. rewrite Hty, tag_of_num, Hlen.
    rewrite zlen_app in Hc'. pose proof (Nat2Z.is_nonneg (length bs)) as Hnn. unfold zlen in *.
    erewrite bind_Ret by (apply put_run; unfold zlen; lia).
    destruct (Z.eqb_spec (Z.of_nat (length bs)) 0).
    { destruct bs; [|done]. by rewrite app_nil_r. }
    destruct Hp as [->|(_ & raw & Hraw & Htk)]; [done|]. rewrite Nat2Z.id.
    erewrite bind_Ret; [|apply load_bytes_eq; [exact Hraw|by apply take_prefix_length]].
    rewrite Htk. rewrite put_run by (unfold zlen; rewrite length_app; lia). by rewrite <- app_assoc.
  - rewrite wire_shape_seq, andb3 in Hs. destruct Hs as (_ & _ & Hs).
    apply val_wf_seq in Hwf as (_ & _ & _ & Hwf). rewrite Forall_forall in IH, Hwf.
    apply encode_write_seq. intros t Hin. apply IH; auto.
    + clear -Hin Hs. induction els as [|x els IHl]; [by apply not_elem_of_nil in Hin|].
      simpl in Hs. apply andb_true_iff in Hs as [? ?]. apply elem_of_cons in Hin as [->|?]; auto.
    + apply list_elem_of_lookup in Hin as [i Hi]. apply heights_lookup in Hi. lia.
  - intros v out (Hty & Hk & Htg & Hb) Hc.
    eapply (encode_write_header _ k tg); [done|done|reflexivity|done|].
    intros out' Hc'. unfold write_switch. rewrite Hty, tag_of_num, Htg, app_nil_r.
    simpl in Hs. destruct k; try done; simpl in Hs.
    + rewrite !andb_false_r, orb_false_r, !andb_true_r in Hs. apply Z.eqb_eq in Hs as ->. done.
    + by rewrite andb_false_r in Hs.
  - intros v out (Hty & Hk & Htg & Hb0 & s & ss & Hss & Hsr) Hc.
    eapply (encode_write_header _ k tg); [done|done|reflexivity|done|].
    intros out' Hc'. unfold write_switch. rewrite Hty, tag_of_num, Htg.
    simpl in Hs. apply andb_true_iff in Hs as [Hbs Hs].
    assert (Hrun : (e <- load_slot (as_box v) 0; encode_write fuel cap e out') m =
      Ret (out' ++ enc t) m).
    { rewrite (bind_Ret _ _ _ _ _ (load_slot_eq _ 0 _ _ s Hss eq_refl)).
      apply IH; auto; [apply Hwf|simpl in Hf; lia]. }
    destruct k; try done; simpl in Hbs.
    rewrite !andb_false_r, andb_true_r in Hbs. simpl in Hbs. by rewrite Hbs.
Qed.

End Writing.

(** What the decoder accepts, the encoder accepts. *)
Lemma slots_ok_weaken k e els : ∀ pre,
  slots_ok true k e pre els = true → slots_ok false k e pre els = true.
Proof.
  induction els as [|t els IH]; intros pre; simpl; [done|].
  rewrite !andb_true_iff. intros [H1 H2]. split; [|auto]. clear -H1.
  destruct k; try done; simpl in *. apply orb_true_iff in H1 as [->|H1]; [done|].
  apply andb_true_iff in H1 as [-> _]. by rewrite orb_true_r.
Qed.

Lemma strict_shape t : wire_shape true t = true → wire_shape false t = true.
Proof.
  induction t as [k tg w|tg bs|k tg e els IH|k tg|k tg t IH] using val_ind'; try done.
  - rewrite !wire_shape_seq, !andb3. intros (Hs & Hsl & Hw). split_and!.
    + clear -Hs. destruct k; try done; simpl in *; rewrite ?andb_true_iff in *; intuition.
    + by apply slots_ok_weaken.
    + clear Hs Hsl. induction IH as [|x els Hx _ IHl]; simpl in *; [done|].
      apply andb_true_iff in Hw as [? ?]. rewrite Hx, IHl; done.
  - simpl. rewrite !andb_true_iff. intros [? ?]. auto.
Qed.

Lemma header_bytes k tg : bytes_ok (header k tg).
Proof. rewrite header_eq. apply Forall_app. split; apply put_u32_bytes. Qed.

Lemma enc_bytes t : val_wf t → bytes_ok (enc t).
Proof.
  induction t as [k tg w|tg bs|k tg e els IH|k tg|k tg t IH] using val_ind'; intros Hwf.
  - apply Forall_app. split; [apply header_bytes|]. destruct Hwf as [_ Hw].
    destruct k; simpl in *; try apply put_u64_bytes; try apply put_u32_bytes;
      try (apply List.Forall_nil); by apply Forall_singleton.
  - destruct Hwf as (_ & Hb & _). apply Forall_app. split; [apply header_bytes|].
    apply Forall_app. split; [apply put_u64_bytes|done].
  - apply val_wf_seq in Hwf as (_ & _ & _ & Hwf). rewrite enc_seq.
    apply Forall_app. split; [apply header_bytes|]. apply Forall_app. split.
    { apply Forall_app. split; [apply put_u64_bytes|].
      destruct k; simpl; try apply put_u32_bytes; apply List.Forall_nil. }
    induction IH as [|x els Hx _ IHl]; simpl; [apply List.Forall_nil|].
    apply Forall_cons in Hwf as [? ?]. apply Forall_app. split; [by apply Hx|auto].
  - simpl. rewrite app_nil_r. apply header_bytes.
  - destruct Hwf as [_ Hwf]. apply Forall_app. split; [apply header_bytes|by apply IH].
Qed.

(** ** The reference parser inverts the encoding *)

Lemma take_bytes_app n a b : length a = n → take_bytes n (a ++ b) = Some (a, b).
Proof.
  intros <-. unfold take_bytes. rewrite length_app, (proj2 (Nat.ltb_ge _ _)) by lia.
  by rewrite take_app_length, drop_app_length.
Qed.

Lemma take_bytes_Some n c h r :
  take_bytes n c = Some (h, r) → c = h ++ r ∧ length h = n.
Proof.
  unfold take_bytes. destruct (Nat.ltb_spec (length c) n); [done|]. intros [= <- <-].
  split; [by rewrite take_drop|rewrite length_take; lia].
Qed.

Lemma encs_len_ge els : (8 * length els ≤ length (encs els))%nat.
Proof.
  induction els as [|t els IH]; simpl; [lia|]. rewrite length_app.
  pose proof (enc_len_pos t). lia.
Qed.

Lemma get_header k tg : is_u32 tg →
  get_u32 (header k tg) = tag_num k ∧ get_u32 (drop 4 (header k tg)) = tg.
Proof.
  intros H. rewrite header_eq.
  assert (is_u32 (tag_num k)) by (pose proof (tag_num_range k); unfold is_u32; lia).
  rewrite get_put_u32 by done. split; [done|].
  rewrite drop_app_length' by done. rewrite <- (app_nil_r (put_u32 tg)). by apply get_put_u32.
Qed.

Lemma dec_elems_enc rec k e rest els : ∀ pre,
  (∀ t r, t ∈ els → rec (enc t ++ r) = Some (t, r)) → slots_ok true k e pre els = true →
  dec_elems rec (slot_ok true k e) (length els) pre (encs els ++ rest) = Some (pre ++ els, rest).
Proof.
  induction els as [|t els IH]; intros pre Hrec Hs; simpl; [by rewrite app_nil_r|].
  simpl in Hs. apply andb_true_iff in Hs as [Ht Hs]. rewrite <- app_assoc, Hrec by left.
  rewrite Ht, IH; [by rewrite <- app_assoc| |done]. intros t' r Hin. apply Hrec. by right.
Qed.

Lemma dec_scalar_enc k w rest : scalar_fits k w → scalar_shape k w = true →
  dec_scalar k (scalar_bytes k w ++ rest) = Some (w, rest).
Proof.
  intros Hf Hs. destruct k; try done; simpl in *; try (by rewrite Hf);
    try (rewrite take_bytes_app by done; rewrite <- (app_nil_r (put_u64 w)), get_put_u64 by done; done).
  rewrite take_bytes_app by done. rewrite <- (app_nil_r (put_u32 w)), get_put_u32 by done. done.
Qed.

Lemma dec_enc t : ∀ n rest, val_wf t → wire_shape true t = true → (height t ≤ n)%nat →
  dec n (enc t ++ rest) = Some (t, rest).
Proof.
  induction t as [k tg w|tg bs|k tg e els IH|k tg|k tg t IH] using val_ind';
    intros [|n] rest Hwf Hs Hn; rewrite ?height_seq in Hn; try (simpl in Hn; lia).
  - simpl enc. cbn [dec]; unfold dec_switch. rewrite <- app_assoc, take_bytes_app by apply header_len.
    destruct Hwf as [Htg Hw]. destruct (get_header k tg Htg) as [-> ->]. rewrite tag_of_num.
    apply andb_true_iff in Hs as [Ht Hs]. rewrite Ht. cbn [negb].
    rewrite dec_scalar_enc by done. rewrite Hs. by destruct k.
  - simpl enc. cbn [dec]; unfold dec_switch. rewrite <- app_assoc, take_bytes_app by apply header_len.
    destruct Hwf as (Htg & _ & Hl). destruct (get_header GEAS_TY_STRING tg Htg) as [-> ->]. simpl in Hs |- *.
    rewrite Hs, <- app_assoc, take_bytes_app by done. simpl.
    rewrite <- (app_nil_r (put_u64 _)), get_put_u64 by done.
    rewrite length_app, (proj2 (Z.ltb_ge _ _)) by lia.
    by rewrite Nat2Z.id, take_app_length, drop_app_length.
  - rewrite enc_seq. cbn [dec]; unfold dec_switch. rewrite <- app_assoc, take_bytes_app by apply header_len.
    apply val_wf_seq in Hwf as (Htg & He & Hl & Hwf). destruct (get_header k tg Htg) as [-> ->].
    rewrite tag_of_num. rewrite wire_shape_seq, andb3 in Hs. destruct Hs as (Hsh & Hsl & Hs).
    assert (Hcount : dec_count k (((put_u64 (Z.of_nat (length els)) ++ elem_bytes k e) ++ encs els) ++ rest)
              = Some (Z.of_nat (length els), e, encs els ++ rest)).
    { rewrite <- app_assoc. destruct k; try done; simpl; rewrite take_bytes_app by (rewrite ?length_app; done);
        rewrite get_put_u64 by done.
      1,2: rewrite drop_app_length' by done; by rewrite <- (app_nil_r (put_u32 e)), get_put_u32.
      all: simpl in Hsh; rewrite ?andb_true_iff, ?Z.eqb_eq in Hsh; repeat f_equal; naive_solver. }
    assert (Hplaus : count_plausible (encs els ++ rest) (Z.of_nat (length els)) = true).
    { unfold count_plausible. rewrite length_app. pose proof (encs_len_ge els).
      apply Z.leb_le. apply Z.div_le_lower_bound; lia. }
    assert (Hels : dec_elems (dec n) (slot_ok true k e) (Z.to_nat (Z.of_nat (length els))) []
              (encs els ++ rest) = Some (els, rest)).
    { rewrite Nat2Z.id. apply (dec_elems_enc _ k e rest els []); [|done].
      intros t r Hin. rewrite Forall_forall in IH, Hwf. apply IH; auto.
      - clear -Hin Hs. induction els as [|x els IHl]; [by apply not_elem_of_nil in Hin|].
        simpl in Hs. apply andb_true_iff in Hs as [? ?]. apply elem_of_cons in Hin as [->|?]; auto.
      - apply list_elem_of_lookup in Hin as [i Hi]. apply heights_lookup in Hi. lia. }
    destruct k; try done; cbn [scalar_tag]; rewrite Hcount, Hsh, Hplaus; cbn [negb]; by rewrite Hels.
  - simpl enc. cbn [dec]; unfold dec_switch. rewrite <- app_assoc, take_bytes_app by apply header_len.
    destruct Hwf as [Htg _]. destruct (get_header k tg Htg) as [-> ->]. rewrite tag_of_num.
    simpl in Hs. rewrite andb_true_r in Hs.
    destruct k; simpl in Hs; rewrite ?andb_false_r in Hs; try done.
    rewrite orb_false_r, andb_true_r in Hs. by rewrite Hs.
  - simpl enc. cbn [dec]; unfold dec_switch. rewrite <- app_assoc, take_bytes_app by apply header_len.
    destruct Hwf as [Htg Hwf]. destruct (get_header k tg Htg) as [-> ->]. rewrite tag_of_num.
    simpl in Hs. apply andb_true_iff in Hs as [Hb Hs].
    assert (Hrec : dec n (enc t ++ rest) = Some (t, rest)) by (apply IH; auto; simpl in Hn; lia).
    destruct k; simpl in Hb; rewrite ?andb_false_r, ?andb_true_r in Hb; try done; simpl in Hb.
    + apply Z.eqb_eq in Hb as ->. simpl. by rewrite Hrec.
    + apply Z.leb_le in Hb. cbn [scalar_tag]. rewrite bool_decide_eq_false_2 by done. simpl.
      rewrite (proj2 (Z.ltb_ge _ _)) by done. by rewrite Hrec.
Qed.

(** ** What the parser accepts is canonical *)

Definition parsed (n : nat) (bs : list Z) (t : val) (rest : list Z) : Prop :=
  bs = enc t ++ rest ∧ wire_shape true t = true ∧ val_wf t ∧ (height t ≤ n)%nat.

Lemma bytes_app a b : bytes_ok (a ++ b) ↔ bytes_ok a ∧ bytes_ok b.
Proof. apply Forall_app. Qed.

Lemma put_get_32 bs : bytes_ok bs → length bs = 4%nat → put_u32 (get_u32 bs) = bs.
Proof.
  intros Hb Hl. destruct bs as [|a [|b [|c [|d [|]]]]]; simpl in Hl; try lia.
  unfold bytes_ok in Hb. rewrite !Forall_cons in Hb. destruct Hb as (? & ? & ? & ? & _).
  by apply put_get_u32.
Qed.

Lemma get_u32_take bs n : (4 ≤ n)%nat → (4 ≤ length bs)%nat → get_u32 (take n bs) = get_u32 bs.
Proof.
  intros Hn Hl. destruct bs as [|a [|b [|c [|d bs]]]]; simpl in Hl; try lia.
  destruct n as [|[|[|[|n]]]]; try lia. done.
Qed.

Lemma header_get h : bytes_ok h → length h = 8%nat → ∀ k, tag_of (get_u32 h) = Some k →
  h = header k (get_u32 (drop 4 h)) ∧ is_u32 (get_u32 (drop 4 h)).
Proof.
  intros Hb Hl k Hk. apply tag_of_Some in Hk. rewrite header_eq, <- Hk.
  rewrite <- (take_drop 4 h) in Hb. apply bytes_app in Hb as [H1 H2]. split.
  - rewrite <- (get_u32_take h 4) by lia.
    rewrite !put_get_32 by (try done; rewrite ?length_take, ?length_drop; lia).
    by rewrite take_drop.
  - apply get_u32_range; [done|rewrite length_drop; lia].
Qed.

Lemma dec_scalar_canon k c w r : bytes_ok c → dec_scalar k c = Some (w, r) →
  scalar_shape k w = true → c = scalar_bytes k w ++ r ∧ scalar_fits k w ∧ bytes_ok r.
Proof.
  intros Hb Hd Hs. destruct k; try done; simpl in *;
    try (destruct (take_bytes _ c) as [[h r']|] eqn:E; [|done];
         apply take_bytes_Some in E as [-> Hl]; apply bytes_app in Hb as [Hh Hr];
         injection Hd as <- <-).
  1: by injection Hd as <- <-.
  1-3: rewrite put_get_u64 by done; split_and!; try done; apply get_u64_range; [done|lia].
  1-2: destruct h as [|x [|]]; simpl in Hl; try lia; apply Forall_cons in Hh as [? _]; done.
  rewrite put_get_32 by done. split_and!; try done. apply get_u32_range; [done|lia].
Qed.

Lemma get_u64_take bs : (8 ≤ length bs)%nat → get_u64 (take 8 bs) = get_u64 bs.
Proof.
  intros Hl. unfold get_u64. rewrite get_u32_take by lia. do 2 f_equal.
  replace (drop 4 (take 8 bs)) with (take 4 (drop 4 bs)) by (by rewrite take_drop_commute). apply get_u32_take; [lia|rewrite length_drop; lia].
Qed.

Lemma dec_count_canon k tg c cnt e r : bytes_ok c → dec_count k c = Some (cnt, e, r) →
  seq_shape true k tg e cnt = true →
  c = (put_u64 cnt ++ elem_bytes k e) ++ r ∧ is_u64 cnt ∧ is_u32 e ∧ bytes_ok r.
Proof.
  intros Hb Hd Hs.
  assert (H12 : ∀ h, bytes_ok h → length h = 12%nat →
    h = put_u64 (get_u64 h) ++ put_u32 (get_u32 (drop 8 h)) ∧
    is_u64 (get_u64 h) ∧ is_u32 (get_u32 (drop 8 h))).
  { intros h Hh Hl. split_and!; [|apply get_u64_range; [done|lia]|].
    - pose proof Hh as Hh'. rewrite <- (take_drop 8 h) in Hh'. apply bytes_app in Hh' as [H1 H2].
      rewrite <- (get_u64_take h) by lia.
      rewrite put_get_u64 by (try done; rewrite length_take; lia).
      rewrite put_get_32 by (try done; rewrite length_drop; lia). by rewrite take_drop.
    - apply get_u32_range; [by apply Forall_drop|rewrite length_drop; lia]. }
  unfold dec_count in Hd. destruct k; try done; simpl in *;
    (destruct (take_bytes _ c) as [[h r']|] eqn:E; [|done];
     apply take_bytes_Some in E as [-> Hl]; apply bytes_app in Hb as [Hh Hr];
     injection Hd as <- <- <-).
  1-2: destruct (H12 h Hh Hl) as (<- & ? & ?); done.
  all: rewrite app_nil_r, put_get_u64 by done; split_and!; try done; apply get_u64_range; [done|lia].
Qed.

Lemma dec_elems_canon rec n k e els : ∀ cnt pre c r, bytes_ok c →
  (∀ c t r, bytes_ok c → rec c = Some (t, r) → parsed n c t r) →
  dec_elems rec (slot_ok true k e) cnt pre c = Some (els, r) →
  ∃ new, els = pre ++ new ∧ length new = cnt ∧ c = encs new ++ r ∧
    slots_ok true k e pre new = true ∧ wire_shapes true new = true ∧ Forall val_wf new ∧
    (heights new ≤ n)%nat.
Proof.
  induction cnt as [|cnt IH]; intros pre c r Hb Hrec Hd; simpl in Hd.
  { injection Hd as <- <-. exists []. rewrite app_nil_r. split_and!; try done. simpl. lia. }
  destruct (rec c) as [[t c']|] eqn:E; [|done]. destruct (slot_ok true k e pre t) eqn:Hs; [|done].
  destruct (Hrec _ _ _ Hb E) as (-> & Hsh & Hwf & Hh). apply bytes_app in Hb as [_ Hb].
  destruct (IH _ _ _ Hb Hrec Hd) as (new & -> & Hl & -> & Hso & Hws & Hwfs & Hhs).
  exists (t :: new). simpl. rewrite <- !app_assoc, Hs, Hso, Hsh, Hws, Hl.
  split_and!; try done; [by constructor|]. unfold heights in *. simpl. lia.
Qed.

Lemma dec_seq_canon n k tg c cnt e r els rest : seq_tag k = true → is_u32 tg → bytes_ok c →
  (∀ c t r, bytes_ok c → dec n c = Some (t, r) → parsed n c t r) →
  dec_count k c = Some (cnt, e, r) → seq_shape true k tg e cnt = true →
  dec_elems (dec n) (slot_ok true k e) (Z.to_nat cnt) [] r = Some (els, rest) →
  parsed (S n) (header k tg ++ c) (VSeq k tg e els) rest.
Proof.
  intros Hk Htg Hb Hrec Hc Hsh Hd.
  destruct (dec_count_canon _ _ _ _ _ _ Hb Hc Hsh) as (-> & Hcnt & He & Hbr).
  destruct (dec_elems_canon _ n _ _ _ _ _ _ _ Hbr Hrec Hd) as (new & -> & Hl & -> & Hso & Hws & Hwf & Hh).
  change ([] ++ new) with new. unfold parsed. rewrite enc_seq, wire_shape_seq, val_wf_seq, height_seq.
  assert (El : Z.of_nat (length new) = cnt) by (unfold is_u64 in Hcnt; lia).
  rewrite El, Hso, Hws, Hsh. split_and!; try done; [|lia]. by rewrite <- !app_assoc.
Qed.

(** Past the header, kind by kind, the nested values being canonical. *)
Section SwitchCanon.
Context (n : nat) (Hrec : ∀ c t r, bytes_ok c → dec n c = Some (t, r) → parsed n c t r).
Context (tg : Z) (c : list Z) (Htg : is_u32 tg) (Hc : bytes_ok c) (t : val) (rest : list Z).

Lemma dec_scalar_switch k : scalar_tag k = true → dec_switch (dec n) k tg c = Some (t, rest) → parsed (S n) (header k tg ++ c) t rest.
Proof.
  intros Hsc Hd. unfold dec_switch in Hd. rewrite Hsc in Hd. destruct (Z.eqb_spec tg 0) as [->|]; [|done]. simpl in Hd.
  destruct (dec_scalar k c) as [[w r]|] eqn:Ed; [|done].
  destruct (scalar_shape k w) eqn:Hs; [|done]. injection Hd as <- <-.
  destruct (dec_scalar_canon _ _ _ _ Hc Ed Hs) as (-> & Hf & _).
  unfold parsed. simpl. rewrite Hs, app_assoc. split_and!; try done; lia.
Qed.

Lemma dec_seq_switch k : seq_tag k = true → dec_switch (dec n) k tg c = Some (t, rest) → parsed (S n) (header k tg ++ c) t rest.
Proof.
  intros Hk Hd. assert (H : match dec_count k c with
    | Some (cnt, e, c) =>
        if negb (seq_shape true k tg e cnt) then None else
        if negb (count_plausible c cnt) then None else
        match dec_elems (dec n) (slot_ok true k e) (Z.to_nat cnt) [] c with
        | Some (els, c) => Some (VSeq k tg e els, c)
        | None => None
        end
    | None => None
    end = Some (t, rest)) by (by destruct k). clear Hd.
  destruct (dec_count k c) as [[[cnt e] r]|] eqn:Ec; [|done].
  destruct (seq_shape true k tg e cnt) eqn:Hs; [|done].
  destruct (count_plausible r cnt); [|done]. simpl in H.
  destruct (dec_elems _ _ _ _ _) as [[els r2]|] eqn:Ed; [|done]. injection H as <- <-.
  by eapply dec_seq_canon.
Qed.

Lemma dec_box_switch k : box_tag k = true → dec_switch (dec n) k tg c = Some (t, rest) → parsed (S n) (header k tg ++ c) t rest.
Proof.
  intros Hk Hd. assert (H : (if bool_decide (k = GEAS_TY_OPTION) && (tg =? 0) then Some (VBox k tg None, c) else
     if 1 <? tg then None else
     match dec n c with Some (t, c) => Some (VBox k tg (Some t), c) | None => None end) = Some (t, rest)) by (by destruct k).
  clear Hd. unfold is_u32 in Htg. destruct (bool_decide (k = GEAS_TY_OPTION) && (tg =? 0)) eqn:E.
  { injection H as <- <-. apply andb_true_iff in E as [Ek%bool_decide_eq_true Et]. subst k.
    unfold parsed. simpl. rewrite Et, app_nil_r. split_and!; try done; lia. }
  destruct (Z.ltb_spec 1 tg); [done|].
  destruct (dec n c) as [[t' r]|] eqn:Ed; [|done]. injection H as <- <-.
  destruct (Hrec _ _ _ Hc Ed) as (-> & Hsh & Hwf & Hht).
  unfold parsed. simpl. rewrite Hsh, andb_true_r, <- app_assoc. split_and!; try done; [|lia].
  destruct k; try done; simpl.
  - rewrite bool_decide_eq_true_2 in E by done. simpl in E. apply Z.eqb_neq in E.
    rewrite (proj2 (Z.eqb_eq tg 1)) by lia. by rewrite orb_true_r.
  - by rewrite (proj2 (Z.leb_le _ _)).
Qed.

Lemma dec_string_switch : dec_switch (dec n) GEAS_TY_STRING tg c = Some (t, rest) →
  parsed (S n) (header GEAS_TY_STRING tg ++ c) t rest.
Proof.
  intros Hd. unfold dec_switch in Hd. simpl in Hd. destruct (Z.eqb_spec tg 0) as [->|]; [|done]. simpl in Hd.
  destruct (take_bytes 8 c) as [[h r]|] eqn:Et; [|done].
  apply take_bytes_Some in Et as [-> Hl]. apply bytes_app in Hc as [Hh Hr].
  destruct (Z.ltb_spec (Z.of_nat (length r)) (get_u64 h)); [done|]. injection Hd as <- <-.
  pose proof (get_u64_range h Hh ltac:(lia)) as Hu. unfold is_u64 in Hu.
  assert (El : Z.of_nat (length (take (Z.to_nat (get_u64 h)) r)) = get_u64 h) by (rewrite length_take; lia).
  unfold parsed. simpl. rewrite El, put_get_u64 by done. split_and!; try done; try lia.
  - by rewrite <- !app_assoc, take_drop.
  - by apply Forall_take.
Qed.
End SwitchCanon.

Lemma dec_canon n : ∀ bs t rest, bytes_ok bs → dec n bs = Some (t, rest) → parsed n bs t rest.
Proof.
  induction n as [|n IH]; intros bs t rest Hb Hd; [done|]. cbn [dec] in Hd.
  destruct (take_bytes 8 bs) as [[h c]|] eqn:E; [|done].
  apply take_bytes_Some in E as [-> Hl]. apply bytes_app in Hb as [Hh Hc].
  destruct (tag_of (get_u32 h)) as [k|] eqn:Ek; [|done].
  destruct (header_get h Hh Hl k Ek) as [Eh Htg]. set (tg := get_u32 (drop 4 h)) in *.
  clearbody tg. subst h. destruct (scalar_tag k) eqn:Hsc; [by apply dec_scalar_switch|].
  destruct k; try done; try (by apply dec_seq_switch); try (by apply dec_box_switch). by apply dec_string_switch.
Qed.

(** ** The decoder on the heap *)

Section Decoding.
Context (owner : Z).

(** What decoding the bytes [bs] promises, against what the reference parser
    makes of them: the same value in new blocks of the owner with the same
    bytes left; a malformed verdict exactly when the parser has one; out of
    memory only on a refusal. *)
Definition decodes (want : option (val * list Z)) (m : mem) (r : decoded) (m' : mem) : Prop :=
  ∃ hn, grown owner m hn m' ∧
  let '(st, c, v) := r in
  match st with
  | GEAS_OK => ∃ t, want = Some (t, c) ∧ repr hn v t
  | GEAS_ERR_TYPE => want = None
  | GEAS_ERR_OOM => refused m m'
  | _ => False
  end.

(** Enough address space for the blocks a buffer of that length can ask for:
    five bytes of slot for each byte of payload. *)
Definition buffer_fits (bs : list Z) : Prop := sizeof_GeasBlock + zlen bs * 5 <= U64_MAX.

Definition rec_ok (n : nat) (rec : list Z → GeasValue → M decoded) : Prop :=
  ∀ c o m, bytes_ok c → buffer_fits c → mem_wf m → live owner m →
  wp (rec c o) m (decodes (dec n c) m).

(** A bytewise suffix of a good buffer is one. *)
Lemma suffix_fits a b : bytes_ok (a ++ b) → buffer_fits (a ++ b) → bytes_ok b ∧ buffer_fits b.
Proof.
  intros [_ ?]%bytes_app Hf. split; [done|]. unfold buffer_fits in *. rewrite zlen_app in Hf.
  pose proof (Nat2Z.is_nonneg (length a)). unfold zlen in *. lia.
Qed.

Lemma dec_suffix n bs t rest : bytes_ok bs → buffer_fits bs → dec n bs = Some (t, rest) →
  bytes_ok rest ∧ buffer_fits rest.
Proof.
  intros Hb Hf Hd. destruct (dec_canon _ _ _ _ Hb Hd) as (-> & _). by eapply suffix_fits.
Qed.

(** The slot by slot check, against its pure reading. *)
Definition chk_ok (chk : nat → M GeasStatus) (pchk : list val → val → bool) (data : Z) : Prop :=
  ∀ m slots pre t, heap m !! data = Some (BVals slots) → reprs (heap m) slots (pre ++ [t]) →
  (heights pre ≤ wire_fuel)%nat →
  chk (length pre) m = Ret (if pchk pre t then GEAS_OK else GEAS_ERR_TYPE) m.

Lemma heights_snoc pre t n : (heights pre ≤ n)%nat → (height t ≤ n)%nat →
  (heights (pre ++ [t]) ≤ n)%nat.
Proof. unfold heights. induction pre; simpl; lia. Qed.

Lemma chk_always k e data : (∀ pre t, slot_ok true k e pre t = true) →
  chk_ok (λ _, ret GEAS_OK) (slot_ok true k e) data.
Proof. intros H m slots pre t _ _ _. by rewrite H. Qed.

Lemma evens_cons x l : evens (x :: l) = x :: evens (drop 1 l).
Proof. by destruct l. Qed.

Lemma dup_scan_run data m slots pre t :
  heap m !! data = Some (BVals slots) → reprs (heap m) slots (pre ++ [t]) →
  (heights pre ≤ wire_fuel)%nat →
  ∀ r j, (length pre ≤ j + 2 * r)%nat →
  dup_scan data r j (length pre) m =
    Ret (if forallb (λ s, negb (veq s t)) (evens (drop j pre)) then GEAS_OK else GEAS_ERR_TYPE) m.
Proof.
  intros Hs Hr Hh. induction r as [|r IH]; intros j Hj; cbn [dup_scan].
  { by rewrite drop_ge by lia. }
  destruct (Nat.ltb_spec j (length pre)) as [Hlt|]; simpl; [|by rewrite drop_ge by lia].
  destruct (lookup_lt_is_Some_2 pre j Hlt) as [x Hx].
  destruct (Hr j x) as (a & Ha & Hra); [by rewrite lookup_app_l|].
  destruct (Hr (length pre) t) as (b & Hb & Hrb).
  { rewrite lookup_app_r by lia. by rewrite Nat.sub_diag. }
  rewrite (bind_Ret _ _ _ _ _ (load_slot_eq _ _ _ _ _ Hs Ha)).
  rewrite (bind_Ret _ _ _ _ _ (load_slot_eq _ _ _ _ _ Hs Hb)).
  erewrite bind_Ret; [|apply (value_eq_run x wire_fuel); [|exact Hra|exact Hrb]].
  2: { apply heights_lookup in Hx. lia. }
  rewrite (drop_S pre x j Hx), evens_cons, drop_drop. cbn [forallb].
  destruct (veq x t); simpl; [done|]. rewrite IH by lia.
  by replace (S (j + 1)) with (j + 2)%nat by lia.
Qed.

Lemma chk_map data e : chk_ok (map_slot_chk data e) (slot_ok true GEAS_TY_MAP e) data.
Proof.
  intros m slots pre t Hs Hr Hh. unfold map_slot_chk, slot_ok.
  destruct (Nat.even (length pre)) eqn:Ev; simpl; [|done].
  destruct (Hr (length pre) t) as (b & Hb & Hrb).
  { rewrite lookup_app_r by lia. by rewrite Nat.sub_diag. }
  rewrite (bind_Ret _ _ _ _ _ (load_slot_eq _ _ _ _ _ Hs Hb)).
  rewrite (repr_ty _ _ _ Hrb). destruct (tag_num (val_ty t) =? e); simpl; [|done].
  by rewrite (dup_scan_run _ _ _ _ _ Hs Hr Hh) by lia.
Qed.

(** The in-place slot loop.  Slots below [length pre] are decoded. *)
Lemma wp_decode_slots n rec chk pchk data m :
  rec_ok n rec → (n ≤ wire_fuel)%nat → chk_ok chk pchk data → live owner m → data ≠ 0 →
  ∀ k pre c m1 hd ds,
    bytes_ok c → buffer_fits c → (heights pre ≤ wire_fuel)%nat →
    grown owner m (<[data := BVals ds]> hd) m1 → hd !! data = None →
    length ds = (length pre + k)%nat → reprs hd ds pre →
    wp (decode_slots rec chk data k (length pre) c) m1 (λ '(st, c') m2, ∃ hd' ds',
      grown owner m (<[data := BVals ds']> hd') m2 ∧ hd' !! data = None ∧
      match st with
      | GEAS_OK => ∃ els, dec_elems (dec n) pchk k pre c = Some (els, c') ∧ reprs hd' ds' els
      | GEAS_ERR_TYPE => dec_elems (dec n) pchk k pre c = None
      | GEAS_ERR_OOM => refused m m2
      | _ => False
      end).
Proof.
  intros Hrec Hfu Hchk Hlive Hd0.
  induction k as [|k IH]; intros pre c m1 hd ds Hb Hf Hh G Hn Hlen Hr; simpl.
  { apply wp_ret. exists hd, ds. split_and!; [done..|]. by exists pre. }
  destruct (lookup_lt_is_Some_2 ds (length pre)) as [d0 Hd]; [lia|].
  assert (Hdl : heap m1 !! data = Some (BVals ds)).
  { eapply lookup_weaken; [|eapply grown_incl_new; eauto]. apply lookup_insert_eq. }
  apply wp_bind. eapply wp_load_slot; [exact Hdl|exact Hd|]. apply wp_bind.
  eapply wp_mono; [by apply (Hrec c d0 m1 Hb Hf); [eapply gr_wf|eapply grown_live]|].
  intros [[st c'] d'] m2 (h2 & G2 & Hres). apply wp_bind. eapply wp_store_slot.
  { eapply lookup_weaken; [exact Hdl|]. by eapply grown_incl. }
  { lia. }
  destruct (fill_grown _ _ _ _ _ _ _ _ (length pre) d' G Hn G2) as [G3 Hn3].
  set (m3 := set_heap _ m2) in *.
  destruct st; try done; simpl.
  - destruct Hres as (t & Hdec & Hrt). rewrite Hdec.
    destruct (dec_suffix _ _ _ _ Hb Hf Hdec) as [Hb' Hf'].
    assert (Hr3 : reprs (h2 ∪ hd) (<[length pre := d']> ds) (pre ++ [t])).
    { eapply fill_reprs; [done..|lia|done]. }
    assert (Hdl3 : heap m3 !! data = Some (BVals (<[length pre := d']> ds))).
    { simpl. apply lookup_insert_eq. }
    apply wp_bind, wp_run. eexists _, _. split.
    { apply (Hchk m3 _ pre t Hdl3); [|done]. eapply reprs_mono; [|exact Hr3].
      etransitivity; [by apply insert_subseteq|eapply grown_incl_new; exact G3]. }
    destruct (pchk pre t); simpl.
    + assert (Hh' : (heights (pre ++ [t]) ≤ wire_fuel)%nat).
      { destruct (dec_canon _ _ _ _ Hb Hdec) as (_ & _ & _ & Ht).
        apply heights_snoc; lia. }
      specialize (IH (pre ++ [t]) c' m3 _ _ Hb' Hf' Hh' G3 Hn3).
      rewrite length_app, Nat.add_1_r in IH. apply IH; [rewrite length_insert; lia|done].
    + apply wp_ret. eexists _, _. split_and!; [exact G3|done|done].
  - apply wp_ret. eexists _, _. split_and!; [exact G3|done|]. by rewrite Hres.
  - apply wp_ret. eexists _, _. split_and!; [exact G3|done|].
    destruct (refused_trans_r _ _ _ _ _ G Hres) as (j & z & ? & ?). exists j, z. by split.
Qed.

(** The list loop: every element is decoded into a local and pushed. *)
Lemma wp_decode_list_elems n rec data e cap m :
  rec_ok n rec → live owner m → data ≠ 0 → is_u32 e → Z.of_nat cap <= U64_MAX →
  ∀ k pre c m1 hd ds,
    bytes_ok c → buffer_fits c →
    grown owner m (<[data := BVals ds]> hd) m1 → hd !! data = None →
    length ds = cap → cap = (length pre + k)%nat → reprs hd ds pre →
    let out i := g_seq GEAS_TY_LIST 0 data (Z.of_nat i) (Z.of_nat cap) e in
    wp (decode_list_elems rec owner e k c (out (length pre))) m1 (λ '(st, c', v) m2, ∃ hd' ds',
      grown owner m (<[data := BVals ds']> hd') m2 ∧ hd' !! data = None ∧
      match st with
      | GEAS_OK => ∃ els, dec_elems (dec n) (slot_ok true GEAS_TY_LIST e) k pre c = Some (els, c') ∧
                     reprs hd' ds' els ∧ v = out cap ∧ length els = cap
      | GEAS_ERR_TYPE => dec_elems (dec n) (slot_ok true GEAS_TY_LIST e) k pre c = None
      | GEAS_ERR_OOM => refused m m2
      | _ => False
      end).
Proof.
  intros Hrec Hlive Hd0 He Hcap. induction k as [|k IH]; intros pre c m1 hd ds Hb Hf G Hn Hlen Hl Hr; simpl.
  { apply wp_ret. exists hd, ds. split_and!; [done..|]. exists pre. split_and!; try done; [|lia].
    f_equal. lia. }
  assert (Hdl : heap m1 !! data = Some (BVals ds)).
  { eapply lookup_weaken; [|eapply grown_incl_new; eauto]. apply lookup_insert_eq. }
  apply wp_bind. unfold junk_val at 1. unfold wp at 1. apply wp_bind.
  eapply wp_mono; [by apply (Hrec c _ m1 Hb Hf); [eapply gr_wf|eapply grown_live]|].
  intros [[st c'] d'] m2 (h2 & G2 & Hres).
  pose proof (grown_trans _ _ _ _ _ _ G G2) as G12.
  assert (Hd2 : h2 !! data = None).
  { eapply map_disjoint_Some_r; [exact (gr_fresh _ _ _ _ G2)|exact Hdl]. }
  rewrite <- insert_union_r in G12 by done.
  destruct st; try done; simpl.
  - destruct Hres as (t & Hdec & Hrt). rewrite Hdec.
    destruct (dec_suffix _ _ _ _ Hb Hf Hdec) as [Hb' Hf'].
    rewrite (repr_ty _ _ _ Hrt). destruct (Z.eqb_spec (tag_num (val_ty t)) e) as [Ee|]; simpl.
    2: { apply wp_ret. eexists _, _. split_and!; [exact G12|by apply lookup_union_None|done]. }
    apply wp_bind. unfold geas_list_push, is_ty, g_seq; cbn [ty].
    rewrite (proj2 (Z.eqb_neq owner 0)) by apply Hlive.
    unfold l_elem, l_len, l_cap, l_data; cbn [ty tag w0 w1 w2 w3].
    rewrite ?(repr_ty _ _ _ Hrt), ?Ee, (u32_id e He), !Z.eqb_refl. cbn [negb].
    rewrite (proj2 (Z.eqb_neq (Z.of_nat (length pre)) _)) by lia. rewrite Nat2Z.id.
    apply wp_bind. eapply wp_store_slot.
    { eapply lookup_weaken; [exact Hdl|]. by eapply grown_incl. }
    { lia. }
    apply wp_ret. simpl.
    destruct (fill_grown _ _ _ _ _ _ _ _ (length pre) d' G Hn G2) as [G3 Hn3].
    replace (u64 (Z.of_nat (length pre) + 1)) with (Z.of_nat (length (pre ++ [t])))
      by (rewrite length_app, u64_id by (unfold is_u64; lia); simpl; lia).
    eapply IH; try done.
    + by rewrite length_insert.
    + rewrite length_app. simpl. lia.
    + eapply fill_reprs; [done..|lia|done].
  - apply wp_ret. eexists _, _. split_and!; [exact G12|by apply lookup_union_None|].
    by rewrite Hres.
  - apply wp_ret. eexists _, _. split_and!; [exact G12|by apply lookup_union_None|].
    destruct (refused_trans_r _ _ _ _ _ G Hres) as (j & z & ? & ?). exists j, z. by split.
Qed.

(** A zeroed slot array, or the refusal. *)
Lemma wp_zeroed {A} n m (ko : M A) (k : Z → M A) Q :
  mem_wf m → live owner m → fits_slots n →
  (∀ m', grown owner m ∅ m' → refused m m' → wp ko m' Q) →
  (∀ p ds m', p ≠ 0 → length ds = n → grown owner m {[p := BVals ds]} m' → wp (k p) m' Q) →
  wp (p <- geas_bytes KVals owner (slot_bytes (Z.of_nat n));
      if p =? 0 then ko else zero_slots p (slot_count (Z.of_nat n));;; k p) m Q.
Proof.
  intros Hwf Hlive Hf Hko Hk. destruct (slot_bytes_fits n Hf) as [-> ->]. apply wp_bind.
  unfold fits_slots, sizeof_GeasValue in Hf. apply wp_geas_bytes; auto; [lia|].
  - intros m1 G Hb. rewrite (proj2 (Z.eqb_neq _ 0)) by done. apply wp_bind.
    simpl fresh_block in G. unfold sizeof_GeasValue in G. rewrite Z.div_mul, Nat2Z.id in G by lia.
    eapply wp_zero_slots.
    { eapply lookup_weaken; [|eapply grown_incl_new; exact G]. apply lookup_singleton_eq. }
    { by rewrite length_replicate. }
    eapply Hk; [exact Hb| |].
    2: { eapply grown_update in G; [|apply lookup_singleton_eq]. by rewrite insert_singleton_eq in G. }
    rewrite length_app, length_drop, !length_replicate. lia.
Qed.

Lemma plausible_fits c cnt : buffer_fits c → is_u64 cnt → count_plausible c cnt = true →
  Z.of_nat (Z.to_nat cnt) = cnt ∧ fits_slots (Z.to_nat cnt).
Proof.
  unfold buffer_fits, count_plausible, fits_slots, zlen, sizeof_GeasBlock, sizeof_GeasValue, is_u64.
  intros Hf Hc Hp%Z.leb_le. split; [lia|].
  pose proof (Z.mul_div_le (Z.of_nat (length c)) 8). lia.
Qed.

Lemma decodes_type want m c v : mem_wf m → live owner m → want = None →
  wp (ret (GEAS_ERR_TYPE, c, v)) m (decodes want m).
Proof. intros Hwf Hl ->. apply wp_ret. exists ∅. split; [by apply grown_refl|done]. Qed.

Lemma decodes_ok want m c v t : mem_wf m → live owner m → want = Some (t, c) → repr ∅ v t →
  wp (ret (GEAS_OK, c, v)) m (decodes want m).
Proof. intros Hwf Hl -> Hr. apply wp_ret. exists ∅. split; [by apply grown_refl|]. eauto. Qed.

(** A sequence in its new block. *)
Lemma block_repr k tg e els v data ds hd :
  seq_tag k = true → v = GV (tag_num k) tg data (Z.of_nat (length els)) (w2 v) e →
  is_u32 e → data ≠ 0 → fits_slots (length els) → reprs hd ds els → hd !! data = None →
  repr (<[data := BVals ds]> hd) v (VSeq k tg e els).
Proof.
  intros Hk -> He Hd Hf Hr Hn. apply repr_seq. unfold l_elem, l_len, l_data; cbn [ty tag w0 w1 w2 w3].
  rewrite u32_id by done. split_and!; auto. right. split; [done|]. exists ds.
  rewrite lookup_insert_eq. split; [done|]. eapply reprs_mono; [|exact Hr]. by apply insert_subseteq.
Qed.

Lemma empty_repr k tg e v h : seq_tag k = true → v = GV (tag_num k) tg (w0 v) 0 (w2 v) e →
  is_u32 e → repr h v (VSeq k tg e []).
Proof.
  intros Hk -> He. apply repr_seq. unfold l_elem, l_len, l_data; cbn [ty tag w0 w1 w2 w3].
  rewrite u32_id by done. split_and!; auto. unfold fits_slots. simpl. done.
Qed.

Lemma dec_elems_length rec chk k : ∀ pre c els r,
  dec_elems rec chk k pre c = Some (els, r) → length els = (length pre + k)%nat.
Proof.
  induction k as [|k IH]; intros pre c els r H; simpl in H; [injection H as <- <-; lia|].
  destruct (rec c) as [[t c']|]; [|done]. destruct (chk pre t); [|done].
  apply IH in H. rewrite length_app in H. simpl in H. lia.
Qed.

(** ** The decoder's switch *)

Section Switch.
Context (n : nat) (rec : list Z → GeasValue → M decoded).
Hypothesis Hrec : rec_ok n rec.
Hypothesis Hn : (n ≤ wire_fuel)%nat.

Definition switch_ok (k : GeasTypeTag) : Prop := ∀ tg c m,
  is_u32 tg → bytes_ok c → buffer_fits c → mem_wf m → live owner m →
  wp (decode_switch rec owner (tag_num k) tg c) m (decodes (dec_switch (dec n) k tg c) m).

Lemma switch_scalar k : scalar_tag k = true → switch_ok k.
Proof.
  intros Hk tg c m Htg Hb Hf Hwf Hl. unfold decode_switch, dec_switch, untagged. rewrite tag_of_num, Hk.
  destruct (Z.eqb_spec tg 0) as [->|]; cbn [negb].
  2: { destruct k; try done; by apply decodes_type. }
  destruct k; try done; simpl; try (by apply decodes_type);
    try (by eapply decodes_ok; [done|done|reflexivity|]);
    destruct (take_bytes _ c) as [[h r]|] eqn:E; try (by apply decodes_type);
    apply take_bytes_Some in E as [-> Hlh]; apply bytes_app in Hb as [Hh _].
  1-3: by eapply decodes_ok; [done|done|reflexivity|].
  - destruct h as [|x [|]]; simpl in Hlh; try lia. apply Forall_cons in Hh as [Hx _]. cbn [byte_at nth].
    destruct (Z.ltb_spec 1 x), (Z.leb_spec x 1); try lia; [by apply decodes_type|].
    eapply decodes_ok; [done|done|reflexivity|]. simpl. split_and!; try done. by apply u8_id.
  - destruct h as [|x [|]]; simpl in Hlh; try lia. apply Forall_cons in Hh as [Hx _]. cbn [byte_at nth].
    eapply decodes_ok; [done|done|reflexivity|]. simpl. split_and!; try done. by apply u8_id.
  - destruct (char_ok (get_u32 h)); simpl; [|by apply decodes_type].
    eapply decodes_ok; [done|done|reflexivity|]. simpl. split_and!; try done. apply u32_id.
    apply get_u32_range; [done|lia].
Qed.

Lemma switch_string : switch_ok GEAS_TY_STRING.
Proof.
  intros tg c m Htg Hb Hf Hwf Hl. unfold decode_switch, dec_switch, untagged. rewrite tag_of_num. simpl.
  destruct (Z.eqb_spec tg 0) as [->|]; cbn [negb]; [|by apply decodes_type].
  destruct (take_bytes 8 c) as [[h r]|] eqn:E; [|by apply decodes_type].
  apply take_bytes_Some in E as [-> Hlh]. destruct (suffix_fits _ _ Hb Hf) as [Hbr Hfr].
  apply bytes_app in Hb as [Hh _]. pose proof (get_u64_range h Hh ltac:(lia)) as Hu. unfold is_u64 in Hu.
  destruct (Z.ltb_spec (Z.of_nat (length r)) (get_u64 h)); [by apply decodes_type|].
  set (bs := take (Z.to_nat (get_u64 h)) r).
  assert (El : get_u64 h = Z.of_nat (length bs)) by (unfold bs; rewrite length_take; lia).
  rewrite El. apply wp_bind. eapply wp_mono.
  { apply (wp_string_copy_from owner (ret bs) bs); [done|done| |by right].
    unfold fits_bytes, buffer_fits, zlen in *. lia. }
  intros d m' (hn & G & [[Hd Hr]|[-> Href]]).
  - rewrite (proj2 (Z.eqb_neq (s_ptr d) 0)), andb_false_r by done. apply wp_ret. exists hn. eauto.
  - simpl. rewrite andb_true_r. destruct (Z.eqb_spec (Z.of_nat (length bs)) 0) as [E|]; simpl;
      apply wp_ret; exists hn; (split; [done|]); [|done].
    eexists. split; [reflexivity|]. destruct bs; [|done]. simpl. split_and!; auto. unfold fits_bytes. simpl. done.
Qed.

Lemma switch_boxed k tg c m : box_tag k = true → bytes_ok c → buffer_fits c → mem_wf m → live owner m →
  wp (decode_boxed rec owner (tag_num k) tg c) m (decodes
    (match dec n c with Some (t, c) => Some (VBox k tg (Some t), c) | None => None end) m).
Proof.
  intros Hk Hb Hf Hwf Hl. unfold decode_boxed. apply wp_bind. apply wp_geas_box; [done..| |].
  - intros m1 G Hbrk. rewrite (proj2 (Z.eqb_neq (brk m) 0)) by done. apply wp_bind.
    set (p := brk m) in *.
    assert (Hp : heap m1 !! p = Some (BVals [gzero])).
    { eapply lookup_weaken; [|by eapply grown_incl_new]. apply lookup_singleton_eq. }
    eapply wp_load_slot; [exact Hp|reflexivity|]. apply wp_bind.
    eapply wp_mono; [by apply (Hrec c gzero m1 Hb Hf); [eapply gr_wf|eapply grown_live]|].
    intros [[st c'] b'] m2 (h2 & G2 & Hres). apply wp_bind. eapply wp_store_slot.
    { eapply lookup_weaken; [exact Hp|]. by eapply grown_incl. }
    { simpl. lia. }
    rewrite <- (insert_empty p (BVals [gzero])) in G.
    destruct (fill_grown _ _ _ _ _ _ _ _ 0 b' G (lookup_empty _) G2) as [G3 Hn3].
    simpl in G3. apply wp_ret. eexists. split; [exact G3|]. rewrite (right_id_L ∅ (∪)) in Hn3 |- *.
    destruct st; try done.
    + destruct Hres as (t & -> & Hr). eexists. split; [reflexivity|]. simpl. split_and!; auto.
      eexists _, _. rewrite lookup_insert_eq. split; [reflexivity|].
      eapply repr_mono; [|exact Hr]. by apply insert_subseteq.
    + by rewrite Hres.
    + destruct (refused_trans_r _ _ _ _ _ G Hres) as (j & z & ? & ?). exists j, z. by split.
  - intros m1 G Href. simpl. apply wp_ret. exists ∅. by split.
Qed.

Lemma switch_box k : box_tag k = true → switch_ok k.
Proof.
  intros Hk tg c m Htg Hb Hf Hwf Hl. unfold decode_switch, dec_switch. rewrite tag_of_num. unfold is_u32 in Htg.
  destruct k; try done; cbn [scalar_tag].
  - rewrite bool_decide_eq_true_2 by done. cbn [andb].
    destruct (Z.ltb_spec 1 tg).
    { rewrite (proj2 (Z.eqb_neq tg 0)) by lia. by apply decodes_type. }
    destruct (Z.eqb_spec tg 0) as [->|]; [|by apply switch_boxed].
    by eapply decodes_ok; [done|done|reflexivity|].
  - rewrite bool_decide_eq_false_2 by done. cbn [andb].
    destruct (Z.ltb_spec 1 tg); [by apply decodes_type|]. by apply switch_boxed.
Qed.

(** The pure sequence parser after its count field. *)
Definition dec_seq (k : GeasTypeTag) (tg e cnt : Z) (c : list Z) : option (val * list Z) :=
  match dec_elems (dec n) (slot_ok true k e) (Z.to_nat cnt) [] c with
  | Some (els, c) => Some (VSeq k tg e els, c)
  | None => None
  end.

(** Decoding into the slots of a fresh block [p], from memory [m] on. *)
Lemma slots_decoded k tg e chk cnt p ds c m m1 v :
  seq_tag k = true → is_u32 e → chk_ok chk (slot_ok true k e) p →
  (cnt = 0%nat ∧ m1 = m ∨ p ≠ 0 ∧ length ds = cnt ∧ grown owner m {[p := BVals ds]} m1) →
  fits_slots cnt → v = GV (tag_num k) tg p (Z.of_nat cnt) (w2 v) e →
  bytes_ok c → buffer_fits c → mem_wf m → live owner m →
  wp ('(st, c') <- decode_slots rec chk p cnt 0 c; ret (st, c', v)) m1
    (decodes (dec_seq k tg e (Z.of_nat cnt) c) m).
Proof.
  intros Hk He Hchk Hp Hfs Hv Hb Hf Hwf Hl. unfold dec_seq. rewrite Nat2Z.id. apply wp_bind.
  destruct Hp as [[-> ->]|(Hp0 & Hlen & G)].
  { apply wp_ret. eapply decodes_ok; [done|done|reflexivity|]. rewrite Hv. by apply empty_repr. }
  rewrite <- insert_empty in G.
  eapply wp_mono.
  { eapply (wp_decode_slots n rec chk (slot_ok true k e) p m Hrec Hn Hchk Hl Hp0 cnt [] c m1 ∅ ds);
      [done|done|simpl; lia|exact G|apply lookup_empty|simpl; lia|apply reprs_nil]. }
  intros [st c'] m2 (hd & ds' & G2 & Hnone & Hres). apply wp_ret. eexists. split; [exact G2|].
  destruct st; try done.
  - destruct Hres as (els & Hd & Hr). rewrite Hd. eexists. split; [reflexivity|].
    apply dec_elems_length in Hd. simpl in Hd. subst cnt. rewrite <- Hd in Hv, Hfs. by apply block_repr.
  - by rewrite Hres.
Qed.

Lemma block_decoded k tg e chk cnt c m empty out :
  seq_tag k = true → is_u32 e → (∀ p, chk_ok (chk p) (slot_ok true k e) p) →
  (∀ p, out p = GV (tag_num k) tg p cnt cnt e) →
  is_u64 cnt → count_plausible c cnt = true →
  bytes_ok c → buffer_fits c → mem_wf m → live owner m →
  wp (decode_block rec owner chk cnt c empty out) m (decodes (dec_seq k tg e cnt c) m).
Proof.
  intros Hk He Hchk Hout Hcnt Hpl Hb Hf Hwf Hl. unfold decode_block.
  destruct (plausible_fits _ _ Hf Hcnt Hpl) as [Ecnt Hfs]. set (k' := Z.to_nat cnt) in *. clearbody k'.
  subst cnt. destruct (Z.eqb_spec (Z.of_nat k') 0) as [E0|Hne]; apply wp_bind.
  - apply wp_ret. cbv iota. assert (k' = 0%nat) as -> by lia.
    apply (slots_decoded k tg e (chk 0) 0 0 [] c m m); auto. by rewrite Hout.
  - apply wp_zeroed; auto.
    + intros m1 G Href. apply wp_ret, wp_ret. exists ∅. by split.
    + intros p ds m1 Hp Hlen G. apply wp_ret. cbv iota.
      apply (slots_decoded k tg e (chk p) k' p ds c m m1); auto; by rewrite Hout.
Qed.

Lemma switch_block k : k = GEAS_TY_RECORD ∨ k = GEAS_TY_SUM ∨ k = GEAS_TY_MAP → switch_ok k.
Proof.
  intros Hk tg c m Htg Hb Hf Hwf Hl. unfold decode_switch, dec_switch, untagged. rewrite tag_of_num.
  assert (Hr : ∀ h r, c = h ++ r → length h = 8%nat → k ≠ GEAS_TY_MAP → seq_tag k = true →
    wp (if negb (count_plausible r (get_u64 h)) then ret (GEAS_ERR_TYPE, r, GV (tag_num k) tg 0 0 0 0)
        else decode_block rec owner (λ _ _, ret GEAS_OK) (get_u64 h) r (GV (tag_num k) tg 0 0 0 0)
               (λ data, GV (tag_num k) tg data (get_u64 h) (get_u64 h) 0)) m
      (decodes (if negb (count_plausible r (get_u64 h)) then None else dec_seq k tg 0 (get_u64 h) r) m)).
  { intros h r -> Hlh Hnm Hsq. destruct (suffix_fits _ _ Hb Hf) as [Hbr Hfr].
    apply bytes_app in Hb as [Hh _]. pose proof (get_u64_range h Hh ltac:(lia)) as Hu.
    destruct (count_plausible r (get_u64 h)) eqn:Hp; [|by apply decodes_type].
    apply block_decoded; auto; [unfold is_u32; lia|]. intros p. apply chk_always.
    intros pre t. destruct Hk as [->|[->| ->]]; done. }
  destruct Hk as [->|[->| ->]]; cbn [scalar_tag dec_count]; unfold seq_shape.
  - simpl andb. destruct (Z.eqb_spec tg 0) as [->|]; cbn [negb andb orb].
    + destruct (take_bytes 8 c) as [[h r]|] eqn:E; [|by apply decodes_type].
      apply take_bytes_Some in E as [-> Hlh]. by apply Hr.
    + destruct (take_bytes 8 c) as [[h r]|]; by apply decodes_type.
  - cbn [negb andb orb Z.eqb]. destruct (take_bytes 8 c) as [[h r]|] eqn:E; [|by apply decodes_type].
    apply take_bytes_Some in E as [-> Hlh]. by apply Hr.
  - destruct (Z.eqb_spec tg 0) as [->|]; cbn [negb andb orb].
    2: { destruct (take_bytes 12 c) as [[h r]|]; by apply decodes_type. }
    destruct (take_bytes 12 c) as [[h r]|] eqn:E; [|by apply decodes_type].
    apply take_bytes_Some in E as [-> Hlh]. destruct (suffix_fits _ _ Hb Hf) as [Hbr Hfr].
    apply bytes_app in Hb as [Hh _]. pose proof (get_u64_range h Hh ltac:(lia)) as Hu.
    assert (He : is_u32 (get_u32 (drop 8 h))).
    { apply get_u32_range; [by apply Forall_drop|rewrite length_drop; lia]. }
    destruct (get_u64 h mod 2 =? 0); cbn [negb andb]; rewrite ?andb_false_r; [|by apply decodes_type].
    destruct (tag_keyable (get_u32 (drop 8 h))); cbn [negb andb]; [|by apply decodes_type].
    destruct (count_plausible r (get_u64 h)) eqn:Hp; cbn [negb]; [|by apply decodes_type].
    apply block_decoded; auto. intros p. apply chk_map.
Qed.

Lemma switch_tuple : switch_ok GEAS_TY_TUPLE.
Proof.
  intros tg c m Htg Hb Hf Hwf Hl. unfold decode_switch, dec_switch, untagged. rewrite tag_of_num.
  cbn [scalar_tag dec_count]. unfold seq_shape. destruct (Z.eqb_spec tg 0) as [->|]; cbn [negb andb orb Z.eqb].
  2: { destruct (take_bytes 8 c) as [[h r]|]; by apply decodes_type. }
  destruct (take_bytes 8 c) as [[h r]|] eqn:E; [|by apply decodes_type].
  apply take_bytes_Some in E as [-> Hlh]. destruct (suffix_fits _ _ Hb Hf) as [Hbr Hfr].
  apply bytes_app in Hb as [Hh _]. pose proof (get_u64_range h Hh ltac:(lia)) as Hu.
  destruct (count_plausible r (get_u64 h)) eqn:Hp; cbn [negb]; [|by apply decodes_type].
  destruct (plausible_fits _ _ Hfr Hu Hp) as [Ecnt Hfs].
  fold (dec_seq GEAS_TY_TUPLE 0 0 (get_u64 h) r).
  set (k' := Z.to_nat (get_u64 h)) in *. clearbody k'. rewrite <- Ecnt. clear Ecnt Hu Hp.
  assert (Hchk : ∀ p, chk_ok (λ _, ret GEAS_OK) (slot_ok true GEAS_TY_TUPLE 0) p).
  { intros p. by apply chk_always. }
  assert (H0 : is_u32 0) by (unfold is_u32; lia).
  unfold geas_tuple_new. rewrite (proj2 (Z.eqb_neq owner 0)) by apply Hl.
  destruct (Z.eqb_spec (Z.of_nat k') 0) as [E0|Hne]; apply wp_bind.
  - apply wp_ret. cbn [default st_ok negb]. unfold g_seq, l_data; cbn [w0].
    assert (k' = 0%nat) as -> by lia.
    apply (slots_decoded GEAS_TY_TUPLE 0 0 _ 0 0 [] r m m); auto.
  - apply wp_zeroed; auto.
    + intros m1 G Href. do 2 apply wp_ret. exists ∅. by split.
    + intros p ds m1 Hp Hlen G. apply wp_ret. cbn [default st_ok negb]. unfold g_seq, l_data; cbn [w0].
      apply (slots_decoded GEAS_TY_TUPLE 0 0 _ k' p ds r m m1); auto.
Qed.

Lemma switch_list : switch_ok GEAS_TY_LIST.
Proof.
  intros tg c m Htg Hb Hf Hwf Hl. unfold decode_switch, dec_switch, untagged. rewrite tag_of_num.
  cbn [scalar_tag dec_count]. unfold seq_shape. destruct (Z.eqb_spec tg 0) as [->|]; cbn [negb andb orb Z.eqb].
  2: { destruct (take_bytes 12 c) as [[h r]|]; by apply decodes_type. }
  destruct (take_bytes 12 c) as [[h r]|] eqn:E; [|by apply decodes_type].
  apply take_bytes_Some in E as [-> Hlh]. destruct (suffix_fits _ _ Hb Hf) as [Hbr Hfr].
  apply bytes_app in Hb as [Hh _]. pose proof (get_u64_range h Hh ltac:(lia)) as Hu.
  assert (He : is_u32 (get_u32 (drop 8 h))).
  { apply get_u32_range; [by apply Forall_drop|rewrite length_drop; lia]. }
  set (e := get_u32 (drop 8 h)) in *. clearbody e.
  destruct (tag_crosses e); cbn [negb]; [|by apply decodes_type].
  destruct (count_plausible r (get_u64 h)) eqn:Hp; cbn [negb]; [|by apply decodes_type].
  destruct (plausible_fits _ _ Hfr Hu Hp) as [Ecnt Hfs].
  fold (dec_seq GEAS_TY_LIST 0 e (get_u64 h) r).
  set (k' := Z.to_nat (get_u64 h)) in *. clearbody k'. unfold is_u64 in Hu. rewrite <- Ecnt in Hu |- *. clear Ecnt Hp.
  unfold dec_seq. rewrite Nat2Z.id.
  unfold geas_list_new. rewrite (proj2 (Z.eqb_neq owner 0)) by apply Hl.
  destruct (Z.eqb_spec (Z.of_nat k') 0) as [E0|Hne]; apply wp_bind.
  - apply wp_ret. cbn [default st_ok negb]. assert (k' = 0%nat) as -> by lia.
    eapply decodes_ok; [done|done|reflexivity|]. by apply empty_repr.
  - apply wp_zeroed; auto.
    + intros m1 G Href. do 2 apply wp_ret. exists ∅. by split.
    + intros p ds m1 Hp Hlen G. apply wp_ret. cbn [default st_ok negb].
      rewrite <- insert_empty in G. eapply wp_mono.
      { eapply (wp_decode_list_elems n rec p e k' m Hrec Hl Hp He ltac:(lia) k' [] r m1 ∅ ds);
          [done|done|exact G|apply lookup_empty|done|done|apply reprs_nil]. }
      intros [[st c'] v] m2 (hd & ds' & G2 & Hnone & Hres). eexists. split; [exact G2|].
      destruct st; try done.
      * destruct Hres as (els & -> & Hr & -> & Hle). eexists. split; [reflexivity|].
        rewrite <- Hle in Hfs |- *. by apply block_repr.
      * by rewrite Hres.
Qed.

Lemma switch_all k : switch_ok k.
Proof.
  destruct k; try (by apply switch_scalar); try (by apply switch_box);
    try (apply switch_block; tauto); auto using switch_string, switch_tuple, switch_list.
Qed.
End Switch.

(** Fuel one past the depth left is enough, whatever the bytes. *)
Lemma decode_rec_run n : (n ≤ 64)%nat →
  rec_ok n (λ c o, decode_rec (S n) owner c (65 - Z.of_nat n) o).
Proof.
  induction n as [|n IH]; intros Hn c o m Hb Hf Hwf Hl; cbn [decode_rec]; unfold GEAS_WIRE_MAX_DEPTH.
  { by apply decodes_type. }
  rewrite (proj2 (Z.ltb_ge _ _)) by lia. cbn [dec].
  destruct (take_bytes 8 c) as [[h r]|] eqn:E; [|by apply decodes_type].
  apply take_bytes_Some in E as [-> Hlh]. destruct (suffix_fits _ _ Hb Hf) as [Hbr Hfr].
  apply bytes_app in Hb as [Hh _].
  destruct (tag_of (get_u32 h)) as [k|] eqn:Ek.
  2: { unfold decode_switch. rewrite Ek. by apply decodes_type. }
  destruct (header_get h Hh Hlh k Ek) as [_ Htg]. apply tag_of_Some in Ek. rewrite Ek.
  apply (switch_all n); auto; [|unfold wire_fuel; lia].
  replace (65 - Z.of_nat (S n) + 1) with (65 - Z.of_nat n) by lia. apply IH. lia.
Qed.
End Decoding.
