(* ===== verification/WireProps.v ===== *)
(** * The wire codec: what it promises

    The frame header and the value codec, both ways, over the definitions of
    [Wire]; the proofs apply [WireSpec]. *)
From S2P Require Import Prelude Abi Memory Value ValueSpec ValueProps Wire WireSpec.

(** ** Frames *)

Section Frames.

Lemma frame_layout a b c d : length a = 4%nat → length b = 4%nat → length c = 8%nat →
  length d = 4%nat → ∀ buf : list Z, length buf = 20%nat →
  list_inserts 16 d (list_inserts 8 c (list_inserts 4 b (list_inserts 0 a buf))) = a ++ b ++ c ++ d.
Proof.
  intros Ha Hb Hc Hd buf Hl.
  do 21 (destruct buf as [|? buf]; simpl in Hl; try lia).
  do 5 (destruct a as [|? a]; simpl in Ha; try lia).
  do 5 (destruct b as [|? b]; simpl in Hb; try lia).
  do 9 (destruct c as [|? c]; simpl in Hc; try lia).
  do 5 (destruct d as [|? d]; simpl in Hd; try lia). done.
Qed.

Definition frame_bytes (k r l : Z) : list Z :=
  GEAS_WIRE_MAGIC ++ put_u32 k ++ put_u64 r ++ put_u32 l.

Lemma frame_write_ok k r l buf : length buf = GEAS_WIRE_HEADER_LEN →
  kind_known k = true → l <= GEAS_WIRE_MAX_PAYLOAD →
  geas_wire_frame_write k r l (Some buf) = (GEAS_OK, Some (frame_bytes k r l)).
Proof.
  intros Hb Hk Hl. unfold geas_wire_frame_write. rewrite Hk, (proj2 (Z.ltb_ge _ _)) by done.
  cbn [negb]. by rewrite frame_layout.
Qed.

Lemma frame_parts k r l : is_u32 k → is_u64 r → is_u32 l →
  get_u32 (drop 4 (frame_bytes k r l)) = k ∧ get_u64 (drop 8 (frame_bytes k r l)) = r ∧
  get_u32 (drop 16 (frame_bytes k r l)) = l.
Proof.
  intros Hk Hr Hl. unfold frame_bytes. split_and!.
  - rewrite drop_app_length' by done. by apply get_put_u32.
  - rewrite app_assoc, drop_app_length' by done. by apply get_put_u64.
  - rewrite !app_assoc, drop_app_length' by done. rewrite <- (app_nil_r (put_u32 l)).
    by apply get_put_u32.
Qed.

(** A frame header survives the trip both ways.  Writing a known kind and a
    payload within the cap answers GEAS_OK and exactly the twenty bytes that
    read back as the same kind, request id and length; any other kind is
    GEAS_ERR_TYPE and any longer payload GEAS_ERR_OOM, the buffer untouched;
    and every twenty bytes the reader accepts are the bytes the writer makes of
    what it read. *)
Theorem frame_round_trip k r l buf fr inp :
  is_u32 k → is_u64 r → is_u32 l → length buf = GEAS_WIRE_HEADER_LEN →
  bytes_ok inp → length inp = GEAS_WIRE_HEADER_LEN →
  (geas_wire_frame_write k r l (Some buf) =
     if negb (kind_known k) then (GEAS_ERR_TYPE, Some buf)
     else if GEAS_WIRE_MAX_PAYLOAD <? l then (GEAS_ERR_OOM, Some buf)
     else (GEAS_OK, Some (frame_bytes k r l))) ∧
  (kind_known k = true → l <= GEAS_WIRE_MAX_PAYLOAD →
   geas_wire_frame_read (Some (frame_bytes k r l)) (Some fr) = (GEAS_OK, Some (WireFrame k r l))) ∧
  (∀ f, geas_wire_frame_read (Some inp) (Some fr) = (GEAS_OK, Some f) →
   geas_wire_frame_write (kind f) (request_id f) (payload_len f) (Some buf) = (GEAS_OK, Some inp)).
Proof.
  intros Hk Hr Hl Hb Hi Hli. split_and!.
  - destruct (kind_known k) eqn:Ek; [|by unfold geas_wire_frame_write; rewrite Ek].
    cbn [negb]. destruct (Z.ltb_spec GEAS_WIRE_MAX_PAYLOAD l).
    + unfold geas_wire_frame_write. by rewrite Ek, (proj2 (Z.ltb_lt _ _)).
    + by apply frame_write_ok.
  - intros Ek Hle. unfold geas_wire_frame_read. destruct (frame_parts k r l Hk Hr Hl) as (-> & -> & ->).
    rewrite bool_decide_eq_true_2, Ek, (proj2 (Z.ltb_ge _ _)) by done. done.
  - intros f. unfold geas_wire_frame_read. case_bool_decide as Hm; [|done]. cbn [negb].
    destruct (kind_known _) eqn:Ek; [|done]. cbn [negb].
    destruct (Z.ltb_spec GEAS_WIRE_MAX_PAYLOAD (get_u32 (drop 16 inp))) as [|Hle]; [done|].
    intros [= <-]. cbn [kind request_id payload_len]. rewrite frame_write_ok by done.
    do 2 f_equal. unfold frame_bytes.
    assert (E : inp = take 4 inp ++ take 4 (drop 4 inp) ++ take 8 (drop 8 inp) ++ drop 16 inp).
    { rewrite <- (take_drop 4 inp) at 1. f_equal. rewrite <- (take_drop 4 (drop 4 inp)) at 1.
      f_equal. rewrite drop_drop. rewrite <- (take_drop 8 (drop (4 + 4) inp)) at 1. by rewrite drop_drop. }
    unfold GEAS_WIRE_HEADER_LEN in *. unfold bytes_ok in *.
    rewrite E at 4. rewrite <- Hm. f_equal.
    rewrite <- (get_u32_take (drop 4 inp) 4) by (rewrite ?length_drop; lia).
    rewrite <- (get_u64_take (drop 8 inp)) by (rewrite ?length_drop; lia).
    f_equal; [|f_equal].
    + apply put_get_32; [by apply Forall_take, Forall_drop|rewrite length_take, length_drop; lia].
    + apply put_get_u64; [by apply Forall_take, Forall_drop|rewrite length_take, length_drop; lia].
    + apply put_get_32; [by apply Forall_drop|rewrite length_drop; lia].
Qed.

Lemma frame_round_trip_witness :
  let k := kind_num GEAS_WIRE_FULFILL in
  let buf := replicate 20 0 in
  (geas_wire_frame_write k 77 5 (Some buf) =
     if negb (kind_known k) then (GEAS_ERR_TYPE, Some buf)
     else if GEAS_WIRE_MAX_PAYLOAD <? 5 then (GEAS_ERR_OOM, Some buf)
     else (GEAS_OK, Some (frame_bytes k 77 5))) ∧
  (kind_known k = true → 5 <= GEAS_WIRE_MAX_PAYLOAD →
   geas_wire_frame_read (Some (frame_bytes k 77 5)) (Some (WireFrame 0 0 0))
     = (GEAS_OK, Some (WireFrame k 77 5))) ∧
  (∀ f, geas_wire_frame_read (Some (frame_bytes k 9 9)) (Some (WireFrame 0 0 0)) = (GEAS_OK, Some f) →
   geas_wire_frame_write (kind f) (request_id f) (payload_len f) (Some buf)
     = (GEAS_OK, Some (frame_bytes k 9 9))).
Proof.
  apply frame_round_trip; try (vm_compute; intuition congruence); try reflexivity.
  unfold bytes_ok. apply (bool_decide_unpack _). vm_compute. exact I.
Defined.

End Frames.

(** ** Values *)

Section Values.

(** Where a value has an encoding: every tag and width its type allows, no
    instance and no pledge reference inside, no deeper than the cap. *)
Definition encodable (t : val) : bool :=
  wire_shape false t && (height t <=? 64)%nat.

Lemma encode_size_top m v t : val_wf t → repr (heap m) v t →
  ∃ r, encode_size wire_fuel v 1 0 m = Ret r m ∧ size_post (encodable t) (zlen (enc t)) 0 r.
Proof.
  intros Hwf Hr. destruct (encode_size_run m t wire_fuel 1 Hwf ltac:(unfold wire_fuel; lia)
    ltac:(lia) v 0 Hr ltac:(lia)) as (r & Hrun & Hp).
  exists r. split; [exact Hrun|]. unfold encodable.
  replace (height t <=? 64)%nat with (1 + height t <=? 65)%nat; [done|].
  apply Bool.eq_iff_eq_true. rewrite !Nat.leb_le. lia.
Qed.

Lemma encode_value_run m v t buf cap :
  val_wf t → repr (heap m) v t → 0 <= cap <= U64_MAX →
  ∃ st need out,
    geas_wire_encode_value (Some v) buf cap true m = Ret (st, need, out) m ∧
    match st with
    | GEAS_OK => encodable t = true ∧ buf = true ∧ out = enc t ∧ need = Some (zlen (enc t)) ∧ zlen out <= cap
    | GEAS_ERR_TYPE => encodable t = false ∧ need = None ∧ out = []
    | GEAS_ERR_OOM => out = [] ∧
        (need = Some (zlen (enc t)) ∧ (buf = false ∨ cap < zlen (enc t)) ∨
         need = None ∧ U64_MAX < zlen (enc t))
    | _ => False
    end.
Proof.
  intros Hwf Hr Hcap. unfold geas_wire_encode_value. cbn [negb].
  destruct (encode_size_top m v t Hwf Hr) as ([st total] & Hrun & Hp).
  rewrite (bind_Ret _ _ _ _ _ Hrun). unfold size_post in Hp. cbn [fst snd] in Hp.
  destruct st; try done; cbn [st_ok negb].
  2: { eexists _, _, _. split; [reflexivity|]. by rewrite Hp. }
  2: { eexists _, _, _. split; [reflexivity|]. split; [done|]. by right. }
  destruct Hp as (He & Ht & _). rewrite Z.add_0_l in Ht. subst total.
  destruct buf; cbn [negb orb].
  2: { eexists _, _, _. split; [reflexivity|]. split; [done|]. left. auto. }
  destruct (Z.ltb_spec cap (zlen (enc t))).
  { eexists _, _, _. split; [reflexivity|]. split; [done|]. left. auto. }
  pose proof He as [Hs Hh]%andb_true_iff. apply Nat.leb_le in Hh.
  assert (Hw : encode_write wire_fuel cap v [] m = Ret (enc t) m).
  { apply (encode_write_run m cap t wire_fuel Hwf Hs ltac:(unfold wire_fuel; lia) v [] Hr).
    unfold zlen in *. simpl. lia. }
  rewrite (bind_Ret _ _ _ _ _ Hw). eexists _, _, _. split; [reflexivity|]. split_and!; auto.
Qed.

(** The size pass and the write pass agree on every encodable value. *)
Lemma encode_value_ok m v t need cap : val_wf t → encodable t = true → repr (heap m) v t →
  0 <= cap <= U64_MAX → zlen (enc t) <= cap → need = Some (zlen (enc t)) →
  geas_wire_encode_value (Some v) true cap true m = Ret (GEAS_OK, need, enc t) m.
Proof.
  intros Hwf He Hr Hcap Hle ->. destruct (encode_value_run m v t true cap Hwf Hr Hcap) as (st & nd & out & -> & Hp).
  destruct st; try done.
  - by destruct Hp as (_ & _ & -> & -> & _).
  - destruct Hp as [Hp _]. congruence.
  - destruct Hp as (_ & [(_ & [?|?])|[_ ?]]); [done|lia|lia].
Qed.

(** C24: [geas_wire_encode_value] reads the value and changes nothing.  A value
    without an encoding is GEAS_ERR_TYPE with the size unset; otherwise the size
    is the exact length of the value's byte string, a missing or short buffer is
    GEAS_ERR_OOM with nothing written, and a buffer of at least that size
    receives exactly that byte string: the write pass never passes the end of
    what the sizing pass measured. *)
Theorem encode_value_exact m v t buf cap :
  val_wf t → repr (heap m) v t → 0 <= cap <= U64_MAX →
  ∃ st need out,
    geas_wire_encode_value (Some v) buf cap true m = Ret (st, need, out) m ∧
    match st with
    | GEAS_OK => encodable t = true ∧ buf = true ∧ out = enc t ∧ need = Some (zlen (enc t)) ∧ zlen out <= cap
    | GEAS_ERR_TYPE => encodable t = false ∧ need = None ∧ out = []
    | GEAS_ERR_OOM => out = [] ∧
        (need = Some (zlen (enc t)) ∧ (buf = false ∨ cap < zlen (enc t)) ∨
         need = None ∧ U64_MAX < zlen (enc t))
    | _ => False
    end.
Proof. exact (encode_value_run m v t buf cap). Qed.

Lemma demo_pair_wf : val_wf demo_pair_val.
Proof. simpl. unfold is_u32, is_u64, bytes_ok. split_and!; try lia. repeat constructor; try lia. Qed.

Lemma encode_value_exact_witness :
  ∃ st need out,
    geas_wire_encode_value (Some demo_pair) true 64 true demo_mem = Ret (st, need, out) demo_mem ∧
    match st with
    | GEAS_OK => encodable demo_pair_val = true ∧ true = true ∧ out = enc demo_pair_val ∧
        need = Some (zlen (enc demo_pair_val)) ∧ zlen out <= 64
    | GEAS_ERR_TYPE => encodable demo_pair_val = false ∧ need = None ∧ out = []
    | GEAS_ERR_OOM => out = [] ∧
        (need = Some (zlen (enc demo_pair_val)) ∧ (true = false ∨ 64 < zlen (enc demo_pair_val)) ∨
         need = None ∧ U64_MAX < zlen (enc demo_pair_val))
    | _ => False
    end.
Proof.
  apply encode_value_exact.
  - apply demo_pair_wf.
  - apply demo_pair_repr.
  - split; vm_compute; congruence.
Defined.

Lemma decode_value_run owner bytes len m o :
  bytes_ok bytes → 0 <= len <= zlen bytes → buffer_fits (take (Z.to_nat len) bytes) →
  mem_wf m → live owner m →
  wp (geas_wire_decode_value owner (Some bytes) len (Some o)) m (λ '(st, out, used) m', ∃ hn,
    grown owner m hn m' ∧
    match st with
    | GEAS_OK => ∃ t v, out = Some v ∧ repr hn v t ∧
        dec 64 (take (Z.to_nat len) bytes) = Some (t, drop (Z.to_nat used) (take (Z.to_nat len) bytes)) ∧
        0 <= used <= len
    | GEAS_ERR_TYPE => dec 64 (take (Z.to_nat len) bytes) = None ∧ out = Some gzero ∧ used = 0
    | GEAS_ERR_OOM => refused m m' ∧ out = Some gzero ∧ used = 0
    | _ => False
    end).
Proof.
  intros Hb Hlen Hf Hwf Hl. unfold geas_wire_decode_value.
  rewrite (proj2 (Z.eqb_neq owner 0)) by apply Hl. set (bs := take (Z.to_nat len) bytes) in *.
  assert (Hbs : bytes_ok bs) by (by apply Forall_take).
  assert (Hzl : zlen bs = len) by (unfold bs, zlen in *; rewrite length_take; lia).
  apply wp_bind. eapply wp_mono; [by apply (decode_rec_run owner 64 ltac:(lia) bs o m)|].
  intros [[st c] v] m1 (hn & G & Hres). destruct st; try done; apply wp_ret; exists hn; (split; [done|]); auto.
  destruct Hres as (t & Hd & Hr). exists t, v. split_and!; auto.
  - destruct (dec_canon _ _ _ _ Hbs Hd) as (E & _). rewrite Hd. do 2 f_equal.
    rewrite E. rewrite drop_app_length'; [done|]. rewrite <- Hzl, E, zlen_app. unfold zlen. lia.
  - destruct (dec_canon _ _ _ _ Hbs Hd) as (E & _). rewrite <- Hzl, E, zlen_app. unfold zlen. lia.
  - unfold zlen. lia.
Qed.

Lemma decode_value_full owner bytes len m o :
  bytes_ok bytes → 0 <= len <= zlen bytes → buffer_fits (take (Z.to_nat len) bytes) →
  mem_wf m → live owner m →
  ∃ st out used m' hn,
    geas_wire_decode_value owner (Some bytes) len (Some o) m = Ret (st, out, used) m' ∧
    grown owner m hn m' ∧
    match st with
    | GEAS_OK => ∃ t v, out = Some v ∧ repr hn v t ∧ wire_shape true t = true ∧ val_wf t ∧
        (height t ≤ 64)%nat ∧ used = zlen (enc t) ∧ used <= len ∧
        take (Z.to_nat used) bytes = enc t
    | GEAS_ERR_TYPE => out = Some gzero ∧ used = 0 ∧
        ∀ t rest, val_wf t → wire_shape true t = true → (height t ≤ 64)%nat →
          take (Z.to_nat len) bytes ≠ enc t ++ rest
    | GEAS_ERR_OOM => out = Some gzero ∧ used = 0 ∧ refused m m'
    | _ => False
    end.
Proof.
  intros Hb Hlen Hf Hwf Hl. pose proof (decode_value_run owner bytes len m o Hb Hlen Hf Hwf Hl) as H.
  apply wp_run in H as ([[st out] used] & m' & Hrun & hn & G & Hres).
  exists st, out, used, m', hn. split_and!; [done|done|].
  destruct st; try done.
  - destruct Hres as (t & v & -> & Hr & Hd & Hu). exists t, v.
    destruct (dec_canon _ _ _ _ (Forall_take _ _ _ Hb) Hd) as (E & Hs & Hwt & Hh).
    assert (Eu : used = zlen (enc t)).
    { apply (f_equal zlen) in E. rewrite zlen_app in E. unfold zlen in *.
      rewrite length_drop, length_take in E. lia. }
    split_and!; auto; [lia|]. apply (f_equal (take (Z.to_nat used))) in E.
    rewrite take_take, Nat.min_l in E by lia. rewrite E, Eu. unfold zlen.
    by rewrite Nat2Z.id, take_app_length.
  - destruct Hres as (Hd & -> & ->). split_and!; auto. intros t rest Hwt Hs Hh E.
    by rewrite E, dec_enc in Hd.
  - destruct Hres as (? & -> & ->). by split_and!.
Qed.

(** C1: [geas_wire_decode_value] on any untrusted bytes completes inside defined
    behaviour and allocates only on the owner.  It answers GEAS_OK exactly with
    the value whose canonical byte string the buffer starts with, that string's
    length consumed; GEAS_ERR_TYPE exactly when the buffer starts with no
    canonical string within the depth cap; GEAS_ERR_OOM only on a refused
    allocation; and on error the result reads as a zeroed Unit. *)
Theorem decode_value_correct owner bytes len m o :
  bytes_ok bytes → 0 <= len <= zlen bytes → buffer_fits (take (Z.to_nat len) bytes) →
  mem_wf m → live owner m →
  ∃ st out used m' hn,
    geas_wire_decode_value owner (Some bytes) len (Some o) m = Ret (st, out, used) m' ∧
    grown owner m hn m' ∧
    match st with
    | GEAS_OK => ∃ t v, out = Some v ∧ repr hn v t ∧ wire_shape true t = true ∧ val_wf t ∧
        (height t ≤ 64)%nat ∧ used = zlen (enc t) ∧ used <= len ∧
        take (Z.to_nat used) bytes = enc t
    | GEAS_ERR_TYPE => out = Some gzero ∧ used = 0 ∧
        ∀ t rest, val_wf t → wire_shape true t = true → (height t ≤ 64)%nat →
          take (Z.to_nat len) bytes ≠ enc t ++ rest
    | GEAS_ERR_OOM => out = Some gzero ∧ used = 0 ∧ refused m m'
    | _ => False
    end.
Proof. exact (decode_value_full owner bytes len m o). Qed.

Lemma decode_value_correct_witness :
  let bytes := enc demo_pair_val ++ [1; 2; 3] in
  ∃ st out used m' hn,
    geas_wire_decode_value 2 (Some bytes) 53 (Some gzero) demo_mem = Ret (st, out, used) m' ∧
    grown 2 demo_mem hn m' ∧
    match st with
    | GEAS_OK => ∃ t v, out = Some v ∧ repr hn v t ∧ wire_shape true t = true ∧ val_wf t ∧
        (height t ≤ 64)%nat ∧ used = zlen (enc t) ∧ used <= 53 ∧
        take (Z.to_nat used) bytes = enc t
    | GEAS_ERR_TYPE => out = Some gzero ∧ used = 0 ∧
        ∀ t rest, val_wf t → wire_shape true t = true → (height t ≤ 64)%nat →
          take (Z.to_nat 53) bytes ≠ enc t ++ rest
    | GEAS_ERR_OOM => out = Some gzero ∧ used = 0 ∧ refused demo_mem m'
    | _ => False
    end.
Proof.
  apply decode_value_correct.
  - unfold bytes_ok. apply (bool_decide_unpack _). vm_compute. exact I.
  - split; vm_compute; congruence.
  - vm_compute. congruence.
  - apply demo_mem_wf.
  - apply demo_live.
Defined.

(** C23: decoding inverts encoding.  Whatever [geas_wire_encode_value] wrote for a
    value without a repeated map key decodes, with anything appended, to the
    same value tree in fresh blocks of the owner, exactly its bytes consumed,
    unless an allocation is refused. *)
Theorem encode_then_decode m v t cap need out owner rest o m1 :
  val_wf t → wire_shape true t = true → repr (heap m) v t → 0 <= cap <= U64_MAX →
  geas_wire_encode_value (Some v) true cap true m = Ret (GEAS_OK, need, out) m →
  bytes_ok rest → buffer_fits (out ++ rest) → mem_wf m1 → live owner m1 → no_oom m1 →
  ∃ v' m' hn,
    geas_wire_decode_value owner (Some (out ++ rest)) (zlen (out ++ rest)) (Some o) m1
      = Ret (GEAS_OK, Some v', zlen out) m' ∧
    grown owner m1 hn m' ∧ repr hn v' t.
Proof.
  intros Hwf Hs Hr Hcap Henc Hrest Hf Hwf1 Hl Hno.
  destruct (encode_value_run m v t true cap Hwf Hr Hcap) as (st & nd & o' & Hrun & Hpost).
  rewrite Hrun in Henc. injection Henc as -> -> ->. destruct Hpost as (He & _ & -> & _).
  apply andb_true_iff in He as [_ Hh]. apply Nat.leb_le in Hh.
  assert (Hd : dec 64 (enc t ++ rest) = Some (t, rest)) by (by apply dec_enc).
  set (all := enc t ++ rest) in *.
  assert (Hall : bytes_ok all) by (apply bytes_app; split; [by apply enc_bytes|done]).
  assert (Htk : take (Z.to_nat (zlen all)) all = all).
  { unfold zlen. by rewrite Nat2Z.id, firstn_all. }
  pose proof (decode_value_run owner all (zlen all) m1 o Hall) as H.
  rewrite Htk in H. specialize (H ltac:(unfold zlen; lia) Hf Hwf1 Hl).
  apply wp_run in H as ([[st out] used] & m' & Hrun' & hn & G & Hres). rewrite Hd in Hres.
  destruct st; try done; [| |by destruct Hres as [?%no_oom_refused _]]; [|by destruct Hres].
  destruct Hres as (t' & v' & -> & Hrv & [= <- Hrest'] & Hu). exists v', m', hn.
  split_and!; auto. rewrite Hrun'. do 2 f_equal.
  assert (length rest = length all - Z.to_nat used)%nat by (rewrite Hrest', length_drop; done).
  unfold all, zlen in *. rewrite length_app in *. lia.
Qed.

Lemma encode_then_decode_witness :
  ∃ v' m' hn,
    geas_wire_decode_value 2 (Some (enc demo_pair_val ++ [9])) (zlen (enc demo_pair_val ++ [9])) (Some gzero) demo_mem
      = Ret (GEAS_OK, Some v', zlen (enc demo_pair_val)) m' ∧
    grown 2 demo_mem hn m' ∧ repr hn v' demo_pair_val.
Proof.
  eapply (encode_then_decode demo_mem demo_pair demo_pair_val 64 _ (enc demo_pair_val) 2 [9] gzero demo_mem).
  - apply demo_pair_wf.
  - vm_compute. reflexivity.
  - apply demo_pair_repr.
  - split; vm_compute; congruence.
  - vm_compute. reflexivity.
  - unfold bytes_ok. apply (bool_decide_unpack _). vm_compute. exact I.
  - vm_compute. congruence.
  - apply demo_mem_wf.
  - apply demo_live.
  - intros n z. reflexivity.
Defined.

(** The format is canonical.  Whatever bytes [geas_wire_decode_value]
    accepts, encoding the value it built writes those same bytes back: a value
    has one byte string, and no two strings decode to the same value. *)
Theorem decode_then_encode owner bytes len m o v used m' cap :
  bytes_ok bytes → 0 <= len <= zlen bytes → buffer_fits (take (Z.to_nat len) bytes) →
  mem_wf m → live owner m →
  geas_wire_decode_value owner (Some bytes) len (Some o) m = Ret (GEAS_OK, Some v, used) m' →
  used <= cap <= U64_MAX →
  geas_wire_encode_value (Some v) true cap true m' =
    Ret (GEAS_OK, Some used, take (Z.to_nat used) bytes) m'.
Proof.
  intros Hb Hlen Hf Hwf Hl Hrun Hcap.
  destruct (decode_value_full owner bytes len m o Hb Hlen Hf Hwf Hl)
    as (st & out & u & m2 & hn & Hrun2 & G & Hres).
  rewrite Hrun in Hrun2. injection Hrun2 as <- <- <- <-.
  destruct Hres as (t & v' & [= <-] & Hr & Hs & Hwt & Hh & Hu & Hle & Htk).
  assert (Hr' : repr (heap m') v t) by (eapply repr_mono; [by eapply grown_incl_new|done]).
  rewrite Htk, Hu. apply encode_value_ok; try done; [|unfold zlen in *; lia..].
  unfold encodable. rewrite (proj2 (Nat.leb_le _ _)), andb_true_r by done. by apply strict_shape.
Qed.

Lemma decode_then_encode_witness :
  ∃ v m', geas_wire_decode_value 2 (Some (enc demo_pair_val)) 50 (Some gzero) demo_mem
            = Ret (GEAS_OK, Some v, 50) m' ∧
  geas_wire_encode_value (Some v) true 50 true m' =
    Ret (GEAS_OK, Some 50, take (Z.to_nat 50) (enc demo_pair_val)) m'.
Proof.
  eexists _, _. split; [vm_compute; reflexivity|].
  eapply (decode_then_encode 2 (enc demo_pair_val) 50 demo_mem gzero).
  - unfold bytes_ok. apply (bool_decide_unpack _). vm_compute. exact I.
  - split; vm_compute; congruence.
  - vm_compute. congruence.
  - apply demo_mem_wf.
  - apply demo_live.
  - vm_compute. reflexivity.
  - split; vm_compute; congruence.
Defined.
End Values.
