(* ===== verification/TypeProps.v ===== *)
(** * Types are kept

    The runtime's own typing of values, the element tag of a list and the key tag
    of a map against what they hold, all the way down; and that every operation
    that makes or changes a value keeps it, or answers GEAS_ERR_TYPE. *)
From S2P Require Import Prelude Abi Memory Value ValueSpec ValueProps Wire WireSpec WireProps.

(** ** The judgement *)

(** What a sequence's element tag says of its slots. *)
Definition elems_typed (k : GeasTypeTag) (e : Z) (els : list val) : Prop :=
  match k with
  | GEAS_TY_LIST => Forall (λ t, tag_num (val_ty t) = e) els
  | GEAS_TY_MAP => ∃ kvs, els = flat kvs ∧ Forall (λ p, tag_num (val_ty p.1) = e) kvs
  | _ => True
  end.
Inductive typed : val → Prop :=
| typed_scalar k tg w : typed (VScalar k tg w)
| typed_string tg bs : typed (VString tg bs)
| typed_seq k tg e els : elems_typed k e els → Forall typed els → typed (VSeq k tg e els)
| typed_none k tg : typed (VBox k tg None)
| typed_some k tg t : typed t → typed (VBox k tg (Some t)).
Create HintDb typing.
#[local] Hint Constructors typed : typing.

Lemma val_ty_scrub t : val_ty (scrub t) = val_ty t.
Proof. by destruct t as [| | |? ? []]. Qed.

Lemma flat_map_kvs (f : val → val) kvs : map f (flat kvs) = flat (map (λ p, (f p.1, f p.2)) kvs).
Proof. induction kvs as [|[k v] kvs IH]; simpl; [done|]. by rewrite IH. Qed.

Lemma elems_scrub k e els : elems_typed k e els → elems_typed k e (map scrub els).
Proof.
  destruct k; try done; simpl.
  - intros H. apply Forall_map. eapply Forall_impl; [exact H|]. intros t. by rewrite val_ty_scrub.
  - intros (kvs & -> & H). rewrite flat_map_kvs. eexists. split; [done|]. apply Forall_map.
    eapply Forall_impl; [exact H|]. intros [x y]. simpl. by rewrite val_ty_scrub.
Qed.

Lemma typed_seq_inv k tg e els : typed (VSeq k tg e els) → elems_typed k e els ∧ Forall typed els.
Proof. by inversion 1. Qed.

Lemma typed_scrub t : typed t → typed (scrub t).
Proof.
  induction t as [|tg bs|k tg e els IH|k tg|k tg t IH] using val_ind'; intros Ht; simpl; auto with typing.
  - apply typed_seq_inv in Ht as [He Hels]. constructor; [by apply elems_scrub|]. apply Forall_map.
    rewrite Forall_forall in IH |- *. rewrite Forall_forall in Hels. auto.
  - inversion Ht; subst. auto with typing.
Qed.

(** A map's pairs: keys of the key tag, both sides typed. *)
Definition pairs_typed (e : Z) (kvs : list (val * val)) : Prop :=
  Forall (λ p, tag_num (val_ty p.1) = e ∧ typed p.1 ∧ typed p.2) kvs.
Lemma pairs_typed_map tg e kvs : pairs_typed e kvs ↔ typed (VSeq GEAS_TY_MAP tg e (flat kvs)).
Proof.
  assert (E : Forall typed (flat kvs) ↔ Forall (λ p, typed p.1 ∧ typed p.2) kvs).
  { induction kvs as [|[k v] kvs IH]; simpl; rewrite ?Forall_nil, ?Forall_cons, ?IH; simpl; tauto. }
  unfold pairs_typed. rewrite Forall_and, <- E. split.
  - intros [He Ht]. constructor; [by exists kvs|done].
  - intros [(kvs' & Ef & He) Ht]%typed_seq_inv. split; [|done]. clear E Ht. revert kvs' Ef He.
    induction kvs as [|[k v] kvs IH]; intros [|[k' v'] kvs'] Ef He; simplify_eq/=; [constructor|].
    apply Forall_cons in He as [? He]. constructor; [done|by eapply IH].
Qed.

Lemma typed_amap_set e kvs k v : pairs_typed e kvs → tag_num (val_ty k) = e → typed k → typed v →
  pairs_typed e (amap_set kvs k v).
Proof.
  intros H He Hk Hv. induction H as [|[k' v'] kvs (? & ? & ?) Hkvs IH]; simpl in *; [by repeat constructor|].
  destruct (veq k' k); by constructor.
Qed.

(** ** What the decoder accepts *)

Lemma even_flat n : ∀ els : list val, length els = (2 * n)%nat → ∃ kvs, els = flat kvs.
Proof.
  induction n as [|n IH]; intros [|x [|y els]] Hl; simpl in Hl; try lia; [by exists []|].
  destruct (IH els) as (kvs & ->); [lia|]. by exists ((x, y) :: kvs).
Qed.

Lemma map_keys_typed e kvs : ∀ pre, Nat.even (length pre) = true →
  slots_ok true GEAS_TY_MAP e pre (flat kvs) = true → Forall (λ p, tag_num (val_ty p.1) = e) kvs.
Proof.
  induction kvs as [|[k v] kvs IH]; intros pre Hp H; [constructor|]. cbn [flat slots_ok slot_ok fst] in H.
  rewrite Hp in H. cbn [negb orb] in H. apply andb_true_iff in H as [Hk H]. apply andb_true_iff in H as [_ H].
  apply andb_true_iff in Hk as [Hk _]. constructor; [by apply Z.eqb_eq|]. eapply IH; [|exact H].
  rewrite !length_app, !Nat.even_add, Hp. done.
Qed.

Lemma list_elems_typed e els : ∀ pre, slots_ok true GEAS_TY_LIST e pre els = true → Forall (λ t, tag_num (val_ty t) = e) els.
Proof.
  induction els as [|t els IH]; intros pre H; [constructor|]. cbn [slots_ok slot_ok] in H.
  apply andb_true_iff in H as [Ht H]. constructor; [by apply Z.eqb_eq|by eapply IH].
Qed.

Lemma wire_typed t : wire_shape true t = true → typed t.
Proof.
  induction t as [|tg bs|k tg e els IH|k tg|k tg t IH] using val_ind'; intros H; auto with typing.
  - rewrite wire_shape_seq in H. apply andb_true_iff in H as [H Hs]. apply andb_true_iff in H as [Hsh Hsl].
    constructor.
    + destruct k; try done; simpl.
      * by eapply list_elems_typed.
      * unfold seq_shape in Hsh. apply andb_true_iff in Hsh as [_ Hev]. apply Z.eqb_eq in Hev.
        destruct (even_flat (length els / 2) els) as (kvs & ->).
        { pose proof (Nat.div_mod_eq (length els) 2). assert (length els mod 2 = 0)%nat; [|lia].
          apply Nat2Z.inj. rewrite Nat2Z.inj_mod. done. }
        exists kvs. split; [done|]. by eapply (map_keys_typed e kvs []).
    + clear Hsh Hsl. induction IH as [|x els Hx _ IHl]; [constructor|]. simpl in Hs.
      apply andb_true_iff in Hs as [? ?]. constructor; auto.
  - simpl in H. apply andb_true_iff in H as [_ H]. auto with typing.
Qed.

(** ** The claim *)

(** A typed value of type [k] lives at [v]. *)
Definition typed_at (h : gmap Z block) (v : GeasValue) (k : GeasTypeTag) : Prop :=
  ∃ t, repr h v t ∧ typed t ∧ val_ty t = k.

(** A list or a map whose array holds typed elements is typed. *)
Lemma seq_typed_at k h l e els : seq_tag k = true → seq_at k h l e els → elems_typed k e els → Forall typed els →
  typed_at h l k.
Proof.
  intros Hk Hs He Ht. exists (VSeq k (tag l) e els). split; [by apply seq_at_repr|]. split; [by constructor|done].
Qed.

Lemma list_snoc_typed tg e els te : typed (VSeq GEAS_TY_LIST tg e els) → typed te → tag_num (val_ty te) = e →
  elems_typed GEAS_TY_LIST e (els ++ [te]) ∧ Forall typed (els ++ [te]).
Proof. intros [He Ht]%typed_seq_inv Hte Hty. split; [|by apply Forall_app_2, Forall_singleton]. by apply Forall_app_2, Forall_singleton. Qed.

Lemma list_set_typed m l i e els te tg : seq_at GEAS_TY_LIST (heap m) l (l_elem l) els →
  typed (VSeq GEAS_TY_LIST tg (l_elem l) els) → repr (delete (l_data l) (heap m)) e te → typed te → 0 <= i →
  wp (geas_list_set (Some l) i (Some e)) m (λ st m', typed_at (heap m') l GEAS_TY_LIST ∧
    (st = GEAS_OK ↔ ty e = l_elem l ∧ i < l_len l) ∧ (st ≠ GEAS_OK → st = GEAS_ERR_TYPE ∧ m' = m)).
Proof.
  intros Hs Hty Hr Hte Hi. pose proof (typed_seq_inv _ _ _ _ Hty) as [He Ht].
  assert (Keep : ∀ P : Prop, ¬ P → wp (ret GEAS_ERR_TYPE) m (λ st m', typed_at (heap m') l GEAS_TY_LIST ∧
    (st = GEAS_OK ↔ P) ∧ (st ≠ GEAS_OK → st = GEAS_ERR_TYPE ∧ m' = m))).
  { intros P HP. apply wp_ret. split; [by eapply seq_typed_at|]. split; [|done]. split; [done|by intros ?%HP]. }
  unfold geas_list_set, is_ty. rewrite (sa_ty _ _ _ _ _ Hs), Z.eqb_refl. cbn [negb].
  destruct (Z.eqb_spec (ty e) (l_elem l)) as [E|]; cbn [negb]; [|apply Keep; tauto].
  destruct (Z.leb_spec (l_len l) i) as [Hle|Hlt]; [apply Keep; lia|].
  destruct Hs as [S1 _ S3 S4 S5 S6]. destruct S6 as [S6|(Hd & slots & Hsl & Hc & Hrs)]; [lia|].
  apply wp_bind. eapply wp_store_slot; [exact Hsl|lia|]. apply wp_ret. split; [|by split].
  apply (seq_typed_at _ _ _ (l_elem l) (<[Z.to_nat i := te]> els)); [done| | |by apply Forall_insert].
  - split; rewrite ?length_insert; auto. right. split; [done|]. exists (<[Z.to_nat i := e]> slots). simpl.
    split; [apply lookup_insert_eq|]. rewrite length_insert, delete_insert_eq. split; [done|].
    apply reprs_insert; [done|lia|done].
  - apply Forall_insert; [done|]. by rewrite <- (repr_ty _ _ _ Hr).
Qed.

(** C3: the runtime's typing is kept.  A deep copy of a typed value is typed and
    of the same type; pushing onto a typed list or storing into it, and setting in
    a typed map, leave it typed, and an element or key of another type than the
    list's or the map's own is GEAS_ERR_TYPE with nothing changed; and every value
    decoded from untrusted bytes is typed. *)
Theorem values_stay_typed c m : mem_wf m → live c m →
  (∀ fuel src dst t, repr (heap m) src t → typed t → (height t ≤ fuel)%nat →
     wp (geas_value_deep_copy fuel c (Some src) dst) m (λ r m',
       r.1 = GEAS_OK → typed_at (heap m') r.2 (val_ty t))) ∧
  (∀ l e els te, seq_at GEAS_TY_LIST (heap m) l (l_elem l) els → typed (VSeq GEAS_TY_LIST (tag l) (l_elem l) els) →
     repr (delete (l_data l) (heap m)) e te → typed te →
     (l_len l = l_cap l → fits_slots (Z.to_nat (Z.max 4 (l_cap l * 2)))) →
     wp (geas_list_push c (Some l) (Some e)) m (λ r m', if ty e =? l_elem l
       then r.1 = GEAS_OK → ∃ l', r.2 = Some l' ∧ typed_at (heap m') l' GEAS_TY_LIST
       else r = (GEAS_ERR_TYPE, Some l) ∧ m' = m)) ∧
  (∀ l i e els te, seq_at GEAS_TY_LIST (heap m) l (l_elem l) els → typed (VSeq GEAS_TY_LIST (tag l) (l_elem l) els) →
     repr (delete (l_data l) (heap m)) e te → typed te → 0 <= i →
     wp (geas_list_set (Some l) i (Some e)) m (λ st m', typed_at (heap m') l GEAS_TY_LIST ∧
       (st = GEAS_OK ↔ ty e = l_elem l ∧ i < l_len l) ∧ (st ≠ GEAS_OK → st = GEAS_ERR_TYPE ∧ m' = m))) ∧
  (∀ fuel mv k v kvs tk tv, seq_at GEAS_TY_MAP (heap m) mv (l_elem mv) (flat kvs) →
     typed (VSeq GEAS_TY_MAP (tag mv) (l_elem mv) (flat kvs)) →
     repr (heap m) k tk → repr (heap m) v tv → typed tk → typed tv →
     (height tk ≤ fuel)%nat → (height tv ≤ fuel)%nat → (∀ p, p ∈ kvs → (height p.1 ≤ fuel)%nat) →
     (l_cap mv < l_len mv + 2 → fits_slots (Z.to_nat (Z.max 8 (l_cap mv * 2)))) →
     wp (geas_map_set fuel c (Some mv) (Some k) (Some v)) m (λ r m', if ty k =? l_elem mv
       then r.1 = GEAS_OK → ∃ mv', r.2 = Some mv' ∧ typed_at (heap m') mv' GEAS_TY_MAP
       else r = (GEAS_ERR_TYPE, Some mv) ∧ m' = m)) ∧
  (∀ bytes len o, bytes_ok bytes → 0 <= len <= zlen bytes → buffer_fits (take (Z.to_nat len) bytes) →
     wp (geas_wire_decode_value c (Some bytes) len (Some o)) m (λ '(st, out, _) m',
       st = GEAS_OK → ∃ v k, out = Some v ∧ typed_at (heap m') v k)).
Proof.
  intros Hwf Hl. split_and!.
  - intros fuel src dst t Hr Ht Hf. eapply wp_mono; [by apply (wp_deep_copy t fuel c Hf src dst m Hwf Hl)|].
    intros [st d] m' (hn & G & [[-> Hd]|[-> _]]) Hok; [|done]. exists (scrub t).
    split; [|by split; [apply typed_scrub|apply val_ty_scrub]]. eapply repr_mono; [by eapply grown_incl_new|done].
  - intros l e els te Hs Hty Hr Hte Hf. destruct (Z.eqb_spec (ty e) (l_elem l)) as [E|E].
    + eapply wp_mono; [by eapply wp_list_push|]. intros r m' [_ [(_ & l' & Hr2 & Ht & Hs' & _)|(-> & _)]] Hok; [|done].
      exists l'. split; [done|]. destruct (list_snoc_typed _ _ _ te Hty Hte) as [A B]; [by rewrite <- (repr_ty _ _ _ Hr)|].
      by eapply seq_typed_at.
    + unfold geas_list_push, is_ty. rewrite (proj2 (Z.eqb_neq c 0)) by apply Hl.
      rewrite (sa_ty _ _ _ _ _ Hs), Z.eqb_refl, (proj2 (Z.eqb_neq _ _)) by done. by apply wp_ret.
  - intros l i e els te Hs Hty Hr Hte Hi. by eapply list_set_typed.
  - intros fuel mv k v kvs tk tv Hs Hty Hk Hv Htk Htv Hfk Hfv Hfs Hfit. destruct (Z.eqb_spec (ty k) (l_elem mv)) as [E|E].
    + eapply wp_mono; [by eapply (wp_map_set fuel c m Hwf Hl mv kvs k tk v tv)|].
      intros r m' [_ [(_ & mv' & Hr2 & Hs' & _)|(-> & _)]] Hok; [|done].
      assert (Hp : pairs_typed (l_elem mv) (amap_set kvs (scrub tk) (scrub tv))).
      { apply typed_amap_set; [by eapply pairs_typed_map|rewrite val_ty_scrub; by rewrite <- (repr_ty _ _ _ Hk)|by apply typed_scrub..]. }
      apply (pairs_typed_map (tag mv')), typed_seq_inv in Hp as [A B]. exists mv'. split; [done|]. by eapply seq_typed_at.
    + unfold geas_map_set, is_ty. rewrite (proj2 (Z.eqb_neq c 0)) by apply Hl.
      rewrite (sa_ty _ _ _ _ _ Hs), Z.eqb_refl, (proj2 (Z.eqb_neq _ _)) by done. by apply wp_ret.
  - intros bytes len o Hb Hlen Hf. destruct (decode_value_full c bytes len m o Hb Hlen Hf Hwf Hl)
      as (st & out & used & m' & hn & Hrun & G & Hres). unfold wp. rewrite Hrun. intros ->.
    destruct Hres as (t & v & -> & Hr & Hs & _). exists v, (val_ty t). split; [done|]. exists t.
    split; [eapply repr_mono; [by eapply grown_incl_new|done]|]. split; [by apply wire_typed|done].
Qed.

Lemma demo_list_at : seq_at GEAS_TY_LIST (heap demo_mem) demo_list (l_elem demo_list) [VScalar GEAS_TY_INT 0 7].
Proof.
  split; try done. right. split; [done|]. eexists. split_and!; [reflexivity|done|].
  intros [|[|i]] t Ht; simplify_eq/=. eexists. split; [reflexivity|]. by split_and!.
Qed.

Lemma values_stay_typed_witness :
  wp (geas_list_push 1 (Some demo_list) (Some (g_scalar GEAS_TY_INT 8))) demo_mem
    (λ r m', r.1 = GEAS_OK → ∃ l', r.2 = Some l' ∧ typed_at (heap m') l' GEAS_TY_LIST) ∧
  wp (geas_list_push 1 (Some demo_list) (Some hi_text)) demo_mem
    (λ r m', r = (GEAS_ERR_TYPE, Some demo_list) ∧ m' = demo_mem).
Proof.
  destruct (values_stay_typed 1 demo_mem) as (_ & P & _); [apply demo_mem_wf|split; [done|by eexists]|].
  assert (T : typed (VSeq GEAS_TY_LIST (tag demo_list) (l_elem demo_list) [VScalar GEAS_TY_INT 0 7])).
  { constructor; [by repeat constructor|repeat constructor]. }
  split.
  - refine (P demo_list (g_scalar GEAS_TY_INT 8) _ (VScalar GEAS_TY_INT 0 8) demo_list_at T _ _ _);
      [by split_and!|constructor|by vm_compute].
  - refine (P demo_list hi_text _ (VString 0 [104; 105]) demo_list_at T _ _ _); [|constructor|by vm_compute].
    split_and!; try done. right. split; [done|]. by exists [104; 105].
Defined.
