(* ===== verification/Iname.v ===== *)
(** * The registry: descriptors, the iname table, bindings, modules

    [runtime.c], the sections "iname table", "the iname surface" and the
    registration half of "runtime lifecycle" and "pledges".  The tables of
    [struct GeasRuntime] that the runtime lock guards are one record; every
    operation runs with the lock held, so it is a function of that record.
    [malloc] is a parameter: the n-th request of a given size succeeds or not. *)
From S2P Require Import Prelude Abi.

Definition GEAS_MAX_CONTRACT_TYPES : nat := 64.
Definition GEAS_MAX_MODULES : nat := 64.
Definition GEAS_MAX_BINDINGS : nat := 128.

Inductive GeasInameKind := GEAS_INAME_CONTRACT | GEAS_INAME_PLEDGE.
#[export] Instance GeasInameKind_eq_dec : EqDecision GeasInameKind.
Proof. solve_decision. Defined.

Record GeasInameEntry := InameEntry {
  ie_mangled : string;
  ie_kind : GeasInameKind;
  ie_contract : string;
  ie_symbol : option string;
  ie_shape_hash : Z;
  ie_version : Z;
  ie_nargs : Z
}.

(** A pledge descriptor's address: its contract and its index there.  Registered
    contracts have distinct names, so this is pointer identity. *)
Definition pledge_ptr : Type := string * nat.

Record GeasBinding := Binding { b_pd : pledge_ptr; b_fn : Z }.

Record GeasRuntime := Runtime {
  descs : list GeasContractDesc;
  modules : list Z;                       (* dlopen handles *)
  bindings : list GeasBinding;
  inames : list GeasInameEntry;
  iname_cap : Z;
  frozen : bool;
  closed : list Z;                        (* handles dlclose was called on *)
  r_ticks : nat;
  r_malloc : nat → Z → bool
}.

Definition with_inames (l : list GeasInameEntry) (rt : GeasRuntime) : GeasRuntime :=
  Runtime (descs rt) (modules rt) (bindings rt) l (iname_cap rt) (frozen rt) (closed rt)
    (r_ticks rt) (r_malloc rt).
Definition with_cap (c : Z) (rt : GeasRuntime) : GeasRuntime :=
  Runtime (descs rt) (modules rt) (bindings rt) (inames rt) c (frozen rt) (closed rt)
    (r_ticks rt) (r_malloc rt).
Definition with_descs (l : list GeasContractDesc) (rt : GeasRuntime) : GeasRuntime :=
  Runtime l (modules rt) (bindings rt) (inames rt) (iname_cap rt) (frozen rt) (closed rt)
    (r_ticks rt) (r_malloc rt).
Definition with_bindings (l : list GeasBinding) (rt : GeasRuntime) : GeasRuntime :=
  Runtime (descs rt) (modules rt) l (inames rt) (iname_cap rt) (frozen rt) (closed rt)
    (r_ticks rt) (r_malloc rt).
Definition with_frozen (b : bool) (rt : GeasRuntime) : GeasRuntime :=
  Runtime (descs rt) (modules rt) (bindings rt) (inames rt) (iname_cap rt) b (closed rt)
    (r_ticks rt) (r_malloc rt).
Definition with_modules (l : list Z) (rt : GeasRuntime) : GeasRuntime :=
  Runtime (descs rt) l (bindings rt) (inames rt) (iname_cap rt) (frozen rt) (closed rt)
    (r_ticks rt) (r_malloc rt).
(** [dlclose] *)
Definition close_handle (h : Z) (rt : GeasRuntime) : GeasRuntime :=
  Runtime (descs rt) (modules rt) (bindings rt) (inames rt) (iname_cap rt) (frozen rt)
    (h :: closed rt) (r_ticks rt) (r_malloc rt).

(** One allocation request of [n] bytes. *)
Definition r_alloc (n : Z) (rt : GeasRuntime) : bool * GeasRuntime :=
  (r_malloc rt (r_ticks rt) n,
   Runtime (descs rt) (modules rt) (bindings rt) (inames rt) (iname_cap rt) (frozen rt)
     (closed rt) (S (r_ticks rt)) (r_malloc rt)).

(** ** The table *)

(** The binary search.  [hi - lo] halves, so the number of entries is enough
    fuel ([InameSpec.iname_find_spec]); [None] is fuel running out or a read
    past the table. *)
Fixpoint iname_find_go (fuel : nat) (l : list GeasInameEntry) (mangled : string)
    (lo hi : nat) : option (bool * nat) :=
  if (lo <? hi)%nat then
    match fuel with
    | O => None
    | S fuel' =>
        let mid := (lo + (hi - lo) / 2)%nat in
        match l !! mid with
        | None => None
        | Some e =>
            match strcmp (ie_mangled e) mangled with
            | Eq => Some (true, mid)
            | Lt => iname_find_go fuel' l mangled (mid + 1) hi
            | Gt => iname_find_go fuel' l mangled lo mid
            end
        end
    end
  else Some (false, lo).

Definition iname_find (rt : GeasRuntime) (mangled : string) : option (bool * nat) :=
  iname_find_go (length (inames rt)) (inames rt) mangled 0 (length (inames rt)).

Definition sizeof_GeasInameEntry : Z := 48.

(** [memmove] of the tail up one slot, then the store at [pos]. *)
Definition insert_at {A} (pos : nat) (x : A) (l : list A) : list A :=
  take pos l ++ x :: drop pos l.

Definition iname_insert (rt : GeasRuntime) (e : GeasInameEntry) : option (GeasStatus * GeasRuntime) :=
  match iname_find rt (ie_mangled e) with
  | None => None
  | Some (true, _) => Some (GEAS_ERR_NAME, rt)
  | Some (false, pos) =>
      if Z.of_nat (length (inames rt)) =? iname_cap rt then
        let cap := if iname_cap rt =? 0 then 16 else u64 (iname_cap rt * 2) in
        let '(ok, rt) := r_alloc (u64 (cap * sizeof_GeasInameEntry)) rt in
        if negb ok then Some (GEAS_ERR_OOM, rt) else
        Some (GEAS_OK, with_inames (insert_at pos e (inames rt)) (with_cap cap rt))
      else Some (GEAS_OK, with_inames (insert_at pos e (inames rt)) rt)
  end.

(** ** Names and numbers in text *)

(** [%016llx] *)
Definition hex_digit (d : Z) : Ascii.ascii :=
  Ascii.ascii_of_N (Z.to_N (if d <? 10 then 48 + d else 87 + d)).
Fixpoint hex_digits (n : nat) (v : Z) (acc : string) : string :=
  match n with
  | O => acc
  | S n' => hex_digits n' (v / 16) (String (hex_digit (v mod 16)) acc)
  end.
Definition hex16 (v : Z) : string := hex_digits 16 (u64 v) EmptyString.
(** [%u]: ten digits hold every 32 bit number. *)
Fixpoint dec_digits (fuel : nat) (v : Z) (acc : string) : string :=
  match fuel with
  | O => acc
  | S fuel' =>
      let acc := String (hex_digit (v mod 10)) acc in
      if v <? 10 then acc else dec_digits fuel' (v / 10) acc
  end.
Definition dec_str (v : Z) : string := dec_digits 10 (u32 v) EmptyString.

Definition INT_MAX : Z := 2147483647.

(** [snprintf] answers the length the text needs, negative past [INT_MAX]. *)
Definition printed (s : string) : option string :=
  if INT_MAX <? Z.of_nat (String.length s) then None else Some s.

Definition contract_mangled (desc : GeasContractDesc) : string :=
  "__geas_ash_" +:+ d_name desc +:+ "__" +:+ hex16 (d_shape_hash desc) +:+ "_v" +:+
  dec_str (d_version desc).

Definition iname_contract_mangled (desc : GeasContractDesc) (rt : GeasRuntime)
    : option string * GeasRuntime :=
  match printed (contract_mangled desc) with
  | None => (None, rt)
  | Some s =>
      let '(ok, rt) := r_alloc (Z.of_nat (String.length s) + 1) rt in
      (if ok then Some s else None, rt)
  end.

(** The compaction loop keeps every entry of another contract, in order. *)
Fixpoint remove_entries (contract : string) (l : list GeasInameEntry) : list GeasInameEntry :=
  match l with
  | [] => []
  | e :: l' =>
      if str_eqb (ie_contract e) contract then remove_entries contract l'
      else e :: remove_entries contract l'
  end.

Definition iname_remove_contract (rt : GeasRuntime) (contract : string) : GeasRuntime :=
  with_inames (remove_entries contract (inames rt)) rt.

Definition contract_entry (desc : GeasContractDesc) (cm : string) : GeasInameEntry :=
  InameEntry cm GEAS_INAME_CONTRACT (d_name desc) None (d_shape_hash desc) (d_version desc) 0.
Definition pledge_entry (desc : GeasContractDesc) (pd : GeasPledgeDesc) (m : string)
    : GeasInameEntry :=
  InameEntry m GEAS_INAME_PLEDGE (d_name desc) (Some (p_name pd)) (d_shape_hash desc)
    (d_version desc) (p_nargs pd).

Fixpoint register_pledges (desc : GeasContractDesc) (ps : list GeasPledgeDesc)
    (rt : GeasRuntime) : option (GeasStatus * GeasRuntime) :=
  match ps with
  | [] => Some (GEAS_OK, rt)
  | pd :: ps' =>
      match p_mangled pd with
      | None => register_pledges desc ps' rt
      | Some m =>
          match iname_insert rt (pledge_entry desc pd m) with
          | None => None
          | Some (st, rt) =>
              if negb (st_ok st) then Some (st, iname_remove_contract rt (d_name desc))
              else register_pledges desc ps' rt
          end
      end
  end.

Definition iname_register (rt : GeasRuntime) (desc : GeasContractDesc)
    : option (GeasStatus * GeasRuntime) :=
  match iname_contract_mangled desc rt with
  | (None, rt) => Some (GEAS_ERR_OOM, rt)
  | (Some cm, rt) =>
      match iname_insert rt (contract_entry desc cm) with
      | None => None
      | Some (st, rt) =>
          if negb (st_ok st) then Some (st, rt) else register_pledges desc (d_pledges desc) rt
      end
  end.

(** ** Registration *)

Definition geas_register_contract (rt : GeasRuntime) (desc : GeasContractDesc)
    : option (GeasStatus * GeasRuntime) :=
  if frozen rt then Some (GEAS_ERR_STATE, rt) else
  if (length (descs rt) =? GEAS_MAX_CONTRACT_TYPES)%nat then Some (GEAS_ERR_OOM, rt) else
  if existsb (λ d, str_eqb (d_name d) (d_name desc)) (descs rt)
  then Some (GEAS_ERR_NAME, rt) else
  match iname_register rt desc with
  | None => None
  | Some (st, rt) =>
      if negb (st_ok st) then Some (st, rt)
      else Some (GEAS_OK, with_descs (descs rt ++ [desc]) rt)
  end.

(** The dynamic loader and the module's registrar are the host's: [dlopen]
    answers a handle, [dlsym] the registrar, and the registrar is a run over
    the runtime that ends in a status. *)
Definition registrar : Type := GeasRuntime → option (GeasStatus * GeasRuntime).

Definition geas_module_load (dlopen : string → option Z) (dlsym : Z → option registrar)
    (rt : GeasRuntime) (so_path : string) : option (GeasStatus * GeasRuntime) :=
  if frozen rt then Some (GEAS_ERR_STATE, rt) else
  match dlopen so_path with
  | None => Some (GEAS_ERR_LOAD, rt)
  | Some handle =>
      match dlsym handle with
      | None => Some (GEAS_ERR_LOAD, close_handle handle rt)
      | Some reg =>
          match reg rt with
          | None => None
          | Some (st, rt) =>
              if negb (st_ok st) then Some (st, close_handle handle rt) else
              if (length (modules rt) =? GEAS_MAX_MODULES)%nat
              then Some (GEAS_ERR_OOM, close_handle handle rt)
              else Some (GEAS_OK, with_modules (modules rt ++ [handle]) rt)
          end
      end
  end.

(** The registrar a compiled module carries: its contracts in order, stopping
    at the first refusal. *)
Fixpoint register_all (ds : list GeasContractDesc) : registrar :=
  λ rt, match ds with
        | [] => Some (GEAS_OK, rt)
        | d :: ds' =>
            match geas_register_contract rt d with
            | None => None
            | Some (st, rt) => if negb (st_ok st) then Some (st, rt) else register_all ds' rt
            end
        end.

Definition geas_runtime_freeze (rt : GeasRuntime) : GeasStatus * GeasRuntime :=
  (GEAS_OK, with_frozen true rt).

(** ** The read surface *)

Definition geas_iname_lookup (rt : GeasRuntime) (mangled : string)
    : option (GeasStatus * option GeasInameEntry) :=
  match iname_find rt mangled with
  | None => None
  | Some (true, pos) => Some (GEAS_OK, inames rt !! pos)
  | Some (false, _) => Some (GEAS_ERR_NAME, None)
  end.

Definition geas_iname_count (rt : GeasRuntime) : Z := Z.of_nat (length (inames rt)).

Definition geas_iname_at (rt : GeasRuntime) (i : nat) : GeasStatus * option GeasInameEntry :=
  match inames rt !! i with
  | None => (GEAS_ERR_NAME, None)
  | Some e => (GEAS_OK, Some e)
  end.

Definition newline : string := String (Ascii.ascii_of_nat 10) EmptyString.

Definition kind_text (k : GeasInameKind) : string :=
  match k with GEAS_INAME_CONTRACT => "contract" | GEAS_INAME_PLEDGE => "pledge" end.

Definition iname_line (e : GeasInameEntry) : string :=
  ie_mangled e +:+ " " +:+ kind_text (ie_kind e) +:+ " " +:+ hex16 (ie_shape_hash e) +:+
  " v" +:+ dec_str (ie_version e) +:+ newline.

(** The sizing loop: the NUL, then every line's length. *)
Fixpoint dump_size (l : list GeasInameEntry) (total : Z) : option Z :=
  match l with
  | [] => Some total
  | e :: l' =>
      match printed (iname_line e) with
      | None => None
      | Some s => dump_size l' (total + Z.of_nat (String.length s))
      end
  end.

(** The writing loop; [left] is [cap - off]. *)
Fixpoint dump_write (l : list GeasInameEntry) (left : Z) (out : string) : option string :=
  match l with
  | [] => Some out
  | e :: l' =>
      match printed (iname_line e) with
      | None => None
      | Some s =>
          if left <=? Z.of_nat (String.length s) then None
          else dump_write l' (left - Z.of_nat (String.length s)) (out +:+ s)
      end
  end.

(** Status, [*need] when set, and the text written (its NUL aside). *)
Definition geas_iname_dump (rt : GeasRuntime) (buf : bool) (cap : Z)
    : GeasStatus * option Z * option string :=
  let cap := if buf then cap else 0 in
  match dump_size (inames rt) 1 with
  | None => (GEAS_ERR_OOM, None, None)
  | Some total =>
      if cap <? total then (GEAS_ERR_OOM, Some total, None) else
      match dump_write (inames rt) cap EmptyString with
      | None => (GEAS_ERR_OOM, Some total, None)
      | Some s => (GEAS_OK, Some total, Some s)
      end
  end.

(** ** Descriptor lookups *)

Definition find_desc (rt : GeasRuntime) (name : string) : option GeasContractDesc :=
  List.find (λ d, str_eqb (d_name d) name) (descs rt).

(** The index of the first element a test holds of. *)
Fixpoint find_index {A} (f : A → bool) (l : list A) : option nat :=
  match l with
  | [] => None
  | x :: l' => if f x then Some 0%nat else S <$> find_index f l'
  end.

Definition find_vow_desc (desc : GeasContractDesc) (name : string) : option nat :=
  find_index (λ v, str_eqb (v_name v) name) (d_vows desc).

Definition find_pledge (desc : GeasContractDesc) (name : string) : option nat :=
  find_index (λ p, str_eqb (p_name p) name) (d_pledges desc).

(** [strchr(name, '.')]: the text before the first dot and the text after. *)
Fixpoint split_dot (s : string) : option (string * string) :=
  match s with
  | EmptyString => None
  | String a s' =>
      if Ascii.eqb a (Ascii.ascii_of_nat 46) then Some (EmptyString, s')
      else match split_dot s' with
           | Some (x, y) => Some (String a x, y)
           | None => None
           end
  end.

(** The scan over every pledge of every contract for a mangled name. *)
Fixpoint find_mangled (ds : list GeasContractDesc) (name : string) : option pledge_ptr :=
  match ds with
  | [] => None
  | d :: ds' =>
      match find_index (λ p, match p_mangled p with Some m => str_eqb m name | None => false end)
              (d_pledges d) with
      | Some j => Some (d_name d, j)
      | None => find_mangled ds' name
      end
  end.

Definition resolve_pledge_name (rt : GeasRuntime) (name : string) : option pledge_ptr :=
  match split_dot name with
  | Some (String a pre, String b post) =>
      match List.find (λ d, str_eqb (d_name d) (String a pre)) (descs rt) with
      | Some d => (λ j, (d_name d, j)) <$> find_pledge d (String b post)
      | None => None
      end
  | _ => find_mangled (descs rt) name
  end.

(** ** Bindings *)

Definition pledge_eqb (p q : pledge_ptr) : bool := bool_decide (p = q).

Fixpoint rebind (pd : pledge_ptr) (fn : Z) (l : list GeasBinding) : option (list GeasBinding) :=
  match l with
  | [] => None
  | b :: l' =>
      if pledge_eqb (b_pd b) pd then Some (Binding (b_pd b) fn :: l')
      else (λ r, b :: r) <$> rebind pd fn l'
  end.

Definition geas_pledge_bind (rt : GeasRuntime) (pledge_name : string) (fn : Z)
    : GeasStatus * GeasRuntime :=
  if fn =? 0 then (GEAS_ERR_TYPE, rt) else
  if frozen rt then (GEAS_ERR_STATE, rt) else
  match resolve_pledge_name rt pledge_name with
  | None => (GEAS_ERR_NAME, rt)
  | Some pd =>
      match rebind pd fn (bindings rt) with
      | Some l => (GEAS_OK, with_bindings l rt)
      | None =>
          if (length (bindings rt) =? GEAS_MAX_BINDINGS)%nat then (GEAS_ERR_OOM, rt)
          else (GEAS_OK, with_bindings (bindings rt ++ [Binding pd fn]) rt)
      end
  end.

Definition find_binding (rt : GeasRuntime) (pd : pledge_ptr) : Z :=
  match List.find (λ b, pledge_eqb (b_pd b) pd) (bindings rt) with
  | Some b => b_fn b
  | None => 0
  end.

(** One fn per pledge, the binding beating the compiled body; [i] is the index
    of the head of [ps]. *)
Fixpoint resolve_fns (rt : GeasRuntime) (desc : GeasContractDesc) (ps : list GeasPledgeDesc)
    (i : nat) : option (list Z) :=
  match ps with
  | [] => Some []
  | pd :: ps' =>
      let fn := find_binding rt (d_name desc, i) in
      let fn := if fn =? 0 then p_fn pd else fn in
      if fn =? 0 then None
      else match resolve_fns rt desc ps' (S i) with
           | Some l => Some (fn :: l)
           | None => None
           end
  end.

Definition resolve_dispatch (rt : GeasRuntime) (desc : GeasContractDesc)
    : GeasStatus * list Z * GeasRuntime :=
  if (length (d_pledges desc) =? 0)%nat then (GEAS_OK, [], rt) else
  let '(ok, rt) := r_alloc (Z.of_nat (length (d_pledges desc)) * 8) rt in
  if negb ok then (GEAS_ERR_OOM, [], rt) else
  match resolve_fns rt desc (d_pledges desc) 0 with
  | None => (GEAS_ERR_UNBOUND, [], rt)
  | Some fns => (GEAS_OK, fns, rt)
  end.
