(* ===== verification/InameSpec.v ===== *)
(** * The registry's specification

    The registry invariant, what a registration contributes to the table, and
    the lemmas behind the theorems of [InameProps]: the binary search finds the
    unique position, insertion keeps the table sorted, removal undoes a partial
    registration, and the texts the names and the dump are made of are
    injective. *)
From stdpp Require Import sorting.
From S2P Require Import Prelude Abi Iname.
#[local] Open Scope Z_scope.

(** ** Texts *)

Definition chars (s : string) : list Ascii.ascii := String.list_ascii_of_string s.

Lemma chars_app a b : chars (a +:+ b) = chars a ++ chars b.
Proof. induction a as [|x a IH]; simpl; [done|]. unfold chars in *. simpl. by rewrite IH. Qed.

Lemma chars_inj a b : chars a = chars b → a = b.
Proof.
  intros H. rewrite <- (String.string_of_list_ascii_of_string a),
    <- (String.string_of_list_ascii_of_string b). unfold chars in H. by rewrite H.
Qed.

(** The number a digit stands for, and the number a text of digits stands for. *)
Definition digit_value (a : Ascii.ascii) : Z :=
  let c := Z.of_N (Ascii.N_of_ascii a) in if c <? 58 then c - 48 else c - 87.
Fixpoint text_value (base : Z) (s : string) (n : Z) : Z :=
  match s with
  | EmptyString => n
  | String a s' => text_value base s' (n * base + digit_value a)
  end.

Lemma digit_hex d : 0 <= d < 16 → digit_value (hex_digit d) = d.
Proof.
  intros H.
  assert (d = 0 ∨ d = 1 ∨ d = 2 ∨ d = 3 ∨ d = 4 ∨ d = 5 ∨ d = 6 ∨ d = 7 ∨ d = 8 ∨ d = 9 ∨
          d = 10 ∨ d = 11 ∨ d = 12 ∨ d = 13 ∨ d = 14 ∨ d = 15) by lia.
  destruct_or?; subst; reflexivity.
Qed.

Lemma text_hex n : ∀ v acc m, 0 <= v < 16 ^ Z.of_nat n →
  text_value 16 (hex_digits n v acc) m = text_value 16 acc (m * 16 ^ Z.of_nat n + v).
Proof.
  induction n as [|n IH]; intros v acc m Hv; simpl hex_digits.
  { simpl in Hv. f_equal. simpl. lia. }
  rewrite Nat2Z.inj_succ, Z.pow_succ_r in Hv |- * by lia.
  rewrite IH by (split; [apply Z.div_pos; lia|apply Z.div_lt_upper_bound; lia]).
  simpl. rewrite digit_hex by (apply Z.mod_pos_bound; lia). f_equal.
  pose proof (Z.div_mod v 16). lia.
Qed.

Lemma text_dec n : ∀ v acc, 0 <= v < 10 ^ Z.of_nat n →
  text_value 10 (dec_digits n v acc) 0 = text_value 10 acc v.
Proof.
  induction n as [|n IH]; intros v acc Hv; simpl dec_digits.
  { simpl in Hv. f_equal. lia. }
  rewrite Nat2Z.inj_succ, Z.pow_succ_r in Hv by lia.
  pose proof (Z.mod_pos_bound v 10). pose proof (Z.div_mod v 10).
  destruct (Z.ltb_spec v 10).
  - simpl. rewrite digit_hex by lia. f_equal. rewrite Z.mod_small by lia. lia.
  - rewrite IH by (split; [apply Z.div_pos; lia|apply Z.div_lt_upper_bound; lia]).
    simpl. rewrite digit_hex by lia. f_equal. lia.
Qed.

Lemma hex16_inj a b : is_u64 a → is_u64 b → hex16 a = hex16 b → a = b.
Proof.
  intros Ha Hb H. apply (f_equal (λ s, text_value 16 s 0)) in H. unfold hex16 in H.
  rewrite !text_hex in H by (rewrite u64_id by done; unfold is_u64 in *; simpl; lia).
  rewrite !u64_id in H by done. simpl in H. lia.
Qed.

Lemma dec_str_inj a b : is_u32 a → is_u32 b → dec_str a = dec_str b → a = b.
Proof.
  intros Ha Hb H. apply (f_equal (λ s, text_value 10 s 0)) in H. unfold dec_str in H.
  rewrite !text_dec in H by (rewrite u32_id by done; unfold is_u32 in *; simpl; lia).
  rewrite !u32_id in H by done. simpl in H. lia.
Qed.

Lemma hex_digits_len n : ∀ v acc, length (chars (hex_digits n v acc)) = (n + length (chars acc))%nat.
Proof.
  induction n as [|n IH]; intros v acc; simpl; [done|]. rewrite IH.
  change (chars (String ?a ?s)) with (a :: chars s). simpl. lia.
Qed.

Lemma hex16_len v : length (chars (hex16 v)) = 16%nat.
Proof. unfold hex16. by rewrite hex_digits_len. Qed.

Definition char_v : Ascii.ascii := Ascii.ascii_of_nat 118.

Lemma dec_no_v n : ∀ v acc, 0 <= v → char_v ∉ chars acc → char_v ∉ chars (dec_digits n v acc).
Proof.
  induction n as [|n IH]; intros v acc Hv Hacc; simpl; [done|].
  assert (Hd : char_v ≠ hex_digit (v mod 10)).
  { pose proof (Z.mod_pos_bound v 10 ltac:(lia)) as Hm. intros E.
    apply (f_equal digit_value) in E. rewrite digit_hex in E by lia.
    change (digit_value char_v) with 31 in E. lia. }
  assert (Hs : char_v ∉ chars (String (hex_digit (v mod 10)) acc)).
  { change (chars (String ?a ?s)) with (a :: chars s). by apply not_elem_of_cons. }
  destruct (v <? 10); [done|]. apply IH; [apply Z.div_pos; lia|done].
Qed.

(** The last separator splits a list in one way. *)
Lemma last_sep {A} (x : A) a1 d1 a2 d2 : x ∉ d1 → x ∉ d2 →
  a1 ++ x :: d1 = a2 ++ x :: d2 → a1 = a2 ∧ d1 = d2.
Proof.
  intros H1 H2. revert a2; induction a1 as [|y a1 IH]; intros [|z a2] E; simpl in E.
  - by injection E as ->.
  - injection E as <- ->. exfalso. apply H1. apply elem_of_app. right. left.
  - injection E as -> <-. exfalso. apply H2. apply elem_of_app. right. left.
  - injection E as <- E. by destruct (IH a2 E) as [-> ->].
Qed.

Lemma contract_mangled_chars d :
  chars (contract_mangled d) =
  (chars "__geas_ash_" ++ chars (d_name d) ++ chars "__" ++ chars (hex16 (d_shape_hash d)) ++ chars "_")
  ++ char_v :: chars (dec_str (d_version d)).
Proof.
  unfold contract_mangled. rewrite !chars_app. rewrite <- !app_assoc. do 4 f_equal.
Qed.

(** The shape hash, the version and the name can all be read back. *)
Lemma contract_mangled_parts d e :
  contract_mangled d = contract_mangled e →
  d_name d = d_name e ∧ hex16 (d_shape_hash d) = hex16 (d_shape_hash e) ∧
  dec_str (d_version d) = dec_str (d_version e).
Proof.
  intros H. apply (f_equal chars) in H. rewrite !contract_mangled_chars in H.
  apply last_sep in H as [Ha Hd].
  2,3: apply dec_no_v; [pose proof (u32_range (d_version d)); pose proof (u32_range (d_version e));
                        unfold is_u32 in *; lia|apply not_elem_of_nil].
  apply app_inv_head in Ha. rewrite !app_assoc in Ha. apply app_inv_tail in Ha.
  apply app_inj_2 in Ha as [Ha Hh]; [|by rewrite !hex16_len]. apply app_inv_tail in Ha.
  split_and!; by apply chars_inj.
Qed.

(** ** The sorted table *)

Definition name_lt (a b : GeasInameEntry) : Prop := strcmp (ie_mangled a) (ie_mangled b) = Lt.
Definition sorted (l : list GeasInameEntry) : Prop := StronglySorted name_lt l.

Lemma sorted_lookup l i j a b : sorted l → (i < j)%nat → l !! i = Some a → l !! j = Some b → name_lt a b.
Proof.
  intros Hs Hij Ha Hb. rewrite <- (take_drop j l) in Hs.
  apply (StronglySorted_app_1_elem_of _ _ _ a b Hs).
  - apply list_elem_of_lookup. exists i. by rewrite lookup_take_lt.
  - apply list_elem_of_lookup. exists 0%nat. by rewrite lookup_drop, Nat.add_0_r.
Qed.

(** What the search answers: a hit is the entry, a miss is the position that
    parts the smaller names from the larger ones. *)
Definition find_post (l : list GeasInameEntry) (m : string) (r : bool * nat) : Prop :=
  match r with
  | (true, pos) => ∃ e, l !! pos = Some e ∧ ie_mangled e = m
  | (false, pos) => (pos ≤ length l)%nat ∧
      (∀ e, e ∈ take pos l → strcmp (ie_mangled e) m = Lt) ∧
      (∀ e, e ∈ drop pos l → strcmp m (ie_mangled e) = Lt)
  end.

Lemma iname_find_go_spec l m : sorted l → ∀ fuel lo hi,
  (lo ≤ hi ≤ length l)%nat → (hi - lo ≤ fuel)%nat →
  (∀ e, e ∈ take lo l → strcmp (ie_mangled e) m = Lt) →
  (∀ e, e ∈ drop hi l → strcmp m (ie_mangled e) = Lt) →
  ∃ r, iname_find_go fuel l m lo hi = Some r ∧ find_post l m r.
Proof.
  intros Hs. induction fuel as [|fuel IH]; intros lo hi Hb Hf Hlo Hhi; cbn [iname_find_go];
    destruct (Nat.ltb_spec lo hi); try lia.
  1,3: (assert (lo = hi) as -> by lia; eexists; split; [reflexivity|]; simpl; split_and!; auto; lia).
  set (mid := (lo + (hi - lo) / 2)%nat).
  assert (Hmid : (lo ≤ mid < hi)%nat).
  { unfold mid. pose proof (Nat.Div0.div_mod (hi - lo) 2).
    pose proof (Nat.mod_upper_bound (hi - lo) 2). lia. }
  destruct (lookup_lt_is_Some_2 l mid) as [e He]; [lia|]. rewrite He.
  destruct (strcmp (ie_mangled e) m) eqn:Ec.
  - eexists. split; [reflexivity|]. exists e. split; [done|]. by apply strcmp_eq.
  - apply IH; [lia|lia| |done]. intros x Hx. rewrite Nat.add_1_r in Hx.
    rewrite (take_S_r _ _ e He) in Hx. apply elem_of_app in Hx as [Hx| ->%list_elem_of_singleton]; [|done].
    apply list_elem_of_lookup in Hx as [i Hi]. pose proof (lookup_lt_Some _ _ _ Hi) as Hl.
    rewrite length_take in Hl. rewrite lookup_take_lt in Hi by lia.
    eapply strcmp_trans; [|exact Ec]. eapply (sorted_lookup l i mid); eauto. lia.
  - apply IH; [lia|lia|done|]. intros x Hx.
    assert (Ec' : strcmp m (ie_mangled e) = Lt) by (by rewrite strcmp_antisym, Ec).
    apply list_elem_of_lookup in Hx as [i Hi]. rewrite lookup_drop in Hi.
    destruct i as [|i].
    + rewrite Nat.add_0_r in Hi. congruence.
    + eapply strcmp_trans; [exact Ec'|]. eapply (sorted_lookup l mid (mid + S i)); eauto. lia.
Qed.

Lemma iname_find_spec rt m : sorted (inames rt) →
  ∃ r, iname_find rt m = Some r ∧ find_post (inames rt) m r.
Proof.
  intros Hs. apply iname_find_go_spec; auto; try lia.
  - intros e He. by apply not_elem_of_nil in He.
  - intros e He. rewrite drop_ge in He by lia. by apply not_elem_of_nil in He.
Qed.

(** A miss means the name is not in the table. *)
Lemma find_miss l m pos : find_post l m (false, pos) → m ∉ map ie_mangled l.
Proof.
  intros (_ & Hlo & Hhi) Hin. apply list_elem_of_fmap in Hin as (e & -> & He).
  rewrite <- (take_drop pos l) in He. apply elem_of_app in He as [He|He].
  - specialize (Hlo e He). by rewrite strcmp_refl in Hlo.
  - specialize (Hhi e He). by rewrite strcmp_refl in Hhi.
Qed.

Lemma insert_at_perm {A} pos (x : A) l : insert_at pos x l ≡ₚ x :: l.
Proof. unfold insert_at. rewrite <- (take_drop pos l) at 3. by rewrite Permutation_middle. Qed.

Lemma insert_at_sorted l e pos : sorted l → find_post l (ie_mangled e) (false, pos) →
  sorted (insert_at pos e l).
Proof.
  intros Hs (_ & Hlo & Hhi). unfold sorted, insert_at in *.
  rewrite <- (take_drop pos l) in Hs. apply StronglySorted_app in Hs as (Hc & H1 & H2).
  apply StronglySorted_app. split_and!; [|done|].
  - intros a b Ha [->|Hb]%elem_of_cons; [by apply Hlo|auto].
  - apply StronglySorted_cons. split; [|done]. apply Forall_forall. intros b Hb. by apply Hhi.
Qed.

Lemma remove_entries_id c l : (∀ e, e ∈ l → ie_contract e ≠ c) → remove_entries c l = l.
Proof.
  induction l as [|e l IH]; intros H; simpl; [done|].
  rewrite (proj2 (str_eqb_neq _ _)) by (apply H; left). rewrite IH; [done|].
  intros x Hx. apply H. by right.
Qed.

Lemma remove_entries_app c a b : remove_entries c (a ++ b) = remove_entries c a ++ remove_entries c b.
Proof.
  induction a as [|e a IH]; simpl; [done|]. destruct (str_eqb _ _); [done|]. simpl. by rewrite IH.
Qed.

(** Removal undoes an insertion for that contract. *)
Lemma remove_insert c pos e l : ie_contract e = c →
  remove_entries c (insert_at pos e l) = remove_entries c l.
Proof.
  intros <-. unfold insert_at. rewrite remove_entries_app. simpl. rewrite str_eqb_refl.
  rewrite <- remove_entries_app. by rewrite take_drop.
Qed.

(** The rest of the runtime a table operation does not touch. *)
Definition same_tables (rt rt' : GeasRuntime) : Prop :=
  descs rt' = descs rt ∧ modules rt' = modules rt ∧ bindings rt' = bindings rt ∧
  frozen rt' = frozen rt ∧ closed rt' = closed rt ∧ r_malloc rt' = r_malloc rt.

#[export] Instance same_tables_refl : Reflexive same_tables.
Proof. intros rt. by split_and!. Qed.
#[export] Instance same_tables_trans : Transitive same_tables.
Proof. intros a b c. unfold same_tables. intuition congruence. Qed.

(** The allocator never refuses. *)
Definition r_no_oom (rt : GeasRuntime) : Prop := ∀ n z, r_malloc rt n z = true.

Lemma iname_insert_spec rt e : sorted (inames rt) →
  ∃ st rt', iname_insert rt e = Some (st, rt') ∧ same_tables rt rt' ∧
    match st with
    | GEAS_OK => ie_mangled e ∉ map ie_mangled (inames rt) ∧
        ∃ pos, inames rt' = insert_at pos e (inames rt) ∧ sorted (inames rt')
    | GEAS_ERR_NAME => ie_mangled e ∈ map ie_mangled (inames rt) ∧ inames rt' = inames rt
    | GEAS_ERR_OOM => inames rt' = inames rt ∧ ¬ r_no_oom rt
    | _ => False
    end.
Proof.
  intros Hs. unfold iname_insert.
  destruct (iname_find_spec rt (ie_mangled e) Hs) as ([[] pos] & -> & Hp).
  - eexists _, _. split; [reflexivity|]. split; [done|]. destruct Hp as (e' & Hl & <-).
    split; [|done]. apply list_elem_of_fmap. exists e'. split; [done|]. by apply list_elem_of_lookup_2 in Hl.
  - pose proof (find_miss _ _ _ Hp) as Hni. pose proof (insert_at_sorted _ _ _ Hs Hp) as Hs'.
    destruct (Z.of_nat (length (inames rt)) =? iname_cap rt).
    + unfold r_alloc. destruct (r_malloc rt (r_ticks rt) _) eqn:Em; simpl.
      * eexists _, _. split; [reflexivity|]. split; [by split_and!|]. split; [done|]. eauto.
      * eexists _, _. split; [reflexivity|]. split; [by split_and!|]. split; [done|].
        intros Hno. by rewrite Hno in Em.
    + eexists _, _. split; [reflexivity|]. split; [by split_and!|]. split; [done|]. eauto.
Qed.

(** ** What a contract contributes *)

Definition pledge_entries (d : GeasContractDesc) (ps : list GeasPledgeDesc) : list GeasInameEntry :=
  omap (λ pd, pledge_entry d pd <$> p_mangled pd) ps.
Definition desc_entries (d : GeasContractDesc) : list GeasInameEntry :=
  contract_entry d (contract_mangled d) :: pledge_entries d (d_pledges d).
Definition entries (ds : list GeasContractDesc) : list GeasInameEntry := flat_map desc_entries ds.

#[export] Instance entries_Permutation : Proper ((≡ₚ) ==> (≡ₚ)) entries.
Proof. intros a b H. by apply Permutation_flat_map. Qed.

Record registry_ok (rt : GeasRuntime) : Prop := RegistryOk {
  ro_sorted : sorted (inames rt);
  ro_entries : inames rt ≡ₚ entries (descs rt);
  ro_names : NoDup (map d_name (descs rt));
  ro_max : (length (descs rt) ≤ GEAS_MAX_CONTRACT_TYPES)%nat
}.

Lemma desc_entries_contract d e : e ∈ desc_entries d → ie_contract e = d_name d.
Proof.
  intros [->|H]%elem_of_cons; [done|]. apply list_elem_of_omap in H as (pd & _ & Hp).
  destruct (p_mangled pd); [|done]. by injection Hp as <-.
Qed.

Lemma entries_contract ds e : e ∈ entries ds → ie_contract e ∈ map d_name ds.
Proof.
  intros H. apply list_elem_of_In, in_flat_map in H as (d & Hd & He).
  apply list_elem_of_In, desc_entries_contract in He. rewrite He.
  apply list_elem_of_In. by apply in_map.
Qed.

Lemma entries_snoc ds d : entries (ds ++ [d]) = entries ds ++ desc_entries d.
Proof. unfold entries. rewrite flat_map_app. simpl. by rewrite app_nil_r. Qed.

(** The names a registration would bring clash with each other or the table. *)
Definition clash (rt : GeasRuntime) (es : list GeasInameEntry) : Prop :=
  ¬ NoDup (map ie_mangled (inames rt ++ es)).

Lemma register_pledges_spec d ps : ∀ rt, sorted (inames rt) →
  ∃ st rt', register_pledges d ps rt = Some (st, rt') ∧ same_tables rt rt' ∧
    match st with
    | GEAS_OK => sorted (inames rt') ∧ inames rt' ≡ₚ pledge_entries d ps ++ inames rt
    | GEAS_ERR_NAME => inames rt' = remove_entries (d_name d) (inames rt) ∧ clash rt (pledge_entries d ps)
    | GEAS_ERR_OOM => inames rt' = remove_entries (d_name d) (inames rt) ∧ ¬ r_no_oom rt
    | _ => False
    end.
Proof.
  induction ps as [|pd ps IH]; intros rt Hs; simpl.
  { eexists _, _. split; [reflexivity|]. done. }
  unfold pledge_entries. simpl. destruct (p_mangled pd) as [m|] eqn:Em; simpl; [|by apply IH].
  destruct (iname_insert_spec rt (pledge_entry d pd m) Hs) as (st & rt1 & -> & Ht & Hpost).
  destruct st; try done; simpl.
  - destruct Hpost as (Hni & pos & Hin & Hs1).
    destruct (IH rt1 Hs1) as (st & rt2 & -> & Ht2 & Hpost2). eexists _, _. split; [reflexivity|].
    split; [by etransitivity|].
    assert (Hrm : remove_entries (d_name d) (inames rt1) = remove_entries (d_name d) (inames rt)).
    { rewrite Hin. by apply remove_insert. }
    destruct st; try done; rewrite ?Hrm in Hpost2.
    + destruct Hpost2 as [? Hp]. split; [done|]. rewrite Hp, Hin, insert_at_perm.
      unfold pledge_entries. by rewrite Permutation_middle.
    + destruct Hpost2 as [? Hc]. split; [done|]. intros Hnd. apply Hc.
      eapply NoDup_Permutation_proper; [|exact Hnd]. apply Permutation_map.
      rewrite Hin, insert_at_perm. simpl. unfold pledge_entries. by rewrite Permutation_middle.
    + destruct Hpost2 as [? Hno]. split; [done|]. intros Hall. apply Hno.
      unfold r_no_oom. destruct Ht as (_ & _ & _ & _ & _ & ->). exact Hall.
  - eexists _, _. split; [reflexivity|]. split; [done|]. destruct Hpost as [Hin E].
    split; [simpl; by rewrite E|]. intros Hnd. rewrite map_app in Hnd. apply NoDup_app in Hnd as (_ & Hx & _).
    eapply Hx; [exact Hin|]. left.
  - eexists _, _. split; [reflexivity|]. split; [done|]. destruct Hpost as [E ?].
    split; [simpl; by rewrite E|done].
Qed.

(** One registration, whole: the entries it brings, or the table as it was. *)
Lemma iname_register_spec rt d : sorted (inames rt) →
  (∀ e, e ∈ inames rt → ie_contract e ≠ d_name d) →
  Z.of_nat (String.length (contract_mangled d)) <= INT_MAX →
  ∃ st rt', iname_register rt d = Some (st, rt') ∧ same_tables rt rt' ∧
    match st with
    | GEAS_OK => sorted (inames rt') ∧ inames rt' ≡ₚ desc_entries d ++ inames rt
    | GEAS_ERR_NAME => inames rt' = inames rt ∧ clash rt (desc_entries d)
    | GEAS_ERR_OOM => inames rt' = inames rt ∧ ¬ r_no_oom rt
    | _ => False
    end.
Proof.
  intros Hs Hnew Hlen. unfold iname_register, iname_contract_mangled, printed.
  rewrite (proj2 (Z.ltb_ge _ _)) by done. unfold r_alloc.
  destruct (r_malloc rt (r_ticks rt) _) eqn:Em.
  2: { eexists _, _. split; [reflexivity|]. split; [by split_and!|]. split; [done|].
       intros Hno. by rewrite Hno in Em. }
  set (rt0 := Runtime _ _ _ _ _ _ _ _ _).
  assert (Ht0 : same_tables rt rt0) by (by split_and!).
  destruct (iname_insert_spec rt0 (contract_entry d (contract_mangled d)) Hs) as (st & rt1 & -> & Ht & Hpost).
  destruct st; try done; simpl.
  - destruct Hpost as (Hni & pos & Hin & Hs1).
    destruct (register_pledges_spec d (d_pledges d) rt1 Hs1) as (st & rt2 & -> & Ht2 & Hpost2).
    eexists _, _. split; [reflexivity|]. split; [by do 2 (etransitivity; [done|])|].
    assert (Hrm : remove_entries (d_name d) (inames rt1) = inames rt).
    { rewrite Hin, remove_insert by done. by apply remove_entries_id. }
    destruct st; try done; rewrite ?Hrm in Hpost2.
    + destruct Hpost2 as [? Hp]. split; [done|]. rewrite Hp, Hin, insert_at_perm.
      unfold desc_entries. simpl. by rewrite <- Permutation_middle.
    + destruct Hpost2 as [? Hc]. split; [done|]. intros Hnd. apply Hc.
      eapply NoDup_Permutation_proper; [|exact Hnd]. apply Permutation_map.
      rewrite Hin, insert_at_perm. unfold desc_entries. simpl. by rewrite Permutation_middle.
    + destruct Hpost2 as [? Hno]. split; [done|]. intros Hall. apply Hno.
      unfold r_no_oom. destruct Ht as (_ & _ & _ & _ & _ & ->). exact Hall.
  - eexists _, _. split; [reflexivity|]. split; [by etransitivity|]. destruct Hpost as [Hin E].
    split; [done|]. intros Hnd. rewrite map_app in Hnd. apply NoDup_app in Hnd as (_ & Hx & _).
    eapply Hx; [exact Hin|]. left.
  - eexists _, _. split; [reflexivity|]. split; [by etransitivity|]. by destruct Hpost as [E ?].
Qed.

Lemma existsb_name (ds : list GeasContractDesc) name :
  existsb (λ d, str_eqb (d_name d) name) ds = true ↔ name ∈ map d_name ds.
Proof.
  rewrite existsb_exists. setoid_rewrite str_eqb_eq. rewrite list_elem_of_fmap.
  split; intros (d & H1 & H2); exists d.
  - split; [done|]. by apply list_elem_of_In.
  - split; [by apply list_elem_of_In|done].
Qed.

(** The table is a function of the set of contracts. *)
Lemma sorted_unique l1 l2 : sorted l1 → sorted l2 → l1 ≡ₚ l2 → l1 = l2.
Proof.
  intros H1 H2. apply (StronglySorted_unique_strong name_lt); [|done|done].
  intros a b _ _ Hab Hba. unfold name_lt in *. rewrite strcmp_antisym, Hab in Hba. done.
Qed.

(** [geas_register_contract] on every branch. *)
Lemma register_contract_run rt d :
  registry_ok rt → Z.of_nat (String.length (contract_mangled d)) <= INT_MAX →
  ∃ st rt', geas_register_contract rt d = Some (st, rt') ∧ registry_ok rt' ∧
    match st with
    | GEAS_OK => frozen rt = false ∧ descs rt' = descs rt ++ [d] ∧
        inames rt' ≡ₚ desc_entries d ++ inames rt
    | GEAS_ERR_STATE => frozen rt = true ∧ rt' = rt
    | GEAS_ERR_NAME => descs rt' = descs rt ∧ inames rt' = inames rt ∧
        (d_name d ∈ map d_name (descs rt) ∨ clash rt (desc_entries d))
    | GEAS_ERR_OOM => descs rt' = descs rt ∧ inames rt' = inames rt ∧
        (length (descs rt) = GEAS_MAX_CONTRACT_TYPES ∨ ¬ r_no_oom rt)
    | _ => False
    end.
Proof.
  intros Hok Hlen. pose proof Hok as [Hs He Hn Hm]. unfold geas_register_contract.
  destruct (frozen rt) eqn:Ef; [eexists _, _; by split_and!|].
  destruct (Nat.eqb_spec (length (descs rt)) GEAS_MAX_CONTRACT_TYPES).
  { eexists _, _. split; [reflexivity|]. split_and!; auto. }
  destruct (existsb _ (descs rt)) eqn:Ex.
  { eexists _, _. split; [reflexivity|]. split_and!; auto. left. by apply existsb_name. }
  assert (Hnew : d_name d ∉ map d_name (descs rt)).
  { intros Hin. apply existsb_name in Hin. congruence. }
  destruct (iname_register_spec rt d Hs) as (st & rt1 & -> & Ht & Hpost); [|done|].
  { intros e Hin Hc. apply Hnew. rewrite <- Hc. apply entries_contract. by rewrite <- He. }
  pose proof Ht as (Hd & _ & _ & Hf & _ & _).
  assert (Hkeep : inames rt1 = inames rt → registry_ok rt1).
  { intros E. split; rewrite ?E, ?Hd; done. }
  destruct st; try done; simpl.
  - destruct Hpost as [Hs1 Hp]. eexists _, _. split; [reflexivity|]. split_and!; simpl; auto; [|by rewrite Hd].
    split; simpl; rewrite ?Hd; auto.
    + rewrite entries_snoc, Hp, He. apply Permutation_app_comm.
    + rewrite map_app. apply NoDup_app. split_and!; auto.
      * intros x Hx Hx'. apply list_elem_of_singleton in Hx' as ->. by apply Hnew.
      * apply NoDup_singleton.
    + rewrite length_app. simpl. unfold GEAS_MAX_CONTRACT_TYPES in *. lia.
  - destruct Hpost as [E Hc]. eexists _, _. split; [reflexivity|]. split_and!; auto.
  - destruct Hpost as [E Hc]. eexists _, _. split; [reflexivity|]. split_and!; auto.
Qed.

(** Registration of a list of contracts keeps the registry well formed. *)
Lemma register_all_ok ds : ∀ rt,
  (∀ d, d ∈ ds → Z.of_nat (String.length (contract_mangled d)) <= INT_MAX) →
  registry_ok rt → ∃ st rt', register_all ds rt = Some (st, rt') ∧ registry_ok rt'.
Proof.
  induction ds as [|d ds IH]; intros rt Hl Hok; simpl; [eauto|].
  destruct (register_contract_run rt d Hok) as (st & rt1 & -> & Hok1 & _); [apply Hl; left|].
  destruct (st_ok st); simpl; [|eauto]. apply IH; [|done]. intros x Hx. apply Hl. by right.
Qed.

Lemma sorted_inj l a b : sorted l → a ∈ l → b ∈ l → ie_mangled a = ie_mangled b → a = b.
Proof.
  intros Hs Ha Hb E. apply list_elem_of_lookup in Ha as [i Hi], Hb as [j Hj].
  destruct (Nat.lt_trichotomy i j) as [Hlt|[->|Hlt]]; [|congruence|].
  - pose proof (sorted_lookup _ _ _ _ _ Hs Hlt Hi Hj) as H. unfold name_lt in H.
    by rewrite E, strcmp_refl in H.
  - pose proof (sorted_lookup _ _ _ _ _ Hs Hlt Hj Hi) as H. unfold name_lt in H.
    by rewrite E, strcmp_refl in H.
Qed.

(** ** The dump *)

Definition dump_text (l : list GeasInameEntry) : string :=
  foldr (λ e s, iname_line e +:+ s) EmptyString l.

Definition lines_fit (l : list GeasInameEntry) : Prop :=
  ∀ e, e ∈ l → Z.of_nat (String.length (iname_line e)) <= INT_MAX.

Lemma string_length_app a b : String.length (a +:+ b) = (String.length a + String.length b)%nat.
Proof. induction a as [|x a IH]; simpl; [done|]. by rewrite IH. Qed.

Lemma string_app_assoc (a b c : string) : (a +:+ b) +:+ c = a +:+ (b +:+ c).
Proof.
  induction a as [|x a IH]; [done|].
  change (String x ((a +:+ b) +:+ c) = String x (a +:+ (b +:+ c))). by rewrite IH.
Qed.

Lemma string_app_nil (a : string) : a +:+ EmptyString = a.
Proof.
  induction a as [|x a IH]; [done|].
  change (String x (a +:+ EmptyString) = String x a). by rewrite IH.
Qed.

Lemma dump_size_run l : lines_fit l → ∀ total,
  dump_size l total = Some (total + Z.of_nat (String.length (dump_text l))).
Proof.
  intros Hf. induction l as [|e l IH]; intros total; simpl; [f_equal; lia|].
  unfold printed. rewrite (proj2 (Z.ltb_ge _ _)) by (apply Hf; left).
  rewrite IH by (intros x Hx; apply Hf; by right). rewrite string_length_app. f_equal. lia.
Qed.

Lemma dump_write_run l : lines_fit l → ∀ left out,
  Z.of_nat (String.length (dump_text l)) < left → dump_write l left out = Some (out +:+ dump_text l).
Proof.
  intros Hf. induction l as [|e l IH]; intros left out Hl; simpl; [by rewrite string_app_nil|].
  unfold printed. rewrite (proj2 (Z.ltb_ge _ _)) by (apply Hf; left).
  simpl in Hl. rewrite string_length_app in Hl.
  rewrite (proj2 (Z.leb_gt _ _)) by lia.
  rewrite IH; [by rewrite string_app_assoc|intros x Hx; apply Hf; by right|lia].
Qed.

(** ** Bindings *)

Lemma find_rebind pd fn l l' : rebind pd fn l = Some l' →
  ∀ q, List.find (λ b, pledge_eqb (b_pd b) q) l' =
    if pledge_eqb pd q then Some (Binding pd fn) else List.find (λ b, pledge_eqb (b_pd b) q) l.
Proof.
  revert l'; induction l as [|b l IH]; intros l' H q; simpl in H; [done|].
  destruct (pledge_eqb (b_pd b) pd) eqn:E.
  - injection H as <-. unfold pledge_eqb in E. apply bool_decide_eq_true in E. simpl. rewrite E.
    by destruct (pledge_eqb pd q).
  - destruct (rebind pd fn l) as [r|]; [|done]. injection H as <-. simpl. rewrite (IH r eq_refl q).
    destruct (pledge_eqb (b_pd b) q) eqn:Eq; [|done]. destruct (pledge_eqb pd q) eqn:Ep; [|done].
    unfold pledge_eqb in *. apply bool_decide_eq_true in Eq, Ep. apply bool_decide_eq_false in E. congruence.
Qed.

Lemma rebind_None pd fn l : rebind pd fn l = None →
  List.find (λ b, pledge_eqb (b_pd b) pd) l = None.
Proof.
  induction l as [|b l IH]; simpl; [done|]. destruct (pledge_eqb (b_pd b) pd); [done|].
  destruct (rebind pd fn l); [done|]. auto.
Qed.

Lemma find_app {A} (f : A → bool) a b :
  List.find f (a ++ b) = match List.find f a with Some x => Some x | None => List.find f b end.
Proof. induction a as [|x a IH]; simpl; [done|]. by destruct (f x). Qed.

(** The dispatch rule for one pledge. *)
Definition dispatch (rt : GeasRuntime) (d : GeasContractDesc) (i : nat) (pd : GeasPledgeDesc) : Z :=
  if find_binding rt (d_name d, i) =? 0 then p_fn pd else find_binding rt (d_name d, i).

Lemma resolve_fns_spec rt d ps : ∀ i,
  match resolve_fns rt d ps i with
  | Some fns => fns = imap (λ j pd, dispatch rt d (i + j) pd) ps ∧ Forall (λ f, f ≠ 0) fns
  | None => ∃ j pd, ps !! j = Some pd ∧ dispatch rt d (i + j) pd = 0
  end.
Proof.
  induction ps as [|pd ps IH]; intros i; simpl; [by split|].
  fold (dispatch rt d i pd). specialize (IH (S i)).
  destruct (Z.eqb_spec (dispatch rt d i pd) 0) as [E|Hne].
  { exists 0%nat, pd. by rewrite Nat.add_0_r. }
  destruct (resolve_fns rt d ps (S i)) as [l|].
  - destruct IH as [-> Hf]. rewrite Nat.add_0_r. split; [|by constructor]. f_equal.
    apply imap_ext. intros j x _. simpl. by rewrite Nat.add_succ_r.
  - destruct IH as (j & x & Hj & Hd). exists (S j), x. split; [done|]. by rewrite Nat.add_succ_r.
Qed.

Lemma resolve_fns_app rt rt' d ps i : bindings rt' = bindings rt →
  resolve_fns rt' d ps i = resolve_fns rt d ps i.
Proof.
  intros E. revert i; induction ps as [|pd ps IH]; intros i; simpl; [done|].
  unfold find_binding. rewrite E. by rewrite IH.
Qed.

(** Registration only appends descriptors. *)
Lemma register_all_keeps ds : ∀ rt st rt' d,
  (∀ x, x ∈ ds → Z.of_nat (String.length (contract_mangled x)) <= INT_MAX) →
  registry_ok rt → register_all ds rt = Some (st, rt') → d ∈ descs rt → d ∈ descs rt'.
Proof.
  induction ds as [|x ds IH]; intros rt st rt' d Hl Hok H Hd; simpl in H; [by injection H as <- <-|].
  destruct (register_contract_run rt x Hok) as (s1 & rt1 & E & Hok1 & Hp); [apply Hl; left|].
  rewrite E in H. assert (Hd1 : d ∈ descs rt1).
  { destruct s1; try done; destruct Hp as (E1 & E2 & _) || destruct Hp as (_ & E2); subst; try done.
    - rewrite E2. apply elem_of_app. by left.
    - by rewrite E1.
    - by rewrite E1. }
  destruct (st_ok s1); simpl in H; [|by injection H as <- <-].
  eapply IH; eauto. intros y Hy. apply Hl. by right.
Qed.

Lemma find_desc_in rt d : registry_ok rt → d ∈ descs rt → find_desc rt (d_name d) = Some d.
Proof.
  intros [_ _ Hn _] Hd. unfold find_desc. induction (descs rt) as [|x l IH]; simpl in *.
  { by apply not_elem_of_nil in Hd. }
  apply NoDup_cons in Hn as [Hx Hn]. apply elem_of_cons in Hd as [->|Hd].
  { by rewrite str_eqb_refl. }
  rewrite (proj2 (str_eqb_neq _ _)); [by apply IH|]. intros E. apply Hx. rewrite E.
  apply list_elem_of_fmap. by exists d.
Qed.

Lemma entries_contract_entry ds d : d ∈ ds → contract_entry d (contract_mangled d) ∈ entries ds.
Proof.
  intros H. apply list_elem_of_In, in_flat_map. exists d.
  split; [by apply list_elem_of_In|]. by left.
Qed.
