(* ===== verification/InameProps.v ===== *)
(** * The registry: what it promises

    Registration, lookup, the canonical dump, bindings, the freeze and the
    module loader, over the definitions of [Iname]; the proofs apply
    [InameSpec]. *)
From S2P Require Import Prelude Abi Iname InameSpec.

(** ** A concrete registry *)

Definition demo_pledge (n m : string) (fn : Z) : GeasPledgeDesc := PledgeDesc n (Some m) 1 fn (-1).
Definition demo_mail : GeasContractDesc :=
  plain_desc "Mail" 48879 1 [demo_pledge "send" "__geas_Mail_send" 500; demo_pledge "read" "__geas_Mail_read" 0].
Definition demo_bank : GeasContractDesc :=
  plain_desc "Bank" 51966 2 [demo_pledge "pay" "__geas_Bank_pay" 600].
Definition empty_rt : GeasRuntime := Runtime [] [] [] [] 0 false [] 0 (λ _ _, true).

Definition demo_rt : GeasRuntime :=
  match register_all [demo_mail; demo_bank] empty_rt with
  | Some (_, rt) => rt
  | None => empty_rt
  end.

Lemma empty_ok : registry_ok empty_rt.
Proof. split; simpl; try done; try constructor. unfold GEAS_MAX_CONTRACT_TYPES. lia. Qed.

Lemma demo_ok : registry_ok demo_rt.
Proof.
  unfold demo_rt. destruct (register_all_ok [demo_mail; demo_bank] empty_rt) as (st & rt & -> & Hok);
    [|apply empty_ok|done].
  intros d Hd. rewrite !elem_of_cons in Hd. destruct Hd as [->|[->|Hd]];
    [vm_compute; congruence..|by apply not_elem_of_nil in Hd].
Qed.

(** C31: [geas_register_contract] keeps the registry well formed (the table
    sorted by mangled name and made of exactly the entries of the registered
    contracts) and is all or nothing: GEAS_OK appends the contract and its
    entries; any failure leaves descriptors and table exactly as they were, and
    says why: GEAS_ERR_STATE when frozen, GEAS_ERR_NAME for a contract or
    mangled name already taken, GEAS_ERR_OOM for the table limit or a refused
    allocation. *)
Theorem register_contract_correct rt d :
  registry_ok rt → Z.of_nat (String.length (contract_mangled d)) <= INT_MAX →
  ∃ st rt', geas_register_contract rt d = Some (st, rt') ∧ registry_ok rt' ∧
    match st with
    | GEAS_OK => frozen rt = false ∧ descs rt' = descs rt ++ [d] ∧
        inames rt' ≡ₚ desc_entries d ++ inames rt
    | GEAS_ERR_STATE => frozen rt = true ∧ rt' = rt
    | GEAS_ERR_NAME => descs rt' = descs rt ∧ inames rt' = inames rt ∧
        (d_name d ∈ map d_name (descs rt) ∨ clash rt (desc_entries d))
    | GEAS_ERR_OOM => descs rt' = descs rt ∧ inames rt' = inames rt ∧
        (length (descs rt) = GEAS_MAX_CONTRACT_TYPES ∨ ¬ r_no_oom rt)
    | _ => False
    end.
Proof. apply register_contract_run. Qed.

Lemma register_contract_correct_witness :
  ∃ st rt', geas_register_contract empty_rt demo_mail = Some (st, rt') ∧ registry_ok rt' ∧
    match st with
    | GEAS_OK => frozen empty_rt = false ∧ descs rt' = descs empty_rt ++ [demo_mail] ∧
        inames rt' ≡ₚ desc_entries demo_mail ++ inames empty_rt
    | GEAS_ERR_STATE => frozen empty_rt = true ∧ rt' = empty_rt
    | GEAS_ERR_NAME => descs rt' = descs empty_rt ∧ inames rt' = inames empty_rt ∧
        (d_name demo_mail ∈ map d_name (descs empty_rt) ∨ clash empty_rt (desc_entries demo_mail))
    | GEAS_ERR_OOM => descs rt' = descs empty_rt ∧ inames rt' = inames empty_rt ∧
        (length (descs empty_rt) = GEAS_MAX_CONTRACT_TYPES ∨ ¬ r_no_oom empty_rt)
    | _ => False
    end.
Proof.
  apply register_contract_correct.
  - apply empty_ok.
  - vm_compute. congruence.
Defined.


(** [geas_iname_lookup] is exact: the binary search answers GEAS_OK with the
    one entry of the registered contracts that carries the name, GEAS_ERR_NAME
    when none does, never reading outside the table; and enumerating with
    [geas_iname_at] below [geas_iname_count] yields entries in strictly
    increasing name order. *)
Theorem iname_lookup_exact rt m i j :
  registry_ok rt →
  (∃ st e, geas_iname_lookup rt m = Some (st, e) ∧
    match st with
    | GEAS_OK => ∃ x, e = Some x ∧ x ∈ entries (descs rt) ∧ ie_mangled x = m ∧
        ∀ y, y ∈ entries (descs rt) → ie_mangled y = m → y = x
    | GEAS_ERR_NAME => e = None ∧ ∀ y, y ∈ entries (descs rt) → ie_mangled y ≠ m
    | _ => False
    end) ∧
  ((i < j)%nat → Z.of_nat j < geas_iname_count rt →
   ∃ a b, geas_iname_at rt i = (GEAS_OK, Some a) ∧ geas_iname_at rt j = (GEAS_OK, Some b) ∧
     strcmp (ie_mangled a) (ie_mangled b) = Lt).
Proof.
  intros [Hs He _ _]. split.
  - unfold geas_iname_lookup. destruct (iname_find_spec rt m Hs) as ([[] pos] & -> & Hp).
    + destruct Hp as (x & Hx & <-). rewrite Hx. eexists _, _. split; [reflexivity|].
      exists x. pose proof (list_elem_of_lookup_2 _ _ _ Hx) as Hin. split_and!; auto.
      * by rewrite <- He.
      * intros y Hy Ey. eapply sorted_inj; eauto. by rewrite He.
    + eexists _, _. split; [reflexivity|]. split; [done|]. intros y Hy Ey.
      apply (find_miss _ _ _ Hp). apply list_elem_of_fmap. exists y. rewrite He. done.
  - intros Hij Hj. unfold geas_iname_count in Hj. unfold geas_iname_at.
    destruct (lookup_lt_is_Some_2 (inames rt) j) as [b Hb]; [lia|].
    destruct (lookup_lt_is_Some_2 (inames rt) i) as [a Ha]; [lia|].
    exists a, b. rewrite Ha, Hb. split_and!; auto. by eapply (sorted_lookup _ i j).
Qed.

Lemma iname_lookup_exact_witness :
  (∃ st e, geas_iname_lookup demo_rt "__geas_Bank_pay" = Some (st, e) ∧
    match st with
    | GEAS_OK => ∃ x, e = Some x ∧ x ∈ entries (descs demo_rt) ∧ ie_mangled x = "__geas_Bank_pay"%string ∧
        ∀ y, y ∈ entries (descs demo_rt) → ie_mangled y = "__geas_Bank_pay"%string → y = x
    | GEAS_ERR_NAME => e = None ∧
        ∀ y, y ∈ entries (descs demo_rt) → ie_mangled y ≠ "__geas_Bank_pay"%string
    | _ => False
    end) ∧
  ((1 < 4)%nat → Z.of_nat 4 < geas_iname_count demo_rt →
   ∃ a b, geas_iname_at demo_rt 1 = (GEAS_OK, Some a) ∧ geas_iname_at demo_rt 4 = (GEAS_OK, Some b) ∧
     strcmp (ie_mangled a) (ie_mangled b) = Lt).
Proof. apply (iname_lookup_exact demo_rt "__geas_Bank_pay" 1 4). apply demo_ok. Defined.

(** The dump is canonical.  Two runtimes that registered the same contracts,
    in whatever order, dump the same text; the size reported is the text and
    its NUL; a short or missing buffer is GEAS_ERR_OOM with the size set and
    nothing written, and a buffer of that size always receives the whole text,
    the bounds check of the writing loop never firing. *)
Theorem iname_dump_canonical rt rt' buf cap :
  registry_ok rt → registry_ok rt' → descs rt ≡ₚ descs rt' → lines_fit (inames rt) →
  let text := dump_text (inames rt) in
  let need := 1 + Z.of_nat (String.length text) in
  geas_iname_dump rt buf cap = geas_iname_dump rt' buf cap ∧
  geas_iname_dump rt buf cap =
    if (if buf then cap else 0) <? need then (GEAS_ERR_OOM, Some need, None)
    else (GEAS_OK, Some need, Some text).
Proof.
  intros [Hs He _ _] [Hs' He' _ _] Hp Hf text need.
  assert (E : inames rt' = inames rt).
  { apply sorted_unique; auto. rewrite He', He, Hp. done. }
  unfold geas_iname_dump. rewrite E. split; [done|].
  rewrite dump_size_run by done. fold text. fold need.
  destruct (Z.ltb_spec (if buf then cap else 0) need); [done|].
  rewrite dump_write_run by (try done; subst need text; lia). done.
Qed.

Definition demo_rt' : GeasRuntime :=
  match register_all [demo_bank; demo_mail] empty_rt with
  | Some (_, rt) => rt
  | None => empty_rt
  end.

Lemma demo_ok' : registry_ok demo_rt'.
Proof.
  unfold demo_rt'. destruct (register_all_ok [demo_bank; demo_mail] empty_rt) as (st & rt & -> & Hok);
    [|apply empty_ok|done].
  intros d Hd. rewrite !elem_of_cons in Hd. destruct Hd as [->|[->|Hd]];
    [vm_compute; congruence..|by apply not_elem_of_nil in Hd].
Qed.

Lemma iname_dump_canonical_witness :
  let text := dump_text (inames demo_rt) in
  let need := 1 + Z.of_nat (String.length text) in
  geas_iname_dump demo_rt true 400 = geas_iname_dump demo_rt' true 400 ∧
  geas_iname_dump demo_rt true 400 =
    if (if true then 400 else 0) <? need then (GEAS_ERR_OOM, Some need, None)
    else (GEAS_OK, Some need, Some text).
Proof.
  apply iname_dump_canonical.
  - apply demo_ok.
  - apply demo_ok'.
  - apply Permutation_swap.
  - assert (H : Forall (λ e, Z.of_nat (String.length (iname_line e)) <= INT_MAX) (inames demo_rt))
      by (apply (bool_decide_unpack _); vm_compute; exact I).
    intros e He. rewrite Forall_forall in H. by apply H.
Defined.

(** The mangled name the runtime synthesizes for a contract identifies the
    name, the shape hash and the version: two contracts share it exactly when
    all three agree, however the name is spelled. *)
Theorem contract_mangled_injective d e :
  is_u64 (d_shape_hash d) → is_u64 (d_shape_hash e) → is_u32 (d_version d) → is_u32 (d_version e) →
  contract_mangled d = contract_mangled e ↔
  d_name d = d_name e ∧ d_shape_hash d = d_shape_hash e ∧ d_version d = d_version e.
Proof.
  intros Hd He Hvd Hve. split.
  - intros H. apply contract_mangled_parts in H as (? & Hh & Hv). split_and!; auto.
    + by apply hex16_inj.
    + by apply dec_str_inj.
  - intros (E1 & E2 & E3). unfold contract_mangled. by rewrite E1, E2, E3.
Qed.

Lemma contract_mangled_injective_witness :
  contract_mangled demo_mail = contract_mangled demo_bank ↔
  d_name demo_mail = d_name demo_bank ∧ d_shape_hash demo_mail = d_shape_hash demo_bank ∧
  d_version demo_mail = d_version demo_bank.
Proof. apply contract_mangled_injective; vm_compute; intuition congruence. Defined.

(** A host binding beats the compiled body.  A successful
    [geas_pledge_bind] makes the named pledge dispatch to the host function and
    no other pledge to anything new; [resolve_dispatch] then fills the table
    with, for every pledge, its binding or else its own body, and refuses with
    GEAS_ERR_UNBOUND exactly when some pledge has neither. *)
Theorem binding_beats_body rt name fn rt' d :
  geas_pledge_bind rt name fn = (GEAS_OK, rt') → r_no_oom rt →
  (∃ pd, resolve_pledge_name rt name = Some pd ∧ find_binding rt' pd = fn ∧
     ∀ q, q ≠ pd → find_binding rt' q = find_binding rt q) ∧
  ∃ st fns rt'', resolve_dispatch rt' d = (st, fns, rt'') ∧
    match st with
    | GEAS_OK => fns = imap (dispatch rt' d) (d_pledges d) ∧ Forall (λ f, f ≠ 0) fns
    | GEAS_ERR_UNBOUND => ∃ i pd, d_pledges d !! i = Some pd ∧ dispatch rt' d i pd = 0
    | _ => False
    end.
Proof.
  unfold geas_pledge_bind. intros H Hno. destruct (Z.eqb_spec fn 0); [done|].
  destruct (frozen rt); [done|]. destruct (resolve_pledge_name rt name) as [pd|]; [|done].
  assert (Hmal : r_malloc rt' = r_malloc rt).
  { destruct (rebind _ _ _); [by injection H as <-|]. destruct (_ =? _)%nat; [done|by injection H as <-]. }
  split.
  - exists pd. split; [done|]. unfold find_binding.
    destruct (rebind pd fn (bindings rt)) as [l|] eqn:E.
    + injection H as <-. simpl. split.
      * rewrite (find_rebind _ _ _ _ E). unfold pledge_eqb. by rewrite bool_decide_eq_true_2.
      * intros q Hq. rewrite (find_rebind _ _ _ _ E). unfold pledge_eqb at 1.
        by rewrite bool_decide_eq_false_2.
    + destruct (_ =? _)%nat; [done|]. injection H as <-. simpl. split.
      * rewrite find_app, (rebind_None _ _ _ E). simpl. unfold pledge_eqb.
        by rewrite bool_decide_eq_true_2.
      * intros q Hq. rewrite find_app. destruct (List.find _ (bindings rt)); [done|]. simpl.
        unfold pledge_eqb. by rewrite bool_decide_eq_false_2.
  - unfold resolve_dispatch, r_alloc. destruct (Nat.eqb_spec (length (d_pledges d)) 0).
    { destruct (d_pledges d); [|done]. eexists _, _, _. split; [reflexivity|]. by split. }
    rewrite Hmal, Hno. cbn [negb].
    set (rt1 := Runtime _ _ _ _ _ _ _ _ _).
    pose proof (resolve_fns_spec rt1 d (d_pledges d) 0) as Hr.
    destruct (resolve_fns rt1 d (d_pledges d) 0) as [fns|]; eexists _, _, _; (split; [reflexivity|]).
    + destruct Hr as [-> ?]. split; [|done]. by apply imap_ext.
    + destruct Hr as (j & x & Hj & Hd). exists j, x. by split.
Qed.

Lemma binding_beats_body_witness : ∃ rt',
  geas_pledge_bind demo_rt "Mail.read" 700 = (GEAS_OK, rt') ∧
  (∃ pd, resolve_pledge_name demo_rt "Mail.read" = Some pd ∧ find_binding rt' pd = 700 ∧
     ∀ q, q ≠ pd → find_binding rt' q = find_binding demo_rt q) ∧
  ∃ st fns rt'', resolve_dispatch rt' demo_mail = (st, fns, rt'') ∧
    match st with
    | GEAS_OK => fns = imap (dispatch rt' demo_mail) (d_pledges demo_mail) ∧ Forall (λ f, f ≠ 0) fns
    | GEAS_ERR_UNBOUND => ∃ i pd, d_pledges demo_mail !! i = Some pd ∧ dispatch rt' demo_mail i pd = 0
    | _ => False
    end.
Proof.
  eexists. split; [vm_compute; reflexivity|].
  apply (binding_beats_body demo_rt "Mail.read" 700).
  - vm_compute. reflexivity.
  - intros n z. vm_compute. reflexivity.
Defined.

(** The freeze latches the registration surface shut: afterwards
    registering, loading and binding answer GEAS_ERR_STATE and change nothing,
    while lookups and dispatch read the same tables as before. *)
Theorem freeze_latches rt rt' dlopen dlsym d path name fn m e :
  geas_runtime_freeze rt = (GEAS_OK, rt') → fn ≠ 0 →
  geas_register_contract rt' d = Some (GEAS_ERR_STATE, rt') ∧
  geas_module_load dlopen dlsym rt' path = Some (GEAS_ERR_STATE, rt') ∧
  geas_pledge_bind rt' name fn = (GEAS_ERR_STATE, rt') ∧
  geas_iname_lookup rt' m = geas_iname_lookup rt m ∧
  resolve_pledge_name rt' name = resolve_pledge_name rt name ∧
  find_desc rt' name = find_desc rt name ∧
  (resolve_dispatch rt' e).1 = (resolve_dispatch rt e).1.
Proof.
  unfold geas_runtime_freeze. intros [= <-] Hfn. split_and!; try done.
  - unfold geas_pledge_bind. rewrite (proj2 (Z.eqb_neq fn 0)) by done. done.
  - unfold resolve_dispatch, r_alloc. simpl. destruct (_ =? 0)%nat; [done|].
    destruct (r_malloc rt (r_ticks rt) _); [|done]. simpl.
    erewrite (resolve_fns_app rt (Runtime _ _ _ _ _ true _ _ _)) by reflexivity.
    erewrite (resolve_fns_app rt (Runtime _ _ _ _ _ (frozen rt) _ _ _)) by reflexivity.
    by destruct (resolve_fns rt e (d_pledges e) 0).
Qed.

Lemma freeze_latches_witness :
  let rt' := with_frozen true demo_rt in
  let dlopen := λ _ : string, Some 5 in
  let dlsym := λ _ : Z, Some (register_all []) in
  geas_register_contract rt' demo_mail = Some (GEAS_ERR_STATE, rt') ∧
  geas_module_load dlopen dlsym rt' "a.so" = Some (GEAS_ERR_STATE, rt') ∧
  geas_pledge_bind rt' "Mail.read" 7 = (GEAS_ERR_STATE, rt') ∧
  geas_iname_lookup rt' "x" = geas_iname_lookup demo_rt "x" ∧
  resolve_pledge_name rt' "Mail.read" = resolve_pledge_name demo_rt "Mail.read" ∧
  find_desc rt' "Mail.read" = find_desc demo_rt "Mail.read" ∧
  (resolve_dispatch rt' demo_mail).1 = (resolve_dispatch demo_rt demo_mail).1.
Proof. apply (freeze_latches demo_rt); [reflexivity|lia]. Defined.

(** A module whose registrar fails part way stays half registered.  When the
    registrar got its first contract in and a later one is refused,
    [geas_module_load] reports the refusal and closes the module, but the
    descriptor it registered stays in the runtime's tables, where sign and
    lookup find it, though its memory belongs to the closed image. *)
Theorem failed_load_leaves_descriptor rt rt1 rt2 d ds st dlopen dlsym path h :
  registry_ok rt → frozen rt = false →
  dlopen path = Some h → dlsym h = Some (register_all (d :: ds)) →
  (∀ x, x ∈ d :: ds → Z.of_nat (String.length (contract_mangled x)) <= INT_MAX) →
  geas_register_contract rt d = Some (GEAS_OK, rt1) →
  register_all ds rt1 = Some (st, rt2) → st ≠ GEAS_OK →
  ∃ rt', geas_module_load dlopen dlsym rt path = Some (st, rt') ∧ h ∈ closed rt' ∧
    find_desc rt' (d_name d) = Some d ∧ geas_iname_lookup rt' (contract_mangled d) =
      Some (GEAS_OK, Some (contract_entry d (contract_mangled d))).
Proof.
  intros Hok Hf Ho Hs Hlen Hreg Hall Hst.
  destruct (register_contract_run rt d Hok) as (s1 & r1 & E1 & Hok1 & Hp); [apply Hlen; left|].
  rewrite Hreg in E1. injection E1 as <- <-. destruct Hp as (_ & Hd & _).
  assert (Hlen' : ∀ x, x ∈ ds → Z.of_nat (String.length (contract_mangled x)) <= INT_MAX).
  { intros x Hx. apply Hlen. by right. }
  destruct (register_all_ok ds rt1 Hlen' Hok1) as (s2 & r2 & E2 & Hok2). rewrite Hall in E2.
  injection E2 as <- <-.
  assert (Hin : d ∈ descs rt2).
  { apply (register_all_keeps ds rt1 st rt2 d Hlen' Hok1 Hall). rewrite Hd. apply elem_of_app. right. left. }
  exists (close_handle h rt2). split_and!.
  - unfold geas_module_load. rewrite Hf, Ho, Hs. cbn [register_all]. rewrite Hreg. cbn [st_ok negb].
    rewrite Hall. by rewrite (proj2 (Bool.negb_true_iff _)) by (by destruct st).
  - left.
  - by apply (find_desc_in rt2).
  - unfold geas_iname_lookup. destruct Hok2 as [Hs2 He2 _ _].
    destruct (iname_find_spec (close_handle h rt2) (contract_mangled d) Hs2) as ([[] pos] & -> & Hpost).
    + destruct Hpost as (x & Hx & Ex). rewrite Hx. do 3 f_equal.
      eapply (sorted_inj (inames rt2)); [done|by eapply list_elem_of_lookup_2| |by rewrite Ex].
      rewrite He2. by apply entries_contract_entry.
    + exfalso. apply (find_miss _ _ _ Hpost). apply list_elem_of_fmap.
      exists (contract_entry d (contract_mangled d)). split; [done|]. simpl. rewrite He2.
      by apply entries_contract_entry.
Qed.

(** A module whose second contract repeats the first one's name. *)
Lemma failed_load_leaves_descriptor_witness :
  ∃ rt', geas_module_load (λ _, Some 5) (λ _, Some (register_all [demo_mail; demo_mail])) empty_rt "m.so"
           = Some (GEAS_ERR_NAME, rt') ∧ 5 ∈ closed rt' ∧
    find_desc rt' (d_name demo_mail) = Some demo_mail ∧
    geas_iname_lookup rt' (contract_mangled demo_mail) =
      Some (GEAS_OK, Some (contract_entry demo_mail (contract_mangled demo_mail))).
Proof.
  eapply (failed_load_leaves_descriptor empty_rt _ _ demo_mail [demo_mail]).
  - apply empty_ok.
  - reflexivity.
  - reflexivity.
  - reflexivity.
  - intros x Hx. rewrite !elem_of_cons in Hx. destruct Hx as [->|[->|Hx]];
      [vm_compute; congruence..|by apply not_elem_of_nil in Hx].
  - vm_compute. reflexivity.
  - vm_compute. reflexivity.
  - done.
Defined.
