(* ===== verification/Frame.v ===== *)
(** * Frames and references

    [runtime.c], the section "pledges" from [ref_copy_in] to [prepare_frame]: the
    argument frame a pledge body sees, the by-reference parameters copied in from
    host memory and written back to it.  Host memory is the same heap: a host
    cell is a byte block no instance owns, read and written at the width of the
    reference's type, little endian. *)
From S2P Require Import Prelude Abi Memory Value.

(** [GeasRef]; a function pointer is a word, 0 for NULL. *)
Record GeasRef := Ref { r_host : Z; r_ty : Z; r_cap : Z; r_wb : Z; r_user : Z }.

(** ** Words in host memory *)

Fixpoint le_val (bs : list Z) : Z :=
  match bs with [] => 0 | b :: bs' => b + 256 * le_val bs' end.

Fixpoint le_bytes (n : nat) (w : Z) : list Z :=
  match n with O => [] | S n' => u8 w :: le_bytes n' (w / 256) end.

(** [*(const uintN_t* )p] *)
Definition load_word (n : nat) (p : Z) : M Z := bs <- load_bytes p n; ret (le_val bs).
(** [*(uintN_t* )p = w] *)
Definition store_word (n : nat) (p w : Z) : M unit := store_bytes p 0 (le_bytes n w).

(** [*(const GeasString* )p]: the pointer and the length. *)
Definition load_gstring (p : Z) : M (Z * Z) :=
  bs <- load_bytes p 16; ret (le_val (take 8 bs), le_val (drop 8 bs)).
Definition store_gstring (p ptr len : Z) : M unit :=
  store_bytes p 0 (le_bytes 8 ptr ++ le_bytes 8 len).

(** ** Copy in *)

(** [slot] is a live frame slot; what a failing call leaves in it is handed back. *)
Definition ref_copy_in (c : Z) (r : GeasRef) (slot : GeasValue) : M (GeasStatus * GeasValue) :=
  if r_host r =? 0 then ret (GEAS_ERR_TYPE, slot) else
  let put w := GV (r_ty r) 0 w 0 0 0 in
  match tag_of (r_ty r) with
  | Some GEAS_TY_INT | Some GEAS_TY_UINT | Some GEAS_TY_FLOAT =>
      w <- load_word 8 (r_host r); ret (GEAS_OK, put w)
  | Some GEAS_TY_BOOL | Some GEAS_TY_BYTE =>
      w <- load_word 1 (r_host r); ret (GEAS_OK, put w)
  | Some GEAS_TY_CHAR =>
      w <- load_word 4 (r_host r); ret (GEAS_OK, put w)
  | Some GEAS_TY_STRING =>
      '(ptr, len) <- load_gstring (r_host r);
      d <- geas_string_copy c ptr len;
      if negb (len =? 0) && (s_ptr d =? 0) then ret (GEAS_ERR_OOM, d) else ret (GEAS_OK, d)
  | _ => ret (GEAS_ERR_TYPE, put 0)
  end.

(** ** Write back

    [callback] is what a host's write-back function does: its address, the host
    pointer, the slot and the user word. *)
Section WriteBack.
Context (callback : Z → Z → GeasValue → Z → M unit).

Definition ref_write_back (r : GeasRef) (slot : GeasValue) : M GeasStatus :=
  if negb (ty slot =? r_ty r) then ret GEAS_ERR_TYPE else
  if negb (r_wb r =? 0) then callback (r_wb r) (r_host r) slot (r_user r);;; ret GEAS_OK else
  match tag_of (r_ty r) with
  | Some GEAS_TY_INT | Some GEAS_TY_UINT | Some GEAS_TY_FLOAT =>
      store_word 8 (r_host r) (w0 slot);;; ret GEAS_OK
  | Some GEAS_TY_BOOL | Some GEAS_TY_BYTE => store_word 1 (r_host r) (as_b slot);;; ret GEAS_OK
  | Some GEAS_TY_CHAR => store_word 4 (r_host r) (as_ch slot);;; ret GEAS_OK
  | Some GEAS_TY_STRING => store_gstring (r_host r) (s_ptr slot) (s_len slot);;; ret GEAS_OK
  | _ => ret GEAS_ERR_TYPE
  end.

(** The slots are [frame + off ..]; the type pass, then the writing pass. *)
Fixpoint check_ref_types (refs : list GeasRef) (frame : Z) (off : nat) : M bool :=
  match refs with
  | [] => ret true
  | r :: refs' =>
      s <- load_slot frame off;
      if negb (ty s =? r_ty r) then ret false else check_ref_types refs' frame (S off)
  end.

Fixpoint write_refs (refs : list GeasRef) (frame : Z) (off : nat) : M GeasStatus :=
  match refs with
  | [] => ret GEAS_OK
  | r :: refs' =>
      s <- load_slot frame off;
      st <- ref_write_back r s;
      if st_ok st then write_refs refs' frame (S off) else ret st
  end.

Definition write_back_refs (refs : list GeasRef) (frame : Z) (off : nat) : M GeasStatus :=
  ok <- check_ref_types refs frame off;
  if negb ok then ret GEAS_ERR_TYPE else write_refs refs frame off.
End WriteBack.

(** ** The frame *)

(** [refs[i]] goes to slot [off + i]. *)
Definition copy_refs (c : Z) (refs : list GeasRef) (frame : Z) (off : nat) : M GeasStatus :=
  for_slots (length refs) 0 (λ i,
    match refs !! i with
    | None => undef
    | Some r =>
        d <- load_slot frame (off + i);
        '(st, d') <- ref_copy_in c r d;
        store_slot frame (off + i) d';;; ret st
    end).

(** [args] is the address of the caller's array of [nargs] values. *)
Definition prepare_frame (fuel : nat) (c args nargs : Z) (refs : list GeasRef)
    : M (GeasStatus * Z) :=
  let total := u64 (nargs + Z.of_nat (length refs)) in
  if total =? 0 then ret (GEAS_OK, 0) else
  frame <- geas_bytes KVals c (slot_bytes total);
  if frame =? 0 then ret (GEAS_ERR_OOM, 0) else
  st <- copy_elems (geas_value_deep_copy fuel c) args frame (Z.to_nat nargs);
  if negb (st_ok st) then ret (st, 0) else
  st <- copy_refs c refs frame (Z.to_nat nargs);
  if negb (st_ok st) then ret (st, 0) else
  ret (GEAS_OK, frame).
