(* ===== verification/FrameSpec.v ===== *)
(** * What frames and references promise

    [host_at h r v]: the host cell of reference [r] holds the value [v].  The
    frame of a fulfillment represents the arguments followed by the host values;
    a write back makes the cells hold the slots' values. *)
From S2P Require Import Prelude Abi Memory Value ValueSpec Frame.

(** ** Little endian words *)

Lemma length_le_bytes n w : length (le_bytes n w) = n.
Proof. revert w. induction n as [|n IH]; intros w; simpl; [done|]. by rewrite IH. Qed.

Lemma le_bytes_u8 n w : Forall is_u8 (le_bytes n w).
Proof. revert w. induction n as [|n IH]; intros w; simpl; constructor; [apply u8_range|apply IH]. Qed.

Lemma le_val_bytes n w : 0 <= w < 256 ^ Z.of_nat n → le_val (le_bytes n w) = w.
Proof.
  revert w. induction n as [|n IH]; intros w Hw; simpl.
  - change (256 ^ Z.of_nat 0) with 1 in Hw. lia.
  - rewrite Nat2Z.inj_succ, Z.pow_succ_r in Hw by lia. rewrite IH.
    + unfold u8. pose proof (Z.div_mod w 256). lia.
    + split; [apply Z.div_pos; lia|]. apply Z.div_lt_upper_bound; lia.
Qed.

Lemma le_val_range bs : Forall is_u8 bs → 0 <= le_val bs < 256 ^ Z.of_nat (length bs).
Proof.
  induction 1 as [|b bs Hb _ IH]; simpl; [done|].
  rewrite Nat2Z.inj_succ, Z.pow_succ_r by lia. unfold is_u8 in Hb. lia.
Qed.

Lemma load_word_eq n p m raw :
  heap m !! p = Some (BBytes raw) → (n ≤ length raw)%nat →
  load_word n p m = Ret (le_val (take n raw)) m.
Proof. intros Hp Hn. unfold load_word. by erewrite bind_Ret by (by apply load_bytes_eq). Qed.

(** ** Host cells *)

(** The width of a scalar reference; strings are 16 bytes of pointer and length. *)
Definition ref_width (k : GeasTypeTag) : option nat :=
  match k with
  | GEAS_TY_INT | GEAS_TY_UINT | GEAS_TY_FLOAT => Some 8%nat
  | GEAS_TY_BOOL | GEAS_TY_BYTE => Some 1%nat
  | GEAS_TY_CHAR => Some 4%nat
  | _ => None
  end.

Definition ref_tag (k : GeasTypeTag) : bool :=
  match ref_width k with Some _ => true | None => bool_decide (k = GEAS_TY_STRING) end.

(** The bytes of a cell hold [v]; a string's own bytes are in [h]. *)
Definition cell_is (h : gmap Z block) (raw : list Z) (v : val) : Prop :=
  Forall is_u8 raw ∧
  match v with
  | VScalar k tg w =>
      tg = 0 ∧ ∃ n, ref_width k = Some n ∧ (n ≤ length raw)%nat ∧ w = le_val (take n raw)
  | VString tg bs =>
      tg = 0 ∧ (16 ≤ length raw)%nat ∧ fits_bytes (length bs) ∧
      le_val (take 8 (drop 8 raw)) = Z.of_nat (length bs) ∧ bytes_at h (le_val (take 8 raw)) bs
  | _ => False
  end.

Definition host_at (h : gmap Z block) (r : GeasRef) (v : val) : Prop :=
  r_host r ≠ 0 ∧ r_ty r = tag_num (val_ty v) ∧
  ∃ raw, h !! r_host r = Some (BBytes raw) ∧ cell_is h raw v.

Lemma bytes_at_mono h h' p bs : h ⊆ h' → bytes_at h p bs → bytes_at h' p bs.
Proof.
  intros Hs [?|(? & raw & ? & ?)]; [by left|right]. split; [done|].
  exists raw. split; [by eapply lookup_weaken|done].
Qed.

Lemma cell_is_mono h h' raw v : h ⊆ h' → cell_is h raw v → cell_is h' raw v.
Proof.
  intros Hs [Hu H]. split; [done|]. destruct v; try done.
  destruct H as (? & ? & ? & ? & ?). split_and!; auto. by eapply bytes_at_mono.
Qed.

Lemma host_at_mono h h' r v : h ⊆ h' → host_at h r v → host_at h' r v.
Proof.
  intros Hs (Hn & Ht & raw & Hr & H). split_and!; [done..|].
  exists raw. split; [by eapply lookup_weaken|by eapply cell_is_mono].
Qed.

(** ** Copy in *)

(** One reference: new blocks for a string only, and the slot stands for the host
    value. *)
Lemma wp_ref_copy_in c r slot v m :
  mem_wf m → live c m → host_at (heap m) r v →
  wp (ref_copy_in c r slot) m (λ '(st, d) m', ∃ hn, grown c m hn m' ∧
    (st = GEAS_OK ∧ repr hn d v ∨ st = GEAS_ERR_OOM ∧ refused m m')).
Proof.
  intros Hwf Hl (Hn & Ht & raw & Hr & Hu & H). unfold ref_copy_in.
  rewrite (proj2 (Z.eqb_neq _ _)) by done. rewrite Ht, tag_of_num.
  destruct v as [k tg w|tg bs|? ? ? ?|? ? ?]; try done; simpl val_ty.
  - destruct H as (-> & n & Hk & Hlen & ->).
    assert (Hb : 0 <= le_val (take n raw) < 256 ^ Z.of_nat n).
    { pose proof (le_val_range (take n raw) (Forall_take _ _ _ Hu)) as B.
      by rewrite length_take_le in B. }
    assert (D : ∃ hn, grown c m hn m ∧ (GEAS_OK = GEAS_OK ∧
        repr hn (GV (tag_num k) 0 (le_val (take n raw)) 0 0 0) (VScalar k 0 (le_val (take n raw))) ∨
        GEAS_OK = GEAS_ERR_OOM ∧ refused m m)).
    { exists ∅. split; [by apply grown_refl|]. left. split; [done|].
      destruct k; try done; injection Hk as <-; simpl in *; split_and!; try done;
        unfold as_b, as_ch; simpl; (apply u8_id || apply u32_id); unfold is_u8, is_u32; lia. }
    destruct k; try done; injection Hk as <-; apply wp_bind, wp_run; eexists _, m;
      (split; [apply (load_word_eq _ _ _ raw); done|]); apply wp_ret; exact D.
  - destruct H as (-> & H16 & Hf & Hlen & Hat). apply wp_bind.
    unfold load_gstring. apply wp_bind. eapply wp_load_bytes; [exact Hr|done|]. apply wp_ret.
    assert (E1 : take 8 (take 16 raw) = take 8 raw) by (rewrite take_take; done).
    assert (E2 : drop 8 (take 16 raw) = take 8 (drop 8 raw)) by (rewrite (take_drop_commute raw 8 8); done).
    rewrite E1, E2, Hlen. apply wp_bind. eapply wp_mono; [by apply wp_string_copy|].
    intros d m' (hn & G & [[Hd Hr']|[-> Href]]); simpl.
    + rewrite (proj2 (Z.eqb_neq (s_ptr d) 0)) by done. rewrite andb_false_r. apply wp_ret. eauto.
    + destruct (Z.of_nat (length bs) =? 0) eqn:E; simpl; apply wp_ret; exists hn; (split; [done|]).
      * left. destruct bs; [|done]. simpl. split_and!; auto.
      * by right.
Qed.

Lemma wp_copy_refs c m refs vs off data :
  Forall2 (host_at (heap m)) refs vs → live c m →
  ∀ n i m1 hd ds els,
    (i + n = length refs)%nat → length els = (off + i)%nat →
    grown c m (<[data := BVals ds]> hd) m1 → hd !! data = None →
    (off + length refs ≤ length ds)%nat → reprs hd ds els →
    wp (for_slots n i (λ i,
          match refs !! i with
          | None => undef
          | Some r =>
              d <- load_slot data (off + i);
              '(st, d') <- ref_copy_in c r d;
              store_slot data (off + i) d';;; ret st
          end)) m1
      (λ st m2, ∃ hd' ds', grown c m (<[data := BVals ds']> hd') m2 ∧ hd' !! data = None ∧
        length ds' = length ds ∧
        ((st = GEAS_OK ∧ reprs hd' ds' (els ++ drop i vs)) ∨
         (st = GEAS_ERR_OOM ∧ refused m m2))).
Proof.
  intros Hvs Hlive. pose proof (Forall2_length _ _ _ Hvs) as Hlen.
  induction n as [|n IH]; intros i m1 hd ds els Hi Hels G Hdata Hfit Hr; simpl.
  { apply wp_ret. exists hd, ds. split_and!; [done..|]. left. split; [done|].
    rewrite drop_ge, app_nil_r by lia. done. }
  destruct (lookup_lt_is_Some_2 refs i) as [r Hri]; [lia|]. rewrite Hri.
  destruct (Forall2_lookup_l _ _ _ _ _ Hvs Hri) as (v & Hv & Hat).
  destruct (lookup_lt_is_Some_2 ds (off + i)%nat) as [d0 Hd0]; [lia|].
  assert (Hdl : heap m1 !! data = Some (BVals ds)).
  { eapply lookup_weaken; [|eapply grown_incl_new; eauto]. apply lookup_insert_eq. }
  pose proof (gr_wf _ _ _ _ G) as Hwf1.
  pose proof (grown_live _ _ _ _ G Hlive) as Hlive1.
  do 2 apply wp_bind. eapply wp_load_slot; [exact Hdl|exact Hd0|]. apply wp_bind.
  eapply wp_mono.
  { apply (wp_ref_copy_in c r d0 v); [done..|].
    eapply host_at_mono; [by eapply grown_incl|exact Hat]. }
  intros [st d] m2 (h2 & G2 & Hres).
  apply wp_bind. eapply wp_store_slot.
  { eapply lookup_weaken; [exact Hdl|]. by eapply grown_incl. }
  { lia. }
  apply wp_ret.
  destruct (fill_grown _ _ _ _ _ _ _ _ (off + i)%nat d G Hdata G2) as [G3 Hn].
  destruct Hres as [[-> Hrep]|[-> Href]]; simpl.
  - rewrite (drop_cons_lookup _ _ _ Hv). rewrite cons_middle, app_assoc.
    rewrite <- (length_insert ds (off + i) d).
    eapply IH; [lia|rewrite length_app; simpl; lia|exact G3|done|by rewrite length_insert|].
    rewrite <- Hels. eapply fill_reprs; [done..|lia|done].
  - apply wp_ret. eexists _, _. split; [exact G3|]. split; [done|].
    split; [by rewrite length_insert|]. right. split; [done|].
    destruct (refused_trans_r _ _ _ _ _ G Href) as (k & z & ? & ?). exists k, z. by split.
Qed.

(** ** The frame *)

(** [nargs] values readable at [args]. *)
Definition args_at (h : gmap Z block) (args : Z) (els : list val) : Prop :=
  els = [] ∨ args ≠ 0 ∧ ∃ ss, h !! args = Some (BVals ss) ∧ reprs h ss els.

Lemma wp_prepare_frame fuel c args refs els vs m :
  mem_wf m → live c m → args_at (heap m) args els → Forall2 (host_at (heap m)) refs vs →
  (heights els ≤ fuel)%nat → fits_slots (length els + length refs) →
  wp (prepare_frame fuel c args (Z.of_nat (length els)) refs) m (λ '(st, p) m', ∃ hn,
    grown c m hn m' ∧
    (st = GEAS_OK ∧
       (els ++ vs = [] ∧ p = 0 ∨
        p ≠ 0 ∧ ∃ ss hd, hn = <[p := BVals ss]> hd ∧ hd !! p = None ∧
          length ss = (length els + length refs)%nat ∧ reprs hd ss (map scrub els ++ vs)) ∨
     st = GEAS_ERR_OOM ∧ p = 0 ∧ refused m m')).
Proof.
  intros Hwf Hl Hargs Hvs Hfuel Hfits. unfold prepare_frame.
  pose proof (Forall2_length _ _ _ Hvs) as Hlen.
  set (n := (length els + length refs)%nat) in *.
  assert (Hn : Z.of_nat (length els) + Z.of_nat (length refs) = Z.of_nat n) by (subst n; lia).
  rewrite Hn. destruct (slot_bytes_fits n Hfits) as [Hsb _].
  rewrite u64_id by (revert Hfits; unfold fits_slots, sizeof_GeasBlock, sizeof_GeasValue; zlia).
  rewrite Hsb. destruct (Z.eqb_spec (Z.of_nat n) 0) as [E0|Hne].
  { apply wp_ret. exists ∅. split; [by apply grown_refl|]. left. split; [done|]. left.
    split; [|done]. apply app_nil. split; apply length_zero_iff_nil; lia. }
  apply wp_bind. revert Hfits. unfold fits_slots, sizeof_GeasValue. intros Hfits.
  apply wp_geas_bytes; auto; [lia|..]; cycle 1.
  { intros m1 G Href. rewrite Z.eqb_refl. apply wp_ret. exists ∅. split; [done|]. by right. }
  intros m1 G Hb. rewrite (proj2 (Z.eqb_neq _ 0)) by done. apply wp_bind.
  assert (Hok : ∀ t, t ∈ els → copy_ok fuel c t).
  { intros t Ht. apply wp_deep_copy. apply list_elem_of_lookup in Ht as [i Hi].
    pose proof (heights_lookup _ _ _ Hi). lia. }
  assert (Hlds : length (replicate (Z.to_nat (Z.of_nat n * 40 / sizeof_GeasValue)) (lib_junk_val (lib m))) = n).
  { unfold sizeof_GeasValue. by rewrite Z.div_mul, Nat2Z.id, length_replicate by lia. }
  rewrite Nat2Z.id. eapply (wp_mono _ _ (λ st m2, ∃ hd' ds',
      grown c m (<[brk m := BVals ds']> hd') m2 ∧ hd' !! brk m = None ∧ length ds' = n ∧
      ((st = GEAS_OK ∧ reprs hd' ds' (map scrub els)) ∨ (st = GEAS_ERR_OOM ∧ refused m m2)))).
  { unfold copy_elems. destruct Hargs as [->|(Ha & ss & Hss & Hreprs)].
    - simpl. apply wp_ret. eexists ∅, _. split; [exact G|]. split; [apply lookup_empty|].
      split; [done|]. left. split; [done|]. apply reprs_nil.
    - eapply wp_mono.
      + eapply (wp_copy_elems fuel c m els _ ss (brk m) Hok Ha Hss Hreprs _ 0 m1 ∅ _);
          [done|exact G|apply lookup_empty|done|subst n; lia|rewrite take_0; apply reprs_nil].
      + intros st m2 (hd & ds & G2 & Hd & Hld & Hres). exists hd, ds. split_and!; auto. by rewrite Hld. }
  intros st m2 (hd & ds & G2 & Hd & Hld & [[-> Hr]|[-> Href]]); simpl; cycle 1.
  { apply wp_ret. eexists. split; [exact G2|]. by right. }
  apply wp_bind. eapply wp_mono.
  { eapply (wp_copy_refs c m refs vs (length els) (brk m) Hvs Hl _ 0 m2 hd ds);
      [done|by rewrite length_map, Nat.add_0_r|exact G2|done|subst n; lia|exact Hr]. }
  intros st m3 (hd3 & ds3 & G3 & Hd3 & Hl3 & [[-> Hr3]|[-> Href]]); simpl; apply wp_ret.
  - eexists. split; [exact G3|]. left. split; [done|]. right. split; [done|].
    exists ds3, hd3. split_and!; auto. by rewrite Hl3.
  - eexists. split; [exact G3|]. by right.
Qed.

(** *** A frame that cannot be built

    Whatever the arguments and the references are: a run of [prepare_frame] only
    adds blocks to its instance, and it refuses with GEAS_ERR_TYPE, or with
    GEAS_ERR_OOM when the allocator refused.  [pwp] is the partial counterpart of
    [wp]: it speaks of the runs that return. *)
Section Refuse.
Context (c : Z) (m0 : mem).

Definition built (m : mem) : Prop := ∃ hn, grown c m0 hn m.
Definition pwp {A} (e : M A) (m : mem) (Q : A → mem → Prop) : Prop :=
  match e m with Ret a m' => built m' ∧ (ticks m ≤ ticks m')%nat ∧ Q a m' | _ => True end.
Definition refusal (st : GeasStatus) (m : mem) : Prop :=
  st = GEAS_OK ∨ st = GEAS_ERR_TYPE ∨ st = GEAS_ERR_OOM ∧ refused m0 m.
(** A pointer just asked for: NULL by a refusal, or a block that is new. *)
Definition newptr (p : Z) (m : mem) : Prop := if p =? 0 then refused m0 m else brk m0 <= p.

Lemma pwp_ret {A} (a : A) m (Q : A → mem → Prop) : built m → Q a m → pwp (ret a) m Q.
Proof. intros Hb HQ. by split. Qed.
Lemma pwp_undef {A} m (Q : A → mem → Prop) : pwp undef m Q.
Proof. done. Qed.
Lemma pwp_bind {A B} (e : M A) (k : A → M B) m (Q : B → mem → Prop) :
  pwp e m (λ a m1, built m1 → (ticks m ≤ ticks m1)%nat → pwp (k a) m1 Q) → pwp (bind e k) m Q.
Proof.
  unfold pwp, bind. destruct (e m) as [a m1| |]; try done. intros (Hb & Ht & H). specialize (H Hb Ht).
  destruct (k a m1) as [b m2| |]; try done. destruct H as (? & ? & ?). split_and!; [done|lia|done].
Qed.
Lemma pwp_mono {A} (e : M A) m (Q Q' : A → mem → Prop) :
  pwp e m Q → (∀ a m', Q a m' → (ticks m ≤ ticks m')%nat → Q' a m') → pwp e m Q'.
Proof. unfold pwp. destruct (e m); [|done..]. intros (? & ? & ?) K. auto. Qed.

Lemma refused_later m m' : refused m0 m → (ticks m ≤ ticks m')%nat → refused m0 m'.
Proof. intros (n & z & ? & ?) ?. exists n, z. split; [lia|done]. Qed.
Lemma refusal_later st m m' : refusal st m → (ticks m ≤ ticks m')%nat → refusal st m'.
Proof. unfold refusal. intros [?|[?|[? ?]]] ?; eauto 6 using refused_later. Qed.

(** Reads leave memory alone; a write into a new block stays inside the growth. *)
Lemma pwp_read {A} (e : M A) m : (∀ a m', e m = Ret a m' → m' = m) → built m → pwp e m (λ _ m', m' = m).
Proof.
  unfold pwp. intros Hs Hb. destruct (e m) as [a m'| |]; try done. by rewrite (Hs a m' eq_refl).
Qed.
Lemma built_update p b m b' :
  built m → brk m0 <= p → mem_wf m0 → heap m !! p = Some b → built (set_heap (λ h, <[p := b']> h) m).
Proof.
  intros [hn G] Hp Hwf Hb. destruct (hn !! p) as [x|] eqn:E; [eexists; by eapply grown_update|].
  rewrite (gr_heap _ _ _ _ G), lookup_union_r in Hb by done.
  destruct (wf_dom _ Hwf p) as [_ ?]; [eauto|lia].
Qed.
End Refuse.

Section RefuseRules.
Context (c : Z) (m0 : mem) (Hwf : mem_wf m0) (Hl : live c m0).
Implicit Types (m : mem).

Lemma pwp_geas_bytes k n m : built c m0 m → pwp c m0 (geas_bytes k c n) m (newptr m0).
Proof.
  intros [hn G]. pose proof (grown_live _ _ _ _ G Hl) as Hlm. pose proof (gr_wf _ _ _ _ G) as Hwm.
  unfold pwp, geas_bytes. rewrite (proj2 (Z.eqb_neq c 0)) by apply Hl.
  destruct (lib_malloc _ _ _) eqn:Em.
  - destruct (_ <? _); [done|].
    destruct (grown_alloc c m (fresh_block (lib m) k n) Hwm Hlm) as (bl & -> & Hb & G').
    split; [eexists; by eapply grown_trans|]. split; [simpl; lia|]. unfold newptr.
    rewrite (proj2 (Z.eqb_neq _ _)) by done. apply (gr_brk _ _ _ _ G).
  - split; [eexists; by apply grown_tick|]. split; [simpl; lia|].
    destruct G as [_ _ _ _ _ E T _]. exists (ticks m), (u64 (sizeof_GeasBlock + n)).
    rewrite <- E. simpl. split; [lia|done].
Qed.

Lemma pwp_store_slot p i v m : built c m0 m → brk m0 <= p →
  pwp c m0 (store_slot p i v) m (λ _ m', ticks m' = ticks m).
Proof.
  intros Hb Hp. unfold pwp, store_slot. destruct (heap m !! p) as [[|vs]|] eqn:E; try done.
  destruct (decide _); [|done]. split; [by eapply built_update|]. by split.
Qed.
Lemma pwp_store_bytes p off bs m : built c m0 m → brk m0 <= p →
  pwp c m0 (store_bytes p off bs) m (λ _ m', ticks m' = ticks m).
Proof.
  intros Hb Hp. unfold pwp, store_bytes. destruct (heap m !! p) as [[|vs]|] eqn:E; try done.
  destruct (decide _); [|done]. split; [by eapply built_update|]. by split.
Qed.
Lemma pwp_zero_slots p n m : built c m0 m → brk m0 <= p →
  pwp c m0 (zero_slots p n) m (λ _ m', ticks m' = ticks m).
Proof.
  intros Hb Hp. unfold pwp, zero_slots. destruct (heap m !! p) as [[|vs]|] eqn:E; try done.
  destruct (decide _); [|done]. split; [by eapply built_update|]. by split.
Qed.

Lemma load_slot_same p i m v m' : load_slot p i m = Ret v m' → m' = m.
Proof. unfold load_slot. by destruct (heap m !! p) as [[|vs]|]; try done; destruct (vs !! i); intros; simplify_eq. Qed.
Lemma load_opt_same p i m v m' : load_opt p i m = Ret v m' → m' = m.
Proof.
  unfold load_opt. destruct (_ && _); [by intros [= <- <-]|]. unfold bind.
  destruct (load_slot p i m) as [x m1| |] eqn:E; try done. intros [= <- <-]. by eapply load_slot_same.
Qed.
Lemma load_bytes_same p n m v m' : load_bytes p n m = Ret v m' → m' = m.
Proof. unfold load_bytes. destruct (heap m !! p) as [[]|]; try done. by destruct (decide _); intros; simplify_eq. Qed.

(** The rules in the form [pwp_go] applies: a continuation from any later memory. *)
Lemma pwp_step {A B} (e : M A) (k : A → M B) m (Q : A → mem → Prop) (R : B → mem → Prop) :
  pwp c m0 e m Q →
  (∀ a m1, built c m0 m1 → (ticks m ≤ ticks m1)%nat → Q a m1 → pwp c m0 (k a) m1 R) →
  pwp c m0 (bind e k) m R.
Proof.
  intros He Hk. apply pwp_bind. unfold pwp in He |- *. destruct (e m) as [a m1| |]; try done.
  destruct He as (? & ? & ?). split_and!; [done|done|]. intros. by apply Hk.
Qed.

Lemma pwp_string_copy p len m : built c m0 m →
  pwp c m0 (geas_string_copy c p len) m (λ d m', newptr m0 (s_ptr d) m').
Proof.
  intros Hb. unfold geas_string_copy, string_copy_from.
  eapply pwp_step; [by apply pwp_geas_bytes|]. intros q m1 B1 _ Hq. unfold newptr in Hq.
  destruct (Z.eqb_spec q 0) as [|Hne]; [apply pwp_ret; [done|exact Hq]|].
  assert (F : ∀ m2, built c m0 m2 → pwp c m0 (ret (g_string q len)) m2 (λ d m', newptr m0 (s_ptr d) m')).
  { intros m2 B2. apply pwp_ret; [done|]. unfold newptr. simpl. by rewrite (proj2 (Z.eqb_neq _ _)). }
  destruct (len =? 0); [eapply pwp_step; [by apply (pwp_ret _ _ tt _ (λ _ _, True))|]; auto|].
  eapply (pwp_step _ _ _ (λ _ _, True)); [|auto].
  eapply pwp_step; [apply pwp_read; [|done]; intros ??; apply load_bytes_same|].
  intros bs m2 B2 _ _. eapply pwp_mono; [by apply pwp_store_bytes|done].
Qed.

Lemma pwp_box m : built c m0 m → pwp c m0 (geas_box c) m (newptr m0).
Proof.
  intros Hb. unfold geas_box. eapply pwp_step; [by apply pwp_geas_bytes|].
  intros q m1 B1 _ Hq. destruct (Z.eqb_spec q 0) as [->|Hne]; [by apply pwp_ret|].
  unfold newptr in Hq. rewrite (proj2 (Z.eqb_neq _ _)) in Hq by done.
  eapply pwp_step; [by apply pwp_zero_slots|]. intros _ m2 B2 _ _. apply pwp_ret; [done|].
  unfold newptr. by rewrite (proj2 (Z.eqb_neq _ _)).
Qed.

(** A loop that stops at the first refusal: when it does not, every round passed. *)
Lemma pwp_for_slots (body : nat → M GeasStatus) (P : nat → Prop) :
  (∀ i m, built c m0 m → pwp c m0 (body i) m (λ st m', refusal m0 st m' ∧ (st = GEAS_OK → P i))) →
  ∀ n i m, built c m0 m → pwp c m0 (for_slots n i body) m
    (λ st m', refusal m0 st m' ∧ (st = GEAS_OK → ∀ j, (i ≤ j < i + n)%nat → P j)).
Proof.
  intros Hbody. induction n as [|n IH]; intros i m Hb; simpl.
  { apply pwp_ret; [done|]. split; [by left|]. intros _ j ?. lia. }
  eapply pwp_step; [by apply Hbody|]. intros st m1 B1 _ [Hr HP]. destruct (st_ok st) eqn:E; cycle 1.
  { apply pwp_ret; [done|]. split; [done|]. by intros ->. }
  apply st_ok_spec in E. eapply pwp_mono; [by apply IH|]. intros st' m2 [Hr' HP'] _. split; [done|].
  intros Eo j Hj. destruct (decide (j = i)) as [->|]; [auto|]. apply HP'; [done|lia].
Qed.

(** Storing what a copy left and passing its status on. *)
Lemma pwp_put p i d st m (P : Prop) : built c m0 m → brk m0 <= p → refusal m0 st m → (st = GEAS_OK → P) →
  pwp c m0 (store_slot p i d;;; ret st) m (λ st m', refusal m0 st m' ∧ (st = GEAS_OK → P)).
Proof.
  intros Hb Hp Hr HP. eapply pwp_step; [by apply pwp_store_slot|]. intros _ m1 B1 Ht _.
  apply pwp_ret; [done|]. split; [|done]. by eapply refusal_later.
Qed.

Lemma pwp_load_slot p i m : built c m0 m → pwp c m0 (load_slot p i) m (λ _ m', m' = m).
Proof. apply pwp_read. intros ??. apply load_slot_same. Qed.
Lemma pwp_load_opt p i m : built c m0 m → pwp c m0 (load_opt p i) m (λ _ m', m' = m).
Proof. apply pwp_read. intros ??. apply load_opt_same. Qed.

Lemma pwp_copy_elems copy from data n m :
  (∀ x d m, built c m0 m → pwp c m0 (copy x d) m (λ r m', refusal m0 r.1 m')) →
  built c m0 m → brk m0 <= data → pwp c m0 (copy_elems copy from data n) m (refusal m0).
Proof.
  intros Hc Hb Hd. eapply pwp_mono; [apply (pwp_for_slots _ (λ _, True)); [|done]|by intros ?? [? _]].
  clear m Hb. intros i m Hb. eapply pwp_step; [by apply pwp_load_opt|]. intros x m1 B1 _ ->.
  eapply pwp_step; [by apply pwp_load_slot|]. intros d m2 B2 _ ->.
  eapply pwp_step; [by apply Hc|]. intros [st d'] m3 B3 _ Hr. by apply pwp_put.
Qed.

Lemma pwp_deep_copy fuel src dst m : built c m0 m →
  pwp c m0 (geas_value_deep_copy fuel c src dst) m (λ r m', refusal m0 r.1 m').
Proof.
  revert src dst m. induction fuel as [|fuel IH]; intros src dst m Hb; [done|].
  assert (R : ∀ st (d : GeasValue) m1, built c m0 m1 → refusal m0 st m1 →
    pwp c m0 (ret (st, d)) m1 (λ r m', refusal m0 r.1 m')) by (intros; by apply pwp_ret).
  assert (ROk : ∀ m1, refusal m0 GEAS_OK m1) by (by left).
  assert (RTy : ∀ m1, refusal m0 GEAS_ERR_TYPE m1) by (right; by left).
  assert (ROom : ∀ m1, refused m0 m1 → refusal m0 GEAS_ERR_OOM m1) by (intros; right; by right).
  destruct src as [src|]; [|by apply R]. cbn [geas_value_deep_copy].
  rewrite (proj2 (Z.eqb_neq c 0)) by apply Hl.
  destruct (tag_of (ty src)) as [[]|]; try (by apply R).
  all: try (eapply pwp_step; [by apply pwp_string_copy|]; intros d m1 B1 _ Hd; unfold newptr in Hd;
    destruct (s_ptr d =? 0); rewrite ?andb_true_r, ?andb_false_r;
    [destruct (negb _); apply R; auto|by apply R]).
  all: cbv zeta; destruct (_ =? 0); [by apply R|].
  all: try (eapply pwp_step; [by apply pwp_geas_bytes|]; intros p m1 B1 _ Hp; unfold newptr in Hp;
    destruct (p =? 0); [by apply R; auto|];
    eapply pwp_step; [by apply pwp_copy_elems|]; intros st m2 B2 _ Hr; destruct (st_ok st); by apply R).
  all: eapply pwp_step; [by apply pwp_box|]; intros p m1 B1 _ Hp; unfold newptr in Hp;
    destruct (p =? 0); [by apply R; auto|];
    eapply pwp_step; [by apply pwp_load_opt|]; intros x m2 B2 _ ->;
    eapply pwp_step; [by apply pwp_load_slot|]; intros b m2 B3 _ ->;
    eapply pwp_step; [by apply IH|]; intros [st b'] m3 B4 _ Hr;
    eapply pwp_step; [by apply pwp_store_slot|]; intros _ m4 B5 Ht _;
    destruct (st_ok st); apply R; auto; by eapply refusal_later.
Qed.

(** What a reference needs to cross: a host address and a type that crosses. *)
Definition crosses (r : GeasRef) : Prop := r_host r ≠ 0 ∧ ∃ k, tag_of (r_ty r) = Some k ∧ ref_tag k = true.

Lemma load_word_same n p m v m' : load_word n p m = Ret v m' → m' = m.
Proof.
  unfold load_word, bind. destruct (load_bytes p n m) as [bs m1| |] eqn:E; try done.
  intros [= <- <-]. by eapply load_bytes_same.
Qed.
Lemma load_gstring_same p m v m' : load_gstring p m = Ret v m' → m' = m.
Proof.
  unfold load_gstring, bind. destruct (load_bytes p _ m) as [bs m1| |] eqn:E; try done.
  intros [= <- <-]. by eapply load_bytes_same.
Qed.

Lemma pwp_ref_copy_in r slot m : built c m0 m →
  pwp c m0 (ref_copy_in c r slot) m (λ '(st, _) m', refusal m0 st m' ∧ (st = GEAS_OK → crosses r)).
Proof.
  intros Hb. unfold ref_copy_in.
  destruct (Z.eqb_spec (r_host r) 0) as [|Hn]; [apply pwp_ret; [done|]; split; [right; by left|done]|].
  destruct (tag_of (r_ty r)) as [k|] eqn:Ek; [|apply pwp_ret; [done|]; split; [right; by left|done]].
  assert (C : ref_tag k = true → crosses r) by (intros; split; eauto).
  destruct k; try (apply pwp_ret; [done|]; split; [right; by left|done]).
  all: try (eapply pwp_step; [apply pwp_read; [|done]; intros ??; apply load_word_same|];
    intros w m1 B1 _ _; apply pwp_ret; [done|]; split; [by left|auto]).
  eapply pwp_step; [apply pwp_read; [|done]; intros ??; apply load_gstring_same|].
  intros [p len] m1 B1 _ _. eapply pwp_step; [by apply pwp_string_copy|]. intros d m2 B2 _ Hd.
  unfold newptr in Hd. destruct (s_ptr d =? 0); rewrite ?andb_true_r, ?andb_false_r.
  - destruct (negb _); apply pwp_ret; try done; (split; [|auto]); [right; by right|by left].
  - apply pwp_ret; [done|]. split; [by left|auto].
Qed.

Lemma pwp_prepare_frame fuel args nargs refs m : built c m0 m →
  pwp c m0 (prepare_frame fuel c args nargs refs) m (λ '(st, p) m',
    refusal m0 st m' ∧ (st ≠ GEAS_OK → p = 0) ∧
    (st = GEAS_OK → u64 (nargs + Z.of_nat (length refs)) ≠ 0 → Forall crosses refs)).
Proof.
  intros Hb. unfold prepare_frame. destruct (Z.eqb_spec (u64 (nargs + Z.of_nat (length refs))) 0) as [E|E].
  { apply pwp_ret; [done|]. split_and!; [by left|done|done]. }
  eapply pwp_step; [by apply pwp_geas_bytes|]. intros p m1 B1 _ Hp. unfold newptr in Hp.
  destruct (p =? 0); [apply pwp_ret; [done|]; split_and!; [right; by right|done|done]|].
  eapply pwp_step; [apply pwp_copy_elems; [|done..]; intros; by apply pwp_deep_copy|].
  intros st m2 B2 _ Hr. destruct (st_ok st) eqn:Est; simpl; cycle 1.
  { apply pwp_ret; [done|]. split_and!; [done|done|by intros ->]. }
  eapply pwp_step.
  { apply (pwp_for_slots _ (λ i, ∀ r, refs !! i = Some r → crosses r)); [|exact B2]. clear -Hl Hwf Hp.
    intros i m Hb. destruct (refs !! i) as [r|]; [|done].
    eapply pwp_step; [by apply pwp_load_slot|]. intros d m1 B1 _ ->.
    eapply pwp_step; [by apply pwp_ref_copy_in|]. intros [st d'] m2 B2 _ [Hr Hc].
    apply pwp_put; auto. intros Eo r' ?. simplify_eq. auto. }
  intros st' m3 B3 _ [Hr' HP]. destruct (st_ok st') eqn:Est'; simpl; cycle 1.
  { apply pwp_ret; [done|]. split_and!; [done|done|by intros ->]. }
  apply st_ok_spec in Est' as ->. apply pwp_ret; [done|]. split_and!; [by left|done|].
  intros _ _. apply Forall_lookup. intros i r Hi. eapply HP; [done| |exact Hi].
  split; [lia|]. by eapply lookup_lt_Some.
Qed.
End RefuseRules.

(** ** Write back *)

Lemma check_ref_types_run refs frame off m ss :
  heap m !! frame = Some (BVals ss) → (off + length refs ≤ length ss)%nat →
  check_ref_types refs frame off m =
  Ret (forallb (λ '(r, s), ty s =? r_ty r) (zip refs (drop off ss))) m.
Proof.
  intros Hf. revert off. induction refs as [|r refs IH]; intros off Hl; simpl in *; [done|].
  destruct (lookup_lt_is_Some_2 ss off) as [s Hs]; [lia|].
  erewrite bind_Ret by (by eapply load_slot_eq). rewrite (drop_cons_lookup _ _ _ Hs). simpl.
  destruct (ty s =? r_ty r); simpl; [|done]. rewrite IH by lia. done.
Qed.

(** A cell wide enough for the reference's type. *)
Definition ref_room (h : gmap Z block) (r : GeasRef) (k : GeasTypeTag) : Prop :=
  r_host r ≠ 0 ∧ r_ty r = tag_num k ∧ r_wb r = 0 ∧
  ∃ raw, h !! r_host r = Some (BBytes raw) ∧ Forall is_u8 raw ∧
    match ref_width k with Some n => n ≤ length raw | None => k = GEAS_TY_STRING ∧ 16 ≤ length raw end%nat.

(** What a reference can carry of a slot: the value without its variant tag. *)
Definition host_val (t : val) : val :=
  match t with VScalar k _ w => VScalar k 0 w | VString _ bs => VString 0 bs | _ => t end.

(** The cell after a default write back. *)
Lemma cell_after hk n w raw v :
  Forall is_u8 raw → (n ≤ length raw)%nat → 0 <= w < 256 ^ Z.of_nat n →
  (∀ raw', Forall is_u8 raw' → (n ≤ length raw')%nat → le_val (take n raw') = w → cell_is hk raw' v) →
  cell_is hk (list_inserts 0 (le_bytes n w) raw) v.
Proof.
  intros Hu Hn Hw H. apply H.
  - apply Forall_inserts; [done|apply le_bytes_u8].
  - by rewrite length_inserts.
  - pose proof (list_inserts_take_eq (le_bytes n w) raw) as E. rewrite length_le_bytes in E.
    rewrite E by done. by apply le_val_bytes.
Qed.

Definition word_slot (s : GeasValue) : Prop := is_u64 (w0 s) ∧ is_u64 (w1 s).

Section WriteBackSpec.
Context (callback : Z → Z → GeasValue → Z → M unit).

Lemma ref_write_back_run hk r s v m :
  ref_room (heap m) r (val_ty v) → ref_tag (val_ty v) = true → repr hk s v → word_slot s →
  ∃ raw', ref_write_back callback r s m =
      Ret GEAS_OK (set_heap (λ h, <[r_host r := BBytes raw']> h) m) ∧ cell_is hk raw' (host_val v).
Proof.
  intros (Hn & Ht & Hw & raw & Hr & Hu & Hroom) Htag Hrep [Hw0 Hw1]. unfold ref_write_back.
  rewrite (repr_ty _ _ _ Hrep), Ht, Z.eqb_refl, Hw, tag_of_num. simpl negb. cbn iota.
  assert (St : ∀ bs, (length bs ≤ length raw)%nat →
    store_bytes (r_host r) 0 bs m =
    Ret tt (set_heap (λ h, <[r_host r := BBytes (list_inserts 0 bs raw)]> h) m)).
  { intros bs Hb. unfold store_bytes. rewrite Hr. by rewrite decide_True by lia. }
  destruct v as [k tg w|tg bs| |]; simpl val_ty in *;
    [| |by destruct Hrep as (_ & Hk & _); destruct k..].
  - destruct Hrep as (_ & Hsk & _ & Harm). unfold is_u64 in Hw0.
    assert (W : ∀ n w', (n ≤ length raw)%nat → ref_width k = Some n → w' = w → 0 <= w' < 256 ^ Z.of_nat n →
      ∃ raw', (store_word n (r_host r) w';;; ret GEAS_OK) m =
        Ret GEAS_OK (set_heap (λ h, <[r_host r := BBytes raw']> h) m) ∧
        cell_is hk raw' (VScalar k 0 w)).
    { intros n w' Hnl Hk -> Hb. exists (list_inserts 0 (le_bytes n w) raw). split.
      - unfold store_word. erewrite bind_Ret by (apply St; by rewrite length_le_bytes). done.
      - apply cell_after; [done..|]. intros raw' Hu' Hn' He. split; [done|]. split; [done|].
        exists n. by split_and!. }
    unfold ref_tag in Htag. simpl host_val.
    destruct k; simpl in *; try done; apply W; try done; unfold as_b, as_ch;
      try apply u8_range; try apply u32_range; subst; try done.
  - destruct Hroom as [_ H16]. destruct Hrep as (_ & _ & Hlen & Hfits & Hp).
    exists (list_inserts 0 (le_bytes 8 (s_ptr s) ++ le_bytes 8 (s_len s)) raw). split.
    { change ((store_gstring (r_host r) (s_ptr s) (s_len s);;; ret GEAS_OK) m = Ret GEAS_OK
        (set_heap (λ h, <[r_host r := BBytes (list_inserts 0 (le_bytes 8 (s_ptr s) ++ le_bytes 8 (s_len s)) raw)]> h) m)).
      unfold store_gstring. erewrite bind_Ret by (apply St; rewrite length_app, !length_le_bytes; simpl; lia). done. }
    set (bb := le_bytes 8 (s_ptr s) ++ le_bytes 8 (s_len s)).
    assert (Hbb : length bb = 16%nat) by (subst bb; by rewrite length_app, !length_le_bytes).
    pose proof (list_inserts_take_eq bb raw) as E. rewrite Hbb in E. specialize (E H16).
    assert (E1 : take 8 (list_inserts 0 bb raw) = le_bytes 8 (s_ptr s)).
    { change 8%nat with (min 8 16). rewrite <- take_take, E. subst bb.
      rewrite take_app_length' by (by rewrite length_le_bytes). done. }
    assert (E2 : take 8 (drop 8 (list_inserts 0 bb raw)) = le_bytes 8 (s_len s)).
    { rewrite take_drop_commute. simpl Nat.add. rewrite E. subst bb.
      rewrite drop_app_length' by (by rewrite length_le_bytes). done. }
    assert (Hpow : 256 ^ Z.of_nat 8 = 18446744073709551616) by done.
    split; [|split_and!].
    + apply Forall_inserts; [done|]. apply Forall_app. split; apply le_bytes_u8.
    + done.
    + by rewrite length_inserts.
    + done.
    + rewrite E2, le_val_bytes by (unfold is_u64 in Hw1; unfold s_len; lia). done.
    + rewrite E1, le_val_bytes by (unfold is_u64 in Hw0; unfold s_ptr; lia). exact Hp.
Qed.

(** The writing pass over distinct cells apart from the frame and what the slots
    point at. *)
Lemma write_refs_run hk frame ss :
  hk !! frame = Some (BVals ss) →
  ∀ refs vs off m,
    hk ⊆ heap m → mem_wf m → (off + length refs ≤ length ss)%nat →
    NoDup (map r_host refs) → (∀ r, r ∈ refs → hk !! r_host r = None) →
    Forall2 (λ r v, ref_room (heap m) r (val_ty v) ∧ ref_tag (val_ty v) = true) refs vs →
    Forall2 (λ s v, repr hk s v ∧ word_slot s) (take (length refs) (drop off ss)) vs →
    wp (write_refs callback refs frame off) m (λ st m', st = GEAS_OK ∧ mem_wf m' ∧ hk ⊆ heap m' ∧
      owned m' = owned m ∧
      (∀ p, p ∉ map r_host refs → heap m' !! p = heap m !! p) ∧
      Forall2 (λ r v, host_at (heap m') r (host_val v)) refs vs).
Proof.
  intros Hf. induction refs as [|r refs IH]; intros vs off m Hsub Hwf Hl Hnd Hno Hroom Hrep; simpl.
  { apply Forall2_nil_inv_l in Hroom as ->. apply wp_ret. by split_and!. }
  apply Forall2_cons_inv_l in Hroom as (v & vs' & [Hr Htag] & Hroom & ->).
  destruct (lookup_lt_is_Some_2 ss off) as [s Hs]; [simpl in Hl; lia|].
  rewrite (drop_cons_lookup _ _ _ Hs) in Hrep. simpl in Hrep, Hnd.
  apply Forall2_cons in Hrep as [[Hsv Hsw] Hrep]. apply NoDup_cons in Hnd as [Hni Hnd].
  apply wp_bind. eapply wp_load_slot; [by eapply lookup_weaken|exact Hs|]. apply wp_bind, wp_run.
  destruct (ref_write_back_run hk r s v m Hr Htag Hsv Hsw) as (raw' & Hrun & Hcell).
  eexists _, _. split; [exact Hrun|]. simpl.
  set (m1 := set_heap _ m).
  assert (Hhk : hk !! r_host r = None) by (apply Hno; left).
  assert (Hsub1 : hk ⊆ heap m1) by (by apply insert_subseteq_r).
  eapply wp_mono; [apply (IH vs' (S off) m1); try done|].
  - apply mem_wf_update; [done|]. destruct Hr as (_ & _ & _ & raw & -> & _). by eexists.
  - simpl in Hl. lia.
  - intros r' Hr'. apply Hno. by right.
  - eapply Forall2_impl_in; [exact Hroom|]. intros r' v' Hin [(? & ? & ? & raw & Hraw & ?) ?].
    split; [|done]. split_and!; [done..|]. exists raw. split; [|done]. simpl.
    rewrite lookup_insert_ne; [done|]. intros E. apply Hni, list_elem_of_fmap. eauto.
  - intros st m' (-> & Hwf' & Hs' & Ho & Hk & Hall). split_and!; try done.
    + intros p Hp. apply not_elem_of_cons in Hp as [Hp1 Hp2]. rewrite Hk by done. simpl.
      by rewrite lookup_insert_ne.
    + constructor; [|done]. destruct Hr as (Hrn & Hrt & _). split_and!; [done|by rewrite Hrt; destruct v|].
      exists raw'. split; [|by eapply cell_is_mono].
      rewrite Hk by done. simpl. apply lookup_insert_eq.
Qed.

(** *** The write back always finishes

    Whatever the slots hold: all it needs is that the frame and the host's cells
    are still allocated, and that a host callback comes back. *)

(** A block keeps its kind and its length. *)
Definition shape_le (b b' : block) : Prop :=
  match b, b' with
  | BBytes x, BBytes y => length y = length x
  | BVals x, BVals y => length y = length x
  | _, _ => b' = b
  end.
Definition cells_kept (h h' : gmap Z block) : Prop :=
  ∀ p b, h !! p = Some b → ∃ b', h' !! p = Some b' ∧ shape_le b b'.

(** The bytes a default write back of a reference of type [k] writes. *)
Definition wb_width (k : Z) : option nat :=
  match tag_of k with
  | Some GEAS_TY_STRING => Some 16%nat | Some k => ref_width k | None => None
  end.

(** The host's side of a reference: a callback that returns and frees nothing, or
    a cell wide enough for the type. *)
Definition ref_ready (h : gmap Z block) (r : GeasRef) : Prop :=
  if r_wb r =? 0 then
    ∀ n, wb_width (r_ty r) = Some n → ∃ raw, h !! r_host r = Some (BBytes raw) ∧ (n ≤ length raw)%nat
  else ∀ slot m, ∃ m', callback (r_wb r) (r_host r) slot (r_user r) m = Ret tt m' ∧
                       cells_kept (heap m) (heap m').

Definition refs_ready (h : gmap Z block) (frame : Z) (off : nat) (refs : list GeasRef) : Prop :=
  (∃ ss, h !! frame = Some (BVals ss) ∧ (off + length refs ≤ length ss)%nat) ∧
  Forall (ref_ready h) refs.

Lemma shape_le_refl b : shape_le b b.
Proof. by destruct b. Qed.
Lemma shape_le_trans a b c : shape_le a b → shape_le b c → shape_le a c.
Proof. destruct a, b; simpl; try done; destruct c; simpl; congruence. Qed.
Lemma cells_kept_refl h : cells_kept h h.
Proof. intros p b H. exists b. split; [done|apply shape_le_refl]. Qed.
Lemma cells_kept_trans h1 h2 h3 : cells_kept h1 h2 → cells_kept h2 h3 → cells_kept h1 h3.
Proof.
  intros H1 H2 p b H. destruct (H1 _ _ H) as (b1 & K1 & S1). destruct (H2 _ _ K1) as (b2 & K2 & S2).
  exists b2. split; [done|]. by eapply shape_le_trans.
Qed.
Lemma cells_kept_bytes h p raw raw' :
  h !! p = Some (BBytes raw) → length raw' = length raw → cells_kept h (<[p := BBytes raw']> h).
Proof.
  intros Hp Hl q b Hq. destruct (decide (p = q)) as [<-|Hne].
  - rewrite lookup_insert_eq. simplify_eq. eauto.
  - rewrite lookup_insert_ne by done. exists b. split; [done|apply shape_le_refl].
Qed.

Lemma ref_ready_kept h h' r : cells_kept h h' → ref_ready h r → ref_ready h' r.
Proof.
  unfold ref_ready. intros K. destruct (r_wb r =? 0); [|done]. intros H n Hn.
  destruct (H n Hn) as (raw & Hr & Hl). destruct (K _ _ Hr) as ([raw'|] & Hr' & S); [|done].
  exists raw'. simpl in S. split; [done|lia].
Qed.
Lemma refs_ready_kept h h' frame off refs :
  cells_kept h h' → refs_ready h frame off refs → refs_ready h' frame off refs.
Proof.
  intros K [(ss & Hf & Hl) Hr]. split.
  - destruct (K _ _ Hf) as ([|ss'] & Hf' & S); [done|]. exists ss'. simpl in S. split; [done|lia].
  - eapply Forall_impl; [exact Hr|]. intros r. by apply ref_ready_kept.
Qed.

Lemma store_bytes_kept p bs m raw :
  heap m !! p = Some (BBytes raw) → (length bs ≤ length raw)%nat →
  ∃ m', store_bytes p 0 bs m = Ret tt m' ∧ cells_kept (heap m) (heap m').
Proof.
  intros Hp Hl. unfold store_bytes. rewrite Hp, decide_True by (simpl; lia).
  eexists. split; [done|]. simpl. eapply cells_kept_bytes; [done|]. by rewrite length_inserts.
Qed.

Lemma ref_write_back_returns r s m : ref_ready (heap m) r →
  ∃ st m', ref_write_back callback r s m = Ret st m' ∧ cells_kept (heap m) (heap m').
Proof.
  unfold ref_ready, ref_write_back. intros H.
  destruct (negb (ty s =? r_ty r)); [eexists _, m; split; [done|apply cells_kept_refl]|].
  destruct (r_wb r =? 0) eqn:Ew; simpl; cycle 1.
  { destruct (H s m) as (m' & Hr & K). exists GEAS_OK, m'. by erewrite bind_Ret by exact Hr. }
  assert (St : ∀ n bs, wb_width (r_ty r) = Some n → length bs = n → ∃ st m',
    (store_bytes (r_host r) 0 bs;;; ret GEAS_OK) m = Ret st m' ∧ cells_kept (heap m) (heap m')).
  { intros n bs Hn Hl. destruct (H n Hn) as (raw & Hraw & Hle).
    destruct (store_bytes_kept _ bs _ _ Hraw) as (m' & Hs & K); [lia|].
    exists GEAS_OK, m'. by erewrite bind_Ret by exact Hs. }
  unfold wb_width in St. destruct (tag_of (r_ty r)) as [[]|];
    first [ eapply St; [reflexivity|];
            rewrite ?length_app, ?length_le_bytes; reflexivity
          | eexists _, m; split; [done|apply cells_kept_refl] ].
Qed.

Lemma write_refs_returns frame : ∀ refs off m, refs_ready (heap m) frame off refs →
  ∃ st m', write_refs callback refs frame off m = Ret st m' ∧ cells_kept (heap m) (heap m').
Proof.
  induction refs as [|r refs IH]; intros off m [(ss & Hf & Hl) Hr]; simpl in *.
  { exists GEAS_OK, m. split; [done|apply cells_kept_refl]. }
  apply Forall_cons in Hr as [Hr Hrs]. destruct (lookup_lt_is_Some_2 ss off) as [s Hs]; [lia|].
  erewrite bind_Ret by (by eapply load_slot_eq).
  destruct (ref_write_back_returns r s m Hr) as (st & m1 & H1 & K1). rewrite (bind_Ret _ _ _ _ _ H1).
  destruct (st_ok st); [|by exists st, m1].
  destruct (IH (S off) m1) as (st' & m' & H2 & K2).
  { eapply refs_ready_kept; [exact K1|]. split; [exists ss; split; [done|lia]|done]. }
  exists st', m'. split; [done|]. by eapply cells_kept_trans.
Qed.

(** The type pass refuses before a byte is written; otherwise the writes run. *)
Lemma write_back_returns frame off refs m : refs_ready (heap m) frame off refs →
  ∃ wb m', write_back_refs callback refs frame off m = Ret wb m' ∧ cells_kept (heap m) (heap m').
Proof.
  intros H. pose proof H as [(ss & Hf & Hl) _]. unfold write_back_refs.
  erewrite bind_Ret by (by eapply check_ref_types_run).
  destruct (forallb _ _); simpl; [by apply write_refs_returns|].
  eexists _, m. split; [done|apply cells_kept_refl].
Qed.
End WriteBackSpec.
