(* ===== verification/FrameProps.v ===== *)
(** * Frames and references: the theorems *)
From S2P Require Import Prelude Abi Memory Value ValueSpec ValueProps Frame FrameSpec.

(** ** A concrete call

    The memory of [ValueProps] with two host cells: an [int64_t] holding 5 at 15
    and a [GeasString] pointing at block 10 at 16. *)
Lemma mem_wf_add m p b : mem_wf m → 0 < p < brk m → mem_wf (set_heap (λ h, <[p := b]> h) m).
Proof.
  intros [Hb Hd Ho Hn Hdj] Hp. split; simpl; auto.
  - intros q [->|[_ Hq]]%lookup_insert_is_Some; auto.
  - intros c' bl q Hc Hq. apply lookup_insert_is_Some.
    destruct (decide (p = q)); [by left|right]. eauto.
Qed.

Definition int_cell : list Z := [5; 0; 0; 0; 0; 0; 0; 0].
Definition str_cell : list Z := [10; 0; 0; 0; 0; 0; 0; 0; 2; 0; 0; 0; 0; 0; 0; 0].
Definition call_mem : mem :=
  set_heap (λ h, <[16 := BBytes str_cell]> h) (set_heap (λ h, <[15 := BBytes int_cell]> h) demo_mem).
Definition int_ref : GeasRef := Ref 15 (tag_num GEAS_TY_INT) 8 0 0.
Definition str_ref : GeasRef := Ref 16 (tag_num GEAS_TY_STRING) 16 0 0.

Lemma call_mem_wf : mem_wf call_mem.
Proof. apply mem_wf_add; [apply mem_wf_add; [apply demo_mem_wf|]|]; simpl; lia. Qed.
Lemma call_live : live 2 call_mem.
Proof. split; [done|]. by eexists. Qed.

Lemma cell_u8 bs : forallb (λ b, (0 <=? b) && (b <? 256)) bs = true → Forall is_u8 bs.
Proof.
  rewrite forallb_forall, Forall_forall. intros H b Hb. specialize (H b).
  rewrite <- list_elem_of_In, andb_true_iff in H. unfold is_u8. specialize (H Hb). lia.
Qed.

Lemma call_hosts : Forall2 (host_at (heap call_mem)) [int_ref; str_ref]
  [VScalar GEAS_TY_INT 0 5; VString 0 [104; 105]].
Proof.
  repeat constructor; try done.
  - exists int_cell. split; [done|]. split; [by apply cell_u8|]. split; [done|].
    exists 8%nat. split_and!; [done|simpl; lia|done].
  - exists str_cell. split; [done|]. split; [by apply cell_u8|]. split_and!; try done.
    right. split; [done|]. eexists. split; reflexivity.
Qed.

Lemma call_args : args_at (heap call_mem) 12 [VScalar GEAS_TY_INT 0 7; VString 0 [104; 105]].
Proof.
  right. split; [done|]. eexists. split; [reflexivity|].
  intros [|[|i]] t Ht; simplify_eq/=; eexists; (split; [reflexivity|]); [done|].
  simpl. split_and!; try done. right. split; [done|]. eexists. split; reflexivity.
Qed.

(** [prepare_frame] builds the frame a pledge body sees.  For arguments that
    stand for values and references whose host cells hold values of the types
    they name, it always returns: GEAS_OK with one slot per declared parameter,
    the arguments deep copied first and the host values behind them, all of it in
    blocks new to the instance (no frame at all when there is no parameter), or,
    only when an allocation was refused, GEAS_ERR_OOM and no frame.  Nothing that
    existed before the call changes. *)
Theorem prepare_frame_correct fuel c args refs els vs m :
  mem_wf m → live c m → args_at (heap m) args els → Forall2 (host_at (heap m)) refs vs →
  (heights els ≤ fuel)%nat → fits_slots (length els + length refs) →
  ∃ st p m' hn,
    prepare_frame fuel c args (Z.of_nat (length els)) refs m = Ret (st, p) m' ∧
    grown c m hn m' ∧
    (no_oom m → st = GEAS_OK) ∧
    match st with
    | GEAS_OK =>
        els ++ vs = [] ∧ p = 0 ∨
        p ≠ 0 ∧ ∃ ss hd, hn = <[p := BVals ss]> hd ∧ hd !! p = None ∧
          length ss = (length els + length refs)%nat ∧ reprs hd ss (map scrub els ++ vs)
    | GEAS_ERR_OOM => p = 0 ∧ refused m m'
    | _ => False
    end.
Proof.
  intros Hwf Hl Ha Hv Hf Hs.
  pose proof (wp_prepare_frame fuel c args refs els vs m Hwf Hl Ha Hv Hf Hs) as H.
  apply wp_run in H as ([st p] & m' & Hrun & hn & G & Hres). exists st, p, m', hn.
  destruct Hres as [[-> Hres]|(-> & -> & Href)]; (split_and!; try done).
  intros Hno. by apply no_oom_refused in Href.
Qed.

Lemma prepare_frame_correct_witness :
  ∃ st p m' hn,
    prepare_frame 1 2 12 2 [int_ref; str_ref] call_mem = Ret (st, p) m' ∧
    grown 2 call_mem hn m' ∧
    (no_oom call_mem → st = GEAS_OK) ∧
    match st with
    | GEAS_OK =>
        [VScalar GEAS_TY_INT 0 7; VString 0 [104; 105]] ++ [VScalar GEAS_TY_INT 0 5; VString 0 [104; 105]] = []
          ∧ p = 0 ∨
        p ≠ 0 ∧ ∃ ss hd, hn = <[p := BVals ss]> hd ∧ hd !! p = None ∧
          length ss = 4%nat ∧
          reprs hd ss (map scrub [VScalar GEAS_TY_INT 0 7; VString 0 [104; 105]] ++
                       [VScalar GEAS_TY_INT 0 5; VString 0 [104; 105]])
    | GEAS_ERR_OOM => p = 0 ∧ refused call_mem m'
    | _ => False
    end.
Proof.
  apply (prepare_frame_correct 1 2 12 [int_ref; str_ref]
    [VScalar GEAS_TY_INT 0 7; VString 0 [104; 105]]
    [VScalar GEAS_TY_INT 0 5; VString 0 [104; 105]] call_mem).
  - apply call_mem_wf.
  - apply call_live.
  - apply call_args.
  - apply call_hosts.
  - vm_compute. lia.
  - vm_compute. congruence.
Defined.

(** [write_back_refs].  When some slot's type is not its reference's, the
    answer is GEAS_ERR_TYPE and not one host byte is written.  When every type
    matches and the references carry no callback, each names its own cell wide
    enough for its type, apart from the frame and what the slots point at, then
    the answer is GEAS_OK, every cell holds its slot's value, and no other block
    and no ownership changes.  A reference whose slot the body left alone thus
    reads back what was copied in. *)
Theorem write_back_correct callback hk frame ss refs vs off m :
  hk !! frame = Some (BVals ss) → hk ⊆ heap m → mem_wf m →
  (off + length refs ≤ length ss)%nat →
  (forallb (λ '(r, s), ty s =? r_ty r) (zip refs (drop off ss)) = false →
   write_back_refs callback refs frame off m = Ret GEAS_ERR_TYPE m) ∧
  (NoDup (map r_host refs) → (∀ r, r ∈ refs → hk !! r_host r = None) →
   Forall2 (λ r v, ref_room (heap m) r (val_ty v) ∧ ref_tag (val_ty v) = true) refs vs →
   Forall2 (λ s v, repr hk s v ∧ word_slot s) (take (length refs) (drop off ss)) vs →
   ∃ m', write_back_refs callback refs frame off m = Ret GEAS_OK m' ∧ mem_wf m' ∧
     owned m' = owned m ∧ (∀ p, p ∉ map r_host refs → heap m' !! p = heap m !! p) ∧
     Forall2 (λ r v, host_at (heap m') r (host_val v)) refs vs).
Proof.
  intros Hf Hsub Hwf Hl.
  pose proof (check_ref_types_run refs frame off m ss (lookup_weaken _ _ _ _ Hf Hsub) Hl) as Hc.
  unfold write_back_refs. rewrite (bind_Ret _ _ _ _ _ Hc). split; [by intros ->|].
  intros Hnd Hno Hroom Hrep.
  assert (E : forallb (λ '(r, s), ty s =? r_ty r) (zip refs (drop off ss)) = true).
  { clear -Hroom Hrep. revert ss off vs Hroom Hrep. induction refs as [|r refs IH]; intros ss off vs Hroom Hrep; [done|].
    apply Forall2_cons_inv_l in Hroom as (v & vs' & [Hr _] & Hroom & ->).
    destruct (drop off ss) as [|s rest] eqn:Ed; simpl in *; [by apply Forall2_nil_cons_inv in Hrep|].
    apply Forall2_cons in Hrep as [[Hs _] Hrep]. apply andb_true_iff. split.
    - destruct Hr as (_ & -> & _). rewrite (repr_ty _ _ _ Hs). apply Z.eqb_refl.
    - replace rest with (drop 0 rest) in Hrep |- * by done. by eapply IH. }
  rewrite E. simpl.
  pose proof (write_refs_run callback hk frame ss Hf refs vs off m Hsub Hwf Hl Hnd Hno Hroom Hrep) as H.
  apply wp_run in H as (st & m' & Hrun & -> & ? & ? & ? & ? & ?). exists m'. by split_and!.
Qed.

(** The frame a call over [call_mem] builds, with the string slot rewritten to
    the number 9 in the first reference. *)
Definition after_mem : mem :=
  set_heap (λ h, <[17 := BVals [g_scalar GEAS_TY_INT 9; hi_text]]> h) call_mem.

Lemma after_mem_wf : mem_wf after_mem.
Proof. apply mem_wf_add; [apply call_mem_wf|simpl; lia]. Qed.

Lemma write_back_correct_witness :
  let refs := [int_ref; str_ref] in
  let hk := {[17 := BVals [g_scalar GEAS_TY_INT 9; hi_text]; 10 := BBytes [104; 105]]} : gmap Z block in
  let cb := λ _ _ _ _, ret tt in
  let vs := [VScalar GEAS_TY_INT 0 9; VString 0 [104; 105]] in
  let ss := [g_scalar GEAS_TY_INT 9; hi_text] in
  (forallb (λ '(r, s), ty s =? r_ty r) (zip refs (drop 0 ss)) = false →
   write_back_refs cb refs 17 0 after_mem = Ret GEAS_ERR_TYPE after_mem) ∧
  ∃ m', write_back_refs cb refs 17 0 after_mem = Ret GEAS_OK m' ∧ mem_wf m' ∧
     owned m' = owned after_mem ∧
     (∀ p, p ∉ map r_host refs → heap m' !! p = heap after_mem !! p) ∧
     Forall2 (λ r v, host_at (heap m') r (host_val v)) refs vs.
Proof.
  intros refs hk cb vs ss.
  destruct (write_back_correct cb hk 17 ss refs vs 0 after_mem) as [H1 H2].
  - reflexivity.
  - apply map_subseteq_spec. intros i x. unfold hk.
    rewrite lookup_insert_Some, lookup_singleton_Some.
    intros [[<- <-]|[_ [<- <-]]]; reflexivity.
  - apply after_mem_wf.
  - simpl. lia.
  - split; [exact H1|]. apply H2.
    + repeat constructor; rewrite ?list_elem_of_singleton; try done. by apply not_elem_of_nil.
    + intros r [->|[->|[]%not_elem_of_nil]%elem_of_cons]%elem_of_cons; reflexivity.
    + repeat constructor; try done; eexists; (split; [reflexivity|]); (split; [by apply cell_u8|]); simpl; lia || (split; [done|lia]).
    + apply Forall2_cons. split; [by split_and!|]. apply Forall2_cons. split; [|by constructor].
      split; [|by split_and!]. split_and!; try done.
      right. split; [done|]. eexists. split; reflexivity.
Defined.
