(* ===== verification/Policy.v ===== *)
(** * The instance record, the requirements evaluator and the partial result

    [runtime.c]: [struct GeasContract], the sections "the partial result" (its
    pure half) and "the requirements evaluator".  Everything here runs with the
    instance lock held, so it is a function of the instance record. *)
From S2P Require Import Prelude Abi.

(** ** Latches and the instance *)

Inductive latch := PLEDGE_PENDING | PLEDGE_FULFILLED | PLEDGE_BROKEN.
#[export] Instance latch_eq_dec : EqDecision latch.
Proof. solve_decision. Defined.

Inductive txn_slot := TXN_NONE | TXN_OPEN | TXN_DONE.
#[export] Instance txn_slot_eq_dec : EqDecision txn_slot.
Proof. solve_decision. Defined.

(** The fields of [struct GeasContract] the instance lock guards.  A pointer
    field that is NULL until sign fills it is an [option] or the word 0; the
    block list [owned] lives in [Memory], the futures list in [Futures]. *)
Record GeasContract := Contract {
  c_desc : GeasContractDesc;
  c_state : GeasContractState;
  c_vow_vals : Z;
  c_fns : list Z;
  c_shape_hash : Z;
  c_signed_at : Z;
  c_pledge_state : option (list latch);
  c_pledge_err : list GeasValue;
  c_sub_txn : option (list txn_slot);
  c_store : option Z
}.

Definition with_state (s : GeasContractState) (c : GeasContract) : GeasContract :=
  Contract (c_desc c) s (c_vow_vals c) (c_fns c) (c_shape_hash c) (c_signed_at c)
    (c_pledge_state c) (c_pledge_err c) (c_sub_txn c) (c_store c).
Definition with_latches (l : list latch) (c : GeasContract) : GeasContract :=
  Contract (c_desc c) (c_state c) (c_vow_vals c) (c_fns c) (c_shape_hash c) (c_signed_at c)
    (Some l) (c_pledge_err c) (c_sub_txn c) (c_store c).
Definition with_errs (l : list GeasValue) (c : GeasContract) : GeasContract :=
  Contract (c_desc c) (c_state c) (c_vow_vals c) (c_fns c) (c_shape_hash c) (c_signed_at c)
    (c_pledge_state c) l (c_sub_txn c) (c_store c).
Definition with_txn (l : list txn_slot) (c : GeasContract) : GeasContract :=
  Contract (c_desc c) (c_state c) (c_vow_vals c) (c_fns c) (c_shape_hash c) (c_signed_at c)
    (c_pledge_state c) (c_pledge_err c) (Some l) (c_store c).
Definition with_store (s : option Z) (c : GeasContract) : GeasContract :=
  Contract (c_desc c) (c_state c) (c_vow_vals c) (c_fns c) (c_shape_hash c) (c_signed_at c)
    (c_pledge_state c) (c_pledge_err c) (c_sub_txn c) s.
(** [c->vow_vals = NULL; c->fns = NULL], the tail of [contract_free_owned]. *)
Definition with_no_tables (c : GeasContract) : GeasContract :=
  Contract (c_desc c) (c_state c) 0 [] (c_shape_hash c) (c_signed_at c)
    (c_pledge_state c) (c_pledge_err c) (c_sub_txn c) (c_store c).

Definition nsubs (d : GeasContractDesc) : Z := Z.of_nat (length (d_subs d)).
Definition npledges (d : GeasContractDesc) : Z := Z.of_nat (length (d_pledges d)).

(** ** Items *)

Definition sub_is_loose (d : GeasContractDesc) (s : Z) : bool := (s <? 0) || (nsubs d <=? u32 s).

Definition pledge_is_loose (d : GeasContractDesc) (i : nat) : bool :=
  match d_pledges d !! i with Some p => sub_is_loose d (p_sub p) | None => true end.

(** The pledge loop of [sub_all] over pledges and latches side by side. *)
Fixpoint sub_all_go (d : GeasContractDesc) (s : Z) (want : latch) (ps : list GeasPledgeDesc)
    (ls : list latch) (seen : bool) : bool :=
  match ps, ls with
  | p :: ps', l :: ls' =>
      if negb (p_sub p =? s) || (nsubs d <=? u32 (p_sub p))
      then sub_all_go d s want ps' ls' seen
      else if bool_decide (l = want) then sub_all_go d s want ps' ls' true else false
  | _, _ => seen
  end.

Definition sub_all (c : GeasContract) (s : Z) (want : latch) : bool :=
  match c_pledge_state c with
  | None => false
  | Some ls => sub_all_go (c_desc c) (i32 s) want (d_pledges (c_desc c)) ls false
  end.

(** ** The requirements evaluator *)

Definition atom_true (c : GeasContract) (a : GeasReqAtom) : bool :=
  let want := if a_kind a =? atom_num GEAS_ATOM_BROKEN then PLEDGE_BROKEN else PLEDGE_FULFILLED in
  if 0 <=? a_sub a then sub_all c (u32 (a_sub a)) want
  else if (0 <=? a_pledge a) && (a_pledge a <? npledges (c_desc c)) then
    match c_pledge_state c with
    | None => false
    | Some ls => bool_decide (ls !! Z.to_nat (a_pledge a) = Some want)
    end
  else false.

Definition REQ_STACK_MAX : nat := 128.

(** The stack top is the head of the list.  [None] is the early [return 0]. *)
Definition eval_op (c : GeasContract) (st : list bool) (o : GeasReqOp) : option (list bool) :=
  if o_op o =? req_num GEAS_REQ_ATOM then
    if (REQ_STACK_MAX <=? length st)%nat then None
    else match d_atoms (c_desc c) !! Z.to_nat (o_atom o) with
         | Some a => Some (atom_true c a :: st)
         | None => None
         end
  else if o_op o =? req_num GEAS_REQ_NOT then
    match st with x :: st' => Some (negb x :: st') | [] => None end
  else if o_op o =? req_num GEAS_REQ_AND then
    match st with y :: x :: st' => Some ((x && y) :: st') | _ => None end
  else if o_op o =? req_num GEAS_REQ_OR then
    match st with y :: x :: st' => Some ((x || y) :: st') | _ => None end
  else None.

Fixpoint eval_ops (c : GeasContract) (ops : list GeasReqOp) (st : list bool) : option (list bool) :=
  match ops with
  | [] => Some st
  | o :: ops' => match eval_op c st o with Some st' => eval_ops c ops' st' | None => None end
  end.

Definition eval_line (c : GeasContract) (ops : list GeasReqOp) : bool :=
  match ops with
  | [] => false
  | _ => match eval_ops c ops [] with Some [x] => x | _ => false end
  end.

(** The two loops of [default_line]. *)
Fixpoint default_subs (c : GeasContract) (want : latch) (n : nat) (s : Z) (seen : bool) : option bool :=
  match n with
  | O => Some seen
  | S n' => if sub_all c s want then default_subs c want n' (s + 1) true else None
  end.

Fixpoint default_loose (d : GeasContractDesc) (want : latch) (ps : list GeasPledgeDesc)
    (ls : list latch) (seen : bool) : bool :=
  match ps, ls with
  | p :: ps', l :: ls' =>
      if negb (sub_is_loose d (p_sub p)) then default_loose d want ps' ls' seen
      else if bool_decide (l = want) then default_loose d want ps' ls' true else false
  | _, _ => seen
  end.

Definition default_line (c : GeasContract) (want : latch) : bool :=
  match c_pledge_state c with
  | None => false
  | Some ls =>
      match default_subs c want (length (d_subs (c_desc c))) 0 false with
      | None => false
      | Some seen => default_loose (c_desc c) want (d_pledges (c_desc c)) ls seen
      end
  end.

Fixpoint any_sub (c : GeasContract) (want : latch) (n : nat) (s : Z) : bool :=
  match n with
  | O => false
  | S n' => if sub_all c s want then true else any_sub c want n' (s + 1)
  end.

Definition default_partial (c : GeasContract) : bool :=
  any_sub c PLEDGE_FULFILLED (length (d_subs (c_desc c))) 0.

(** The break line is armed by the first broken pledge. *)
Definition armed (c : GeasContract) : bool :=
  match c_pledge_state c with
  | None => false
  | Some ls => existsb (λ l, bool_decide (l = PLEDGE_BROKEN)) ls
  end.

Definition has_trees (d : GeasContractDesc) : bool :=
  negb (d_has_reqs d =? 0) || (0 <? length (d_atoms d))%nat ||
  (0 <? length (d_req_fulfill d))%nat || (0 <? length (d_req_partial d))%nat ||
  (0 <? length (d_req_break d))%nat.

(** The three lines as the policy reads them. *)
Definition policy_lines (c : GeasContract) : bool * bool * bool :=
  let d := c_desc c in
  if has_trees d then
    (armed c && eval_line c (d_req_break d), eval_line c (d_req_fulfill d),
     eval_line c (d_req_partial d))
  else
    (armed c && default_line c PLEDGE_BROKEN, default_line c PLEDGE_FULFILLED, default_partial c).

Definition eval_policy (c : GeasContract) : GeasContract :=
  if bool_decide (c_state c = GEAS_BROKEN) then c else
  let '(brk, ful, par) := policy_lines c in
  if brk then with_state GEAS_BROKEN c
  else if ful then with_state GEAS_FULFILLED c
  else if par then with_state GEAS_PARTIAL c
  else with_state GEAS_SIGNED c.

(** ** The partial result *)

Inductive GeasItemState := GEAS_ITEM_PENDING | GEAS_ITEM_FULFILLED | GEAS_ITEM_BROKEN.
#[export] Instance GeasItemState_eq_dec : EqDecision GeasItemState.
Proof. solve_decision. Defined.

Definition sub_item_state (c : GeasContract) (s : Z) : GeasItemState :=
  if sub_all c s PLEDGE_FULFILLED then GEAS_ITEM_FULFILLED
  else if sub_all c s PLEDGE_BROKEN then GEAS_ITEM_BROKEN
  else GEAS_ITEM_PENDING.

Definition latch_item (l : latch) : GeasItemState :=
  match l with
  | PLEDGE_FULFILLED => GEAS_ITEM_FULFILLED
  | PLEDGE_BROKEN => GEAS_ITEM_BROKEN
  | PLEDGE_PENDING => GEAS_ITEM_PENDING
  end.

Definition loose_item_state (c : GeasContract) (i : nat) : GeasItemState :=
  match c_pledge_state c with
  | None => GEAS_ITEM_PENDING
  | Some ls => match ls !! i with Some l => latch_item l | None => GEAS_ITEM_PENDING end
  end.

(** The walk over the named subcontracts from index [s] on, then over the loose
    pledges from index [i] on: the count of the items in state [k], and the name
    of the [want]-th of them. *)
Definition scan_hit (n want : nat) (name : string) (found : option string) : option string :=
  if (n =? want)%nat then Some name else found.

Fixpoint scan_subs (c : GeasContract) (k : GeasItemState) (want : nat)
    (subs : list (option string)) (s : Z) (n : nat) (found : option string) : nat * option string :=
  match subs with
  | [] => (n, found)
  | None :: subs' => scan_subs c k want subs' (s + 1) n found
  | Some name :: subs' =>
      if bool_decide (sub_item_state c s = k)
      then scan_subs c k want subs' (s + 1) (S n) (scan_hit n want name found)
      else scan_subs c k want subs' (s + 1) n found
  end.

Fixpoint scan_loose (c : GeasContract) (k : GeasItemState) (want : nat)
    (ps : list GeasPledgeDesc) (i : nat) (n : nat) (found : option string) : nat * option string :=
  match ps with
  | [] => (n, found)
  | p :: ps' =>
      if pledge_is_loose (c_desc c) i && bool_decide (loose_item_state c i = k)
      then scan_loose c k want ps' (S i) (S n) (scan_hit n want (p_name p) found)
      else scan_loose c k want ps' (S i) n found
  end.

Definition partial_scan (c : GeasContract) (k : GeasItemState) (want : nat) : nat * option string :=
  let '(n, found) := scan_subs c k want (d_subs (c_desc c)) 0 0 None in
  scan_loose c k want (d_pledges (c_desc c)) 0 n found.

Definition geas_partial_count (c : GeasContract) (k : GeasItemState) : nat := (partial_scan c k 0).1.
Definition geas_partial_name (c : GeasContract) (k : GeasItemState) (i : nat) : option string :=
  (partial_scan c k i).2.

Definition geas_partial_nerrors (c : GeasContract) : nat :=
  match c_pledge_state c with
  | None => 0
  | Some ls => length (filter (λ l, l = PLEDGE_BROKEN) ls)
  end.

(** The [i]-th broken pledge: its name and its payload slot. *)
Fixpoint nth_broken (ls : list latch) (p : nat) (i : nat) : option nat :=
  match ls with
  | [] => None
  | l :: ls' =>
      if bool_decide (l = PLEDGE_BROKEN)
      then match i with O => Some p | S i' => nth_broken ls' (S p) i' end
      else nth_broken ls' (S p) i
  end.

Definition geas_partial_error (c : GeasContract) (i : nat)
    : GeasStatus * option (string * GeasValue) :=
  match c_pledge_state c with
  | None => (GEAS_ERR_NAME, None)
  | Some ls =>
      match nth_broken ls 0 i with
      | None => (GEAS_ERR_NAME, None)
      | Some p =>
          match d_pledges (c_desc c) !! p, c_pledge_err c !! p with
          | Some pd, Some e => (GEAS_OK, Some (p_name pd, e))
          | _, _ => (GEAS_ERR_NAME, None)
          end
      end
  end.
