(* ===== verification/PolicySpec.v ===== *)
(** * What the policy evaluator and the partial result promise

    Requirement formulas and their postfix programs, the items of a contract,
    the structural defaults as trees ([src/compiler/cgenreq.dusk]), and the
    lemmas that relate the loops of [Policy] to them. *)
From S2P Require Import Prelude Abi Policy.

(** ** Requirement formulas *)

Inductive req :=
| RAtom (i : nat)
| RNot (r : req)
| RAnd (a b : req)
| ROr (a b : req).

(** [build_postfix] of [cgenreq.dusk]: the post order walk.  The atom field of an
    emitted op is a [uint8_t]. *)
Definition op_atom (i : nat) : GeasReqOp := ReqOp (req_num GEAS_REQ_ATOM) (u8 (Z.of_nat i)).
Definition op_of (k : req_code) : GeasReqOp := ReqOp (req_num k) 0.

Fixpoint build_postfix (r : req) : list GeasReqOp :=
  match r with
  | RAtom i => [op_atom i]
  | RNot a => build_postfix a ++ [op_of GEAS_REQ_NOT]
  | RAnd a b => build_postfix a ++ build_postfix b ++ [op_of GEAS_REQ_AND]
  | ROr a b => build_postfix a ++ build_postfix b ++ [op_of GEAS_REQ_OR]
  end.

(** The stack slots a formula's program needs. *)
Fixpoint need (r : req) : nat :=
  match r with
  | RAtom _ => 1
  | RNot a => need a
  | RAnd a b | ROr a b => need a `max` S (need b)
  end.

Fixpoint req_true (c : GeasContract) (r : req) : bool :=
  match r with
  | RAtom i => match d_atoms (c_desc c) !! i with Some a => atom_true c a | None => false end
  | RNot a => negb (req_true c a)
  | RAnd a b => req_true c a && req_true c b
  | ROr a b => req_true c a || req_true c b
  end.

(** Every atom a formula names is in the table and fits the op's byte. *)
Fixpoint atoms_in (d : GeasContractDesc) (r : req) : Prop :=
  match r with
  | RAtom i => (i < length (d_atoms d))%nat ∧ (i < 256)%nat
  | RNot a => atoms_in d a
  | RAnd a b | ROr a b => atoms_in d a ∧ atoms_in d b
  end.

Lemma need_pos r : (1 ≤ need r)%nat.
Proof. induction r; simpl; lia. Qed.

Lemma eval_ops_app c a b st :
  eval_ops c (a ++ b) st = match eval_ops c a st with Some st' => eval_ops c b st' | None => None end.
Proof.
  revert st. induction a as [|o a IH]; intros st; simpl; [done|].
  destruct (eval_op c st o); auto.
Qed.

(** One formula's program pushes its value, or runs out of stack. *)
Lemma eval_ops_postfix c r st :
  atoms_in (c_desc c) r →
  eval_ops c (build_postfix r) st =
  if decide (need r + length st ≤ REQ_STACK_MAX)%nat then Some (req_true c r :: st) else None.
Proof.
  revert st. induction r as [i|r IH|a IHa b IHb|a IHa b IHb]; intros st H.
  - destruct H as [Hi Hb]. cbn [build_postfix eval_ops]. unfold eval_op, op_atom. simpl o_op.
    change (0 =? req_num GEAS_REQ_ATOM) with true. cbn iota.
    simpl o_atom. rewrite u8_id, Nat2Z.id by zlia. simpl req_true. simpl need.
    apply lookup_lt_is_Some_2 in Hi as [x Hx]. rewrite Hx.
    destruct (decide _) as [Hl|Hl]; destruct (Nat.leb_spec REQ_STACK_MAX (length st)); try done; lia.
  - cbn [build_postfix]. rewrite eval_ops_app, IH by done. simpl need.
    by destruct (decide _).
  - destruct H as [Ha Hb]. cbn [build_postfix]. rewrite eval_ops_app, IHa by done.
    pose proof (need_pos b). simpl need.
    destruct (decide (need a + _ ≤ _)%nat) as [L|L]; [|rewrite decide_False by lia; done].
    rewrite eval_ops_app, IHb by done. simpl length.
    destruct (decide (need b + _ ≤ _)%nat) as [L'|L']; [|rewrite decide_False by lia; done].
    by rewrite decide_True by lia.
  - destruct H as [Ha Hb]. cbn [build_postfix]. rewrite eval_ops_app, IHa by done.
    pose proof (need_pos b). simpl need.
    destruct (decide (need a + _ ≤ _)%nat) as [L|L]; [|rewrite decide_False by lia; done].
    rewrite eval_ops_app, IHb by done. simpl length.
    destruct (decide (need b + _ ≤ _)%nat) as [L'|L']; [|rewrite decide_False by lia; done].
    by rewrite decide_True by lia.
Qed.

Lemma postfix_nonempty r : build_postfix r ≠ [].
Proof.
  destruct r; simpl; [done|..]; intros H; repeat apply app_eq_nil in H as [_ H]; done.
Qed.

Lemma eval_line_run c ops : ops ≠ [] →
  eval_line c ops = match eval_ops c ops [] with Some [x] => x | _ => false end.
Proof. by destruct ops. Qed.

Lemma eval_line_formula c r :
  atoms_in (c_desc c) r →
  eval_line c (build_postfix r) = bool_decide (need r ≤ REQ_STACK_MAX)%nat && req_true c r.
Proof.
  intros H. rewrite eval_line_run by apply postfix_nonempty. rewrite eval_ops_postfix by done.
  rewrite Nat.add_0_r. destruct (decide _); [by rewrite bool_decide_true|by rewrite bool_decide_false].
Qed.

(** ** Latches of a subcontract *)

Definition all_want (want : latch) (ls : list latch) : bool :=
  negb (bool_decide (ls = [])) && forallb (λ l, bool_decide (l = want)) ls.

Definition in_sub (d : GeasContractDesc) (s : Z) (p : GeasPledgeDesc) : bool :=
  (p_sub p =? s) && (u32 (p_sub p) <? nsubs d).

(** The latches of the pledges [sel] selects. *)
Definition pick (sel : GeasPledgeDesc → bool) (ps : list GeasPledgeDesc) (ls : list latch) : list latch :=
  omap (λ pl, if sel (pl.1) then Some (pl.2) else None) (zip ps ls).

Lemma pick_cons sel p ps l ls :
  pick sel (p :: ps) (l :: ls) = if sel p then l :: pick sel ps ls else pick sel ps ls.
Proof. unfold pick. simpl. by destruct (sel p). Qed.

Definition all_seen (seen : bool) (want : latch) (ls : list latch) : bool :=
  (seen || negb (bool_decide (ls = []))) && forallb (λ l, bool_decide (l = want)) ls.

Lemma all_seen_cons seen want l ls :
  all_seen seen want (l :: ls) = bool_decide (l = want) && all_seen true want ls.
Proof.
  unfold all_seen. rewrite (bool_decide_false (l :: ls = [])) by done.
  rewrite orb_true_r. simpl. done.
Qed.

Lemma sub_all_go_pick d s want ps ls seen :
  sub_all_go d s want ps ls seen = all_seen seen want (pick (in_sub d s) ps ls).
Proof.
  revert ls seen. induction ps as [|p ps IH]; intros [|l ls] seen; simpl;
    try (unfold all_seen, pick; simpl; by destruct seen).
  unfold pick. simpl. unfold in_sub at 1.
  rewrite Z.leb_antisym. rewrite <- negb_andb.
  destruct ((p_sub p =? s) && (u32 (p_sub p) <? nsubs d)); simpl.
  - rewrite all_seen_cons. by destruct (bool_decide (l = want)).
  - apply IH.
Qed.

Lemma default_loose_pick d want ps ls seen :
  default_loose d want ps ls seen = all_seen seen want (pick (λ p, sub_is_loose d (p_sub p)) ps ls).
Proof.
  revert ls seen. induction ps as [|p ps IH]; intros [|l ls] seen; simpl;
    try (unfold all_seen, pick; simpl; by destruct seen).
  unfold pick. simpl. destruct (sub_is_loose d (p_sub p)); simpl.
  - rewrite all_seen_cons. by destruct (bool_decide (l = want)).
  - apply IH.
Qed.

(** The latches of subcontract [s], declaratively. *)
Definition sub_latches (c : GeasContract) (s : Z) : list latch :=
  match c_pledge_state c with
  | None => []
  | Some ls => pick (in_sub (c_desc c) (i32 s)) (d_pledges (c_desc c)) ls
  end.

Lemma sub_all_spec c s want : sub_all c s want = all_want want (sub_latches c s).
Proof.
  unfold sub_all, sub_latches. destruct (c_pledge_state c); [|done].
  by rewrite sub_all_go_pick.
Qed.

Lemma all_want_excl ls : all_want PLEDGE_FULFILLED ls = true → all_want PLEDGE_BROKEN ls = false.
Proof.
  destruct ls as [|l ls]; [done|]. unfold all_want. rewrite bool_decide_false by done. simpl.
  by destruct l.
Qed.

(** ** Items and the structural defaults *)

Inductive item := ISub (s : nat) | ILoose (i : nat).

Definition loose_indices (d : GeasContractDesc) : list nat :=
  filter (λ i, pledge_is_loose d i = true) (seq 0 (length (d_pledges d))).

Definition items (d : GeasContractDesc) : list item :=
  map ISub (seq 0 (length (d_subs d))) ++ map ILoose (loose_indices d).

(** Every pledge of the item latched [want]. *)
Definition item_all (c : GeasContract) (want : latch) (it : item) : bool :=
  match it with
  | ISub s => sub_all c (Z.of_nat s) want
  | ILoose i =>
      match c_pledge_state c with
      | Some ls => bool_decide (ls !! i = Some want)
      | None => false
      end
  end.

(** The latch array a sign allocates: one entry per pledge. *)
Definition latched (c : GeasContract) (ls : list latch) : Prop :=
  c_pledge_state c = Some ls ∧ length ls = length (d_pledges (c_desc c)).

Definition nonempty {A} (l : list A) : bool := match l with [] => false | _ => true end.

Lemma nonempty_app {A} (l k : list A) : nonempty (l ++ k) = nonempty l || nonempty k.
Proof. by destruct l. Qed.
Lemma nonempty_map {A B} (f : A → B) l : nonempty (map f l) = nonempty l.
Proof. by destruct l. Qed.

Lemma default_subs_items c want n s seen :
  default_subs c want n (Z.of_nat s) seen =
  if forallb (item_all c want) (map ISub (seq s n)) then Some (seen || nonempty (seq s n)) else None.
Proof.
  revert s seen. induction n as [|n IH]; intros s seen; simpl; [by rewrite orb_false_r|].
  destruct (sub_all c (Z.of_nat s) want); simpl; [|done].
  replace (Z.of_nat s + 1) with (Z.of_nat (S s)) by lia. rewrite IH.
  by rewrite orb_true_r.
Qed.

(** The loose pledges by position and by index are the same. *)
Lemma pick_loose d want ps0 ls0 ps ls :
  length ps0 = length ls0 → length ps = length ls →
  let idx := filter (λ i, match (ps0 ++ ps) !! i with Some p => sub_is_loose d (p_sub p) | None => true end = true)
               (seq (length ps0) (length ps)) in
  forallb (λ l, bool_decide (l = want)) (pick (λ p, sub_is_loose d (p_sub p)) ps ls) =
  forallb (λ i, bool_decide ((ls0 ++ ls) !! i = Some want)) idx ∧
  bool_decide (pick (λ p, sub_is_loose d (p_sub p)) ps ls = []) = negb (nonempty idx).
Proof.
  revert ps0 ls0 ls. induction ps as [|p ps IH]; intros ps0 ls0 [|l ls] H0 H; try done.
  simpl in H. injection H as H.
  destruct (IH (ps0 ++ [p]) (ls0 ++ [l]) ls) as [IH1 IH2]; [rewrite !length_app; simpl; lia|lia|].
  revert IH1 IH2. rewrite <- !app_assoc. simpl app.
  replace (length (ps0 ++ [p])) with (S (length ps0)) by (rewrite length_app; simpl; lia).
  intros IH1 IH2. simpl seq. rewrite filter_cons. rewrite list_lookup_middle by done.
  rewrite pick_cons. destruct (sub_is_loose d (p_sub p)) eqn:E; simpl forallb.
  - rewrite (bool_decide_false (_ :: _ = [])) by done. split; [|done].
    rewrite H0, list_lookup_middle, <- H0, IH1 by done. f_equal. apply bool_decide_ext. split; [by intros ->|by intros [= ->]].
  - by split.
Qed.

(** The structural default line is "there is an item, and all of them". *)
Lemma default_line_items c ls want :
  latched c ls →
  default_line c want = nonempty (items (c_desc c)) && forallb (item_all c want) (items (c_desc c)).
Proof.
  intros [Hs Hl]. unfold default_line, items. rewrite Hs.
  change 0 with (Z.of_nat 0). rewrite default_subs_items, forallb_app, nonempty_app, !nonempty_map.
  destruct (forallb _ (map ISub _)); simpl; [|by rewrite andb_false_r].
  rewrite default_loose_pick. unfold all_seen.
  destruct (pick_loose (c_desc c) want [] [] (d_pledges (c_desc c)) ls) as [E1 E2]; [done|lia|].
  simpl in E1, E2. unfold loose_indices, pledge_is_loose. rewrite E1, E2, negb_involutive.
  f_equal. generalize (filter (λ i, match d_pledges (c_desc c) !! i with
    | Some p => sub_is_loose (c_desc c) (p_sub p) | None => true end = true)
    (seq 0 (length (d_pledges (c_desc c))))) as l.
  intros l. induction l as [|i l IH]; simpl; [done|]. by rewrite Hs, IH.
Qed.

Lemma any_sub_items c want n s :
  any_sub c want n (Z.of_nat s) = existsb (item_all c want) (map ISub (seq s n)).
Proof.
  revert s. induction n as [|n IH]; intros s; simpl; [done|].
  replace (Z.of_nat s + 1) with (Z.of_nat (S s)) by lia. rewrite IH.
  by destruct (sub_all c (Z.of_nat s) want).
Qed.

(** ** The defaults synthesized as trees

    [emit_default_block] and [push_chain] of [cgenreq.dusk]: one fulfilled atom
    per item, then one broken atom per item, and the three chains. *)

Definition push_chain (k : req_code) (atoms : list nat) : list GeasReqOp :=
  match atoms with
  | [] => []
  | a :: rest => op_atom a :: flat_map (λ b, [op_atom b; op_of k]) rest
  end.

(** [loose] of the compiler: a pledge outside every subcontract. *)
Definition cg_loose (d : GeasContractDesc) : list nat :=
  filter (λ i, match d_pledges d !! i with Some p => p_sub p <? 0 | None => false end = true)
    (seq 0 (length (d_pledges d))).

Definition sub_row (d : GeasContractDesc) (k : atom_kind) (s : nat) : GeasReqAtom :=
  ReqAtom (default None (d_subs d !! s)) (atom_num k) (Z.of_nat s) (-1).
Definition loose_row (d : GeasContractDesc) (k : atom_kind) (i : nat) : GeasReqAtom :=
  ReqAtom (p_name <$> d_pledges d !! i) (atom_num k) (-1) (Z.of_nat i).

Definition atom_rows (d : GeasContractDesc) (k : atom_kind) : list GeasReqAtom :=
  map (sub_row d k) (seq 0 (length (d_subs d))) ++ map (loose_row d k) (cg_loose d).

Definition emit_default_block (d : GeasContractDesc) : GeasContractDesc :=
  let ns := length (d_subs d) in
  let nitems := (ns + length (cg_loose d))%nat in
  ContractDesc (d_name d) (d_shape_hash d) (d_version d) (d_pledges d) (d_vows d) (d_subs d)
    (atom_rows d GEAS_ATOM_FULFILLED ++ atom_rows d GEAS_ATOM_BROKEN) 0
    (push_chain GEAS_REQ_AND (seq 0 nitems)) (push_chain GEAS_REQ_OR (seq 0 ns))
    (push_chain GEAS_REQ_AND (seq nitems nitems))
    (d_schemas d) (d_sub_flags d).

Definition with_desc (d : GeasContractDesc) (c : GeasContract) : GeasContract :=
  Contract d (c_state c) (c_vow_vals c) (c_fns c) (c_shape_hash c) (c_signed_at c)
    (c_pledge_state c) (c_pledge_err c) (c_sub_txn c) (c_store c).

Section Chains.
Context (mk : req → req → req) (k : req_code) (op : bool → bool → bool).
Context (Hpost : ∀ a b, build_postfix (mk a b) = build_postfix a ++ build_postfix b ++ [op_of k]).
Context (Hneed : ∀ a b, need (mk a b) = (need a `max` S (need b))%nat).
Context (Hin : ∀ d a b, atoms_in d (mk a b) = (atoms_in d a ∧ atoms_in d b)).
Context (Htrue : ∀ c a b, req_true c (mk a b) = op (req_true c a) (req_true c b)).

Definition chain_req (r : req) (atoms : list nat) : req :=
  fold_left (λ r b, mk r (RAtom b)) atoms r.

Lemma chain_postfix atoms r :
  build_postfix (chain_req r atoms) = build_postfix r ++ flat_map (λ b, [op_atom b; op_of k]) atoms.
Proof.
  revert r. induction atoms as [|b atoms IH]; intros r; simpl; [by rewrite app_nil_r|].
  rewrite IH, Hpost, <- !app_assoc. done.
Qed.

Lemma chain_need atoms r : (need r ≤ 2)%nat → (need (chain_req r atoms) ≤ 2)%nat.
Proof.
  revert r. induction atoms as [|b atoms IH]; intros r Hr; simpl; [done|].
  apply IH. rewrite Hneed. simpl. lia.
Qed.

Lemma chain_atoms_in d atoms r :
  atoms_in d r → Forall (λ i, i < length (d_atoms d) ∧ i < 256)%nat atoms →
  atoms_in d (chain_req r atoms).
Proof.
  revert r. induction atoms as [|b atoms IH]; intros r Hr Ha; simpl; [done|].
  apply Forall_cons in Ha as [Hb Ha]. apply IH; [|done]. by rewrite Hin.
Qed.

Lemma chain_true c atoms r :
  req_true c (chain_req r atoms) =
  fold_left (λ x b, op x (req_true c (RAtom b))) atoms (req_true c r).
Proof.
  revert r. induction atoms as [|b atoms IH]; intros r; simpl; [done|].
  by rewrite IH, Htrue.
Qed.

Lemma eval_chain c a atoms :
  Forall (λ i, i < length (d_atoms (c_desc c)) ∧ i < 256)%nat (a :: atoms) →
  eval_line c (push_chain k (a :: atoms)) =
  fold_left (λ x b, op x (req_true c (RAtom b))) atoms (req_true c (RAtom a)).
Proof.
  intros [Ha Hr]%Forall_cons. rewrite <- chain_true.
  change (push_chain k (a :: atoms)) with (build_postfix (RAtom a) ++ flat_map (λ b, [op_atom b; op_of k]) atoms).
  rewrite <- chain_postfix, eval_line_formula by (by apply chain_atoms_in).
  rewrite bool_decide_true; [done|]. pose proof (chain_need atoms (RAtom a)). simpl in *.
  unfold REQ_STACK_MAX. lia.
Qed.
End Chains.

Lemma fold_and {A} (f : A → bool) l x :
  fold_left (λ y b, y && f b) l x = x && forallb f l.
Proof.
  revert x. induction l as [|a l IH]; intros x; simpl; [by rewrite andb_true_r|].
  by rewrite IH, andb_assoc.
Qed.
Lemma fold_or {A} (f : A → bool) l x :
  fold_left (λ y b, y || f b) l x = x || existsb f l.
Proof.
  revert x. induction l as [|a l IH]; intros x; simpl; [by rewrite orb_false_r|].
  by rewrite IH, orb_assoc.
Qed.

Lemma eval_and_chain c atoms :
  Forall (λ i, i < length (d_atoms (c_desc c)) ∧ i < 256)%nat atoms →
  eval_line c (push_chain GEAS_REQ_AND atoms) =
  nonempty atoms && forallb (λ i, req_true c (RAtom i)) atoms.
Proof.
  destruct atoms as [|a atoms]; intros H; [done|].
  rewrite (eval_chain RAnd GEAS_REQ_AND andb) by done. by rewrite fold_and.
Qed.
Lemma eval_or_chain c atoms :
  Forall (λ i, i < length (d_atoms (c_desc c)) ∧ i < 256)%nat atoms →
  eval_line c (push_chain GEAS_REQ_OR atoms) = existsb (λ i, req_true c (RAtom i)) atoms.
Proof.
  destruct atoms as [|a atoms]; intros H; [done|].
  rewrite (eval_chain ROr GEAS_REQ_OR orb) by done. by rewrite fold_or.
Qed.

(** What a compiled descriptor guarantees of its pledges' subcontract ordinals. *)
Definition subs_in_range (d : GeasContractDesc) : Prop :=
  Forall (λ p, -1 <= p_sub p < nsubs d) (d_pledges d).

Lemma cg_loose_indices d : nsubs d < 4294967296 → subs_in_range d → cg_loose d = loose_indices d.
Proof.
  intros Hn H. unfold cg_loose, loose_indices. apply filter_ext_Forall.
  apply Forall_forall. intros i Hi. apply elem_of_seq in Hi.
  unfold pledge_is_loose. destruct (lookup_lt_is_Some_2 (d_pledges d) i) as [p Hp]; [lia|].
  rewrite Hp. unfold subs_in_range in H. eapply Forall_lookup_1 in H; [|done].
  unfold sub_is_loose. destruct (Z.ltb_spec (p_sub p) 0); simpl; [done|].
  rewrite u32_id by zlia. destruct (Z.leb_spec (nsubs d) (p_sub p)); [lia|done].
Qed.

(** ** The trees evaluate to the structural defaults *)

Lemma forallb_seq {A} (f : nat → bool) (g : A → bool) (l : list A) (o : nat) :
  (∀ i x, l !! i = Some x → f (o + i)%nat = g x) →
  forallb f (seq o (length l)) = forallb g l.
Proof.
  revert o. induction l as [|x l IH]; intros o H; simpl; [done|].
  rewrite <- (H 0%nat x), Nat.add_0_r by done. f_equal. apply IH.
  intros i y Hy. rewrite <- (H (S i) y) by done. f_equal. lia.
Qed.
Lemma existsb_seq {A} (f : nat → bool) (g : A → bool) (l : list A) (o : nat) :
  (∀ i x, l !! i = Some x → f (o + i)%nat = g x) →
  existsb f (seq o (length l)) = existsb g l.
Proof.
  revert o. induction l as [|x l IH]; intros o H; simpl; [done|].
  rewrite <- (H 0%nat x), Nat.add_0_r by done. f_equal. apply IH.
  intros i y Hy. rewrite <- (H (S i) y) by done. f_equal. lia.
Qed.

Definition want_of (k : atom_kind) : latch :=
  match k with GEAS_ATOM_FULFILLED => PLEDGE_FULFILLED | GEAS_ATOM_BROKEN => PLEDGE_BROKEN end.

Definition item_row (d : GeasContractDesc) (k : atom_kind) (it : item) : GeasReqAtom :=
  match it with ISub s => sub_row d k s | ILoose i => loose_row d k i end.

(** The items a descriptor can have: ordinals in range and pledges that exist. *)
Lemma items_lookup d i it :
  items d !! i = Some it →
  match it with ISub s => (s < length (d_subs d))%nat | ILoose j => (j < length (d_pledges d))%nat end.
Proof.
  intros H%list_elem_of_lookup_2. unfold items in H. apply elem_of_app in H as [H|H];
    apply list_elem_of_fmap in H as (x & -> & Hx).
  - apply elem_of_seq in Hx. lia.
  - apply list_elem_of_filter in Hx as [_ Hx]. apply elem_of_seq in Hx. lia.
Qed.

Section Synthesis.
Context (c : GeasContract) (ls : list latch).
Let d := c_desc c.
Let c' := with_desc (emit_default_block d) c.
Context (Hlat : latched c ls) (Hsubs : subs_in_range d).
Context (Hitems : (length (items d) ≤ 128)%nat).

Lemma items_bounds : nsubs d <= 128 ∧ length (items d) = (length (d_subs d) + length (cg_loose d))%nat.
Proof.
  assert (E : length (items d) = (length (d_subs d) + length (loose_indices d))%nat)
    by (unfold items; rewrite length_app, !length_map, length_seq; done).
  assert (B : nsubs d <= 128) by (unfold nsubs; lia).
  split; [done|]. rewrite E, cg_loose_indices by (done || lia). done.
Qed.

Lemma atom_rows_items k : atom_rows d k = map (item_row d k) (items d).
Proof.
  destruct items_bounds as [B _]. unfold atom_rows, items. rewrite map_app, !map_map.
  by rewrite cg_loose_indices by (done || lia).
Qed.

Lemma sub_all_c' s want : sub_all c' s want = sub_all c s want.
Proof. rewrite !sub_all_spec. done. Qed.

Lemma item_row_true k i it :
  items d !! i = Some it → atom_true c' (item_row d k it) = item_all c (want_of k) it.
Proof.
  intros Hi. pose proof (items_lookup _ _ _ Hi) as Hr. destruct items_bounds as [B _].
  unfold nsubs in B. unfold atom_true.
  assert (W : (if a_kind (item_row d k it) =? atom_num GEAS_ATOM_BROKEN then PLEDGE_BROKEN
               else PLEDGE_FULFILLED) = want_of k) by (by destruct it, k).
  rewrite W. destruct it as [s|j]; simpl.
  - rewrite (proj2 (Z.leb_le 0 (Z.of_nat s))) by lia.
    rewrite u32_id by (unfold is_u32; lia). by apply sub_all_c'.
  - rewrite (proj2 (Z.leb_le 0 (Z.of_nat j))) by lia. simpl.
    change (npledges (emit_default_block d)) with (npledges d). unfold npledges.
    rewrite (proj2 (Z.ltb_lt _ _)) by lia. by rewrite Nat2Z.id.
Qed.

Lemma atoms_lookup k i it :
  items d !! i = Some it →
  d_atoms (c_desc c') !! (match k with GEAS_ATOM_FULFILLED => 0 | GEAS_ATOM_BROKEN => length (items d) end + i)%nat
  = Some (item_row d k it).
Proof.
  intros Hi. change (d_atoms (c_desc c')) with (atom_rows d GEAS_ATOM_FULFILLED ++ atom_rows d GEAS_ATOM_BROKEN).
  rewrite !atom_rows_items. destruct k.
  - rewrite lookup_app_l by (rewrite length_map; by eapply lookup_lt_Some in Hi).
    simpl. apply list_lookup_fmap_Some. eauto.
  - rewrite lookup_app_r by (rewrite length_map; lia). rewrite length_map.
    replace (length (items d) + i - length (items d))%nat with i by lia.
    apply list_lookup_fmap_Some. eauto.
Qed.

Lemma atom_item k i it :
  items d !! i = Some it →
  req_true c' (RAtom (match k with GEAS_ATOM_FULFILLED => 0 | GEAS_ATOM_BROKEN => length (items d) end + i)%nat)
  = item_all c (want_of k) it.
Proof.
  intros Hi. unfold req_true. rewrite (atoms_lookup k _ _ Hi). by apply item_row_true with i.
Qed.

Lemma chain_range o n :
  (o + n ≤ 2 * length (items d))%nat →
  Forall (λ i, i < length (d_atoms (c_desc c')) ∧ i < 256)%nat (seq o n).
Proof.
  intros H. apply Forall_forall. intros i Hi%elem_of_seq.
  change (d_atoms (c_desc c')) with (atom_rows d GEAS_ATOM_FULFILLED ++ atom_rows d GEAS_ATOM_BROKEN).
  rewrite !atom_rows_items, length_app, !length_map. lia.
Qed.

Lemma sub_prefix s x : map ISub (seq 0 (length (d_subs d))) !! s = Some x → items d !! s = Some x.
Proof. intros H. by apply lookup_app_l_Some. Qed.

Lemma default_trees_lines : has_trees d = false → policy_lines c' = policy_lines c.
Proof.
  intros Hno. destruct items_bounds as [B L].
  unfold policy_lines. fold d. change (c_desc c') with (emit_default_block d). rewrite Hno.
  destruct (decide (length (items d) = 0%nat)) as [E|E].
  - assert (E1 : length (d_subs d) = 0%nat) by lia. assert (E2 : cg_loose d = []) by (destruct (cg_loose d); simpl in *; [done|lia]).
    assert (Hn : has_trees (emit_default_block d) = false).
    { unfold has_trees, emit_default_block, atom_rows. rewrite E1, E2. done. }
    rewrite Hn, !(default_line_items c ls), !(default_line_items c' ls) by done.
    change (items (c_desc c')) with (items d). fold d. rewrite (nil_length_inv (items d)) by done.
    unfold default_partial. change (d_subs (c_desc c')) with (d_subs d). fold d. by rewrite E1.
  - assert (Hy : has_trees (emit_default_block d) = true).
    { unfold has_trees. change (d_atoms (emit_default_block d)) with (d_atoms (c_desc c')).
      destruct (lookup_lt_is_Some_2 (items d) 0) as [it Hit]; [lia|].
      pose proof (atoms_lookup GEAS_ATOM_FULFILLED _ _ Hit) as Ha.
      apply lookup_lt_Some in Ha. rewrite (proj2 (Nat.ltb_lt _ _)) by (simpl in *; lia).
      by rewrite orb_true_r. }
    rewrite Hy. cbn [emit_default_block d_req_break d_req_fulfill d_req_partial]. rewrite <- L.
    rewrite !eval_and_chain by (apply chain_range; lia).
    rewrite eval_or_chain by (apply chain_range; lia).
    rewrite !(default_line_items _ ls) by done. fold d.
    assert (Hne : ∀ o, nonempty (seq o (length (items d))) = nonempty (items d)) by (by destruct (items d)).
    rewrite !Hne. change (armed c') with (armed c).
    rewrite (forallb_seq _ (item_all c PLEDGE_BROKEN) (items d)).
    2: { intros i x Hx. exact (atom_item GEAS_ATOM_BROKEN _ _ Hx). }
    rewrite (forallb_seq _ (item_all c PLEDGE_FULFILLED) (items d)).
    2: { intros i x Hx. exact (atom_item GEAS_ATOM_FULFILLED _ _ Hx). }
    unfold default_partial. fold d. change 0 with (Z.of_nat 0). rewrite any_sub_items.
    f_equal. rewrite <- (existsb_seq (λ i, req_true c' (RAtom i)) (item_all c PLEDGE_FULFILLED) _ 0).
    1: by rewrite length_map, length_seq.
    intros i x Hx%sub_prefix. exact (atom_item GEAS_ATOM_FULFILLED _ _ Hx).
Qed.
End Synthesis.

(** ** Items, declaratively *)

(** Item [it] is [want] under the latches [ls]: it has a pledge, and each of its
    pledges latched [want]. *)
Definition item_is (d : GeasContractDesc) (ls : list latch) (want : latch) (it : item) : Prop :=
  match it with
  | ISub s =>
      (∃ i p, d_pledges d !! i = Some p ∧ p_sub p = Z.of_nat s) ∧
      ∀ i p, d_pledges d !! i = Some p → p_sub p = Z.of_nat s → ls !! i = Some want
  | ILoose i => ls !! i = Some want
  end.

Lemma pick_all want sel ps ls :
  length ls = length ps →
  all_want want (pick sel ps ls) = true ↔
  (∃ i p, ps !! i = Some p ∧ sel p = true) ∧
  (∀ i p, ps !! i = Some p → sel p = true → ls !! i = Some want).
Proof.
  assert (G : ∀ ps ls, length ls = length ps →
    (pick sel ps ls ≠ [] ↔ ∃ i p, ps !! i = Some p ∧ sel p = true) ∧
    (forallb (λ l, bool_decide (l = want)) (pick sel ps ls) = true ↔
     ∀ i p, ps !! i = Some p → sel p = true → ls !! i = Some want)).
  { clear. induction ps as [|p ps IH]; intros [|l ls] H; try done.
    - split; [|done]. split; [done|]. by intros (?&?&?&?).
    - destruct (IH ls) as [I1 I2]; [simpl in H; lia|]. rewrite pick_cons.
      destruct (sel p) eqn:E; simpl.
      + rewrite andb_true_iff, bool_decide_eq_true, I2. split; [split; [|done]|split].
        * intros _. by exists 0%nat, p.
        * intros [-> Ha] [|i] q Hq Hs; simpl in *; [done|eauto].
        * intros Ha. split; [|intros i q Hq Hs; by apply (Ha (S i) q)].
          pose proof (Ha 0%nat p eq_refl E) as Hx. by injection Hx.
      + rewrite I1, I2. split; [split|split].
        * intros (i & q & ? & ?). by exists (S i), q.
        * intros ([|i] & q & Hq & ?); simpl in Hq; [congruence|eauto].
        * intros Ha [|i] q Hq Hs; simpl in *; [congruence|eauto].
        * intros Ha i q Hq Hs. by apply (Ha (S i) q). }
  intros H. destruct (G ps ls H) as [G1 G2]. unfold all_want.
  rewrite andb_true_iff, negb_true_iff, bool_decide_eq_false, G1, G2. done.
Qed.

Definition item_valid (d : GeasContractDesc) (it : item) : Prop :=
  match it with
  | ISub s => Z.of_nat s < nsubs d
  | ILoose i => (i < length (d_pledges d))%nat
  end.

Lemma item_all_is c ls want it :
  latched c ls → nsubs (c_desc c) < 2147483648 → item_valid (c_desc c) it →
  item_all c want it = true ↔ item_is (c_desc c) ls want it.
Proof.
  intros [Hs Hl] Hn Hv. destruct it as [s|i]; simpl in *.
  - rewrite sub_all_spec. unfold sub_latches. rewrite Hs. rewrite pick_all by done.
    assert (E : i32 (Z.of_nat s) = Z.of_nat s).
    { unfold i32. rewrite u32_id by zlia. destruct (Z.ltb_spec (Z.of_nat s) 2147483648); lia. }
    assert (Q : ∀ p, in_sub (c_desc c) (i32 (Z.of_nat s)) p = true ↔ p_sub p = Z.of_nat s).
    { intros p. unfold in_sub. rewrite E, andb_true_iff, Z.eqb_eq, Z.ltb_lt. split; [by intros []|].
      intros ->. rewrite u32_id by zlia. done. }
    split; intros [(i & p & Hp & Hq) H]; (split; [exists i, p; split; [done|by apply Q]|]);
      intros j q Hj Hqq; apply (H j q Hj); by apply Q.
  - rewrite Hs. by rewrite bool_decide_eq_true.
Qed.

Lemma items_valid d it : it ∈ items d → item_valid d it.
Proof.
  intros [i Hi]%list_elem_of_lookup. apply items_lookup in Hi. unfold nsubs.
  destruct it; simpl in *; unfold nsubs; lia.
Qed.

(** ** The latch order *)

Definition latch_le (a b : latch) : Prop := a = PLEDGE_PENDING ∨ a = b.

Lemma item_is_mono d ls ls' want it :
  want ≠ PLEDGE_PENDING → Forall2 latch_le ls ls' → item_is d ls want it → item_is d ls' want it.
Proof.
  intros Hw Hle.
  assert (K : ∀ i, ls !! i = Some want → ls' !! i = Some want).
  { intros i Hi. eapply Forall2_lookup_l in Hle as (y & Hy & [E|<-]); [|done..]. done. }
  destruct it as [s|i]; simpl; [|auto]. intros [He Ha]. split; [done|eauto].
Qed.

(** The structural defaults as one declarative case list. *)
Lemma default_lines_run c ls :
  latched c ls → nsubs (c_desc c) < 2147483648 →
  (default_line c PLEDGE_FULFILLED = true ↔ items (c_desc c) ≠ [] ∧
     ∀ it, it ∈ items (c_desc c) → item_is (c_desc c) ls PLEDGE_FULFILLED it) ∧
  (default_line c PLEDGE_BROKEN = true ↔ items (c_desc c) ≠ [] ∧
     ∀ it, it ∈ items (c_desc c) → item_is (c_desc c) ls PLEDGE_BROKEN it) ∧
  (default_partial c = true ↔ ∃ s, Z.of_nat s < nsubs (c_desc c) ∧
     item_is (c_desc c) ls PLEDGE_FULFILLED (ISub s)).
Proof.
  intros Hl Hn.
  assert (A : ∀ want, default_line c want = true ↔ items (c_desc c) ≠ [] ∧
    ∀ it, it ∈ items (c_desc c) → item_is (c_desc c) ls want it).
  { intros want. rewrite (default_line_items c ls) by done. rewrite andb_true_iff.
    rewrite forallb_forall. split; intros [H1 H2]; (split; [by destruct (items (c_desc c))|]).
    - intros it Hit. apply (item_all_is c); [done..|by apply items_valid|].
      apply H2. by apply list_elem_of_In.
    - intros it Hit%list_elem_of_In. apply (item_all_is c ls); [done..|by apply items_valid|auto]. }
  split_and!; [apply A..|]. unfold default_partial. change 0 with (Z.of_nat 0).
  rewrite any_sub_items, existsb_exists. split.
  - intros (it & Hit & Ht). apply list_elem_of_In in Hit.
    apply list_elem_of_fmap in Hit as (s & -> & Hs%elem_of_seq).
    assert (Hv : Z.of_nat s < nsubs (c_desc c)) by (unfold nsubs; lia).
    exists s. split; [done|]. by apply (item_all_is c ls).
  - intros (s & Hs & Ht). exists (ISub s). split.
    + apply list_elem_of_In, list_elem_of_fmap. exists s. split; [done|].
      apply elem_of_seq. unfold nsubs in Hs. lia.
    + by apply (item_all_is c ls).
Qed.

Lemma armed_spec c ls :
  c_pledge_state c = Some ls → armed c = true ↔ ∃ i, ls !! i = Some PLEDGE_BROKEN.
Proof.
  intros H. unfold armed. rewrite H, existsb_exists. split.
  - intros (l & Hl & E%bool_decide_eq_true). subst. apply list_elem_of_In in Hl.
    by apply list_elem_of_lookup in Hl.
  - intros [i Hi]. exists PLEDGE_BROKEN. split; [|by rewrite bool_decide_true].
    apply list_elem_of_In. by eapply list_elem_of_lookup_2.
Qed.

(** ** The partial result as a list of named items *)

Definition item_state (c : GeasContract) (it : item) : GeasItemState :=
  match it with
  | ISub s => sub_item_state c (Z.of_nat s)
  | ILoose i => loose_item_state c i
  end.

Fixpoint named_subs (subs : list (option string)) (s : nat) : list (string * item) :=
  match subs with
  | [] => []
  | None :: subs' => named_subs subs' (S s)
  | Some n :: subs' => (n, ISub s) :: named_subs subs' (S s)
  end.

Fixpoint named_loose (d : GeasContractDesc) (ps : list GeasPledgeDesc) (i : nat) : list (string * item) :=
  match ps with
  | [] => []
  | p :: ps' =>
      if pledge_is_loose d i then (p_name p, ILoose i) :: named_loose d ps' (S i)
      else named_loose d ps' (S i)
  end.

(** The items a report can name, in the order it names them. *)
Definition named_items (d : GeasContractDesc) : list (string * item) :=
  named_subs (d_subs d) 0 ++ named_loose d (d_pledges d) 0.

Definition in_state (c : GeasContract) (k : GeasItemState) (ni : string * item) : Prop :=
  item_state c ni.2 = k.
#[export] Instance in_state_dec c k ni : Decision (in_state c k ni).
Proof. unfold in_state. apply _. Defined.

Definition scan_names (want : nat) (h : list (string * item)) (n : nat) (found : option string)
    : nat * option string :=
  ((n + length h)%nat,
   match (if (want <? n)%nat then None else h !! (want - n)%nat) with
   | Some x => Some (x.1)
   | None => found
   end).

Lemma scan_names_cons want x h n found :
  scan_names want h (S n) (scan_hit n want (x.1) found) = scan_names want (x :: h) n found.
Proof.
  unfold scan_names, scan_hit. simpl length. f_equal; [lia|].
  destruct (Nat.ltb_spec want (S n)), (Nat.ltb_spec want n), (Nat.eqb_spec n want); try done; try lia.
  - subst. by rewrite Nat.sub_diag.
  - replace (want - n)%nat with (S (want - S n)) by lia. done.
Qed.

Lemma scan_subs_run c k want subs s n found :
  scan_subs c k want subs (Z.of_nat s) n found =
  scan_names want (filter (in_state c k) (named_subs subs s)) n found.
Proof.
  revert s n found. induction subs as [|[nm|] subs IH]; intros s n found; simpl.
  - unfold scan_names. simpl. rewrite Nat.add_0_r. destruct (_ <? _)%nat; done.
  - replace (Z.of_nat s + 1) with (Z.of_nat (S s)) by lia. rewrite filter_cons.
    destruct (decide (in_state c k (nm, ISub s))) as [E|E];
      [rewrite bool_decide_true by exact E|rewrite bool_decide_false by exact E]; rewrite IH; [|done].
    apply (scan_names_cons want (nm, ISub s)).
  - replace (Z.of_nat s + 1) with (Z.of_nat (S s)) by lia. apply IH.
Qed.

Lemma scan_loose_run c k want ps i n found :
  scan_loose c k want ps i n found =
  scan_names want (filter (in_state c k) (named_loose (c_desc c) ps i)) n found.
Proof.
  revert i n found. induction ps as [|p ps IH]; intros i n found; simpl.
  - unfold scan_names. simpl. rewrite Nat.add_0_r. destruct (_ <? _)%nat; done.
  - destruct (pledge_is_loose (c_desc c) i); simpl; [|apply IH]. rewrite filter_cons.
    destruct (decide (in_state c k (p_name p, ILoose i))) as [E|E];
      [rewrite bool_decide_true by exact E|rewrite bool_decide_false by exact E]; rewrite IH; [|done].
    apply (scan_names_cons want (p_name p, ILoose i)).
Qed.

Lemma partial_scan_run c k want :
  partial_scan c k want =
  let h := filter (in_state c k) (named_items (c_desc c)) in (length h, fst <$> h !! want).
Proof.
  unfold partial_scan. change 0 with (Z.of_nat 0). rewrite scan_subs_run.
  unfold scan_names at 1. simpl Nat.add. rewrite scan_loose_run. unfold named_items.
  rewrite filter_app. simpl. rewrite Nat.sub_0_r. unfold scan_names. rewrite length_app. f_equal.
  set (a := filter (in_state c k) (named_subs _ _)). set (b := filter (in_state c k) (named_loose _ _ _)).
  destruct (Nat.ltb_spec want (length a)).
  - rewrite lookup_app_l by done. by destruct (a !! want).
  - rewrite lookup_app_r, (lookup_ge_None_2 a) by done. by destruct (b !! _).
Qed.

(** Every element has exactly one state, so the three counts add up. *)
Lemma three_counts c (l : list (string * item)) :
  (length (filter (in_state c GEAS_ITEM_PENDING) l) +
   length (filter (in_state c GEAS_ITEM_FULFILLED) l) +
   length (filter (in_state c GEAS_ITEM_BROKEN) l) = length l)%nat.
Proof.
  induction l as [|x l IH]; [done|]. rewrite !filter_cons.
  destruct (decide (in_state c GEAS_ITEM_PENDING x)) as [A|A],
    (decide (in_state c GEAS_ITEM_FULFILLED x)) as [B|B],
    (decide (in_state c GEAS_ITEM_BROKEN x)) as [C|C]; unfold in_state in A, B, C; simpl;
    try congruence; try lia.
  by destruct (item_state c x.2).
Qed.

(** The broken pledges by index. *)
Definition broken_at (ls : list latch) : list nat :=
  filter (λ i, ls !! i = Some PLEDGE_BROKEN) (seq 0 (length ls)).

Lemma nth_broken_run ls0 ls i :
  nth_broken ls (length ls0) i =
  filter (λ j, (ls0 ++ ls) !! j = Some PLEDGE_BROKEN) (seq (length ls0) (length ls)) !! i.
Proof.
  revert ls0 i. induction ls as [|l ls IH]; intros ls0 i; [done|].
  simpl nth_broken. simpl seq. rewrite filter_cons.
  specialize (IH (ls0 ++ [l])). rewrite length_app, <- app_assoc in IH. simpl in IH.
  replace (length ls0 + 1)%nat with (S (length ls0)) in IH by lia.
  destruct (decide (l = PLEDGE_BROKEN)) as [->|Hl].
  - rewrite bool_decide_true by done.
    rewrite decide_True by (cbn beta; by rewrite list_lookup_middle). destruct i; [done|apply IH].
  - rewrite bool_decide_false by done.
    rewrite decide_False by (cbn beta; rewrite list_lookup_middle by done; congruence). apply IH.
Qed.

Lemma nth_broken_at ls i : nth_broken ls 0 i = broken_at ls !! i.
Proof. apply (nth_broken_run [] ls i). Qed.

Lemma nerrors_run ls0 ls :
  length (filter (λ l, l = PLEDGE_BROKEN) ls) =
  length (filter (λ j, (ls0 ++ ls) !! j = Some PLEDGE_BROKEN) (seq (length ls0) (length ls))).
Proof.
  revert ls0. induction ls as [|l ls IH]; intros ls0; [done|]. simpl seq. rewrite !filter_cons.
  specialize (IH (ls0 ++ [l])). rewrite length_app, <- app_assoc in IH. simpl in IH.
  replace (length ls0 + 1)%nat with (S (length ls0)) in IH by lia.
  destruct (decide (l = PLEDGE_BROKEN)) as [->|Hl].
  - rewrite decide_True by (cbn beta; by rewrite list_lookup_middle). simpl. by rewrite IH.
  - rewrite decide_False by (cbn beta; rewrite list_lookup_middle by done; congruence). apply IH.
Qed.

Lemma nerrors_at c ls : c_pledge_state c = Some ls → geas_partial_nerrors c = length (broken_at ls).
Proof. intros H. unfold geas_partial_nerrors. rewrite H. apply (nerrors_run []). Qed.

Lemma broken_at_range ls p : p ∈ broken_at ls → (p < length ls)%nat ∧ ls !! p = Some PLEDGE_BROKEN.
Proof. intros [H1 H2%elem_of_seq]%list_elem_of_filter. split; [lia|done]. Qed.

(** ** The policy as one case list *)

Definition line_state (lines : bool * bool * bool) : GeasContractState :=
  let '(brk, ful, par) := lines in
  if brk then GEAS_BROKEN else if ful then GEAS_FULFILLED else if par then GEAS_PARTIAL else GEAS_SIGNED.

Lemma eval_policy_broken c : c_state c = GEAS_BROKEN → eval_policy c = c.
Proof. intros E. unfold eval_policy. by rewrite bool_decide_true. Qed.

Lemma eval_policy_run c :
  c_state c ≠ GEAS_BROKEN → eval_policy c = with_state (line_state (policy_lines c)) c.
Proof.
  intros E. unfold eval_policy. rewrite bool_decide_false by done.
  by destruct (policy_lines c) as [[[] []] []].
Qed.

Lemma policy_lines_state st c : policy_lines (with_state st c) = policy_lines c.
Proof.
  assert (D : ∀ want n s seen, default_subs (with_state st c) want n s seen = default_subs c want n s seen).
  { intros want. induction n as [|n IH]; intros s seen; simpl; [done|]. by rewrite IH. }
  assert (A : ∀ want n s, any_sub (with_state st c) want n s = any_sub c want n s).
  { intros want. induction n as [|n IH]; intros s; simpl; [done|]. by rewrite IH. }
  assert (E : ∀ ops stk, eval_ops (with_state st c) ops stk = eval_ops c ops stk).
  { induction ops as [|o ops IH]; intros stk; simpl; [done|].
    change (eval_op (with_state st c) stk o) with (eval_op c stk o). by destruct (eval_op c stk o). }
  unfold policy_lines, default_line, default_partial, eval_line. simpl.
  rewrite !D, !A, !E. done.
Qed.

Lemma eval_policy_is_state c : ∃ st, eval_policy c = with_state st c.
Proof.
  destruct (decide (c_state c = GEAS_BROKEN)) as [E|E].
  - exists (c_state c). rewrite eval_policy_broken by done. by destruct c.
  - rewrite eval_policy_run by done. eauto.
Qed.

Lemma eval_policy_idemp c : eval_policy (eval_policy c) = eval_policy c.
Proof.
  destruct (decide (c_state c = GEAS_BROKEN)) as [E|E]; [by rewrite !(eval_policy_broken c) by done|].
  rewrite (eval_policy_run c) by done.
  destruct (decide (line_state (policy_lines c) = GEAS_BROKEN)) as [B|B].
  - by rewrite eval_policy_broken.
  - rewrite eval_policy_run by done. by rewrite policy_lines_state.
Qed.

(** The break line is armed, with or without trees. *)
Lemma eval_policy_armed c :
  c_state c ≠ GEAS_BROKEN → c_state (eval_policy c) = GEAS_BROKEN → armed c = true.
Proof.
  intros E. rewrite eval_policy_run by done. unfold policy_lines.
  destruct (has_trees (c_desc c)), (armed c); simpl; try done;
    repeat match goal with |- context [if ?b then _ else _] => destruct b end; done.
Qed.

(** Every item of the descriptor is [want], and there is one. *)
Definition all_items (d : GeasContractDesc) (ls : list latch) (want : latch) : Prop :=
  items d ≠ [] ∧ ∀ it, it ∈ items d → item_is d ls want it.

Lemma item_is_latch d ls want it :
  item_is d ls want it → ∃ i, ls !! i = Some want ∧ ∀ w, item_is d ls w it → ls !! i = Some w.
Proof.
  destruct it as [s|i]; simpl; [|eauto]. intros [(i & p & Hp & Hs) Ha].
  exists i. split; [eauto|]. intros w [_ Hw]. eauto.
Qed.

Lemma all_items_one d ls want :
  all_items d ls want → ∃ it i, it ∈ items d ∧ ls !! i = Some want ∧ ∀ w, item_is d ls w it → ls !! i = Some w.
Proof.
  intros [Hne Ha]. destruct (items d) as [|it its] eqn:Ei; [done|].
  destruct (item_is_latch _ _ _ _ (Ha it ltac:(left))) as (i & ? & ?).
  exists it, i. split_and!; auto. left.
Qed.

Lemma isub_item d s : Z.of_nat s < nsubs d → ISub s ∈ items d.
Proof.
  intros Hs. apply elem_of_app. left. apply list_elem_of_fmap. exists s. split; [done|].
  apply elem_of_seq. unfold nsubs in Hs. lia.
Qed.

Definition some_sub (d : GeasContractDesc) (ls : list latch) : Prop :=
  ∃ s, Z.of_nat s < nsubs d ∧ item_is d ls PLEDGE_FULFILLED (ISub s).

(** All broken excludes all fulfilled and a fulfilled subcontract. *)
Lemma all_broken_excl d ls :
  all_items d ls PLEDGE_BROKEN → ¬ all_items d ls PLEDGE_FULFILLED ∧ ¬ some_sub d ls.
Proof.
  intros Hb. split.
  - intros [_ Hf]. apply all_items_one in Hb as (it & i & Hin & Hi & Hw).
    specialize (Hw _ (Hf _ Hin)). congruence.
  - intros (s & Hs & Hf). destruct Hb as [_ Hb]. specialize (Hb _ (isub_item _ _ Hs)).
    apply item_is_latch in Hf as (i & Hi & Hw). specialize (Hw _ Hb). congruence.
Qed.

(** The structural default policy. *)
Lemma eval_policy_default c ls :
  latched c ls → nsubs (c_desc c) < 2147483648 → has_trees (c_desc c) = false →
  c_state c ≠ GEAS_BROKEN →
  let d := c_desc c in let st := c_state (eval_policy c) in
  (st = GEAS_BROKEN ↔ all_items d ls PLEDGE_BROKEN) ∧
  (st = GEAS_FULFILLED ↔ all_items d ls PLEDGE_FULFILLED) ∧
  (st = GEAS_PARTIAL ↔ ¬ all_items d ls PLEDGE_FULFILLED ∧ some_sub d ls).
Proof.
  intros Hl Hn Hno E d st. subst st. rewrite eval_policy_run by done.
  destruct (default_lines_run c ls Hl Hn) as (HF & HB & HP).
  fold d in HF, HB, HP. fold (all_items d ls PLEDGE_FULFILLED) in HF.
  fold (all_items d ls PLEDGE_BROKEN) in HB. fold (some_sub d ls) in HP.
  pose proof (all_broken_excl d ls) as Hx.
  assert (Ha : all_items d ls PLEDGE_BROKEN → armed c = true).
  { intros (it & i & _ & Hi & _)%all_items_one. apply (armed_spec c ls (proj1 Hl)). eauto. }
  unfold policy_lines. rewrite Hno. simpl.
  destruct (armed c) eqn:Ea, (default_line c PLEDGE_BROKEN) eqn:E1,
    (default_line c PLEDGE_FULFILLED) eqn:E2, (default_partial c) eqn:E3; simpl;
    rewrite <- ?HF, <- ?HB, <- ?HP; intuition congruence.
Qed.
