(* ===== verification/PolicyProps.v ===== *)
(** * The policy and the partial result: the theorems *)
From S2P Require Import Prelude Abi Policy PolicySpec.

(** ** Concrete contracts for the witnesses *)

Definition pledge_of (n : string) (s : Z) : GeasPledgeDesc := PledgeDesc n None 0 16 s.

(** Two subcontracts, the second anonymous, and one loose pledge. *)
Definition demo_desc : GeasContractDesc :=
  ContractDesc "Order" 7 1
    [pledge_of "check" 0; pledge_of "pack" 1; pledge_of "ship" 1; pledge_of "rate" (-1)]
    [] [Some "Validation"%string; None] [] 0 [] [] [] [] None.

Definition instance_of (d : GeasContractDesc) (ls : list latch) : GeasContract :=
  Contract d GEAS_SIGNED 0 [] 0 0 (Some ls) (replicate (length ls) gzero) None None.

Definition demo_mid : GeasContract :=
  instance_of demo_desc [PLEDGE_FULFILLED; PLEDGE_FULFILLED; PLEDGE_PENDING; PLEDGE_BROKEN].

(** The same contract with a written policy over two atoms. *)
Definition demo_tree_desc : GeasContractDesc :=
  ContractDesc "Order" 7 1 (d_pledges demo_desc) [] (d_subs demo_desc)
    [ReqAtom (Some "Validation"%string) 0 0 (-1); ReqAtom (Some "rate"%string) 0 (-1) 3] 1
    (build_postfix (RAnd (RAtom 0) (RNot (RAtom 1)))) [] [] [] None.

(** A formula that leans right: [n] operands wait on the stack. *)
Fixpoint lean (n : nat) : req :=
  match n with O => RAtom 0 | S n' => RAnd (RAtom 0) (lean n') end.

(** C32: one policy line.  The postfix program of a requirements formula whose
    atoms are in the table evaluates to the truth of the formula over the
    latches, whatever the latches are, as long as no more than 128 operands wait
    on the stack at once; one that would need more reads false, it never
    overruns the stack.  The empty line is constant false. *)
Theorem eval_line_correct c r :
  atoms_in (c_desc c) r →
  eval_line c (build_postfix r) = bool_decide (need r ≤ 128)%nat && req_true c r ∧
  eval_line c [] = false.
Proof. intros H. split; [by apply eval_line_formula|done]. Qed.

Lemma eval_line_correct_witness :
  let c := instance_of demo_tree_desc [PLEDGE_FULFILLED; PLEDGE_PENDING; PLEDGE_PENDING; PLEDGE_BROKEN] in
  let r := RAnd (RAtom 0) (RNot (RAtom 1)) in
  eval_line c (build_postfix r) = bool_decide (need r ≤ 128)%nat && req_true c r ∧
  eval_line c [] = false.
Proof. apply eval_line_correct. simpl. lia. Defined.

(** The bound is real: 128 nested operands evaluate, one more reads false though
    the formula holds. *)
Lemma eval_line_depth :
  let c := instance_of demo_tree_desc [PLEDGE_FULFILLED; PLEDGE_PENDING; PLEDGE_PENDING; PLEDGE_BROKEN] in
  eval_line c (build_postfix (lean 127)) = true ∧
  eval_line c (build_postfix (lean 128)) = false ∧ req_true c (lean 128) = true.
Proof. vm_compute. done. Qed.

(** C33: the policy under the structural defaults.  For a descriptor that carries
    no requirements data, recomputing the state touches the state alone, leaves a
    Broken contract as it is, and otherwise sets Broken when there is an item and
    every item is broken, Fulfilled when there is an item and every item is
    fulfilled, Partial when not every item is fulfilled but a subcontract is, and
    Signed in every other case.  With or without requirements data a contract
    becomes Broken only after a pledge broke, and recomputing twice is recomputing
    once. *)
Theorem eval_policy_correct c ls :
  latched c ls → nsubs (c_desc c) < 2147483648 →
  let d := c_desc c in
  let c' := eval_policy c in
  (∃ st, c' = with_state st c) ∧
  (c_state c = GEAS_BROKEN → c' = c) ∧
  (c_state c ≠ GEAS_BROKEN → c_state c' = GEAS_BROKEN → ∃ i, ls !! i = Some PLEDGE_BROKEN) ∧
  eval_policy c' = c' ∧
  (has_trees d = false → c_state c ≠ GEAS_BROKEN →
   (c_state c' = GEAS_BROKEN ↔ all_items d ls PLEDGE_BROKEN) ∧
   (c_state c' = GEAS_FULFILLED ↔ all_items d ls PLEDGE_FULFILLED) ∧
   (c_state c' = GEAS_PARTIAL ↔ ¬ all_items d ls PLEDGE_FULFILLED ∧ some_sub d ls)).
Proof.
  intros Hl Hn d c'. split_and!.
  - apply eval_policy_is_state.
  - apply eval_policy_broken.
  - intros E B. apply (armed_spec c ls (proj1 Hl)). by apply eval_policy_armed.
  - apply eval_policy_idemp.
  - intros Hno E. by apply eval_policy_default.
Qed.

Lemma eval_policy_correct_witness :
  let d := c_desc demo_mid in
  let c' := eval_policy demo_mid in
  let ls := [PLEDGE_FULFILLED; PLEDGE_FULFILLED; PLEDGE_PENDING; PLEDGE_BROKEN] in
  (∃ st, c' = with_state st demo_mid) ∧
  (c_state demo_mid = GEAS_BROKEN → c' = demo_mid) ∧
  (c_state demo_mid ≠ GEAS_BROKEN → c_state c' = GEAS_BROKEN → ∃ i, ls !! i = Some PLEDGE_BROKEN) ∧
  eval_policy c' = c' ∧
  (has_trees d = false → c_state demo_mid ≠ GEAS_BROKEN →
   (c_state c' = GEAS_BROKEN ↔ all_items d ls PLEDGE_BROKEN) ∧
   (c_state c' = GEAS_FULFILLED ↔ all_items d ls PLEDGE_FULFILLED) ∧
   (c_state c' = GEAS_PARTIAL ↔ ¬ all_items d ls PLEDGE_FULFILLED ∧ some_sub d ls)).
Proof. apply eval_policy_correct; [split; reflexivity|vm_compute; reflexivity]. Defined.

(** The witness contract is Partial: its first subcontract is fulfilled. *)
Example demo_mid_partial : c_state (eval_policy demo_mid) = GEAS_PARTIAL.
Proof. reflexivity. Qed.

(** C34: the structural defaults and the trees the compiler synthesizes for a
    source without a requirements block are the same policy: on a descriptor of
    at most 128 items, whose pledges carry the subcontract ordinals the compiler
    emits, replacing the absent requirements data by [emit_default_block] changes
    no state the policy computes, for any latches. *)
Theorem default_policy_matches_trees c ls :
  latched c ls → subs_in_range (c_desc c) → (length (items (c_desc c)) ≤ 128)%nat →
  has_trees (c_desc c) = false →
  c_state (eval_policy (with_desc (emit_default_block (c_desc c)) c)) = c_state (eval_policy c).
Proof.
  intros Hl Hs Hi Hno. pose proof (default_trees_lines c ls Hl Hs Hi Hno) as E.
  destruct (decide (c_state c = GEAS_BROKEN)) as [B|B]; [by rewrite !eval_policy_broken|].
  rewrite !eval_policy_run by done. simpl. by rewrite E.
Qed.

Lemma default_policy_matches_trees_witness :
  c_state (eval_policy (with_desc (emit_default_block (c_desc demo_mid)) demo_mid)) =
  c_state (eval_policy demo_mid).
Proof.
  apply (default_policy_matches_trees demo_mid
    [PLEDGE_FULFILLED; PLEDGE_FULFILLED; PLEDGE_PENDING; PLEDGE_BROKEN]).
  - split; reflexivity.
  - apply (bool_decide_unpack _). vm_compute. exact I.
  - vm_compute. lia.
  - reflexivity.
Defined.

(** Beyond 128 items the op's atom byte wraps: 129 loose pledges all broken are
    Broken by the structural default and Signed by the synthesized trees. *)
Definition wide_desc : GeasContractDesc :=
  plain_desc "Wide" 1 1 (replicate 129 (pledge_of "p" (-1))).
Lemma default_block_wraps :
  let c := instance_of wide_desc (replicate 129 PLEDGE_BROKEN) in
  c_state (eval_policy c) = GEAS_BROKEN ∧
  c_state (eval_policy (with_desc (emit_default_block wide_desc) c)) = GEAS_SIGNED.
Proof. vm_compute. done. Qed.

(** Under the structural defaults progress is never lost.  When latches only
    move from pending to an outcome, a contract whose policy read Fulfilled reads
    Fulfilled ever after, one that read Partial reads Partial or Fulfilled, and
    a Broken one stays Broken. *)
Theorem default_policy_monotone c ls ls' :
  latched c ls → nsubs (c_desc c) < 2147483648 → has_trees (c_desc c) = false →
  c_state c ≠ GEAS_BROKEN → Forall2 latch_le ls ls' →
  let before := c_state (eval_policy c) in
  let after := c_state (eval_policy (with_latches ls' (eval_policy c))) in
  (before = GEAS_FULFILLED → after = GEAS_FULFILLED) ∧
  (before = GEAS_PARTIAL → after = GEAS_PARTIAL ∨ after = GEAS_FULFILLED) ∧
  (before = GEAS_BROKEN → after = GEAS_BROKEN).
Proof.
  intros Hl Hn Hno E Hle before after.
  destruct (eval_policy_default c ls Hl Hn Hno E) as (B & F & P). fold before in B, F, P.
  assert (Hl' : latched (with_latches ls' (eval_policy c)) ls').
  { destruct (eval_policy_is_state c) as [st ->]. split; [done|]. simpl.
    rewrite <- (Forall2_length _ _ _ Hle). apply Hl. }
  assert (Hst : c_state (with_latches ls' (eval_policy c)) = before) by done.
  assert (Hd : c_desc (with_latches ls' (eval_policy c)) = c_desc c).
  { by destruct (eval_policy_is_state c) as [st ->]. }
  assert (Mono : all_items (c_desc c) ls PLEDGE_FULFILLED → all_items (c_desc c) ls' PLEDGE_FULFILLED).
  { intros [Hne Ha]. split; [done|]. intros it Hit. by eapply item_is_mono; eauto. }
  pose proof (eval_policy_default _ ls' Hl') as K. rewrite Hd, Hst in K. cbv zeta in K. fold after in K.
  split_and!; intros Hb; try (unfold after; rewrite eval_policy_broken by congruence; congruence).
  - destruct (K Hn Hno ltac:(congruence)) as (_ & F' & _). apply F', Mono, F, Hb.
  - destruct (K Hn Hno ltac:(congruence)) as (_ & F' & P').
    destruct (decide (after = GEAS_FULFILLED)) as [->|Hx]; [by right|left]. apply P'.
    split; [tauto|]. apply P in Hb as [_ (s & Hs & Hf)].
    exists s. split; [done|]. by eapply item_is_mono; eauto.
Qed.

Lemma default_policy_monotone_witness :
  let before := c_state (eval_policy demo_mid) in
  let after := c_state (eval_policy (with_latches (replicate 3 PLEDGE_FULFILLED ++ [PLEDGE_BROKEN])
                                       (eval_policy demo_mid))) in
  (before = GEAS_FULFILLED → after = GEAS_FULFILLED) ∧
  (before = GEAS_PARTIAL → after = GEAS_PARTIAL ∨ after = GEAS_FULFILLED) ∧
  (before = GEAS_BROKEN → after = GEAS_BROKEN).
Proof.
  apply (default_policy_monotone demo_mid
    [PLEDGE_FULFILLED; PLEDGE_FULFILLED; PLEDGE_PENDING; PLEDGE_BROKEN]).
  - split; reflexivity.
  - vm_compute. reflexivity.
  - reflexivity.
  - discriminate.
  - repeat constructor; ((by left) || by right).
Defined.

(** C35: the partial result.  The items a report can name are the named
    subcontracts and then the loose pledges, in declaration order; each is in
    exactly one of the three states, so the three counts add up to their number;
    [geas_partial_name] enumerates exactly the items counted, in that order, and
    answers NULL past the count; an item is reported fulfilled, or broken, when
    it has a pledge and all of them latched so.  The broken pledges are counted
    and enumerated the same way, each with the payload stored beside its latch,
    and an index past the count is GEAS_ERR_NAME. *)
Theorem partial_result_correct c ls k i :
  latched c ls → length (c_pledge_err c) = length ls → nsubs (c_desc c) < 2147483648 →
  let named := named_items (c_desc c) in
  (geas_partial_count c GEAS_ITEM_PENDING + geas_partial_count c GEAS_ITEM_FULFILLED +
   geas_partial_count c GEAS_ITEM_BROKEN = length named)%nat ∧
  geas_partial_name c k i = fst <$> filter (in_state c k) named !! i ∧
  (is_Some (geas_partial_name c k i) ↔ (i < geas_partial_count c k)%nat) ∧
  (∀ it, item_valid (c_desc c) it →
     (item_state c it = GEAS_ITEM_FULFILLED ↔ item_is (c_desc c) ls PLEDGE_FULFILLED it) ∧
     (item_state c it = GEAS_ITEM_BROKEN ↔ item_is (c_desc c) ls PLEDGE_BROKEN it)) ∧
  geas_partial_nerrors c = length (broken_at ls) ∧
  (∀ p, broken_at ls !! i = Some p → ∃ pd e,
     d_pledges (c_desc c) !! p = Some pd ∧ c_pledge_err c !! p = Some e ∧
     geas_partial_error c i = (GEAS_OK, Some (p_name pd, e))) ∧
  ((geas_partial_nerrors c ≤ i)%nat → geas_partial_error c i = (GEAS_ERR_NAME, None)).
Proof.
  intros Hl He Hn named. destruct (Hl) as [Hs Hlen].
  unfold geas_partial_count, geas_partial_name. rewrite !partial_scan_run. simpl. fold named.
  rewrite (nerrors_at c ls Hs). unfold geas_partial_error. rewrite Hs, nth_broken_at. split_and!; try done.
  - apply three_counts.
  - rewrite fmap_is_Some. apply lookup_lt_is_Some.
  - intros it Hv.
    rewrite <- !(item_all_is c ls) by done.
    destruct it as [s|j]; simpl in *.
    + unfold sub_item_state. rewrite !sub_all_spec.
      pose proof (all_want_excl (sub_latches c (Z.of_nat s))).
      destruct (all_want PLEDGE_FULFILLED _), (all_want PLEDGE_BROKEN _); intuition congruence.
    + unfold loose_item_state. rewrite Hs.
      destruct (lookup_lt_is_Some_2 ls j) as [l Hj]; [lia|]. rewrite Hj, !bool_decide_eq_true.
      destruct l; simpl; intuition congruence.
  - intros p Hp. rewrite Hp. pose proof (list_elem_of_lookup_2 _ _ _ Hp) as Hin.
    apply broken_at_range in Hin as [Hr _].
    destruct (lookup_lt_is_Some_2 (d_pledges (c_desc c)) p) as [pd Hpd]; [lia|].
    destruct (lookup_lt_is_Some_2 (c_pledge_err c) p) as [e Hpe]; [lia|].
    exists pd, e. by rewrite Hpd, Hpe.
  - intros Hi. by rewrite lookup_ge_None_2.
Qed.

Lemma partial_result_correct_witness :
  let named := named_items (c_desc demo_mid) in
  let c := demo_mid in let k := GEAS_ITEM_BROKEN in let i := 0%nat in
  let ls := [PLEDGE_FULFILLED; PLEDGE_FULFILLED; PLEDGE_PENDING; PLEDGE_BROKEN] in
  (geas_partial_count c GEAS_ITEM_PENDING + geas_partial_count c GEAS_ITEM_FULFILLED +
   geas_partial_count c GEAS_ITEM_BROKEN = length named)%nat ∧
  geas_partial_name c k i = fst <$> filter (in_state c k) named !! i ∧
  (is_Some (geas_partial_name c k i) ↔ (i < geas_partial_count c k)%nat) ∧
  (∀ it, item_valid (c_desc c) it →
     (item_state c it = GEAS_ITEM_FULFILLED ↔ item_is (c_desc c) ls PLEDGE_FULFILLED it) ∧
     (item_state c it = GEAS_ITEM_BROKEN ↔ item_is (c_desc c) ls PLEDGE_BROKEN it)) ∧
  geas_partial_nerrors c = length (broken_at ls) ∧
  (∀ p, broken_at ls !! i = Some p → ∃ pd e,
     d_pledges (c_desc c) !! p = Some pd ∧ c_pledge_err c !! p = Some e ∧
     geas_partial_error c i = (GEAS_OK, Some (p_name pd, e))) ∧
  ((geas_partial_nerrors c ≤ i)%nat → geas_partial_error c i = (GEAS_ERR_NAME, None)).
Proof.
  intros named c k i ls.
  apply (partial_result_correct demo_mid ls GEAS_ITEM_BROKEN 0);
    [split; reflexivity|reflexivity|vm_compute; reflexivity].
Defined.
