(* ===== verification/Store.v ===== *)
(** * The store interface

    What the contract lifecycle relies on of the driver behind [geas_store.h]:
    the seven calls as a class of operations over a driver state, and the laws
    the transaction machinery is proved against.  A connection is a nonzero
    word; the durable content is what another connection opened later would
    read. *)
From S2P Require Import Prelude Abi.

Class StoreApi := {
  sstate : Type;
  store_op : Type;                               (* a statement a body may run *)
  geas_store_open : string → sstate → GeasStatus * Z * sstate;
  geas_store_close : Z → sstate → sstate;
  geas_store_reconcile : Z → GeasSchemaDesc → sstate → GeasStatus * sstate;
  geas_store_begin : Z → sstate → GeasStatus * sstate;
  geas_store_commit : Z → sstate → GeasStatus * sstate;
  geas_store_rollback : Z → sstate → GeasStatus * sstate;
  store_exec : Z → store_op → sstate → GeasStatus * sstate
}.

(** The documented behaviour of a transactional backend, over what it makes
    durable, which connections have a transaction open, and what a commit on one
    would make durable. *)
Class Transactional `{SA : StoreApi} {db : Type} (durable : sstate → db) (in_txn : sstate → Z → bool)
    (working : sstate → Z → db) : Prop := {
  begin_ok h s s' : geas_store_begin h s = (GEAS_OK, s') →
    in_txn s h = false ∧ in_txn s' h = true ∧ durable s' = durable s ∧ working s' h = durable s;
  begin_refused h s st s' : geas_store_begin h s = (st, s') → st ≠ GEAS_OK → durable s' = durable s;
  exec_txn h q s st s' : in_txn s h = true → store_exec h q s = (st, s') →
    durable s' = durable s ∧ (st = GEAS_OK → in_txn s' h = true);
  commit_ok h s s' : geas_store_commit h s = (GEAS_OK, s') → in_txn s h = true →
    durable s' = working s h ∧ in_txn s' h = false;
  commit_refused h s st s' : geas_store_commit h s = (st, s') → st ≠ GEAS_OK → durable s' = durable s;
  rollback_durable h s st s' : geas_store_rollback h s = (st, s') → durable s' = durable s;
  close_durable h s : durable (geas_store_close h s) = durable s
}.

Class StoreLaws `{SA : StoreApi} := {
  db : Type;
  durable : sstate → db;
  in_txn : sstate → Z → bool;
  working : sstate → Z → db;
  store_transactional :: Transactional durable in_txn working
}.
