(* ===== verification/StoreMem.v ===== *)
(** * A transactional backend in memory

    One connection over a row count: an instance of the store interface that
    satisfies its laws, so the theorems proved against [StoreLaws] are not
    vacuous.  [mb_refuse] makes every commit fail, as a full disk does. *)
From S2P Require Import Prelude Abi Store.

Record membase := MemBase {
  mb_rows : nat;        (* what another connection reads *)
  mb_work : nat;        (* what this one reads inside its transaction *)
  mb_open : bool;
  mb_refuse : bool
}.

Definition mb_rollback (s : membase) : membase := MemBase (mb_rows s) (mb_rows s) false (mb_refuse s).

#[export] Instance mem_store : StoreApi := {|
  sstate := membase;
  store_op := unit;
  geas_store_open _ s := (GEAS_OK, 1, s);
  geas_store_close _ s := mb_rollback s;
  geas_store_reconcile _ _ s := (GEAS_OK, s);
  geas_store_begin _ s :=
    if mb_open s then (GEAS_ERR_STORE, s)
    else (GEAS_OK, MemBase (mb_rows s) (mb_rows s) true (mb_refuse s));
  geas_store_commit _ s :=
    if mb_refuse s || negb (mb_open s) then (GEAS_ERR_STORE, s)
    else (GEAS_OK, MemBase (mb_work s) (mb_work s) false (mb_refuse s));
  geas_store_rollback _ s := (GEAS_OK, mb_rollback s);
  store_exec _ _ s :=
    if mb_open s then (GEAS_OK, MemBase (mb_rows s) (S (mb_work s)) true (mb_refuse s))
    else (GEAS_OK, MemBase (S (mb_rows s)) (S (mb_rows s)) false (mb_refuse s))
|}.

#[export] Instance mem_laws : StoreLaws (SA := mem_store).
Proof.
  refine (@Build_StoreLaws mem_store nat (λ s : membase, mb_rows s) (λ (s : membase) _, mb_open s)
    (λ (s : membase) _, mb_work s) _). split; simpl.
  - intros h [r k o f] s'; simpl. destruct o; intros [= <-]; by split_and!.
  - intros h [r k o f] st s'; simpl. destruct o; by intros [= <- <-].
  - intros h q [r k o f] st s'; simpl. intros ->. by intros [= <- <-].
  - intros h [r k o f] s'; simpl. destruct f, o; by intros [= <-].
  - intros h [r k o f] st s'; simpl. destruct f, o; by intros [= <- <-].
  - intros h [r k o f] st s'. by intros [= <- <-].
  - by intros h [r k o f].
Defined.
