(* ===== verification/Future.v ===== *)
(** * Futures

    [runtime.c], [struct GeasFuture] and the critical sections over one future's
    own mutex: [future_new]'s zeroed struct, [future_finish], [future_forfeit],
    and the marks [geas_pledge_fulfill] and [geas_future_wait] leave.  The links
    ([next], [qnext]) are the lists that hold the future: an instance's futures
    and the pool queue. *)
From S2P Require Import Prelude Abi Memory Frame.

(** [fu_refv] is what the block at [fu_refs] holds; nothing writes it after the
    copy.  [ref_slots] points into the frame at slot [fu_off] of [fu_slots]. *)
Record GeasFuture := Future {
  fu_c : Z;
  fu_fn : Z;
  fu_pidx : nat;
  fu_frame : Z;
  fu_nargs : Z;
  fu_status : GeasStatus;
  fu_done : bool;
  fu_waited : bool;
  fu_value : GeasValue;
  fu_refs : Z;
  fu_refv : list GeasRef;
  fu_slots : Z;
  fu_off : nat;
  fu_nrefs : Z;
  fu_refcnt : Z
}.

(** The struct [calloc] gave, with its instance and the receipt's hold. *)
Definition fresh_future (c : Z) : GeasFuture :=
  Future c 0 0 0 0 GEAS_OK false false gzero 0 [] 0 0 0 1.

(** Publishes an outcome once; [val] is [None] for NULL. *)
Definition future_finish (st : GeasStatus) (val : option GeasValue) (f : GeasFuture) : GeasFuture :=
  if fu_done f then f else
  Future (fu_c f) (fu_fn f) (fu_pidx f) (fu_frame f) (fu_nargs f) st true (fu_waited f)
    (default (fu_value f) val) (fu_refs f) (fu_refv f) (fu_slots f) (fu_off f) (fu_nrefs f) (fu_refcnt f).

(** Break's mark on an unwaited future: every pointer into the heap dropped. *)
Definition future_forfeit (f : GeasFuture) : GeasFuture :=
  if fu_waited f then f else
  Future (fu_c f) (fu_fn f) (fu_pidx f) 0 (fu_nargs f) GEAS_ERR_STATE true false
    gzero 0 [] 0 0 0 (fu_refcnt f).

(** The reference array a validated fulfillment stores. *)
Definition with_refs (p : Z) (refs : list GeasRef) (f : GeasFuture) : GeasFuture :=
  Future (fu_c f) (fu_fn f) (fu_pidx f) (fu_frame f) (fu_nargs f) (fu_status f) (fu_done f)
    (fu_waited f) (fu_value f) p refs (fu_slots f) (fu_off f) (Z.of_nat (length refs)) (fu_refcnt f).

(** The task: dispatch, pledge index, frame and the slots behind the arguments. *)
Definition with_task (fn : Z) (pidx : nat) (frame nargs slots : Z) (off : nat) (f : GeasFuture)
    : GeasFuture :=
  Future (fu_c f) fn pidx frame nargs (fu_status f) (fu_done f) (fu_waited f) (fu_value f)
    (fu_refs f) (fu_refv f) slots off (fu_nrefs f) (fu_refcnt f).

Definition with_refcnt (n : Z) (f : GeasFuture) : GeasFuture :=
  Future (fu_c f) (fu_fn f) (fu_pidx f) (fu_frame f) (fu_nargs f) (fu_status f) (fu_done f)
    (fu_waited f) (fu_value f) (fu_refs f) (fu_refv f) (fu_slots f) (fu_off f) (fu_nrefs f) n.

(** The one delivery's mark. *)
Definition with_waited (f : GeasFuture) : GeasFuture :=
  Future (fu_c f) (fu_fn f) (fu_pidx f) (fu_frame f) (fu_nargs f) (fu_status f) (fu_done f)
    true (fu_value f) (fu_refs f) (fu_refv f) (fu_slots f) (fu_off f) (fu_nrefs f) (fu_refcnt f).
