(* ===== verification/Locks.v ===== *)
(** * What every call does to the locks

    [runtime.c]: "Three locks carry the whole design" and the pool's queue lock.
    A function is kept here as what it does to those mutexes: every
    [pthread_mutex_lock], [pthread_mutex_unlock], [pthread_cond_wait] and
    [pthread_join] it makes, in its place between its branches, its loops, its
    early returns and its calls.  The conditions of the branches and the number of
    rounds of a loop are left open, so a run of the code is a run of its skeleton
    whatever the data are.

    A pledge body is a tree of the public calls it makes; a nested fulfillment
    carries the callee's body.  Threads run skeletons against each other, one lock
    operation at a time. *)
From S2P Require Import Prelude.

(** ** Mutexes *)

(** [c->mu] of an instance, [rt->lock], [f->mu] of a future, [rt->qmu]. *)
Inductive lock := Inst (c : Z) | Rt | Fut (f : Z) | Queue.

#[export] Instance lock_eq_dec : EqDecision lock.
Proof. solve_decision. Defined.

(** [mutex_init_recursive] is for instances only. *)
Definition recursive (l : lock) : bool := match l with Inst _ => true | _ => false end.

(** ** Skeletons *)

Inductive cmd :=
| Skip
| Lock (l : lock)
| Unlock (l : lock)
| CondWait (l : lock)          (* [pthread_cond_wait] under [l] *)
| Asleep (l : lock)            (* inside that call, [l] given up *)
| Join                         (* [pthread_join] *)
| Ret
| Seq (a b : cmd)
| If (a b : cmd)
| Loop (a : cmd)
| Call (a : cmd).

Declare Scope lock_scope.
Delimit Scope lock_scope with lock.
Bind Scope lock_scope with cmd.
Notation "a ;; b" := (Seq a b) (at level 100, b at level 200, right associativity) : lock_scope.
Open Scope lock_scope.

(** [if (..) return;] and [if (..) a] *)
Abbreviation Guard := (If Ret Skip).
Abbreviation When a := (If a Skip).

(** ** Threads *)

Inductive kont := KSeq (b : cmd) | KLoop (a : cmd) | KCall.

(** What is left to run, inside what, and the mutexes it holds, latest first; a
    recursive one as many times as it was taken. *)
Record thread := Th { code : cmd; rest : list kont; held : list lock }.

Fixpoint give (l : lock) (H : list lock) : list lock :=
  match H with [] => [] | h :: H' => if decide (h = l) then H' else h :: give l H' end.

(** Where a thread can be one step on.  A mutex is taken when no other thread has
    it ([free]), and one that is not recursive only when this thread has not
    either.  A sleeper may be woken at any time. *)
Definition tnext (free : lock → bool) (x : thread) : list thread :=
  let '(Th a K H) := x in
  match a with
  | Skip =>
      match K with
      | [] => []
      | KSeq b :: K' => [Th b K' H]
      | KLoop b :: K' => [Th (Loop b) K' H]
      | KCall :: K' => [Th Skip K' H]
      end
  | Lock l =>
      if free l && (recursive l || negb (bool_decide (l ∈ H))) then [Th Skip K (l :: H)] else []
  | Unlock l => if bool_decide (l ∈ H) then [Th Skip K (give l H)] else []
  | CondWait l => if bool_decide (l ∈ H) then [Th (Asleep l) K (give l H)] else []
  | Asleep l => [Th (Lock l) K H]
  | Join => [Th Skip K H]
  | Ret =>
      match K with
      | [] => [Th Skip [] H]
      | KCall :: K' => [Th Skip K' H]
      | _ :: K' => [Th Ret K' H]
      end
  | Seq b c => [Th b (KSeq c :: K) H]
  | If b c => [Th b K H; Th c K H]
  | Loop b => [Th Skip K H; Th b (KLoop b :: K) H]
  | Call b => [Th b (KCall :: K) H]
  end.

(** Nothing left to do, or waiting for a signal or for another thread's end. *)
Definition resting (x : thread) : bool :=
  match code x, rest x with Skip, [] => true | Asleep _, _ => true | Join, _ => true | _, _ => false end.

(** ** The threads together *)

Definition free_of (s : list thread) (t : nat) (l : lock) : bool :=
  forallb (λ ux, (ux.1 =? t)%nat || negb (bool_decide (l ∈ held ux.2))) (imap pair s).

Definition next_of (s : list thread) (t : nat) : list (list thread) :=
  match s !! t with Some x => (λ y, <[t := y]> s) <$> tnext (free_of s t) x | None => [] end.

(** A thread at its end may start what is its to start. *)
Inductive step (start : nat → cmd → Prop) (s : list thread) : list thread → Prop :=
| s_run t s' : s' ∈ next_of s t → step start s s'
| s_start t a H : s !! t = Some (Th Skip [] H) → start t a → step start s (<[t := Th a [] H]> s).

Definition reaches (start : nat → cmd → Prop) (n : nat) : list thread → Prop :=
  rtc (step start) (replicate n (Th Skip [] [])).

(** [n] steps of thread [t], with the way to take at each fork. *)
Fixpoint drive (n t : nat) (forks : list nat) (s : list thread) : option (list thread) :=
  match n with
  | O => Some s
  | S n' =>
      match next_of s t, forks with
      | [s'], _ => drive n' t forks s'
      | ss, i :: forks' => s' ← ss !! i; drive n' t forks' s'
      | _, [] => None
      end
  end.

(** ** Allocation *)

Definition geas_bytes (c : Z) : cmd :=
  Guard;; Guard;; Lock (Inst c);; Unlock (Inst c);; Ret.

(** The helpers that allocate for [c] and take no lock of their own: [geas_box],
    strings, lists, maps, tuples, [geas_value_deep_copy], [geas_wire_decode_value]. *)
Definition allocs (c : Z) : cmd := Loop (Call (geas_bytes c)).

(** ** Futures and the pool *)

Definition future_new (c : Z) : cmd :=
  Guard;; Lock (Inst c);; Unlock (Inst c);; Ret.
Definition future_unref (f : Z) : cmd := Lock (Fut f);; Unlock (Fut f);; Ret.
Definition future_finish (f : Z) : cmd := Lock (Fut f);; Unlock (Fut f);; Ret.
Definition future_forfeit (f : Z) : cmd := Lock (Fut f);; Unlock (Fut f);; Ret.
Definition future_release (c f : Z) : cmd :=
  Lock (Inst c);; Unlock (Inst c);; Call (future_unref f);; Ret.
Definition pool_enqueue : cmd := Lock Queue;; Unlock Queue;; Ret.

(** A started pool that could not start whole lets its workers go. *)
Definition geas_runtime_init : cmd :=
  Guard;; Loop (When (Lock Queue;; Unlock Queue;; Loop Join;; Ret));; Ret.
Definition geas_runtime_shutdown : cmd :=
  Guard;; Lock Queue;; Unlock Queue;; Loop Join;; Ret.

(** ** The registry *)

Definition geas_register_contract : cmd :=
  Guard;; Lock Rt;;
  When (Unlock Rt;; Ret);; When (Unlock Rt;; Ret);;
  Loop (When (Unlock Rt;; Ret));;
  When (Unlock Rt;; Ret);;
  Unlock Rt;; Ret.

(** [reg] is the module's registrar. *)
Definition geas_module_load (reg : cmd) : cmd :=
  Guard;; Lock Rt;; Unlock Rt;; Guard;; Guard;; Guard;;
  Call reg;; Guard;;
  Lock Rt;; When (Unlock Rt;; Ret);; Unlock Rt;; Ret.

Definition geas_runtime_freeze : cmd := Guard;; Lock Rt;; Unlock Rt;; Ret.
Definition geas_iname_lookup : cmd := Guard;; Lock Rt;; Unlock Rt;; Ret.
Definition geas_iname_count : cmd := Guard;; Lock Rt;; Unlock Rt;; Ret.
Definition geas_iname_at : cmd :=
  Guard;; Lock Rt;; When (Unlock Rt;; Ret);; Unlock Rt;; Ret.
Definition geas_iname_dump : cmd :=
  Guard;; Lock Rt;;
  Loop (When (Unlock Rt;; Ret));;
  When (Unlock Rt;; Ret);;
  Loop (When (Unlock Rt;; Ret));;
  Unlock Rt;; Ret.
Definition geas_pledge_bind : cmd :=
  Guard;; Lock Rt;;
  When (Unlock Rt;; Ret);; When (Unlock Rt;; Ret);;
  Loop (When (Unlock Rt;; Ret));;
  When (Unlock Rt;; Ret);;
  Unlock Rt;; Ret.

(** ** An instance *)

(** The store calls of a body, [geas_store_find] to [geas_store_delete], share one
    shape: the arguments are checked, then everything is under the instance lock. *)
Definition geas_store_call (c : Z) : cmd :=
  Guard;; Lock (Inst c);; allocs c;; Unlock (Inst c);; Ret.

(** [bind_vows] *)
Definition bind_vows (c : Z) : cmd :=
  Guard;; Call (geas_bytes c);; Guard;; Guard;;
  Loop (Guard;; allocs c;; Guard);; Loop (When (Guard;; allocs c;; Guard));; Ret.

(** The instance made is [c]. *)
Definition geas_contract_sign (c : Z) : cmd :=
  Guard;; Guard;; Lock Rt;;
  When (Unlock Rt;; Ret);; When (Unlock Rt;; Ret);;
  Unlock Rt;; Guard;;
  Guard;; Guard;;
  When (Call (geas_bytes c));;
  When (Call (bind_vows c));;
  When (Lock Rt;; Unlock Rt);;
  Guard;; Ret.

Definition geas_contract_state (c : Z) : cmd :=
  Guard;; Lock (Inst c);; Unlock (Inst c);; Ret.
Definition geas_partial_count (c : Z) : cmd :=
  Guard;; Lock (Inst c);; Unlock (Inst c);; Ret.
Definition geas_partial_name (c : Z) : cmd :=
  Guard;; Lock (Inst c);; Unlock (Inst c);; Ret.
Definition geas_partial_nerrors (c : Z) : cmd :=
  Guard;; Lock (Inst c);; Unlock (Inst c);; Ret.
Definition geas_partial_error (c : Z) : cmd :=
  Guard;; Lock (Inst c);; Unlock (Inst c);; Ret.
Definition geas_vow_ref (c : Z) : cmd :=
  Guard;; Lock (Inst c);; Unlock (Inst c);; Ret.

(** The futures on [c]'s list are [fs]. *)
Fixpoint forfeits (fs : list Z) : cmd :=
  match fs with [] => Skip | f :: fs' => Call (future_forfeit f);; forfeits fs' end.
Definition geas_contract_break (c : Z) (fs : list Z) : cmd :=
  Guard;; Lock (Inst c);; When (Unlock (Inst c);; Ret);;
  forfeits fs;;
  Unlock (Inst c);; Ret.

Definition partial_names_value (owner : Z) : cmd :=
  When (Call (geas_bytes owner);; Guard;; Loop (Guard;; Call (geas_bytes owner);; Guard));; Ret.
Definition geas_partial_value (c owner : Z) : cmd :=
  Guard;; Lock (Inst c);;
  Call (geas_bytes owner);;
  When (Call (geas_contract_state c);;
        Call (partial_names_value owner);;
        When (Call (partial_names_value owner));; When (Call (partial_names_value owner)));;
  Unlock (Inst c);; Ret.

Definition geas_instance_park (c : Z) : cmd :=
  Guard;; Lock (Inst c);; Unlock (Inst c);; Ret.
(** The instance made is [c]. *)
Definition geas_instance_resume (c : Z) : cmd :=
  Guard;; Guard;; Guard;; Guard;; Guard;; Guard;;
  Lock Rt;;
  When (Unlock Rt;; Ret);; When (Unlock Rt;; Ret);;
  Unlock Rt;; Guard;; Guard;; Guard;;
  When (Call (geas_bytes c));;
  When (Call (geas_bytes c);; allocs c);;
  When (allocs c);;
  When (Lock Rt;; Unlock Rt);;
  Guard;; Ret.

(** ** Fulfillment *)

(** [prepare_frame] *)
Definition prepare_frame (c : Z) : cmd :=
  Guard;; Call (geas_bytes c);; Guard;; Loop (allocs c;; Guard);; Loop (When (Call (geas_bytes c));; Guard);; Ret.

(** [cb] is what the host's write back callback does, [body] the pledge's. *)
Definition write_back_refs (cb : cmd) : cmd := Loop Guard;; Loop (When (Call cb);; Guard);; Ret.

Definition run_task (c f : Z) (body : cmd) : cmd :=
  Lock (Inst c);;
  If (Call (future_finish f))
     (If (Call (future_finish f))
         (Call body;; Call (future_finish f)));;
  Unlock (Inst c);; Ret.

(** One turn of the worker's loop. *)
Definition pool_worker (c f : Z) (body : cmd) : cmd :=
  Lock Queue;; Loop (CondWait Queue);; Unlock Queue;;
  Guard;; Call (run_task c f body);; Call (future_unref f);; Ret.

(** A [break] out of the [do .. while (0)] leaves the nest of [When]. *)
Definition geas_pledge_fulfill (c f : Z) : cmd :=
  Guard;; Call (future_new c);; Guard;;
  Lock (Inst c);;
  When (If (Call (geas_bytes c);; When (Call (prepare_frame c))) (Call (prepare_frame c)));;
  Unlock (Inst c);;
  When (Call (future_finish f);; Ret);;
  Call pool_enqueue;; Ret.

Definition geas_future_wait (f : Z) (cb : cmd) : cmd :=
  Guard;; Lock (Fut f);; Loop (CondWait (Fut f));;
  When (Unlock (Fut f);; Ret);;
  When (Call (write_back_refs cb);; When (Unlock (Fut f);; Ret));;
  Unlock (Fut f);; Ret.

Definition fulfill_inline (c : Z) (body cb : cmd) : cmd :=
  Lock (Inst c);;
  When (Call (prepare_frame c);; When (Call body;; When (Call (write_back_refs cb))));;
  Unlock (Inst c);; Ret.

(** [worker] is [t_pool_worker]; the future of the queued form is [f]. *)
Definition geas_pledge_fulfill_sync (worker : bool) (c f : Z) (body cb : cmd) : cmd :=
  Guard;;
  (if worker then Call (fulfill_inline c body cb);; Ret
   else Call (geas_pledge_fulfill c f);; Guard;; Call (geas_future_wait f cb);; Call (future_release c f);; Ret).

(** ** Who calls what *)

(** The public calls that run no body, with the objects they are given. *)
Inductive entry :=
| E_register | E_freeze | E_iname_lookup | E_iname_count | E_iname_at | E_iname_dump | E_bind | E_load
| E_init
| E_sign (c : Z)
| E_resume (c : Z)
| E_alloc (c : Z)
| E_store (c : Z)
| E_state (c : Z)
| E_partial_count (c : Z)
| E_partial_name (c : Z)
| E_partial_nerrors (c : Z)
| E_partial_error (c : Z)
| E_vow_ref (c : Z)
| E_park (c : Z)
| E_break (c : Z) (fs : list Z)
| E_partial_value (c owner : Z)
| E_fulfill (c f : Z)
| E_wait (f : Z).

Definition entry_code (e : entry) : cmd :=
  match e with
  | E_register => geas_register_contract
  | E_freeze => geas_runtime_freeze
  | E_iname_lookup => geas_iname_lookup
  | E_iname_count => geas_iname_count
  | E_iname_at => geas_iname_at
  | E_iname_dump => geas_iname_dump
  | E_bind => geas_pledge_bind
  | E_load => geas_module_load (Loop (Call geas_register_contract))
  | E_init => geas_runtime_init
  | E_sign c => geas_contract_sign c
  | E_resume c => geas_instance_resume c
  | E_alloc c => allocs c
  | E_store c => geas_store_call c
  | E_state c => geas_contract_state c
  | E_partial_count c => geas_partial_count c
  | E_partial_name c => geas_partial_name c
  | E_partial_nerrors c => geas_partial_nerrors c
  | E_partial_error c => geas_partial_error c
  | E_vow_ref c => geas_vow_ref c
  | E_park c => geas_instance_park c
  | E_break c fs => geas_contract_break c fs
  | E_partial_value c owner => geas_partial_value c owner
  | E_fulfill c f => geas_pledge_fulfill c f
  | E_wait f => geas_future_wait f Skip
  end.

(** A pledge body, by the calls it can make: [BSync c b] fulfills synchronously a
    pledge of [c] whose body is [b]. *)
Inductive body :=
| BLocal
| BCall (e : entry)
| BSync (c : Z) (b : body)
| BSeq (a b : body)
| BIf (a b : body)
| BLoop (a : body).

(** Bodies run on workers only. *)
Fixpoint body_code (b : body) : cmd :=
  match b with
  | BLocal => Skip
  | BCall e => Call (entry_code e)
  | BSync c b => Call (geas_pledge_fulfill_sync true c 0 (body_code b) Skip)
  | BSeq a b => body_code a;; body_code b
  | BIf a b => If (body_code a) (body_code b)
  | BLoop a => Loop (body_code a)
  end.

(** *** The discipline

    [docs/abi.md], "Lock ordering": a compiled body only ever holds instances it
    signed itself.  Give every instance a depth greater than that of the instance
    whose body signed it: then a body of [p] names [p] and instances deeper than [p].
    It does not wait on futures, and it reports a partial value to the instance it
    runs on. *)
Section Discipline.
Context (depth : Z → nat).

Definition within (p c : Z) : bool := (c =? p) || (depth p <? depth c)%nat.

Definition lawful_entry (p : Z) (e : entry) : bool :=
  match e with
  | E_register | E_freeze | E_iname_lookup | E_iname_count | E_iname_at | E_iname_dump | E_bind => true
  | E_load => true
  | E_init | E_wait _ => false
  | E_sign c | E_resume c | E_alloc c | E_store c | E_state c | E_partial_count c | E_partial_name c
  | E_partial_nerrors c | E_partial_error c | E_vow_ref c | E_park c | E_break c _ | E_fulfill c _ => within p c
  | E_partial_value c owner => within p c && ((owner =? p) || (owner =? c) || (depth c <? depth owner)%nat)
  end.

Fixpoint lawful_body (p : Z) (b : body) : bool :=
  match b with
  | BLocal => true
  | BCall e => lawful_entry p e
  | BSync c b => within p c && lawful_body c b
  | BSeq a b | BIf a b => lawful_body p a && lawful_body p b
  | BLoop a => lawful_body p a
  end.

(** What a host thread starts, holding nothing: any call on any instances, but a
    partial value only onto the same instance or a deeper one; and what the workers
    start: tasks with lawful bodies.  The first [hosts] threads are the host's. *)
Inductive host_call : cmd → Prop :=
| host_entry e :
    (∀ c owner, e = E_partial_value c owner → within c owner = true) → host_call (entry_code e)
| host_sync c f : host_call (geas_pledge_fulfill_sync false c f Skip Skip)
| host_release c f : host_call (future_release c f)
| host_shutdown : host_call geas_runtime_shutdown.

Inductive worker_turn : cmd → Prop :=
| a_turn c f b : lawful_body c b = true → worker_turn (pool_worker c f (body_code b)).

Definition lawful (hosts : nat) (t : nat) : cmd → Prop :=
  if (t <? hosts)%nat then host_call else worker_turn.
End Discipline.
