(* ===== verification/LocksSpec.v ===== *)
(** * The lock discipline, checked and carried along a run

    [chk] walks a skeleton forward with the mutexes held, and asks at each
    operation for what the hierarchy asks.  Every call of the runtime passes it
    ([entry_balanced], [body_balanced], [lawful_start]), and what passes it keeps its
    threads in order at every step ([pool_ok]). *)
From S2P Require Import Prelude Locks.

Section Order.
Context (depth : Z → nat).

(** Instances by depth, then the runtime, then futures, then the queue. *)
Definition before (a b : lock) : bool :=
  match a, b with
  | Inst c, Inst d => (depth c <? depth d)%nat
  | Inst _, (Rt | Fut _ | Queue) | Rt, (Fut _ | Queue) | Fut _, Queue => true
  | _, _ => false
  end.

(** A mutex may be asked for when it is recursive and already held, or when it
    comes after all those held. *)
Definition may_take (H : list lock) (l : lock) : bool :=
  (recursive l && bool_decide (l ∈ H)) || forallb (λ h, before h l) H.

(** [chk a r n H]: from [H] held, [a] follows the discipline; where it falls through
    [n] accepts what is held, where it returns [r] does.  Every round of a loop gives
    back what it took; a thread sleeps holding nothing. *)
Fixpoint chk (a : cmd) (r n : list lock → bool) (H : list lock) : bool :=
  match a with
  | Skip => n H
  | Lock l => may_take H l && n (l :: H)
  | Unlock l => match H with h :: H' => bool_decide (h = l) && n H' | [] => false end
  | CondWait l => bool_decide (H = [l]) && n H
  | Asleep l => bool_decide (H = []) && n [l]
  | Join => bool_decide (H = []) && n H
  | Ret => r H
  | Seq a b => chk a r (chk b r n) H
  | If a b => chk a r n H && chk b r n H
  | Loop a => n H && chk a r (λ H', bool_decide (H' = H)) H
  | Call a => chk a n n H
  end.

(** A function that gives back all it took, on every path. *)
Definition balanced (H : list lock) (a : cmd) : bool :=
  chk a (λ H', bool_decide (H' = H)) (λ H', bool_decide (H' = H)) H.

(** ** The order *)

Lemma before_irrefl a : before a a = false.
Proof. destruct a; simpl; [apply Nat.ltb_irrefl|done..]. Qed.
Lemma before_trans a b c : before a b = true → before b c = true → before a c = true.
Proof. destruct a, b, c; simpl; try done. rewrite !Nat.ltb_lt. lia. Qed.

Lemma last_lock (L : list lock) : L ≠ [] → ∃ l, l ∈ L ∧ ∀ m, m ∈ L → before l m = false.
Proof.
  induction L as [|a L IH]; [done|]. intros _. destruct (decide (L = [])) as [->|HL].
  { exists a. split; [left|]. intros m ->%list_elem_of_singleton. apply before_irrefl. }
  destruct (IH HL) as (l & Hl & Hm). destruct (before l a) eqn:E.
  - exists a. split; [left|]. intros m [->|Hin]%elem_of_cons; [apply before_irrefl|].
    apply not_true_is_false. intros Ha. specialize (Hm m Hin). by rewrite (before_trans l a m E Ha) in Hm.
  - exists l. split; [by right|]. intros m [->|Hin]%elem_of_cons; auto.
Qed.

(** ** The checker's rules *)

Lemma chk_mono a r r' n n' H :
  (∀ K, r K = true → r' K = true) → (∀ K, n K = true → n' K = true) →
  chk a r n H = true → chk a r' n' H = true.
Proof.
  revert r r' n n' H. induction a; intros r r' n n' H Hr Hn; simpl; rewrite ?andb_true_iff; eauto.
  - intros [? ?]. auto.
  - destruct H; [done|]. rewrite !andb_true_iff. intros [? ?]. auto.
  - intros [? ?]. auto.
  - intros [? ?]. auto.
  - intros [? ?]. auto.
  - intros [? ?]. split; [by eapply IHa1|by eapply IHa2].
  - intros [? ?]. split; [auto|]. eapply IHa; [exact Hr| |done]. auto.
Qed.

Lemma chk_call a r n H : balanced H a = true → n H = true → chk (Call a) r n H = true.
Proof.
  intros Hb Hn. cbn [chk]. eapply chk_mono; [| |exact Hb]; intros K HK; apply bool_decide_eq_true_1 in HK; by subst.
Qed.

Lemma chk_loop_call a r n H : balanced H a = true → n H = true → chk (Loop (Call a)) r n H = true.
Proof. intros Hb Hn. cbn [chk]. by rewrite Hn. Qed.

Lemma loop_call_balanced a H : balanced H a = true → balanced H (Loop (Call a)) = true.
Proof. intros Hb. apply chk_loop_call; [done|]. by apply bool_decide_eq_true_2. Qed.

(** *** What a thread that holds instances only may take *)

Definition is_inst (l : lock) : bool := match l with Inst _ => true | _ => false end.
Definition all_inst (H : list lock) : bool := forallb is_inst H.

Lemma may_again c H : may_take (Inst c :: H) (Inst c) = true.
Proof. unfold may_take. simpl. by rewrite bool_decide_eq_true_2 by left. Qed.
Lemma may_again_below c d H :
  may_take (Inst c :: H) (Inst d) = true → may_take (Inst d :: Inst c :: H) (Inst c) = true.
Proof. intros _. unfold may_take. simpl. rewrite bool_decide_eq_true_2; [done|]. right. left. Qed.
Lemma may_above H l : all_inst H = true → is_inst l = false → may_take H l = true.
Proof.
  intros HH Hl. unfold may_take. apply orb_true_iff. right. apply forallb_forall. intros h Hh.
  unfold all_inst in HH. rewrite forallb_forall in HH. specialize (HH h Hh). by destruct h, l.
Qed.
Lemma may_empty l : may_take [] l = true.
Proof. unfold may_take. apply orb_true_r. Qed.
Lemma may_fut_queue f H : all_inst H = true → may_take (Fut f :: H) Queue = true.
Proof. intros HH. unfold may_take. simpl. apply (may_above H Queue) in HH; [|done]. done. Qed.
End Order.

(** Walks [chk] down a function's skeleton. *)
Create HintDb locks discriminated.
#[export] Hint Resolve loop_call_balanced may_again may_again_below may_empty may_fut_queue : locks.
#[export] Hint Extern 1 (all_inst _ = true) => (simpl; assumption) : locks.
#[export] Hint Extern 2 (may_take _ _ _ = true) => (apply may_above; [simpl; assumption|reflexivity]) : locks.
#[export] Hint Extern 1 (bool_decide (_ = _) = true) => (apply bool_decide_eq_true_2; reflexivity) : locks.
#[export] Hint Extern 1 (bool_decide (_ = _) && _ = true) => (apply andb_true_intro; split) : locks.

Ltac walk :=
  lazymatch goal with
  | |- chk _ (Call _) _ _ _ = true => apply chk_call; [auto 3 with locks|cbn beta; walk]
  | |- chk _ (Loop (Call _)) _ _ _ = true => apply chk_loop_call; [auto 3 with locks|cbn beta; walk]
  | |- chk _ (allocs _) _ _ _ = true => apply chk_loop_call; [auto 3 with locks|cbn beta; walk]
  | |- chk ?d (Seq ?a ?b) ?r ?n ?H = true => change (chk d a r (chk d b r n) H = true); walk
  | |- chk ?d (If ?a ?b) ?r ?n ?H = true => change (chk d a r n H && chk d b r n H = true); walk
  | |- chk ?d (Loop ?a) ?r ?n ?H = true =>
      change (n H && chk d a r (λ H', bool_decide (H' = H)) H = true); cbn beta; walk
  | |- chk ?d (Lock ?l) ?r ?n ?H = true => change (may_take d H l && n (l :: H) = true); cbn beta; walk
  | |- chk ?d (Unlock ?l) ?r ?n (?l :: ?H) = true =>
      change (bool_decide (l = l) && n H = true); cbn beta; walk
  | |- chk ?d (CondWait ?l) ?r ?n ?H = true => change (bool_decide (H = [l]) && n H = true); cbn beta; walk
  | |- chk ?d Join ?r ?n ?H = true => change (bool_decide (H = []) && n H = true); cbn beta; walk
  | |- chk ?d Skip ?r ?n ?H = true => change (n H = true); cbn beta; walk
  | |- chk ?d Ret ?r ?n ?H = true => change (r H = true); cbn beta; walk
  | |- andb _ _ = true => apply andb_true_intro; split; walk
  | |- bool_decide _ = true => apply bool_decide_eq_true_2; reflexivity
  | |- may_take _ _ _ = true => auto 3 with locks
  | |- _ => idtac
  end.
Ltac walk_fun f := unfold balanced, f; walk.

Section Calls.
Context (depth : Z → nat).
Notation bal := (balanced depth).
Notation may := (may_take depth).

Lemma geas_bytes_bal H c : may H (Inst c) = true → bal H (geas_bytes c) = true.
Proof. intros HH. walk_fun geas_bytes. Qed.
#[local] Hint Resolve geas_bytes_bal : locks.

Lemma forfeits_chk H c fs r n :
  all_inst H = true → n (Inst c :: H) = true → chk depth (forfeits fs) r n (Inst c :: H) = true.
Proof.
  intros HH Hn. induction fs as [|f fs IH]; [done|]. cbn [forfeits chk]. apply (chk_call depth _ r); [|done].
  unfold balanced, future_forfeit. walk.
Qed.

Section From.
Context (H : list lock) (HH : all_inst H = true).

Lemma fut_bal f : bal H (future_unref f) = true.
Proof. walk_fun future_unref. Qed.
Lemma finish_bal f : bal H (future_finish f) = true.
Proof. walk_fun future_finish. Qed.
Lemma enqueue_bal : bal H pool_enqueue = true.
Proof. walk_fun pool_enqueue. Qed.
Lemma register_bal : bal H geas_register_contract = true.
Proof. walk_fun geas_register_contract. Qed.
#[local] Hint Resolve fut_bal finish_bal enqueue_bal register_bal : locks.

Lemma load_bal : bal H (geas_module_load (Loop (Call geas_register_contract))) = true.
Proof. walk_fun geas_module_load. Qed.
Lemma dump_bal : bal H geas_iname_dump = true.
Proof. walk_fun geas_iname_dump. Qed.
Lemma bind_bal : bal H geas_pledge_bind = true.
Proof. walk_fun geas_pledge_bind. Qed.

Section On.
Context (c : Z) (Hc : may H (Inst c) = true).

Lemma new_bal : bal H (future_new c) = true.
Proof. walk_fun future_new. Qed.
Lemma release_bal f : bal H (future_release c f) = true.
Proof. walk_fun future_release. Qed.
Lemma bind_vows_bal : bal H (bind_vows c) = true.
Proof. walk_fun bind_vows. Qed.
#[local] Hint Resolve bind_vows_bal new_bal : locks.
Lemma sign_bal : bal H (geas_contract_sign c) = true.
Proof. walk_fun geas_contract_sign. Qed.
Lemma resume_bal : bal H (geas_instance_resume c) = true.
Proof. walk_fun geas_instance_resume. Qed.
Lemma store_bal : bal H (geas_store_call c) = true.
Proof. walk_fun geas_store_call. Qed.
Lemma break_bal fs : bal H (geas_contract_break c fs) = true.
Proof. walk_fun geas_contract_break. apply forfeits_chk; [done|]. walk. Qed.
Lemma frame_bal : bal H (prepare_frame c) = true.
Proof. walk_fun prepare_frame. Qed.
#[local] Hint Resolve frame_bal : locks.
Lemma read_bal : bal H (Guard;; Lock (Inst c);; Unlock (Inst c);; Ret) = true.
Proof. unfold balanced. walk. Qed.
Lemma state_bal : bal H (geas_contract_state c) = true.
Proof. exact read_bal. Qed.
Lemma names_bal : bal H (partial_names_value c) = true.
Proof. walk_fun partial_names_value. Qed.
End On.

End From.

#[local] Hint Resolve fut_bal finish_bal enqueue_bal new_bal frame_bal state_bal names_bal release_bal : locks.

Section Nest.
Context (H : list lock) (HH : all_inst H = true).

Lemma partial_bal c owner :
  may H (Inst c) = true → may (Inst c :: H) (Inst owner) = true → bal H (geas_partial_value c owner) = true.
Proof. intros Hc Ho. walk_fun geas_partial_value. Qed.

Lemma write_back_bal K : bal K (write_back_refs Skip) = true.
Proof. unfold balanced. simpl. by rewrite !bool_decide_eq_true_2. Qed.
#[local] Hint Resolve write_back_bal : locks.

(** A body on a worker runs with no write back of a host. *)
Lemma inline_bal c b :
  may H (Inst c) = true → (∀ r n, n (Inst c :: H) = true → chk depth b r n (Inst c :: H) = true) →
  bal H (fulfill_inline c b Skip) = true.
Proof. intros Hc Hb. assert (bal (Inst c :: H) b = true) by (apply Hb; walk). walk_fun fulfill_inline. Qed.
Lemma sync_bal c f b :
  may H (Inst c) = true → (∀ r n, n (Inst c :: H) = true → chk depth b r n (Inst c :: H) = true) →
  bal H (geas_pledge_fulfill_sync true c f b Skip) = true.
Proof. intros Hc Hb. pose proof (inline_bal c b Hc Hb). walk_fun geas_pledge_fulfill_sync. Qed.
Lemma fulfill_bal c f : may H (Inst c) = true → bal H (geas_pledge_fulfill c f) = true.
Proof. intros Hc. walk_fun geas_pledge_fulfill. Qed.
Lemma task_bal c f b :
  may H (Inst c) = true → (∀ r n, n (Inst c :: H) = true → chk depth b r n (Inst c :: H) = true) →
  bal H (run_task c f b) = true.
Proof. intros Hc Hb. assert (bal (Inst c :: H) b = true) by (apply Hb; walk). walk_fun run_task. Qed.
End Nest.

(** ** From nothing held *)

#[local] Hint Resolve write_back_bal fulfill_bal task_bal : locks.

Lemma wait_bal f : bal [] (geas_future_wait f Skip) = true.
Proof. walk_fun geas_future_wait. Qed.
#[local] Hint Resolve wait_bal : locks.

Lemma host_sync_bal c f : bal [] (geas_pledge_fulfill_sync false c f Skip Skip) = true.
Proof. walk_fun geas_pledge_fulfill_sync. Qed.
Lemma init_bal : bal [] geas_runtime_init = true.
Proof. reflexivity. Qed.
Lemma shutdown_bal : bal [] geas_runtime_shutdown = true.
Proof. reflexivity. Qed.

(** Every public call, where its instances may be taken. *)
Definition entry_fits (H : list lock) (e : entry) : Prop :=
  match e with
  | E_init | E_wait _ => H = []
  | E_partial_value c owner => may H (Inst c) = true ∧ may (Inst c :: H) (Inst owner) = true
  | E_sign c | E_resume c | E_alloc c | E_store c | E_state c | E_partial_count c | E_partial_name c
  | E_partial_nerrors c | E_partial_error c | E_vow_ref c | E_park c | E_break c _ | E_fulfill c _ =>
      may H (Inst c) = true
  | _ => True
  end.

Lemma rt_bal H : all_inst H = true → bal H (Guard;; Lock Rt;; Unlock Rt;; Ret) = true.
Proof. intros HH. unfold balanced. walk. Qed.
Lemma at_bal H : all_inst H = true → bal H geas_iname_at = true.
Proof. intros HH. walk_fun geas_iname_at. Qed.

Lemma entry_bal H e : all_inst H = true → entry_fits H e → bal H (entry_code e) = true.
Proof.
  intros HH He. destruct e; cbn [entry_fits] in He; cbn [entry_code]; try exact (rt_bal H HH);
    try (by apply read_bal); try (by destruct He; apply partial_bal).
  - by apply register_bal.
  - by apply at_bal.
  - by apply dump_bal.
  - by apply bind_bal.
  - by apply load_bal.
  - subst. apply init_bal.
  - by apply sign_bal.
  - by apply resume_bal.
  - by apply loop_call_balanced, geas_bytes_bal.
  - by apply store_bal.
  - by apply break_bal.
  - by apply fulfill_bal.
  - subst. apply wait_bal.
Qed.

(** ** Bodies *)

(** What the thread of a body of [p] holds: [p], and instances it came through. *)
Definition in_body (p : Z) (H : list lock) : Prop :=
  Inst p ∈ H ∧ ∀ h, h ∈ H → ∃ q, h = Inst q ∧ within depth q p = true.

Lemma within_trans a b c : within depth a b = true → within depth b c = true → within depth a c = true.
Proof. unfold within. rewrite !orb_true_iff, !Nat.ltb_lt, !Z.eqb_eq. intros [->|?] [->|?]; auto. right. lia. Qed.
Lemma within_refl p : within depth p p = true.
Proof. unfold within. by rewrite Z.eqb_refl. Qed.

Lemma in_body_inst p H : in_body p H → all_inst H = true.
Proof. intros [_ Hi]. apply forallb_forall. intros h Hh. destruct (Hi h) as (q & -> & _); [|done]. by apply list_elem_of_In. Qed.
Lemma in_body_take p c H : in_body p H → within depth p c = true → may H (Inst c) = true.
Proof.
  intros [Hp Hi] Hw. unfold may_take. apply orb_true_iff.
  unfold within in Hw. apply orb_true_iff in Hw as [->%Z.eqb_eq|Hw].
  - left. by rewrite bool_decide_eq_true_2.
  - right. apply forallb_forall. intros h Hh. destruct (Hi h) as (q & -> & Hq); [by apply list_elem_of_In|].
    simpl. unfold within in Hq. apply orb_true_iff in Hq as [->%Z.eqb_eq|Hq]; [done|].
    apply Nat.ltb_lt in Hq, Hw. apply Nat.ltb_lt. lia.
Qed.
Lemma in_body_push p c H : in_body p H → within depth p c = true → in_body c (Inst c :: H).
Proof.
  intros [Hp Hi] Hw. split; [left|]. intros h [->|Hh]%elem_of_cons.
  - exists c. split; [done|]. apply within_refl.
  - destruct (Hi h Hh) as (q & -> & Hq). exists q. split; [done|]. by eapply within_trans.
Qed.
Lemma in_body_start c : in_body c [Inst c].
Proof. split; [left|]. intros h ->%list_elem_of_singleton. exists c. split; [done|]. apply within_refl. Qed.

Lemma lawful_fits p H e : in_body p H → lawful_entry depth p e = true → entry_fits H e.
Proof.
  intros HB He. destruct e; cbn [lawful_entry entry_fits] in *; try done; try by eapply in_body_take.
  apply andb_true_iff in He as [Hc Ho]. split; [by eapply in_body_take|].
  pose proof (in_body_push p c H HB Hc) as HB'. destruct ((owner =? c) || (depth c <? depth owner)%nat) eqn:E.
  - by apply (in_body_take c).
  - rewrite <- orb_assoc, E, orb_false_r in Ho. apply Z.eqb_eq in Ho as ->. unfold may_take. simpl.
    rewrite bool_decide_eq_true_2; [done|]. right. by destruct HB.
Qed.

(** A lawful body gives back what it takes. *)
Lemma body_chk b : ∀ p H r n,
  lawful_body depth p b = true → in_body p H → n H = true → chk depth (body_code b) r n H = true.
Proof.
  induction b as [|e|c b IH|a IHa b IHb|a IHa b IHb|a IHa]; intros p H r n Hl HB Hn; cbn [lawful_body body_code] in *.
  - done.
  - apply chk_call; [|done]. apply entry_bal; [by eapply in_body_inst|by eapply lawful_fits].
  - apply andb_true_iff in Hl as [Hc Hb]. apply chk_call; [|done].
    apply sync_bal; [by eapply in_body_take|]. intros r' n' Hn'.
    apply (IH c); [done|by eapply in_body_push|done].
  - apply andb_true_iff in Hl as [Ha Hb]. apply (IHa p); [done..|]. by apply (IHb p).
  - apply andb_true_iff in Hl as [Ha Hb]. cbn [chk]. rewrite (IHa p), (IHb p); done.
  - cbn [chk]. rewrite Hn, (IHa p); [done..|]. by apply bool_decide_eq_true_2.
Qed.

(** ** Everything a thread may start *)

Lemma turn_bal c f b : lawful_body depth c b = true → bal [] (pool_worker c f (body_code b)) = true.
Proof.
  intros Hl. assert (bal [] (run_task c f (body_code b)) = true).
  { apply task_bal; [done|apply may_empty|]. intros r n Hn. apply (body_chk b c); [done|apply in_body_start|done]. }
  walk_fun pool_worker.
Qed.

Lemma lawful_bal hosts t a : lawful depth hosts t a → bal [] a = true.
Proof.
  unfold lawful. destruct (t <? hosts)%nat; [intros [e He|c f|c f|]|intros [c f b Hl]].
  - apply entry_bal; [done|]. destruct e; simpl in *; try apply may_empty; try done. split; [apply may_empty|].
    apply (in_body_take c); [apply in_body_start|by apply He].
  - apply host_sync_bal.
  - apply release_bal; [done|apply may_empty].
  - apply shutdown_bal.
  - by apply turn_bal.
Qed.
End Calls.

(** ** A run keeps its threads in order *)

Section Run.
Context (depth : Z → nat) (start : nat → cmd → Prop).
Hypothesis start_bal : ∀ t a, start t a → balanced depth [] a = true.

(** What the rest of a thread accepts: when it falls through, when it returns. *)
Fixpoint knext (K : list kont) : list lock → bool :=
  match K with
  | [] => λ H, bool_decide (H = [])
  | KSeq b :: K' => chk depth b (kret K') (knext K')
  | KLoop a :: K' => chk depth (Loop a) (kret K') (knext K')
  | KCall :: K' => knext K'
  end
with kret (K : list kont) : list lock → bool :=
  match K with
  | [] => λ H, bool_decide (H = [])
  | KCall :: K' => knext K'
  | _ :: K' => kret K'
  end.

(** Each mutex was asked for in order. *)
Fixpoint in_order (H : list lock) : Prop :=
  match H with [] => True | l :: H' => may_take depth H' l = true ∧ in_order H' end.

Record thread_ok (x : thread) : Prop := {
  ok_chk : chk depth (code x) (kret (rest x)) (knext (rest x)) (held x) = true;
  ok_order : in_order (held x)
}.

Record pool_ok (s : list thread) : Prop := {
  ok_thread t x : s !! t = Some x → thread_ok x;
  ok_mutex t u x y l : t ≠ u → s !! t = Some x → s !! u = Some y → l ∈ held x → l ∉ held y
}.

Lemma give_head l H : give l (l :: H) = H.
Proof. simpl. by rewrite decide_True. Qed.
Lemma give_in l m H : m ∈ give l H → m ∈ H.
Proof.
  induction H as [|h H IH]; [done|]. simpl. destruct (decide (h = l)); [by right|].
  intros [->|Hm]%elem_of_cons; [left|right; auto].
Qed.

(** Reads off where a thread can go. *)
Ltac moves Hy :=
  simpl in Hy;
  repeat match type of Hy with
    | context [if ?b then _ else _] => let E := fresh "E" in destruct b eqn:E
    | _ ∈ [] => by apply not_elem_of_nil in Hy
    | _ ∈ [_] => apply list_elem_of_singleton in Hy; subst
    | _ ∈ _ :: _ => apply elem_of_cons in Hy as [->|Hy]
    end.

Lemma thread_step free x y : thread_ok x → y ∈ tnext free x → thread_ok y.
Proof.
  intros [Hc Ho] Hy. destruct x as [a K H]. cbn [code rest held] in Hc, Ho.
  destruct a as [|l|l|l|l| | |b c|b c|b|b]; cbn [chk] in Hc.
  - destruct K as [|[b|b|] K]; moves Hy; by split.
  - moves Hy. apply andb_true_iff in Hc as [Hm Hn]. by split.
  - moves Hy. destruct H as [|h H]; [done|]. apply andb_true_iff in Hc as [->%bool_decide_eq_true_1 Hn].
    split; cbn [code rest held chk]; rewrite give_head; [done|by destruct Ho].
  - moves Hy. apply andb_true_iff in Hc as [->%bool_decide_eq_true_1 Hn].
    split; cbn [code rest held chk]; rewrite give_head; [by rewrite bool_decide_eq_true_2|done].
  - moves Hy. apply andb_true_iff in Hc as [->%bool_decide_eq_true_1 Hn].
    split; cbn [code rest held chk]; [by rewrite may_empty|done].
  - moves Hy. apply andb_true_iff in Hc as [_ Hn]. by split.
  - destruct K as [|[b|b|] K]; moves Hy; by split.
  - moves Hy. by split.
  - apply andb_true_iff in Hc as [Hb Hc]. moves Hy; by split.
  - apply andb_true_iff in Hc as [Hn Hb]. moves Hy; split; try done. cbn [code rest held].
    eapply chk_mono; [done| |exact Hb]. intros K' ->%bool_decide_eq_true_1. cbn [knext chk]. by rewrite Hn.
  - moves Hy. by split.
Qed.

Lemma step_held free x y l : y ∈ tnext free x → l ∈ held y → l ∈ held x ∨ free l = true.
Proof.
  intros Hy. destruct x as [a K H]. cbn [held].
  destruct a as [|m|m|m|m| | |b c|b c|b|b]; try (destruct K as [|[?|?|] K]); moves Hy; cbn [held];
    try (by left); try (intros Hl; left; by eapply give_in).
  all: apply andb_true_iff in E as [Hf _]; intros [->|Hl]%elem_of_cons; auto.
Qed.

Lemma resting_empty x : thread_ok x → resting x = true → held x = [].
Proof.
  intros [Hc _] Hr. destruct x as [a K H]. unfold resting in Hr. cbn [code rest held] in *.
  destruct a; try done; [destruct K; [|done]|..]; simpl in Hc; rewrite ?andb_true_iff in Hc;
    by (apply bool_decide_eq_true_1 in Hc || (destruct Hc as [Hc%bool_decide_eq_true_1 _])).
Qed.

(** Only a mutex another thread has can hold a thread up. *)
Lemma held_up free x :
  thread_ok x → resting x = false → tnext free x = [] → ∃ l, code x = Lock l ∧ free l = false.
Proof.
  intros [Hc Ho] Hr Hn. destruct x as [a K H]. unfold resting in Hr. cbn [code rest held] in *.
  destruct a as [|l|l|l|l| | |b c|b c|b|b]; try done; try (by destruct K as [|[?|?|] K]).
  - exists l. split; [done|]. simpl in Hn. destruct (free l); [|done]. exfalso.
    cbn [chk] in Hc. apply andb_true_iff in Hc as [Hm _]. simpl in Hn.
    unfold may_take in Hm. destruct (recursive l) eqn:E; [done|]. simpl in Hm, Hn.
    case_bool_decide as Hin; [|done]. rewrite forallb_forall in Hm.
    specialize (Hm l). rewrite before_irrefl in Hm. by apply list_elem_of_In, Hm in Hin.
  - cbn [chk] in Hc. destruct H as [|h H]; [done|]. apply andb_true_iff in Hc as [->%bool_decide_eq_true_1 _].
    simpl in Hn. rewrite bool_decide_eq_true_2 in Hn by left. done.
  - cbn [chk] in Hc. apply andb_true_iff in Hc as [->%bool_decide_eq_true_1 _].
    simpl in Hn. rewrite bool_decide_eq_true_2 in Hn by left. done.
Qed.

(** *** The threads together *)

Lemma free_of_spec s t l :
  free_of s t l = true ↔ ∀ u y, u ≠ t → s !! u = Some y → l ∉ held y.
Proof.
  unfold free_of. rewrite forallb_forall. split.
  - intros H u y Hu Hy Hl. specialize (H (u, y)). simpl in H.
    rewrite bool_decide_eq_true_2, orb_false_r, Nat.eqb_eq in H by done. apply Hu, H.
    apply list_elem_of_In, elem_of_lookup_imap. by exists u, y.
  - intros H [u y] Hin. apply list_elem_of_In, elem_of_lookup_imap in Hin as (i & z & [= -> ->] & Hi). simpl.
    destruct (Nat.eqb_spec i t) as [|Hne]; [done|]. simpl. by rewrite bool_decide_eq_false_2 by (by eapply H).
Qed.

Lemma next_of_inv s s' t :
  s' ∈ next_of s t → ∃ x y, s !! t = Some x ∧ y ∈ tnext (free_of s t) x ∧ s' = <[t := y]> s.
Proof.
  unfold next_of. destruct (s !! t) as [x|]; [|by intros ?%not_elem_of_nil].
  intros (y & -> & Hy)%list_elem_of_fmap. eauto.
Qed.

(** One thread moves to where it holds nothing that another has. *)
Lemma pool_update s t x y :
  pool_ok s → s !! t = Some x → thread_ok y →
  (∀ l, l ∈ held y → l ∈ held x ∨ free_of s t l = true) → pool_ok (<[t := y]> s).
Proof.
  intros [HT HM] Hx Hy Hl. pose proof (lookup_lt_Some _ _ _ Hx).
  assert (No : ∀ u z l, u ≠ t → s !! u = Some z → l ∈ held y → l ∉ held z).
  { intros u z l Hu Hz [Hi|Hf]%Hl; [by eapply (HM t u)|]. rewrite free_of_spec in Hf. by eapply Hf. }
  split.
  - intros u z. destruct (decide (t = u)) as [<-|Hne].
    + rewrite list_lookup_insert_eq by done. by intros [= <-].
    + rewrite list_lookup_insert_ne by done. apply HT.
  - intros u v z w l Huv. destruct (decide (t = u)) as [<-|Hu]; destruct (decide (t = v)) as [<-|Hv]; try done.
    + rewrite list_lookup_insert_eq, list_lookup_insert_ne by done. intros [= <-] Hw. by apply (No v).
    + rewrite list_lookup_insert_eq, list_lookup_insert_ne by done. intros Hz [= <-] Hi Hi'. by apply (No u z l).
    + rewrite !list_lookup_insert_ne by done. by apply HM.
Qed.

Lemma pool_step s s' : pool_ok s → step start s s' → pool_ok s'.
Proof.
  intros HP [t s1 Hs|t a H Ht Ha].
  - apply next_of_inv in Hs as (x & y & Hx & Hy & ->). eapply pool_update; [done|done| |].
    + eapply thread_step; [by eapply (ok_thread s HP)|done].
    + intros l. by apply step_held.
  - assert (H = []) as -> by (apply (resting_empty (Th Skip [] H)); [by eapply (ok_thread s HP)|done]).
    eapply pool_update; [done|done| |].
    + split; [|done]. cbn [code rest held kret knext]. eapply chk_mono; [| |exact (start_bal t a Ha)];
        intros K E; apply bool_decide_eq_true_1 in E; by apply bool_decide_eq_true_2.
    + intros l Hl. by apply not_elem_of_nil in Hl.
Qed.

Lemma reaches_ok n s : reaches start n s → pool_ok s.
Proof.
  intros Hr. unfold reaches in Hr. remember (replicate n _) as s0 eqn:E.
  assert (H0 : pool_ok s0).
  { subst. split; [intros t x [-> _]%lookup_replicate; by split|].
    intros t u x y l _ [-> _]%lookup_replicate _ Hl. by apply not_elem_of_nil in Hl. }
  clear E. induction Hr as [|s1 s2 s3 H12 _ IH]; [done|]. by apply IH, (pool_step s1).
Qed.

(** *** Progress *)

Definition wanted (x : thread) : option lock :=
  match code x with Lock l => Some l | _ => None end.

(** A thread that cannot go on waits for one that is not at rest. *)
Lemma waits_for s u y :
  pool_ok s → s !! u = Some y → resting y = false → tnext (free_of s u) y = [] →
  ∃ l v z, code y = Lock l ∧ v ≠ u ∧ s !! v = Some z ∧ l ∈ held z ∧ resting z = false.
Proof.
  intros HP Hy Hry Hn. destruct (held_up (free_of s u) y) as (l & Hc & Hf); [by eapply (ok_thread s HP)|done..|].
  destruct (decide (Exists (λ vz, vz.1 ≠ u ∧ l ∈ held vz.2) (imap pair s))) as [HE|HNo].
  - apply Exists_exists in HE as ([v z] & Hin & Hv & Hl).
    apply elem_of_lookup_imap in Hin as (i & w & [= -> ->] & Hi). simpl in *.
    exists l, i, w. split_and!; try done. destruct (resting w) eqn:E; [|done].
    rewrite (resting_empty w) in Hl; [by apply not_elem_of_nil in Hl|by eapply (ok_thread s HP)|done].
  - exfalso. assert (free_of s u l = true); [|congruence]. apply free_of_spec. intros v z Hv Hz Hl.
    apply HNo, Exists_exists. exists (v, z). split; [|done]. apply elem_of_lookup_imap. by exists v, z.
Qed.

(** Whoever waits for the last of the wanted mutexes waits for a thread that can go on. *)
Lemma pool_progress s t x :
  pool_ok s → s !! t = Some x → resting x = false →
  ∃ u y, s !! u = Some y ∧ resting y = false ∧ tnext (free_of s u) y ≠ [].
Proof.
  intros HP Hx Hr.
  destruct (decide (Exists (λ uy, resting uy.2 = false ∧ tnext (free_of s uy.1) uy.2 ≠ []) (imap pair s))) as [HE|HN].
  { apply Exists_exists in HE as ([u y] & Hin & Hy & Hn).
    apply elem_of_lookup_imap in Hin as (i & w & [= -> ->] & Hi). by exists i, w. }
  exfalso. assert (Stuck : ∀ u y, s !! u = Some y → resting y = false → tnext (free_of s u) y = []).
  { intros u y Hy Hry. destruct (tnext (free_of s u) y) as [|z L] eqn:E; [done|]. exfalso.
    apply HN, Exists_exists. exists (u, y). split; [|split; [done|simpl; by rewrite E]].
    apply elem_of_lookup_imap. by exists u, y. }
  set (L := omap wanted (filter (λ y, resting y = false) s)).
  assert (InL : ∀ u y l, s !! u = Some y → resting y = false → code y = Lock l → l ∈ L).
  { intros u y l Hy Hry Hc. apply list_elem_of_omap. exists y. split; [|unfold wanted; by rewrite Hc].
    apply list_elem_of_filter. split; [done|]. by eapply list_elem_of_lookup_2. }
  destruct (last_lock depth L) as (l & Hl & Hmax).
  { destruct (waits_for s t x HP Hx Hr) as (l & _ & _ & Hc & _); [by apply (Stuck t)|].
    pose proof (InL t x l Hx Hr Hc) as Hin. intros E. rewrite E in Hin. by apply not_elem_of_nil in Hin. }
  apply list_elem_of_omap in Hl as (y & Hy & Hw). apply list_elem_of_filter in Hy as [Hry Hy].
  apply list_elem_of_lookup in Hy as [u Hy].
  destruct (waits_for s u y HP Hy Hry) as (l' & v & z & Hc & _ & Hz & Hlz & Hrz); [by apply (Stuck u)|].
  unfold wanted in Hw. rewrite Hc in Hw. injection Hw as ->.
  destruct (waits_for s v z HP Hz Hrz) as (m & w & q & Hcz & Hwv & Hq & Hm & _); [by apply (Stuck v)|].
  pose proof (ok_chk _ (ok_thread s HP v z Hz)) as Hk. rewrite Hcz in Hk. cbn [chk] in Hk.
  apply andb_true_iff in Hk as [Hk _]. unfold may_take in Hk. apply orb_true_iff in Hk as [[_ Hk]%andb_true_iff|Hk].
  - apply bool_decide_eq_true_1 in Hk. by apply (ok_mutex s HP v w z q m).
  - rewrite forallb_forall in Hk. specialize (Hk l). rewrite (Hmax m) in Hk by (by apply (InL v z)).
    by apply list_elem_of_In, Hk in Hlz.
Qed.
End Run.

(** ** The shortest way to rest *)

Fixpoint size (a : cmd) : nat :=
  match a with
  | Skip => 0
  | Lock _ | Unlock _ | Join | Ret => 1
  | Asleep _ => 2
  | CondWait _ => 3
  | Seq a b => 2 + size a + size b
  | If a b => 1 + size a + size b
  | Loop a => 1 + size a
  | Call a => 2 + size a
  end.
Definition ksize (k : kont) : nat :=
  match k with KSeq b => 1 + size b | KLoop a => 2 + size a | KCall => 1 end.
Definition tsize (x : thread) : nat := (size (code x) + sum_list_with ksize (rest x))%nat.

Lemma first_shrinks free x z L : tnext free x = z :: L → (tsize z < tsize x)%nat.
Proof.
  destruct x as [a K H]. unfold tsize.
  destruct a; simpl; intros E; try (destruct K as [|[?|?|] K]);
    repeat (match type of E with context [if ?b then _ else _] => destruct b end);
    simplify_eq; simpl; lia.
Qed.

Definition none (t : nat) (a : cmd) : Prop := False.

Lemma tsize_update (s : list thread) t x y :
  s !! t = Some x → (tsize y < tsize x)%nat →
  (sum_list_with tsize (<[t := y]> s) < sum_list_with tsize s)%nat.
Proof.
  revert t. induction s as [|z s IH]; intros [|t] Hx Hlt; simpl in *; [done|done|simplify_eq; lia|].
  specialize (IH t Hx Hlt). lia.
Qed.

(** Left alone, the threads can come to rest from anywhere. *)
Lemma pool_settles depth s : pool_ok depth s →
  ∃ s', rtc (step none) s s' ∧ pool_ok depth s' ∧ Forall (λ x, resting x = true) s'.
Proof.
  remember (sum_list_with tsize s) as n eqn:E. revert s E.
  induction (lt_wf n) as [n _ IH]. intros s -> HP.
  destruct (decide (Forall (λ x, resting x = true) s)) as [|HN]; [by exists s|].
  apply not_Forall_Exists, Exists_exists in HN as (x & [t Hx]%list_elem_of_lookup & Hr); [|apply _].
  apply not_true_is_false in Hr. destruct (pool_progress depth s t x HP Hx Hr) as (u & y & Hy & _ & Hn).
  destruct (tnext (free_of s u) y) as [|z L] eqn:E; [done|].
  assert (St : step none s (<[u := z]> s)).
  { apply (s_run _ _ u). unfold next_of. rewrite Hy, E. left. }
  destruct (IH _ (tsize_update s u y z Hy (first_shrinks _ _ _ _ E)) (<[u := z]> s) eq_refl) as (s' & R & HP' & HF).
  - eapply (pool_step depth none); [by intros ? ? []|done|done].
  - exists s'. split; [by eapply rtc_l|done].
Qed.

(** ** Concrete runs *)

Lemma drive_run start n t forks s s' : drive n t forks s = Some s' → rtc (step start) s s'.
Proof.
  revert forks s. induction n as [|n IH]; simpl; intros forks s H; [by injection H as ->|].
  assert (K : ∀ i s1 forks', next_of s t !! i = Some s1 → drive n t forks' s1 = Some s' → rtc (step start) s s').
  { intros i s1 forks' Hi Hd. eapply rtc_l; [|by eapply IH]. apply (s_run _ _ t). by eapply list_elem_of_lookup_2. }
  destruct (next_of s t) as [|s1 [|s2 ss]] eqn:E; [by destruct forks| |].
  - by apply (K 0%nat s1 forks).
  - destruct forks as [|i forks]; [done|]. destruct ((s1 :: s2 :: ss) !! i) as [s3|] eqn:Hi; [|done].
    by apply (K i s3 forks).
Qed.

Definition launched (progs : list cmd) : list thread := (λ a, Th a [] []) <$> progs.

Lemma launch_run start progs :
  (∀ t a, progs !! t = Some a → start t a) → reaches start (length progs) (launched progs).
Proof.
  intros Hs. cut (∀ up todo, progs = up ++ todo →
    rtc (step start) (launched up ++ replicate (length todo) (Th Skip [] [])) (launched progs)).
  { intros H. by apply (H [] progs). }
  intros up todo. revert up. induction todo as [|a todo IH]; intros up E; simpl.
  - rewrite app_nil_r in *. subst. apply rtc_refl.
  - eapply rtc_l; [apply (s_start _ _ (length up) a [])|].
    + unfold launched. rewrite lookup_app_r; rewrite length_fmap; [|done]. by rewrite Nat.sub_diag.
    + apply Hs. subst. by apply list_lookup_middle.
    + unfold launched at 1. rewrite insert_app_r_alt; rewrite length_fmap; [|done]. rewrite Nat.sub_diag. simpl.
      rewrite cons_middle, app_assoc. specialize (IH (up ++ [a])). unfold launched in *. rewrite fmap_app in IH.
      apply IH. by rewrite E, <- app_assoc.
Qed.

(** The programs launched, then one thread driven, then another. *)
Lemma launch_drive start progs n1 t1 f1 n2 t2 f2 s :
  (s1 ← drive n1 t1 f1 (launched progs); drive n2 t2 f2 s1) = Some s →
  (∀ t a, progs !! t = Some a → start t a) → reaches start (length progs) s.
Proof.
  intros (s1 & H1 & H2)%bind_Some Hs. unfold reaches.
  transitivity (launched progs); [by apply launch_run|].
  transitivity s1; by eapply drive_run.
Qed.
