(* ===== verification/Pool.v ===== *)
(** * The pool under every interleaving

    [runtime.c]: the futures and the worker pool as a step relation.  A step is
    one critical section: the code between taking and releasing the instance
    lock, one future's mutex or the queue's.  Any number of host threads and
    workers interleave.  A pledge body is what the futures can see of it: the
    locks of other instances it takes and drops (a nested fulfillment) and the
    instances it breaks, an arbitrary finite script.

    An instance lock is held by the thread whose program point says so, and a
    step that takes one is enabled only when no other thread holds it; the owner
    may take it again.  A break is not one step: it forfeits the listed futures
    one mutex at a time, under the instance lock, and only then is the heap gone. *)
From S2P Require Import Prelude Abi Frame Future.

(** ** Threads *)

Inductive act := ALock (c : Z) | AUnlock | ABreak (c : Z).

(** Where a thread is.  Host: inside [geas_pledge_fulfill] (the flag says whether
    it came from the synchronous form), waiting, releasing, breaking.  Worker:
    [pool_worker] and [run_task]. *)
Inductive pc :=
| HIdle
| HNew (sync : bool) (f : nat)                     (* linked, to be validated *)
| HFail (sync : bool) (f : nat) (st : GeasStatus)  (* refused, to be finished *)
| HReady (sync : bool) (f : nat)                   (* frame built *)
| HEnq (sync : bool) (f : nat)                     (* the pool's hold taken *)
| HWait (f : nat)
| HRel (f : nat)                                   (* delivered, to be unlinked *)
| HDrop (f : nat)                                  (* unlinked, to be unreferenced *)
| HBreak (c : Z) (rem : list nat)
| WIdle
| WTask (f : nat)                                  (* dequeued *)
| WRun (f : nat) (c : Z) (ns : list Z) (s : list act)
| WBreak (f : nat) (c : Z) (ns : list Z) (s : list act) (b : Z) (rem : list nat)
| WDrop (f : nat)                                  (* finished, to be unreferenced *)
| WExit.

#[export] Instance act_eq_dec : EqDecision act.
Proof. solve_decision. Defined.
#[export] Instance pc_eq_dec : EqDecision pc.
Proof. solve_decision. Defined.

(** The instance locks a thread holds. *)
Definition held (p : pc) : list Z :=
  match p with
  | HBreak c _ => [c]
  | WRun _ c ns _ => c :: ns
  | WBreak _ c ns _ b _ => b :: c :: ns
  | _ => []
  end.

Definition is_worker (p : pc) : bool :=
  match p with WIdle | WTask _ | WRun _ _ _ _ | WBreak _ _ _ _ _ _ | WDrop _ | WExit => true | _ => false end.

(** ** The state *)

(** A future is named by the serial of its allocation; [pfuts] holds the live
    ones.  [plinked] is every instance's futures list, the instance being the
    future's own.  [dead] are the instances whose heap is gone.  [log] and [pub]
    record deliveries and effective completions. *)
Record pool := Pool {
  pfuts : gmap nat GeasFuture;
  pnext : nat;
  plinked : list nat;
  pqueue : list nat;
  qstop : bool;
  dead : gset Z;
  threads : list pc;
  log : list (nat * GeasStatus);
  pub : gmap nat GeasStatus
}.

Definition th (s : pool) (t : nat) (p : pc) : Prop := threads s !! t = Some p.

Definition free_for (s : pool) (t : nat) (c : Z) : Prop :=
  ∀ u p, u ≠ t → threads s !! u = Some p → c ∉ held p.

(** [c->futures] *)
Definition links_of (s : pool) (c : Z) : list nat :=
  filter (λ f, fu_c <$> pfuts s !! f = Some c) (plinked s).

(** ** Updates *)

Definition goto (t : nat) (p : pc) (s : pool) : pool :=
  Pool (pfuts s) (pnext s) (plinked s) (pqueue s) (qstop s) (dead s) (<[t := p]> (threads s)) (log s) (pub s).
Definition put_fut (f : nat) (x : GeasFuture) (s : pool) : pool :=
  Pool (<[f := x]> (pfuts s)) (pnext s) (plinked s) (pqueue s) (qstop s) (dead s) (threads s) (log s) (pub s).

(** [future_new] *)
Definition create (c : Z) (s : pool) : pool :=
  Pool (<[pnext s := fresh_future c]> (pfuts s)) (S (pnext s)) (pnext s :: plinked s) (pqueue s)
    (qstop s) (dead s) (threads s) (log s) (pub s).

(** [future_finish], recording a completion that took effect. *)
Definition finish (f : nat) (x : GeasFuture) (st : GeasStatus) (val : option GeasValue) (s : pool) : pool :=
  Pool (<[f := future_finish st val x]> (pfuts s)) (pnext s) (plinked s) (pqueue s) (qstop s) (dead s)
    (threads s) (log s) (if fu_done x then pub s else <[f := st]> (pub s)).

(** [future_unref]: the last hold frees. *)
Definition unref (f : nat) (x : GeasFuture) (s : pool) : pool :=
  let left := u32 (fu_refcnt x - 1) in
  Pool (if left =? 0 then delete f (pfuts s) else <[f := with_refcnt left x]> (pfuts s)) (pnext s)
    (plinked s) (pqueue s) (qstop s) (dead s) (threads s) (log s) (pub s).

Fixpoint unlink_nat (f : nat) (l : list nat) : list nat :=
  match l with
  | [] => []
  | g :: l' => if (g =? f)%nat then l' else g :: unlink_nat f l'
  end.
Definition unlinked (f : nat) (s : pool) : pool :=
  Pool (pfuts s) (pnext s) (unlink_nat f (plinked s)) (pqueue s) (qstop s) (dead s) (threads s) (log s) (pub s).

Definition set_pqueue (q : list nat) (s : pool) : pool :=
  Pool (pfuts s) (pnext s) (plinked s) q (qstop s) (dead s) (threads s) (log s) (pub s).

(** One wait on a completed future: the first delivers. *)
Definition deliver (f : nat) (x : GeasFuture) (s : pool) : pool :=
  if fu_waited x then s else
  Pool (<[f := with_waited x]> (pfuts s)) (pnext s) (plinked s) (pqueue s) (qstop s) (dead s)
    (threads s) (log s ++ [(f, fu_status x)]) (pub s).

Definition kill (c : Z) (s : pool) : pool :=
  Pool (pfuts s) (pnext s) (plinked s) (pqueue s) (qstop s) ({[c]} ∪ dead s) (threads s) (log s) (pub s).
Definition stop (s : pool) : pool :=
  Pool (pfuts s) (pnext s) (plinked s) (pqueue s) true (dead s) (threads s) (log s) (pub s).

(** ** Steps *)

(** A worker's step.  An instance that is Broken by its policy alone keeps its heap
    and is not [dead]: its queued task is refused as [w_run] of no script and
    [w_done]. *)
Inductive wstep (s : pool) : pool → Prop :=
| w_take t f q :
    th s t WIdle → pqueue s = f :: q → wstep s (goto t (WTask f) (set_pqueue q s))
| w_exit t : th s t WIdle → pqueue s = [] → qstop s = true → wstep s (goto t WExit s)
| w_refuse t f x :
    th s t (WTask f) → pfuts s !! f = Some x → free_for s t (fu_c x) → fu_c x ∈ dead s →
    wstep s (goto t (WDrop f) (finish f x GEAS_ERR_STATE None s))
| w_run t f x script :
    th s t (WTask f) → pfuts s !! f = Some x → free_for s t (fu_c x) → fu_c x ∉ dead s →
    wstep s (goto t (WRun f (fu_c x) [] script) s)
| w_lock t f c ns b script :
    th s t (WRun f c ns (ALock b :: script)) → free_for s t b →
    wstep s (goto t (WRun f c (b :: ns) script) s)
| w_unlock t f c ns script :
    th s t (WRun f c ns (AUnlock :: script)) → wstep s (goto t (WRun f c (tail ns) script) s)
| w_break t f c ns b script :
    th s t (WRun f c ns (ABreak b :: script)) → free_for s t b →
    wstep s (goto t (WBreak f c ns script b (links_of s b)) s)
| w_forfeit t f c ns script b g x rem :
    th s t (WBreak f c ns script b (g :: rem)) → pfuts s !! g = Some x →
    wstep s (goto t (WBreak f c ns script b rem) (put_fut g (future_forfeit x) s))
| w_broke t f c ns script b :
    th s t (WBreak f c ns script b []) → wstep s (goto t (WRun f c ns script) (kill b s))
| w_done t f c ns x st val :
    th s t (WRun f c ns []) → pfuts s !! f = Some x →
    wstep s (goto t (WDrop f) (finish f x st val s))
| w_drop t f x :
    th s t (WDrop f) → pfuts s !! f = Some x → wstep s (goto t WIdle (unref f x s)).

(** Where a fulfillment leaves the host thread. *)
Definition after (sync : bool) (f : nat) : pc := if sync then HWait f else HIdle.

(** A host thread's step; [h_stop] is the start of shutdown, which no other call
    may overlap. *)
Inductive hstep (s : pool) : pool → Prop :=
| h_new t c sync :
    th s t HIdle → qstop s = false → free_for s t c →
    hstep s (goto t (HNew sync (pnext s)) (create c s))
| h_fail t sync f st : th s t (HNew sync f) → hstep s (goto t (HFail sync f st) s)
| h_fail_refs t sync f x p refs st :
    th s t (HNew sync f) → pfuts s !! f = Some x → free_for s t (fu_c x) → fu_c x ∉ dead s →
    hstep s (goto t (HFail sync f st) (put_fut f (with_refs p refs x) s))
| h_ready t sync f x p refs fn pidx frame nargs slots off :
    th s t (HNew sync f) → pfuts s !! f = Some x → free_for s t (fu_c x) → fu_c x ∉ dead s →
    hstep s (goto t (HReady sync f)
      (put_fut f (with_task fn pidx frame nargs slots off (with_refs p refs x)) s))
| h_finish t sync f x st :
    th s t (HFail sync f st) → pfuts s !! f = Some x →
    hstep s (goto t (after sync f) (finish f x st None s))
| h_hold t sync f x :
    th s t (HReady sync f) → pfuts s !! f = Some x →
    hstep s (goto t (HEnq sync f) (put_fut f (with_refcnt 2 x) s))
| h_enqueue t sync f :
    th s t (HEnq sync f) → hstep s (goto t (after sync f) (set_pqueue (pqueue s ++ [f]) s))
| h_wait t f x :
    th s t HIdle → f ∈ plinked s → pfuts s !! f = Some x → fu_done x = true → hstep s (deliver f x s)
| h_wait_sync t f x :
    th s t (HWait f) → pfuts s !! f = Some x → fu_done x = true →
    hstep s (goto t (HRel f) (deliver f x s))
| h_release t f x :
    th s t (HRel f) → pfuts s !! f = Some x → free_for s t (fu_c x) →
    hstep s (goto t (HDrop f) (unlinked f s))
| h_drop t f x : th s t (HDrop f) → pfuts s !! f = Some x → hstep s (goto t HIdle (unref f x s))
| h_break t c :
    th s t HIdle → qstop s = false → free_for s t c → hstep s (goto t (HBreak c (links_of s c)) s)
| h_forfeit t c g x rem :
    th s t (HBreak c (g :: rem)) → pfuts s !! g = Some x →
    hstep s (goto t (HBreak c rem) (put_fut g (future_forfeit x) s))
| h_broke t c : th s t (HBreak c []) → hstep s (goto t HIdle (kill c s))
| h_stop : (∀ t p, th s t p → is_worker p = false → p = HIdle) → hstep s (stop s).

Definition step (s s' : pool) : Prop := wstep s s' ∨ hstep s s'.

(** A fresh pool: idle host threads and at least one idle worker. *)
Definition pool_init (hosts workers : nat) : pool :=
  Pool ∅ 0 [] [] false ∅ (replicate hosts HIdle ++ replicate (S workers) WIdle) [] ∅.
Definition reachable (s : pool) : Prop := ∃ hosts workers, rtc step (pool_init hosts workers) s.
