(* ===== verification/PoolSpec.v ===== *)
(** * What every interleaving keeps

    The invariant of the pool: who holds which future ([tok_ok]), who holds which
    instance lock, what a broken instance's futures may still point at, and what
    was published and delivered. *)
From S2P Require Import Prelude Abi Frame Future Pool.

(** ** Tokens *)

(** The future a thread stands for, by the part it plays. *)
Definition pre_at (p : pc) : option nat :=
  match p with HNew _ f | HFail _ f _ | HReady _ f => Some f | _ => None end.
Definition pool_at (p : pc) : option nat :=
  match p with
  | HEnq _ f | WTask f | WRun f _ _ _ | WBreak f _ _ _ _ _ | WDrop f => Some f
  | _ => None
  end.
Definition host_at (p : pc) : option nat :=
  match p with
  | HNew _ f | HFail _ f _ | HReady _ f | HEnq _ f | HWait f | HRel f => Some f
  | _ => None
  end.
Definition drop_at (p : pc) : option nat := match p with HDrop f => Some f | _ => None end.
Definition rel_at (p : pc) : option nat := match p with HRel f | HDrop f => Some f | _ => None end.
Definition fin_at (p : pc) : option nat := match p with WDrop f => Some f | _ => None end.

Definition is_at (o : option nat) (f : nat) : nat :=
  match o with Some g => if (g =? f)%nat then 1 else 0 | None => 0 end.

Fixpoint tsum (k : pc → option nat) (ts : list pc) (f : nat) : nat :=
  match ts with [] => 0 | p :: ts' => is_at (k p) f + tsum k ts' f end.
Fixpoint occ (f : nat) (l : list nat) : nat :=
  match l with [] => 0 | g :: l' => is_at (Some g) f + occ f l' end.

Lemma tsum_upd k ts t p q f :
  ts !! t = Some p → (tsum k (<[t := q]> ts) f + is_at (k p) f = tsum k ts f + is_at (k q) f)%nat.
Proof.
  revert t. induction ts as [|r ts IH]; intros [|t] H; simpl in *; [done|done| |].
  - injection H as ->. lia.
  - specialize (IH t H). lia.
Qed.
Lemma tsum_in k ts t p f : ts !! t = Some p → (is_at (k p) f ≤ tsum k ts f)%nat.
Proof.
  revert t. induction ts as [|r ts IH]; intros [|t] H; simpl in *; [done|done| |].
  - injection H as ->. lia.
  - specialize (IH t H). lia.
Qed.
Lemma tsum_fin ts f : (tsum fin_at ts f ≤ tsum pool_at ts f)%nat.
Proof. induction ts as [|p ts IH]; [done|]. destruct p; simpl in *; lia. Qed.
Lemma tsum_rel ts f : (tsum rel_at ts f ≤ tsum host_at ts f + tsum drop_at ts f)%nat.
Proof. induction ts as [|p ts IH]; [done|]. destruct p; simpl in *; lia. Qed.
Lemma tsum_pre ts f : (tsum pre_at ts f ≤ tsum host_at ts f)%nat.
Proof. induction ts as [|p ts IH]; [done|]. destruct p; simpl in *; lia. Qed.

Lemma occ_app f l k : occ f (l ++ k) = (occ f l + occ f k)%nat.
Proof. induction l as [|g l IH]; simpl in *; lia. Qed.
Lemma occ_in f l : f ∈ l ↔ (1 ≤ occ f l)%nat.
Proof.
  induction l as [|g l IH]; simpl.
  - split; [by intros []%not_elem_of_nil|lia].
  - rewrite elem_of_cons, IH. destruct (Nat.eqb_spec g f); subst; intuition lia.
Qed.
Lemma occ_unlink f g l :
  f ∈ l → (occ g (unlink_nat f l) + is_at (Some f) g = occ g l)%nat.
Proof.
  induction l as [|h l IH]; intros Hf; [by apply not_elem_of_nil in Hf|]. simpl.
  destruct (Nat.eqb_spec h f) as [->|Hne]; [simpl; lia|]. apply elem_of_cons in Hf as [->|Hf]; [done|].
  specialize (IH Hf). simpl in *. lia.
Qed.

(** Per future: at most one of a preparing host, a queue slot and a pool hold; at
    most one of the instance's list and a drop in progress; the receipt in a
    host's hands is listed; the count is exactly the holds, and there is one; an
    unfinished future is on its way to be finished; an undelivered one is listed. *)
Definition tok_ok (o : option GeasFuture) (npre nq npool nfin nhost nlk ndrop nrel : nat) : Prop :=
  match o with
  | None => (npre + nq + npool + nhost + nlk + ndrop)%nat = 0%nat
  | Some x =>
      (npre + nq + npool ≤ 1)%nat ∧ (nlk + ndrop ≤ 1)%nat ∧ (nhost ≤ nlk)%nat ∧
      fu_refcnt x = Z.of_nat (nq + npool + nlk + ndrop) ∧ (1 ≤ nq + npool + nlk + ndrop)%nat ∧
      (1 ≤ Nat.b2n (fu_done x) + (npre + nq + npool - nfin))%nat ∧
      (1 ≤ Nat.b2n (fu_waited x) + nlk)%nat ∧ (nrel ≤ Nat.b2n (fu_waited x))%nat
  end.

Definition tokens (s : pool) (f : nat) : Prop :=
  tok_ok (pfuts s !! f) (tsum pre_at (threads s) f) (occ f (pqueue s)) (tsum pool_at (threads s) f)
    (tsum fin_at (threads s) f) (tsum host_at (threads s) f) (occ f (plinked s))
    (tsum drop_at (threads s) f) (tsum rel_at (threads s) f).

(** Who is where pins down which of the sums count it. *)
Definition fresh_ok (s : pool) : Prop := ∀ f, is_Some (pfuts s !! f) → (f < pnext s)%nat.

(** ** How an update may change a future *)

Lemma finish_fields st val x :
  fu_c (future_finish st val x) = fu_c x ∧ fu_refcnt (future_finish st val x) = fu_refcnt x ∧
  fu_waited (future_finish st val x) = fu_waited x ∧ fu_done (future_finish st val x) = true ∧
  fu_frame (future_finish st val x) = fu_frame x ∧ fu_refs (future_finish st val x) = fu_refs x ∧
  fu_slots (future_finish st val x) = fu_slots x.
Proof. unfold future_finish. by destruct (fu_done x) eqn:E. Qed.

Lemma forfeit_fields x :
  fu_c (future_forfeit x) = fu_c x ∧ fu_refcnt (future_forfeit x) = fu_refcnt x ∧
  fu_waited (future_forfeit x) = fu_waited x ∧
  (fu_done x = true → fu_done (future_forfeit x) = true).
Proof. unfold future_forfeit. by destruct (fu_waited x) eqn:E. Qed.

(** Reads the sums of an updated thread list off the old ones. *)
Ltac sums t p q f :=
  match goal with
  | Ht : th ?s t p |- _ =>
      pose proof (tsum_upd pre_at (threads s) t p q f Ht);
      pose proof (tsum_upd pool_at (threads s) t p q f Ht);
      pose proof (tsum_upd fin_at (threads s) t p q f Ht);
      pose proof (tsum_upd host_at (threads s) t p q f Ht);
      pose proof (tsum_upd drop_at (threads s) t p q f Ht);
      pose proof (tsum_upd rel_at (threads s) t p q f Ht);
      pose proof (tsum_in pool_at (threads s) t p f Ht);
      pose proof (tsum_in fin_at (threads s) t p f Ht);
      pose proof (tsum_in host_at (threads s) t p f Ht);
      pose proof (tsum_in drop_at (threads s) t p f Ht);
      pose proof (tsum_in rel_at (threads s) t p f Ht);
      pose proof (tsum_rel (<[t := q]> (threads s)) f);
      pose proof (tsum_fin (threads s) f);
      pose proof (tsum_rel (threads s) f);
      pose proof (tsum_pre (threads s) f)
  end.

(** The update of one thread alone. *)
Lemma tokens_goto s t p q f :
  th s t p → tokens s f →
  pre_at q = pre_at p → pool_at q = pool_at p → fin_at q = fin_at p → host_at q = host_at p →
  drop_at q = drop_at p → rel_at q = rel_at p → tokens (goto t q s) f.
Proof.
  intros Ht H E1 E2 E3 E4 E5 E6. unfold tokens in *. simpl.
  pose proof (tsum_upd pre_at (threads s) t p q f Ht). pose proof (tsum_upd pool_at (threads s) t p q f Ht).
  pose proof (tsum_upd fin_at (threads s) t p q f Ht). pose proof (tsum_upd host_at (threads s) t p q f Ht).
  pose proof (tsum_upd drop_at (threads s) t p q f Ht). pose proof (tsum_upd rel_at (threads s) t p q f Ht).
  rewrite E1, E2, E3, E4, E5, E6 in *.
  replace (tsum pre_at (<[t:=q]> (threads s)) f) with (tsum pre_at (threads s) f) by lia.
  replace (tsum pool_at (<[t:=q]> (threads s)) f) with (tsum pool_at (threads s) f) by lia.
  replace (tsum fin_at (<[t:=q]> (threads s)) f) with (tsum fin_at (threads s) f) by lia.
  replace (tsum host_at (<[t:=q]> (threads s)) f) with (tsum host_at (threads s) f) by lia.
  replace (tsum drop_at (<[t:=q]> (threads s)) f) with (tsum drop_at (threads s) f) by lia.
  by replace (tsum rel_at (<[t:=q]> (threads s)) f) with (tsum rel_at (threads s) f) by lia.
Qed.

(** An update of one live future that keeps its count and its delivery. *)
Lemma tokens_put s g x x' f :
  pfuts s !! g = Some x → fu_refcnt x' = fu_refcnt x → fu_waited x' = fu_waited x →
  (fu_done x = true → fu_done x' = true) → tokens s f → tokens (put_fut g x' s) f.
Proof.
  intros Hx E1 E2 E3 H. unfold tokens in *. simpl. destruct (decide (g = f)) as [<-|Hne].
  - rewrite lookup_insert_eq. rewrite Hx in H. simpl in *. rewrite E1, E2.
    destruct (fu_done x); [rewrite E3 by done|]; simpl in *; lia.
  - by rewrite lookup_insert_ne.
Qed.

(** Reads the tokens of future [g] and settles every goal about the changed sums. *)
Ltac tok_case t p q f g :=
  sums t p q f;
  match goal with
  | I : ∀ f, tokens ?s f |- _ => pose proof (I f); pose proof (I g)
  end;
  unfold tokens in *; cbn [goto put_fut set_pqueue unlinked finish create pfuts pqueue threads plinked pnext] in *;
  destruct (Nat.eqb_spec g f) as [<-|Hne];
  rewrite ?lookup_insert_eq, ?lookup_delete_eq, ?lookup_insert_ne, ?lookup_delete_ne by done;
  cbn [is_at pre_at pool_at fin_at host_at drop_at rel_at occ] in *;
  rewrite ?Nat.eqb_refl in *;
  repeat match goal with H : (?a =? ?b)%nat = _ |- _ => rewrite H in * end.

Ltac tok_end :=
  unfold tok_ok in *;
  repeat match goal with
  | Hx : pfuts ?s !! ?f = _ |- _ => rewrite Hx in *
  | |- context [match pfuts ?s !! ?f with _ => _ end] => destruct (pfuts s !! f) eqn:?
  end;
  repeat match goal with
  | H : fu_done ?x = _ |- _ => rewrite H in *; clear H
  | H : fu_waited ?x = _ |- _ => rewrite H in *; clear H
  | H : fu_refcnt ?x = _ |- _ => rewrite H in *; clear H
  end;
  cbn [Nat.b2n with_refcnt fu_refcnt fu_done fu_waited] in *; lia.

(** One step of thread [t] from [p] to [q] about future [g], seen at [f]. *)
Ltac tok t p q f g :=
  tok_case t p q f g;
  repeat match goal with I : ∀ f, tokens _ f |- _ => clear I | I : ∀ f, tok_ok _ _ _ _ _ _ _ _ _ |- _ => clear I end;
  repeat match goal with H : pqueue ?s = _ |- _ => rewrite H in *; clear H end;
  cbn [occ is_at] in *; rewrite ?occ_app in *; cbn [occ is_at] in *;
  rewrite ?Nat.eqb_refl in *;
  try match goal with Hne : ?g ≠ ?f |- _ => rewrite ?(proj2 (Nat.eqb_neq g f) Hne) in * end;
  tok_end.

Section Tokens.
Context (s : pool).
Hypothesis (I : ∀ f, tokens s f).

Lemma take_tokens t g q f :
  th s t WIdle → pqueue s = g :: q → tokens (goto t (WTask g) (set_pqueue q s)) f.
Proof. intros Ht Hq. tok t WIdle (WTask g) f g. Qed.

Lemma finish_tokens t p q g x st val f :
  th s t p → pfuts s !! g = Some x →
  (∃ sync st, p = HFail sync g st ∧ q = after sync g) ∨
  (p = WTask g ∨ ∃ c ns scr, p = WRun g c ns scr) ∧ q = WDrop g →
  tokens (goto t q (finish g x st val s)) f.
Proof.
  intros Ht Hx Hp. destruct (finish_fields st val x) as (_ & E1 & E2 & E3 & _).
  destruct Hp as [([] & st' & -> & ->)|[[->|(c & ns & scr & ->)] ->]]; unfold after in *.
  - tok t (HFail true g st') (HWait g) f g.
  - tok t (HFail false g st') HIdle f g.
  - tok t (WTask g) (WDrop g) f g.
  - tok t (WRun g c ns scr) (WDrop g) f g.
Qed.

Lemma create_tokens t sync c f :
  fresh_ok s → th s t HIdle → tokens (goto t (HNew sync (pnext s)) (create c s)) f.
Proof.
  intros Fr Ht. assert (Hn : pfuts s !! pnext s = None).
  { apply eq_None_not_Some. intros H%Fr. lia. }
  assert (E1 : fu_refcnt (fresh_future c) = 1) by done.
  assert (E2 : fu_done (fresh_future c) = false) by done.
  assert (E3 : fu_waited (fresh_future c) = false) by done.
  tok t HIdle (HNew sync (pnext s)) f (pnext s).
Qed.

Lemma hold_tokens t sync g x f :
  th s t (HReady sync g) → pfuts s !! g = Some x →
  tokens (goto t (HEnq sync g) (put_fut g (with_refcnt 2 x) s)) f.
Proof.
  intros Ht Hx. assert (E : fu_refcnt (with_refcnt 2 x) = 2) by done.
  tok t (HReady sync g) (HEnq sync g) f g.
Qed.

Lemma enqueue_tokens t sync g f :
  th s t (HEnq sync g) → tokens (goto t (after sync g) (set_pqueue (pqueue s ++ [g]) s)) f.
Proof.
  intros Ht. destruct sync; unfold after.
  - tok t (HEnq true g) (HWait g) f g.
  - tok t (HEnq false g) HIdle f g.
Qed.

Lemma deliver_tokens g x f : pfuts s !! g = Some x → tokens (deliver g x s) f.
Proof.
  intros Hx. unfold deliver. destruct (fu_waited x) eqn:Hw; [apply I|]. pose proof (I f) as H.
  unfold tokens in *. simpl. destruct (decide (g = f)) as [<-|Hne].
  - rewrite lookup_insert_eq. rewrite Hx in H. simpl in *. rewrite Hw in H. simpl in H.
    pose proof (tsum_rel (threads s) g). lia.
  - by rewrite lookup_insert_ne.
Qed.

Lemma wait_tokens t g x f :
  th s t (HWait g) → pfuts s !! g = Some x → tokens (goto t (HRel g) (deliver g x s)) f.
Proof.
  intros Ht Hx. unfold deliver. destruct (fu_waited x) eqn:Ew.
  - tok t (HWait g) (HRel g) f g.
  - assert (E1 : fu_waited (with_waited x) = true) by done.
    assert (E2 : fu_done (with_waited x) = fu_done x) by done.
    assert (E3 : fu_refcnt (with_waited x) = fu_refcnt x) by done.
    tok t (HWait g) (HRel g) f g.
Qed.

Lemma release_tokens t g x f :
  th s t (HRel g) → pfuts s !! g = Some x → tokens (goto t (HDrop g) (unlinked g s)) f.
Proof.
  intros Ht Hx. assert (Hin : g ∈ plinked s).
  { apply occ_in. pose proof (I g) as Hg. unfold tokens in Hg. rewrite Hx in Hg. simpl in Hg.
    pose proof (tsum_in host_at _ t _ g Ht) as Hh. simpl in Hh. rewrite Nat.eqb_refl in Hh. lia. }
  pose proof (occ_unlink g f _ Hin) as Ho. tok t (HRel g) (HDrop g) f g.
Qed.

(** Dropping one hold: the worker's after its task, the host's after its release. *)
Lemma unref_tokens t p q g x f :
  th s t p → pfuts s !! g = Some x → (p = WDrop g ∧ q = WIdle ∨ p = HDrop g ∧ q = HIdle) →
  tokens (goto t q (unref g x s)) f.
Proof.
  intros Ht Hx Hp. assert (Hr : 1 <= fu_refcnt x <= 2).
  { pose proof (I g) as Hg. unfold tokens in Hg. rewrite Hx in Hg.
    destruct Hg as (? & ? & _ & -> & ? & _). lia. }
  unfold unref. rewrite u32_id by zlia.
  destruct (Z.eqb_spec (fu_refcnt x - 1) 0) as [E|E]; destruct Hp as [[-> ->]|[-> ->]].
  - tok t (WDrop g) WIdle f g.
  - tok t (HDrop g) HIdle f g.
  - assert (E2 : fu_refcnt (with_refcnt (fu_refcnt x - 1) x) = fu_refcnt x - 1) by done.
    tok t (WDrop g) WIdle f g.
  - assert (E2 : fu_refcnt (with_refcnt (fu_refcnt x - 1) x) = fu_refcnt x - 1) by done.
    tok t (HDrop g) HIdle f g.
Qed.

(** A goto after an update of another field. *)
Lemma goto_put_tokens t p q g x x' f :
  th s t p → pfuts s !! g = Some x → fu_refcnt x' = fu_refcnt x → fu_waited x' = fu_waited x →
  (fu_done x = true → fu_done x' = true) →
  pre_at q = pre_at p → pool_at q = pool_at p → fin_at q = fin_at p → host_at q = host_at p →
  drop_at q = drop_at p → rel_at q = rel_at p → tokens (goto t q (put_fut g x' s)) f.
Proof.
  intros Ht Hx E1 E2 E3 **. apply (tokens_goto _ _ p); auto. by eapply tokens_put.
Qed.
End Tokens.

(** ** What one step may do, summed up *)

Definition clean (x : GeasFuture) : Prop := fu_frame x = 0 ∧ fu_refs x = 0 ∧ fu_slots x = 0.

(** A change that gives a future no new pointer and never takes a delivery back. *)
Definition gentle (x x' : GeasFuture) : Prop :=
  fu_c x' = fu_c x ∧ (fu_waited x' = false → fu_waited x = false ∧ (clean x → clean x')).

Lemma gentle_refl x : gentle x x.
Proof. by split. Qed.
Lemma gentle_finish st val x : gentle x (future_finish st val x).
Proof. unfold future_finish. by destruct (fu_done x). Qed.
Lemma gentle_forfeit x : gentle x (future_forfeit x).
Proof. unfold future_forfeit. by destruct (fu_waited x) eqn:E. Qed.
Lemma gentle_refcnt n x : gentle x (with_refcnt n x).
Proof. by split. Qed.
Lemma gentle_waited x : gentle x (with_waited x).
Proof. by split. Qed.

Definition unheld (s : pool) (c : Z) : Prop := ∀ u p, th s u p → c ∉ held p.

Lemma free_unheld s t p c : free_for s t c → th s t p → held p = [] → unheld s c.
Proof.
  intros Hf Ht Hp u q Hu. destruct (decide (u = t)) as [->|Hne]; [|by eapply Hf].
  unfold th in *. simplify_eq. rewrite Hp. apply not_elem_of_nil.
Qed.

Lemma lookup_put (m : gmap nat GeasFuture) g x x' f y :
  m !! g = Some x → <[g := x']> m !! f = Some y → (∃ z, m !! f = Some z ∧ (y = z ∨ f = g ∧ z = x ∧ y = x')).
Proof.
  intros Hx [[<- <-]|[Hne Hy]]%lookup_insert_Some; [exists x; auto|exists y; auto].
Qed.

(** Every future after a step: an old one changed gently, the new one, or the one
    whose task was just prepared, its instance alive and its lock with no one. *)
Lemma step_futs s s' f x' :
  step s s' → pfuts s' !! f = Some x' →
  (∃ x, pfuts s !! f = Some x ∧ gentle x x') ∨
  (f = pnext s ∧ ∃ c, x' = fresh_future c ∧ dead s' = dead s) ∨
  (∃ x, pfuts s !! f = Some x ∧ fu_c x' = fu_c x ∧ fu_waited x' = fu_waited x ∧
     fu_c x ∉ dead s ∧ unheld s (fu_c x) ∧ dead s' = dead s).
Proof.
  assert (Put : ∀ g x y, pfuts s !! g = Some x → gentle x y → <[g := y]> (pfuts s) !! f = Some x' →
    ∃ x, pfuts s !! f = Some x ∧ gentle x x').
  { intros g x y Hx Hg Hl. destruct (lookup_put _ _ _ _ _ _ Hx Hl) as (z & Hz & [->|(-> & -> & ->)]);
      eauto using gentle_refl. }
  assert (Un : ∀ g x, pfuts s !! g = Some x →
    (if u32 (fu_refcnt x - 1) =? 0 then delete g (pfuts s)
     else <[g := with_refcnt (u32 (fu_refcnt x - 1)) x]> (pfuts s)) !! f = Some x' →
    ∃ x, pfuts s !! f = Some x ∧ gentle x x').
  { intros g x Hx. destruct (_ =? 0).
    - intros [_ H]%lookup_delete_Some. eauto using gentle_refl.
    - intros H. eapply Put; [exact Hx|apply gentle_refcnt|exact H]. }
  intros [Hw|Hh] Hx'.
  - left. destruct Hw; simpl in Hx'; eauto using gentle_refl, gentle_finish, gentle_forfeit.
  - destruct Hh as [t c sync ? ? ?|?|t sync g x p refs st Ht Hx Hf Hd|t sync g x p refs fn pidx frame nargs slots off Ht Hx Hf Hd
      |?|?|?|t g x ? ? ? ?|t g x ? ? ?|?|?|?|?|?|?]; simpl in Hx'; eauto using gentle_refl, gentle_finish, gentle_forfeit, gentle_refcnt.
    + apply lookup_insert_Some in Hx' as [[<- <-]|[_ Hx']]; eauto using gentle_refl.
      right. left. split; [done|]. by exists c.
    + destruct (lookup_put _ _ _ _ _ _ Hx Hx') as (z & Hz & [->|(-> & -> & ->)]); eauto using gentle_refl.
      right. right. exists x. split_and!; try done. by eapply free_unheld.
    + destruct (lookup_put _ _ _ _ _ _ Hx Hx') as (z & Hz & [->|(-> & -> & ->)]); eauto using gentle_refl.
      right. right. exists x. split_and!; try done. by eapply free_unheld.
    + left. unfold deliver in Hx'. destruct (fu_waited x); simpl in Hx'; eauto using gentle_refl, gentle_waited.
    + left. unfold deliver in Hx'. destruct (fu_waited x); simpl in Hx'; eauto using gentle_refl, gentle_waited.
Qed.

Definition runs (p : pc) : option (nat * Z) :=
  match p with WRun f c _ _ | WBreak f c _ _ _ _ => Some (f, c) | _ => None end.
Definition breaking (p : pc) : option (Z * list nat) :=
  match p with HBreak c rem | WBreak _ _ _ _ c rem => Some (c, rem) | _ => None end.

Lemma breaking_held p c rem : breaking p = Some (c, rem) → c ∈ held p.
Proof. destruct p; simpl; try done; intros [= -> ->]; left. Qed.

(** One thread moves: what it holds, breaks and runs afterwards. *)
Lemma step_thread s s' :
  step s s' →
  threads s' = threads s ∨
  ∃ t p q, th s t p ∧ threads s' = <[t := q]> (threads s) ∧
    (∀ c, c ∈ held q → c ∈ held p ∨ free_for s t c) ∧
    (∀ c rem, breaking q = Some (c, rem) →
       rem = links_of s c ∧ pfuts s' = pfuts s ∧ plinked s' = plinked s ∨
       ∃ g x, breaking p = Some (c, g :: rem) ∧ pfuts s !! g = Some x ∧
              pfuts s' = <[g := future_forfeit x]> (pfuts s) ∧ plinked s' = plinked s) ∧
    (∀ f c, runs q = Some (f, c) → runs p = Some (f, c) ∨ ∃ x, pfuts s !! f = Some x ∧ fu_c x = c) ∧
    (is_worker p = is_worker q).
Proof.
  intros [Hw|Hh].
  - right. destruct Hw as [t f q Ht ?|t Ht|t f x Ht|t f x script Ht|t f c ns b script Ht Hfr|t f c ns script Ht
      |t f c ns b script Ht Hfr|t f c ns script b g x rem Ht ?|t f c ns script b Ht|t f c ns x st val Ht|t f x Ht];
      eexists t, _, _; (split; [exact Ht|]); (split; [reflexivity|]); simpl; split_and!; try done;
      try (by intros ? []%not_elem_of_nil); try (by intros; simplify_eq; eauto).
    all: try (intros d rm [= <- <-]; first [by left|right; by exists g, x]).
    all: intros d; try (destruct ns as [|n ns]); simpl; rewrite ?elem_of_cons, ?elem_of_nil; naive_solver.
  - destruct Hh as [t c sync Ht ? Hfr|t sync f st Ht|t sync f x p refs st Ht|t sync f x p refs fn pidx frame nargs slots off Ht
      |t sync f x st Ht|t sync f x Ht|t sync f Ht|t f x Ht|t f x Ht|t f x Ht|t f x Ht|t c Ht ? Hfr|t c g x rem Ht ?|t c Ht|Hi];
      try (left; first [reflexivity|unfold deliver; by destruct (fu_waited x)]);
      right; eexists t, _, _; (split; [exact Ht|]); (split; [first [reflexivity|unfold deliver; by destruct (fu_waited x)]|]);
      try destruct sync; simpl; split_and!; try done;
      try (by intros ? []%not_elem_of_nil); try (by intros; simplify_eq; eauto).
    all: try (intros d rm [= <- <-]; first [by left|right; by exists g, x]).
    all: intros d; rewrite ?elem_of_cons, ?elem_of_nil; naive_solver.
Qed.

Lemma step_tokens s s' :
  (∀ f, tokens s f) → fresh_ok s → step s s' → ∀ f, tokens s' f.
Proof.
  intros I Fr [Hw|Hh] f.
  - destruct Hw as [t g q Ht ?|t Ht|t g x Ht|t g x script Ht|t g c ns b script Ht Hfr|t g c ns script Ht
      |t g c ns b script Ht Hfr|t g c ns script b h x rem Ht ?|t g c ns script b Ht|t g c ns x st val Ht|t g x Ht].
    + by apply take_tokens.
    + by eapply tokens_goto.
    + eapply finish_tokens; eauto.
    + by eapply tokens_goto.
    + by eapply tokens_goto.
    + by eapply tokens_goto.
    + by eapply tokens_goto.
    + destruct (forfeit_fields x) as (_ & ? & ? & ?). by eapply goto_put_tokens.
    + change (tokens (goto t (WRun g c ns script) s) f). by eapply tokens_goto.
    + eapply finish_tokens; eauto. right. split; [right; eauto|done].
    + eapply unref_tokens; eauto.
  - destruct Hh as [t c sync Ht ? Hfr|t sync g st Ht|t sync g x p refs st Ht|t sync g x p refs fn pidx frame nargs slots off Ht
      |t sync g x st Ht|t sync g x Ht|t sync g Ht|t g x Ht|t g x Ht|t g x Ht|t g x Ht|t c Ht ? Hfr|t c g x rem Ht ?|t c Ht|Hi].
    + by apply create_tokens.
    + by eapply tokens_goto.
    + by eapply goto_put_tokens.
    + by eapply goto_put_tokens.
    + eapply finish_tokens; eauto.
    + by apply hold_tokens.
    + by apply enqueue_tokens.
    + by apply deliver_tokens.
    + by apply wait_tokens.
    + by eapply release_tokens.
    + eapply unref_tokens; eauto.
    + by eapply tokens_goto.
    + destruct (forfeit_fields x) as (_ & ? & ? & ?). by eapply goto_put_tokens.
    + change (tokens (goto t HIdle s) f). by eapply tokens_goto.
    + apply I.
Qed.

Lemma step_next s s' :
  step s s' →
  pnext s' = pnext s ∧ (∀ f, is_Some (pfuts s' !! f) → is_Some (pfuts s !! f)) ∨
  pnext s' = S (pnext s) ∧ (∀ f, is_Some (pfuts s' !! f) → f = pnext s ∨ is_Some (pfuts s !! f)).
Proof.
  assert (Put : ∀ g x y f, pfuts s !! g = Some x → is_Some (<[g := y]> (pfuts s) !! f) → is_Some (pfuts s !! f)).
  { intros g x y f Hx [->|[_ H]]%lookup_insert_is_Some; eauto. }
  assert (Un : ∀ g x f, pfuts s !! g = Some x →
    is_Some ((if u32 (fu_refcnt x - 1) =? 0 then delete g (pfuts s)
     else <[g := with_refcnt (u32 (fu_refcnt x - 1)) x]> (pfuts s)) !! f) → is_Some (pfuts s !! f)).
  { intros g x f Hx. destruct (_ =? 0); [|by eapply Put]. intros [_ H]%lookup_delete_is_Some. done. }
  intros [Hw|Hh].
  - left. destruct Hw; simpl; (split; [done|]); eauto.
  - destruct Hh; simpl; try (left; (split; [done|]); eauto; fail).
    + right. split; [done|]. intros f [->|[_ H2]]%lookup_insert_is_Some; auto.
    + left. unfold deliver. destruct (fu_waited x); simpl; (split; [done|]); eauto.
    + left. unfold deliver. destruct (fu_waited x); simpl; (split; [done|]); eauto.
Qed.

Lemma step_fresh s s' : fresh_ok s → step s s' → fresh_ok s'.
Proof.
  intros Fr H f Hf. destruct (step_next _ _ H) as [[-> Hs]|[-> Hs]].
  - by apply Fr, Hs.
  - destruct (Hs f Hf) as [->|H2]; [lia|]. specialize (Fr f H2). lia.
Qed.

Lemma step_dead s s' :
  step s s' → dead s' = dead s ∨
  ∃ c t p, dead s' = {[c]} ∪ dead s ∧ pfuts s' = pfuts s ∧ th s t p ∧ breaking p = Some (c, []).
Proof.
  intros [Hw|Hh].
  - destruct Hw; try (by left). right. by eexists _, t, _.
  - destruct Hh; try (left; first [reflexivity|unfold deliver; by destruct (fu_waited x)]).
    right. by eexists _, t, _.
Qed.

Lemma step_log s s' :
  step s s' → log s' = log s ∨
  ∃ f x, log s' = log s ++ [(f, fu_status x)] ∧ pfuts s !! f = Some x ∧ fu_waited x = false ∧
    fu_done x = true ∧ pfuts s' = <[f := with_waited x]> (pfuts s) ∧ pub s' = pub s.
Proof.
  intros [Hw|Hh].
  - destruct Hw; by left.
  - destruct Hh; try (by left); unfold deliver; destruct (fu_waited x) eqn:Ew; try (by left);
      right; exists f, x; by split_and!.
Qed.

Lemma step_pub s s' :
  step s s' → pub s' = pub s ∨
  ∃ f x st, pfuts s !! f = Some x ∧ fu_done x = false ∧ pub s' = <[f := st]> (pub s).
Proof.
  assert (Fin : ∀ f x st, pfuts s !! f = Some x →
    (if fu_done x then pub s else <[f := st]> (pub s)) = pub s ∨
    ∃ g y sy, pfuts s !! g = Some y ∧ fu_done y = false ∧
      (if fu_done x then pub s else <[f := st]> (pub s)) = <[g := sy]> (pub s)).
  { intros f x st Hx. destruct (fu_done x) eqn:E; [by left|right]. by exists f, x, st. }
  intros [Hw|Hh].
  - destruct Hw; first [by left|by apply Fin].
  - destruct Hh; first [by left|by apply Fin|left; unfold deliver; by destruct (fu_waited x)].
Qed.

(** How a step changes what a future says of its outcome. *)
Section Outcome.
Context (s : pool) (f : nat) (x' : GeasFuture).

Definition same_outcome (pub' : gmap nat GeasStatus) : Prop :=
  ∃ x, pfuts s !! f = Some x ∧ fu_done x' = fu_done x ∧ fu_status x' = fu_status x ∧ pub' !! f = pub s !! f.
Definition forfeit_outcome (pub' : gmap nat GeasStatus) : Prop :=
  fu_done x' = true ∧ fu_status x' = GEAS_ERR_STATE ∧ pub' = pub s.
Definition finish_outcome (pub' : gmap nat GeasStatus) : Prop :=
  ∃ x, pfuts s !! f = Some x ∧ fu_done x = false ∧ fu_done x' = true ∧ pub' !! f = Some (fu_status x').

Lemma outcome_kept : pfuts s !! f = Some x' → same_outcome (pub s).
Proof. intros H. exists x'. by split_and!. Qed.

Lemma outcome_put g x y :
  pfuts s !! g = Some x → fu_done y = fu_done x → fu_status y = fu_status x →
  <[g := y]> (pfuts s) !! f = Some x' → same_outcome (pub s).
Proof.
  intros Hx E1 E2 Hl. destruct (lookup_put _ _ _ _ _ _ Hx Hl) as (z & Hz & [Ez|(_ & Ez & Ey)]);
    exists z; (split; [exact Hz|]); subst; by split_and!.
Qed.

Lemma outcome_unref g x :
  pfuts s !! g = Some x →
  (if u32 (fu_refcnt x - 1) =? 0 then delete g (pfuts s)
   else <[g := with_refcnt (u32 (fu_refcnt x - 1)) x]> (pfuts s)) !! f = Some x' → same_outcome (pub s).
Proof.
  intros Hx. destruct (_ =? 0); [|by eapply outcome_put]. intros [_ H]%lookup_delete_Some. by apply outcome_kept.
Qed.

Lemma outcome_forfeit g x :
  pfuts s !! g = Some x → <[g := future_forfeit x]> (pfuts s) !! f = Some x' →
  same_outcome (pub s) ∨ forfeit_outcome (pub s).
Proof.
  intros Hx [[Eg Ex]|[Hne Hl]]%lookup_insert_Some; [|left; by apply outcome_kept].
  unfold same_outcome, forfeit_outcome. rewrite <- Eg, <- Ex. unfold future_forfeit.
  destruct (fu_waited x); [left; exists x; by split_and!|by right].
Qed.

Lemma outcome_deliver g x :
  pfuts s !! g = Some x → pfuts (deliver g x s) !! f = Some x' → same_outcome (pub (deliver g x s)).
Proof.
  intros Hx. unfold deliver. destruct (fu_waited x); simpl; intros Hl; [by apply outcome_kept|].
  by apply (outcome_put g x (with_waited x) Hx).
Qed.

Lemma outcome_finish g x st val :
  pfuts s !! g = Some x → <[g := future_finish st val x]> (pfuts s) !! f = Some x' →
  let pub' := if fu_done x then pub s else <[g := st]> (pub s) in same_outcome pub' ∨ finish_outcome pub'.
Proof.
  intros Hx [[Eg Ex]|[Hne Hl]]%lookup_insert_Some; unfold same_outcome, finish_outcome.
  - rewrite <- Eg, <- Ex. unfold future_finish. destruct (fu_done x) eqn:Ed.
    + left. exists x. by split_and!.
    + right. exists x. simpl. by rewrite lookup_insert_eq.
  - left. exists x'. split_and!; try done. destruct (fu_done x); [done|]. by rewrite lookup_insert_ne.
Qed.
End Outcome.

Lemma step_outcome s s' f x' :
  step s s' → pfuts s' !! f = Some x' →
  (∃ x, pfuts s !! f = Some x ∧ fu_done x' = fu_done x ∧ fu_status x' = fu_status x ∧ pub s' !! f = pub s !! f) ∨
  (fu_done x' = true ∧ fu_status x' = GEAS_ERR_STATE ∧ pub s' = pub s) ∨
  (∃ x, pfuts s !! f = Some x ∧ fu_done x = false ∧ fu_done x' = true ∧ pub s' !! f = Some (fu_status x')) ∨
  (f = pnext s ∧ fu_done x' = false ∧ pub s' = pub s).
Proof.
  assert (Fin : ∀ g x st val, pfuts s !! g = Some x → <[g := future_finish st val x]> (pfuts s) !! f = Some x' →
    let pub' := if fu_done x then pub s else <[g := st]> (pub s) in
    same_outcome s f x' pub' ∨ forfeit_outcome s x' pub' ∨ finish_outcome s f x' pub' ∨
    (f = pnext s ∧ fu_done x' = false ∧ pub' = pub s)).
  { intros g x st val Hx Hl. destruct (outcome_finish s f x' g x st val Hx Hl); [by left|do 2 right; by left]. }
  intros [Hw|Hh] Hx'.
  - destruct Hw; simpl in *; first
      [ left; exact (outcome_kept s f x' Hx')
      | by eapply Fin
      | left; by eapply (outcome_unref s f x')
      | destruct (outcome_forfeit s f x' _ _ ltac:(eassumption) Hx'); [by left|right; by left] ].
  - destruct Hh; simpl in Hx'; first
      [ left; exact (outcome_kept s f x' Hx')
      | by eapply Fin
      | left; eapply (outcome_put s f x'); [ | | |exact Hx']; [eassumption|reflexivity|reflexivity]
      | left; by eapply (outcome_deliver s f x')
      | left; by eapply (outcome_unref s f x')
      | destruct (outcome_forfeit s f x' _ _ ltac:(eassumption) Hx'); [by left|right; by left]
      | idtac ].
    apply lookup_insert_Some in Hx' as [[<- <-]|[_ Hx']]; [|left; exact (outcome_kept s f x' Hx')].
    right. right. by right.
Qed.

Lemma step_stop s s' :
  step s s' →
  (qstop s' = true → qstop s = true ∨ ∀ t p, th s' t p → is_worker p = false → p = HIdle) ∧
  (qstop s = true → qstop s' = true).
Proof.
  intros [Hw|Hh].
  - destruct Hw; simpl; auto.
  - destruct Hh; simpl; try (by auto); unfold deliver; destruct (fu_waited x); simpl; auto.
Qed.

(** ** The invariant *)

Record pool_inv (s : pool) : Prop := PoolInv {
  pi_tok : ∀ f, tokens s f;
  pi_fresh : fresh_ok s;
  pi_run : ∀ t p f c, th s t p → runs p = Some (f, c) → ∃ x, pfuts s !! f = Some x ∧ fu_c x = c;
  pi_mutex : ∀ t u p q c, th s t p → th s u q → c ∈ held p → c ∈ held q → t = u;
  pi_break : ∀ t p c rem, th s t p → breaking p = Some (c, rem) →
    (∀ f, f ∈ rem → f ∈ plinked s ∧ ∃ x, pfuts s !! f = Some x ∧ fu_c x = c) ∧
    (∀ f x, pfuts s !! f = Some x → fu_c x = c → fu_waited x = false → f ∉ rem → clean x);
  pi_dead : ∀ f x, pfuts s !! f = Some x → fu_waited x = false → fu_c x ∈ dead s → clean x;
  pi_log : NoDup (log s).*1 ∧ ∀ f st, (f, st) ∈ log s →
    (f < pnext s)%nat ∧ (∀ x, pfuts s !! f = Some x → fu_waited x = true) ∧
    (st = GEAS_ERR_STATE ∨ pub s !! f = Some st);
  pi_pub : (∀ f, is_Some (pub s !! f) → (f < pnext s)%nat) ∧
    ∀ f x, pfuts s !! f = Some x →
      (fu_done x = false → pub s !! f = None) ∧
      (fu_done x = true → fu_status x = GEAS_ERR_STATE ∨ pub s !! f = Some (fu_status x));
  pi_stop : qstop s = true → ∀ t p, th s t p → is_worker p = false → p = HIdle;
  pi_exit : ∀ t, th s t WExit → qstop s = true ∧ pqueue s = []
}.

(** A future somebody counts is live. *)
Lemma tok_live s f : tokens s f →
  (1 ≤ occ f (pqueue s) + occ f (plinked s) + tsum pre_at (threads s) f + tsum pool_at (threads s) f +
       tsum host_at (threads s) f + tsum drop_at (threads s) f)%nat → is_Some (pfuts s !! f).
Proof.
  intros H Hn. unfold tokens, tok_ok in H. destruct (pfuts s !! f); [by eexists|]. lia.
Qed.

Lemma unwaited_linked s f x : tokens s f → pfuts s !! f = Some x → fu_waited x = false → f ∈ plinked s.
Proof.
  intros H Hx Hw. unfold tokens in H. rewrite Hx in H. apply occ_in.
  destruct H as (_ & _ & _ & _ & _ & _ & H & _). rewrite Hw in H. simpl in H. lia.
Qed.

Lemma runs_pool p f c : runs p = Some (f, c) → is_at (pool_at p) f = 1%nat ∧ c ∈ held p.
Proof.
  destruct p; simpl; try done; intros [= -> ->]; rewrite Nat.eqb_refl; (split; [done|]).
  - left.
  - right. left.
Qed.

Lemma links_of_spec s c f :
  f ∈ links_of s c ↔ f ∈ plinked s ∧ ∃ x, pfuts s !! f = Some x ∧ fu_c x = c.
Proof.
  unfold links_of. rewrite list_elem_of_filter. split.
  - intros [(x & Hx & Hc)%fmap_Some ?]. by eauto.
  - intros [? (x & Hx & Hc)]. rewrite Hx. simpl. by rewrite Hc.
Qed.

(** A live future keeps its instance. *)
Lemma step_owner s s' f x x' :
  fresh_ok s → step s s' → pfuts s !! f = Some x → pfuts s' !! f = Some x' →
  fu_c x' = fu_c x ∧ (fu_waited x = true → fu_waited x' = true).
Proof.
  intros Fr H Hx Hx'. destruct (step_futs _ _ _ _ H Hx') as [(z & Hz & E & Hg)|[(-> & _)|(z & Hz & E & Ew & _)]].
  - simplify_eq. split; [done|]. intros Hw. destruct (fu_waited x') eqn:E'; [done|].
    destruct (Hg eq_refl). congruence.
  - assert (pnext s < pnext s)%nat; [|lia]. apply Fr. by eexists.
  - simplify_eq. split; [done|]. congruence.
Qed.

Section Step.
Context (s s' : pool).
Hypothesis (V : pool_inv s) (H : step s s').

Lemma inv_tok' f : tokens s' f.
Proof. eapply step_tokens; [apply V|apply V|exact H]. Qed.

Lemma inv_mutex t u p q c : th s' t p → th s' u q → c ∈ held p → c ∈ held q → t = u.
Proof.
  destruct (step_thread _ _ H) as [E|(a & pa & qa & Ha & E & Hheld & _)]; unfold th; rewrite E.
  - by apply V.
  - intros Ht Hu Hp Hq. destruct (decide (t = u)) as [|Hne]; [done|exfalso].
    assert (K : ∀ b q, b ≠ a → threads s !! b = Some q → c ∈ held q → c ∈ held qa → False).
    { intros b r Hb Hr Hcr Hca. destruct (Hheld _ Hca) as [Hpa|Hf].
      - apply Hb. eapply (pi_mutex s V); eauto.
      - by eapply (Hf b r). }
    apply list_lookup_insert_Some in Ht as [(-> & -> & _)|[Ht1 Ht]],
      Hu as [(-> & -> & _)|[Hu1 Hu]]; try done; eauto.
    apply Hne. eapply (pi_mutex s V); eauto.
Qed.

Lemma inv_run t p f c : th s' t p → runs p = Some (f, c) → ∃ x, pfuts s' !! f = Some x ∧ fu_c x = c.
Proof.
  intros Ht Hr. destruct (tok_live s' f (inv_tok' f)) as [x' Hx'].
  { pose proof (tsum_in pool_at _ _ _ f Ht). destruct (runs_pool _ _ _ Hr) as [E _]. lia. }
  exists x'. split; [done|].
  assert (Old : ∃ x, pfuts s !! f = Some x ∧ fu_c x = c).
  { destruct (step_thread _ _ H) as [E|(a & pa & qa & Ha & E & _ & _ & Hrun & _)]; unfold th in Ht; rewrite E in Ht.
    - exact (pi_run s V t p f c Ht Hr).
    - apply list_lookup_insert_Some in Ht as [(-> & -> & _)|[_ Ht]]; [|exact (pi_run s V t p f c Ht Hr)].
      destruct (Hrun _ _ Hr) as [Hpa|Hx]; [exact (pi_run s V _ _ f c Ha Hpa)|done]. }
  destruct Old as (x & Hx & <-). by eapply step_owner; [apply V|..].
Qed.

Lemma inv_dead f x' : pfuts s' !! f = Some x' → fu_waited x' = false → fu_c x' ∈ dead s' → clean x'.
Proof.
  intros Hx' Hw Hd.
  destruct (step_futs _ _ _ _ H Hx') as [(x & Hx & Ec & Hg)|[(_ & c & -> & _)|(x & Hx & Ec & _ & Hn & _ & E)]].
  - destruct (Hg Hw) as [Hw0 Hcl]. apply Hcl. rewrite Ec in Hd.
    destruct (step_dead _ _ H) as [E|(c & t & p & E & _ & Ht & Hb)].
    + rewrite E in Hd. by eapply (pi_dead s V).
    + rewrite E in Hd. apply elem_of_union in Hd as [Hd%elem_of_singleton|Hd]; [|by eapply (pi_dead s V)].
      eapply (pi_break s V _ _ _ _ Ht Hb); eauto. apply not_elem_of_nil.
  - by split_and!.
  - rewrite Ec, E in Hd. done.
Qed.

Lemma inv_log : NoDup (log s').*1 ∧ ∀ f st, (f, st) ∈ log s' →
  (f < pnext s')%nat ∧ (∀ x, pfuts s' !! f = Some x → fu_waited x = true) ∧
  (st = GEAS_ERR_STATE ∨ pub s' !! f = Some st).
Proof.
  destruct (pi_log s V) as [Hnd Hl].
  assert (Hn : (pnext s ≤ pnext s')%nat) by (destruct (step_next _ _ H) as [[-> _]|[-> _]]; lia).
  assert (Old : ∀ f st, (f, st) ∈ log s → (f < pnext s')%nat ∧
    (∀ x, pfuts s' !! f = Some x → fu_waited x = true) ∧ (st = GEAS_ERR_STATE ∨ pub s' !! f = Some st)).
  { intros f st Hin. destruct (Hl f st Hin) as (Hf & Hw & Ho). split; [lia|]. split.
    - intros x' Hx'. destruct (pfuts s !! f) as [x|] eqn:Hx.
      + destruct (step_owner s s' f x x' (pi_fresh s V) H Hx Hx') as [_ Hk]. by apply Hk, Hw.
      + destruct (step_futs _ _ _ _ H Hx') as [(y & Hy & _)|[(-> & _)|(y & Hy & _)]]; try congruence. lia.
    - destruct Ho as [|Hp]; [by left|right].
      destruct (step_pub _ _ H) as [->|(g & y & sy & Hy & Hd & ->)]; [done|].
      destruct (proj2 (pi_pub s V) _ _ Hy) as [Hno _]. rewrite lookup_insert_ne; [done|].
      intros ->. by rewrite (Hno Hd) in Hp. }
  destruct (step_log _ _ H) as [E|(f & x & E & Hx & Hw & Hd & Ef & Ep)]; rewrite E; [by split|].
  split.
  - rewrite fmap_app, NoDup_app. split_and!; [done| |apply NoDup_singleton].
    intros g ([g' st] & -> & Hin)%list_elem_of_fmap Hg. simpl in Hg. apply list_elem_of_singleton in Hg as ->.
    destruct (Hl _ _ Hin) as (_ & Hwx & _). rewrite (Hwx x Hx) in Hw. done.
  - intros g st [Hin|Hin]%elem_of_app; [by apply Old|]. apply list_elem_of_singleton in Hin as [= -> ->].
    assert (Hlt : (f < pnext s)%nat) by (apply (pi_fresh s V); by eexists). split; [lia|]. split.
    + intros y. rewrite Ef, lookup_insert_eq. by intros [= <-].
    + rewrite Ep. by apply (pi_pub s V).
Qed.

Lemma inv_pub : (∀ f, is_Some (pub s' !! f) → (f < pnext s')%nat) ∧
  ∀ f x, pfuts s' !! f = Some x → (fu_done x = false → pub s' !! f = None) ∧
    (fu_done x = true → fu_status x = GEAS_ERR_STATE ∨ pub s' !! f = Some (fu_status x)).
Proof.
  destruct (pi_pub s V) as [Hb Hp].
  assert (Hn : (pnext s ≤ pnext s')%nat) by (destruct (step_next _ _ H) as [[-> _]|[-> _]]; lia).
  split.
  - intros f Hf. cut (f < pnext s)%nat; [lia|].
    destruct (step_pub _ _ H) as [E|(g & y & sy & Hy & Hd & E)]; rewrite E in Hf; [by apply Hb|].
    apply lookup_insert_is_Some in Hf as [->|[_ Hf]]; [|by apply Hb]. apply (pi_fresh s V). by eexists.
  - intros f x' Hx'.
    destruct (step_outcome _ _ _ _ H Hx') as [(x & Hx & E1 & E2 & E3)|[(E1 & E2 & _)|[(x & _ & _ & E1 & E2)|(-> & E1 & E2)]]].
    + rewrite E1, E2, E3. by apply Hp.
    + split; [congruence|by left].
    + split; [congruence|by right].
    + rewrite E2. split; [|congruence]. intros _. apply eq_None_not_Some. intros Hs%Hb. lia.
Qed.
End Step.

Lemma unlink_other f g l : f ≠ g → f ∈ l → f ∈ unlink_nat g l.
Proof.
  intros Hne. induction l as [|h l IH]; intros Hf; [done|]. simpl.
  apply elem_of_cons in Hf. destruct (Nat.eqb_spec h g); [naive_solver|].
  apply elem_of_cons. naive_solver.
Qed.

Lemma step_linked s s' f :
  step s s' → f ∈ plinked s →
  f ∈ plinked s' ∨ ∃ u x, th s u (HRel f) ∧ pfuts s !! f = Some x ∧ free_for s u (fu_c x).
Proof.
  intros [Hw|Hh] Hf.
  - destruct Hw; by left.
  - destruct Hh as [| | | | | | | | |t g x Ht Hx Hfr| | | | |]; try (by left);
      try (by left; unfold deliver; destruct (fu_waited x)).
    + left. by right.
    + destruct (decide (f = g)) as [->|Hne]; [right; eauto|left]. by apply unlink_other.
Qed.

Section Step2.
Context (s s' : pool).
Hypothesis (V : pool_inv s) (H : step s s').

(** A break in progress by a thread the step does not move. *)
Lemma inv_break_other t p c rem : th s t p → breaking p = Some (c, rem) →
  (∀ f, f ∈ rem → f ∈ plinked s' ∧ ∃ x, pfuts s' !! f = Some x ∧ fu_c x = c) ∧
  (∀ f x, pfuts s' !! f = Some x → fu_c x = c → fu_waited x = false → f ∉ rem → clean x).
Proof.
  intros Ht Hb. destruct (pi_break s V _ _ _ _ Ht Hb) as [B1 B2].
  pose proof (breaking_held _ _ _ Hb) as Hheld. split.
  - intros f Hf. destruct (B1 f Hf) as (Hl & x & Hx & Hc).
    assert (Hl' : f ∈ plinked s').
    { destruct (step_linked _ _ _ H Hl) as [|(u & y & Hu & Hy & Hfr)]; [done|exfalso].
      simplify_eq. eapply (Hfr t p); [|exact Ht|exact Hheld]. intros ->. unfold th in *. simplify_eq. }
    split; [done|]. destruct (tok_live s' f (inv_tok' s s' V H f)) as [x' Hx'].
    { apply occ_in in Hl'. lia. }
    exists x'. split; [done|]. destruct (step_owner s s' f x x' (pi_fresh s V) H Hx Hx') as [-> _]. done.
  - intros f x' Hx' Hc Hw Hn.
    destruct (step_futs _ _ _ _ H Hx') as [(x & Hx & Ec & Hg)|[(_ & d & -> & _)|(x & Hx & Ec & _ & _ & Hun & _)]].
    + destruct (Hg Hw) as [Hw0 Hcl]. apply Hcl. eapply B2; eauto. congruence.
    + by split_and!.
    + exfalso. apply (Hun t p Ht). congruence.
Qed.

Lemma inv_break t p c rem : th s' t p → breaking p = Some (c, rem) →
  (∀ f, f ∈ rem → f ∈ plinked s' ∧ ∃ x, pfuts s' !! f = Some x ∧ fu_c x = c) ∧
  (∀ f x, pfuts s' !! f = Some x → fu_c x = c → fu_waited x = false → f ∉ rem → clean x).
Proof.
  intros Ht Hb. destruct (step_thread _ _ H) as [E|(a & pa & qa & Ha & E & _ & Hbr & _)];
    unfold th in Ht; rewrite E in Ht; [exact (inv_break_other t p c rem Ht Hb)|].
  apply list_lookup_insert_Some in Ht as [(-> & -> & _)|[_ Ht]]; [|exact (inv_break_other t p c rem Ht Hb)].
  destruct (Hbr _ _ Hb) as [(-> & Ef & El)|(g & x & Hpa & Hx & Ef & El)].
  - rewrite Ef, El. split; [intros f; by rewrite links_of_spec|]. intros f x Hx Hc Hw Hn. exfalso.
    apply Hn, links_of_spec. split; [|by eexists]. eapply unwaited_linked; eauto. apply V.
  - destruct (pi_break s V _ _ _ _ Ha Hpa) as [B1 B2]. rewrite Ef, El. split.
    + intros f Hf. destruct (B1 f) as (Hl & y & Hy & Hc); [by right|]. split; [done|].
      destruct (decide (g = f)) as [<-|Hne].
      * rewrite lookup_insert_eq. eexists. split; [done|]. simplify_eq. apply forfeit_fields.
      * rewrite lookup_insert_ne by done. eauto.
    + intros f y Hy Hc Hw Hn. apply lookup_insert_Some in Hy as [[<- <-]|[Hne Hy]].
      * unfold future_forfeit in *. destruct (fu_waited x) eqn:Ew; [congruence|]. by split_and!.
      * eapply B2; eauto. intros [->|Hf]%elem_of_cons; [done|contradiction].
Qed.

(** Once shutdown started no host thread moves. *)
Lemma stopped_hosts : qstop s = true →
  threads s' = threads s ∧ pqueue s' = pqueue s ∨
  wstep s s'.
Proof.
  intros Hq. pose proof (pi_stop s V Hq) as Hi. destruct H as [W|W]; [by right|]. left.
  destruct W; try congruence;
    try (match goal with Ht : th s _ _ |- _ => pose proof (Hi _ _ Ht eq_refl); discriminate end);
    unfold deliver; try destruct (fu_waited x); done.
Qed.

Lemma inv_stop : qstop s' = true → ∀ t p, th s' t p → is_worker p = false → p = HIdle.
Proof.
  intros Hq. destruct (step_stop _ _ H) as [Hs _]. destruct (Hs Hq) as [Hq0|]; [|done].
  pose proof (pi_stop s V Hq0) as Hi. destruct (stopped_hosts Hq0) as [[E _]|W]; unfold th.
  - rewrite E. apply Hi.
  - intros t p Ht Hp. destruct W; simpl in Ht;
      (apply list_lookup_insert_Some in Ht as [(<- & <- & _)|[_ Ht]]; [done|by eapply Hi]).
Qed.

Lemma inv_exit t : th s' t WExit → qstop s' = true ∧ pqueue s' = [].
Proof.
  intros Ht. assert (Old : th s t WExit → qstop s' = true ∧ pqueue s' = []).
  { intros Ho. destruct (pi_exit s V t Ho) as [Hq He]. split; [by apply (step_stop _ _ H)|].
    destruct (stopped_hosts Hq) as [[_ ->]|W]; [done|]. destruct W; try done. congruence. }
  unfold th in Ht. destruct H as [W|W]; destruct W; try (by apply Old);
    try (simpl in Ht; apply list_lookup_insert_Some in Ht as [(<- & Hp & _)|[_ Ht]];
         [try destruct sync; done|by apply Old]);
    unfold deliver in *; destruct (fu_waited x); simpl in Ht; try (by apply Old);
    (apply list_lookup_insert_Some in Ht as [(<- & Hp & _)|[_ Ht]]; [done|by apply Old]).
Qed.

Lemma step_inv : pool_inv s'.
Proof.
  split.
  - exact (inv_tok' s s' V H).
  - eapply step_fresh; [apply V|done].
  - exact (inv_run s s' V H).
  - exact (inv_mutex s s' V H).
  - apply inv_break.
  - exact (inv_dead s s' V H).
  - exact (inv_log s s' V H).
  - exact (inv_pub s s' V H).
  - apply inv_stop.
  - apply inv_exit.
Qed.
End Step2.

Lemma tsum_app k l l' f : tsum k (l ++ l') f = (tsum k l f + tsum k l' f)%nat.
Proof. induction l as [|p l IH]; simpl; lia. Qed.
Lemma tsum_idle k n p f : k p = None → tsum k (replicate n p) f = 0%nat.
Proof. intros E. induction n as [|n IH]; simpl; [done|]. by rewrite E. Qed.

Lemma init_inv hosts workers : pool_inv (pool_init hosts workers).
Proof.
  assert (Ht : ∀ t p, th (pool_init hosts workers) t p → p = HIdle ∨ p = WIdle).
  { intros t p Ht. apply list_elem_of_lookup_2 in Ht. simpl in Ht.
    apply elem_of_app in Ht as [Ht|Ht].
    - left. by apply elem_of_replicate in Ht as [-> _].
    - right. change (WIdle :: replicate workers WIdle) with (replicate (S workers) WIdle) in Ht.
      by apply elem_of_replicate in Ht as [-> _]. }
  split; try done.
  - intros f. unfold tokens. simpl. rewrite lookup_empty. simpl.
    change (WIdle :: replicate workers WIdle) with (replicate (S workers) WIdle).
    by rewrite !tsum_app, !tsum_idle.
  - intros f [x Hx]. simpl in Hx. by rewrite lookup_empty in Hx.
  - intros t p f c Hp. by destruct (Ht t p Hp) as [-> | ->].
  - intros t u p q c Hp _ Hc. destruct (Ht t p Hp) as [-> | ->]; by apply not_elem_of_nil in Hc.
  - intros t p c rem Hp. by destruct (Ht t p Hp) as [-> | ->].
  - split; [constructor|]. intros f st []%not_elem_of_nil.
  - split; [|done]. intros f [x Hx]. simpl in Hx. by rewrite lookup_empty in Hx.
  - intros t Hp. by destruct (Ht t _ Hp).
Qed.

Lemma reachable_inv s : reachable s → pool_inv s.
Proof.
  intros (hosts & workers & Hr).
  assert (K : ∀ a b, rtc step a b → pool_inv a → pool_inv b).
  { induction 1 as [|a b c Hab _ IH]; [done|]. intros Va. apply IH. by eapply step_inv. }
  eapply K; [exact Hr|apply init_inv].
Qed.

(** ** Termination

    Tasks not yet started, then what is left of the running scripts, then where
    each worker stands. *)
Definition unstarted (p : pc) : nat := match p with WTask _ => 1 | _ => 0 end.
Definition script_left (p : pc) : nat :=
  match p with WRun _ _ _ s | WBreak _ _ _ s _ _ => length s | _ => 0 end.
Definition phase (p : pc) : nat :=
  match p with
  | WRun _ _ _ _ => 3 | WBreak _ _ _ _ _ rem => 4 + length rem | WDrop _ => 2 | WIdle => 1 | _ => 0
  end.

Fixpoint psum (k : pc → nat) (ts : list pc) : nat :=
  match ts with [] => 0 | p :: ts' => k p + psum k ts' end.
Lemma psum_upd k ts t p q :
  ts !! t = Some p → (psum k (<[t := q]> ts) + k p = psum k ts + k q)%nat.
Proof.
  revert t. induction ts as [|r ts IH]; intros [|t] H; simpl in *; [done|done| |].
  - injection H as ->. lia.
  - specialize (IH t H). lia.
Qed.

Definition measure (s : pool) : nat * nat * nat :=
  ((2 * length (pqueue s) + psum unstarted (threads s))%nat, psum script_left (threads s), psum phase (threads s)).

Definition lex2 (a b : nat * nat) : Prop := (a.1 < b.1)%nat ∨ a.1 = b.1 ∧ (a.2 < b.2)%nat.
Definition lex3 (a b : nat * nat * nat) : Prop := lex2 a.1 b.1 ∨ a.1.1 = b.1.1 ∧ a.1.2 = b.1.2 ∧ (a.2 < b.2)%nat.

Lemma lex2_wf : well_founded lex2.
Proof.
  intros [a b]. revert b. induction (lt_wf a) as [a _ IHa]. intros b.
  induction (lt_wf b) as [b _ IHb]. constructor. intros [a' b'] [H|[H1 H2]]; simpl in *; subst; auto.
Qed.
Lemma lex3_wf : well_founded lex3.
Proof.
  intros [a b]. revert b. induction (lex2_wf a) as [a _ IHa]. intros b.
  induction (lt_wf b) as [b _ IHb]. constructor. intros [[a1 a2] b'] [H|(H1 & H2 & H3)]; [by apply IHa|].
  destruct a as [a3 a4]. simpl in *. subst. by apply IHb.
Qed.

Lemma wstep_decreases s s' : wstep s s' → lex3 (measure s') (measure s).
Proof.
  intros W. unfold lex3, lex2, measure. destruct W;
    (match goal with
     | Ht : th s ?t ?p |- context [goto ?t ?q _] =>
         pose proof (psum_upd unstarted (threads s) t p q Ht) as U;
         pose proof (psum_upd script_left (threads s) t p q Ht) as S;
         pose proof (psum_upd phase (threads s) t p q Ht) as P
     end);
    simpl in *; try (match goal with E : pqueue s = _ |- _ => rewrite E end); simpl in *; lia.
Qed.

(** ** Progress *)

(** The lock a worker asks for next. *)
Definition wants (s : pool) (p : pc) : option Z :=
  match p with
  | WTask f => fu_c <$> pfuts s !! f
  | WRun _ _ _ (ALock b :: _) | WRun _ _ _ (ABreak b :: _) => Some b
  | _ => None
  end.

(** Bodies take new locks in some increasing order. *)
Definition lock_ordered (s : pool) : Prop :=
  ∃ rank : Z → nat, ∀ t p b h, th s t p → wants s p = Some b → b ∉ held p → h ∈ held p → (rank h < rank b)%nat.

Definition stuck (s : pool) : Prop := ∀ s', ¬ wstep s s'.

Section Progress.
Context (s : pool).
Hypothesis (V : pool_inv s) (Hq : qstop s = true) (Hst : stuck s).

(** A worker that is not finished and whose lock is free can step. *)
Lemma blocked t p : th s t p → is_worker p = true → p ≠ WExit →
  ∃ b u q, wants s p = Some b ∧ u ≠ t ∧ th s u q ∧ b ∈ held q.
Proof.
  intros Ht Hw Hx.
  assert (Live : ∀ f, is_at (pool_at p) f = 1%nat → is_Some (pfuts s !! f)).
  { intros f Hf. apply tok_live; [apply V|]. pose proof (tsum_in pool_at _ _ _ f Ht). lia. }
  assert (Free : ∀ b, (free_for s t b → ∃ s', wstep s s') →
    ∃ u q, u ≠ t ∧ th s u q ∧ b ∈ held q).
  { intros b Hb. destruct (decide (Exists (λ uq, uq.1 ≠ t ∧ b ∈ held uq.2) (imap pair (threads s)))) as [H|H].
    - apply Exists_exists in H as ([u q] & Hin & Hne & Hb2).
      apply elem_of_lookup_imap in Hin as (j & y & [= -> ->] & Hj). by exists j, y.
    - exfalso. destruct Hb as [s' Hs']; [|by eapply Hst]. intros u q Hne Hu Hc. apply H, Exists_exists.
      exists (u, q). split; [|done]. apply elem_of_lookup_imap. by exists u, q. }
  assert (No : ∀ s', wstep s s' → False) by apply Hst.
  destruct p as [| | | | | | | | | |f|f c ns scr|f c ns scr b rem|f|]; try done.
  - exfalso. destruct (pqueue s) as [|f q] eqn:E; [by eapply No, w_exit|by eapply No, w_take].
  - destruct (Live f) as [x Hfx]; [simpl; by rewrite Nat.eqb_refl|].
    destruct (Free (fu_c x)) as (u & q & ? & ? & ?).
    { intros Hf. destruct (decide (fu_c x ∈ dead s)); eexists; [by eapply w_refuse|by eapply (w_run _ _ _ _ [])]. }
    exists (fu_c x), u, q. simpl. by rewrite Hfx.
  - destruct (Live f) as [x Hfx]; [simpl; by rewrite Nat.eqb_refl|].
    destruct scr as [|[b| |b] scr].
    + exfalso. eapply No, (w_done _ _ _ _ _ _ GEAS_OK None); eauto.
    + destruct (Free b) as (u & q & ? & ? & ?); [|by exists b, u, q].
      intros Hf. eexists. by eapply w_lock.
    + exfalso. eapply No, w_unlock; eauto.
    + destruct (Free b) as (u & q & ? & ? & ?); [|by exists b, u, q].
      intros Hf. eexists. by eapply w_break.
  - exfalso. destruct rem as [|g rem]; [eapply No, w_broke; eauto|].
    destruct (pi_break s V t _ b (g :: rem) Ht eq_refl) as [B _].
    destruct (B g) as (_ & x & Hgx & _); [left|]. eapply No, w_forfeit; eauto.
  - exfalso. destruct (Live f) as [x Hfx]; [simpl; by rewrite Nat.eqb_refl|]. eapply No, w_drop; eauto.
Qed.

Lemma wants_idle u q b : th s u q → b ∈ held q → is_worker q = true ∧ q ≠ WExit.
Proof.
  intros Hu Hb. destruct (is_worker q) eqn:E.
  - split; [done|]. intros ->. by apply not_elem_of_nil in Hb.
  - rewrite (pi_stop s V Hq _ _ Hu E) in Hb. by apply not_elem_of_nil in Hb.
Qed.

(** With ordered locks, whoever waits for the greatest lock waits for no one. *)
Lemma all_exited : lock_ordered s → ∀ t p, th s t p → is_worker p = true → p = WExit.
Proof.
  intros [rank Ho]. set (L := omap (wants s) (threads s)).
  assert (Up : ∀ t p b, th s t p → is_worker p = true → p ≠ WExit → wants s p = Some b →
    ∃ u q b', th s u q ∧ is_worker q = true ∧ q ≠ WExit ∧ wants s q = Some b' ∧ (rank b < rank b')%nat).
  { intros t p b Ht Hw Hx Hb. destruct (blocked t p Ht Hw Hx) as (b0 & u & q & Hb0 & Hne & Hu & Hh).
    rewrite Hb in Hb0. injection Hb0 as <-. destruct (wants_idle u q b Hu Hh) as [Hqw Hqx].
    destruct (blocked u q Hu Hqw Hqx) as (b' & v & r & Hb' & Hne2 & Hv & Hr).
    exists u, q, b'. split_and!; try done. apply (Ho u q b' b); try done.
    intros Hin. apply Hne2. eapply (pi_mutex s V); eauto. }
  assert (Bound : ∃ B, ∀ t p b, th s t p → wants s p = Some b → (rank b ≤ B)%nat).
  { exists (max_list_with rank L). intros t p b Ht Hb.
    assert (Hin : b ∈ L) by (apply list_elem_of_omap; exists p; split; [by eapply list_elem_of_lookup_2|done]).
    clearbody L. induction L as [|x l IH]; [by apply not_elem_of_nil in Hin|]. simpl.
    apply elem_of_cons in Hin as [->|Hin]; [lia|]. specialize (IH Hin). lia. }
  destruct Bound as [B HB].
  assert (K : ∀ n t p b, th s t p → is_worker p = true → p ≠ WExit → wants s p = Some b → (B - rank b ≤ n)%nat → False).
  { induction n as [|n IH]; intros t p b Ht Hw Hx Hb Hn;
      destruct (Up t p b Ht Hw Hx Hb) as (u & q & b' & Hu & Hqw & Hqx & Hb' & Hlt).
    - pose proof (HB u q b' Hu Hb'). lia.
    - eapply (IH u q b'); eauto. lia. }
  intros t p Ht Hw. destruct (decide (p = WExit)) as [|Hx]; [done|exfalso].
  destruct (blocked t p Ht Hw Hx) as (b & _ & _ & Hb & _).
  by apply (K (B - rank b)%nat t p b).
Qed.
End Progress.

Lemma reachable_worker s : reachable s → ∃ t p, th s t p ∧ is_worker p = true.
Proof.
  intros (hosts & workers & Hr).
  assert (K : ∀ a b, rtc step a b → (∃ t p, th a t p ∧ is_worker p = true) → ∃ t p, th b t p ∧ is_worker p = true).
  { induction 1 as [|a b c Hab _ IH]; [done|]. intros (t & p & Ht & Hp). apply IH.
    destruct (step_thread _ _ Hab) as [E|(u & pu & qu & Hu & E & _ & _ & _ & Hw)]; unfold th; rewrite E; [eauto|].
    destruct (decide (u = t)) as [->|Hne].
    - exists t, qu. unfold th in *. simplify_eq. rewrite list_lookup_insert_eq by (by eapply lookup_lt_Some).
      by rewrite <- Hw.
    - exists t, p. by rewrite list_lookup_insert_ne. }
  eapply K; [exact Hr|]. exists hosts, WIdle. split; [|done]. unfold th. simpl.
  rewrite lookup_app_r by (rewrite length_replicate; lia). by rewrite length_replicate, Nat.sub_diag.
Qed.

(** Wherever the workers come to rest once shutdown has begun, nothing is stranded. *)
Lemma drained s :
  reachable s → qstop s = true → lock_ordered s → stuck s →
  (∀ t p, th s t p → is_worker p = true → p = WExit) ∧ pqueue s = [] ∧
  ∀ f x, pfuts s !! f = Some x → fu_done x = true.
Proof.
  intros Hr Hq Ho Hst. pose proof (reachable_inv s Hr) as V.
  pose proof (all_exited s V Hq Hst Ho) as Hx. split; [done|].
  assert (He : pqueue s = []).
  { destruct (reachable_worker s Hr) as (t & p & Ht & Hw). pose proof (Hx t p Ht Hw) as ->.
    by apply (pi_exit s V t). }
  split; [done|]. intros f x Hf.
  assert (Zero : ∀ k, k HIdle = None → k WExit = None → tsum k (threads s) f = 0%nat).
  { intros k E1 E2. assert (A : ∀ p, p ∈ threads s → k p = None).
    { intros p (t & Ht)%list_elem_of_lookup. destruct (is_worker p) eqn:E.
      - by rewrite (Hx t p Ht E).
      - by rewrite (pi_stop s V Hq t p Ht E). }
    induction (threads s) as [|p ts IH]; simpl; [done|]. rewrite A by left. simpl. apply IH.
    intros q Hin. apply A. by right. }
  pose proof (pi_tok s V f) as T. unfold tokens in T. rewrite Hf in T.
  destruct T as (_ & _ & _ & _ & _ & T & _).
  rewrite He, (Zero pre_at), (Zero pool_at) in T by done. destruct (fu_done x); [done|]. simpl in T. lia.
Qed.
