(* ===== verification/LocksProps.v ===== *)
(** * Locks: in order, never deadlocked

    The theorems on the lock discipline, and the runs that show what is outside it. *)
From S2P Require Import Prelude Locks LocksSpec.

(** The deeper instances are those with the greater name. *)
Definition by_name (c : Z) : nat := Z.to_nat c.

(** ** A run within the discipline *)

(** A worker inside a task of instance 1, whose body allocates, and a host asking
    for the same instance to break it. *)
Definition busy_programs : list cmd :=
  [geas_contract_break 1 []; pool_worker 1 11 (body_code (BCall (E_alloc 1)))].
Definition busy : list thread :=
  Eval vm_compute in default [] (s ← drive 20 1 [0; 1; 1; 1]%nat (launched busy_programs); drive 4 0 [1]%nat s).

Lemma busy_reached : reaches (lawful by_name 1) 2 busy.
Proof.
  apply (launch_drive _ busy_programs 20 1 [0; 1; 1; 1]%nat 4 0 [1]%nat); [vm_compute; reflexivity|].
  intros [|[|t]] a; [intros [= <-]..|done].
  - by apply (host_entry by_name (E_break 1 [])).
  - by apply (a_turn by_name 1 11 (BCall (E_alloc 1))).
Qed.

(** C12: whatever the threads are doing, the locks are in order.  At every point of every
    run of any number of host threads and workers with lawful bodies, each mutex
    has one holder; a thread asks only for an instance it has, or for what comes
    after all it holds (instances by depth, the runtime, a future, the queue), so
    never for a mutex that is not recursive and is its own; it lets go of the one
    it took last; it sleeps on a condition under that one mutex alone; and at its
    end, asleep or joining it holds none, after every early return and error. *)
Theorem locks_in_order depth hosts n s :
  reaches (lawful depth hosts) n s →
  (∀ t u x y l, t ≠ u → s !! t = Some x → s !! u = Some y → l ∈ held x → l ∉ held y) ∧
  ∀ t x, s !! t = Some x →
    (∀ l, code x = Lock l →
       (recursive l = true ∧ l ∈ held x) ∨ ∀ h, h ∈ held x → before depth h l = true) ∧
    (∀ l, code x = Unlock l → head (held x) = Some l) ∧
    (∀ l, code x = CondWait l → held x = [l]) ∧
    (resting x = true → held x = []).
Proof.
  intros HP%(reaches_ok depth); [|apply lawful_bal]. split; [apply HP|]. intros t x Hx.
  pose proof (ok_thread _ s HP t x Hx) as HT. pose proof (ok_chk _ _ HT) as Hc.
  split_and!; [intros l E; rewrite E in Hc; cbn [chk] in Hc..|by apply (resting_empty depth)].
  - apply andb_true_iff in Hc as [Hm _]. unfold may_take in Hm.
    apply orb_true_iff in Hm as [[Hr Hi%bool_decide_eq_true_1]%andb_true_iff|Hm]; [by left|right].
    rewrite forallb_forall in Hm. intros h Hh. by apply Hm, list_elem_of_In.
  - destruct (held x) as [|h H]; [done|]. by apply andb_true_iff in Hc as [->%bool_decide_eq_true_1 _].
  - by apply andb_true_iff in Hc as [?%bool_decide_eq_true_1 _].
Qed.

Lemma locks_in_order_witness :
  (∀ t u x y l, t ≠ u → busy !! t = Some x → busy !! u = Some y → l ∈ held x → l ∉ held y) ∧
  ∀ t x, busy !! t = Some x →
    (∀ l, code x = Lock l →
       (recursive l = true ∧ l ∈ held x) ∨ ∀ h, h ∈ held x → before by_name h l = true) ∧
    (∀ l, code x = Unlock l → head (held x) = Some l) ∧
    (∀ l, code x = CondWait l → held x = [l]) ∧
    (resting x = true → held x = []).
Proof. exact (locks_in_order by_name 1 2 busy busy_reached). Defined.

(** C13: no lock deadlock.  In any such run, while some thread is neither finished,
    asleep on a condition nor joining, one of those threads can take its next step;
    and left alone from there, the threads can all come to such a rest. *)
Theorem no_lock_deadlock depth hosts n s :
  reaches (lawful depth hosts) n s →
  (∀ t x, s !! t = Some x → resting x = false →
     ∃ u y, s !! u = Some y ∧ resting y = false ∧ next_of s u ≠ []) ∧
  ∃ s', rtc (step none) s s' ∧ Forall (λ x, resting x = true ∧ held x = []) s'.
Proof.
  intros HP%(reaches_ok depth); [|apply lawful_bal]. split.
  - intros t x Hx Hr. destruct (pool_progress depth s t x HP Hx Hr) as (u & y & Hy & Hry & Hn).
    exists u, y. split_and!; [done..|]. unfold next_of. rewrite Hy. by destruct (tnext _ y).
  - destruct (pool_settles depth s HP) as (s' & Hs & HP' & HF). exists s'. split; [done|].
    apply Forall_lookup. intros t x Hx. rewrite Forall_lookup in HF. split; [by eapply HF|].
    eapply resting_empty; [by eapply (ok_thread _ _ HP')|by eapply HF].
Qed.

Lemma no_lock_deadlock_witness :
  (∃ x, busy !! 0%nat = Some x ∧ resting x = false ∧ next_of busy 0 = []) ∧
  (∀ t x, busy !! t = Some x → resting x = false →
     ∃ u y, busy !! u = Some y ∧ resting y = false ∧ next_of busy u ≠ []) ∧
  ∃ s', rtc (step none) busy s' ∧ Forall (λ x, resting x = true ∧ held x = []) s'.
Proof.
  split.
  - eexists. split; [vm_compute; reflexivity|]. by split; vm_compute.
  - exact (no_lock_deadlock by_name 1 2 busy busy_reached).
Defined.

(** ** What the discipline leaves out *)

(** Threads none of which can ever move again. *)
Definition hung (s : list thread) : Prop :=
  s ≠ [] ∧ Forall (λ x, resting x = false) s ∧ ∀ t, next_of s t = [].

(** Two bodies, each fulfilling on the other's instance. *)
Definition crossed_bodies (t : nat) (a : cmd) : Prop :=
  ∃ c d f, c ≠ d ∧ a = pool_worker c f (body_code (BSync d BLocal)).
(** Two hosts, each reporting a partial value onto the other's instance. *)
Definition partials (t : nat) (a : cmd) : Prop := ∃ c owner, a = geas_partial_value c owner.
(** A write back callback that waits for the future it serves, or breaks the instance. *)
Definition waits_with (cb : Z → cmd) (t : nat) (a : cmd) : Prop :=
  ∃ f, a = geas_future_wait f (cb f).

Definition crossed_programs : list cmd :=
  [pool_worker 1 11 (body_code (BSync 2 BLocal)); pool_worker 2 12 (body_code (BSync 1 BLocal))].
Definition crossed_end : list thread := Eval vm_compute in
  default [] (s ← drive 29 0 [0; 1; 1; 1; 1]%nat (launched crossed_programs); drive 29 1 [0; 1; 1; 1; 1]%nat s).
Definition partials_programs : list cmd := [geas_partial_value 1 2; geas_partial_value 2 1].
Definition partials_end : list thread := Eval vm_compute in
  default [] (s ← drive 15 0 [1; 1; 1]%nat (launched partials_programs); drive 15 1 [1; 1; 1]%nat s).
Definition rewait_programs : list cmd := [geas_future_wait 7 (Call (geas_future_wait 7 Skip))].
Definition rewait_end : list thread := Eval vm_compute in
  default [] (s ← drive 29 0 [1; 0; 1; 0; 0; 1; 0; 1]%nat (launched rewait_programs); drive 0 0 [] s).
Definition rebreak_programs : list cmd := [geas_future_wait 7 (Call (geas_contract_break 1 [7]))].
Definition rebreak_end : list thread := Eval vm_compute in
  default [] (s ← drive 38 0 [1; 0; 1; 0; 0; 1; 0; 1; 1]%nat (launched rebreak_programs); drive 0 0 [] s).
Definition enqueue_programs : list cmd := [pool_worker 1 11 (body_code (BCall (E_fulfill 1 6)))].
Definition enqueue_end : list thread := Eval vm_compute in
  default [] (s ← drive 57 0 [0; 1; 1; 1; 1; 1; 1; 1; 1]%nat (launched enqueue_programs); drive 0 0 [] s).

Lemma hung_check (s : list thread) :
  s ≠ [] → forallb (λ x, negb (resting x)) s = true →
  forallb (λ t, match next_of s t with [] => true | _ => false end) (seq 0 (length s)) = true → hung s.
Proof.
  intros Hs Hr Hn. split_and!; [done|..].
  - apply Forall_forall. intros x Hx%list_elem_of_In. rewrite forallb_forall in Hr. by apply negb_true_iff, Hr.
  - intros t. rewrite forallb_forall in Hn. destruct (decide (t < length s)%nat) as [Ht|Ht].
    + specialize (Hn t). rewrite in_seq in Hn. destruct (next_of s t); [done|]. discriminate Hn. lia.
    + unfold next_of. by rewrite lookup_ge_None_2 by lia.
Qed.

(** Each condition of the discipline is needed, by a run that hangs without it:
    two bodies that fulfill crosswise on each other's instance; two hosts that
    report partial values onto each other's instance; a write back callback that
    waits for the future it is called for; one that breaks the future's instance.
    And within the discipline a body that queues a fulfillment asks for the queue's
    lock with its instance held. *)
Theorem lock_limits :
  (∃ s, reaches crossed_bodies 2 s ∧ hung s) ∧
  (∃ s, reaches partials 2 s ∧ hung s) ∧
  (∃ s, reaches (waits_with (λ f, Call (geas_future_wait f Skip))) 1 s ∧ hung s) ∧
  (∃ s, reaches (waits_with (λ f, Call (geas_contract_break 1 [f]))) 1 s ∧ hung s) ∧
  ∃ s x c, reaches (lawful by_name 0) 1 s ∧ s !! 0%nat = Some x ∧ code x = Lock Queue ∧ held x = [Inst c].
Proof.
  split_and!.
  - exists crossed_end. split; [|by apply hung_check; vm_compute].
    apply (launch_drive _ crossed_programs 29 0 [0; 1; 1; 1; 1]%nat 29 1 [0; 1; 1; 1; 1]%nat);
      [vm_compute; reflexivity|].
    intros [|[|t]] a; [intros [= <-]; by exists 1, 2, 11|intros [= <-]; by exists 2, 1, 12|done].
  - exists partials_end. split; [|by apply hung_check; vm_compute].
    apply (launch_drive _ partials_programs 15 0 [1; 1; 1]%nat 15 1 [1; 1; 1]%nat); [vm_compute; reflexivity|].
    intros [|[|t]] a; [intros [= <-]..|done]; by do 2 eexists.
  - exists rewait_end. split; [|by apply hung_check; vm_compute].
    apply (launch_drive _ rewait_programs 29 0 [1; 0; 1; 0; 0; 1; 0; 1]%nat 0 0 []); [vm_compute; reflexivity|].
    intros [|t] a; [intros [= <-]; by eexists|done].
  - exists rebreak_end. split; [|by apply hung_check; vm_compute].
    apply (launch_drive _ rebreak_programs 38 0 [1; 0; 1; 0; 0; 1; 0; 1; 1]%nat 0 0 []); [vm_compute; reflexivity|].
    intros [|t] a; [intros [= <-]; by eexists|done].
  - exists enqueue_end. do 2 eexists. split_and!; [|vm_compute; reflexivity|reflexivity..].
    apply (launch_drive _ enqueue_programs 57 0 [0; 1; 1; 1; 1; 1; 1; 1; 1]%nat 0 0 []); [vm_compute; reflexivity|].
    intros [|t] a; [intros [= <-]|done]. by apply (a_turn by_name 1 11 (BCall (E_fulfill 1 6))).
Qed.
