(* ===== verification/PoolLocks.v ===== *)
(** * The pool runs lawful bodies

    [Pool] takes a body as a script of the instance locks it takes, drops and breaks;
    [Locks] takes it as a tree of public calls under a discipline.  Here the scripts
    are those of the trees, and a pool whose tasks run lawful bodies only takes its
    locks in order. *)
From S2P Require Import Prelude Abi Frame Future Locks LocksSpec Pool PoolSpec.

(** ** The script of a body *)

(** The instance a call works under, where it takes that one alone, any number of
    times. *)
Definition works_on (e : entry) : option Z :=
  match e with
  | E_sign c | E_resume c | E_alloc c | E_store c | E_state c | E_partial_count c | E_partial_name c
  | E_partial_nerrors c | E_partial_error c | E_vow_ref c | E_park c => Some c
  | _ => None
  end.
Definition touches (n : nat) (c : Z) : list act := concat (replicate n [ALock c; AUnlock]).

(** A refused call, or one on the runtime's tables, takes no instance.  A queued
    fulfillment is not among the scripts. *)
Inductive entry_script : entry → list act → Prop :=
| es_none e : entry_script e []
| es_on e c n : works_on e = Some c → entry_script e (touches n c)
| es_break c fs : entry_script (E_break c fs) [ABreak c]
| es_partial c owner n : entry_script (E_partial_value c owner) (ALock c :: touches n owner ++ [AUnlock]).

(** [BSync] is [fulfill_inline]: refused before or under the instance's lock, or run there. *)
Inductive body_script : body → list act → Prop :=
| bs_local : body_script BLocal []
| bs_call e l : entry_script e l → body_script (BCall e) l
| bs_sync c b n l : body_script b l → body_script (BSync c b) (ALock c :: touches n c ++ l ++ [AUnlock])
| bs_null c b : body_script (BSync c b) []
| bs_refused c b n : body_script (BSync c b) (ALock c :: touches n c ++ [AUnlock])
| bs_seq a b l l' : body_script a l → body_script b l' → body_script (BSeq a b) (l ++ l')
| bs_left a b l : body_script a l → body_script (BIf a b) l
| bs_right a b l : body_script b l → body_script (BIf a b) l
| bs_stop a : body_script (BLoop a) []
| bs_round a l l' : body_script a l → body_script (BLoop a) l' → body_script (BLoop a) (l ++ l').

Section Ranked.
Context (depth : Z → nat).

(** ** Scripts in order *)

Definition takes (H : list Z) (b : Z) : Prop := b ∈ H ∨ ∀ h, h ∈ H → (depth h < depth b)%nat.

(** A script run from the instance [c] held at the bottom and [ns] above it. *)
Fixpoint ordered (c : Z) (ns : list Z) (l : list act) : Prop :=
  match l with
  | [] => True
  | ALock b :: l' => takes (c :: ns) b ∧ ordered c (b :: ns) l'
  | AUnlock :: l' => ordered c (tail ns) l'
  | ABreak b :: l' => takes (c :: ns) b ∧ ordered c ns l'
  end.

(** What a body of [p] finds held. *)
Definition reached_by (p : Z) (H : list Z) : Prop := p ∈ H ∧ ∀ h, h ∈ H → within depth h p = true.

Lemma reached_takes p b H : reached_by p H → within depth p b = true → takes H b.
Proof.
  intros [Hp Hi] Hw. unfold within in Hw. apply orb_true_iff in Hw as [->%Z.eqb_eq|Hw]; [by left|right].
  intros h Hh. specialize (Hi h Hh). unfold within in Hi. apply Nat.ltb_lt in Hw.
  apply orb_true_iff in Hi as [->%Z.eqb_eq|Hi%Nat.ltb_lt]; lia.
Qed.
Lemma reached_push p b H H' :
  reached_by p H → within depth p b = true → (∀ h, h ∈ H' ↔ h = b ∨ h ∈ H) → reached_by b H'.
Proof.
  intros [Hp Hi] Hw HH'. split; [by apply HH'; left|]. intros h [->|Hh]%HH'; [apply within_refl|].
  by eapply within_trans; [apply Hi|].
Qed.

Lemma touches_ordered n b c ns l : takes (c :: ns) b → ordered c ns l → ordered c ns (touches n b ++ l).
Proof. intros Hb Hl. induction n as [|n IH]; [done|]. by simpl. Qed.

Lemma entry_ordered p e l c ns k :
  entry_script e l → lawful_entry depth p e = true → reached_by p (c :: ns) → ordered c ns k → ordered c ns (l ++ k).
Proof.
  intros He Hl HR Hk. destruct He as [e|e b n Hb|b fs|b owner n].
  - done.
  - apply touches_ordered; [|done]. apply (reached_takes p); [done|]. by destruct e; simplify_eq/=.
  - split; [|done]. by apply (reached_takes p).
  - simpl in Hl |- *. apply andb_true_iff in Hl as [Hb Ho]. split; [by apply (reached_takes p)|].
    rewrite <- app_assoc. apply touches_ordered; [|done].
    assert (HR' : reached_by b (c :: b :: ns)).
    { eapply reached_push; [exact HR|exact Hb|]. intros h. rewrite !elem_of_cons. tauto. }
    destruct ((owner =? b) || (depth b <? depth owner)%nat) eqn:E; [by apply (reached_takes b)|].
    rewrite <- orb_assoc, E, orb_false_r in Ho. apply Z.eqb_eq in Ho as ->. left.
    destruct HR as [Hp _]. rewrite !elem_of_cons in *. tauto.
Qed.

Lemma body_ordered b l : body_script b l → ∀ p c ns k,
  lawful_body depth p b = true → reached_by p (c :: ns) → ordered c ns k → ordered c ns (l ++ k).
Proof.
  induction 1 as [|e l He|d b n l _ IH|d b|d b n|a b l l' _ IHa _ IHb|a b l _ IH|a b l _ IH|a|a l l' _ IHa _ IHl];
    intros p c ns k Hl HR Hk; simpl in Hl.
  - done.
  - by eapply entry_ordered.
  - apply andb_true_iff in Hl as [Hd Hb].
    assert (HR' : reached_by d (c :: d :: ns)).
    { eapply reached_push; [exact HR|exact Hd|]. intros h. rewrite !elem_of_cons. tauto. }
    simpl. split; [by apply (reached_takes p)|]. rewrite <- !app_assoc.
    apply touches_ordered; [left; right; left|]. by apply (IH d).
  - done.
  - apply andb_true_iff in Hl as [Hd Hb]. simpl. split; [by apply (reached_takes p)|]. rewrite <- app_assoc.
    apply touches_ordered; [left; right; left|done].
  - apply andb_true_iff in Hl as [Ha Hb]. rewrite <- app_assoc. apply (IHa p); [done..|]. by apply (IHb p).
  - apply andb_true_iff in Hl as [Ha Hb]. by apply (IH p).
  - apply andb_true_iff in Hl as [Ha Hb]. by apply (IH p).
  - done.
  - rewrite <- app_assoc. apply (IHa p); [done..|]. by apply (IHl p).
Qed.

Lemma script_ordered b l c : body_script b l → lawful_body depth c b = true → ordered c [] l.
Proof.
  intros Hs Hl. rewrite <- (app_nil_r l). eapply body_ordered; [done..| |done].
  split; [left|]. intros h ->%list_elem_of_singleton. apply within_refl.
Qed.

(** ** Runs of the pool *)

(** A step of the pool; the task it starts, if it does, runs a lawful body. *)
Definition lawful_step (s s' : pool) : Prop :=
  step s s' ∧ ∀ t f f' c ns script, th s t (WTask f) → th s' t (WRun f' c ns script) →
    ∃ b, lawful_body depth c b = true ∧ body_script b script.
Definition lawful_reachable (s : pool) : Prop :=
  ∃ hosts workers, rtc lawful_step (pool_init hosts workers) s.

Definition pc_ordered (p : pc) : Prop :=
  match p with
  | WRun _ c ns l | WBreak _ c ns l _ _ => ordered c ns l
  | _ => True
  end.

Lemma lawful_ordered s s' :
  (∀ t p, th s t p → pc_ordered p) → lawful_step s s' → ∀ t p, th s' t p → pc_ordered p.
Proof.
  intros HO [[W|W] HL] t p Ht.
  - destruct W as [u f q Hu _|u Hu _ _|u f x Hu _ _ _|u f x script Hu _ _ _|u f c ns b script Hu _|u f c ns script Hu
      |u f c ns b script Hu _|u f c ns script b g x rem Hu _|u f c ns script b Hu|u f c ns x st val Hu _|u f x Hu _];
      (destruct (decide (u = t)) as [<-|Hne]; [|unfold th in Ht; simpl in Ht;
        rewrite list_lookup_insert_ne in Ht by done; by apply (HO t)]);
      unfold th in Ht; simpl in Ht; rewrite list_lookup_insert_eq in Ht by (by eapply lookup_lt_Some);
      injection Ht as <-; specialize (HO u _ Hu); simpl in *; try done; try tauto.
    destruct (HL u f f (fu_c x) [] script Hu) as (b & Hb & Hs); [|by eapply script_ordered].
    unfold th. simpl. rewrite list_lookup_insert_eq; [done|by eapply lookup_lt_Some].
  - assert (D : ∀ f x, threads (deliver f x s) = threads s) by (intros f x; unfold deliver; by destruct (fu_waited x)).
    assert (K : ∀ u q, threads s' = <[u := q]> (threads s) → is_worker q = false → pc_ordered p).
    { intros u q E Hq. unfold th in Ht. rewrite E in Ht.
      apply list_lookup_insert_Some in Ht as [(-> & -> & _)|[_ Ht]]; [by destruct p|by apply (HO t)]. }
    destruct W; try (eapply K; [simpl; rewrite ?D; reflexivity|done || by destruct sync]);
      apply (HO t); unfold th in *; by rewrite ?D in Ht.
Qed.

(** Its locks are in order all along. *)
Lemma lawful_locks s : lawful_reachable s → reachable s ∧ lock_ordered s.
Proof.
  intros (hosts & workers & Hr).
  assert (K : rtc step (pool_init hosts workers) s ∧ ∀ t p, th s t p → pc_ordered p).
  { remember (pool_init hosts workers) as s0 eqn:E. assert (H0 : ∀ t p, th s0 t p → pc_ordered p).
    { subst. intros t p Ht. unfold th in Ht. simpl in Ht.
      apply list_elem_of_lookup_2 in Ht. rewrite elem_of_app, elem_of_cons, !elem_of_replicate in Ht.
      by destruct Ht as [[-> _]|[->|[-> _]]]. }
    clear E. induction Hr as [|s1 s2 s3 H12 _ IH]; [by split; [apply rtc_refl|]|].
    destruct IH as [R O]; [by eapply lawful_ordered|]. split; [|done]. eapply rtc_l; [apply H12|done]. }
  destruct K as [R O]. split; [by exists hosts, workers|]. exists depth. intros t p b h Ht Hw Hb Hh.
  specialize (O t p Ht). destruct p as [| | | | | | | | | | |f c ns [|[a| |a] l]| | |]; simpl in *; simplify_eq/=.
  - by apply not_elem_of_nil in Hh.
  - destruct O as [[?|HO] _]; [done|by apply HO].
  - destruct O as [[?|HO] _]; [done|by apply HO].
Qed.
End Ranked.
