(* ===== verification/PoolProps.v ===== *)
(** * The pool under every interleaving: the theorems *)
From S2P Require Import Prelude Locks LocksSpec Abi Frame Future Pool PoolSpec PoolLocks.

(** A run of one host and one worker: a synchronous fulfillment starts, is
    prepared and queued, the worker takes and runs it, the host breaks nothing. *)
Definition p0 : pool := pool_init 2 0.
Definition ready_fut : GeasFuture := with_task 900 0 40 1 0 1 (with_refs 0 [] (fresh_future 2)).
Definition p1 : pool := goto 0 (HNew true 0) (create 2 p0).
Definition p2 : pool := goto 0 (HReady true 0) (put_fut 0 ready_fut p1).
Definition p3 : pool := goto 0 (HEnq true 0) (put_fut 0 (with_refcnt 2 ready_fut) p2).
Definition p4 : pool := goto 0 (HWait 0) (set_pqueue [0%nat] p3).
Definition p5 : pool := goto 2 (WTask 0) (set_pqueue [] p4).
Definition p6 : pool := goto 2 (WRun 0 2 [] []) p5.

Lemma free_computed s t c :
  forallb (λ '(u, p), (u =? t)%nat || negb (bool_decide (c ∈ held p))) (imap pair (threads s)) = true →
  free_for s t c.
Proof.
  intros H u p Hne Hu Hc. rewrite forallb_forall in H. specialize (H (u, p)). simpl in H.
  rewrite (proj2 (Nat.eqb_neq u t)) in H by done. rewrite bool_decide_true in H by done.
  discriminate H. apply list_elem_of_In, elem_of_lookup_imap. by exists u, p.
Qed.

Lemma p6_reachable : reachable p6.
Proof.
  exists 2%nat, 0%nat. change (rtc step p0 p6).
  apply (rtc_l _ _ p1). { right. apply (h_new p0 0 2 true); [done|done|by apply free_computed]. }
  apply (rtc_l _ _ p2).
  { right. apply (h_ready p1 0 true 0 (fresh_future 2) 0 [] 900 0 40 1 0 1);
      [done|done|by apply free_computed|by apply not_elem_of_empty]. }
  apply (rtc_l _ _ p3). { right. by apply (h_hold p2 0 true 0 ready_fut). }
  apply (rtc_l _ _ p4). { right. by apply (h_enqueue p3 0 true 0). }
  apply (rtc_l _ _ p5). { left. by apply (w_take p4 2 0 []). }
  apply (rtc_l _ _ p6); [|apply rtc_refl].
  left. apply (w_run p5 2 0 (with_refcnt 2 ready_fut) []);
    [done|done|by apply free_computed|by apply not_elem_of_empty].
Qed.

(** The futures a thread's next step will read or write. *)
Definition touches_fut (p : pc) (f : nat) : Prop :=
  pre_at p = Some f ∨ pool_at p = Some f ∨ host_at p = Some f ∨ drop_at p = Some f ∨
  ∃ c rem, breaking p = Some (c, f :: rem).

Lemma is_at_some f : is_at (Some f) f = 1%nat.
Proof. simpl. by rewrite Nat.eqb_refl. Qed.

(** C10: whatever the interleaving of host threads and workers, of fulfillments,
    waits, releases, breaks and running bodies, no freed future is ever touched:
    everything queued, everything listed on an instance and everything some
    thread is about to use is live, and the hold count of a live future is
    exactly its places (queue, worker, instance list, drop in progress), at least
    one, so it is freed by its last holder and once.  One thread at a time holds
    an instance's lock.  And after a break freed an instance's heap, no future
    that can still be waited on points into it. *)
Theorem futures_never_dangle s :
  reachable s →
  (∀ f x, pfuts s !! f = Some x →
     fu_refcnt x = Z.of_nat (occ f (pqueue s) + tsum pool_at (threads s) f + occ f (plinked s) +
                             tsum drop_at (threads s) f) ∧ 1 <= fu_refcnt x <= 2) ∧
  (∀ f, f ∈ pqueue s ∨ f ∈ plinked s ∨ (∃ t p, th s t p ∧ touches_fut p f) → is_Some (pfuts s !! f)) ∧
  (∀ t u p q c, th s t p → th s u q → c ∈ held p → c ∈ held q → t = u) ∧
  (∀ f x, pfuts s !! f = Some x → fu_waited x = false → fu_c x ∈ dead s →
     fu_frame x = 0 ∧ fu_refs x = 0 ∧ fu_slots x = 0).
Proof.
  intros V%reachable_inv. split_and!.
  - intros f x Hx. pose proof (pi_tok s V f) as T. unfold tokens in T. rewrite Hx in T.
    destruct T as (? & ? & _ & -> & ? & _). lia.
  - intros f Hf. destruct Hf as [Hf|[Hf|(t & p & Ht & Hf)]].
    + apply tok_live; [apply V|]. apply occ_in in Hf. lia.
    + apply tok_live; [apply V|]. apply occ_in in Hf. lia.
    + destruct Hf as [E|[E|[E|[E|(c & rem & E)]]]].
      1-4: apply tok_live; [apply V|].
      * pose proof (tsum_in pre_at _ _ _ f Ht) as L. rewrite E, is_at_some in L. lia.
      * pose proof (tsum_in pool_at _ _ _ f Ht) as L. rewrite E, is_at_some in L. lia.
      * pose proof (tsum_in host_at _ _ _ f Ht) as L. rewrite E, is_at_some in L. lia.
      * pose proof (tsum_in drop_at _ _ _ f Ht) as L. rewrite E, is_at_some in L. lia.
      * destruct (pi_break s V _ _ _ _ Ht E) as [B _]. destruct (B f) as (_ & x & Hx & _); [left|by eexists].
  - apply V.
  - apply V.
Qed.

Lemma futures_never_dangle_witness :
  (∀ f x, pfuts p6 !! f = Some x →
     fu_refcnt x = Z.of_nat (occ f (pqueue p6) + tsum pool_at (threads p6) f + occ f (plinked p6) +
                             tsum drop_at (threads p6) f) ∧ 1 <= fu_refcnt x <= 2) ∧
  (∀ f, f ∈ pqueue p6 ∨ f ∈ plinked p6 ∨ (∃ t p, th p6 t p ∧ touches_fut p f) → is_Some (pfuts p6 !! f)) ∧
  (∀ t u p q c, th p6 t p → th p6 u q → c ∈ held p → c ∈ held q → t = u) ∧
  (∀ f x, pfuts p6 !! f = Some x → fu_waited x = false → fu_c x ∈ dead p6 →
     fu_frame x = 0 ∧ fu_refs x = 0 ∧ fu_slots x = 0).
Proof. exact (futures_never_dangle p6 p6_reachable). Defined.

(** C11: an outcome is delivered exactly once.  No future appears twice among the
    deliveries; what was delivered is the one outcome its completion published,
    which no later step replaces, or the forfeit of a break that came first; a
    delivered future answers every later wait GEAS_ERR_STATE; and a wait on a
    completed, undelivered future delivers its outcome on the spot. *)
Theorem delivered_exactly_once s :
  reachable s →
  NoDup (log s).*1 ∧
  (∀ f st, (f, st) ∈ log s → st = GEAS_ERR_STATE ∨ pub s !! f = Some st) ∧
  (∀ s' f st, step s s' → pub s !! f = Some st → pub s' !! f = Some st) ∧
  (∀ f st x, (f, st) ∈ log s → pfuts s !! f = Some x → deliver f x s = s) ∧
  (∀ t f x, th s t (HWait f) → pfuts s !! f = Some x → fu_done x = true → fu_waited x = false →
     ∃ s', step s s' ∧ log s' = log s ++ [(f, fu_status x)]).
Proof.
  intros V%reachable_inv. destruct (pi_log s V) as [Hnd Hl]. split_and!; [done|..].
  - intros f st Hin. by apply Hl.
  - intros s' f st H Hp. destruct (step_pub _ _ H) as [->|(g & y & sy & Hy & Hd & ->)]; [done|].
    destruct (proj2 (pi_pub s V) _ _ Hy) as [Hno _]. rewrite lookup_insert_ne; [done|].
    intros ->. by rewrite (Hno Hd) in Hp.
  - intros f st x Hin Hx. unfold deliver. destruct (Hl _ _ Hin) as (_ & Hw & _). by rewrite (Hw x Hx).
  - intros t f x Ht Hx Hd Hw. eexists. split; [right; by eapply h_wait_sync|].
    simpl. unfold deliver. by rewrite Hw.
Qed.

Lemma delivered_exactly_once_witness :
  NoDup (log p6).*1 ∧
  (∀ f st, (f, st) ∈ log p6 → st = GEAS_ERR_STATE ∨ pub p6 !! f = Some st) ∧
  (∀ s' f st, step p6 s' → pub p6 !! f = Some st → pub s' !! f = Some st) ∧
  (∀ f st x, (f, st) ∈ log p6 → pfuts p6 !! f = Some x → deliver f x p6 = p6) ∧
  (∀ t f x, th p6 t (HWait f) → pfuts p6 !! f = Some x → fu_done x = true → fu_waited x = false →
     ∃ s', step p6 s' ∧ log s' = log p6 ++ [(f, fu_status x)]).
Proof. exact (delivered_exactly_once p6 p6_reachable). Defined.

(** C38: the pool always comes to rest.  With bodies that end, there is no
    infinite run of workers: every worker step from any state goes down a
    well-founded order. *)
Theorem workers_terminate : well_founded (λ s' s, wstep s s').
Proof.
  assert (K : ∀ m s, measure s = m → Acc (λ s' s, wstep s s') s).
  { intros m. induction (lex3_wf m) as [m _ IH]. intros s E. constructor. intros s' W.
    eapply IH; [|reflexivity]. rewrite <- E. by apply wstep_decreases. }
  intros s. by eapply K.
Qed.

(** C39: shutdown strands no future.  Once it has begun, whatever is still queued
    or running, if the tasks run lawful bodies ([Locks]: those that fulfill, break
    and use only instances signed below their own) then wherever the workers come
    to rest every one of them has left, the queue is empty, and every future there
    is has its outcome, so no wait on it can block. *)
Theorem shutdown_drains depth s :
  lawful_reachable depth s → qstop s = true → stuck s →
  (∀ t p, th s t p → is_worker p = true → p = WExit) ∧ pqueue s = [] ∧
  ∀ f x, pfuts s !! f = Some x → fu_done x = true.
Proof. intros [Hr Ho]%lawful_locks Hq Hst. by apply drained. Qed.

(** A depth for the instances: by their serial. *)
Definition by_serial (c : Z) : nat := Z.to_nat c.

(** A host queues a task and goes on; shutdown begins with the task still queued; the
    worker takes it, runs it, drops it and leaves. *)
Definition q4 : pool := goto 0 HIdle (set_pqueue [0%nat] (goto 0 (HEnq false 0) (put_fut 0 (with_refcnt 2 ready_fut)
  (goto 0 (HReady false 0) (put_fut 0 ready_fut (goto 0 (HNew false 0) (create 2 p0))))))).
Definition q6 : pool := goto 2 (WRun 0 2 [] []) (goto 2 (WTask 0) (set_pqueue [] (stop q4))).
Definition done_fut : GeasFuture := future_finish GEAS_OK None (with_refcnt 2 ready_fut).
Definition q7 : pool := goto 2 (WDrop 0) (finish 0 (with_refcnt 2 ready_fut) GEAS_OK None q6).
Definition stopped : pool := goto 2 WExit (goto 2 WIdle (unref 0 done_fut q7)).

(** A step that starts no task. *)
Ltac no_start := intros [|[|[|?]]] ? ? ? ? ?; unfold th; simpl; intros ? ?; by simplify_eq.

Lemma stopped_reachable : lawful_reachable by_serial stopped.
Proof.
  exists 2%nat, 0%nat. change (rtc (lawful_step by_serial) p0 stopped).
  eapply rtc_l; [split; [right; apply (h_new p0 0 2 false); [done|done|by apply free_computed]|no_start]|].
  eapply rtc_l.
  { split; [right|no_start]. apply (h_ready _ 0 false 0 (fresh_future 2) 0 [] 900 0 40 1 0 1);
      [done|done|by apply free_computed|by apply not_elem_of_empty]. }
  eapply rtc_l; [split; [right; by apply (h_hold _ 0 false 0 ready_fut)|no_start]|].
  eapply rtc_l; [split; [right; by apply (h_enqueue _ 0 false 0)|no_start]|].
  eapply rtc_l.
  { split; [right; apply h_stop|no_start]. intros [|[|[|t]]] p; unfold th; simpl; intros Ht Hw; by simplify_eq. }
  eapply rtc_l; [split; [left; by apply (w_take _ 2 0 [])|no_start]|].
  eapply rtc_l.
  { split.
    - left. apply (w_run _ 2 0 (with_refcnt 2 ready_fut) []);
        [done|done|by apply free_computed|by apply not_elem_of_empty].
    - intros [|[|[|?]]] f f' c ns script; unfold th; simpl; intros ? ?; simplify_eq. exists BLocal. by split; [|constructor]. }
  eapply rtc_l; [split; [left; by apply (w_done _ 2 0 2 [] (with_refcnt 2 ready_fut) GEAS_OK None)|no_start]|].
  eapply rtc_l; [split; [left; by apply (w_drop _ 2 0 done_fut)|no_start]|].
  eapply rtc_l; [split; [left; by apply (w_exit _ 2)|no_start]|]. apply rtc_refl.
Qed.

Lemma shutdown_drains_witness :
  is_Some (pfuts stopped !! 0%nat) ∧
  (∀ t p, th stopped t p → is_worker p = true → p = WExit) ∧ pqueue stopped = [] ∧
  ∀ f x, pfuts stopped !! f = Some x → fu_done x = true.
Proof.
  split; [eexists; vm_compute; reflexivity|]. apply (shutdown_drains by_serial).
  - exact stopped_reachable.
  - reflexivity.
  - intros s' W. destruct W; destruct t as [|[|[|t]]]; unfold th in *; simpl in *; by simplify_eq.
Defined.
