(* ===== verification/Lifecycle.v ===== *)
(** * Signing, fulfilling and breaking contracts

    [runtime.c]: [copy_vow_value], [bind_vows], [store_sign_reconcile],
    [geas_contract_sign], [geas_contract_break], the vow and state readers,
    [latch_pledge], the transactional subcontracts and the inline fulfillment.

    Everything runs under the locks the code takes, so each operation is a
    function of the world: the memory, the instance records, the store and the
    registry.  A pledge body is code outside this repository; it is a tree of
    the calls it may make back into the runtime ([body]), given by the parameter
    [code] from its function pointer and its arguments.  A body may fulfill
    against any instance, its own included, so [fulfill_inline] takes fuel. *)
From S2P Require Import Prelude Abi Memory Value Iname Frame Policy Store Future.

Section Lifecycle.
Context `{SA : StoreApi}.

(** ** The world *)

Record world := World {
  wm : mem;
  ci : gmap Z GeasContract;      (* instance structs by address *)
  ws : sstate;
  wr : GeasRuntime;
  instances : list Z;            (* the runtime's instance table *)
  clock : Z;                     (* what time(NULL) reads *)
  futs : gmap Z GeasFuture;      (* future structs by address *)
  links : gmap Z (list Z);       (* instance address -> its futures list *)
  queue : list Z                 (* the pool's queue, head first *)
}.

Definition set_wm (m : mem) (w : world) : world :=
  World m (ci w) (ws w) (wr w) (instances w) (clock w) (futs w) (links w) (queue w).
Definition set_ci (f : gmap Z GeasContract → gmap Z GeasContract) (w : world) : world :=
  World (wm w) (f (ci w)) (ws w) (wr w) (instances w) (clock w) (futs w) (links w) (queue w).
Definition set_ws (s : sstate) (w : world) : world :=
  World (wm w) (ci w) s (wr w) (instances w) (clock w) (futs w) (links w) (queue w).
Definition set_wr (r : GeasRuntime) (w : world) : world :=
  World (wm w) (ci w) (ws w) r (instances w) (clock w) (futs w) (links w) (queue w).
Definition set_instances (l : list Z) (w : world) : world :=
  World (wm w) (ci w) (ws w) (wr w) l (clock w) (futs w) (links w) (queue w).

Definition set_futs (f : gmap Z GeasFuture → gmap Z GeasFuture) (w : world) : world :=
  World (wm w) (ci w) (ws w) (wr w) (instances w) (clock w) (f (futs w)) (links w) (queue w).
Definition set_links (f : gmap Z (list Z) → gmap Z (list Z)) (w : world) : world :=
  World (wm w) (ci w) (ws w) (wr w) (instances w) (clock w) (futs w) (f (links w)) (queue w).
Definition set_queue (q : list Z) (w : world) : world :=
  World (wm w) (ci w) (ws w) (wr w) (instances w) (clock w) (futs w) (links w) q.

Inductive wout (A : Type) := WRet (a : A) (w : world) | WUndef | WNoFuel.
#[global] Arguments WRet {A} a w.
#[global] Arguments WUndef {A}.
#[global] Arguments WNoFuel {A}.

Definition W (A : Type) : Type := world → wout A.
Definition wundef {A} : W A := λ _, WUndef.
Definition wnofuel {A} : W A := λ _, WNoFuel.
#[global] Instance W_ret : MRet W := λ A a w, WRet a w.
#[global] Instance W_bind : MBind W := λ A B k e w,
  match e w with WRet a w' => k a w' | WUndef => WUndef | WNoFuel => WNoFuel end.

(** A memory computation, a store call, a registry call. *)
Definition in_mem {A} (e : M A) : W A := λ w,
  match e (wm w) with
  | Ret a m => WRet a (set_wm m w) | Undef => WUndef | NoFuel => WNoFuel
  end.
Definition in_store {A} (f : sstate → A * sstate) : W A := λ w,
  let '(a, s) := f (ws w) in WRet a (set_ws s w).

Definition get_inst (c : Z) : W GeasContract := λ w,
  match ci w !! c with Some ct => WRet ct w | None => WUndef end.
Definition upd_inst (c : Z) (f : GeasContract → GeasContract) : W unit := λ w,
  match ci w !! c with
  | Some ct => WRet tt (set_ci (λ i, <[c := f ct]> i) w) | None => WUndef
  end.

Definition get_rt : W GeasRuntime := λ w, WRet (wr w) w.
Definition put_rt (r : GeasRuntime) : W unit := λ w, WRet tt (set_wr r w).
Definition get_clock : W Z := λ w, WRet (clock w) w.

(** The future at [f]; a freed one may not be touched. *)
Definition get_fut (f : Z) : W GeasFuture := λ w,
  match futs w !! f with Some x => WRet x w | None => WUndef end.
Definition upd_fut (f : Z) (g : GeasFuture → GeasFuture) : W unit := λ w,
  match futs w !! f with
  | Some x => WRet tt (set_futs (λ m, <[f := g x]> m) w) | None => WUndef
  end.
(** [c->futures] *)
Definition get_links (c : Z) : W (list Z) := λ w, WRet (default [] (links w !! c)) w.

(** ** Latching an outcome *)

Definition is_err (out : GeasValue) : bool :=
  (ty out =? tag_num GEAS_TY_RESULT) && (tag out =? 1).

Definition latch_pledge (c : Z) (pidx : nat) (out : GeasValue) : W unit :=
  ct ← get_inst c;
  match c_pledge_state ct with
  | None => mret tt
  | Some ls =>
      if (length (d_pledges (c_desc ct)) <=? pidx)%nat then mret tt else
      match ls !! pidx with
      | None => wundef
      | Some PLEDGE_PENDING =>
          if is_err out then
            upd_inst c (with_latches (<[pidx := PLEDGE_BROKEN]> ls));;
            if as_box out =? 0 then mret tt else
            e ← in_mem (load_slot (as_box out) 0);
            upd_inst c (λ ct, with_errs (<[pidx := e]> (c_pledge_err ct)) ct)
          else upd_inst c (with_latches (<[pidx := PLEDGE_FULFILLED]> ls))
      | Some _ => mret tt
      end
  end.

(** ** Transactional subcontracts *)

(** -1 unless the pledge's subcontract exists and carries the flag. *)
Definition pledge_txn_sub (d : GeasContractDesc) (pidx : nat) : Z :=
  match d_pledges d !! pidx with
  | None => -1
  | Some p =>
      let s := p_sub p in
      if (s <? 0) || (nsubs d <=? u32 s) then -1 else
      match d_sub_flags d with
      | None => -1
      | Some fl =>
          match fl !! Z.to_nat s with
          | None => -1
          | Some b => if Z.land b GEAS_SUB_TRANSACTIONAL =? 0 then -1 else s
          end
      end
  end.

Definition set_txn (c : Z) (s : Z) (t : txn_slot) : W unit :=
  upd_inst c (λ ct, match c_sub_txn ct with
                    | Some ts => with_txn (<[Z.to_nat s := t]> ts) ct
                    | None => ct
                    end).

Definition txn_before (c : Z) (pidx : nat) : W GeasStatus :=
  ct ← get_inst c;
  let s := pledge_txn_sub (c_desc ct) pidx in
  match c_sub_txn ct, c_store ct with
  | Some ts, Some h =>
      if s <? 0 then mret GEAS_OK else
      match ts !! Z.to_nat s with
      | None => wundef
      | Some TXN_DONE => mret GEAS_ERR_STATE
      | Some TXN_OPEN => mret GEAS_OK
      | Some TXN_NONE =>
          st ← in_store (geas_store_begin h);
          if negb (st_ok st) then mret st else
          set_txn c s TXN_OPEN;; mret GEAS_OK
      end
  | _, _ => mret GEAS_OK
  end.

Definition txn_after (c : Z) (pidx : nat) (st : GeasStatus) (out : GeasValue) : W GeasStatus :=
  ct ← get_inst c;
  let s := pledge_txn_sub (c_desc ct) pidx in
  match c_sub_txn ct, c_store ct with
  | Some ts, Some h =>
      if s <? 0 then mret st else
      match ts !! Z.to_nat s with
      | None => wundef
      | Some TXN_OPEN =>
          if negb (st_ok st) || is_err out then
            in_store (geas_store_rollback h);;
            set_txn c s TXN_DONE;; mret st
          else if sub_all ct (u32 s) PLEDGE_FULFILLED then
            cs ← in_store (geas_store_commit h);
            set_txn c s TXN_DONE;;
            if negb (st_ok cs)
            then in_store (geas_store_rollback h);; mret GEAS_ERR_STORE
            else mret st
          else mret st
      | Some _ => mret st
      end
  | _, _ => mret st
  end.

(** ** Break *)

(** The walk over the instance's futures. *)
Fixpoint forfeit_all (fs : list Z) : W unit :=
  match fs with
  | [] => mret tt
  | f :: fs' => upd_fut f future_forfeit;; forfeit_all fs'
  end.

(** After the forfeits: the error payloads go, then the store, then the heap. *)
Definition break_reclaim (c : Z) (ct : GeasContract) : W unit :=
  upd_inst c (λ ct, with_errs (replicate (length (c_pledge_err ct)) gzero) ct);;
  (match c_store ct with
   | None => mret tt
   | Some h =>
       in_store (geas_store_rollback h);;
       in_store (λ s, (tt, geas_store_close h s));;
       upd_inst c (with_store None)
   end);;
  in_mem (free_owned c);;
  upd_inst c with_no_tables;;
  upd_inst c (with_state GEAS_BROKEN).

Definition geas_contract_break (c : Z) : W GeasStatus :=
  if c =? 0 then mret GEAS_ERR_TYPE else
  ct ← get_inst c;
  if bool_decide (c_state ct = GEAS_UNSIGNED) then mret GEAS_ERR_STATE else
  fs ← get_links c;
  forfeit_all fs;;
  break_reclaim c ct;;
  mret GEAS_OK.

Definition geas_contract_state (c : Z) : W GeasContractState :=
  if c =? 0 then mret GEAS_UNSIGNED else ct ← get_inst c; mret (c_state ct).
Definition geas_contract_hash (c : Z) : W Z :=
  if c =? 0 then mret 0 else ct ← get_inst c; mret (c_shape_hash ct).
Definition geas_contract_signed_at (c : Z) : W Z :=
  if c =? 0 then mret 0 else ct ← get_inst c; mret (c_signed_at ct).

(** [c->rt]: every instance of a world hangs off its one runtime. *)
Definition geas_instance_runtime (c : Z) : W (option GeasRuntime) :=
  if c =? 0 then mret None else get_inst c;; r ← get_rt; mret (Some r).

(** The address of the vow's slot, as the array and the index into it. *)
Definition geas_vow_ref (c : Z) (name : option string) : W (option (Z * nat)) :=
  match name with
  | None => mret None
  | Some name =>
      if c =? 0 then mret None else
      ct ← get_inst c;
      if c_vow_vals ct =? 0 then mret None else
      mret (match find_vow_desc (c_desc ct) name with
            | Some i => Some (c_vow_vals ct, i)
            | None => None
            end)
  end.

(** ** Sign *)

(** [calloc] of [n] bytes outside the instance heap. *)
Definition sys_alloc (n : Z) : M bool := λ m,
  Ret (lib_malloc (lib m) (ticks m) n)
      (Mem (heap m) (owned m) (brk m) (S (ticks m)) (lib m)).

Definition GEAS_MAX_INSTANCES : nat := 256.
Definition sizeof_contract : Z := 144.

(** A mutex or a condition variable made: a request of the system like any other,
    of no bytes, that it may refuse ([Boot] has the steps and what they undo). *)
Definition pthread_init : M bool := sys_alloc 0.

(** A zeroed instance struct with its lock; without the lock the struct goes. *)
Definition contract_alloc : M bool :=
  ok <- sys_alloc sizeof_contract;
  if ok : bool then pthread_init else ret false.

(** The fuel every deep copy of a call gets. *)
Context (dfuel : nat).

Definition copy_vow_value (c : Z) (src dst : GeasValue) : M (GeasStatus * GeasValue) :=
  if ty src =? tag_num GEAS_TY_INSTANCE then ret (GEAS_ERR_TYPE, dst) else
  geas_value_deep_copy dfuel c (Some src) dst.

(** A value copied into vow slot [i]. *)
Definition put_vow (c vals : Z) (i : nat) (v : GeasValue) : M GeasStatus :=
  d <- load_slot vals i;
  '(st, d') <- copy_vow_value c v d;
  store_slot vals i d';;; ret st.

(** The override loop; [bound] is the array of bytes, handed on. *)
Fixpoint bind_overrides (c vals : Z) (d : GeasContractDesc) (vows : list GeasVowBinding)
    (bound : list bool) : M (GeasStatus * list bool) :=
  match vows with
  | [] => ret (GEAS_OK, bound)
  | b :: vows' =>
      match vb_name b with
      | None => ret (GEAS_ERR_NAME, bound)
      | Some n =>
          match find_vow_desc d n with
          | None => ret (GEAS_ERR_NAME, bound)
          | Some slot =>
              match d_vows d !! slot with
              | None => undef
              | Some vd =>
                  if negb (ty (vb_value b) =? v_ty vd) then ret (GEAS_ERR_TYPE, bound) else
                  st <- put_vow c vals slot (vb_value b);
                  if negb (st_ok st) then ret (st, bound) else
                  bind_overrides c vals d vows' (<[slot := true]> bound)
              end
          end
      end
  end.

(** The default loop from vow [j] on. *)
Fixpoint bind_defaults (c vals : Z) (vds : list GeasVowDesc) (j : nat) (bound : list bool)
    : M GeasStatus :=
  match vds with
  | [] => ret GEAS_OK
  | vd :: vds' =>
      if default false (bound !! j) then bind_defaults c vals vds' (S j) bound else
      if v_has_default vd =? 0 then ret GEAS_ERR_UNBOUND else
      st <- put_vow c vals j (v_default vd);
      if negb (st_ok st) then ret st else bind_defaults c vals vds' (S j) bound
  end.

(** The status and the vow array, 0 when none was allocated. *)
Definition bind_vows (c : Z) (d : GeasContractDesc) (vows : list GeasVowBinding)
    : M (GeasStatus * Z) :=
  let n := length (d_vows d) in
  if (n =? 0)%nat then ret (if (length vows =? 0)%nat then GEAS_OK else GEAS_ERR_NAME, 0) else
  vals <- geas_bytes KVals c (slot_bytes (Z.of_nat n));
  if vals =? 0 then ret (GEAS_ERR_OOM, 0) else
  zero_slots vals n;;;
  if (GEAS_MAX_CONTRACT_TYPES <? n)%nat then ret (GEAS_ERR_OOM, vals) else
  '(st, bound) <- bind_overrides c vals d vows (replicate GEAS_MAX_CONTRACT_TYPES false);
  if negb (st_ok st) then ret (st, vals) else
  st <- bind_defaults c vals (d_vows d) 0 bound;
  ret (st, vals).

(** The bytes up to the first NUL, what a [const char*] built from them reads. *)
Fixpoint c_string (bs : list Z) : string :=
  match bs with
  | [] => EmptyString
  | b :: bs' => if b =? 0 then EmptyString
                else String (Ascii.ascii_of_N (Z.to_N b)) (c_string bs')
  end.

Definition find_dsn (d : GeasContractDesc) : option nat :=
  find_index (λ v, str_eqb (v_name v) "dsn") (d_vows d).

(** Reconciles every schema, closing the connection at the first that fails. *)
Fixpoint reconcile_all (h : Z) (scs : list GeasSchemaDesc) : W GeasStatus :=
  match scs with
  | [] => mret GEAS_OK
  | sc :: scs' =>
      st ← in_store (geas_store_reconcile h sc);
      if st_ok st then reconcile_all h scs'
      else in_store (λ s, (tt, geas_store_close h s));; mret st
  end.

Definition store_sign_reconcile (c : Z) : W GeasStatus :=
  ct ← get_inst c;
  if (length (d_schemas (c_desc ct)) =? 0)%nat then mret GEAS_OK else
  match find_dsn (c_desc ct) with
  | None => mret GEAS_ERR_UNBOUND
  | Some slot =>
      if c_vow_vals ct =? 0 then mret GEAS_ERR_UNBOUND else
      d ← in_mem (load_slot (c_vow_vals ct) slot);
      if negb (is_ty GEAS_TY_STRING d) then mret GEAS_ERR_UNBOUND else
      ok ← in_mem (sys_alloc (u64 (s_len d + 1)));
      if negb ok then mret GEAS_ERR_OOM else
      bs ← in_mem (if s_len d =? 0 then ret [] else load_bytes (s_ptr d) (Z.to_nat (s_len d)));
      '(st, h) ← in_store (geas_store_open (c_string bs));
      if negb (st_ok st) then mret st else
      st ← reconcile_all h (d_schemas (c_desc ct));
      if negb (st_ok st) then mret st else
      upd_inst c (with_store (Some h));; mret GEAS_OK
  end.

(** A fresh zeroed instance record at an address above everything in use. *)
Definition max_key {A} (m : gmap Z A) : Z := map_fold (λ k _ a, Z.max k a) 0 m.
Definition next_addr (w : world) : Z :=
  Z.max (brk (wm w)) (1 + Z.max (max_key (ci w)) (max_key (owned (wm w)))).

Definition new_instance (d : GeasContractDesc) : W Z := λ w,
  let m := wm w in
  let c := next_addr w in
  WRet c (World (Mem (heap m) (<[c := []]> (owned m)) (c + 1) (ticks m) (lib m))
            (<[c := Contract d GEAS_UNSIGNED 0 [] 0 0 None [] None None]> (ci w))
            (ws w) (wr w) (instances w) (clock w) (futs w) (links w) (queue w)).

(** [free(c)] *)
Definition del_inst (c : Z) : W unit := λ w,
  let m := wm w in
  WRet tt (set_ci (delete c)
    (set_wm (Mem (heap m) (delete c (owned m)) (brk m) (ticks m) (lib m)) w)).

(** The failure exit: the store, the heap and the struct itself go. *)
Definition drop_instance (c : Z) : W unit :=
  ct ← get_inst c;
  (match c_store ct with
   | None => mret tt
   | Some h => in_store (λ s, (tt, geas_store_close h s))
   end);;
  in_mem (free_owned c);;
  del_inst c.

(** Runs [e] only while the status is still GEAS_OK. *)
Definition if_ok (st : GeasStatus) (e : W GeasStatus) : W GeasStatus :=
  if st_ok st then e else mret st.

Definition sign_latches (c : Z) (d : GeasContractDesc) : W GeasStatus :=
  let n := length (d_pledges d) in
  if (n =? 0)%nat then mret GEAS_OK else
  a ← in_mem (sys_alloc (Z.of_nat n));
  b ← in_mem (sys_alloc (Z.of_nat n * sizeof_GeasValue));
  (if a then upd_inst c (with_latches (replicate n PLEDGE_PENDING)) else mret tt);;
  (if b then upd_inst c (with_errs (replicate n gzero)) else mret tt);;
  mret (if a && b then GEAS_OK else GEAS_ERR_OOM).

Definition sign_txns (c : Z) (d : GeasContractDesc) : W GeasStatus :=
  let n := length (d_subs d) in
  if (n =? 0)%nat then mret GEAS_OK else
  a ← in_mem (sys_alloc (Z.of_nat n));
  if negb a then mret GEAS_ERR_OOM else
  upd_inst c (with_txn (replicate n TXN_NONE));; mret GEAS_OK.

Definition sign_fns (c : Z) (d : GeasContractDesc) (fns : list Z) : W GeasStatus :=
  let n := length (d_pledges d) in
  if (n =? 0)%nat then mret GEAS_OK else
  p ← in_mem (geas_bytes KBytes c (Z.of_nat n * 8));
  if p =? 0 then mret GEAS_ERR_OOM else
  upd_inst c (λ ct, Contract (c_desc ct) (c_state ct) (c_vow_vals ct) fns (c_shape_hash ct)
    (c_signed_at ct) (c_pledge_state ct) (c_pledge_err ct) (c_sub_txn ct) (c_store ct));;
  mret GEAS_OK.

Definition sign_vows (c : Z) (d : GeasContractDesc) (vows : list GeasVowBinding) : W GeasStatus :=
  '(st, vals) ← in_mem (bind_vows c d vows);
  upd_inst c (λ ct, Contract (c_desc ct) (c_state ct) vals (c_fns ct) (c_shape_hash ct)
    (c_signed_at ct) (c_pledge_state ct) (c_pledge_err ct) (c_sub_txn ct) (c_store ct));;
  mret st.

(** The publish step under the runtime lock. *)
Definition take_slot (c : Z) : W GeasStatus := λ w,
  if (length (instances w) =? GEAS_MAX_INSTANCES)%nat then WRet GEAS_ERR_OOM w
  else WRet GEAS_OK (set_instances (instances w ++ [c]) w).

Definition sign_publish (c : Z) (d : GeasContractDesc) : W GeasStatus :=
  now ← get_clock;
  upd_inst c (λ ct, Contract (c_desc ct) GEAS_SIGNED (c_vow_vals ct) (c_fns ct) (d_shape_hash d)
     now (c_pledge_state ct) (c_pledge_err ct) (c_sub_txn ct) (c_store ct));;
  take_slot c.

(** [vows] is [None] for a NULL array, the count is the length otherwise; the
    answer's address is 0 when [out] was not written. *)
Definition geas_contract_sign (name : option string) (vows : option (list GeasVowBinding))
    (nvows : Z) (expected_hash : Z) : W (GeasStatus * Z) :=
  match name with
  | None => mret (GEAS_ERR_TYPE, 0)
  | Some name =>
      if (0 <? nvows) && bool_decide (vows = None) then mret (GEAS_ERR_TYPE, 0) else
      let vows := default [] vows in
      r ← get_rt;
      match find_desc r name with
      | None => mret (GEAS_ERR_NAME, 0)
      | Some d =>
          if negb (expected_hash =? 0) && negb (expected_hash =? d_shape_hash d)
          then mret (GEAS_ERR_VERSION, 0) else
          let '(st, fns, r') := resolve_dispatch r d in
          put_rt r';;
          if negb (st_ok st) then mret (st, 0) else
          a ← in_mem contract_alloc;
          if negb a then mret (GEAS_ERR_OOM, 0) else
          c ← new_instance d;
          st ← sign_fns c d fns;
          st ← if_ok st (sign_vows c d vows);
          st ← if_ok st (sign_latches c d);
          st ← if_ok st (sign_txns c d);
          st ← if_ok st (store_sign_reconcile c);
          st ← if_ok st (sign_publish c d);
          if negb (st_ok st) then drop_instance c;; mret (st, 0) else mret (st, c)
      end
  end.

(** ** Pledge bodies

    What a body may do, in the order it does it: finish with a status and a
    value, compute over memory, find a vow's slot, run a statement on an instance's connection,
    fulfill synchronously, break, sign. *)
Inductive ref_arg := RNull (nrefs : Z) | RArr (refs : list GeasRef).
Definition nrefs_of (r : ref_arg) : Z :=
  match r with RNull n => n | RArr l => Z.of_nat (length l) end.
Definition refs_of (r : ref_arg) : list GeasRef := match r with RNull _ => [] | RArr l => l end.

Inductive body :=
| BRet (st : GeasStatus) (out : GeasValue)
| BMem (f : M GeasValue) (k : GeasValue → body)
| BVow (c : Z) (name : string) (k : option (Z * nat) → body)
| BStore (c : Z) (q : store_op) (k : GeasStatus → body)
| BFulfill (c : Z) (name : string) (args nargs : Z) (refs : ref_arg)
    (k : GeasStatus * GeasValue → body)
| BBreak (c : Z) (k : GeasStatus → body)
| BSign (name : string) (vows : list GeasVowBinding) (hash : Z) (k : GeasStatus * Z → body).

Section Run.
(** The body behind a function pointer, given the context, the frame and its
    length; and what a host write-back callback does. *)
Context (code : Z → Z → Z → Z → body).
Context (callback : Z → Z → GeasValue → Z → M unit).

Fixpoint run_body
    (fulfill : Z → string → Z → Z → ref_arg → W (GeasStatus * GeasValue)) (b : body)
    : W (GeasStatus * GeasValue) :=
  match b with
  | BRet st out => mret (st, out)
  | BMem f k => v ← in_mem f; run_body fulfill (k v)
  | BVow c name k => p ← geas_vow_ref c (Some name); run_body fulfill (k p)
  | BStore c q k =>
      ct ← get_inst c;
      match c_store ct with
      | None => run_body fulfill (k GEAS_ERR_STORE)
      | Some h => st ← in_store (store_exec h q); run_body fulfill (k st)
      end
  | BFulfill c name args nargs refs k =>
      r ← fulfill c name args nargs refs; run_body fulfill (k r)
  | BBreak c k => st ← geas_contract_break c; run_body fulfill (k st)
  | BSign name vows hash k =>
      r ← geas_contract_sign (Some name) (Some vows) (Z.of_nat (length vows)) hash;
      run_body fulfill (k r)
  end.

(** The state gate every fulfillment passes. *)
Definition state_live (s : GeasContractState) : bool :=
  match s with GEAS_SIGNED | GEAS_PARTIAL | GEAS_FULFILLED => true | _ => false end.

(** The checks a fulfillment makes before it copies anything in. *)
Definition fulfill_checks (ct : GeasContract) (name : string) (args nargs : Z) (refs : ref_arg)
    : GeasStatus * nat :=
  if (0 <? nargs) && (args =? 0) || (0 <? nrefs_of refs) && match refs with RNull _ => true | _ => false end
  then (GEAS_ERR_TYPE, 0%nat) else
  if negb (state_live (c_state ct)) then (GEAS_ERR_STATE, 0%nat) else
  match find_pledge (c_desc ct) name with
  | None => (GEAS_ERR_NAME, 0%nat)
  | Some i =>
      match d_pledges (c_desc ct) !! i with
      | Some p => if negb (u64 (nargs + nrefs_of refs) =? p_nargs p)
                  then (GEAS_ERR_TYPE, 0%nat) else (GEAS_OK, i)
      | None => (GEAS_ERR_NAME, 0%nat)
      end
  end.

(** Gate, run, latch, policy, episode: the part [run_task] and [fulfill_inline]
    share.  [None] is a gate that refused, nothing having run. *)
Definition run_pledge
    (fulfill : Z → string → Z → Z → ref_arg → W (GeasStatus * GeasValue))
    (c : Z) (pidx : nat) (fn frame nargs : Z) : W (GeasStatus * option GeasValue) :=
  gate ← txn_before c pidx;
  if negb (st_ok gate) then mret (gate, None) else
  '(st, out) ← run_body fulfill (code fn c frame nargs);
  (if st_ok st then latch_pledge c pidx out;; upd_inst c eval_policy else mret tt);;
  st ← txn_after c pidx st out;
  mret (st, Some out).

Fixpoint fulfill_inline (fuel : nat) (c : Z) (name : string) (args nargs : Z) (refs : ref_arg)
    : W (GeasStatus * GeasValue) :=
  match fuel with
  | O => wnofuel
  | S fuel' =>
      ct ← get_inst c;
      let '(st, pidx) := fulfill_checks ct name args nargs refs in
      if negb (st_ok st) then mret (st, gzero) else
      '(st, frame) ← in_mem (prepare_frame dfuel c args nargs (refs_of refs));
      if negb (st_ok st) then mret (st, gzero) else
      match c_fns ct !! pidx with
      | None => wundef
      | Some fn =>
          '(st, out) ← run_pledge (fulfill_inline fuel') c pidx fn frame
                         (u64 (nargs + nrefs_of refs));
          match out with
          | Some out =>
              if negb (st_ok st) then mret (st, gzero) else
              if (0 <? nrefs_of refs) && negb (frame =? 0) then
                wb ← in_mem (write_back_refs callback (refs_of refs) frame (Z.to_nat nargs));
                if st_ok wb then mret (GEAS_OK, out) else mret (wb, gzero)
              else mret (GEAS_OK, out)
          | None => mret (st, gzero)
          end
      end
  end.

(** The entry a pledge body calls: NULL tests, the cleared [out], the inline
    path.  [None] is a NULL pledge name. *)
Definition geas_pledge_fulfill_sync (fuel : nat) (c : Z) (name : option string)
    (args nargs : Z) (refs : ref_arg) : W (GeasStatus * GeasValue) :=
  match name with
  | None => mret (GEAS_ERR_TYPE, gzero)
  | Some name =>
      if c =? 0 then mret (GEAS_ERR_TYPE, gzero)
      else fulfill_inline fuel c name args nargs refs
  end.
End Run.
End Lifecycle.
