(* ===== verification/LifecycleSpec.v ===== *)
(** * What signing, fulfilling and breaking promise

    The order on instances every operation respects ([inst_le], [world_le]), the
    rules that lift it over the world monad, and the lemmas about each step of a
    fulfillment, a break and a sign. *)
From S2P Require Import Prelude Abi Memory Value ValueSpec Iname Frame FrameSpec Policy PolicySpec Store Future Lifecycle.

(** ** The order *)

Definition txn_le (a b : txn_slot) : Prop := a = TXN_NONE ∨ a = b ∨ b = TXN_DONE.

(** What may become of an instance: its descriptor and signing facts are fixed,
    Broken is terminal, latches and episodes only move forward, a stored Err
    payload stays until an explicit break zeroes it, and neither an episode table
    nor a connection appears after signing. *)
Record inst_le (a b : GeasContract) : Prop := InstLe {
  il_desc : c_desc b = c_desc a;
  il_hash : c_shape_hash b = c_shape_hash a;
  il_at : c_signed_at b = c_signed_at a;
  il_broken : c_state a = GEAS_BROKEN → c_state b = GEAS_BROKEN;
  il_latch : ∀ ls, c_pledge_state a = Some ls →
    ∃ ls', c_pledge_state b = Some ls' ∧ Forall2 latch_le ls ls';
  il_txn : ∀ ts, c_sub_txn a = Some ts → ∃ ts', c_sub_txn b = Some ts' ∧ Forall2 txn_le ts ts';
  il_err : ∀ ls i, c_pledge_state a = Some ls → ls !! i = Some PLEDGE_BROKEN →
    c_pledge_err b !! i = c_pledge_err a !! i ∨ c_pledge_err b !! i = Some gzero ∧ c_state b = GEAS_BROKEN;
  il_notxn : c_sub_txn a = None → c_sub_txn b = None;
  il_nostore : c_store a = None → c_store b = None
}.

Lemma latch_le_refl a : latch_le a a.
Proof. by right. Qed.
Lemma latch_le_trans a b c : latch_le a b → latch_le b c → latch_le a c.
Proof. intros [->| ->] H; [by left|done]. Qed.
Lemma txn_le_refl a : txn_le a a.
Proof. right. by left. Qed.
Lemma txn_le_trans a b c : txn_le a b → txn_le b c → txn_le a c.
Proof. unfold txn_le. intuition congruence. Qed.

Lemma Forall2_refl {A} (R : A → A → Prop) l : (∀ x, R x x) → Forall2 R l l.
Proof. intros H. induction l; by constructor. Qed.
Lemma Forall2_trans {A} (R : A → A → Prop) l k j :
  (∀ x y z, R x y → R y z → R x z) → Forall2 R l k → Forall2 R k j → Forall2 R l j.
Proof.
  intros H. intros H1. revert j. induction H1; intros j H2; inversion H2; subst; constructor; eauto.
Qed.
(** Moving one element of a list up the order. *)
Lemma Forall2_insert_le {A} (R : A → A → Prop) l i x y :
  (∀ z, R z z) → l !! i = Some x → R x y → Forall2 R l (<[i := y]> l).
Proof.
  intros Hr Hx Hxy. apply Forall2_same_length_lookup_2; [by rewrite length_insert|].
  intros j a b Ha Hb. apply list_lookup_insert_Some in Hb as [(-> & -> & _)|[? Hb]]; simplify_eq; auto.
Qed.

Lemma inst_le_refl a : inst_le a a.
Proof.
  split; auto; intros ls H; exists ls; split; auto; apply Forall2_refl;
    [apply latch_le_refl|apply txn_le_refl].
Qed.

Lemma inst_le_trans a b c : inst_le a b → inst_le b c → inst_le a c.
Proof.
  intros H1 H2. split; try (destruct H1, H2; congruence).
  - intros E. by apply H2, H1.
  - intros ls E. destruct (il_latch _ _ H1 _ E) as (l1 & E1 & F1).
    destruct (il_latch _ _ H2 _ E1) as (l2 & E2 & F2). exists l2. split; [done|].
    eapply Forall2_trans; [apply latch_le_trans|done..].
  - intros ts E. destruct (il_txn _ _ H1 _ E) as (l1 & E1 & F1).
    destruct (il_txn _ _ H2 _ E1) as (l2 & E2 & F2). exists l2. split; [done|].
    eapply Forall2_trans; [apply txn_le_trans|done..].
  - intros ls i E Hi. destruct (il_latch _ _ H1 _ E) as (l1 & E1 & F1).
    destruct (Forall2_lookup_l _ _ _ _ _ F1 Hi) as (y & Hy & [?|<-]); [done|].
    destruct (il_err _ _ H1 _ _ E Hi) as [A|[A A']], (il_err _ _ H2 _ _ E1 Hy) as [B|[B B']].
    + left. congruence.
    + by right.
    + right. split; [congruence|]. by apply H2.
    + by right.
  - intros E. by apply H2, H1.
  - intros E. by apply H2, H1.
Qed.

Section World.
Context `{SA : StoreApi}.

Definition world_le (w w' : world) : Prop :=
  ∀ c ct, ci w !! c = Some ct → ∃ ct', ci w' !! c = Some ct' ∧ inst_le ct ct'.

Lemma world_le_refl w : world_le w w.
Proof. intros c ct H. exists ct. split; [done|apply inst_le_refl]. Qed.
Lemma world_le_trans a b c : world_le a b → world_le b c → world_le a c.
Proof.
  intros H1 H2 i x Hx. destruct (H1 _ _ Hx) as (y & Hy & L1). destruct (H2 _ _ Hy) as (z & Hz & L2).
  exists z. split; [done|]. by eapply inst_le_trans.
Qed.

Lemma world_le_ci w w' : ci w' = ci w → world_le w w'.
Proof. intros E c ct H. exists ct. rewrite E. split; [done|apply inst_le_refl]. Qed.

(** ** Runs of the world monad *)

Lemma W_bind_inv {A B} (e : W A) (k : A → W B) w b w2 :
  (e ≫= k) w = WRet b w2 → ∃ a w1, e w = WRet a w1 ∧ k a w1 = WRet b w2.
Proof. unfold mbind, W_bind. destruct (e w) as [a w1| |]; [eauto|done..]. Qed.

Lemma W_bind_run {A B} (e : W A) (k : A → W B) w a w1 :
  e w = WRet a w1 → (e ≫= k) w = k a w1.
Proof. unfold mbind, W_bind. by intros ->. Qed.

Lemma in_mem_inv {A} (e : M A) w a w' :
  in_mem e w = WRet a w' → ∃ m, e (wm w) = Ret a m ∧ w' = set_wm m w.
Proof. unfold in_mem. destruct (e (wm w)); intros; simplify_eq; eauto. Qed.
Lemma in_mem_run {A} (e : M A) w a m : e (wm w) = Ret a m → in_mem e w = WRet a (set_wm m w).
Proof. unfold in_mem. by intros ->. Qed.
Lemma in_store_run {A} (f : sstate → A * sstate) w a s :
  f (ws w) = (a, s) → in_store f w = WRet a (set_ws s w).
Proof. unfold in_store. by intros ->. Qed.
Lemma in_store_inv {A} (f : sstate → A * sstate) w a w' :
  in_store f w = WRet a w' → ∃ s, f (ws w) = (a, s) ∧ w' = set_ws s w.
Proof. unfold in_store. destruct (f (ws w)) eqn:E; intros; simplify_eq; eauto. Qed.
Lemma get_inst_inv c w ct w' : get_inst c w = WRet ct w' → ci w !! c = Some ct ∧ w' = w.
Proof. unfold get_inst. destruct (ci w !! c); intros; by simplify_eq. Qed.
Lemma get_inst_run c w ct : ci w !! c = Some ct → get_inst c w = WRet ct w.
Proof. unfold get_inst. by intros ->. Qed.
Lemma upd_inst_inv c f w u w' :
  upd_inst c f w = WRet u w' → ∃ ct, ci w !! c = Some ct ∧ w' = set_ci (λ i, <[c := f ct]> i) w.
Proof. unfold upd_inst. destruct (ci w !! c) as [ct|]; intros; simplify_eq; eauto. Qed.
Lemma upd_inst_run c f w ct :
  ci w !! c = Some ct → upd_inst c f w = WRet tt (set_ci (λ i, <[c := f ct]> i) w).
Proof. unfold upd_inst. by intros ->. Qed.

(** [keeps e]: every run of [e] only moves instances forward. *)
Definition keeps {A} (e : W A) : Prop := ∀ w a w', e w = WRet a w' → world_le w w'.

Lemma keeps_ret {A} (a : A) : keeps (mret a).
Proof. intros w b w' [= <- <-]. apply world_le_refl. Qed.
Lemma keeps_undef {A} : keeps (wundef (A := A)).
Proof. done. Qed.
Lemma keeps_nofuel {A} : keeps (wnofuel (A := A)).
Proof. done. Qed.
Lemma keeps_bind {A B} (e : W A) (k : A → W B) : keeps e → (∀ a, keeps (k a)) → keeps (e ≫= k).
Proof.
  intros He Hk w b w2 H. apply W_bind_inv in H as (a & w1 & H1 & H2).
  eapply world_le_trans; [by eapply He|by eapply Hk].
Qed.
Lemma keeps_same {A} (e : W A) : (∀ w a w', e w = WRet a w' → ci w' = ci w) → keeps e.
Proof. intros H w a w' Hr c ct Hc. exists ct. rewrite (H _ _ _ Hr). split; [done|apply inst_le_refl]. Qed.
Lemma keeps_in_mem {A} (e : M A) : keeps (in_mem e).
Proof. apply keeps_same. intros w a w' (m & _ & ->)%in_mem_inv. done. Qed.
Lemma keeps_in_store {A} (f : sstate → A * sstate) : keeps (in_store f).
Proof. apply keeps_same. intros w a w' (m & _ & ->)%in_store_inv. done. Qed.
Lemma keeps_get c : keeps (get_inst c).
Proof. apply keeps_same. intros w a w' [_ ->]%get_inst_inv. done. Qed.
Lemma keeps_upd c f : (∀ ct, inst_le ct (f ct)) → keeps (upd_inst c f).
Proof.
  intros Hf w u w' (ct & Hc & ->)%upd_inst_inv d ct' Hd. simpl.
  destruct (decide (c = d)) as [<-|Hne].
  - rewrite lookup_insert_eq. simplify_eq. eauto.
  - rewrite lookup_insert_ne by done. exists ct'. split; [done|apply inst_le_refl].
Qed.

(** After reading instance [c] the continuation may use what was read. *)
Lemma keeps_get_bind {B} c (k : GeasContract → W B) :
  (∀ ct w b w', ci w !! c = Some ct → k ct w = WRet b w' → world_le w w') → keeps (get_inst c ≫= k).
Proof.
  intros H w b w' (ct & w1 & [Hc ->]%get_inst_inv & Hk)%W_bind_inv. eauto.
Qed.

(** An update of [c] whose new value is above the old one there. *)
Lemma upd_le c w w' ct ct' :
  ci w !! c = Some ct → inst_le ct ct' → ci w' = <[c := ct']> (ci w) → world_le w w'.
Proof.
  intros Hc Hf E d x Hd. rewrite E. destruct (decide (c = d)) as [<-|Hne].
  - rewrite lookup_insert_eq. simplify_eq. eauto.
  - rewrite lookup_insert_ne by done. exists x. split; [done|apply inst_le_refl].
Qed.
End World.

#[export] Hint Resolve keeps_ret keeps_undef keeps_nofuel keeps_in_mem keeps_in_store keeps_get : geas.

(** Splits a run of the world monad into its steps. *)
Ltac w_inv H :=
  match type of H with
  | (_ ≫= _) _ = WRet _ _ =>
      let a := fresh "a" in let w := fresh "w" in let H1 := fresh "Hrun" in
      apply W_bind_inv in H as (a & w & H1 & H); w_inv H1; w_inv H
  | get_inst _ _ = WRet _ _ => let Hc := fresh "Hc" in apply get_inst_inv in H as [Hc ->]
  | in_mem _ _ = WRet _ _ =>
      let m := fresh "m" in let Hm := fresh "Hm" in apply in_mem_inv in H as (m & Hm & ->)
  | in_store _ _ = WRet _ _ =>
      let s := fresh "s" in let Hs := fresh "Hs" in apply in_store_inv in H as (s & Hs & ->)
  | upd_inst _ _ _ = WRet _ _ =>
      let ct := fresh "ct" in let Hc := fresh "Hc" in apply upd_inst_inv in H as (ct & Hc & ->)
  | mret _ _ = WRet _ _ => injection H; clear H; intros; subst
  | _ => idtac
  end.

(** ** The steps of a fulfillment move instances forward *)

Section Steps.
Context `{SA : StoreApi}.

Lemma le_state st a : (c_state a = GEAS_BROKEN → st = GEAS_BROKEN) → inst_le a (with_state st a).
Proof. intros H. destruct (inst_le_refl a). by split; auto. Qed.

Lemma le_policy a : inst_le a (eval_policy a).
Proof.
  destruct (decide (c_state a = GEAS_BROKEN)) as [E|E].
  - rewrite eval_policy_broken by done. apply inst_le_refl.
  - rewrite eval_policy_run by done. apply le_state. done.
Qed.

Lemma le_latch a ls i l :
  c_pledge_state a = Some ls → ls !! i = Some PLEDGE_PENDING →
  inst_le a (with_latches (<[i := l]> ls) a).
Proof.
  intros Hs Hi. destruct (inst_le_refl a). split; auto. intros ls' E. simplify_eq.
  eexists. split; [done|]. eapply Forall2_insert_le; [apply latch_le_refl|done|by left].
Qed.

(** The payload is stored right after its own latch moved. *)
Lemma le_latch_err a ls i e :
  c_pledge_state a = Some ls → ls !! i = Some PLEDGE_PENDING →
  inst_le a (with_errs (<[i := e]> (c_pledge_err a)) (with_latches (<[i := PLEDGE_BROKEN]> ls) a)).
Proof.
  intros Hs Hi. pose proof (le_latch a ls i PLEDGE_BROKEN Hs Hi) as [].
  split; auto. intros ls' j E Hj. simplify_eq/=. left.
  rewrite list_lookup_insert_ne; [done|]. intros ->. simplify_eq.
Qed.

Lemma le_txn a ts i x t :
  c_sub_txn a = Some ts → ts !! i = Some x → txn_le x t → inst_le a (with_txn (<[i := t]> ts) a).
Proof.
  intros Hs Hi Hx. destruct (inst_le_refl a). split; auto; [|simpl; congruence]. intros ts' E. simplify_eq.
  eexists. split; [done|]. eapply Forall2_insert_le; [apply txn_le_refl|done..].
Qed.

Lemma le_txn_done a ts i : c_sub_txn a = Some ts → inst_le a (with_txn (<[i := TXN_DONE]> ts) a).
Proof.
  intros Hs. destruct (ts !! i) as [x|] eqn:E.
  - eapply le_txn; [done..|]. right. by right.
  - rewrite list_insert_ge by (by apply lookup_ge_None_1). destruct (inst_le_refl a).
    split; auto; [|simpl; congruence]. intros ts' E'. simplify_eq. eexists. split; [done|]. apply Forall2_refl, txn_le_refl.
Qed.

Lemma keeps_set_done c s : keeps (set_txn c s TXN_DONE).
Proof.
  apply keeps_upd. intros ct. destruct (c_sub_txn ct) eqn:E; [by apply le_txn_done|apply inst_le_refl].
Qed.

Lemma latch_pledge_keeps c i out : keeps (latch_pledge c i out).
Proof.
  unfold latch_pledge. apply keeps_get_bind. intros ct w b w' Hc H.
  destruct (c_pledge_state ct) as [ls|] eqn:Hs; [|by w_inv H; apply world_le_refl].
  destruct (length _ <=? i)%nat; [w_inv H; apply world_le_refl|].
  destruct (ls !! i) as [[]|] eqn:Hi; try (w_inv H; apply world_le_refl); try done.
  destruct (is_err out).
  - w_inv H. simplify_eq.
    destruct (as_box out =? 0); w_inv H; simpl in *.
    + eapply upd_le; [done|by apply le_latch|done].
    + simplify_map_eq. eapply upd_le; [done|by apply le_latch_err|]. simpl. by rewrite insert_insert_eq.
  - w_inv H. simplify_eq. eapply upd_le; [done|by apply le_latch|done].
Qed.

Lemma txn_before_keeps c i : keeps (txn_before c i).
Proof.
  unfold txn_before. apply keeps_get_bind. intros ct w b w' Hc H. simpl in H.
  destruct (c_sub_txn ct) as [ts|] eqn:Ht, (c_store ct) as [h|]; try (w_inv H; apply world_le_refl).
  destruct (_ <? 0); [w_inv H; apply world_le_refl|].
  destruct (ts !! _) as [[]|] eqn:Hi; try (w_inv H; apply world_le_refl); try done.
  unfold set_txn in H. w_inv H. destruct (st_ok a); simpl in H; w_inv H.
  - simpl in *. simplify_eq.
    eapply upd_le; [done|eapply le_txn; [done..|by left]|]. simpl. by rewrite Ht.
  - by apply world_le_ci.
Qed.

Lemma txn_after_keeps c i st out : keeps (txn_after c i st out).
Proof.
  unfold txn_after. apply keeps_get_bind. intros ct w b w' Hc H. simpl in H.
  destruct (c_sub_txn ct) as [ts|] eqn:Ht, (c_store ct) as [h|]; try (w_inv H; apply world_le_refl).
  destruct (_ <? 0); [w_inv H; apply world_le_refl|].
  destruct (ts !! _) as [[]|] eqn:Hi; try (w_inv H; apply world_le_refl); try done.
  revert w b w' H Hc. match goal with |- ∀ w b w', ?e w = _ → _ → _ => enough (keeps e) by eauto end.
  destruct (negb (st_ok st) || is_err out).
  - repeat (apply keeps_bind; intros; auto with geas). apply keeps_set_done.
  - destruct (sub_all _ _ _); [|auto with geas].
    apply keeps_bind; [auto with geas|]. intros cs. apply keeps_bind; [apply keeps_set_done|].
    intros _. destruct (negb (st_ok cs)); [|auto with geas]. apply keeps_bind; auto with geas.
Qed.

(** ** Break *)

Definition broken_inst (ct : GeasContract) : GeasContract :=
  with_state GEAS_BROKEN (with_no_tables (with_store None
    (with_errs (replicate (length (c_pledge_err ct)) gzero) ct))).

Definition broken_store (ct : GeasContract) (s : sstate) : sstate :=
  match c_store ct with
  | None => s
  | Some h => geas_store_close h (geas_store_rollback h s).2
  end.

Lemma le_broken a : inst_le a (broken_inst a).
Proof.
  destruct (inst_le_refl a). split; auto. intros ls i E Hi. simpl.
  destruct (decide (i < length (c_pledge_err a))%nat) as [Hl|Hl].
  - right. split; [|done]. by apply lookup_replicate_2.
  - left. rewrite !lookup_ge_None_2; rewrite ?length_replicate; lia || done.
Qed.

(** What the reclaiming half of a break makes of a world. *)
Definition reclaimed_world (c : Z) (ct : GeasContract) (bl : list Z) (w : world) : world :=
  let m := wm w in
  World (Mem (foldr delete (heap m) bl) (<[c := []]> (owned m)) (brk m) (ticks m) (lib m))
    (<[c := broken_inst ct]> (ci w)) (broken_store ct (ws w)) (wr w) (instances w) (clock w)
    (futs w) (links w) (queue w).

Lemma reclaim_run c w ct bl :
  ci w !! c = Some ct → owned (wm w) !! c = Some bl →
  break_reclaim c ct w = WRet tt (reclaimed_world c ct bl w).
Proof.
  intros Hc Hbl. unfold break_reclaim.
  rewrite (W_bind_run _ _ _ _ _ (upd_inst_run _ _ _ _ Hc)).
  unfold mbind, W_bind, reclaimed_world, broken_store, broken_inst. destruct (c_store ct) as [h|] eqn:Hs.
  - unfold in_store. simpl. destruct (geas_store_rollback h (ws w)) as [rs s1]. simpl.
    unfold upd_inst at 1. simpl. rewrite lookup_insert_eq. simpl.
    unfold in_mem, free_owned. simpl. rewrite Hbl. simpl.
    unfold upd_inst. simpl. rewrite !lookup_insert_eq. simpl. rewrite !lookup_insert_eq. simpl.
    do 2 f_equal. unfold set_ci. simpl. by rewrite !insert_insert_eq.
  - unfold in_mem, free_owned, mret, W_ret. simpl. rewrite Hbl. simpl.
    unfold upd_inst. simpl. rewrite !lookup_insert_eq. simpl. rewrite !lookup_insert_eq. simpl.
    do 2 f_equal. unfold set_ci. simpl. rewrite !insert_insert_eq.
    unfold with_state, with_no_tables, with_store, with_errs. simpl. by rewrite Hs.
Qed.

Lemma reclaim_owned c ct w u w' : break_reclaim c ct w = WRet u w' → is_Some (owned (wm w) !! c).
Proof.
  intros H. unfold break_reclaim in H.
  apply W_bind_inv in H as (u1 & w1 & H1 & H). apply upd_inst_inv in H1 as (? & _ & ->).
  apply W_bind_inv in H as (u2 & w2 & H2 & H). apply W_bind_inv in H as (u3 & w3 & H3 & H).
  assert (Ho : wm w2 = wm w) by (destruct (c_store ct); w_inv H2; done).
  apply in_mem_inv in H3 as (m & Hm & _). unfold free_owned in Hm. rewrite Ho in Hm.
  destruct (owned (wm w) !! c); [by eexists|done].
Qed.

(** The futures after the forfeits. *)
Definition forfeited (fs : list Z) (m : gmap Z GeasFuture) : gmap Z GeasFuture :=
  foldl (λ m f, alter future_forfeit f m) m fs.

Lemma get_links_run c w : get_links c w = WRet (default [] (links w !! c)) w.
Proof. done. Qed.

Lemma forfeit_all_run fs w :
  (∀ f, f ∈ fs → is_Some (futs w !! f)) →
  forfeit_all fs w = WRet tt (set_futs (forfeited fs) w).
Proof.
  revert w. induction fs as [|f fs IH]; intros w Hf; simpl; [by destruct w|].
  destruct (Hf f) as [x Hx]; [left|].
  assert (E : upd_fut f future_forfeit w = WRet tt (set_futs (alter future_forfeit f) w)).
  { unfold upd_fut, set_futs. rewrite Hx. f_equal. f_equal.
    apply map_eq. intros g. destruct (decide (f = g)) as [<-|].
    - by rewrite lookup_insert_eq, lookup_alter_eq, Hx.
    - by rewrite lookup_insert_ne, lookup_alter_ne. }
  rewrite (W_bind_run _ _ _ _ _ E). rewrite IH; [by destruct w|].
  intros g Hg. simpl. rewrite lookup_alter_is_Some. apply Hf. by right.
Qed.

Lemma forfeit_all_inv fs w u w' :
  forfeit_all fs w = WRet u w' → ∃ m, w' = set_futs (λ _, m) w.
Proof.
  revert w. induction fs as [|f fs IH]; intros w H; simpl in H.
  - w_inv H. exists (futs w'). by destruct w'.
  - apply W_bind_inv in H as (u1 & w1 & H1 & H2). unfold upd_fut in H1.
    destruct (futs w !! f); [|done]. injection H1 as _ <-. apply IH in H2 as [m ->]. by exists m.
Qed.

(** What a whole break makes of a world: the instance's futures forfeited, then
    everything it owned reclaimed. *)
Definition break_world (c : Z) (ct : GeasContract) (bl : list Z) (w : world) : world :=
  reclaimed_world c ct bl (set_futs (forfeited (default [] (links w !! c))) w).

Lemma break_run c w ct bl :
  c ≠ 0 → ci w !! c = Some ct → c_state ct ≠ GEAS_UNSIGNED → owned (wm w) !! c = Some bl →
  (∀ f, f ∈ default [] (links w !! c) → is_Some (futs w !! f)) →
  geas_contract_break c w = WRet GEAS_OK (break_world c ct bl w).
Proof.
  intros Hc0 Hc Hst Hbl Hf. unfold geas_contract_break. rewrite (proj2 (Z.eqb_neq c 0)) by done.
  rewrite (W_bind_run _ _ _ _ _ (get_inst_run _ _ _ Hc)). rewrite bool_decide_false by done.
  rewrite (W_bind_run _ _ _ _ _ (get_links_run c w)), (W_bind_run _ _ _ _ _ (forfeit_all_run _ _ Hf)).
  by rewrite (W_bind_run _ _ _ _ _ (reclaim_run c (set_futs _ w) ct bl Hc Hbl)).
Qed.

(** Every way a break can end. *)
Lemma break_inv c w st w' :
  geas_contract_break c w = WRet st w' →
  w' = w ∧ st ≠ GEAS_OK ∨
  ∃ ct bl m, ci w !! c = Some ct ∧ w' = reclaimed_world c ct bl (set_futs (λ _, m) w).
Proof.
  intros H. unfold geas_contract_break in H. destruct (c =? 0); [w_inv H; by left|].
  apply W_bind_inv in H as (ct & w1 & H1 & H). apply get_inst_inv in H1 as [Hc ->].
  destruct (bool_decide _); [w_inv H; by left|].
  apply W_bind_inv in H as (fs & w2 & [= <- <-] & H).
  apply W_bind_inv in H as (u & w3 & [m ->]%forfeit_all_inv & H).
  apply W_bind_inv in H as (u2 & w4 & H4 & H).
  destruct (reclaim_owned _ _ _ _ _ H4) as [bl Hbl].
  rewrite (reclaim_run c (set_futs (λ _, m) w) ct bl Hc Hbl) in H4. injection H4 as _ <-. w_inv H.
  right. by exists ct, bl, m.
Qed.

Lemma break_keeps c : keeps (geas_contract_break c).
Proof.
  intros w st w' [[-> _]|(ct & bl & m & Hc & ->)]%break_inv; [apply world_le_refl|].
  eapply upd_le; [done|apply le_broken|done].
Qed.
End Steps.

(** ** Sign touches its own fresh instance only *)

Create HintDb touch.

Section Sign.
Context `{SA : StoreApi}.

Lemma max_key_ge {A} (m : gmap Z A) k : is_Some (m !! k) → k <= max_key m.
Proof.
  unfold max_key. revert k. induction m as [|i x m Hi Hf IH] using map_first_key_ind; intros k Hk.
  { by rewrite lookup_empty in Hk; destruct Hk. }
  rewrite map_fold_insert_first_key by done. apply lookup_insert_is_Some in Hk as [->|[_ Hk]]; [lia|].
  specialize (IH k Hk). lia.
Qed.

Lemma next_addr_fresh w : ci w !! next_addr w = None ∧ owned (wm w) !! next_addr w = None ∧
  brk (wm w) <= next_addr w ∧ 0 < next_addr w.
Proof.
  assert (B : ∀ {A} (m : gmap Z A), 0 <= max_key m).
  { intros A m. unfold max_key. induction m as [|i x m Hi Hf IH] using map_first_key_ind.
    - by rewrite map_fold_empty.
    - rewrite map_fold_insert_first_key by done. lia. }
  split_and!.
  - apply eq_None_not_Some. intros H%max_key_ge. unfold next_addr in H. lia.
  - apply eq_None_not_Some. intros H%max_key_ge. unfold next_addr in H. lia.
  - unfold next_addr. lia.
  - unfold next_addr. pose proof (B _ (ci w)). lia.
Qed.

Definition touches {A} (x : Z) (e : W A) : Prop := ∀ w a w',
  e w = WRet a w' → ∀ c, c ≠ x → ci w' !! c = ci w !! c.

Lemma touches_bind {A B} x (e : W A) (k : A → W B) :
  touches x e → (∀ a, touches x (k a)) → touches x (e ≫= k).
Proof.
  intros He Hk w b w2 (a & w1 & H1 & H2)%W_bind_inv c Hc.
  rewrite (Hk _ _ _ _ H2), (He _ _ _ H1); done.
Qed.
Lemma touches_same {A} x (e : W A) : (∀ w a w', e w = WRet a w' → ci w' = ci w) → touches x e.
Proof. intros H w a w' Hr c _. by rewrite (H _ _ _ Hr). Qed.
Lemma touches_ret {A} x (a : A) : touches x (mret a).
Proof. apply touches_same. by intros w b w' [= _ <-]. Qed.
Lemma touches_undef {A} x : touches x (wundef (A := A)).
Proof. done. Qed.
Lemma touches_in_mem {A} x (e : M A) : touches x (in_mem e).
Proof. apply touches_same. by intros w a w' (m & _ & ->)%in_mem_inv. Qed.
Lemma touches_in_store {A} x (f : sstate → A * sstate) : touches x (in_store f).
Proof. apply touches_same. by intros w a w' (s & _ & ->)%in_store_inv. Qed.
Lemma touches_get x c : touches x (get_inst c).
Proof. apply touches_same. by intros w a w' [_ ->]%get_inst_inv. Qed.
Lemma touches_upd x f : touches x (upd_inst x f).
Proof. intros w u w' (ct & _ & ->)%upd_inst_inv c Hc. simpl. by rewrite lookup_insert_ne. Qed.
Lemma touches_del x : touches x (del_inst x).
Proof. intros w u w' [= _ <-] c Hc. simpl. by rewrite lookup_delete_ne. Qed.
Lemma touches_if_ok x st e : touches x e → touches x (if_ok st e).
Proof. unfold if_ok. destruct (st_ok st); [done|]. intros _. apply touches_ret. Qed.
Lemma touches_take_slot x c : touches x (take_slot c).
Proof.
  apply touches_same. intros w a w'. unfold take_slot. destruct (_ =? _)%nat; by intros [= _ <-].
Qed.
Lemma touches_clock x : touches x get_clock.
Proof. apply touches_same. by intros w a w' [= _ <-]. Qed.

#[local] Hint Resolve touches_ret touches_undef touches_in_mem touches_in_store touches_get
  touches_upd touches_del touches_if_ok touches_take_slot touches_clock : touch.
Ltac touch :=
  repeat first
    [ apply touches_bind; [|intros ?] | solve [auto with touch]
    | match goal with
      | |- touches _ (match ?x with _ => _ end) => destruct x
      | |- touches _ ((λ _, _) _) => cbv beta
      end ].

Lemma touches_reconcile x h scs : touches x (reconcile_all h scs).
Proof. induction scs as [|sc scs IH]; simpl; touch. Qed.
#[local] Hint Resolve touches_reconcile : touch.

Lemma sign_touches dfuel d vows fns c :
  touches c (sign_fns c d fns) ∧ touches c (sign_vows dfuel c d vows) ∧ touches c (sign_latches c d) ∧
  touches c (sign_txns c d) ∧ touches c (store_sign_reconcile c) ∧ touches c (sign_publish c d) ∧
  touches c (drop_instance c).
Proof.
  unfold sign_fns, sign_vows, sign_latches, sign_txns, store_sign_reconcile, sign_publish, drop_instance.
  split_and!; touch.
Qed.

Lemma sign_keeps dfuel name vows nvows hash : keeps (geas_contract_sign dfuel name vows nvows hash).
Proof.
  unfold geas_contract_sign. destruct name as [name|]; [|auto with geas].
  destruct (_ && _); [auto with geas|]. apply keeps_bind; [by apply keeps_same; intros w a w' [= _ <-]|].
  intros r. destruct (find_desc r name) as [d|]; [|auto with geas].
  destruct (_ && _); [auto with geas|]. destruct (resolve_dispatch r d) as [[st fns] r'].
  apply keeps_bind; [by apply keeps_same; intros w a w' [= _ <-]|]. intros _.
  destruct (negb (st_ok st)); [auto with geas|]. apply keeps_bind; [auto with geas|].
  intros a. destruct (negb a); [auto with geas|].
  intros w b w2 (c & w1 & H1 & H2)%W_bind_inv. unfold new_instance in H1. injection H1 as <- <-.
  destruct (next_addr_fresh w) as [Hf _].
  intros x ct Hx. exists ct. split; [|apply inst_le_refl].
  assert (Hne : x ≠ next_addr w) by (intros ->; congruence).
  match type of H2 with ?e _ = _ => assert (T : touches (next_addr w) e) end.
  { destruct (sign_touches dfuel d (default [] vows) fns (next_addr w)) as (? & ? & ? & ? & ? & ? & ?).
    touch; auto with touch. }
  rewrite (T _ _ _ H2 _ Hne). simpl. by rewrite lookup_insert_ne.
Qed.
End Sign.

(** ** Fulfillments move instances forward, whatever the bodies do *)

Section Fulfill.
Context `{SA : StoreApi}.
Context (dfuel : nat) (code : Z → Z → Z → Z → body) (callback : Z → Z → GeasValue → Z → M unit).

Lemma vow_ref_inv c name p w w' : geas_vow_ref c name w = WRet p w' → w' = w.
Proof.
  unfold geas_vow_ref. destruct name; [|by intros [= _ <-]]. destruct (c =? 0); [by intros [= _ <-]|].
  unfold mbind, W_bind, get_inst. destruct (ci w !! c) as [ct|]; [|done]. destruct (_ =? 0); by intros [= _ <-].
Qed.
Lemma vow_ref_keeps c name : keeps (geas_vow_ref c name).
Proof.
  unfold geas_vow_ref. destruct name; [|auto with geas]. destruct (c =? 0); [auto with geas|].
  apply keeps_bind; [auto with geas|]. intros ct. destruct (_ =? 0); auto with geas.
Qed.

Lemma run_body_keeps fulfill b :
  (∀ c name args nargs refs, keeps (fulfill c name args nargs refs)) →
  keeps (run_body dfuel fulfill b).
Proof.
  intros Hf. induction b as [st out|f k IH|c name k IH|c q k IH|c name args nargs refs k IH|c k IH|name vows hash k IH];
    cbn [run_body]; [auto with geas|..].
  - apply keeps_bind; auto with geas.
  - apply keeps_bind; [apply vow_ref_keeps|auto].
  - apply keeps_bind; [auto with geas|]. intros ct. destruct (c_store ct); [|apply IH].
    apply keeps_bind; auto with geas.
  - apply keeps_bind; auto.
  - apply keeps_bind; [apply break_keeps|auto].
  - apply keeps_bind; [apply sign_keeps|auto].
Qed.

Lemma run_pledge_keeps fulfill c i fn frame nargs :
  (∀ c name args nargs refs, keeps (fulfill c name args nargs refs)) →
  keeps (run_pledge dfuel code fulfill c i fn frame nargs).
Proof.
  intros Hf. unfold run_pledge. apply keeps_bind; [apply txn_before_keeps|]. intros g.
  destruct (negb (st_ok g)); [auto with geas|]. apply keeps_bind; [by apply run_body_keeps|].
  intros [st out]. apply keeps_bind.
  - destruct (st_ok st); [|auto with geas]. apply keeps_bind; [apply latch_pledge_keeps|].
    intros _. apply keeps_upd, le_policy.
  - intros _. apply keeps_bind; [apply txn_after_keeps|]. auto with geas.
Qed.

Lemma fulfill_keeps fuel c name args nargs refs :
  keeps (fulfill_inline dfuel code callback fuel c name args nargs refs).
Proof.
  revert c name args nargs refs. induction fuel as [|fuel IH]; intros c name args nargs refs; [done|].
  cbn [fulfill_inline]. apply keeps_bind; [auto with geas|]. intros ct.
  destruct (fulfill_checks ct name args nargs refs) as [st i].
  destruct (negb (st_ok st)); [auto with geas|]. apply keeps_bind; [auto with geas|].
  intros [st1 frame]. destruct (negb (st_ok st1)); [auto with geas|].
  destruct (c_fns ct !! i) as [fn|]; [|auto with geas].
  apply keeps_bind; [by apply run_pledge_keeps|]. intros [st2 [out|]]; [|auto with geas].
  destruct (negb (st_ok st2)); [auto with geas|]. destruct (_ && _); [|auto with geas].
  apply keeps_bind; [auto with geas|]. intros wb. destruct (st_ok wb); auto with geas.
Qed.
End Fulfill.

(** ** The transactional episode *)

(** A body that computes, reads and writes through the connection of [c] and
    returns; a refused statement makes it return that fault at once, as compiled
    bodies do. *)
Inductive local_body `{SA : StoreApi} (c : Z) : body → Prop :=
| LRet st out : local_body c (BRet st out)
| LMem f k : (∀ v, local_body c (k v)) → local_body c (BMem f k)
| LVow name k : (∀ p, local_body c (k p)) → local_body c (BVow c name k)
| LStore q k : (∀ st, local_body c (k st)) →
    (∀ st, st ≠ GEAS_OK → ∃ st' out, k st = BRet st' out ∧ st' ≠ GEAS_OK) →
    local_body c (BStore c q k).

Section Episode.
Context `{SL : StoreLaws}.
Context (dfuel : nat) (code : Z → Z → Z → Z → body) (callback : Z → Z → GeasValue → Z → M unit).
Context (c s : Z).

(** Instance [c] has a connection, and the episode of subcontract [s] is in
    state [t], a live transaction exactly backing an open one. *)
Definition ep (w : world) (t : txn_slot) : Prop := ∃ ct ts h,
  ci w !! c = Some ct ∧ c_store ct = Some h ∧ c_sub_txn ct = Some ts ∧
  ts !! Z.to_nat s = Some t ∧ (t = TXN_OPEN → in_txn (ws w) h = true).

(** Every pledge of the subcontract latched fulfilled. *)
Definition all_fulfilled (w : world) : Prop :=
  ∃ ct, ci w !! c = Some ct ∧ sub_all ct (u32 s) PLEDGE_FULFILLED = true.

Lemma run_local fulfill b w st out w' ct h :
  local_body c b → ci w !! c = Some ct → c_store ct = Some h → in_txn (ws w) h = true →
  run_body dfuel fulfill b w = WRet (st, out) w' →
  ci w' = ci w ∧ durable (ws w') = durable (ws w) ∧ (st = GEAS_OK → in_txn (ws w') h = true).
Proof.
  intros Hb. revert w. induction Hb as [st' out'|f k _ IH|name k _ IH|q k _ IH Hf]; intros w Hc Hh Ht H.
  - simpl in H. w_inv H. done.
  - cbn [run_body] in H. w_inv H. by apply IH in H.
  - cbn [run_body] in H. apply W_bind_inv in H as (p & w1 & Hv & H). apply vow_ref_inv in Hv as ->. by apply IH in H.
  - cbn [run_body] in H. w_inv H. simplify_eq. rewrite Hh in H. w_inv H.
    destruct (exec_txn _ _ _ _ _ Ht Hs) as [Hd Hk].
    destruct (decide (a = GEAS_OK)) as [->|Ha].
    + apply IH in H as (E1 & E2 & E3); auto. split_and!; auto; simpl in *; congruence.
    + destruct (Hf a Ha) as (st' & out' & E & Hst). rewrite E in H. simpl in H. w_inv H.
      split_and!; auto; by intros.
Qed.

Section Step.
Context (i : nat) (w : world) (ct : GeasContract) (ts : list txn_slot) (h : Z) (t : txn_slot).
Hypothesis (Hc : ci w !! c = Some ct) (Hh : c_store ct = Some h) (Ht : c_sub_txn ct = Some ts).
Hypothesis (Hi : ts !! Z.to_nat s = Some t) (Ho : t = TXN_OPEN → in_txn (ws w) h = true).
Hypothesis (Hs0 : 0 <= s) (Hs : pledge_txn_sub (c_desc ct) i = s).

Lemma txn_before_inv g w' :
  txn_before c i w = WRet g w' →
  (g ≠ GEAS_OK ∧ ci w' = ci w ∧ durable (ws w') = durable (ws w) ∧ t ≠ TXN_OPEN ∧
   (t = TXN_DONE → g = GEAS_ERR_STATE ∧ w' = w)) ∨
  (g = GEAS_OK ∧ t ≠ TXN_DONE ∧
   ci w' = <[c := with_txn (<[Z.to_nat s := TXN_OPEN]> ts) ct]> (ci w) ∧
   in_txn (ws w') h = true ∧ durable (ws w') = durable (ws w)).
Proof.
  unfold txn_before. rewrite (W_bind_run _ _ _ _ _ (get_inst_run _ _ _ Hc)).
  rewrite Hh, Ht, Hs, (proj2 (Z.ltb_ge s 0)), Hi by done. intros H. destruct t.
  - apply W_bind_inv in H as (st & w1 & H1 & H). apply in_store_inv in H1 as (s1 & Hb & ->).
    destruct (decide (st = GEAS_OK)) as [->|Hst].
    + simpl in H. apply begin_ok in Hb as (_ & Hin & Hd & _).
      apply W_bind_inv in H as (u & w2 & H2 & H). unfold set_txn in H2. w_inv H2. w_inv H.
      simpl in *. simplify_eq. right. split_and!; auto; try done. by rewrite Ht.
    + left. apply begin_refused in Hb; [|done]. destruct (st_ok st) eqn:E; simpl in H.
      { by apply st_ok_spec in E. }
      w_inv H. by split_and!.
  - w_inv H. right. split_and!; try done; [|by apply Ho].
    rewrite list_insert_id by done. rewrite insert_id; [done|].
    rewrite Hc. f_equal. destruct ct; simpl in *. by subst.
  - w_inv H. left. done.
Qed.

Lemma txn_after_inv st out st' w' :
  t = TXN_OPEN → (st = GEAS_OK → in_txn (ws w) h = true) →
  txn_after c i st out w = WRet st' w' →
  w' = w ∧ st = GEAS_OK ∧ st' = st ∨
  ci w' = <[c := with_txn (<[Z.to_nat s := TXN_DONE]> ts) ct]> (ci w) ∧
  (durable (ws w') = durable (ws w) ∨
   st' = GEAS_OK ∧ sub_all ct (u32 s) PLEDGE_FULFILLED = true ∧
   durable (ws w') = working (ws w) h).
Proof.
  clear Ho. intros -> Hok. unfold txn_after. rewrite (W_bind_run _ _ _ _ _ (get_inst_run _ _ _ Hc)).
  rewrite Hh, Ht, Hs, (proj2 (Z.ltb_ge s 0)), Hi by done. intros H.
  destruct (negb (st_ok st) || is_err out) eqn:Ef.
  - right. apply W_bind_inv in H as (r & w1 & H1 & H). apply in_store_inv in H1 as (s1 & Hr & ->).
    apply W_bind_inv in H as (u & w2 & H2 & H). unfold set_txn in H2. w_inv H2. w_inv H.
    simpl in *. simplify_eq. rewrite Ht. split; [done|]. left. by eapply rollback_durable.
  - apply orb_false_elim in Ef as [Est _]. apply negb_false_iff, st_ok_spec in Est as ->.
    destruct (sub_all ct (u32 s) PLEDGE_FULFILLED) eqn:Ea; [right|left; by w_inv H].
    apply W_bind_inv in H as (cs & w1 & H1 & H). apply in_store_inv in H1 as (s1 & Hcm & ->).
    apply W_bind_inv in H as (u & w2 & H2 & H). unfold set_txn in H2. w_inv H2.
    simpl in *. simplify_eq. destruct (st_ok cs) eqn:Ecs; simpl in H.
    + apply st_ok_spec in Ecs as ->. w_inv H. simpl. rewrite Ht. split; [done|]. right.
      split_and!; auto. by apply (commit_ok _ _ _ Hcm), Hok.
    + apply W_bind_inv in H as (r & w3 & H3 & H). apply in_store_inv in H3 as (s3 & Hr & ->).
      w_inv H. simpl in *. rewrite Ht. split; [done|]. left.
      apply rollback_durable in Hr as ->. apply commit_refused in Hcm; [done|]. by intros ->.
Qed.
End Step.

(** Latching and recomputing the state touch neither the store nor the episode. *)
Lemma latch_policy_inv i out w u w' ct :
  ci w !! c = Some ct →
  (latch_pledge c i out;; upd_inst c eval_policy) w = WRet u w' →
  ws w' = ws w ∧ ∃ ct', ci w' !! c = Some ct' ∧ c_store ct' = c_store ct ∧
    c_sub_txn ct' = c_sub_txn ct ∧ c_desc ct' = c_desc ct.
Proof.
  intros Hc H. apply W_bind_inv in H as (u1 & w1 & H1 & H2).
  assert (K : ws w1 = ws w ∧ ∃ ct', ci w1 !! c = Some ct' ∧ c_store ct' = c_store ct ∧
    c_sub_txn ct' = c_sub_txn ct ∧ c_desc ct' = c_desc ct).
  { unfold latch_pledge in H1. w_inv H1. simplify_eq.
    destruct (c_pledge_state ct) as [ls|]; [|w_inv H1; eauto 10].
    destruct (_ <=? i)%nat; [w_inv H1; eauto 10|].
    destruct (ls !! i) as [[]|]; try done; try (w_inv H1; eauto 10).
    destruct (is_err out).
    - w_inv H1. simplify_eq. destruct (as_box out =? 0); w_inv H1; simpl in *; simplify_map_eq;
        (split; [done|]); eexists; (split; [by simplify_map_eq|done]).
    - w_inv H1. simplify_eq. split; [done|]. eexists. split; [by simplify_map_eq|done]. }
  destruct K as (Ew & ct1 & Hc1 & Es & Et & Ed). apply upd_inst_inv in H2 as (ct2 & Hc2 & ->).
  rewrite Hc1 in Hc2. injection Hc2 as <-. simpl. split; [done|].
  eexists. split; [apply lookup_insert_eq|].
  destruct (eval_policy_is_state ct1) as [x ->]. done.
Qed.

(** One gated run of a pledge of the subcontract. *)
Lemma run_pledge_episode fulfill i fn frame nargs w t st out w' :
  ep w t → 0 <= s → (∀ ct, ci w !! c = Some ct → pledge_txn_sub (c_desc ct) i = s) →
  local_body c (code fn c frame nargs) →
  run_pledge dfuel code fulfill c i fn frame nargs w = WRet (st, out) w' →
  ∃ t', ep w' t' ∧
    (t = TXN_DONE → st = GEAS_ERR_STATE ∧ out = None ∧ w' = w) ∧
    (durable (ws w') = durable (ws w) ∨ t' = TXN_DONE ∧ st = GEAS_OK ∧ all_fulfilled w').
Proof.
  intros (ct & ts & h & Hc & Hh & Ht & Hi & Ho) Hs0 Hsub Hloc H. specialize (Hsub _ Hc).
  unfold run_pledge in H. apply W_bind_inv in H as (g & w1 & Hb & H).
  destruct (txn_before_inv i w ct ts h t Hc Hh Ht Hi Ho Hs0 Hsub _ _ Hb)
    as [(Hg & Eci & Ed & Hop & Hd)|(-> & Hnd & Hci1 & Hin1 & Hd1)].
  { destruct (st_ok g) eqn:E; [by apply st_ok_spec in E|]. simpl in H. w_inv H.
    exists t. split_and!; [exists ct, ts, h; by rewrite Eci|by intros [-> ->]%Hd|by left]. }
  simpl in H. apply W_bind_inv in H as ([bst bout] & w2 & Hrun & H).
  set (ct1 := with_txn (<[Z.to_nat s := TXN_OPEN]> ts) ct) in *.
  assert (Hc1 : ci w1 !! c = Some ct1) by (rewrite Hci1; apply lookup_insert_eq).
  destruct (run_local fulfill _ w1 bst bout w2 ct1 h Hloc Hc1 Hh Hin1 Hrun) as (Hci2 & Hd2 & Hin2).
  apply W_bind_inv in H as (u & w3 & Hlat & H).
  assert (K : ws w3 = ws w2 ∧ ∃ ct3, ci w3 !! c = Some ct3 ∧ c_store ct3 = Some h ∧
    c_sub_txn ct3 = Some (<[Z.to_nat s := TXN_OPEN]> ts) ∧ c_desc ct3 = c_desc ct).
  { rewrite <- Hci2 in Hc1. destruct (st_ok bst).
    - apply (latch_policy_inv _ _ _ _ _ ct1) in Hlat as (E & ct3 & ? & E1 & E2 & E3); [|done].
      split; [done|]. exists ct3. by rewrite E1, E2, E3.
    - w_inv Hlat. split; [done|]. by exists ct1. }
  destruct K as (Ews3 & ct3 & Hc3 & Hh3 & Ht3 & Hdesc3).
  assert (Hi3 : <[Z.to_nat s := TXN_OPEN]> ts !! Z.to_nat s = Some TXN_OPEN).
  { apply list_lookup_insert_eq. by eapply lookup_lt_Some. }
  apply W_bind_inv in H as (st4 & w4 & Haft & H). w_inv H.
  assert (Hs3 : pledge_txn_sub (c_desc ct3) i = s) by (by rewrite Hdesc3).
  assert (Hin3 : bst = GEAS_OK → in_txn (ws w3) h = true) by (rewrite Ews3; done).
  destruct (txn_after_inv i w3 ct3 _ h TXN_OPEN Hc3 Hh3 Ht3 Hi3 Hs0 Hs3 _ _ _ _ eq_refl Hin3 Haft)
    as [(-> & -> & ->)|(Hci4 & Hd4)].
  - exists TXN_OPEN. split_and!; [|done|].
    + exists ct3, (<[Z.to_nat s := TXN_OPEN]> ts), h. split_and!; auto.
    + left. by rewrite Ews3, Hd2, Hd1.
  - exists TXN_DONE. split_and!; [|done|].
    + eexists _, _, h. rewrite Hci4, lookup_insert_eq. split_and!; [done|done|done| |done].
      apply list_lookup_insert_eq. by eapply lookup_lt_Some.
    + destruct Hd4 as [E|(-> & Hall & _)]; [left; by rewrite E, Ews3, Hd2, Hd1|right].
      split_and!; auto. eexists. rewrite Hci4, lookup_insert_eq. split; [done|].
      rewrite sub_all_spec in *. done.
Qed.

(** One fulfillment of a pledge of the subcontract. *)
Lemma fulfill_episode fuel name args nargs refs w t r w' :
  ep w t → 0 <= s →
  (∀ ct i, ci w !! c = Some ct → find_pledge (c_desc ct) name = Some i → pledge_txn_sub (c_desc ct) i = s) →
  (∀ fn frame n, local_body c (code fn c frame n)) →
  fulfill_inline dfuel code callback fuel c name args nargs refs w = WRet r w' →
  ∃ t', ep w' t' ∧
    (t = TXN_DONE → t' = TXN_DONE ∧ ci w' = ci w ∧ ws w' = ws w ∧ r.1 ≠ GEAS_OK) ∧
    (durable (ws w') = durable (ws w) ∨ t' = TXN_DONE ∧ all_fulfilled w').
Proof.
  intros Hep Hs0 Hsub Hloc H. destruct fuel as [|fuel]; [done|]. cbn [fulfill_inline] in H.
  destruct (Hep) as (ct & ts & h & Hc & Hrest).
  rewrite (W_bind_run _ _ _ _ _ (get_inst_run _ _ _ Hc)) in H.
  assert (Stay : ∀ m, ep (set_wm m w) t).
  { intros m. by exists ct, ts, h. }
  destruct (fulfill_checks ct name args nargs refs) as [st i] eqn:Ec.
  destruct (st_ok st) eqn:Est; simpl in H; cycle 1.
  { w_inv H. exists t. split_and!; auto. intros ->. split_and!; auto. simpl.
    by intros ->. }
  apply st_ok_spec in Est as ->.
  apply W_bind_inv in H as ([st1 frame] & w1 & Hm & H). apply in_mem_inv in Hm as (m1 & Hm & ->).
  destruct (st_ok st1) eqn:Est1; simpl in H; cycle 1.
  { w_inv H. exists t. split_and!; auto. intros ->. split_and!; auto. simpl. by intros ->. }
  destruct (c_fns ct !! i) as [fn|]; [|done].
  assert (Hfp : find_pledge (c_desc ct) name = Some i).
  { unfold fulfill_checks in Ec. destruct (_ || _); [done|]. destruct (negb _); [done|].
    destruct (find_pledge (c_desc ct) name) as [j|]; [|done].
    destruct (d_pledges (c_desc ct) !! j); [|done]. destruct (negb _); [done|]. by simplify_eq. }
  apply W_bind_inv in H as ([st2 out] & w2 & Hrun & H).
  eapply run_pledge_episode in Hrun as (t' & Hep' & Hdone & Hdur); [|apply Stay|done| |apply Hloc].
  2: { simpl. intros ct' Hc'. simplify_eq. by eapply Hsub. }
  simpl in Hdone, Hdur.
  assert (Fin : ci w' = ci w2 ∧ ws w' = ws w2 ∧ (out = None → st2 ≠ GEAS_OK → r.1 ≠ GEAS_OK)).
  { destruct out as [out|].
    - destruct (negb (st_ok st2)); [by w_inv H|]. destruct (_ && _); [|by w_inv H].
      apply W_bind_inv in H as (wb & w3 & Hw & H). apply in_mem_inv in Hw as (m3 & _ & ->).
      destruct (st_ok wb); by w_inv H.
    - by w_inv H. }
  destruct Fin as (E1 & E2 & E3). exists t'. split_and!.
  - destruct Hep' as (x & y & z & ?). exists x, y, z. by rewrite E1, E2.
  - intros Hd. destruct (Hdone Hd) as (-> & -> & ->). simpl in *.
    split_and!; [|by rewrite E1|by rewrite E2|auto].
    destruct Hep' as (x & y & z & Hx & _ & Hy & Hz & _). destruct Hrest as (_ & Hts & Hti & _).
    simpl in Hx. simplify_eq. done.
  - destruct Hdur as [E|(-> & -> & Hall)]; [left; by rewrite E2|right]. split; [done|].
    destruct Hall as (x & Hx & ?). exists x. by rewrite E1.
Qed.
End Episode.

(** ** One fulfillment outside any episode, functionally *)

Section Outcome.
Context `{SA : StoreApi}.
Context (dfuel : nat) (code : Z → Z → Z → Z → body) (callback : Z → Z → GeasValue → Z → M unit).

(** What [geas_vow_ref] answers for an instance. *)
Definition vow_slot (ct : GeasContract) (name : string) : option (Z * nat) :=
  if c_vow_vals ct =? 0 then None else (λ i, (c_vow_vals ct, i)) <$> find_vow_desc (c_desc ct) name.

Lemma vow_ref_run c name w ct : c ≠ 0 → ci w !! c = Some ct →
  geas_vow_ref c (Some name) w = WRet (vow_slot ct name) w.
Proof.
  intros Hc Hct. unfold geas_vow_ref, vow_slot. rewrite (proj2 (Z.eqb_neq c 0)) by done.
  rewrite (W_bind_run _ _ _ _ _ (get_inst_run _ _ _ Hct)).
  destruct (_ =? 0); [done|]. by destruct (find_vow_desc _ _).
Qed.

(** The weakest precondition of a body that stays inside its own instance: it
    computes over memory, finds its own vows' slots and runs statements on its own
    connection.  It is [False] of a body that calls back into the runtime to
    fulfill, sign or break; a run of such a body is spoken of through [run_body]. *)
Fixpoint body_wp (c : Z) (ct : GeasContract) (Q : GeasStatus → GeasValue → mem → Prop) (b : body) (m : mem) : Prop :=
  match b with
  | BRet st out => Q st out m
  | BMem f k => wp f m (λ v m', body_wp c ct Q (k v) m')
  | BVow x name k => x = c ∧ c ≠ 0 ∧ body_wp c ct Q (k (vow_slot ct name)) m
  | BStore x q k => x = c ∧ ∀ st, body_wp c ct Q (k st) m
  | _ => False
  end.

(** The instance after pledge [i] produced [out]; [e] is the payload behind an
    Err's box. *)
Definition latched_inst (ct : GeasContract) (i : nat) (out e : GeasValue) : GeasContract :=
  match c_pledge_state ct with
  | Some ls =>
      match ls !! i with
      | Some PLEDGE_PENDING =>
          if is_err out then
            let ct' := with_latches (<[i := PLEDGE_BROKEN]> ls) ct in
            if as_box out =? 0 then ct' else with_errs (<[i := e]> (c_pledge_err ct)) ct'
          else with_latches (<[i := PLEDGE_FULFILLED]> ls) ct
      | _ => ct
      end
  | None => ct
  end.

Definition payload_at (m : mem) (out e : GeasValue) : Prop :=
  is_err out = true → as_box out ≠ 0 → ∃ ss, heap m !! as_box out = Some (BVals (e :: ss)).

Lemma latch_pledge_run c i out e w ct ls :
  ci w !! c = Some ct → latched ct ls → (i < length ls)%nat → payload_at (wm w) out e →
  latch_pledge c i out w = WRet tt (set_ci (λ m, <[c := latched_inst ct i out e]> m) w).
Proof.
  intros Hc [Hs Hl] Hi Hp. unfold latch_pledge, latched_inst.
  rewrite (W_bind_run _ _ _ _ _ (get_inst_run _ _ _ Hc)). rewrite Hs.
  rewrite (proj2 (Nat.leb_gt _ _)) by lia.
  assert (Same : mret (M := W) tt w = WRet tt (set_ci (λ m, <[c := ct]> m) w)).
  { unfold mret, W_ret, set_ci. rewrite insert_id by done. by destruct w. }
  destruct (lookup_lt_is_Some_2 ls i Hi) as [[] ->]; try done.
  destruct (is_err out) eqn:Ee; [|by rewrite (upd_inst_run _ _ _ _ Hc)].
  rewrite (W_bind_run _ _ _ _ _ (upd_inst_run _ _ _ _ Hc)).
  destruct (Z.eqb_spec (as_box out) 0) as [|Hb]; [done|].
  destruct (Hp Ee Hb) as (ss & Hss). unfold mbind, W_bind, in_mem. simpl.
  unfold load_slot. rewrite Hss. simpl. unfold upd_inst. simpl. rewrite lookup_insert_eq.
  unfold set_ci. simpl. by rewrite insert_insert_eq.
Qed.

Lemma run_body_wp c Q b w ct fulfill :
  ci w !! c = Some ct → body_wp c ct Q b (wm w) →
  ∃ st out w', run_body dfuel fulfill b w = WRet (st, out) w' ∧ ci w' = ci w ∧
    instances w' = instances w ∧ Q st out (wm w').
Proof.
  revert w. induction b as [st out|f k IH|x name k IH|x q k IH| | |]; intros w Hc Hb; try done.
  - exists st, out, w. by split_and!.
  - cbn [run_body]. simpl in Hb. apply wp_run in Hb as (v & m & Hf & Hb).
    destruct (IH v (set_wm m w) Hc Hb) as (st & out & w' & Hr & ? & ? & ?).
    exists st, out, w'. rewrite (W_bind_run _ _ _ _ _ (in_mem_run _ _ _ _ Hf)). by split_and!.
  - destruct Hb as (-> & Hc0 & Hb). cbn [run_body]. rewrite (W_bind_run _ _ _ _ _ (vow_ref_run _ _ _ _ Hc0 Hc)).
    by apply IH.
  - destruct Hb as [-> Hb]. cbn [run_body]. rewrite (W_bind_run _ _ _ _ _ (get_inst_run _ _ _ Hc)).
    destruct (c_store ct) as [h|]; [|by apply IH].
    destruct (store_exec h q (ws w)) as [st s] eqn:Es.
    rewrite (W_bind_run _ _ _ _ _ (in_store_run _ _ _ _ Es)).
    destruct (IH st (set_ws s w) Hc (Hb st)) as (st' & out & w' & ? & ? & ? & ?). eauto 10.
Qed.

(** A pledge of no transactional subcontract, or an instance with no store. *)
Definition no_episode (ct : GeasContract) (i : nat) : Prop :=
  pledge_txn_sub (c_desc ct) i < 0 ∨ c_sub_txn ct = None ∨ c_store ct = None.

Lemma txn_before_none c i w ct :
  ci w !! c = Some ct → no_episode ct i → txn_before c i w = WRet GEAS_OK w.
Proof.
  intros Hc H. unfold txn_before. rewrite (W_bind_run _ _ _ _ _ (get_inst_run _ _ _ Hc)).
  destruct H as [H|[H|H]]; [apply Z.ltb_lt in H|..]; rewrite H; [|done|by destruct (c_sub_txn ct)].
  by destruct (c_sub_txn ct), (c_store ct).
Qed.
Lemma txn_after_none c i st out w ct :
  ci w !! c = Some ct → no_episode ct i → txn_after c i st out w = WRet st w.
Proof.
  intros Hc H. unfold txn_after. rewrite (W_bind_run _ _ _ _ _ (get_inst_run _ _ _ Hc)).
  destruct H as [H|[H|H]]; [apply Z.ltb_lt in H|..]; rewrite H; [|done|by destruct (c_sub_txn ct)].
  by destruct (c_sub_txn ct), (c_store ct).
Qed.

(** The instance a body's answer leads to. *)
Definition outcome_inst (ct : GeasContract) (i : nat) (st : GeasStatus) (out e : GeasValue) : GeasContract :=
  if st_ok st then eval_policy (latched_inst ct i out e) else ct.

Lemma latched_inst_same ct i out e :
  c_desc (latched_inst ct i out e) = c_desc ct ∧ c_store (latched_inst ct i out e) = c_store ct ∧
  c_sub_txn (latched_inst ct i out e) = c_sub_txn ct.
Proof.
  unfold latched_inst. destruct (c_pledge_state ct) as [ls|]; [|done].
  destruct (ls !! i) as [[]|]; try done. destruct (is_err out); [|done]. by destruct (as_box out =? 0).
Qed.

Lemma outcome_inst_same ct i st out e :
  c_desc (outcome_inst ct i st out e) = c_desc ct ∧ c_store (outcome_inst ct i st out e) = c_store ct ∧
  c_sub_txn (outcome_inst ct i st out e) = c_sub_txn ct.
Proof.
  unfold outcome_inst. destruct (st_ok st); [|done].
  destruct (eval_policy_is_state (latched_inst ct i out e)) as [x ->]. apply latched_inst_same.
Qed.

Lemma no_episode_le a b i : inst_le a b → no_episode a i → no_episode b i.
Proof.
  intros H [?|[?|?]]; [left; by rewrite (il_desc _ _ H)|right; left|right; right]; by apply H.
Qed.
Lemma latched_le a b ls : inst_le a b → latched a ls → ∃ ls', latched b ls' ∧ length ls' = length ls.
Proof.
  intros H [Hs Hl]. destruct (il_latch _ _ H _ Hs) as (ls' & Hs' & F).
  apply Forall2_length in F. exists ls'. split; [|done]. split; [done|]. rewrite (il_desc _ _ H). congruence.
Qed.

(** The rest of a run outside any episode, whatever the body did to the world: its
    instance is still there, further along, and takes the outcome. *)
Lemma run_pledge_outcome fulfill c i fn frame nargs w ct ls bst bout e w2 :
  (∀ c name args nargs refs, keeps (fulfill c name args nargs refs)) →
  ci w !! c = Some ct → latched ct ls → (i < length ls)%nat → no_episode ct i →
  run_body dfuel fulfill (code fn c frame nargs) w = WRet (bst, bout) w2 → payload_at (wm w2) bout e →
  ∃ ct', ci w2 !! c = Some ct' ∧ inst_le ct ct' ∧
    run_pledge dfuel code fulfill c i fn frame nargs w =
    WRet (bst, Some bout) (set_ci (λ m, <[c := outcome_inst ct' i bst bout e]> m) w2).
Proof.
  intros Hk Hc Hl Hi Hno Hr He.
  destruct (run_body_keeps dfuel fulfill _ Hk _ _ _ Hr _ _ Hc) as (ct' & Hc' & Hle).
  exists ct'. split_and!; [done..|]. unfold run_pledge.
  rewrite (W_bind_run _ _ _ _ _ (txn_before_none _ _ _ _ Hc Hno)). simpl.
  rewrite (W_bind_run _ _ _ _ _ Hr).
  destruct (latched_le _ _ _ Hle Hl) as (ls' & Hl' & Hlen).
  assert (Hi' : (i < length ls')%nat) by lia.
  pose proof (no_episode_le _ _ _ Hle Hno) as Hno'.
  destruct (outcome_inst_same ct' i bst bout e) as (E1 & E2 & E3).
  assert (Hrun : (if st_ok bst then latch_pledge c i bout;; upd_inst c eval_policy else mret tt) w2 =
    WRet tt (set_ci (λ m, <[c := outcome_inst ct' i bst bout e]> m) w2)).
  { unfold outcome_inst. destruct (st_ok bst).
    - rewrite (W_bind_run _ _ _ _ _ (latch_pledge_run _ _ _ _ _ _ _ Hc' Hl' Hi' He)).
      erewrite upd_inst_run by apply lookup_insert_eq. unfold set_ci. simpl. by rewrite insert_insert_eq.
    - unfold mret, W_ret, set_ci. rewrite insert_id by done. by destruct w2. }
  rewrite (W_bind_run _ _ _ _ _ Hrun). erewrite W_bind_run; [reflexivity|].
  eapply txn_after_none; [apply lookup_insert_eq|]. unfold no_episode. by rewrite E1, E2, E3.
Qed.

(** A gate that refuses: the episode is over, or its transaction cannot begin. *)
Lemma run_pledge_done fulfill c i fn frame nargs w ct h ts :
  ci w !! c = Some ct → c_store ct = Some h → c_sub_txn ct = Some ts →
  0 <= pledge_txn_sub (c_desc ct) i → ts !! Z.to_nat (pledge_txn_sub (c_desc ct) i) = Some TXN_DONE →
  run_pledge dfuel code fulfill c i fn frame nargs w = WRet (GEAS_ERR_STATE, None) w.
Proof.
  intros Hc Hh Ht Hs Hi. unfold run_pledge.
  erewrite W_bind_run with (a := GEAS_ERR_STATE) (w1 := w); [reflexivity|].
  unfold txn_before. rewrite (W_bind_run _ _ _ _ _ (get_inst_run _ _ _ Hc)), Ht, Hh.
  by rewrite (proj2 (Z.ltb_ge _ _)), Hi.
Qed.
Lemma run_pledge_begin fulfill c i fn frame nargs w ct h ts st s :
  ci w !! c = Some ct → c_store ct = Some h → c_sub_txn ct = Some ts →
  0 <= pledge_txn_sub (c_desc ct) i → ts !! Z.to_nat (pledge_txn_sub (c_desc ct) i) = Some TXN_NONE →
  geas_store_begin h (ws w) = (st, s) → st ≠ GEAS_OK →
  run_pledge dfuel code fulfill c i fn frame nargs w = WRet (st, None) (set_ws s w).
Proof.
  intros Hc Hh Ht Hs Hi Hb Hst. unfold run_pledge.
  assert (E : st_ok st = false) by (apply not_true_is_false; by intros ?%st_ok_spec).
  erewrite W_bind_run with (a := st) (w1 := set_ws s w); [by rewrite E|].
  unfold txn_before. rewrite (W_bind_run _ _ _ _ _ (get_inst_run _ _ _ Hc)), Ht, Hh.
  rewrite (proj2 (Z.ltb_ge _ _)), Hi by done. rewrite (W_bind_run _ _ _ _ _ (in_store_run _ _ _ _ Hb)).
  by rewrite E.
Qed.
End Outcome.
