(* ===== verification/Task.v ===== *)
(** * Queued fulfillment

    [runtime.c]: [future_new], [future_unref], [future_release], [pool_enqueue],
    one turn of [pool_worker], [run_task], [geas_pledge_fulfill],
    [geas_future_wait], the host thread's [geas_pledge_fulfill_sync] and
    [geas_runtime_shutdown].  Each is the sequence of its critical sections run
    without interruption, over the world of [Lifecycle]; [Pool] interleaves
    them. *)
From S2P Require Import Prelude Abi Memory Value Iname Frame Policy Store Future Lifecycle.

Section Task.
Context `{SA : StoreApi}.
Context (dfuel : nat).
Context (code : Z → Z → Z → Z → body).
Context (callback : Z → Z → GeasValue → Z → M unit).

Definition sizeof_future : Z := 240.
Definition sizeof_GeasRef : Z := 40.

(** ** Holds on a future *)

(** The zeroed struct, its mutex and its condition variable; each refusal undoes
    what came before it. *)
Definition future_alloc : M bool :=
  ok <- sys_alloc sizeof_future;
  if negb ok then ret false else
  mu <- pthread_init;
  if negb mu then ret false else pthread_init.

(** A fresh future at the head of its instance's list; 0 when it cannot be had. *)
Definition link_future (c : Z) : W Z := λ w,
  let f := 1 + max_key (futs w) in
  WRet f (set_links (λ l, <[c := f :: default [] (l !! c)]> l)
           (set_futs (λ m, <[f := fresh_future c]> m) w)).
Definition future_new (c : Z) : W Z :=
  ok ← in_mem future_alloc;
  if negb ok then mret 0 else link_future c.

Definition future_free (f : Z) : W unit := λ w, WRet tt (set_futs (delete f) w).

Definition future_unref (f : Z) : W unit :=
  x ← get_fut f;
  let left := u32 (fu_refcnt x - 1) in
  upd_fut f (with_refcnt left);;
  if left =? 0 then future_free f else mret tt.

(** Takes [f] off its instance's list, when it is on it. *)
Fixpoint unlink (f : Z) (l : list Z) : list Z :=
  match l with
  | [] => []
  | g :: l' => if g =? f then l' else g :: unlink f l'
  end.
Definition future_release (f : Z) : W unit :=
  x ← get_fut f;
  l ← get_links (fu_c x);
  (λ w, WRet tt (set_links (λ m, <[fu_c x := unlink f l]> m) w));;
  future_unref f.

(** ** The queue *)

Definition pool_enqueue (f : Z) : W unit := λ w, WRet tt (set_queue (queue w ++ [f]) w).

(** The worker's run under the instance lock. *)
Definition run_task (fuel : nat) (f : Z) : W unit :=
  x ← get_fut f;
  ct ← get_inst (fu_c x);
  if negb (state_live (c_state ct)) then upd_fut f (future_finish GEAS_ERR_STATE None) else
  '(st, out) ← run_pledge dfuel code (fulfill_inline dfuel code callback fuel)
                 (fu_c x) (fu_pidx x) (fu_fn x) (fu_frame x) (fu_nargs x);
  upd_fut f (future_finish st out).

(** One turn of a worker; false when there was nothing to take. *)
Definition pool_worker (fuel : nat) : W bool := λ w,
  match queue w with
  | [] => WRet false w
  | f :: q => (run_task fuel f;; future_unref f;; mret true) (set_queue q w)
  end.

Fixpoint pool_drain (fuel n : nat) : W unit :=
  match n with
  | O => mret tt
  | S n' => more ← pool_worker fuel; if more : bool then pool_drain fuel n' else mret tt
  end.

(** ** Fulfill and wait *)

(** The copy-in half, after the checks passed: the reference array, the frame,
    the task. *)
Definition prepare_task (c f : Z) (pidx : nat) (nargs args : Z) (refs : list GeasRef) : W GeasStatus :=
  let n := Z.of_nat (length refs) in
  p ← (if 0 <? n then in_mem (geas_bytes KBytes c (u64 (n * sizeof_GeasRef))) else mret 1);
  if p =? 0 then mret GEAS_ERR_OOM else
  (if 0 <? n then upd_fut f (with_refs p refs) else mret tt);;
  '(st, frame) ← in_mem (prepare_frame dfuel c args nargs refs);
  if negb (st_ok st) then mret st else
  ct ← get_inst c;
  match c_fns ct !! pidx with
  | None => wundef
  | Some fn =>
      upd_fut f (with_task fn pidx frame (u64 (nargs + n))
        (if (0 <? n) && negb (frame =? 0) then frame else 0) (Z.to_nat nargs));;
      mret GEAS_OK
  end.

(** The future's address, 0 for NULL. *)
Definition geas_pledge_fulfill (c : Z) (name : option string) (args nargs : Z) (refs : ref_arg) : W Z :=
  match name with
  | None => mret 0
  | Some name =>
      if c =? 0 then mret 0 else
      f ← future_new c;
      if f =? 0 then mret 0 else
      ct ← get_inst c;
      let '(st, pidx) := fulfill_checks ct name args nargs refs in
      st ← (if st_ok st then prepare_task c f pidx nargs args (refs_of refs) else mret st);
      if negb (st_ok st) then upd_fut f (future_finish st None);; mret f else
      upd_fut f (with_refcnt 2);; pool_enqueue f;; mret f
  end.

(** [None] is a wait still blocked; the value is [None] when [out] was not
    written. *)
Definition geas_future_wait (f : Z) : W (option (GeasStatus * option GeasValue)) :=
  if f =? 0 then mret (Some (GEAS_ERR_TYPE, None)) else
  x ← get_fut f;
  if negb (fu_done x) then mret None else
  if fu_waited x then mret (Some (GEAS_ERR_STATE, None)) else
  upd_fut f with_waited;;
  if st_ok (fu_status x) && (0 <? fu_nrefs x) && negb (fu_slots x =? 0) then
    in_mem (load_block (fu_refs x));;
    wb ← in_mem (write_back_refs callback (fu_refv x) (fu_slots x) (fu_off x));
    if negb (st_ok wb) then mret (Some (wb, None)) else mret (Some (fu_status x, Some (fu_value x)))
  else mret (Some (fu_status x, Some (fu_value x))).

(** From a host thread: fulfill, [n] worker turns, wait, release. *)
Definition fulfill_sync_queued (fuel n : nat) (c : Z) (name : option string) (args nargs : Z)
    (refs : ref_arg) : W (GeasStatus * GeasValue) :=
  if (c =? 0) || bool_decide (name = None) then mret (GEAS_ERR_TYPE, gzero) else
  f ← geas_pledge_fulfill c name args nargs refs;
  if f =? 0 then mret (GEAS_ERR_OOM, gzero) else
  pool_drain fuel n;;
  r ← geas_future_wait f;
  match r with
  | None => wnofuel
  | Some (st, v) => future_release f;; mret (st, default gzero v)
  end.

(** ** Shutdown

    After the workers joined: every linked future freed, each connection closed,
    each instance's heap and struct gone. *)
Fixpoint free_futures (fs : list Z) : W unit :=
  match fs with
  | [] => mret tt
  | f :: fs' => get_fut f;; future_free f;; free_futures fs'
  end.

Fixpoint free_instances (cs : list Z) : W unit :=
  match cs with
  | [] => mret tt
  | c :: cs' => fs ← get_links c; free_futures fs;; drop_instance c;; free_instances cs'
  end.

Definition get_instances : W (list Z) := λ w, WRet (instances w) w.

(** Drain and join, then the instances, then the module images.  The iname table
    and the runtime struct are freed with it and nothing reads them after. *)
Definition geas_runtime_shutdown (fuel n : nat) : W unit :=
  pool_drain fuel n;;
  cs ← get_instances;
  free_instances cs;;
  r ← get_rt;
  put_rt (foldl (λ r h, close_handle h r) r (modules r)).
End Task.
