(* ===== verification/SignSpec.v ===== *)
(** * What sign promises

    The vow array against a pure account of which value each vow takes
    ([vow_values]), the instance under construction ([building]), and the
    failure exit that leaves the world as it was. *)
From S2P Require Import Prelude Abi Memory Value ValueSpec Iname Policy Store Lifecycle LifecycleSpec.

(** ** Which value each vow takes *)

(** The overrides in order, a later one for the same vow winning. *)
Fixpoint overrides (d : GeasContractDesc) (vows : list GeasVowBinding) (ts : list val)
    (asg : list (option val)) : GeasStatus * list (option val) :=
  match vows, ts with
  | b :: vows', t :: ts' =>
      match vb_name b with
      | None => (GEAS_ERR_NAME, asg)
      | Some n =>
          match find_vow_desc d n with
          | None => (GEAS_ERR_NAME, asg)
          | Some slot =>
              match d_vows d !! slot with
              | None => (GEAS_ERR_NAME, asg)
              | Some vd =>
                  if negb (ty (vb_value b) =? v_ty vd) || (ty (vb_value b) =? tag_num GEAS_TY_INSTANCE)
                  then (GEAS_ERR_TYPE, asg)
                  else overrides d vows' ts' (<[slot := Some t]> asg)
              end
          end
      end
  | _, _ => (GEAS_OK, asg)
  end.

(** A vow without an override takes its default. *)
Fixpoint defaults (vds : list GeasVowDesc) (ts : list val) (j : nat) (asg : list (option val))
    : GeasStatus * list (option val) :=
  match vds, ts with
  | vd :: vds', t :: ts' =>
      match asg !! j with
      | Some (Some _) => defaults vds' ts' (S j) asg
      | _ =>
          if v_has_default vd =? 0 then (GEAS_ERR_UNBOUND, asg) else
          if ty (v_default vd) =? tag_num GEAS_TY_INSTANCE then (GEAS_ERR_TYPE, asg) else
          defaults vds' ts' (S j) (<[j := Some t]> asg)
      end
  | _, _ => (GEAS_OK, asg)
  end.

Definition vow_values (d : GeasContractDesc) (vows : list GeasVowBinding) (ts dts : list val)
    : GeasStatus * list (option val) :=
  let n := length (d_vows d) in
  if (n =? 0)%nat then (if (length vows =? 0)%nat then GEAS_OK else GEAS_ERR_NAME, []) else
  if (GEAS_MAX_CONTRACT_TYPES <? n)%nat then (GEAS_ERR_OOM, []) else
  let '(st, asg) := overrides d vows ts (replicate n None) in
  if st_ok st then defaults (d_vows d) dts 0 asg else (st, asg).

(** ** The vow array *)

Section Vows.
Context (dfuel : nat) (c : Z) (m : mem) (d : GeasContractDesc) (vals : Z).

(** Slot by slot: the array is new, and an assigned slot stands for its value. *)
Definition vow_array (ds : list GeasValue) (hd : gmap Z block) (asg : list (option val)) (m1 : mem) : Prop :=
  grown c m (<[vals := BVals ds]> hd) m1 ∧ hd !! vals = None ∧ live c m ∧
  length ds = length asg ∧
  ∀ j t, asg !! j = Some (Some t) → ∃ s, ds !! j = Some s ∧ repr hd s (scrub t).

Lemma wp_put_vow ds hd asg m1 i v t :
  vow_array ds hd asg m1 → (i < length asg)%nat → repr (heap m) v t → (height t ≤ dfuel)%nat →
  wp (put_vow dfuel c vals i v) m1 (λ st m2, ∃ ds' hd',
    if ty v =? tag_num GEAS_TY_INSTANCE then st = GEAS_ERR_TYPE ∧ vow_array ds' hd' asg m2
    else st = GEAS_OK ∧ vow_array ds' hd' (<[i := Some t]> asg) m2 ∨
         st = GEAS_ERR_OOM ∧ refused m m2 ∧ ∃ hn, grown c m hn m2).
Proof.
  intros (G & Hv & Hl & Hlen & Hasg) Hi Hr Hh. unfold put_vow, copy_vow_value.
  assert (Hdl : heap m1 !! vals = Some (BVals ds)).
  { eapply lookup_weaken; [|eapply grown_incl_new; eauto]. apply lookup_insert_eq. }
  destruct (lookup_lt_is_Some_2 ds i) as [d0 Hd0]; [lia|].
  apply wp_bind. eapply wp_load_slot; [exact Hdl|exact Hd0|]. apply wp_bind.
  destruct (Z.eqb_spec (ty v) (tag_num GEAS_TY_INSTANCE)) as [E|E].
  - apply wp_ret. apply wp_bind. eapply wp_store_slot; [exact Hdl|lia|]. apply wp_ret.
    exists (<[i := d0]> ds), hd. split; [done|].
    rewrite (list_insert_id ds i d0) by done. split_and!; try done.
    pose proof (grown_update _ _ _ _ vals _ (BVals ds) G (lookup_insert_eq _ _ _)) as G'.
    by rewrite insert_insert_eq in G'.
  - eapply wp_mono.
    { apply (wp_deep_copy t dfuel c Hh); [by eapply gr_wf|by eapply grown_live|].
      eapply repr_mono; [by eapply grown_incl|exact Hr]. }
    intros [st dv] m2 (h2 & G2 & Hres). simpl in Hres. apply wp_bind.
    eapply wp_store_slot; [eapply lookup_weaken; [exact Hdl|by eapply grown_incl]|lia|]. apply wp_ret.
    destruct (fill_grown _ _ _ _ _ _ _ _ i dv G Hv G2) as [G3 Hn].
    assert (Hmono : hd ⊆ h2 ∪ hd).
    { apply map_union_subseteq_r. pose proof (gr_fresh _ _ _ _ G2) as F.
      rewrite (gr_heap _ _ _ _ G) in F. apply map_disjoint_union_r in F as [F _].
      by apply map_disjoint_insert_r in F as [_ ?]. }
    destruct Hres as [[-> Hrep]|[-> Href]].
    + exists (<[i := dv]> ds), (h2 ∪ hd). left. split; [done|]. split_and!; try done.
      { by rewrite !length_insert. }
      intros j tj Hj. destruct (decide (i = j)) as [<-|Hne].
      * rewrite list_lookup_insert_eq in Hj by done. injection Hj as <-. exists dv.
        rewrite list_lookup_insert_eq by lia. split; [done|].
        eapply repr_mono; [apply map_union_subseteq_l|done].
      * rewrite list_lookup_insert_ne in Hj by done. destruct (Hasg j tj Hj) as (s & Hs & Hsr).
        exists s. rewrite list_lookup_insert_ne by done. split; [done|]. by eapply repr_mono.
    + exists ds, hd. right. split; [done|]. split; [|eauto].
      destruct (refused_trans_r _ _ _ _ _ G Href) as (k & z & ? & ?). exists k, z. by split.
Qed.

Definition bound_for (bound : list bool) (asg : list (option val)) : Prop :=
  ∀ j, (j < length asg)%nat → default false (bound !! j) = bool_decide (is_Some (default None (asg !! j))).

Lemma find_index_lt {A} (f : A → bool) l i : find_index f l = Some i → (i < length l)%nat.
Proof.
  revert i. induction l as [|x l IH]; intros i; simpl; [done|]. destruct (f x); [intros [= <-]; lia|].
  destruct (find_index f l) as [j|]; [|done]. intros [= <-]. specialize (IH j eq_refl). lia.
Qed.

Lemma wp_bind_overrides vows ts : Forall2 (λ b t, repr (heap m) (vb_value b) t ∧ (height t ≤ dfuel)%nat) vows ts →
  ∀ bound asg ds hd m1, vow_array ds hd asg m1 → length asg = length (d_vows d) →
  (length asg ≤ length bound)%nat → bound_for bound asg →
  wp (bind_overrides dfuel c vals d vows bound) m1 (λ '(st, bound') m2,
    let '(st', asg') := overrides d vows ts asg in
    (∃ hn, grown c m hn m2) ∧
    (st = st' ∧ (∃ ds' hd', vow_array ds' hd' asg' m2) ∧ bound_for bound' asg' ∧ length asg' = length asg ∨
     st = GEAS_ERR_OOM ∧ refused m m2)).
Proof.
  induction 1 as [|b t vows ts [Hr Hh] _ IH]; intros bound asg ds hd m1 Hva Hlen Hbl Hb;
    cbn [bind_overrides overrides].
  { apply wp_ret. split; [destruct Hva as (G & _); eauto|]. left. split_and!; eauto. }
  assert (Stop : ∀ st bb, bb = bound → wp (ret (st, bb)) m1 (λ '(st0, bound') m2,
    (∃ hn, grown c m hn m2) ∧ (st0 = st ∧ (∃ ds' hd', vow_array ds' hd' asg m2) ∧ bound_for bound' asg ∧
      length asg = length asg ∨ st0 = GEAS_ERR_OOM ∧ refused m m2))).
  { intros st bb ->. apply wp_ret. split; [destruct Hva as (G & _); eauto|]. left. split_and!; eauto. }
  destruct (vb_name b) as [n|]; [|by apply Stop].
  destruct (find_vow_desc d n) as [slot|] eqn:Ef; [|by apply Stop].
  assert (Hslot : (slot < length (d_vows d))%nat) by (by eapply find_index_lt).
  destruct (lookup_lt_is_Some_2 _ _ Hslot) as [vd Hvd]. rewrite Hvd.
  destruct (ty (vb_value b) =? v_ty vd) eqn:Ety; cbn [negb orb]; [|by apply Stop].
  apply wp_bind. eapply wp_mono; [by eapply wp_put_vow; [exact Hva|lia|..]|].
  intros st m2 (ds' & hd' & Hres). destruct (ty (vb_value b) =? tag_num GEAS_TY_INSTANCE).
  - destruct Hres as [-> Hva']. simpl. apply wp_ret. split; [destruct Hva' as (G & _); eauto|].
    left. split_and!; eauto.
  - destruct Hres as [[-> Hva']|(-> & Href & G)]; simpl.
    + eapply wp_mono; [eapply (IH _ (<[slot := Some t]> asg)); [exact Hva'|..]|].
      * by rewrite length_insert.
      * by rewrite !length_insert.
      * intros j Hj. rewrite length_insert in Hj. destruct (decide (slot = j)) as [<-|Hne].
        -- rewrite !list_lookup_insert_eq by lia. done.
        -- rewrite !list_lookup_insert_ne by done. by apply Hb.
      * intros [st' bb] m3. destruct (overrides d vows ts _) as [st2 asg'].
        rewrite length_insert. done.
    + apply wp_ret. destruct (overrides d vows ts _). split; [done|]. by right.
Qed.

Lemma wp_bind_defaults vds ts : Forall2 (λ vd t, v_has_default vd ≠ 0 →
    repr (heap m) (v_default vd) t ∧ (height t ≤ dfuel)%nat) vds ts →
  ∀ j bound asg ds hd m1, vow_array ds hd asg m1 → (j + length vds)%nat = length asg →
  (∀ k, (j ≤ k < length asg)%nat →
    default false (bound !! k) = bool_decide (is_Some (default None (asg !! k)))) →
  wp (bind_defaults dfuel c vals vds j bound) m1 (λ st m2,
    let '(st', asg') := defaults vds ts j asg in
    (∃ hn, grown c m hn m2) ∧
    (st = st' ∧ (∃ ds' hd', vow_array ds' hd' asg' m2) ∨ st = GEAS_ERR_OOM ∧ refused m m2)).
Proof.
  induction 1 as [|vd t vds ts Hr _ IH]; intros j bound asg ds hd m1 Hva Hlen Hb;
    cbn [bind_defaults defaults].
  { apply wp_ret. split; [destruct Hva as (G & _); eauto|]. left. eauto. }
  simpl in Hlen. destruct (lookup_lt_is_Some_2 asg j) as [o Ho]; [lia|].
  rewrite (Hb j) by lia. rewrite Ho. simpl default. destruct o as [t0|].
  { rewrite bool_decide_true by (by eexists). eapply IH; [exact Hva|lia|]. intros k Hk. apply Hb. lia. }
  rewrite bool_decide_false by (by intros [? ?]).
  destruct (Z.eqb_spec (v_has_default vd) 0) as [E|E].
  { apply wp_ret. split; [destruct Hva as (G & _); eauto|]. left. eauto. }
  destruct (Hr E) as [Hrep Hh].
  apply wp_bind. eapply wp_mono; [by eapply wp_put_vow; [exact Hva|lia|..]|].
  intros st m2 (ds' & hd' & Hres). destruct (ty (v_default vd) =? tag_num GEAS_TY_INSTANCE).
  - destruct Hres as [-> Hva']. simpl. apply wp_ret. split; [destruct Hva' as (G & _); eauto|].
    left. eauto.
  - destruct Hres as [[-> Hva']|(-> & Href & G)]; simpl st_ok; cbn [negb].
    + eapply IH; [exact Hva'|rewrite length_insert; lia|]. intros k Hk. rewrite length_insert in Hk.
      rewrite list_lookup_insert_ne by lia. apply Hb. lia.
    + apply wp_ret. destruct (defaults vds ts (S j) _). split; [done|]. by right.
Qed.

Lemma length_overrides vows ts asg : length (overrides d vows ts asg).2 = length asg.
Proof.
  revert ts asg. induction vows as [|b vows IH]; intros [|t ts] asg; simpl; try done.
  destruct (vb_name b); [|done]. destruct (find_vow_desc _ _) as [n|]; [|done].
  destruct (d_vows d !! n); [|done]. destruct (_ || _); [done|]. by rewrite IH, length_insert.
Qed.
End Vows.

(** What [bind_vows] leaves: the array it allocated, or 0. *)
Definition vows_bound (c : Z) (m : mem) (vals : Z) (asg : list (option val)) (m' : mem) : Prop :=
  (asg = [] ∧ vals = 0) ∨ (vals ≠ 0 ∧ ∃ ds hd, vow_array c m vals ds hd asg m').

Lemma wp_bind_vows dfuel c m d vows ts dts :
  mem_wf m → live c m →
  Forall2 (λ b t, repr (heap m) (vb_value b) t ∧ (height t ≤ dfuel)%nat) vows ts →
  Forall2 (λ vd t, v_has_default vd ≠ 0 →
    repr (heap m) (v_default vd) t ∧ (height t ≤ dfuel)%nat) (d_vows d) dts →
  fits_slots (length (d_vows d)) →
  wp (bind_vows dfuel c d vows) m (λ '(st, vals) m',
    let '(st', asg) := vow_values d vows ts dts in
    (∃ hn, grown c m hn m') ∧
    (st = st' ∧ (st = GEAS_OK → vows_bound c m vals asg m') ∨ st = GEAS_ERR_OOM ∧ refused m m')).
Proof.
  intros Hwf Hl Hv Hd Hfits. unfold bind_vows, vow_values.
  destruct (length (d_vows d) =? 0)%nat eqn:E0.
  { apply wp_ret. split; [exists ∅; by apply grown_refl|]. left. split; [done|]. intros _. by left. }
  apply Nat.eqb_neq in E0. destruct (slot_bytes_fits _ Hfits) as [Hsb _]. rewrite Hsb.
  apply wp_bind. revert Hfits. unfold fits_slots. intros Hfits.
  apply wp_geas_bytes; auto; [lia|..]; cycle 1.
  { intros m1 G Href. rewrite Z.eqb_refl. apply wp_ret.
    destruct (if (_ <? _)%nat then _ else _) as [st' asg]. split; [eauto|]. by right. }
  intros m1 G Hb. rewrite (proj2 (Z.eqb_neq _ 0)) by done. apply wp_bind.
  set (n := length (d_vows d)) in *.
  assert (Hblk : fresh_block (lib m) KVals (Z.of_nat n * 40) = BVals (replicate n (lib_junk_val (lib m)))).
  { simpl. unfold sizeof_GeasValue. by rewrite Z.div_mul, Nat2Z.id by lia. }
  rewrite Hblk in G.
  eapply wp_zero_slots.
  { eapply lookup_weaken; [|by eapply grown_incl_new]. apply lookup_singleton_eq. }
  { by rewrite length_replicate. }
  rewrite drop_ge, app_nil_r by (by rewrite length_replicate).
  pose proof (grown_update _ _ _ _ (brk m) _ (BVals (replicate n gzero)) G (lookup_singleton_eq _ _)) as G1.
  rewrite insert_singleton_eq in G1. set (m2 := set_heap _ m1) in *.
  assert (Hva : vow_array c m (brk m) (replicate n gzero) ∅ (replicate n None) m2).
  { split_and!; try done.
    - by rewrite !length_replicate.
    - intros j t Hj. by apply lookup_replicate in Hj as [? _]. }
  destruct (GEAS_MAX_CONTRACT_TYPES <? n)%nat eqn:Emax.
  { apply wp_ret. split; [eauto|]. by left. }
  apply Nat.ltb_ge in Emax. apply wp_bind. eapply wp_mono.
  { eapply (wp_bind_overrides dfuel c m d (brk m) vows ts Hv); [exact Hva|by rewrite length_replicate|..].
    - by rewrite !length_replicate.
    - intros j Hj. rewrite length_replicate in Hj. rewrite !lookup_replicate_2 by lia. done. }
  intros [st bound] m3. pose proof (length_overrides d vows ts (replicate n None)) as Hla.
  destruct (overrides d vows ts (replicate n None)) as [st' asg]. simpl in Hla.
  intros (Gm & [(-> & (ds & hd & Hva3) & Hbf & Hlen3)|[-> Href]]); cycle 1.
  { simpl. apply wp_ret. destruct (if st_ok st' then _ else _). split; [done|]. by right. }
  destruct (st_ok st') eqn:Est; simpl; [|apply wp_ret; split; [done|]; left; split; [done|]; by intros ->].
  apply wp_bind. rewrite length_replicate in Hla. eapply wp_mono.
  { eapply (wp_bind_defaults dfuel c m (brk m) (d_vows d) dts Hd 0 bound asg); [exact Hva3|..].
    - simpl. rewrite Hla. done.
    - intros k Hk. apply Hbf. lia. }
  intros st2 m4. destruct (defaults (d_vows d) dts 0 asg) as [st3 asg3].
  intros (Gm4 & [(-> & ds4 & hd4 & Hva4)|[-> Href]]); apply wp_ret; (split; [done|]); [left|by right].
  split; [done|]. intros _. right. split; [done|]. by exists ds4, hd4.
Qed.

(** A successful account assigns every vow. *)
Lemma defaults_total vds ts j asg :
  (defaults vds ts j asg).1 = GEAS_OK → length ts = length vds → (j + length vds)%nat = length asg →
  (∀ k, (k < j)%nat → is_Some (default None (asg !! k))) →
  ∀ k, (k < length asg)%nat → ∃ t, (defaults vds ts j asg).2 !! k = Some (Some t).
Proof.
  revert ts j asg. induction vds as [|vd vds IH]; intros [|t ts] j asg Hok Hts Hlen Hpre k Hk;
    simpl in *; try done.
  - destruct (lookup_lt_is_Some_2 asg k Hk) as [o Ho]. destruct (Hpre k) as [x Hx]; [lia|].
    rewrite Ho in Hx. simpl in Hx. subst. eauto.
  - destruct (lookup_lt_is_Some_2 asg j) as [o Ho]; [lia|]. rewrite Ho in *.
    destruct o as [t0|].
    + apply IH; auto; try lia. intros i Hi. destruct (decide (i = j)) as [->|].
      * rewrite Ho. by eexists.
      * apply Hpre. lia.
    + destruct (_ =? 0); [done|]. destruct (_ =? _); [done|].
      apply IH; rewrite ?length_insert; auto; try lia.
      intros i Hi. destruct (decide (j = i)) as [<-|].
      * rewrite list_lookup_insert_eq by lia. by eexists.
      * rewrite list_lookup_insert_ne by done. apply Hpre. lia.
Qed.

Lemma vow_values_total d vows ts dts asg :
  vow_values d vows ts dts = (GEAS_OK, asg) → length dts = length (d_vows d) →
  length asg = length (d_vows d) ∧ ∀ k, (k < length (d_vows d))%nat → ∃ t, asg !! k = Some (Some t).
Proof.
  unfold vow_values. intros H Hd.
  destruct (Nat.eqb_spec (length (d_vows d)) 0) as [E|E].
  { injection H as _ <-. split; [by rewrite E|]. intros. lia. }
  destruct (_ <? _)%nat; [done|].
  pose proof (length_overrides d vows ts (replicate (length (d_vows d)) None)) as Hl.
  destruct (overrides d vows ts _) as [st a]. simpl in Hl. rewrite length_replicate in Hl.
  destruct (st_ok st) eqn:Est; [|injection H as -> _; done].
  assert (Hlen : ∀ vds ts j a, length (defaults vds ts j a).2 = length a).
  { clear. induction vds as [|vd vds IH]; intros [|t ts] j a; simpl; try done.
    destruct (a !! j) as [[]|]; [apply IH|..]; (destruct (_ =? 0); [done|]); (destruct (_ =? _); [done|]);
      by rewrite IH, length_insert. }
  specialize (Hlen (d_vows d) dts 0%nat a).
  pose proof (defaults_total (d_vows d) dts 0 a) as Ht. rewrite H in Ht, Hlen. simpl in *.
  split; [lia|]. intros k Hk. apply Ht; auto; lia.
Qed.

Lemma repr_string h v t : repr h v t → ty v = tag_num GEAS_TY_STRING →
  ∃ tg bs, t = VString tg bs ∧ s_len v = Z.of_nat (length bs) ∧ bytes_at h (s_ptr v) bs.
Proof.
  intros Hr Ht. pose proof (repr_ty _ _ _ Hr) as E. rewrite Ht in E. apply tag_num_inj in E.
  destruct t as [k tg w|tg bs|k tg e els|k tg b]; simpl in *; subst.
  - by destruct Hr as (_ & ? & _).
  - destruct Hr as (_ & _ & Hl & _ & Hp). exists tg, bs. split_and!; auto.
  - by destruct Hr as (_ & ? & _).
  - by destruct Hr as (_ & ? & _).
Qed.

(** ** Total runs of the world monad *)

Section WWP.
Context `{SA : StoreApi}.

Definition wwp {A} (e : W A) (w : world) (Q : A → world → Prop) : Prop :=
  match e w with WRet a w' => Q a w' | _ => False end.

Lemma wwp_ret {A} (a : A) w (Q : A → world → Prop) : Q a w → wwp (mret a) w Q.
Proof. done. Qed.
Lemma wwp_bind {A B} (e : W A) (k : A → W B) w (Q : B → world → Prop) :
  wwp e w (λ a w', wwp (k a) w' Q) → wwp (e ≫= k) w Q.
Proof. unfold wwp, mbind, W_bind. by destruct (e w). Qed.
Lemma wwp_mono {A} (e : W A) w (Q Q' : A → world → Prop) :
  wwp e w Q → (∀ a w', Q a w' → Q' a w') → wwp e w Q'.
Proof. unfold wwp. destruct (e w); auto. Qed.
Lemma wwp_in_mem {A} (e : M A) w (Q : A → world → Prop) :
  wp e (wm w) (λ a m, Q a (set_wm m w)) → wwp (in_mem e) w Q.
Proof. unfold wwp, in_mem, wp. by destruct (e (wm w)). Qed.
Lemma wwp_in_store {A} (f : sstate → A * sstate) w (Q : A → world → Prop) :
  (∀ a s, f (ws w) = (a, s) → Q a (set_ws s w)) → wwp (in_store f) w Q.
Proof. unfold wwp, in_store. destruct (f (ws w)). auto. Qed.
Lemma wwp_get c w ct (Q : GeasContract → world → Prop) :
  ci w !! c = Some ct → Q ct w → wwp (get_inst c) w Q.
Proof. unfold wwp, get_inst. by intros ->. Qed.
Lemma wwp_upd c f w ct (Q : unit → world → Prop) :
  ci w !! c = Some ct → Q tt (set_ci (λ i, <[c := f ct]> i) w) → wwp (upd_inst c f) w Q.
Proof. unfold wwp, upd_inst. by intros ->. Qed.
Lemma wwp_run {A} (e : W A) w (Q : A → world → Prop) :
  wwp e w Q ↔ ∃ a w', e w = WRet a w' ∧ Q a w'.
Proof.
  unfold wwp. split.
  - destruct (e w) as [a w'| |]; [eauto|done..].
  - by intros (a & w' & -> & ?).
Qed.
End WWP.

(** ** The failure exit *)

Section Drop.
Context `{SA : StoreApi}.

(** Run on any instance. *)
Definition dropped (c : Z) (ct : GeasContract) (bl : list Z) (w : world) : world :=
  let m := wm w in
  World (Mem (foldr delete (heap m) bl) (delete c (owned m)) (brk m) (ticks m) (lib m))
    (delete c (ci w)) (match c_store ct with None => ws w | Some h => geas_store_close h (ws w) end)
    (wr w) (instances w) (clock w) (futs w) (links w) (queue w).

Lemma drop_run c ct bl w :
  ci w !! c = Some ct → owned (wm w) !! c = Some bl → drop_instance c w = WRet tt (dropped c ct bl w).
Proof.
  intros Hc Hbl. unfold drop_instance. rewrite (W_bind_run _ _ _ _ _ (get_inst_run _ _ _ Hc)).
  unfold dropped. destruct (c_store ct) as [h|].
  - unfold mbind, W_bind, in_store, in_mem, free_owned. simpl. rewrite Hbl. simpl.
    unfold del_inst. simpl. by rewrite delete_insert_eq.
  - unfold mbind, W_bind, in_mem, free_owned, mret, W_ret. simpl. rewrite Hbl. simpl.
    unfold del_inst. simpl. by rewrite delete_insert_eq.
Qed.

End Drop.

(** ** The instance under construction *)

Section Building.
Context `{SA : StoreApi}.
Context (dfuel : nat) (w0 : world) (d : GeasContractDesc).
Let c := next_addr w0.

(** The memory right after the struct was allocated. *)
Definition sign_mem : mem :=
  Mem (heap (wm w0)) (<[c := []]> (owned (wm w0))) (c + 1) (ticks (wm w0)) (lib (wm w0)).

Definition building (w : world) (ct : GeasContract) (hn : gmap Z block) : Prop :=
  ci w = <[c := ct]> (ci w0) ∧ grown c sign_mem hn (wm w) ∧ wr w = wr w0 ∧
  instances w = instances w0 ∧ clock w = clock w0.

Lemma sign_mem_wf : mem_wf (wm w0) → mem_wf sign_mem ∧ live c sign_mem.
Proof.
  destruct (next_addr_fresh w0) as (_ & Ho & Hb & Hp). intros [B D O N J]. split.
  - split; simpl.
    + fold c in Hp. lia.
    + intros p Hp'. apply D in Hp'. fold c in Hb. lia.
    + intros c' bl p [[<- <-]|[_ Hc]]%lookup_insert_Some Hin; [by apply not_elem_of_nil in Hin|eauto].
    + intros c' bl [[<- <-]|[_ Hc]]%lookup_insert_Some; [constructor|eauto].
    + intros c1 c2 b1 b2 p [[<- <-]|[_ H1]]%lookup_insert_Some [[<- <-]|[_ H2]]%lookup_insert_Some I1 I2;
        try by apply not_elem_of_nil in I1. { by apply not_elem_of_nil in I2. } eauto.
  - split; [fold c in Hp; lia|]. simpl. rewrite lookup_insert_eq. by eexists.
Qed.

(** A refusal since the struct was allocated. *)
Definition short (w : world) : Prop := refused sign_mem (wm w).

Lemma building_short w ct hn m : building w ct hn → refused (wm w) m → short (set_wm m w).
Proof. intros (_ & G & _) Href. eapply refused_trans_r; eauto. Qed.

Lemma wwp_sys_alloc n w ct hn (Q : bool → world → Prop) :
  building w ct hn → (∀ b w', building w' ct hn → (b = false ∨ short w → short w') → Q b w') →
  wwp (in_mem (sys_alloc n)) w Q.
Proof.
  intros (B1 & B2 & B3) H. apply wwp_in_mem. unfold wp, sys_alloc. apply H.
  - split; [done|]. split; [by apply grown_tick|done].
  - intros [Hf|(k & z & Hk & Hf)].
    + exists (ticks (wm w)), n. rewrite <- (gr_lib _ _ _ _ B2). simpl.
      pose proof (gr_ticks _ _ _ _ B2). split; [simpl in *; lia|done].
    + exists k, z. simpl. split; [simpl in Hk; lia|done].
Qed.

Lemma building_get w ct hn : building w ct hn → ci w !! c = Some ct.
Proof. intros (-> & _). apply lookup_insert_eq. Qed.

Lemma building_upd w ct hn ct' :
  building w ct hn → building (set_ci (λ i, <[c := ct']> i) w) ct' hn.
Proof. intros (B1 & B2). split; [|done]. simpl. by rewrite B1, insert_insert_eq. Qed.

Lemma building_mem w ct hn m h1 :
  building w ct hn → grown c (wm w) h1 m → building (set_wm m w) ct (h1 ∪ hn).
Proof. intros (B1 & B2 & B3) G. split; [done|]. split; [|done]. by eapply grown_trans. Qed.

Lemma wwp_upd_building w ct hn f (Q : unit → world → Prop) :
  building w ct hn → (∀ w', building w' (f ct) hn → wm w' = wm w → Q tt w') → wwp (upd_inst c f) w Q.
Proof.
  intros B H. eapply wwp_upd; [by eapply building_get|]. apply H; [|done]. by eapply building_upd.
Qed.

Lemma building_live w ct hn : mem_wf (wm w0) → building w ct hn → mem_wf (wm w) ∧ live c (wm w).
Proof.
  intros Hwf (_ & G & _). destruct (sign_mem_wf Hwf) as [_ Hl]. split; [by eapply gr_wf|by eapply grown_live].
Qed.

Definition blank (vals : Z) (fns : list Z) (lat : option (list latch)) (errs : list GeasValue)
    (txn : option (list txn_slot)) (st : option Z) : GeasContract :=
  Contract d GEAS_UNSIGNED vals fns 0 0 lat errs txn st.

(** Any failing step leaves some instance under construction. *)
Definition step_post (st : GeasStatus) (w : world) (Ok : GeasContract → gmap Z block → Prop) : Prop :=
  ∃ ct hn, building w ct hn ∧ (st = GEAS_OK → Ok ct hn).

Lemma wwp_sign_fns fns w hn :
  mem_wf (wm w0) → building w (blank 0 [] None [] None None) hn →
  (length (d_pledges d) = 0%nat → fns = []) → fits_slots (length (d_pledges d)) →
  wwp (sign_fns c d fns) w (λ st w', step_post st w' (λ ct _, ct = blank 0 fns None [] None None) ∧
    (st = GEAS_OK ∨ st = GEAS_ERR_OOM ∧ short w')).
Proof.
  intros Hwf B Hfns Hfits. unfold sign_fns.
  destruct (Nat.eqb_spec (length (d_pledges d)) 0) as [E|E].
  { apply wwp_ret. split; [|by left]. exists (blank 0 [] None [] None None), hn. split; [done|]. by rewrite Hfns. }
  apply wwp_bind, wwp_in_mem. destruct (building_live _ _ _ Hwf B) as [Hwf1 Hl1].
  revert Hfits. unfold fits_slots, sizeof_GeasBlock, sizeof_GeasValue. intros Hfits.
  apply wp_geas_bytes; auto; [lia|unfold sizeof_GeasBlock; lia|..].
  - intros m G Hb. rewrite (proj2 (Z.eqb_neq _ 0)) by done. apply wwp_bind.
    eapply wwp_upd_building; [by eapply building_mem|]. intros w' B' _. apply wwp_ret.
    split; [|by left]. eexists _, _. split; [exact B'|done].
  - intros m G Href. rewrite Z.eqb_refl. apply wwp_ret. split; [|right; split; [done|by eapply building_short]].
    eexists _, _. split; [by eapply building_mem|done].
Qed.

Lemma wwp_sign_latches fns vals w hn :
  building w (blank vals fns None [] None None) hn →
  let n := length (d_pledges d) in
  wwp (sign_latches c d) w (λ st w', step_post st w' (λ ct h, h = hn ∧
    ct = blank vals fns (if (n =? 0)%nat then None else Some (replicate n PLEDGE_PENDING))
           (replicate n gzero) None None)).
Proof.
  intros B n. unfold sign_latches. fold n. destruct (Nat.eqb_spec n 0) as [E|E].
  { apply wwp_ret. eexists _, _. split; [exact B|]. by rewrite E. }
  apply wwp_bind. eapply wwp_sys_alloc; [exact B|]. intros a w1 B1 _.
  apply wwp_bind. eapply wwp_sys_alloc; [exact B1|]. intros b w2 B2 _.
  apply wwp_bind. destruct a.
  - eapply wwp_upd_building; [exact B2|]. intros w3 B3 _. apply wwp_bind. destruct b.
    + eapply wwp_upd_building; [exact B3|]. intros w4 B4 _. apply wwp_ret. eexists _, _. split; [exact B4|done].
    + apply wwp_ret, wwp_ret. eexists _, _. split; [exact B3|done].
  - apply wwp_ret. apply wwp_bind. destruct b.
    + eapply wwp_upd_building; [exact B2|]. intros w4 B4 _. apply wwp_ret. eexists _, _. split; [exact B4|done].
    + apply wwp_ret, wwp_ret. eexists _, _. split; [exact B2|done].
Qed.

Lemma wwp_sign_txns fns vals lat errs w hn :
  building w (blank vals fns lat errs None None) hn →
  let n := length (d_subs d) in
  wwp (sign_txns c d) w (λ st w', step_post st w' (λ ct h, h = hn ∧
    ct = blank vals fns lat errs (if (n =? 0)%nat then None else Some (replicate n TXN_NONE)) None)).
Proof.
  intros B n. unfold sign_txns. fold n. destruct (Nat.eqb_spec n 0) as [E|E].
  { apply wwp_ret. eexists _, _. split; [exact B|done]. }
  apply wwp_bind. eapply wwp_sys_alloc; [exact B|]. intros a w1 B1 _. destruct a; simpl.
  - apply wwp_bind. eapply wwp_upd_building; [exact B1|]. intros w2 B2 _. apply wwp_ret.
    eexists _, _. split; [exact B2|done].
  - apply wwp_ret. eexists _, _. split; [exact B1|done].
Qed.

(** The vow array inside the blocks [h]: one represented copy per assigned vow. *)
Definition vows_at (h : gmap Z block) (vals : Z) (asg : list (option val)) : Prop :=
  asg = [] ∧ vals = 0 ∨
  vals ≠ 0 ∧ ∃ ds, h !! vals = Some (BVals ds) ∧ length ds = length asg ∧
    ∀ j t, asg !! j = Some (Some t) → ∃ s, ds !! j = Some s ∧ repr h s (scrub t).

(** The overrides a host passed and the descriptor's defaults are readable. *)
Definition vows_readable (vows : list GeasVowBinding) (ts dts : list val) : Prop :=
  Forall2 (λ b t, repr (heap (wm w0)) (vb_value b) t ∧ (height t ≤ dfuel)%nat) vows ts ∧
  Forall2 (λ vd t, v_has_default vd ≠ 0 →
    repr (heap (wm w0)) (v_default vd) t ∧ (height t ≤ dfuel)%nat) (d_vows d) dts.

Lemma wwp_sign_vows fns vows ts dts w hn :
  mem_wf (wm w0) → building w (blank 0 fns None [] None None) hn → vows_readable vows ts dts →
  fits_slots (length (d_vows d)) →
  wwp (sign_vows dfuel c d vows) w (λ st w', step_post st w' (λ ct h, ∃ vals asg,
    vow_values d vows ts dts = (GEAS_OK, asg) ∧ ct = blank vals fns None [] None None ∧ vows_at h vals asg)).
Proof.
  intros Hwf B [Hv Hd] Hfits. destruct (building_live _ _ _ Hwf B) as [Hwf1 Hl1].
  assert (Hsub : heap (wm w0) ⊆ heap (wm w)).
  { destruct B as (_ & G & _). apply grown_incl in G. exact G. }
  unfold sign_vows. apply wwp_bind, wwp_in_mem. eapply wp_mono.
  { apply (wp_bind_vows dfuel c (wm w) d vows ts dts); auto.
    - eapply Forall2_impl; [exact Hv|]. intros b t [Hr ?]. split; [by eapply repr_mono|done].
    - eapply Forall2_impl; [exact Hd|]. intros vd t H Hz. destruct (H Hz). split; [by eapply repr_mono|done]. }
  intros [st vals] m'. destruct (vow_values d vows ts dts) as [st' asg] eqn:Ev.
  intros ((h1 & G) & Hres). apply wwp_bind.
  assert (Fail : st ≠ GEAS_OK → wwp (upd_inst c (λ ct, Contract (c_desc ct) (c_state ct) vals (c_fns ct)
      (c_shape_hash ct) (c_signed_at ct) (c_pledge_state ct) (c_pledge_err ct) (c_sub_txn ct) (c_store ct)))
      (set_wm m' w) (λ _ w', wwp (mret st) w' (λ st w', step_post st w' (λ ct h, ∃ vals asg0,
    (st', asg) = (GEAS_OK, asg0) ∧ ct = blank vals fns None [] None None ∧ vows_at h vals asg0)))).
  { intros Hst. eapply wwp_upd_building; [by eapply building_mem|]. intros w' B' _. apply wwp_ret.
    eexists _, _. split; [exact B'|done]. }
  destruct (decide (st = GEAS_OK)) as [->|Hst]; [|by apply Fail].
  destruct Hres as [[<- Hb]|[? _]]; [|done]. specialize (Hb eq_refl).
  assert (K : ∃ h2, grown c (wm w) h2 m' ∧ vows_at (h2 ∪ hn) vals asg).
  { destruct Hb as [[-> ->]|(Hv0 & ds & hd & Gv & Hn & _ & Hlen & Hasg)].
    - exists h1. split; [done|]. by left.
    - exists (<[vals := BVals ds]> hd). split; [done|]. right. split; [done|]. exists ds. split_and!; auto.
      + erewrite lookup_union_Some_l; [done|]. apply lookup_insert_eq.
      + intros j t Hj. destruct (Hasg j t Hj) as (s & Hs & Hr). exists s. split; [done|].
        eapply repr_mono; [|exact Hr]. etransitivity; [by apply insert_subseteq|]. apply map_union_subseteq_l. }
  destruct K as (h2 & G2 & Hat). eapply wwp_upd_building; [by eapply building_mem|].
  intros w' B' _. apply wwp_ret. eexists _, _. split; [exact B'|]. intros _. by exists vals, asg.
Qed.

Lemma wwp_reconcile_all h scs w ct hn :
  building w ct hn →
  wwp (reconcile_all h scs) w (λ _ w', building w' ct hn).
Proof.
  revert w. induction scs as [|sc scs IH]; intros w B; simpl; [by apply wwp_ret|].
  apply wwp_bind, wwp_in_store. intros st s _. assert (B' : building (set_ws s w) ct hn) by done.
  destruct (st_ok st); [by apply IH|]. apply wwp_bind, wwp_in_store. intros [] s2 _. by apply wwp_ret.
Qed.

(** Every declared vow has a value. *)
Definition vows_full (h : gmap Z block) (vals : Z) : Prop :=
  d_vows d = [] ∨ vals ≠ 0 ∧ ∃ ds, h !! vals = Some (BVals ds) ∧
    ∀ j, (j < length (d_vows d))%nat → ∃ s t, ds !! j = Some s ∧ repr h s t.

Lemma vows_at_full h vals asg : vows_at h vals asg → length asg = length (d_vows d) →
  (∀ k, (k < length (d_vows d))%nat → ∃ t, asg !! k = Some (Some t)) → vows_full h vals.
Proof.
  intros [[-> ->]|(Hv & ds & Hds & _ & Hrep)] Hlen Htot.
  - left. by apply nil_length_inv.
  - right. split; [done|]. exists ds. split; [done|]. intros j Hj. destruct (Htot j Hj) as [t Ht].
    destruct (Hrep j t Ht) as (s & ? & ?). eauto.
Qed.

Lemma wwp_store_sign vals fns lat errs txn w hn :
  mem_wf (wm w0) → building w (blank vals fns lat errs txn None) hn → vows_full hn vals →
  wwp (store_sign_reconcile c) w (λ st w', step_post st w' (λ ct h, h = hn ∧ ∃ sto,
    ct = blank vals fns lat errs txn sto ∧ (sto = None ↔ d_schemas d = [])) ∧ (d_schemas d = [] → st = GEAS_OK)).
Proof.
  intros Hwf B Hat. unfold store_sign_reconcile. apply wwp_bind.
  eapply wwp_get; [by eapply building_get|]. cbn [c_desc blank c_vow_vals].
  destruct (Nat.eqb_spec (length (d_schemas d)) 0) as [E|E].
  { apply wwp_ret. split; [|done]. eexists _, _. split; [exact B|]. intros _. split; [done|]. exists None.
    split; [done|]. by rewrite (nil_length_inv _ E). }
  assert (Hne : d_schemas d ≠ []) by (by intros Hx; rewrite Hx in E).
  assert (Stop : ∀ st w', st ≠ GEAS_OK → building w' (blank vals fns lat errs txn None) hn →
    wwp (mret st) w' (λ st w', step_post st w' (λ ct h, h = hn ∧ ∃ sto,
      ct = blank vals fns lat errs txn sto ∧ (sto = None ↔ d_schemas d = [])) ∧ (d_schemas d = [] → st = GEAS_OK))).
  { intros st w' Hst B'. apply wwp_ret. split; [|done]. eexists _, _. split; [exact B'|done]. }
  destruct (find_dsn d) as [slot|] eqn:Ef; [|by apply Stop].
  apply find_index_lt in Ef. destruct Hat as [Hnil|(Hv0 & ds & Hds & Hrep)]; [rewrite Hnil in Ef; simpl in Ef; lia|].
  rewrite (proj2 (Z.eqb_neq vals 0)) by done. destruct (Hrep slot Ef) as (s & t & Hs & Hr).
  assert (Hsub : hn ⊆ heap (wm w)) by (destruct B as (_ & G & _); by eapply grown_incl_new).
  apply wwp_bind, wwp_in_mem. eapply wp_load_slot; [by eapply lookup_weaken|exact Hs|].
  replace (set_wm (wm w) w) with w by (by destruct w).
  unfold is_ty. destruct (Z.eqb_spec (ty s) (tag_num GEAS_TY_STRING)) as [Ety|]; cbn [negb]; [|by apply Stop].
  apply wwp_bind. eapply wwp_sys_alloc; [exact B|]. intros ok w1 B1 _.
  destruct ok; cbn [negb]; [|by apply Stop].
  destruct (repr_string _ _ _ Hr Ety) as (tg & bs & _ & Hsl & Hbytes).
  assert (Hsub1 : hn ⊆ heap (wm w1)) by (destruct B1 as (_ & G & _); by eapply grown_incl_new).
  apply wwp_bind, wwp_in_mem, (wp_mono _ _ (λ bs' m', bs' = bs ∧ m' = wm w1)).
  { rewrite Hsl. destruct Hbytes as [->|(_ & raw & Hraw & Htk)]; [by apply wp_ret|].
    destruct (Z.of_nat (length bs) =? 0) eqn:E0.
    - apply wp_ret. split; [|done]. destruct bs; [done|simpl in E0; lia].
    - rewrite Nat2Z.id. eapply wp_load_bytes; [by eapply lookup_weaken|by apply take_prefix_length|].
      split; [by rewrite Htk|done]. }
  intros bs' m' [-> ->]. replace (set_wm (wm w1) w1) with w1 by (by destruct w1).
  apply wwp_bind, wwp_in_store. intros [st h] s2 _.
  assert (B2 : building (set_ws s2 w1) (blank vals fns lat errs txn None) hn) by done.
  destruct (st_ok st) eqn:Est; cbn [negb]; [|apply Stop; [by intros ->|done]].
  apply wwp_bind. eapply wwp_mono; [by apply wwp_reconcile_all|]. intros st3 w3 B3.
  destruct (st_ok st3) eqn:Est3; cbn [negb]; [|apply Stop; [by intros ->|done]].
  apply wwp_bind. eapply wwp_upd_building; [exact B3|]. intros w4 B4 _. apply wwp_ret. split; [|done].
  eexists _, _. split; [exact B4|]. intros _. split; [done|]. exists (Some h). split; [done|].
  by split.
Qed.

(** The failure exit: everything built is gone. *)
Lemma wwp_drop w ct hn :
  mem_wf (wm w0) → building w ct hn →
  wwp (drop_instance c) w (λ _ w', ci w' = ci w0 ∧ heap (wm w') = heap (wm w0) ∧
    owned (wm w') = owned (wm w0) ∧ instances w' = instances w0 ∧ wr w' = wr w0 ∧ clock w' = clock w0).
Proof.
  intros Hwf (B1 & G & B3 & B4 & B5). destruct (next_addr_fresh w0) as (Hf & Hfo & _). fold c in Hf, Hfo.
  destruct (gr_owned _ _ _ _ G) as (new & old & Hold & Ho & Hin). simpl in Hold, Ho.
  rewrite lookup_insert_eq in Hold. injection Hold as <-. rewrite app_nil_r, insert_insert_eq in Ho.
  unfold wwp. erewrite drop_run; [|by rewrite B1, lookup_insert_eq|by rewrite Ho, lookup_insert_eq].
  unfold dropped. simpl. split_and!; try done.
  - rewrite B1. by rewrite delete_insert_eq, delete_id.
  - rewrite (gr_heap _ _ _ _ G). apply foldr_delete_union; [exact (gr_fresh _ _ _ _ G)|done].
  - rewrite Ho, delete_insert_eq. by apply delete_id.
Qed.

(** What a finished sign looks like. *)
Definition signed_world (fns : list Z) (vows : list GeasVowBinding) (ts dts : list val) (w' : world) : Prop :=
  ∃ vals asg sto hn,
    vow_values d vows ts dts = (GEAS_OK, asg) ∧ vows_at hn vals asg ∧ (sto = None ↔ d_schemas d = []) ∧
    grown c sign_mem hn (wm w') ∧ instances w' = instances w0 ++ [c] ∧
    (length (instances w0) < GEAS_MAX_INSTANCES)%nat ∧
    ci w' = <[c := Contract d GEAS_SIGNED vals fns (d_shape_hash d) (clock w0)
      (if (length (d_pledges d) =? 0)%nat then None else Some (replicate (length (d_pledges d)) PLEDGE_PENDING))
      (replicate (length (d_pledges d)) gzero)
      (if (length (d_subs d) =? 0)%nat then None else Some (replicate (length (d_subs d)) TXN_NONE)) sto]> (ci w0).

(** What a failed sign leaves: the world it started from, the store aside. *)
Definition unsigned_world (w' : world) : Prop :=
  ci w' = ci w0 ∧ heap (wm w') = heap (wm w0) ∧ owned (wm w') = owned (wm w0) ∧
  instances w' = instances w0 ∧ wr w' = wr w0 ∧ clock w' = clock w0.

Lemma wwp_if_ok (st : GeasStatus) (e : W GeasStatus) w (P : GeasContract → gmap Z block → Prop)
    (Q : GeasStatus → world → Prop) :
  step_post st w P →
  (∀ ct hn, building w ct hn → P ct hn → wwp e w Q) →
  (∀ ct hn, st ≠ GEAS_OK → building w ct hn → Q st w) →
  wwp (if_ok st e) w Q.
Proof.
  intros (ct & hn & B & Hp) Hok Hno. unfold if_ok. destruct (st_ok st) eqn:E.
  - apply st_ok_spec in E as ->. eapply Hok; eauto.
  - apply wwp_ret. eapply Hno; [|exact B]. by intros ->.
Qed.

Lemma wwp_publish vals fns lat errs txn sto w hn :
  building w (blank vals fns lat errs txn sto) hn → (length (instances w0) ≤ GEAS_MAX_INSTANCES)%nat →
  wwp (sign_publish c d) w (λ st w',
    (st = GEAS_OK ∧ grown c sign_mem hn (wm w') ∧ instances w' = instances w0 ++ [c] ∧
      (length (instances w0) < GEAS_MAX_INSTANCES)%nat ∧
      ci w' = <[c := Contract d GEAS_SIGNED vals fns (d_shape_hash d) (clock w0) lat errs txn sto]> (ci w0)) ∨
    (st = GEAS_ERR_OOM ∧ ∃ ct, building w' ct hn)).
Proof.
  intros B Hcap. unfold sign_publish. apply wwp_bind. unfold wwp at 1, get_clock.
  apply wwp_bind. eapply wwp_upd_building; [exact B|]. intros w1 B1 _. unfold wwp, take_slot.
  destruct B1 as (E1 & G1 & Er & Ei & Ec). rewrite Ei.
  assert (Hclk : clock w = clock w0) by apply B.
  destruct (Nat.eqb_spec (length (instances w0)) GEAS_MAX_INSTANCES) as [E|E].
  - right. split; [done|]. eexists. split; [exact E1|]. by split_and!.
  - left. split_and!; simpl; [done|done|done|lia|]. rewrite E1, Hclk. done.
Qed.

(** The steps of a sign from the fresh struct to the answer. *)
Definition sign_steps (fns : list Z) (vows : list GeasVowBinding) : W (GeasStatus * Z) :=
  st ← sign_fns c d fns;
  st ← if_ok st (sign_vows dfuel c d vows);
  st ← if_ok st (sign_latches c d);
  st ← if_ok st (sign_txns c d);
  st ← if_ok st (store_sign_reconcile c);
  st ← if_ok st (sign_publish c d);
  if negb (st_ok st) then drop_instance c;; mret (st, 0) else mret (st, c).

Lemma wwp_sign_steps fns vows ts dts w :
  mem_wf (wm w0) → vows_readable vows ts dts →
  fits_slots (length (d_vows d)) → fits_slots (length (d_pledges d)) →
  (length (d_pledges d) = 0%nat → fns = []) → (length (instances w0) ≤ GEAS_MAX_INSTANCES)%nat →
  building w (blank 0 [] None [] None None) ∅ →
  wwp (sign_steps fns vows) w (λ '(st, a) w',
    st = GEAS_OK ∧ a = c ∧ signed_world fns vows ts dts w' ∨
    st ≠ GEAS_OK ∧ a = 0 ∧ unsigned_world w').
Proof.
  intros Hwf Hvr Hfv Hfp Hfns Hcap B. unfold sign_steps.
  assert (Fail : ∀ st ct hn w1, st ≠ GEAS_OK → building w1 ct hn →
    wwp (if negb (st_ok st) then drop_instance c;; mret (st, 0) else mret (st, c)) w1 (λ '(st, a) w',
      st = GEAS_OK ∧ a = c ∧ signed_world fns vows ts dts w' ∨
      st ≠ GEAS_OK ∧ a = 0 ∧ unsigned_world w')).
  { intros st ct hn w1 Hst B1. destruct (st_ok st) eqn:E; [by apply st_ok_spec in E|]. simpl.
    apply wwp_bind. eapply wwp_mono; [by eapply wwp_drop|]. intros u w2 Hu. apply wwp_ret. right.
    split_and!; done. }
  (* a failed step falls through the remaining [if_ok]s *)
  assert (Skip : ∀ st ct hn w1, st ≠ GEAS_OK → building w1 ct hn → ∀ (e : W GeasStatus) (Q : GeasStatus → world → Prop),
    Q st w1 → wwp (if_ok st e) w1 Q).
  { intros st ct hn w1 Hst _ e Q HQ. unfold if_ok. destruct (st_ok st) eqn:E; [by apply st_ok_spec in E|].
    by apply wwp_ret. }
  apply wwp_bind. eapply wwp_mono; [by eapply wwp_sign_fns|]. intros st1 w1 [P1 _].
  apply wwp_bind. eapply (wwp_if_ok _ _ _ _ _ P1); cycle 1.
  { intros ct hn Hst B1. do 4 (apply wwp_bind; eapply Skip; [done|exact B1|]). by eapply Fail. }
  intros ct1 hn1 B1 ->. eapply wwp_mono; [by eapply wwp_sign_vows|]. intros st2 w2 P2.
  apply wwp_bind. eapply (wwp_if_ok _ _ _ _ _ P2); cycle 1.
  { intros ct hn Hst B2. do 3 (apply wwp_bind; eapply Skip; [done|exact B2|]). by eapply Fail. }
  intros ct2 hn2 B2 (vals & asg & Hvv & -> & Hat).
  eapply wwp_mono; [by eapply wwp_sign_latches|]. intros st3 w3 P3.
  apply wwp_bind. eapply (wwp_if_ok _ _ _ _ _ P3); cycle 1.
  { intros ct hn Hst B3. do 2 (apply wwp_bind; eapply Skip; [done|exact B3|]). by eapply Fail. }
  intros ct3 hn3 B3 [-> ->]. eapply wwp_mono; [by eapply wwp_sign_txns|]. intros st4 w4 P4.
  apply wwp_bind. eapply (wwp_if_ok _ _ _ _ _ P4); cycle 1.
  { intros ct hn Hst B4. apply wwp_bind. eapply Skip; [done|exact B4|]. by eapply Fail. }
  intros ct4 hn4 B4 [-> ->].
  destruct (vow_values_total _ _ _ _ _ Hvv) as [Hla Htot].
  { destruct Hvr as [_ H]. symmetry. by eapply Forall2_length. }
  eapply wwp_mono; [eapply wwp_store_sign; [done|exact B4|by eapply vows_at_full]|]. intros st5 w5 [P5 _].
  apply wwp_bind. eapply (wwp_if_ok _ _ _ _ _ P5); cycle 1.
  { intros ct hn Hst B5. by eapply Fail. }
  intros ct5 hn5 B5 (-> & sto & -> & Hsto).
  eapply wwp_mono; [by eapply wwp_publish|]. intros st6 w6 [(-> & G6 & Hi & Hlt & Hci)|(-> & ct & B6)].
  - simpl. apply wwp_ret. left. split_and!; [done..|]. exists vals, asg, sto, hn2. by split_and!.
  - by eapply Fail.
Qed.
End Building.
