(* ===== verification/TaskSpec.v ===== *)
(** * The queued path against the inline path

    Signing, latching, episodes and stores never look at the futures or the queue
    ([blind]), so they run the same whatever those hold.  A break walks the list of
    its own instance, so a run whose bodies never break [c] is [clear] of a future
    that stands on the list of [c] alone. *)
From S2P Require Import Prelude Abi Memory Value Iname Frame FrameSpec Policy Store Future Lifecycle LifecycleSpec SignSpec Task.

Create HintDb blind.

Section Blind.
Context `{SA : StoreApi}.

(** The world with other futures, lists and queue. *)
Definition wsub (F : gmap Z GeasFuture) (L : gmap Z (list Z)) (q : list Z) (w : world) : world :=
  World (wm w) (ci w) (ws w) (wr w) (instances w) (clock w) F L q.

Definition wmap {A} (f : world → world) (r : wout A) : wout A :=
  match r with WRet a w => WRet a (f w) | WUndef => WUndef | WNoFuel => WNoFuel end.

Definition blind {A} (e : W A) : Prop := ∀ w F L q, e (wsub F L q w) = wmap (wsub F L q) (e w).

Lemma blind_ret {A} (a : A) : blind (mret a).
Proof. done. Qed.
Lemma blind_undef {A} : blind (wundef (A := A)).
Proof. done. Qed.
Lemma blind_nofuel {A} : blind (wnofuel (A := A)).
Proof. done. Qed.
Lemma blind_bind {A B} (e : W A) (k : A → W B) : blind e → (∀ a, blind (k a)) → blind (e ≫= k).
Proof.
  intros He Hk w F L q. unfold mbind, W_bind. rewrite He. destruct (e w) as [a w'| |]; [|done..].
  apply Hk.
Qed.
Lemma blind_in_mem {A} (e : M A) : blind (in_mem e).
Proof. intros w F L q. unfold in_mem. simpl. by destruct (e (wm w)). Qed.
Lemma blind_in_store {A} (f : sstate → A * sstate) : blind (in_store f).
Proof. intros w F L q. unfold in_store. simpl. by destruct (f (ws w)). Qed.
Lemma blind_get c : blind (get_inst c).
Proof. intros w F L q. unfold get_inst. simpl. by destruct (ci w !! c). Qed.
Lemma blind_upd c f : blind (upd_inst c f).
Proof. intros w F L q. unfold upd_inst. simpl. by destruct (ci w !! c). Qed.
Lemma blind_get_rt : blind get_rt.
Proof. done. Qed.
Lemma blind_put_rt r : blind (put_rt r).
Proof. done. Qed.
Lemma blind_clock : blind get_clock.
Proof. done. Qed.
Lemma blind_new d : blind (new_instance d).
Proof. done. Qed.
Lemma blind_del c : blind (del_inst c).
Proof. done. Qed.
Lemma blind_take c : blind (take_slot c).
Proof. intros w F L q. unfold take_slot. simpl. by destruct (_ =? _)%nat. Qed.
Lemma blind_if_ok st e : blind e → blind (if_ok st e).
Proof. unfold if_ok. by destruct (st_ok st). Qed.

#[local] Hint Resolve blind_ret blind_undef blind_nofuel blind_in_mem blind_in_store blind_get blind_upd
  blind_get_rt blind_put_rt blind_clock blind_new blind_del blind_take blind_if_ok : blind.
Ltac blind :=
  repeat first
    [ solve [auto with blind] | apply blind_bind; [|intros ?]
    | match goal with
      | |- blind (match ?x with _ => _ end) => destruct x
      | |- blind ((λ _, _) _) => cbv beta
      end ].

Lemma blind_latch c i out : blind (latch_pledge c i out).
Proof. unfold latch_pledge. blind. Qed.
Lemma blind_before c i : blind (txn_before c i).
Proof. unfold txn_before, set_txn. blind. Qed.
Lemma blind_after c i st out : blind (txn_after c i st out).
Proof. unfold txn_after, set_txn. blind. Qed.
Lemma blind_reconcile h scs : blind (reconcile_all h scs).
Proof. induction scs as [|sc scs IH]; simpl; blind. Qed.
Lemma blind_vow c name : blind (geas_vow_ref c name).
Proof. unfold geas_vow_ref. blind. Qed.
#[local] Hint Resolve blind_latch blind_before blind_after blind_reconcile blind_vow : blind.

Lemma blind_sign dfuel name vows nvows hash : blind (geas_contract_sign dfuel name vows nvows hash).
Proof.
  unfold geas_contract_sign. blind;
    unfold sign_fns, sign_vows, sign_latches, sign_txns, store_sign_reconcile, sign_publish, drop_instance;
    blind.
  all: apply blind_if_ok; blind.
Qed.

End Blind.

(** ** A run beside a queued future

    While a queued task runs, its future [f] stands in the table and on the list
    of its instance [c].  A computation is [clear] of it when it runs the same
    without it and leaves the lists alone: everything does that does not break
    [c], for a break only walks its own instance's list. *)

Section Clear.
Context `{SA : StoreApi}.
Context (c f : Z) (x : GeasFuture) (l q : list Z).

Definition beside (w : world) : world := wsub (<[f := x]> (futs w)) (<[c := f :: l]> (links w)) q w.

(** [f] is nobody else's: not in the table, on no other instance's list. *)
Definition apart (w : world) : Prop :=
  futs w !! f = None ∧ ∀ d, d ≠ c → f ∉ default [] (links w !! d).

Definition clear {A} (e : W A) : Prop := ∀ w, apart w →
  e (beside w) = wmap beside (e w) ∧
  ∀ a w', e w = WRet a w' → futs w' !! f = None ∧ links w' = links w.

Lemma blind_same {A} (e : W A) w a w' : blind e → e w = WRet a w' → futs w' = futs w ∧ links w' = links w.
Proof.
  intros He Hr. pose proof (He w (futs w) (links w) (queue w)) as E.
  replace (wsub (futs w) (links w) (queue w) w) with w in E by (by destruct w).
  rewrite Hr in E. simpl in E. injection E as ->. done.
Qed.

Lemma blind_clear {A} (e : W A) : blind e → clear e.
Proof.
  intros He w [Hf Hd]. split.
  - unfold beside at 1. rewrite He. destruct (e w) as [a w'| |] eqn:Hr; [|done..]. simpl. f_equal.
    destruct (blind_same _ _ _ _ He Hr) as [E1 E2]. unfold beside. by rewrite E1, E2.
  - intros a w' Hr. destruct (blind_same _ _ _ _ He Hr) as [-> ->]. done.
Qed.

Lemma clear_bind {A B} (e : W A) (k : A → W B) : clear e → (∀ a, clear (k a)) → clear (e ≫= k).
Proof.
  intros He Hk w Hw. destruct (He w Hw) as [E1 E2]. unfold mbind, W_bind. rewrite E1.
  destruct (e w) as [a w1| |]; [|done..]. simpl. destruct (E2 a w1 eq_refl) as [F1 L1].
  destruct (Hk a w1) as [E3 E4].
  { split; [done|]. rewrite L1. apply Hw. }
  split; [exact E3|]. intros b w' Hb. rewrite <- L1. by eapply E4.
Qed.

Lemma clear_forfeit fs : f ∉ fs → clear (forfeit_all fs).
Proof.
  induction fs as [|g fs IH]; intros Hf; [by apply blind_clear|].
  apply not_elem_of_cons in Hf as [Hne Hf]. cbn [forfeit_all]. apply clear_bind; [|intros _; by apply IH].
  intros w [Hn _]. unfold upd_fut, beside. simpl. rewrite lookup_insert_ne by done.
  destruct (futs w !! g) as [y|] eqn:Hg; [|done]. split.
  - simpl. unfold set_futs, wsub. simpl. by rewrite insert_insert_ne.
  - intros a w' [= _ <-]. simpl. by rewrite lookup_insert_ne.
Qed.

Lemma clear_links {B} d (k : list Z → W B) :
  d ≠ c → (∀ fs, f ∉ fs → clear (k fs)) → clear (get_links d ≫= k).
Proof.
  intros Hd Hk w Hw. unfold mbind, W_bind, get_links, beside. simpl. rewrite lookup_insert_ne by done.
  apply Hk; [|done]. by apply Hw.
Qed.

Lemma blind_break_reclaim d ct : blind (break_reclaim d ct).
Proof.
  unfold break_reclaim.
  repeat first [ apply blind_bind; [|intros ?]
    | apply blind_upd | apply blind_in_mem | apply blind_in_store | apply blind_ret
    | match goal with |- blind (match ?y with _ => _ end) => destruct y end ].
Qed.

Lemma clear_break d : d ≠ c → clear (geas_contract_break d).
Proof.
  intros Hd. unfold geas_contract_break. destruct (d =? 0); [apply blind_clear, blind_ret|].
  apply clear_bind; [apply blind_clear, blind_get|]. intros ct.
  destruct (bool_decide _); [apply blind_clear, blind_ret|].
  apply clear_links; [done|]. intros fs Hf. apply clear_bind; [by apply clear_forfeit|]. intros _.
  apply blind_clear, blind_bind; [apply blind_break_reclaim|]. intros _. apply blind_ret.
Qed.

(** Bodies that break any instance but [c]. *)
Inductive spares : body → Prop :=
| SBRet st out : spares (BRet st out)
| SBMem g k : (∀ v, spares (k v)) → spares (BMem g k)
| SBVow d name k : (∀ p, spares (k p)) → spares (BVow d name k)
| SBStore d o k : (∀ st, spares (k st)) → spares (BStore d o k)
| SBFulfill d name args nargs refs k : (∀ r, spares (k r)) → spares (BFulfill d name args nargs refs k)
| SBBreak d k : d ≠ c → (∀ st, spares (k st)) → spares (BBreak d k)
| SBSign name vows hash k : (∀ r, spares (k r)) → spares (BSign name vows hash k).

Context (dfuel : nat) (code : Z → Z → Z → Z → body) (callback : Z → Z → GeasValue → Z → M unit).
Hypothesis Hcode : ∀ fn d frame n, spares (code fn d frame n).

Lemma clear_body fulfill b :
  (∀ d name args nargs refs, clear (fulfill d name args nargs refs)) → spares b →
  clear (run_body dfuel fulfill b).
Proof.
  intros Hf Hb. induction Hb; cbn [run_body]; [apply blind_clear, blind_ret|..];
    try (apply clear_bind; [|done]).
  - apply blind_clear, blind_in_mem.
  - apply blind_clear, blind_vow.
  - apply clear_bind; [apply blind_clear, blind_get|]. intros ct. destruct (c_store ct); [|done].
    apply clear_bind; [apply blind_clear, blind_in_store|done].
  - apply Hf.
  - by apply clear_break.
  - apply blind_clear, blind_sign.
Qed.

Lemma clear_pledge fulfill d i fn frame nargs :
  (∀ d name args nargs refs, clear (fulfill d name args nargs refs)) →
  clear (run_pledge dfuel code fulfill d i fn frame nargs).
Proof.
  intros Hf. unfold run_pledge. apply clear_bind; [apply blind_clear, blind_before|]. intros g.
  destruct (negb (st_ok g)); [apply blind_clear, blind_ret|].
  apply clear_bind; [by apply clear_body|]. intros [st out].
  apply clear_bind.
  - apply blind_clear. destruct (st_ok st); [|apply blind_ret].
    apply blind_bind; [apply blind_latch|intros _; apply blind_upd].
  - intros _. apply clear_bind; [apply blind_clear, blind_after|]. intros st'. apply blind_clear, blind_ret.
Qed.

Lemma clear_fulfill fuel d name args nargs refs :
  clear (fulfill_inline dfuel code callback fuel d name args nargs refs).
Proof.
  revert d name args nargs refs. induction fuel as [|fuel IH]; intros d name args nargs refs; [by apply blind_clear|].
  pose proof (λ d i fn frame nargs, clear_pledge _ d i fn frame nargs IH) as Hp.
  cbn [fulfill_inline]. apply clear_bind; [apply blind_clear, blind_get|]. intros ct.
  destruct (fulfill_checks ct name args nargs refs) as [st i].
  destruct (negb (st_ok st)); [apply blind_clear, blind_ret|].
  apply clear_bind; [apply blind_clear, blind_in_mem|]. intros [st1 frame].
  destruct (negb (st_ok st1)); [apply blind_clear, blind_ret|].
  destruct (c_fns ct !! i) as [fn|]; [|apply blind_clear, blind_undef].
  apply clear_bind; [apply Hp|]. intros [st2 [out|]]; apply blind_clear; [|apply blind_ret].
  destruct (negb (st_ok st2)); [apply blind_ret|]. destruct (_ && _); [|apply blind_ret].
  apply blind_bind; [apply blind_in_mem|]. intros wb. destruct (st_ok wb); apply blind_ret.
Qed.
End Clear.

(** ** Steps that leave memory alone *)

Section Still.
Context `{SA : StoreApi}.

Definition still {A} (e : W A) : Prop := ∀ w a w', e w = WRet a w' → wm w' = wm w.

Lemma still_ret {A} (a : A) : still (mret a).
Proof. by intros w b w' [= _ <-]. Qed.
Lemma still_undef {A} : still (wundef (A := A)).
Proof. done. Qed.
Lemma still_bind {A B} (e : W A) (k : A → W B) : still e → (∀ a, still (k a)) → still (e ≫= k).
Proof. intros He Hk w b w' (a & w1 & H1 & H2)%W_bind_inv. rewrite (Hk _ _ _ _ H2). by eapply He. Qed.
Lemma still_get c : still (get_inst c).
Proof. by intros w a w' [_ ->]%get_inst_inv. Qed.
Lemma still_upd c g : still (upd_inst c g).
Proof. by intros w a w' (ct & _ & ->)%upd_inst_inv. Qed.
Lemma still_store {A} (g : sstate → A * sstate) : still (in_store g).
Proof. by intros w a w' (s & _ & ->)%in_store_inv. Qed.
Lemma still_load p i : still (in_mem (load_slot p i)).
Proof. intros w a w' (m & Hm & ->)%in_mem_inv. simpl. by eapply load_slot_same. Qed.

Ltac still :=
  repeat first
    [ apply still_ret | apply still_undef | apply still_get | apply still_upd | apply still_store
    | apply still_load | apply still_bind; [|intros ?]
    | match goal with |- still (match ?y with _ => _ end) => destruct y end ].

Lemma still_before c i : still (txn_before c i).
Proof. unfold txn_before, set_txn. still. Qed.
Lemma still_after c i st out : still (txn_after c i st out).
Proof. unfold txn_after, set_txn. still. Qed.
Lemma still_latch c i out : still (latch_pledge c i out).
Proof. unfold latch_pledge. still. Qed.

(** A pledge's run moves memory in its body only; the gate alone answers no value,
    and refuses. *)
Lemma run_pledge_body dfuel code fulfill c i fn frame nargs w st out w' :
  run_pledge dfuel code fulfill c i fn frame nargs w = WRet (st, out) w' →
  match out with
  | None => st_ok st = false
  | Some _ => ∃ v r w1, wm v = wm w ∧ run_body dfuel fulfill (code fn c frame nargs) v = WRet r w1 ∧ wm w' = wm w1
  end.
Proof.
  unfold run_pledge. intros (g & v & Hb & H)%W_bind_inv. apply still_before in Hb.
  destruct (st_ok g) eqn:Eg; cbn [negb] in H; [|by w_inv H].
  apply W_bind_inv in H as ([bst bout] & w1 & Hr & H). apply W_bind_inv in H as (u & w2 & Hl & H).
  apply W_bind_inv in H as (st' & w3 & Ha & H). w_inv H. apply still_after in Ha.
  exists v, (bst, bout), w1. split_and!; [done|done|]. rewrite Ha. revert Hl. destruct (st_ok bst).
  - apply still_bind; [apply still_latch|intros _; apply still_upd].
  - apply still_ret.
Qed.
End Still.

(** ** One future through the queue *)

Section Queue.
Context `{SA : StoreApi}.
Context (dfuel : nat) (code : Z → Z → Z → Z → body) (callback : Z → Z → GeasValue → Z → M unit).

Lemma wsub_wsub F L q F' L' q' w : wsub F L q (wsub F' L' q' w) = wsub F L q w.
Proof. done. Qed.

Lemma get_fut_run f w x : futs w !! f = Some x → get_fut f w = WRet x w.
Proof. unfold get_fut. by intros ->. Qed.
Lemma upd_fut_run f g w x :
  futs w !! f = Some x → upd_fut f g w = WRet tt (set_futs (λ m, <[f := g x]> m) w).
Proof. unfold upd_fut. by intros ->. Qed.

(** The world after [n] requests outside the instance heap. *)
Definition ticked (n : nat) (w : world) : world :=
  let m := wm w in set_wm (Mem (heap m) (owned m) (brk m) (n + ticks m) (lib m)) w.

Lemma fresh_fut (w : world) : futs w !! (1 + max_key (futs w)) = None ∧ 0 < 1 + max_key (futs w).
Proof.
  split.
  - apply eq_None_not_Some. intros H%max_key_ge. lia.
  - assert (B : 0 <= max_key (futs w)); [|lia]. unfold max_key.
    induction (futs w) as [|i x m Hi Hf IH] using map_first_key_ind.
    + by rewrite map_fold_empty.
    + rewrite map_fold_insert_first_key by done. lia.
Qed.

(** The future's requests only count. *)
Lemma future_alloc_run w :
  ∃ ok n, in_mem future_alloc w = WRet ok (ticked n w).
Proof.
  unfold in_mem, future_alloc, pthread_init, bind, sys_alloc, ret. cbn [lib ticks].
  destruct (lib_malloc _ _ sizeof_future); cbn [negb]; [|by exists false, 1%nat].
  destruct (lib_malloc _ _ 0); cbn [negb]; [by eexists _, 3%nat|by exists false, 2%nat].
Qed.

Lemma future_new_run c w ok n :
  in_mem future_alloc w = WRet ok (ticked n w) →
  future_new c w =
  if ok then WRet (1 + max_key (futs w))
    (wsub (<[1 + max_key (futs w) := fresh_future c]> (futs w))
          (<[c := (1 + max_key (futs w)) :: default [] (links w !! c)]> (links w)) (queue w) (ticked n w))
  else WRet 0 (ticked n w).
Proof. intros Hm. unfold future_new. rewrite (W_bind_run _ _ _ _ _ Hm). by destruct ok. Qed.

(** What a finished future's one wait delivers. *)
Definition delivered (x : GeasFuture) : W (GeasStatus * option GeasValue) :=
  if st_ok (fu_status x) && (0 <? fu_nrefs x) && negb (fu_slots x =? 0) then
    in_mem (load_block (fu_refs x));;
    wb ← in_mem (write_back_refs callback (fu_refv x) (fu_slots x) (fu_off x));
    if negb (st_ok wb) then mret (wb, None) else mret (fu_status x, Some (fu_value x))
  else mret (fu_status x, Some (fu_value x)).

(** A finished future's one wait, and its release by the last holder. *)
Lemma wait_release f x c l F L q v :
  f ≠ 0 → F !! f = Some x → fu_done x = true → fu_waited x = false → fu_refcnt x = 1 →
  fu_c x = c → L !! c = Some (f :: l) →
  (r ← geas_future_wait callback f;
   match r with
   | None => wnofuel
   | Some (st, val) => future_release f;; mret (st, default gzero val)
   end) (wsub F L q v) =
  match delivered x v with
  | WRet (st, val) v' => WRet (st, default gzero val) (wsub (delete f F) (<[c := l]> L) q v')
  | WUndef => WUndef
  | WNoFuel => WNoFuel
  end.
Proof.
  intros Hf0 Hx Hd Hw Hr Hc Hl.
  assert (R : ∀ (v' : world) (st : GeasStatus) (val : option GeasValue),
    (future_release f;; mret (st, default gzero val)) (wsub (<[f := with_waited x]> F) L q v') =
    WRet (st, default gzero val) (wsub (delete f F) (<[c := l]> L) q v')).
  { intros v' st val. unfold future_release, future_unref.
    assert (Hx2 : (<[f := with_waited x]> F) !! f = Some (with_waited x)) by apply lookup_insert_eq.
    unfold mbind, W_bind, get_fut, upd_fut, get_links, mret, W_ret. simpl.
    rewrite Hx2. simpl. rewrite Hc, Hl. simpl. rewrite Z.eqb_refl, Hx2. simpl. rewrite Hx2. simpl.
    rewrite Hr. simpl. unfold future_free, wsub, set_futs. simpl.
    by rewrite !insert_insert_eq, delete_insert_eq. }
  unfold geas_future_wait. rewrite (proj2 (Z.eqb_neq f 0)) by done.
  unfold mbind at 1, W_bind at 1.
  rewrite (W_bind_run _ _ _ _ _ (get_fut_run f (wsub F L q v) x Hx)), Hd, Hw. cbn [negb].
  rewrite (W_bind_run _ _ _ _ _ (upd_fut_run f with_waited (wsub F L q v) x Hx)).
  change (set_futs (λ m, <[f := with_waited x]> m) (wsub F L q v)) with (wsub (<[f := with_waited x]> F) L q v).
  unfold delivered. destruct (_ && _ && _); [|apply R].
  unfold mbind at 1 2, W_bind at 1 2. unfold mbind at 2, W_bind at 2.
  rewrite (blind_in_mem (load_block (fu_refs x)) v).
  destruct (in_mem (load_block (fu_refs x)) v) as [b v1| |]; [|done..]. cbn [wmap].
  unfold mbind, W_bind. rewrite (blind_in_mem _ v1).
  destruct (in_mem (write_back_refs _ _ _ _) v1) as [wb v2| |]; [|done..]. cbn [wmap].
  destruct (negb (st_ok wb)); apply R.
Qed.
End Queue.

(** ** Shutdown *)

Section Shutdown.
Context `{SA : StoreApi}.

(** Removing every key of a list, key by key. *)
Definition without {A} (l : list Z) (m : gmap Z A) (p : Z) : option A :=
  if bool_decide (p ∈ l) then None else m !! p.

Lemma without_delete {A} (m : gmap Z A) q l p : without l (delete q m) p = without (q :: l) m p.
Proof.
  unfold without. destruct (decide (p = q)) as [->|Hne].
  - rewrite lookup_delete_eq, (bool_decide_true (q ∈ q :: l)) by left. by case_bool_decide.
  - rewrite lookup_delete_ne by done.
    by rewrite (bool_decide_ext (p ∈ q :: l) (p ∈ l)) by (rewrite elem_of_cons; tauto).
Qed.
Lemma without_app {A} (m m' : gmap Z A) l k p :
  (∀ q, m' !! q = without l m q) → without k m' p = without (l ++ k) m p.
Proof.
  intros H. unfold without. rewrite H. unfold without.
  rewrite (bool_decide_ext (p ∈ l ++ k) (p ∈ l ∨ p ∈ k)) by apply elem_of_app.
  repeat case_bool_decide; tauto.
Qed.
Lemma without_foldr {A} (m : gmap Z A) l p : foldr delete m l !! p = without l m p.
Proof. apply lookup_foldr_delete. Qed.

Lemma free_futures_run fs w :
  NoDup fs → (∀ f, f ∈ fs → is_Some (futs w !! f)) →
  ∃ m, free_futures fs w = WRet tt (set_futs (λ _, m) w) ∧ ∀ f, m !! f = without fs (futs w) f.
Proof.
  revert w. induction fs as [|f fs IH]; intros w Hnd Hf; simpl.
  { exists (futs w). split; [by destruct w|done]. }
  apply NoDup_cons in Hnd as [Hni Hnd]. destruct (Hf f) as [x Hx]; [left|].
  rewrite (W_bind_run _ _ _ _ _ (get_fut_run f w x Hx)).
  rewrite (W_bind_run (future_free f) _ w tt (set_futs (delete f) w)) by done.
  destruct (IH (set_futs (delete f) w)) as (m & Hrun & Hm); [done|..].
  - intros g Hg. simpl. rewrite lookup_delete_ne by (by intros ->). apply Hf. by right.
  - exists m. split; [exact Hrun|]. intros g. rewrite Hm. apply without_delete.
Qed.

(** What a shutdown finds: a table of distinct live instances, the futures they
    list live and listed once. *)
Record shut_ok (cs : list Z) (w : world) : Prop := ShutOk {
  so_nodup : NoDup cs;
  so_inst : ∀ c, c ∈ cs → is_Some (ci w !! c) ∧ is_Some (owned (wm w) !! c);
  so_futs : ∀ c f, c ∈ cs → f ∈ default [] (links w !! c) → is_Some (futs w !! f);
  so_once : ∀ c, c ∈ cs → NoDup (default [] (links w !! c));
  so_apart : ∀ c d f, c ∈ cs → d ∈ cs → f ∈ default [] (links w !! c) → f ∈ default [] (links w !! d) → c = d
}.

Definition listed (cs : list Z) (w : world) : list Z := concat (map (λ c, default [] (links w !! c)) cs).
Definition blocks_of (cs : list Z) (w : world) : list Z :=
  concat (map (λ c, default [] (owned (wm w) !! c)) cs).

(** What freeing the instances of [cs] leaves. *)
Record shut (cs : list Z) (w w' : world) : Prop := Shut {
  sh_ci : ∀ c, ci w' !! c = without cs (ci w) c;
  sh_owned : ∀ c, owned (wm w') !! c = without cs (owned (wm w)) c;
  sh_heap : ∀ p, heap (wm w') !! p = without (blocks_of cs w) (heap (wm w)) p;
  sh_futs : ∀ f, futs w' !! f = without (listed cs w) (futs w) f;
  sh_rt : wr w' = wr w
}.

Lemma free_instances_run cs w :
  shut_ok cs w → ∃ w', free_instances cs w = WRet tt w' ∧ shut cs w w'.
Proof.
  revert w. induction cs as [|c cs IH]; intros w [Hnd Hi Hf Ho Ha]; [by exists w|].
  apply NoDup_cons in Hnd as [Hni Hnd]. cbn [free_instances].
  destruct (Hi c) as [[ct Hct] [bl Hbl]]; [left|]. set (fs := default [] (links w !! c)) in *.
  rewrite (W_bind_run (get_links c) _ w fs w) by done.
  destruct (free_futures_run fs w (Ho c ltac:(left)) (λ f, Hf c f ltac:(left))) as (m & Hfree & Hm).
  rewrite (W_bind_run _ _ _ _ _ Hfree). set (w1 := set_futs _ w) in *.
  rewrite (W_bind_run _ _ _ _ _ (drop_run c ct bl w1 Hct Hbl)).
  assert (Hsame : ∀ d, d ∈ cs → delete c (owned (wm w)) !! d = owned (wm w) !! d).
  { intros d Hd. rewrite lookup_delete_ne; [done|]. by intros ->. }
  destruct (IH (dropped c ct bl w1)) as (w' & Hrun & [S1 S2 S3 S4 S5]).
  { split; simpl; [done|..].
    - intros d Hd. rewrite !lookup_delete_ne by (by intros ->). apply Hi. by right.
    - intros d f Hd Hdf. rewrite Hm. unfold without.
      rewrite bool_decide_false; [apply (Hf d); [by right|done]|]. intros Hcf.
      assert (c = d) as <-; [|done]. eapply (Ha c d f); [left|by right|done..].
    - intros d Hd. apply Ho. by right.
    - intros d e f Hd He. apply Ha; by right. }
  exists w'. split; [exact Hrun|]. simpl in *. split.
  - intros d. rewrite S1. apply without_delete.
  - intros d. rewrite S2. apply without_delete.
  - intros p. rewrite S3. unfold blocks_of. simpl. rewrite Hbl. simpl.
    rewrite (map_ext_in _ (λ d, default [] (owned (wm w) !! d)) cs).
    + apply without_app. intros q. apply without_foldr.
    + intros d Hd. by rewrite Hsame by by apply list_elem_of_In.
  - intros f. rewrite S4. unfold listed. simpl. by apply without_app.
  - done.
Qed.
End Shutdown.
