(* ===== verification/SignProps.v ===== *)
(** * Signing: the theorem *)
From S2P Require Import Prelude Abi Memory Value ValueSpec ValueProps Iname InameSpec Policy Store Future Lifecycle LifecycleSpec SignSpec StoreMem.

Section Sign.
Context `{SA : StoreApi}.
Context (dfuel : nat).

(** The world once the name resolved, the dispatch table was built, and the
    instance struct and its lock were granted. *)
Definition dispatched (r : GeasRuntime) (w : world) : world :=
  let m := wm w in
  set_wm (Mem (heap m) (owned m) (brk m) (S (S (ticks m))) (lib m)) (set_wr r w).

Lemma dispatch_length rt d fns rt' :
  resolve_dispatch rt d = (GEAS_OK, fns, rt') → length fns = length (d_pledges d).
Proof.
  unfold resolve_dispatch. destruct (Nat.eqb_spec (length (d_pledges d)) 0) as [->|_]; [by intros [= <- _]|].
  destruct (r_alloc _ rt) as [ok rt1]. destruct ok; simpl; [|done].
  pose proof (resolve_fns_spec rt1 d (d_pledges d) 0) as H.
  destruct (resolve_fns rt1 d (d_pledges d) 0); [|done]. intros [= <- _]. destruct H as [-> _].
  apply length_imap.
Qed.

(** The part of a sign after the name and the hash were accepted. *)
Lemma sign_run name vows hash w d ts dts :
  mem_wf (wm w) → (length (instances w) ≤ GEAS_MAX_INSTANCES)%nat →
  find_desc (wr w) name = Some d → hash = 0 ∨ hash = d_shape_hash d →
  vows_readable dfuel w d vows ts dts →
  fits_slots (length (d_vows d)) → fits_slots (length (d_pledges d)) →
  wwp (geas_contract_sign dfuel (Some name) (Some vows) (Z.of_nat (length vows)) hash) w (λ '(st, a) w',
    let '(dst, fns, r) := resolve_dispatch (wr w) d in
    st = GEAS_OK ∧ dst = GEAS_OK ∧ length fns = length (d_pledges d) ∧ a = next_addr w ∧
      signed_world (dispatched r w) d fns vows ts dts w' ∨
    st ≠ GEAS_OK ∧ a = 0 ∧ unsigned_world (set_wr r w) w' ∧ (dst ≠ GEAS_OK → st = dst ∧ w' = set_wr r w)).
Proof.
  intros Hwf Hcap Hd Hh Hv Hfv Hfp. unfold geas_contract_sign. rewrite andb_false_r. simpl.
  unfold wwp at 1, mbind at 1, W_bind at 1, get_rt at 1. rewrite Hd.
  replace (negb (hash =? 0) && negb (hash =? d_shape_hash d)) with false by (destruct Hh; lia).
  destruct (resolve_dispatch (wr w) d) as [[dst fns] r] eqn:Er.
  apply wwp_bind. unfold wwp at 1, put_rt. destruct (st_ok dst) eqn:Est; cbn [negb].
  2: { apply wwp_ret. right. split_and!; try done. by intros ->. }
  apply st_ok_spec in Est as ->. pose proof (dispatch_length _ _ _ _ Er) as Hlen.
  apply wwp_bind, wwp_in_mem. unfold contract_alloc, pthread_init.
  apply wp_bind. unfold wp at 1, sys_alloc at 1.
  destruct (lib_malloc _ _ _); [|by apply wp_ret, wwp_ret; right].
  unfold wp, sys_alloc. simpl. destruct (lib_malloc _ _ _); cbn [negb]; [|by apply wwp_ret; right].
  apply wwp_bind. unfold wwp at 1, new_instance.
  change (wm (set_wr r w)) with (wm w). fold (dispatched r w).
  eapply wwp_mono.
  - apply (wwp_sign_steps dfuel (dispatched r w) d fns vows ts dts); auto.
    + destruct Hwf. by split.
    + intros E. rewrite E in Hlen. by destruct fns.
    + split; [done|]. split; [|done]. apply grown_refl.
      * apply (sign_mem_wf (dispatched r w)). destruct Hwf; by split.
      * apply (sign_mem_wf (dispatched r w)). destruct Hwf; by split.
  - intros [st a] w' [(-> & -> & H)|(Hst & -> & H)]; [left|right]; by split_and!.
Qed.
End Sign.

(** ** A concrete sign

    A store backed contract with a defaulted [dsn], one vow the host must bind,
    one transactional subcontract and its pledge. *)
Definition shop_pledge : GeasPledgeDesc := PledgeDesc "pay" None 1 900 0.
Definition shop_vows : list GeasVowDesc :=
  [VowDesc "dsn" (tag_num GEAS_TY_STRING) 1 hi_text; VowDesc "limit" (tag_num GEAS_TY_INT) 0 gzero].
Definition shop_desc : GeasContractDesc :=
  ContractDesc "Shop" 4242 1 [shop_pledge] shop_vows [Some "Pay"%string] [] 0 [] [] []
    [SchemaDesc "orders" [SchemaCol "id" 0]] (Some [GEAS_SUB_TRANSACTIONAL]).
Definition shop_rt : GeasRuntime := Runtime [shop_desc] [] [] [] 0 false [] 0 (λ _ _, true).
Definition shop_limit : GeasVowBinding := VowBinding (Some "limit"%string) (g_scalar GEAS_TY_INT 5).
Definition shop_world : world (SA := mem_store) :=
  World demo_mem ∅ (MemBase 0 0 false false) shop_rt [] 1000 ∅ ∅ [].

(** C4: [geas_contract_sign], for host bindings and defaults that are readable
    values.  An unknown name is GEAS_ERR_NAME and a foreign shape hash
    GEAS_ERR_VERSION, nothing having happened.  Otherwise sign always returns.
    Either it published: the instance is a new struct in the next free slot of
    the table, Signed, with the descriptor's shape hash and the clock's time, its
    dispatch table resolved, every pledge pending, every episode unopened, a
    connection exactly when there is a schema, and a vow array holding a fresh
    copy of the value the bindings and the defaults give each vow.  Or it
    refused: no instance, and the memory, the block lists, the instance table and
    every other instance are what they were; a dispatch refusal is the answer
    itself. *)
Theorem sign_correct `{SA : StoreApi} dfuel name vows hash w :
  mem_wf (wm w) → (length (instances w) ≤ GEAS_MAX_INSTANCES)%nat →
  let sign := geas_contract_sign dfuel (Some name) (Some vows) (Z.of_nat (length vows)) hash w in
  match find_desc (wr w) name with
  | None => sign = WRet (GEAS_ERR_NAME, 0) w
  | Some d =>
      (hash ≠ 0 ∧ hash ≠ d_shape_hash d → sign = WRet (GEAS_ERR_VERSION, 0) w) ∧
      (∀ ts dts, hash = 0 ∨ hash = d_shape_hash d → vows_readable dfuel w d vows ts dts →
       fits_slots (length (d_vows d)) → fits_slots (length (d_pledges d)) →
       ∃ st a w' dst fns r, sign = WRet (st, a) w' ∧ resolve_dispatch (wr w) d = (dst, fns, r) ∧
       (st = GEAS_OK ∧ dst = GEAS_OK ∧ length fns = length (d_pledges d) ∧ a = next_addr w ∧
          signed_world (dispatched r w) d fns vows ts dts w' ∨
        st ≠ GEAS_OK ∧ a = 0 ∧ unsigned_world (set_wr r w) w' ∧ (dst ≠ GEAS_OK → st = dst)))
  end.
Proof.
  intros Hwf Hcap sign. destruct (find_desc (wr w) name) as [d|] eqn:Hd.
  - split.
    + intros [H0 H1]. unfold sign, geas_contract_sign. rewrite andb_false_r. simpl.
      unfold mbind, W_bind, get_rt. rewrite Hd.
      by replace (negb (hash =? 0) && negb (hash =? d_shape_hash d)) with true by lia.
    + intros ts dts Hh Hv Hfv Hfp.
      pose proof (sign_run dfuel name vows hash w d ts dts Hwf Hcap Hd Hh Hv Hfv Hfp) as H.
      apply wwp_run in H as ([st a] & w' & Hrun & H). fold sign in Hrun.
      destruct (resolve_dispatch (wr w) d) as [[dst fns] r] eqn:Er.
      exists st, a, w', dst, fns, r. split_and!; [done..|]. naive_solver.
  - unfold sign, geas_contract_sign. rewrite andb_false_r. simpl.
    unfold mbind, W_bind, get_rt. by rewrite Hd.
Qed.

Lemma sign_correct_witness :
  let sign := geas_contract_sign (SA := mem_store) 5 (Some "Shop"%string) (Some [shop_limit]) 1 4242 shop_world in
  match find_desc (wr shop_world) "Shop" with
  | None => sign = WRet (GEAS_ERR_NAME, 0) shop_world
  | Some d =>
      (4242 ≠ 0 ∧ 4242 ≠ d_shape_hash d → sign = WRet (GEAS_ERR_VERSION, 0) shop_world) ∧
      ∃ st a w' dst fns r, sign = WRet (st, a) w' ∧ resolve_dispatch (wr shop_world) d = (dst, fns, r) ∧
       (st = GEAS_OK ∧ dst = GEAS_OK ∧ length fns = length (d_pledges d) ∧ a = next_addr shop_world ∧
          signed_world (dispatched r shop_world) d fns [shop_limit]
            [VScalar GEAS_TY_INT 0 5] [VString 0 [104; 105]; VScalar GEAS_TY_INT 0 0] w' ∨
        st ≠ GEAS_OK ∧ a = 0 ∧ unsigned_world (set_wr r shop_world) w' ∧ (dst ≠ GEAS_OK → st = dst))
  end.
Proof.
  pose proof (sign_correct (SA := mem_store) 5 "Shop" [shop_limit] 4242 shop_world demo_mem_wf) as H.
  destruct H as [H1 H2]; [simpl; lia|]. split; [exact H1|].
  apply (H2 [VScalar GEAS_TY_INT 0 5] [VString 0 [104; 105]; VScalar GEAS_TY_INT 0 0]).
  - by right.
  - split.
    + repeat constructor.
    + constructor; [|constructor; [|done]].
      * intros _. split; [|simpl; lia].
        change (repr (heap demo_mem) hi_text (VString 0 [104; 105])). simpl.
        split; [reflexivity|split; [reflexivity|split; [reflexivity|split]]]; [vm_compute; congruence|].
        right. split; [discriminate|]. eexists. split; reflexivity.
      * by intros [].
  - vm_compute. congruence.
  - vm_compute. congruence.
Defined.

(** The sign above run to the end: it publishes. *)
Example shop_signs :
  match geas_contract_sign (SA := mem_store) 5 (Some "Shop"%string) (Some [shop_limit]) 1 4242 shop_world with
  | WRet (st, a) w' => (st, a, instances w', c_state <$> ci w' !! a, c_store <$> ci w' !! a)
  | _ => (GEAS_ERR_TYPE, 0, [], None, None)
  end = (GEAS_OK, 20, [20], Some GEAS_SIGNED, Some (Some 1)).
Proof. vm_compute. reflexivity. Qed.
