(* ===== verification/LifecycleProps.v ===== *)
(** * Fulfillment, episodes and break: the theorems *)
From S2P Require Import Prelude Abi Memory Value ValueSpec ValueProps Frame FrameSpec Iname Policy PolicySpec Store StoreMem Future Lifecycle LifecycleSpec SignSpec SignProps.

Section Lifecycle.
Context `{SA : StoreApi}.
Context (dfuel : nat) (code : Z → Z → Z → Z → body) (callback : Z → Z → GeasValue → Z → M unit).

(** One call of the surface, with whatever bodies the pledges have. *)
Inductive api_step (w : world) : world → Prop :=
| step_sign name vows n hash r w' :
    geas_contract_sign dfuel name vows n hash w = WRet r w' → api_step w w'
| step_fulfill fuel c name args nargs refs r w' :
    geas_pledge_fulfill_sync dfuel code callback fuel c name args nargs refs w = WRet r w' → api_step w w'
| step_break c st w' : geas_contract_break c w = WRet st w' → api_step w w'.

Lemma api_step_le w w' : api_step w w' → world_le w w'.
Proof.
  intros [name vows n hash r w1 H|fuel c [name|] args nargs refs r w1 H|c st w1 H].
  - by eapply sign_keeps.
  - simpl in H. destruct (c =? 0); [w_inv H; apply world_le_refl|]. by eapply fulfill_keeps.
  - simpl in H. w_inv H. apply world_le_refl.
  - by eapply break_keeps.
Qed.

(** A finished fulfillment of pledge [i] as its caller sees it. *)
Definition answer (refs : list GeasRef) (bst wb : GeasStatus) (bout : GeasValue) : GeasStatus * GeasValue :=
  if negb (st_ok bst) then (bst, gzero) else
  if (0 <? Z.of_nat (length refs)) && negb (st_ok wb) then (wb, gzero) else (GEAS_OK, bout).

Lemma fulfill_checks_arr ct name args n refs i p :
  state_live (c_state ct) = true → find_pledge (c_desc ct) name = Some i →
  d_pledges (c_desc ct) !! i = Some p → p_nargs p = u64 (n + Z.of_nat (length refs)) →
  n ≤ 0 ∨ args ≠ 0 → fulfill_checks ct name args n (RArr refs) = (GEAS_OK, i).
Proof.
  intros Hl Hf Hp Hn Ha. unfold fulfill_checks. simpl. rewrite andb_false_r, orb_false_r.
  replace ((0 <? n) && (args =? 0)) with false by (destruct Ha; lia).
  by rewrite Hl, Hf, Hp, Hn, Z.eqb_refl.
Qed.

(** The frame a body is handed: blocks new to the instance, the arguments copied
    first and the host values behind them; no frame and no new block when there is
    no parameter. *)
Definition frame_built (c : Z) (m : mem) (frame : Z) (ts : list val) (m1 : mem) : Prop :=
  ts = [] ∧ frame = 0 ∧ m1 = m ∨
  frame ≠ 0 ∧ ∃ hn ss hd, grown c m hn m1 ∧ hn = <[frame := BVals ss]> hd ∧ hd !! frame = None ∧
    length ss = length ts ∧ reprs hd ss ts.

(** A run of the pledge's body on a built frame, calls back into the runtime
    included, as far as the call needs to know it: it returns, an Err's box is
    readable, and on GEAS_OK what the write back reads and writes is still there. *)
Definition body_run (fuel : nat) (c fn : Z) (refs : list GeasRef) (n : nat) (frame : Z) (w : world)
    (bst : GeasStatus) (bout e : GeasValue) (w2 : world) : Prop :=
  run_body dfuel (fulfill_inline dfuel code callback fuel)
    (code fn c frame (Z.of_nat (n + length refs))) w = WRet (bst, bout) w2 ∧
  payload_at (wm w2) bout e ∧
  (bst = GEAS_OK → refs ≠ [] → refs_ready callback (heap (wm w2)) frame n refs).

(** The frame of readable arguments: built, or refused for want of memory. *)
Lemma prepare_frame_run c args refs els vs m :
  mem_wf m → live c m → args_at (heap m) args els → Forall2 (host_at (heap m)) refs vs →
  (heights els ≤ dfuel)%nat → fits_slots (length els + length refs) →
  ∃ st frame m1, prepare_frame dfuel c args (Z.of_nat (length els)) refs m = Ret (st, frame) m1 ∧
    (st = GEAS_OK ∧ frame_built c m frame (map scrub els ++ vs) m1 ∧ (refs = [] ∨ frame ≠ 0) ∨
     st = GEAS_ERR_OOM ∧ refused m m1).
Proof.
  intros Hwf Hl Ha Hv Hh Hs. pose proof (Forall2_length _ _ _ Hv) as Hlen.
  destruct (decide (els ++ vs = [])) as [[-> ->]%app_eq_nil|Hne].
  { apply Forall2_nil_inv_r in Hv as ->. eexists GEAS_OK, 0, m. split; [done|]. left.
    split; [done|]. split; by left. }
  pose proof (wp_prepare_frame dfuel c args refs els vs m Hwf Hl Ha Hv Hh Hs) as H.
  apply wp_run in H as ([st frame] & m1 & Hrun & hn & G & Hres). exists st, frame, m1. split; [done|].
  destruct Hres as [[-> [[? _]|(Hf & ss & hd & E & Hd & Hls & Hr)]]|(-> & _ & ?)]; [done| |by right].
  left. split; [done|]. split; [|by right]. right. split; [done|]. exists hn, ss, hd. split_and!; auto.
  rewrite Hls, length_app, length_map. lia.
Qed.

(** After the frame: the run, the latch, the policy and the write back. *)
Lemma run_then_write_back fuel c i fn frame refs (n : nat) w ct ls bst bout e w2 :
  ci w !! c = Some ct → latched ct ls → (i < length ls)%nat → no_episode ct i →
  (refs = [] ∨ frame ≠ 0) → body_run fuel c fn refs n frame w bst bout e w2 →
  ∃ ct' wb m, ci w2 !! c = Some ct' ∧ inst_le ct ct' ∧
    ('(st, out) ← run_pledge dfuel code (fulfill_inline dfuel code callback fuel) c i fn frame
                    (Z.of_nat (n + length refs));
     match out with
     | Some out =>
         if negb (st_ok st) then mret (st, gzero) else
         if (0 <? nrefs_of (RArr refs)) && negb (frame =? 0) then
           wb ← in_mem (write_back_refs callback refs frame n);
           if st_ok wb then mret (GEAS_OK, out) else mret (wb, gzero)
         else mret (GEAS_OK, out)
     | None => mret (st, gzero)
     end) w = WRet (answer refs bst wb bout)
                (set_wm m (set_ci (λ cs, <[c := outcome_inst ct' i bst bout e]> cs) w2)) ∧
    (if st_ok bst && (0 <? Z.of_nat (length refs))
     then write_back_refs callback refs frame n (wm w2) = Ret wb m else m = wm w2).
Proof.
  intros Hc Hl Hi Hno Hfr (Hr & He & Hwb).
  destruct (run_pledge_outcome dfuel code (fulfill_inline dfuel code callback fuel) c i fn frame
    (Z.of_nat (n + length refs)) w ct ls bst bout e w2 (fulfill_keeps dfuel code callback fuel)
    Hc Hl Hi Hno Hr He) as (ct' & Hc' & Hle & Hrun).
  rewrite (W_bind_run _ _ _ _ _ Hrun). unfold answer. simpl. exists ct'.
  set (w3 := set_ci _ w2).
  destruct (st_ok bst) eqn:Est; simpl; cycle 1.
  { by exists GEAS_OK, (wm w2). }
  apply st_ok_spec in Est as ->. destruct (0 <? Z.of_nat (length refs)) eqn:En; simpl; cycle 1.
  { by exists GEAS_OK, (wm w2). }
  assert (Hne : refs ≠ []) by (by intros ->).
  destruct (write_back_returns callback frame n refs (wm w2) (Hwb eq_refl Hne)) as (wb & m & Hm & _).
  destruct Hfr as [->|Hfr]; [done|]. rewrite (proj2 (Z.eqb_neq _ _) Hfr). simpl.
  exists wb, m. split_and!; auto.
  assert (Hm3 : write_back_refs callback refs frame n (wm w3) = Ret wb m) by done.
  rewrite (W_bind_run _ _ _ _ _ (in_mem_run _ _ _ _ Hm3)). by destruct (st_ok wb).
Qed.
End Lifecycle.

(** ** Fulfillment *)

(** A contract with one loose pledge of two parameters, signed as instance 2. *)
Definition calc_desc : GeasContractDesc := plain_desc "Calc" 1 1 [PledgeDesc "add" None 2 900 (-1)].
Definition calc_inst : GeasContract :=
  Contract calc_desc GEAS_SIGNED 0 [900] 1 1000 (Some [PLEDGE_PENDING]) [gzero] None None.
Definition calc_world : world (SA := mem_store) :=
  World demo_mem {[2 := calc_inst]} (MemBase 0 0 false false) shop_rt [2] 1000 ∅ ∅ [].
Definition nine : GeasValue := g_scalar GEAS_TY_INT 9.
Definition calc_code : Z → Z → Z → Z → body (SA := mem_store) := λ _ _ _ _, BRet GEAS_OK nine.
Definition no_callback : Z → Z → GeasValue → Z → M unit := λ _ _ _ _, ret tt.

Lemma demo_args : args_at (heap demo_mem) 12 [VScalar GEAS_TY_INT 0 7; VString 0 [104; 105]].
Proof.
  right. split; [done|]. eexists. split; [reflexivity|].
  intros [|[|i]] t Ht; simplify_eq/=; eexists; (split; [reflexivity|]); [done|].
  simpl. split_and!; try done. right. split; [done|]. eexists. split; reflexivity.
Qed.
(** C5: one fulfillment outside any episode, end to end, whatever the pledge's body
    does: compute, use a store, fulfill against this or any other instance, sign,
    break.  For a live instance, a declared pledge, as many arguments and
    references as it declares, all of them readable, suppose the body comes back
    on every frame built from them, an Err's box is then readable, and on GEAS_OK
    the frame and the host's cells are still allocated.  Then
    [geas_pledge_fulfill_sync] returns.  Either the frame found no memory:
    GEAS_ERR_OOM, nothing but the allocator having moved.  Or the body ran, in the
    world with a frame of deep copies of the arguments and then the host values,
    and left some world [w2] where the instance is still there, further along; the
    call makes of [w2] exactly this: the instance takes what the outcome says (on
    GEAS_OK the pledge latches if it was still pending, fulfilled or broken with
    its payload kept, and the state is recomputed; on any other status nothing),
    the host's cells are written back on GEAS_OK, and nothing else changes.  The
    caller receives the body's value on GEAS_OK with every reference written back,
    the write back's refusal, or the body's own status, and no value then. *)
Theorem fulfill_correct `{SA : StoreApi} dfuel code callback fuel c name args refs els vs w ct ls i p fn :
  c ≠ 0 → ci w !! c = Some ct → state_live (c_state ct) = true → latched ct ls →
  find_pledge (c_desc ct) name = Some i → d_pledges (c_desc ct) !! i = Some p →
  p_nargs p = Z.of_nat (length els + length refs) → c_fns ct !! i = Some fn → no_episode ct i →
  mem_wf (wm w) → live c (wm w) →
  args_at (heap (wm w)) args els → Forall2 (host_at (heap (wm w))) refs vs →
  (heights els ≤ dfuel)%nat → fits_slots (length els + length refs) →
  (∀ frame m1, frame_built c (wm w) frame (map scrub els ++ vs) m1 →
     ∃ bst bout e w2, body_run dfuel code callback fuel c fn refs (length els) frame (set_wm m1 w) bst bout e w2) →
  ∃ st out w',
    geas_pledge_fulfill_sync dfuel code callback (S fuel) c (Some name) args (Z.of_nat (length els))
      (RArr refs) w = WRet (st, out) w' ∧
    (st = GEAS_ERR_OOM ∧ out = gzero ∧ (∃ m, w' = set_wm m w ∧ refused (wm w) m) ∨
     ∃ frame m1 bst bout e w2 ct' wb m,
       frame_built c (wm w) frame (map scrub els ++ vs) m1 ∧
       body_run dfuel code callback fuel c fn refs (length els) frame (set_wm m1 w) bst bout e w2 ∧
       ci w2 !! c = Some ct' ∧ inst_le ct ct' ∧
       w' = set_wm m (set_ci (λ cs, <[c := outcome_inst ct' i bst bout e]> cs) w2) ∧
       (st, out) = answer refs bst wb bout ∧
       (if st_ok bst && (0 <? Z.of_nat (length refs))
        then write_back_refs callback refs frame (length els) (wm w2) = Ret wb m else m = wm w2)).
Proof.
  intros Hc0 Hc Hlive Hl Hf Hp Hn Hfn Hno Hwf Hlv Ha Hv Hh Hs Hb.
  assert (Hu : u64 (Z.of_nat (length els) + Z.of_nat (length refs)) = Z.of_nat (length els + length refs)).
  { revert Hs. unfold fits_slots, sizeof_GeasBlock, sizeof_GeasValue. intros Hs. rewrite u64_id; zlia. }
  assert (Hil : (i < length ls)%nat) by (destruct Hl as [_ ->]; by eapply lookup_lt_Some).
  unfold geas_pledge_fulfill_sync. rewrite (proj2 (Z.eqb_neq c 0)) by done. cbn [fulfill_inline].
  rewrite (W_bind_run _ _ _ _ _ (get_inst_run _ _ _ Hc)).
  rewrite (fulfill_checks_arr ct name args (Z.of_nat (length els)) refs i p); auto; cycle 1.
  { by rewrite Hu. }
  { destruct Ha as [->|[? _]]; [left; simpl; lia|by right]. }
  cbn [st_ok negb nrefs_of refs_of]. rewrite Hfn, Hu, Nat2Z.id.
  destruct (prepare_frame_run dfuel c args refs els vs (wm w)) as (fst & frame & m1 & Hrun & Hres); auto.
  rewrite (W_bind_run _ _ _ _ _ (in_mem_run _ _ _ _ Hrun)).
  destruct Hres as [(-> & Hfb & Hfr)|(-> & Href)]; simpl; cycle 1.
  { eexists _, _, _. split; [done|]. left. split_and!; eauto. }
  destruct (Hb frame m1 Hfb) as (bst & bout & e & w2 & Hr).
  destruct (run_then_write_back dfuel code callback fuel c i fn frame refs (length els) (set_wm m1 w) ct ls
    bst bout e w2) as (ct' & wb & m & Hc' & Hle & Hrest & Hm); auto.
  exists (answer refs bst wb bout).1, (answer refs bst wb bout).2, (set_wm m
    (set_ci (λ cs, <[c := outcome_inst ct' i bst bout e]> cs) w2)).
  split; [by destruct (answer refs bst wb bout)|]. right.
  exists frame, m1, bst, bout, e, w2, ct', wb, m. split_and!; auto. by destruct (answer refs bst wb bout).
Qed.

(** Two loose pledges: [add] of two parameters, whose body fulfills [leaf], the
    other pledge of its own instance. *)
Definition nest_desc : GeasContractDesc :=
  plain_desc "Calc" 1 1 [PledgeDesc "add" None 2 900 (-1); PledgeDesc "leaf" None 0 901 (-1)].
Definition nest_inst : GeasContract :=
  Contract nest_desc GEAS_SIGNED 0 [900; 901] 1 1000 (Some [PLEDGE_PENDING; PLEDGE_PENDING])
    [gzero; gzero] None None.
Definition nest_world : world (SA := mem_store) :=
  World demo_mem {[2 := nest_inst]} (MemBase 0 0 false false) shop_rt [2] 1000 ∅ ∅ [].
Definition nest_code : Z → Z → Z → Z → body (SA := mem_store) := λ fn c _ _,
  if fn =? 900 then BFulfill c "leaf" 0 0 (RArr []) (λ '(st, v), BRet st v) else BRet GEAS_OK nine.

(** The nested call latches [leaf] first; the outer one finds it latched. *)
Example nested_latches :
  match geas_pledge_fulfill_sync 5 nest_code no_callback 2 2 (Some "add"%string) 12 2 (RArr []) nest_world with
  | WRet r w' => r = (GEAS_OK, nine) ∧
      (c_state <$> ci w' !! 2) = Some GEAS_FULFILLED ∧
      (c_pledge_state <$> ci w' !! 2) = Some (Some [PLEDGE_FULFILLED; PLEDGE_FULFILLED])
  | _ => False
  end.
Proof. vm_compute. by split_and!. Qed.

Lemma fulfill_correct_witness :
  ∃ st out w',
    geas_pledge_fulfill_sync (SA := mem_store) 5 nest_code no_callback 2 2 (Some "add"%string) 12 2
      (RArr []) nest_world = WRet (st, out) w' ∧
    (st = GEAS_ERR_OOM ∧ out = gzero ∧ (∃ m, w' = set_wm m nest_world ∧ refused (wm nest_world) m) ∨
     ∃ frame m1 bst bout e w2 ct' wb m,
       frame_built 2 (wm nest_world) frame [VScalar GEAS_TY_INT 0 7; VString 0 [104; 105]] m1 ∧
       body_run 5 nest_code no_callback 1 2 900 [] 2 frame (set_wm m1 nest_world) bst bout e w2 ∧
       ci w2 !! 2 = Some ct' ∧ inst_le nest_inst ct' ∧
       w' = set_wm m (set_ci (λ cs, <[2 := outcome_inst ct' 0 bst bout e]> cs) w2) ∧
       (st, out) = answer [] bst wb bout ∧
       (if st_ok bst && (0 <? 0)
        then write_back_refs no_callback [] frame 2 (wm w2) = Ret wb m else m = wm w2)).
Proof.
  apply (fulfill_correct (SA := mem_store) 5 nest_code no_callback 1 2 "add" 12 []
    [VScalar GEAS_TY_INT 0 7; VString 0 [104; 105]] [] nest_world nest_inst
    [PLEDGE_PENDING; PLEDGE_PENDING] 0 (PledgeDesc "add" None 2 900 (-1)) 900).
  - discriminate.
  - reflexivity.
  - reflexivity.
  - split; reflexivity.
  - reflexivity.
  - reflexivity.
  - reflexivity.
  - reflexivity.
  - left. reflexivity.
  - apply demo_mem_wf.
  - apply demo_live.
  - apply demo_args.
  - constructor.
  - vm_compute. lia.
  - vm_compute. congruence.
  - intros frame m1 _. do 4 eexists. split; [reflexivity|]. split; [intros H; discriminate H|].
    intros _ []. reflexivity.
Unshelve. exact gzero.
Defined.

(** A call past its entry tests, from its frame on. *)
Lemma fulfill_from_frame `{SA : StoreApi} dfuel code callback fuel c name args nargs refs w ct i fst frame m1 :
  c ≠ 0 → ci w !! c = Some ct → fulfill_checks ct name args nargs refs = (GEAS_OK, i) →
  prepare_frame dfuel c args nargs (refs_of refs) (wm w) = Ret (fst, frame) m1 →
  (fst ≠ GEAS_OK →
   geas_pledge_fulfill_sync dfuel code callback (S fuel) c (Some name) args nargs refs w =
   WRet (fst, gzero) (set_wm m1 w)) ∧
  (∀ fn st w', fst = GEAS_OK → c_fns ct !! i = Some fn →
   run_pledge dfuel code (fulfill_inline dfuel code callback fuel) c i fn frame (u64 (nargs + nrefs_of refs))
     (set_wm m1 w) = WRet (st, None) w' →
   geas_pledge_fulfill_sync dfuel code callback (S fuel) c (Some name) args nargs refs w =
   WRet (st, gzero) w').
Proof.
  intros Hc0 Hc Hch Hf. unfold geas_pledge_fulfill_sync. rewrite (proj2 (Z.eqb_neq c 0)) by done.
  cbn [fulfill_inline]. rewrite (W_bind_run _ _ _ _ _ (get_inst_run _ _ _ Hc)), Hch. cbn [st_ok negb].
  rewrite (W_bind_run _ _ _ _ _ (in_mem_run _ _ _ _ Hf)). split.
  - intros Hst. destruct (st_ok fst) eqn:E; [by apply st_ok_spec in E|]. done.
  - intros fn st w' -> Hfn Hr. cbn [st_ok negb]. rewrite Hfn. by rewrite (W_bind_run _ _ _ _ _ Hr).
Qed.

Lemma array_missing nargs args refs :
  (0 <? nargs) && (args =? 0) ||
    (0 <? nrefs_of refs) && match refs with RNull _ => true | _ => false end = true ↔
  (0 < nargs ∧ args = 0) ∨ ∃ n, refs = RNull n ∧ 0 < n.
Proof.
  destruct refs as [n|l]; simpl; split.
  - intros [H|H]%orb_true_iff; [left|right; exists n]; (split; [done || lia|lia]).
  - intros [[? ->]|(m & [= ->] & ?)]; lia.
  - intros [H|H]%orb_true_iff; [left; split; lia|]. by rewrite andb_false_r in H.
  - intros [[? ->]|(m & ? & ?)]; [lia|done].
Qed.

(** C36: every refusal before the body runs.  The entry tests: GEAS_ERR_TYPE for a
    NULL instance or name, for a positive count with no array and for a count the
    pledge does not declare, GEAS_ERR_STATE for a contract that is not live,
    GEAS_ERR_NAME for a pledge it does not have, tested in that order, with the
    world exactly as it was.  Then the frame, whatever the arguments and the
    references are: a run of [prepare_frame] only adds blocks to the instance;
    when it refuses, with GEAS_ERR_TYPE, or with GEAS_ERR_OOM after the allocator
    refused, the call hands that on, those blocks stay with the instance and
    nothing else has moved; and it does refuse when a reference has no host
    address or a type that cannot cross.  Then the episode's gate, the frame
    built: GEAS_ERR_STATE once the episode is over, and the status of a
    transaction that cannot begin, the episode unopened, only the frame and the
    store having moved.  Every one of them clears the answer. *)
Theorem fulfill_refusals `{SA : StoreApi} dfuel code callback fuel c name args nargs refs w ct :
  ci w !! c = Some ct → c ≠ 0 →
  let call n c := geas_pledge_fulfill_sync dfuel code callback (S fuel) c n args nargs refs w in
  let null := (0 < nargs ∧ args = 0) ∨ ∃ n, refs = RNull n ∧ 0 < n in
  let open := c_state ct = GEAS_SIGNED ∨ c_state ct = GEAS_PARTIAL ∨ c_state ct = GEAS_FULFILLED in
  (call None c = WRet (GEAS_ERR_TYPE, gzero) w ∧
   call (Some name) 0 = WRet (GEAS_ERR_TYPE, gzero) w ∧
   (null → call (Some name) c = WRet (GEAS_ERR_TYPE, gzero) w) ∧
   (¬ null → ¬ open → call (Some name) c = WRet (GEAS_ERR_STATE, gzero) w) ∧
   (¬ null → open → find_pledge (c_desc ct) name = None → call (Some name) c = WRet (GEAS_ERR_NAME, gzero) w) ∧
   (∀ i p, ¬ null → open → find_pledge (c_desc ct) name = Some i → d_pledges (c_desc ct) !! i = Some p →
      p_nargs p ≠ u64 (nargs + nrefs_of refs) → call (Some name) c = WRet (GEAS_ERR_TYPE, gzero) w)) ∧
  (∀ i p fn fst frame m1, ¬ null → open →
     find_pledge (c_desc ct) name = Some i → d_pledges (c_desc ct) !! i = Some p →
     p_nargs p = u64 (nargs + nrefs_of refs) → c_fns ct !! i = Some fn →
     mem_wf (wm w) → live c (wm w) →
     prepare_frame dfuel c args nargs (refs_of refs) (wm w) = Ret (fst, frame) m1 →
     (∃ hn, grown c (wm w) hn m1) ∧
     (fst ≠ GEAS_OK → call (Some name) c = WRet (fst, gzero) (set_wm m1 w) ∧
        (fst = GEAS_ERR_TYPE ∨ fst = GEAS_ERR_OOM ∧ refused (wm w) m1)) ∧
     (p_nargs p ≠ 0 → ¬ Forall crosses (refs_of refs) → fst ≠ GEAS_OK) ∧
     (∀ h ts, fst = GEAS_OK → c_store ct = Some h → c_sub_txn ct = Some ts →
        0 <= pledge_txn_sub (c_desc ct) i →
        let slot := ts !! Z.to_nat (pledge_txn_sub (c_desc ct) i) in
        (slot = Some TXN_DONE → call (Some name) c = WRet (GEAS_ERR_STATE, gzero) (set_wm m1 w)) ∧
        (∀ st s, slot = Some TXN_NONE → geas_store_begin h (ws w) = (st, s) → st ≠ GEAS_OK →
           call (Some name) c = WRet (st, gzero) (set_ws s (set_wm m1 w))))).
Proof.
  intros Hc Hc0 call null open.
  assert (Hrun : ∀ st i, fulfill_checks ct name args nargs refs = (st, i) → st_ok st = false →
    call (Some name) c = WRet (st, gzero) w).
  { intros st i Hch Hst. unfold call, geas_pledge_fulfill_sync. rewrite (proj2 (Z.eqb_neq c 0)) by done.
    cbn [fulfill_inline]. rewrite (W_bind_run _ _ _ _ _ (get_inst_run _ _ _ Hc)), Hch. simpl.
    by rewrite Hst. }
  assert (Hlive : ¬ open → state_live (c_state ct) = false) by (unfold open; destruct (c_state ct); naive_solver).
  assert (Hlive' : open → state_live (c_state ct) = true) by (unfold open; destruct (c_state ct); naive_solver).
  set (b := (0 <? nargs) && (args =? 0) ||
            (0 <? nrefs_of refs) && match refs with RNull _ => true | _ => false end).
  assert (Hb : b = true ↔ null) by apply array_missing.
  assert (Hbf : ¬ null → b = false) by (intros H; apply not_true_is_false; by rewrite Hb).
  split; [split_and!; try done|].
  - intros H. apply (Hrun _ 0%nat); [|done]. unfold fulfill_checks. fold b. by rewrite (proj2 Hb).
  - intros H Hs. apply (Hrun _ 0%nat); [|done]. unfold fulfill_checks. fold b. by rewrite Hbf, Hlive.
  - intros H Hs Hn. apply (Hrun _ 0%nat); [|done]. unfold fulfill_checks. fold b.
    by rewrite Hbf, Hlive', Hn.
  - intros i p H Hs Hn Hp Hne. apply (Hrun _ 0%nat); [|done]. unfold fulfill_checks. fold b.
    rewrite Hbf, Hlive', Hn, Hp by done. simpl.
    destruct (Z.eqb_spec (u64 (nargs + nrefs_of refs)) (p_nargs p)); [congruence|done].
  - intros i p fn fst frame m1 H Hs Hn Hp Har Hfn Hwf Hl Hf.
    assert (Hch : fulfill_checks ct name args nargs refs = (GEAS_OK, i)).
    { unfold fulfill_checks. fold b. by rewrite Hbf, Hlive', Hn, Hp, Har, Z.eqb_refl. }
    destruct (fulfill_from_frame dfuel code callback fuel c name args nargs refs w ct i fst frame m1)
      as [Hno Hgate]; auto.
    pose proof (pwp_prepare_frame c (wm w) Hwf Hl dfuel args nargs (refs_of refs) (wm w)
      (ex_intro _ ∅ (grown_refl _ _ Hwf Hl))) as P.
    unfold pwp in P. rewrite Hf in P. destruct P as (Hbt & _ & Href & _ & Hcr). split; [done|]. split_and!.
    + intros Hst. split; [by apply Hno|]. by destruct Href as [?|[?|?]]; [|left|right].
    + intros Hnz Hbad ->. destruct refs as [n|l]; [by destruct Hbad|]. apply Hbad, Hcr; [done|].
      simpl in Har |- *. by rewrite <- Har.
    + intros h ts -> Hh Ht Hsub slot. split.
      * intros Hd. eapply Hgate; [done..|]. eapply run_pledge_done; eauto.
      * intros st s Hd Hbg Hst. eapply Hgate; [done..|]. eapply run_pledge_begin; eauto.
Qed.

(** One argument and one reference to nowhere: the argument's copy is made, then
    the reference refuses. *)
Definition lost_ref : GeasRef := Ref 0 (tag_num GEAS_TY_INT) 8 0 0.
Definition lost_mem : mem :=
  match prepare_frame 5 2 12 1 [lost_ref] demo_mem with Ret _ m => m | _ => demo_mem end.

Lemma fulfill_refusals_witness :
  let call n c := geas_pledge_fulfill_sync (SA := mem_store) 5 calc_code no_callback 1 c n 12 1
                    (RArr [lost_ref]) calc_world in
  call None 2 = WRet (GEAS_ERR_TYPE, gzero) calc_world ∧
  call (Some "nope"%string) 2 = WRet (GEAS_ERR_NAME, gzero) calc_world ∧
  call (Some "add"%string) 2 = WRet (GEAS_ERR_TYPE, gzero) (set_wm lost_mem calc_world) ∧
  ∃ hn, grown 2 demo_mem hn lost_mem.
Proof.
  intros call.
  assert (Hn : ¬ ((0 < 1 ∧ 12 = 0) ∨ ∃ n, RArr [lost_ref] = RNull n ∧ 0 < n)).
  { intros [[_ H]|(n & H & _)]; discriminate H. }
  destruct (fulfill_refusals (SA := mem_store) 5 calc_code no_callback 0 2 "add" 12 1 (RArr [lost_ref])
    calc_world calc_inst eq_refl ltac:(discriminate)) as [(H1 & _) H2].
  destruct (fulfill_refusals (SA := mem_store) 5 calc_code no_callback 0 2 "nope" 12 1 (RArr [lost_ref])
    calc_world calc_inst eq_refl ltac:(discriminate)) as [(_ & _ & _ & _ & H3 & _) _].
  split; [exact H1|]. split; [apply H3; [exact Hn|by left|reflexivity]|].
  destruct (H2 0%nat (PledgeDesc "add" None 2 900 (-1)) 900 GEAS_ERR_TYPE 0 lost_mem) as (Hg & Hr & _).
  - exact Hn.
  - by left.
  - reflexivity.
  - reflexivity.
  - reflexivity.
  - reflexivity.
  - apply demo_mem_wf.
  - apply demo_live.
  - vm_compute. reflexivity.
  - split; [apply Hr; discriminate|exact Hg].
Defined.

(** ** Every call moves every instance forward *)

Definition calc_done : world (SA := mem_store) :=
  match geas_pledge_fulfill_sync 5 calc_code no_callback 1 2 (Some "add"%string) 12 2 (RArr []) calc_world with
  | WRet _ w => w | _ => calc_world
  end.
Definition calc_broken : world (SA := mem_store) :=
  match geas_contract_break 2 calc_done with WRet _ w => w | _ => calc_done end.

(** C8: whatever pledge bodies do (compute, use a store, fulfill, sign or break
    any instance, their own included), no sequence of sign, fulfill and break
    calls ever moves an instance backwards: it is never lost, its descriptor,
    shape hash and signing time never change, Broken is terminal, a latch that
    left pending never changes again, an episode only goes from unopened to open
    to done, and a broken pledge's stored payload stays until an explicit break
    zeroes it. *)
Theorem instances_move_forward `{SA : StoreApi} dfuel code callback w w' c ct :
  rtc (api_step dfuel code callback) w w' → ci w !! c = Some ct →
  ∃ ct', ci w' !! c = Some ct' ∧ inst_le ct ct'.
Proof.
  intros H. revert ct. assert (L : world_le w w'); [|intros ct Hc; by apply L].
  induction H as [w|w w1 w' H1 _ IH]; [apply world_le_refl|].
  eapply world_le_trans; [by eapply api_step_le|exact IH].
Qed.

Lemma instances_move_forward_witness :
  ∃ ct', ci calc_broken !! 2 = Some ct' ∧ inst_le calc_inst ct'.
Proof.
  apply (instances_move_forward (SA := mem_store) 5 calc_code no_callback calc_world).
  - eapply rtc_l.
    + apply (step_fulfill 5 calc_code no_callback _ 1 2 (Some "add"%string) 12 2 (RArr []) (GEAS_OK, nine) calc_done).
      vm_compute. reflexivity.
    + eapply rtc_l; [|apply rtc_refl].
      apply (step_break 5 calc_code no_callback _ 2 GEAS_OK). vm_compute. reflexivity.
  - reflexivity.
Defined.

(** ** Break *)

Lemma forfeit_twice x : future_forfeit (future_forfeit x) = future_forfeit x.
Proof. destruct x as [? ? ? ? ? ? ? wt]. unfold future_forfeit. by destruct wt. Qed.

Lemma lookup_forfeited fs m f :
  forfeited fs m !! f = (λ x, if bool_decide (f ∈ fs) then future_forfeit x else x) <$> m !! f.
Proof.
  revert m. induction fs as [|g fs IH]; intros m; unfold forfeited; simpl.
  - by destruct (m !! f).
  - fold (forfeited fs (alter future_forfeit g m)). rewrite IH. destruct (decide (f = g)) as [->|Hne].
    + rewrite lookup_alter_eq. destruct (m !! g) as [x|]; [|done]. simpl. f_equal.
      rewrite (bool_decide_true (g ∈ g :: fs)) by left.
      case_bool_decide; [apply forfeit_twice|done].
    + rewrite lookup_alter_ne by done. destruct (m !! f) as [x|]; [|done]. simpl. f_equal.
      rewrite (bool_decide_ext (f ∈ fs) (f ∈ g :: fs)); [done|]. rewrite elem_of_cons. tauto.
Qed.

(** A live call against a broken contract. *)
Lemma broken_refuses `{SA : StoreApi} dfuel code callback fuel c name args nargs refs w ct :
  c ≠ 0 → ci w !! c = Some ct → c_state ct = GEAS_BROKEN → nargs ≤ 0 ∨ args ≠ 0 →
  geas_pledge_fulfill_sync dfuel code callback (S fuel) c (Some name) args nargs (RArr refs) w =
  WRet (GEAS_ERR_STATE, gzero) w.
Proof.
  intros Hc0 Hc Hst Ha. unfold geas_pledge_fulfill_sync. rewrite (proj2 (Z.eqb_neq c 0)) by done.
  cbn [fulfill_inline]. rewrite (W_bind_run _ _ _ _ _ (get_inst_run _ _ _ Hc)).
  unfold fulfill_checks. rewrite andb_false_r, orb_false_r, Hst.
  by replace ((0 <? nargs) && (args =? 0)) with false by (destruct Ha; lia).
Qed.

(** C6: [geas_contract_break] of a contract that was signed, its block list and
    its futures being live.  It answers GEAS_OK; the contract is Broken, its
    latches are kept, its stored payloads are zeroed and it has no connection;
    every block it owned is freed and nothing any other instance owns is; no
    other instance record changes; every unwaited future it issued is forfeited
    and no other is touched; uncommitted work is not durable; and from then on
    every fulfillment against it is refused GEAS_ERR_STATE with nothing changed. *)
Theorem break_correct `{SL : StoreLaws} dfuel code callback c w ct bl :
  c ≠ 0 → ci w !! c = Some ct → c_state ct ≠ GEAS_UNSIGNED → mem_wf (wm w) →
  owned (wm w) !! c = Some bl → (∀ f, f ∈ default [] (links w !! c) → is_Some (futs w !! f)) →
  ∃ w' ct', geas_contract_break c w = WRet GEAS_OK w' ∧ ci w' !! c = Some ct' ∧
    c_state ct' = GEAS_BROKEN ∧ c_store ct' = None ∧ c_pledge_state ct' = c_pledge_state ct ∧
    c_pledge_err ct' = replicate (length (c_pledge_err ct)) gzero ∧
    (∀ d, d ≠ c → ci w' !! d = ci w !! d) ∧
    (∀ p, heap (wm w') !! p = if bool_decide (p ∈ bl) then None else heap (wm w) !! p) ∧
    (∀ d bd p, d ≠ c → owned (wm w) !! d = Some bd → p ∈ bd →
       owned (wm w') !! d = Some bd ∧ heap (wm w') !! p = heap (wm w) !! p) ∧
    (∀ f, futs w' !! f =
       (λ x, if bool_decide (f ∈ default [] (links w !! c)) then future_forfeit x else x) <$> futs w !! f) ∧
    durable (ws w') = durable (ws w) ∧
    (∀ fuel name args nargs refs, nargs ≤ 0 ∨ args ≠ 0 →
       geas_pledge_fulfill_sync dfuel code callback (S fuel) c (Some name) args nargs (RArr refs) w' =
       WRet (GEAS_ERR_STATE, gzero) w').
Proof.
  intros Hc0 Hc Hst Hwf Hbl Hf.
  assert (Hc' : ci (break_world c ct bl w) !! c = Some (broken_inst ct)) by apply lookup_insert_eq.
  exists (break_world c ct bl w), (broken_inst ct). split; [by apply break_run|].
  split; [exact Hc'|]. do 4 (split; [done|]). split_and!.
  - intros d Hd. simpl. by rewrite lookup_insert_ne.
  - intros p. apply lookup_foldr_delete.
  - intros d bd p Hd Hod Hp. simpl. rewrite lookup_insert_ne by done. split; [done|].
    rewrite lookup_foldr_delete, bool_decide_false; [done|]. intros Hp'.
    apply Hd. eapply (wf_disj _ Hwf); eauto.
  - intros f. apply lookup_forfeited.
  - simpl. unfold broken_store. destruct (c_store ct) as [h|]; [|done].
    rewrite close_durable. destruct (geas_store_rollback h (ws w)) eqn:E. by eapply rollback_durable.
  - intros fuel name args nargs refs Ha. by eapply broken_refuses.
Qed.

(** The concrete break: [calc_world] with a future waiting. *)
Definition wait_world : world (SA := mem_store) :=
  set_links (λ _, {[2 := [50]]}) (set_futs (λ _, {[50 := fresh_future 2]}) calc_world).

Lemma break_correct_witness :
  ∃ w' ct', geas_contract_break 2 wait_world = WRet GEAS_OK w' ∧ ci w' !! 2 = Some ct' ∧
    c_state ct' = GEAS_BROKEN ∧ c_store ct' = None ∧ c_pledge_state ct' = Some [PLEDGE_PENDING] ∧
    c_pledge_err ct' = [gzero] ∧
    (∀ d, d ≠ 2 → ci w' !! d = ci wait_world !! d) ∧
    (∀ p, heap (wm w') !! p = if bool_decide (p ∈ []) then None else heap demo_mem !! p) ∧
    (∀ d bd p, d ≠ 2 → owned demo_mem !! d = Some bd → p ∈ bd →
       owned (wm w') !! d = Some bd ∧ heap (wm w') !! p = heap demo_mem !! p) ∧
    (∀ f, futs w' !! f =
       (λ x, if bool_decide (f ∈ [50]) then future_forfeit x else x) <$> futs wait_world !! f) ∧
    durable (SA := mem_store) (ws w') = 0%nat ∧
    (∀ fuel name args nargs refs, nargs ≤ 0 ∨ args ≠ 0 →
       geas_pledge_fulfill_sync 5 calc_code no_callback (S fuel) 2 (Some name) args nargs (RArr refs) w' =
       WRet (GEAS_ERR_STATE, gzero) w').
Proof.
  refine (break_correct (SL := mem_laws) 5 calc_code no_callback 2 wait_world calc_inst [] _ _ _ _ _ _).
  - discriminate.
  - reflexivity.
  - discriminate.
  - apply demo_mem_wf.
  - reflexivity.
  - intros f ->%list_elem_of_singleton. by eexists.
Defined.

(** ** Transactional episodes *)

Section Episodes.
Context `{SL : StoreLaws}.
Context (dfuel : nat) (code : Z → Z → Z → Z → body) (callback : Z → Z → GeasValue → Z → M unit).
Context (c s : Z).

(** Successive fulfillments of pledges of subcontract [s] of instance [c]: the
    worlds passed through, each with the answer that led to it. *)
Inductive episode_run : world → list (GeasStatus * world) → Prop :=
| er_nil w : episode_run w []
| er_cons w fuel name args nargs refs r w' l :
    (∀ ct i, ci w !! c = Some ct → find_pledge (c_desc ct) name = Some i →
       pledge_txn_sub (c_desc ct) i = s) →
    fulfill_inline dfuel code callback fuel c name args nargs refs w = WRet r w' →
    episode_run w' l → episode_run w ((r.1, w') :: l).

Hypothesis (Hs0 : 0 <= s) (Hloc : ∀ fn frame n, local_body c (code fn c frame n)).

Lemma run_closed w l :
  ep c s w TXN_DONE → episode_run w l → Forall (λ '(st, v), st ≠ GEAS_OK ∧ ws v = ws w) l.
Proof.
  intros Hep H. induction H as [w|w fuel name args nargs refs r w' l Hsub Hrun _ IH]; [done|].
  destruct (fulfill_episode dfuel code callback c s fuel name args nargs refs w TXN_DONE r w'
    Hep Hs0 Hsub Hloc Hrun) as (t' & Hep' & Hd & _). destruct (Hd eq_refl) as (-> & _ & Ew & Hr).
  constructor; [by split|]. specialize (IH Hep'). eapply Forall_impl; [exact IH|].
  intros [st v]. by rewrite Ew.
Qed.

Lemma run_episode w t l :
  ep c s w t → episode_run w l →
  ∃ k, Forall (λ '(_, v), durable (ws v) = durable (ws w)) (take k l) ∧
    (drop k l = [] ∨ ∃ st v l', drop k l = (st, v) :: l' ∧ all_fulfilled c s v ∧
       Forall (λ '(st', v'), st' ≠ GEAS_OK ∧ ws v' = ws v) l').
Proof.
  intros Hep H. revert t Hep.
  induction H as [w|w fuel name args nargs refs r w' l Hsub Hrun Hrest IH]; intros t Hep.
  { exists 0%nat. by split; [|left]. }
  destruct (fulfill_episode dfuel code callback c s fuel name args nargs refs w t r w'
    Hep Hs0 Hsub Hloc Hrun) as (t' & Hep' & _ & [Hd|[-> Hall]]).
  - destruct (IH t' Hep') as (k & Hk & Hrst). exists (S k). split; [|done]. simpl.
    constructor; [done|]. eapply Forall_impl; [exact Hk|]. intros [st v]. by rewrite Hd.
  - exists 0%nat. split; [done|]. right. exists r.1, w', l. split; [done|]. split; [done|].
    by apply run_closed.
Qed.
End Episodes.

(** A shop after its sign, and pledges that each write one row through the
    instance's connection; a function address below 1000 answers Ok, 1000 answers
    an Err with no payload. *)
Definition pay_code : Z → Z → Z → Z → body (SA := mem_store) := λ fn c _ _,
  BStore (SA := mem_store) c tt (λ st, if st_ok st
    then BRet GEAS_OK (if fn =? 1000 then GV (tag_num GEAS_TY_RESULT) 1 0 0 0 0 else nine)
    else BRet st gzero).
Definition signed_shop : world (SA := mem_store) :=
  match geas_contract_sign 5 (Some "Shop"%string) (Some [shop_limit]) 1 4242 shop_world with
  | WRet _ w => w | _ => shop_world
  end.
Definition paid_shop : world (SA := mem_store) :=
  match fulfill_inline 5 pay_code no_callback 1 20 "pay" 11 1 (RArr []) signed_shop with
  | WRet _ w => w | _ => signed_shop
  end.

Definition again_shop : world (SA := mem_store) :=
  match fulfill_inline 5 pay_code no_callback 1 20 "pay" 11 1 (RArr []) paid_shop with
  | WRet _ w => w | _ => paid_shop
  end.

Lemma pay_local fn frame n : local_body 20 (pay_code fn 20 frame n).
Proof.
  unfold pay_code. constructor.
  - intros st. destruct (st_ok st); constructor.
  - intros st Hst. destruct (st_ok st) eqn:E; [by apply st_ok_spec in E|]. eauto.
Qed.

(** C7: a transactional subcontract is one all or nothing episode.  Through any
    sequence of fulfillments of its pledges, by bodies that work on their own
    connection and hand a refused statement back, nothing becomes durable before
    one fulfillment after which every pledge of the subcontract is latched
    fulfilled; from then on every further call is refused and the store does not
    change at all.  There may be no such fulfillment, and then nothing of the
    episode is ever durable. *)
Theorem episode_all_or_nothing `{SL : StoreLaws} dfuel code callback c s w t l :
  0 <= s → (∀ fn frame n, local_body c (code fn c frame n)) →
  ep c s w t → episode_run dfuel code callback c s w l →
  ∃ k, Forall (λ '(_, v), durable (ws v) = durable (ws w)) (take k l) ∧
    (drop k l = [] ∨ ∃ st v l', drop k l = (st, v) :: l' ∧ all_fulfilled c s v ∧
       Forall (λ '(st', v'), st' ≠ GEAS_OK ∧ ws v' = ws v) l').
Proof. intros Hs0 Hloc Hep H. by eapply run_episode. Qed.

Lemma episode_all_or_nothing_witness :
  let l := [(GEAS_OK, paid_shop); (GEAS_ERR_STATE, again_shop)] in
  ∃ k, Forall (λ '(_, v), durable (SA := mem_store) (ws v) = 0%nat) (take k l) ∧
    (drop k l = [] ∨ ∃ st v l', drop k l = (st, v) :: l' ∧ all_fulfilled 20 0 v ∧
       Forall (λ '(st', v'), st' ≠ GEAS_OK ∧ ws v' = ws v) l').
Proof.
  refine (episode_all_or_nothing (SL := mem_laws) 5 pay_code no_callback 20 0 signed_shop TXN_NONE _ _ _ _ _).
  - lia.
  - apply pay_local.
  - eexists _, _, _. split; [vm_compute; reflexivity|]. split; [reflexivity|]. split; [reflexivity|].
    split; [reflexivity|discriminate].
  - assert (Hsub : ∀ (o : option GeasContract) ct i, c_desc <$> o = Some shop_desc → o = Some ct →
      find_pledge (c_desc ct) "pay" = Some i → pledge_txn_sub (c_desc ct) i = 0).
    { intros o ct i Ho ->. injection Ho as ->. intros [= <-]. reflexivity. }
    eapply (er_cons (SA := mem_store) _ _ _ _ _ signed_shop 1 "pay" 11 1 (RArr []) (GEAS_OK, nine)).
    + intros ct i. apply Hsub. vm_compute. reflexivity.
    + vm_compute. reflexivity.
    + eapply (er_cons (SA := mem_store) _ _ _ _ _ paid_shop 1 "pay" 11 1 (RArr []) (GEAS_ERR_STATE, gzero)).
      * intros ct i. apply Hsub. vm_compute. reflexivity.
      * vm_compute. reflexivity.
      * constructor.
Defined.

(** ** Where an episode and the latches disagree

    A transactional subcontract of "reserve" and "charge" beside a loose "log". *)
Definition till_desc : GeasContractDesc :=
  ContractDesc "Till" 7 1
    [PledgeDesc "reserve" None 0 900 0; PledgeDesc "charge" None 0 901 0; PledgeDesc "log" None 0 902 (-1)]
    [] [Some "Pay"%string] [] 0 [] [] [] [] (Some [GEAS_SUB_TRANSACTIONAL]).
Definition till_world (fns : list Z) (refuse : bool) : world (SA := mem_store) :=
  World demo_mem
    {[2 := Contract till_desc GEAS_SIGNED 0 fns 7 1000 (Some (replicate 3 PLEDGE_PENDING))
             (replicate 3 gzero) (Some [TXN_NONE]) (Some 1)]}
    (MemBase 0 0 false refuse) shop_rt [2] 1000 ∅ ∅ [].

(** The calls in order: every answer's status, and the world at the end. *)
Fixpoint till_calls (names : list string) (w : world (SA := mem_store))
    : list GeasStatus * world (SA := mem_store) :=
  match names with
  | [] => ([], w)
  | n :: names' =>
      match fulfill_inline 5 pay_code no_callback 1 2 n 0 0 (RArr []) w with
      | WRet (st, _) w' => let '(sts, w2) := till_calls names' w' in (st :: sts, w2)
      | _ => ([], w)
      end
  end.
Definition till_report (r : list GeasStatus * world (SA := mem_store)) :
    list GeasStatus * option (option (list latch) * GeasContractState * GeasItemState) * nat :=
  (r.1, (λ ct, (c_pledge_state ct, c_state ct, sub_item_state ct 0)) <$> ci r.2 !! 2,
   mb_rows (ws r.2)).

(** What the latches say is not always what the store holds.  A pledge of an
    open episode runs again each time it is called; a loose pledge fulfilled while
    an episode is open writes into that episode's transaction and loses its write
    with it though it latched fulfilled; after a rollback the pledge that had
    succeeded stays fulfilled, so the subcontract reads pending for ever, neither
    fulfilled nor broken; and after a commit the backend refused the answer is
    GEAS_ERR_STORE while every latch, and the contract's state, read Fulfilled
    over a store holding nothing. *)
Theorem episode_latch_gaps :
  till_report (till_calls ["reserve"; "reserve"; "charge"]%string (till_world [900; 901; 902] false)) =
    ([GEAS_OK; GEAS_OK; GEAS_OK],
     Some (Some [PLEDGE_FULFILLED; PLEDGE_FULFILLED; PLEDGE_PENDING], GEAS_PARTIAL, GEAS_ITEM_FULFILLED), 3%nat) ∧
  till_report (till_calls ["reserve"; "log"; "charge"; "reserve"]%string (till_world [900; 1000; 902] false)) =
    ([GEAS_OK; GEAS_OK; GEAS_OK; GEAS_ERR_STATE],
     Some (Some [PLEDGE_FULFILLED; PLEDGE_BROKEN; PLEDGE_FULFILLED], GEAS_SIGNED, GEAS_ITEM_PENDING), 0%nat) ∧
  till_report (till_calls ["log"; "reserve"; "charge"]%string (till_world [900; 901; 902] true)) =
    ([GEAS_OK; GEAS_OK; GEAS_ERR_STORE],
     Some (Some [PLEDGE_FULFILLED; PLEDGE_FULFILLED; PLEDGE_FULFILLED], GEAS_FULFILLED, GEAS_ITEM_FULFILLED), 1%nat).
Proof. vm_compute. done. Qed.
