(* ===== verification/TaskProps.v ===== *)
(** * Queued fulfillment: the theorems *)
From S2P Require Import Prelude Abi Memory Value ValueSpec ValueProps Frame FrameSpec FrameProps Iname Policy Store StoreMem Future Lifecycle LifecycleSpec Task TaskSpec SignProps LifecycleProps.

Lemma W_bind_assoc `{SA : StoreApi} {A B C} (e : W A) (k : A → W B) (h : B → W C) w :
  ((e ≫= k) ≫= h) w = (e ≫= λ a, k a ≫= h) w.
Proof. unfold mbind, W_bind. by destruct (e w). Qed.

Lemma W_bind_undef `{SA : StoreApi} {A B} (e : W A) (k : A → W B) w : e w = WUndef → (e ≫= k) w = WUndef.
Proof. unfold mbind, W_bind. by intros ->. Qed.
Lemma W_bind_nofuel `{SA : StoreApi} {A B} (e : W A) (k : A → W B) w : e w = WNoFuel → (e ≫= k) w = WNoFuel.
Proof. unfold mbind, W_bind. by intros ->. Qed.

Lemma W_bind_out `{SA : StoreApi} {A B} (e : W A) (k : A → W B) w :
  (e ≫= k) w = match e w with WRet a w' => k a w' | WUndef => WUndef | WNoFuel => WNoFuel end.
Proof. done. Qed.

Section Agree.
Context `{SA : StoreApi}.
Context (dfuel : nat) (code : Z → Z → Z → Z → body) (callback : Z → Z → GeasValue → Z → M unit).
Context (fuel : nat) (c : Z) (name : string) (args nargs : Z) (refs : ref_arg).

(** What the queued path asks of the system on its own account: the future, and
    past the entry tests its array of references; 0 when either is refused. *)
Definition own_requests : W Z :=
  ok ← in_mem future_alloc;
  if negb ok then mret 0 else
  ct ← get_inst c;
  if st_ok (fulfill_checks ct name args nargs refs).1 && (0 <? Z.of_nat (length (refs_of refs)))
  then in_mem (geas_bytes KBytes c (u64 (Z.of_nat (length (refs_of refs)) * sizeof_GeasRef)))
  else mret 1.

(** The same world, nothing queued, the instance's list of futures there. *)
Definition settled (w : world) : world :=
  wsub (futs w) (<[c := default [] (links w !! c)]> (links w)) [] w.

(** The queued answer [rq] to the inline answer [ri]: the same status, the same
    value on GEAS_OK, the same world. *)
Definition agrees (ri rq : wout (GeasStatus * GeasValue)) : Prop :=
  match ri with
  | WRet (st, out) wi => ∃ out', rq = WRet (st, out') (settled wi) ∧ (st = GEAS_OK → out' = out)
  | WUndef => rq = WUndef
  | WNoFuel => rq = WNoFuel
  end.

(** A body leaves the blocks of [c] allocated. *)
Definition leaves_blocks : Prop := ∀ fn frame n v r w p bl,
  run_body dfuel (fulfill_inline dfuel code callback fuel) (code fn c frame n) v = WRet r w →
  owned (wm v) !! c = Some bl → p ∈ bl → is_Some (heap (wm v) !! p) → is_Some (heap (wm w) !! p).

Hypothesis Hcode : ∀ fn d frame n, spares c (code fn d frame n).
Hypothesis (Hc0 : c ≠ 0) (Hn0 : 0 <= nrefs_of refs).

(** A worker's turn on a queue of one: the task, then the pool's hold. *)
Lemma drain_one f x l v ct n :
  apart c f v → fu_c x = c → ci v !! c = Some ct → state_live (c_state ct) = true → fu_done x = false →
  fu_refcnt x = 2 →
  pool_drain dfuel code callback fuel (S (S n)) (beside c f x l [f] v) =
  match run_pledge dfuel code (fulfill_inline dfuel code callback fuel) c (fu_pidx x) (fu_fn x)
          (fu_frame x) (fu_nargs x) v with
  | WRet (st, out) w' => WRet tt (beside c f (with_refcnt 1 (future_finish st out x)) l [] w')
  | WUndef => WUndef
  | WNoFuel => WNoFuel
  end.
Proof.
  intros Hap Hxc Hc Hl Hd Hr. cbn [pool_drain]. rewrite W_bind_out. unfold pool_worker at 1. simpl.
  change (set_queue [] (beside c f x l [f] v)) with (beside c f x l [] v). rewrite W_bind_out.
  assert (HF : futs (beside c f x l [] v) !! f = Some x) by apply lookup_insert_eq.
  destruct (clear_pledge c f x l [] dfuel code Hcode (fulfill_inline dfuel code callback fuel) c
    (fu_pidx x) (fu_fn x) (fu_frame x) (fu_nargs x)
    (clear_fulfill c f x l [] dfuel code callback Hcode fuel) v Hap) as [Hb _].
  unfold run_task. rewrite (W_bind_run _ _ _ _ _ (get_fut_run f _ x HF)), Hxc.
  rewrite (W_bind_run _ _ _ _ _ (get_inst_run c (beside c f x l [] v) ct Hc)), Hl. cbn [negb].
  rewrite W_bind_out, Hb. destruct (run_pledge _ _ _ _ _ _ _ _ v) as [[st out] w'| |]; [|done..].
  unfold wmap. unfold upd_fut at 1. unfold beside at 1. simpl. rewrite lookup_insert_eq.
  assert (Hrc : fu_refcnt (future_finish st out x) = 2) by (unfold future_finish; by rewrite Hd).
  unfold future_unref, mbind, W_bind, get_fut, upd_fut. simpl.
  rewrite lookup_insert_eq. simpl. rewrite lookup_insert_eq, Hrc. simpl.
  unfold beside, wsub, set_futs. simpl. by rewrite !insert_insert_eq.
Qed.

(** The one wait on it, and the release: the future is gone again. *)
Lemma wait_beside f x v :
  f ≠ 0 → apart c f v → fu_c x = c → fu_done x = true → fu_waited x = false → fu_refcnt x = 1 →
  (r ← geas_future_wait callback f;
   match r with
   | None => wnofuel
   | Some (st, val) => future_release f;; mret (st, default gzero val)
   end) (beside c f x (default [] (links v !! c)) [] v) =
  match delivered callback x v with
  | WRet (st, val) v' => WRet (st, default gzero val) (settled v')
  | WUndef => WUndef
  | WNoFuel => WNoFuel
  end.
Proof.
  intros Hf0 [Hfn _] Hc Hd Hw Hr. unfold beside.
  rewrite (wait_release callback f x c (default [] (links v !! c)));
    [|done|apply lookup_insert_eq|done..|apply lookup_insert_eq].
  destruct (delivered callback x v) as [[st val] v'| |] eqn:E; [|done..]. f_equal. unfold settled.
  assert (Hbl : blind (delivered callback x)).
  { unfold delivered. destruct (_ && _ && _); [|apply blind_ret]. apply blind_bind; [apply blind_in_mem|].
    intros _. apply blind_bind; [apply blind_in_mem|]. intros wb. destruct (negb _); apply blind_ret. }
  destruct (blind_same _ _ _ _ Hbl E) as [-> ->].
  by rewrite delete_insert_eq, (delete_id (futs v)), insert_insert_eq.
Qed.

(** A fulfillment that never reaches the pool: its future is finished by the
    caller, waited and released. *)
Lemma sync_unqueued st f fut v n :
  f ≠ 0 → apart c f v → st_ok st = false → fu_done fut = false → fu_waited fut = false →
  fu_refcnt fut = 1 → fu_value fut = gzero → fu_c fut = c →
  ((upd_fut f (future_finish st None);; mret f) ≫= λ f,
   if f =? 0 then mret (GEAS_ERR_OOM, gzero) else
   pool_drain dfuel code callback fuel (S n);;
   r ← geas_future_wait callback f;
   match r with
   | None => wnofuel
   | Some (st, v) => future_release f;; mret (st, default gzero v)
   end) (beside c f fut (default [] (links v !! c)) [] v) =
  WRet (st, gzero) (settled v).
Proof.
  intros Hf0 Hap Hst Hd Hw Hr Hv Hfc. set (fin := future_finish st None fut).
  rewrite (W_bind_run (upd_fut f (future_finish st None);; mret f) _ _ f
    (beside c f fin (default [] (links v !! c)) [] v)).
  2: { rewrite (W_bind_run _ _ _ _ _ (upd_fut_run f _ (beside c f fut _ [] v) fut (lookup_insert_eq _ _ _))).
       unfold mret, W_ret, beside, set_futs, wsub. simpl. by rewrite insert_insert_eq. }
  rewrite (proj2 (Z.eqb_neq f 0)) by done.
  rewrite (W_bind_run (pool_drain dfuel code callback fuel (S n)) _ _ tt
    (beside c f fin (default [] (links v !! c)) [] v)) by done.
  assert (E : fu_c fin = c ∧ fu_done fin = true ∧ fu_waited fin = false ∧ fu_refcnt fin = 1 ∧
    fu_status fin = st ∧ fu_value fin = gzero) by (unfold fin, future_finish; rewrite Hd; by split_and!).
  destruct E as (E1 & E2 & E3 & E4 & E5 & E6). rewrite wait_beside by done.
  unfold delivered. rewrite E5, Hst. simpl. by rewrite E6.
Qed.

(** The array and the frame of a queued task; the array's own request first. *)
Definition task_array (p : Z) (fut : GeasFuture) : GeasFuture :=
  if 0 <? Z.of_nat (length (refs_of refs)) then with_refs p (refs_of refs) fut else fut.
Definition task_of (p fn : Z) (i : nat) (frame : Z) (fut : GeasFuture) : GeasFuture :=
  with_task fn i frame (u64 (nargs + Z.of_nat (length (refs_of refs))))
    (if (0 <? Z.of_nat (length (refs_of refs))) && negb (frame =? 0) then frame else 0)
    (Z.to_nat nargs) (task_array p fut).

Lemma prepare_task_run f i fut l v p v1 :
  (if 0 <? Z.of_nat (length (refs_of refs))
   then in_mem (geas_bytes KBytes c (u64 (Z.of_nat (length (refs_of refs)) * sizeof_GeasRef)))
   else mret 1) v = WRet p v1 →
  prepare_task dfuel c f i nargs args (refs_of refs) (beside c f fut l [] v) =
  if p =? 0 then WRet GEAS_ERR_OOM (beside c f fut l [] v1) else
  match in_mem (prepare_frame dfuel c args nargs (refs_of refs)) v1 with
  | WRet (st, frame) w' =>
      if negb (st_ok st) then WRet st (beside c f (task_array p fut) l [] w') else
      match ci v !! c with
      | Some ct =>
          match c_fns ct !! i with
          | Some fn => WRet GEAS_OK (beside c f (task_of p fn i frame fut) l [] w')
          | None => WUndef
          end
      | None => WUndef
      end
  | WUndef => WUndef
  | WNoFuel => WNoFuel
  end.
Proof.
  intros Hs. unfold prepare_task, task_of, task_array. set (n := 0 <? Z.of_nat (length (refs_of refs))) in *.
  assert (Hs' : (if n then in_mem (geas_bytes KBytes c (u64 (Z.of_nat (length (refs_of refs)) * sizeof_GeasRef)))
    else mret 1) (beside c f fut l [] v) = WRet p (beside c f fut l [] v1) ∧ ∃ m, v1 = set_wm m v).
  { destruct n.
    - apply in_mem_inv in Hs as (m & Hm & ->). split; [|eauto].
      by rewrite (in_mem_run (geas_bytes KBytes c _) (beside c f fut l [] v) p m Hm).
    - injection Hs as <- <-. split; [done|]. exists (wm v). by destruct v. }
  destruct Hs' as [Hs' (m & ->)]. rewrite (W_bind_run _ _ _ _ _ Hs'). destruct (p =? 0); [done|].
  assert (Hu : (if n then upd_fut f (with_refs p (refs_of refs)) else mret tt) (beside c f fut l [] (set_wm m v)) =
    WRet tt (beside c f (if n then with_refs p (refs_of refs) fut else fut) l [] (set_wm m v))).
  { destruct n; [|done]. unfold upd_fut, beside. simpl. rewrite lookup_insert_eq. unfold set_futs, wsub. simpl.
    by rewrite insert_insert_eq. }
  rewrite (W_bind_run _ _ _ _ _ Hu). set (fut1 := if n then _ else fut).
  rewrite W_bind_out. unfold in_mem. simpl.
  destruct (prepare_frame dfuel c args nargs (refs_of refs) m) as [[st frame] m'| |]; [|done..].
  destruct (st_ok st); [|done]. cbn [negb]. rewrite W_bind_out. unfold get_inst. simpl.
  destruct (ci v !! c) as [ct|]; [|done]. destruct (c_fns ct !! i) as [fn|]; [|done].
  rewrite W_bind_out. unfold upd_fut, beside. simpl. rewrite lookup_insert_eq.
  unfold set_futs, wsub. simpl. by rewrite insert_insert_eq.
Qed.

(** What the wait on the served task delivers. *)
Lemma delivered_task p fn i frame st out w :
  delivered callback (with_refcnt 1 (future_finish st out (with_refcnt 2 (task_of p fn i frame (fresh_future c))))) w =
  if st_ok st && ((0 <? Z.of_nat (length (refs_of refs))) && negb (frame =? 0)) then
    (in_mem (load_block p);;
     wb ← in_mem (write_back_refs callback (refs_of refs) frame (Z.to_nat nargs));
     if negb (st_ok wb) then mret (wb, None) else mret (st, Some (default gzero out))) w
  else WRet (st, Some (default gzero out)) w.
Proof.
  unfold delivered, task_of, task_array. destruct (0 <? Z.of_nat (length (refs_of refs))) eqn:En; simpl;
    rewrite ?En; destruct (st_ok st), (frame =? 0) eqn:Ef; simpl; rewrite ?Ef; done.
Qed.

(** The array is still there when the wait reads it. *)
Definition array_stays (p : Z) (v : world) : Prop :=
  refs_of refs = [] ∨
  leaves_blocks ∧ is_Some (heap (wm v) !! p) ∧ ∃ bl, owned (wm v) !! c = Some bl ∧ p ∈ bl.

(** From the queue to the answer: a worker's turn, the wait, the release, against
    the inline run of the same pledge. *)
Lemma served_agree n f v ct p i fn frame :
  f ≠ 0 → apart c f v → ci v !! c = Some ct → state_live (c_state ct) = true → array_stays p v →
  agrees
    (('(st, out) ← run_pledge dfuel code (fulfill_inline dfuel code callback fuel) c i fn frame
        (u64 (nargs + Z.of_nat (length (refs_of refs))));
      match out with
      | Some out =>
          if negb (st_ok st) then mret (st, gzero) else
          if (0 <? Z.of_nat (length (refs_of refs))) && negb (frame =? 0) then
            wb ← in_mem (write_back_refs callback (refs_of refs) frame (Z.to_nat nargs));
            if st_ok wb then mret (GEAS_OK, out) else mret (wb, gzero)
          else mret (GEAS_OK, out)
      | None => mret (st, gzero)
      end) v)
    ((pool_drain dfuel code callback fuel (S (S n));;
      r ← geas_future_wait callback f;
      match r with
      | None => wnofuel
      | Some (st, v) => future_release f;; mret (st, default gzero v)
      end) (beside c f (with_refcnt 2 (task_of p fn i frame (fresh_future c))) (default [] (links v !! c)) [f] v)).
Proof.
  intros Hf0 Hap Hc Hl Harr. set (x := with_refcnt 2 _).
  assert (E : fu_c x = c ∧ fu_done x = false ∧ fu_waited x = false ∧ fu_pidx x = i ∧ fu_fn x = fn ∧
    fu_frame x = frame ∧ fu_nargs x = u64 (nargs + Z.of_nat (length (refs_of refs)))).
  { unfold x, task_of, task_array. by destruct (0 <? _). }
  destruct E as (E1 & E2 & E3 & E4 & E5 & E6 & E7).
  pose proof (drain_one f x (default [] (links v !! c)) v ct n Hap E1 Hc Hl E2 eq_refl) as Hdr.
  rewrite E4, E5, E6, E7 in Hdr.
  destruct (clear_pledge c f x [] [] dfuel code Hcode (fulfill_inline dfuel code callback fuel) c i fn frame
    (u64 (nargs + Z.of_nat (length (refs_of refs))))
    (clear_fulfill c f x [] [] dfuel code callback Hcode fuel) v Hap) as [_ Hkeep].
  rewrite !W_bind_out, Hdr.
  destruct (run_pledge _ _ _ _ _ _ _ _ v) as [[st out] w2| |] eqn:Erun; [|done..].
  destruct (Hkeep _ _ eq_refl) as [Hf2 Hl2]. rewrite <- Hl2.
  assert (Hap2 : apart c f w2) by (split; [done|]; rewrite Hl2; apply Hap).
  assert (Ex : fu_c (with_refcnt 1 (future_finish st out x)) = c ∧
    fu_done (with_refcnt 1 (future_finish st out x)) = true ∧
    fu_waited (with_refcnt 1 (future_finish st out x)) = false).
  { unfold future_finish. rewrite E2. by rewrite E3. }
  destruct Ex as (X1 & X2 & X3). rewrite wait_beside by done. unfold x. rewrite delivered_task.
  apply run_pledge_body in Erun. destruct out as [out|]; cycle 1.
  { rewrite Erun. simpl. eexists. split; [done|]. by intros ->. }
  destruct Erun as (v1 & r & w1 & M1 & Hbody & M2).
  destruct (st_ok st) eqn:Est; simpl; cycle 1.
  { eexists. split; [done|]. by intros ->. }
  apply st_ok_spec in Est as ->. destruct (0 <? Z.of_nat (length (refs_of refs))) eqn:En; simpl; [|by eexists].
  destruct (frame =? 0); simpl; [by eexists|].
  assert (Hp : is_Some (heap (wm w2) !! p)).
  { destruct Harr as [Hnil|(Hlb & Hhp & bl & Hbl & Hin)]; [by rewrite Hnil in En|].
    rewrite M2. eapply Hlb; [exact Hbody| |exact Hin|]; by rewrite M1. }
  destruct Hp as [b Hb].
  assert (Hld : in_mem (load_block p) w2 = WRet b w2).
  { unfold in_mem, load_block. rewrite Hb. by destruct w2. }
  rewrite (W_bind_run _ _ _ _ _ Hld), !W_bind_out.
  destruct (in_mem (write_back_refs _ _ _ _) w2) as [wb w3| |]; [|done..].
  destruct (st_ok wb) eqn:Ewb; simpl; [by eexists|]. eexists. split; [done|]. by intros ->.
Qed.

Lemma checks_ok ct st i : fulfill_checks ct name args nargs refs = (st, i) → st_ok st = true →
  state_live (c_state ct) = true ∧ nrefs_of refs = Z.of_nat (length (refs_of refs)).
Proof.
  unfold fulfill_checks. destruct (_ || _) eqn:E; [by intros [= <- _]|].
  destruct (state_live (c_state ct)); [|by intros [= <- _]]. intros _ _. split; [done|].
  destruct refs as [n|l]; [|done]. simpl in *. apply orb_false_elim in E as [_ E].
  rewrite andb_true_r in E. lia.
Qed.

Lemma enqueue_run f x l v :
  (upd_fut f (with_refcnt 2);; pool_enqueue f;; mret f) (beside c f x l [] v) =
  WRet f (beside c f (with_refcnt 2 x) l [f] v).
Proof.
  rewrite (W_bind_run _ _ _ _ _ (upd_fut_run f (with_refcnt 2) (beside c f x l [] v) x (lookup_insert_eq _ _ _))).
  unfold mbind, W_bind, pool_enqueue, mret, W_ret, beside, set_queue, set_futs, wsub. simpl.
  by rewrite insert_insert_eq.
Qed.

(** The array's request, from a memory with the future's already made. *)
Lemma stage_run v p w1 :
  (if 0 <? Z.of_nat (length (refs_of refs))
   then in_mem (geas_bytes KBytes c (u64 (Z.of_nat (length (refs_of refs)) * sizeof_GeasRef)))
   else mret 1) v = WRet p w1 →
  (refs_of refs = [] ∨ mem_wf (wm v) ∧ live c (wm v)) →
  ∃ m, w1 = set_wm m v ∧ (p ≠ 0 → refs_of refs = [] ∨
    mem_wf m ∧ live c m ∧ is_Some (heap m !! p) ∧ ∃ bl, owned m !! c = Some bl ∧ p ∈ bl).
Proof.
  intros Hs Hor. destruct (0 <? Z.of_nat (length (refs_of refs))) eqn:En; cycle 1.
  { injection Hs as _ <-. exists (wm v). split; [by destruct v|]. intros _. left.
    apply nil_length_inv. lia. }
  destruct Hor as [Hnil|[Hwf Hl]]; [by rewrite Hnil in En|].
  apply in_mem_inv in Hs as (m & Hm & ->). exists m. split; [done|]. intros Hp0. right.
  unfold geas_bytes in Hm. rewrite (proj2 (Z.eqb_neq c 0)) in Hm by done.
  cbv zeta in Hm. destruct (lib_malloc _ _ _); [|injection Hm; intros; congruence].
  destruct (u64 _ <? sizeof_GeasBlock); [discriminate Hm|].
  destruct (grown_alloc c (wm v) (fresh_block (lib (wm v)) KBytes
    (u64 (Z.of_nat (length (refs_of refs)) * sizeof_GeasRef))) Hwf Hl) as (bl & Hbl & _ & G).
  rewrite Hbl in Hm. injection Hm as <- <-. split; [apply G|]. split; [by eapply grown_live|].
  split; [simpl; rewrite lookup_insert_eq; eauto|]. exists (brk (wm v) :: bl). simpl. rewrite lookup_insert_eq. split; [done|by left].
Qed.

Lemma prepare_frame_owned m st frame m1 bl p :
  prepare_frame dfuel c args nargs (refs_of refs) m = Ret (st, frame) m1 → mem_wf m → live c m →
  is_Some (heap m !! p) → owned m !! c = Some bl → p ∈ bl →
  is_Some (heap m1 !! p) ∧ ∃ bl', owned m1 !! c = Some bl' ∧ p ∈ bl'.
Proof.
  intros Hf Hwf Hl [b Hb] Hbl Hin.
  pose proof (pwp_prepare_frame c m Hwf Hl dfuel args nargs (refs_of refs) m
    (ex_intro _ ∅ (grown_refl _ _ Hwf Hl))) as P.
  unfold pwp in P. rewrite Hf in P. destruct P as ([hn G] & _).
  split; [exists b; by eapply lookup_weaken; [|eapply grown_incl]|].
  destruct (gr_owned _ _ _ _ G) as (new & old & Ho & E & _). simplify_eq.
  exists (new ++ bl). rewrite E, lookup_insert_eq. split; [done|]. apply elem_of_app. by right.
Qed.

Lemma stage_fuel v :
  (if 0 <? Z.of_nat (length (refs_of refs))
   then in_mem (geas_bytes KBytes c (u64 (Z.of_nat (length (refs_of refs)) * sizeof_GeasRef)))
   else mret 1) v ≠ WNoFuel.
Proof.
  destruct (0 <? Z.of_nat (length (refs_of refs))); [|done]. unfold in_mem, geas_bytes.
  destruct (c =? 0); [done|]. cbv zeta. destruct (lib_malloc _ _ _); [|done].
  destruct (_ <? _); [done|]. by destruct (owned (wm v) !! c).
Qed.

Lemma prepare_task_stuck {A} f i fut l v (k : GeasStatus → W A) :
  (if 0 <? Z.of_nat (length (refs_of refs))
   then in_mem (geas_bytes KBytes c (u64 (Z.of_nat (length (refs_of refs)) * sizeof_GeasRef)))
   else mret 1) v = WUndef →
  (prepare_task dfuel c f i nargs args (refs_of refs) ≫= k) (beside c f fut l [] v) = WUndef.
Proof.
  intros Hs. unfold prepare_task. destruct (0 <? Z.of_nat (length (refs_of refs))); [|done].
  apply W_bind_undef, W_bind_undef. revert Hs. unfold in_mem. simpl. by destruct (geas_bytes _ _ _ (wm v)).
Qed.

(** Before any request: the queued path's answer to a world whose futures are all
    accounted for, the future granted. *)
Lemma sync_agree n w :
  queue w = [] → (∀ d g, g ∈ default [] (links w !! d) → is_Some (futs w !! g)) →
  (refs_of refs = [] ∨ mem_wf (wm w) ∧ live c (wm w) ∧ leaves_blocks) →
  let queued := fulfill_sync_queued dfuel code callback fuel (S (S n)) c (Some name) args nargs refs w in
  match own_requests w with
  | WRet p w1 =>
      if p =? 0 then ∃ w', queued = WRet (GEAS_ERR_OOM, gzero) w' ∧ (w' = w1 ∨ w' = settled w1)
      else agrees (fulfill_inline dfuel code callback (S fuel) c name args nargs refs w1) queued
  | WUndef => queued = WUndef
  | WNoFuel => False
  end.
Proof.
  intros Hq Hlinks Harr queued. destruct (future_alloc_run w) as (ok & tk & Hsys).
  pose proof (future_new_run c w ok tk Hsys) as Hnew. subst queued. destruct (fresh_fut w) as [Hfn Hfp]. set (f := 1 + max_key (futs w)) in *.
  assert (Hf0 : f ≠ 0) by lia. assert (Hz : c =? 0 = false) by lia. assert (Hzf : f =? 0 = false) by lia.
  set (v := ticked tk w) in *. set (l := default [] (links v !! c)).
  assert (Hap : apart c f v).
  { split; [done|]. intros d _ Hin. apply Hlinks in Hin. rewrite Hfn in Hin. by destruct Hin. }
  unfold fulfill_sync_queued. rewrite Hz. cbn [orb]. rewrite bool_decide_false by done.
  unfold geas_pledge_fulfill. rewrite Hz.
  unfold own_requests. rewrite (W_bind_run _ _ _ _ _ Hsys). destruct ok; cbn [negb]; cycle 1.
  { rewrite W_bind_assoc, (W_bind_run _ _ _ _ _ Hnew). exists v. split; [done|by left]. }
  rewrite Hq in Hnew. change (wsub _ _ [] v) with (beside c f (fresh_future c) l [] v) in Hnew.
  rewrite W_bind_assoc, (W_bind_run _ _ _ _ _ Hnew), Hzf, W_bind_assoc.
  destruct (ci w !! c) as [ct|] eqn:Hc; cycle 1.
  { unfold mbind, W_bind, get_inst. simpl. by rewrite Hc. }
  rewrite (W_bind_run _ _ _ _ _ (get_inst_run c v ct Hc)).
  rewrite (W_bind_run _ _ _ _ _ (get_inst_run c (beside c f (fresh_future c) l [] v) ct Hc)).
  destruct (fulfill_checks ct name args nargs refs) as [st i] eqn:Ech. cbn [fst]. rewrite W_bind_assoc.
  destruct (st_ok st) eqn:Est; cbn [andb]; cycle 1.
  { unfold mret at 1, W_ret. cbn [Z.eqb]. cbn [fulfill_inline].
    rewrite (W_bind_run _ _ _ _ _ (get_inst_run c v ct Hc)), Ech, Est. cbn [negb].
    rewrite (W_bind_run (mret st) _ _ st (beside c f (fresh_future c) l [] v)) by done. rewrite Est. cbn [negb].
    subst l. rewrite sync_unqueued by done. by exists gzero. }
  destruct (checks_ok ct st i Ech Est) as [Hlive Hnr]. apply st_ok_spec in Est as ->.
  destruct ((if 0 <? Z.of_nat (length (refs_of refs))
    then in_mem (geas_bytes KBytes c (u64 (Z.of_nat (length (refs_of refs)) * sizeof_GeasRef)))
    else mret 1) v) as [p w1| |] eqn:Es; [|by apply prepare_task_stuck|by eapply stage_fuel].

  pose proof (prepare_task_run f i (fresh_future c) l v p w1 Es) as Hp.
  destruct (stage_run v p w1 Es) as (m & -> & Hown).
  { destruct Harr as [?|(Hwf & Hlv & _)]; [by left|right]. split; [by destruct Hwf|done]. }
  destruct (p =? 0) eqn:Ep.
  { rewrite (W_bind_run _ _ _ _ _ Hp). cbn [st_ok negb].
    change l with (default [] (links (set_wm m v) !! c)). rewrite sync_unqueued by done.
    eexists. split; [done|by right]. }
  cbn [fulfill_inline]. rewrite (W_bind_run _ _ _ _ _ (get_inst_run c (set_wm m v) ct Hc)), Ech. cbn [st_ok negb].
  destruct (in_mem (prepare_frame dfuel c args nargs (refs_of refs)) (set_wm m v)) as [[st1 frame] w2| |] eqn:Epf.
  2: { by rewrite (W_bind_undef _ _ _ Epf), (W_bind_undef _ _ _ Hp). }
  2: { by rewrite (W_bind_nofuel _ _ _ Epf), (W_bind_nofuel _ _ _ Hp). }
  rewrite (W_bind_run _ _ _ _ _ Epf). apply in_mem_inv in Epf as (m1 & Hm1 & ->).
  simpl in Hp. rewrite Hc in Hp. destruct (st_ok st1) eqn:Est1; cbn [negb] in *; cycle 1.
  { rewrite (W_bind_run _ _ _ _ _ Hp), Est1. cbn [negb].
    change l with (default [] (links (set_wm m1 (set_wm m v)) !! c)).
    rewrite sync_unqueued; try done; [by exists gzero|..]; unfold task_array; by destruct (0 <? _). }
  destruct (c_fns ct !! i) as [fn|] eqn:Hfn'; [|by rewrite (W_bind_undef _ _ _ Hp)].
  rewrite (W_bind_run _ _ _ _ _ Hp). cbn [st_ok negb].
  rewrite (W_bind_run _ _ _ _ _ (enqueue_run f _ l _)), Hzf, Hnr.
  change l with (default [] (links (set_wm m1 (set_wm m v)) !! c)).
  eapply served_agree; [done|exact Hap|exact Hc|exact Hlive|].
  destruct Harr as [?|(_ & _ & Hlb)]; [by left|].
  destruct Hown as [?|(Hwf & Hlv & Hh & bl & Hbl & Hin)]; [lia|by left|right]. split; [exact Hlb|].
  by eapply prepare_frame_owned.
Qed.
End Agree.
(** C14: what the two ways a synchronous fulfillment runs have in common.  Over an
    idle pool whose listed futures are all allocated, for any arguments, any
    references and any bodies that never break the instance called (breaking
    others is allowed) and leave its blocks allocated when there are references,
    the queued path of a host thread (a future, one trip through the pool, the
    wait with its write back, the release) answers as the inline path of a pool
    worker does from the world with the queued path's own requests made, the
    future and the array of references: both stop the same way, with the same
    status, the same value on GEAS_OK and the same world, and no future is left.
    A future or an array that is refused is GEAS_ERR_OOM, nothing but the refused
    requests having moved.  Outside this scope the paths differ:
    [break_of_own_instance] below is a body that breaks its own instance, and
    [value_of_a_refusal] one that leaves a value beside a refusal. *)
Theorem sync_paths_agree `{SA : StoreApi} dfuel code callback fuel n c name args nargs refs w :
  (∀ fn d frame n, spares c (code fn d frame n)) → c ≠ 0 → 0 <= nrefs_of refs → queue w = [] →
  (∀ d g, g ∈ default [] (links w !! d) → is_Some (futs w !! g)) →
  (refs_of refs = [] ∨
   mem_wf (wm w) ∧ live c (wm w) ∧ leaves_blocks dfuel code callback fuel c) →
  let queued := fulfill_sync_queued dfuel code callback fuel (S (S n)) c (Some name) args nargs refs w in
  match own_requests c name args nargs refs w with
  | WRet p w1 =>
      if p =? 0 then ∃ w', queued = WRet (GEAS_ERR_OOM, gzero) w' ∧ (w' = w1 ∨ w' = settled c w1)
      else agrees c (fulfill_inline dfuel code callback (S fuel) c name args nargs refs w1) queued
  | WUndef => queued = WUndef
  | WNoFuel => False
  end.
Proof. intros Hcode Hc0 Hn0 Hq Hlinks Harr. by apply sync_agree. Qed.

(** One argument and one reference, to a number the host holds. *)
Definition ref_world : world (SA := mem_store) := set_wm call_mem calc_world.
Definition ref_staged : world (SA := mem_store) :=
  match own_requests 2 "add" 12 1 (RArr [int_ref]) ref_world with WRet _ w => w | _ => ref_world end.

Lemma sync_paths_agree_witness :
  agrees 2 (fulfill_inline 5 calc_code no_callback 3 2 "add" 12 1 (RArr [int_ref]) ref_staged)
    (fulfill_sync_queued 5 calc_code no_callback 2 2 2 (Some "add"%string) 12 1 (RArr [int_ref]) ref_world).
Proof.
  refine (sync_paths_agree (SA := mem_store) 5 calc_code no_callback 2 0 2 "add" 12 1 (RArr [int_ref]) ref_world
    _ _ _ _ _ _).
  - intros fn d frame n. constructor.
  - discriminate.
  - discriminate.
  - reflexivity.
  - intros d g H. simpl in H. rewrite lookup_empty in H. by apply not_elem_of_nil in H.
  - right. split; [apply call_mem_wf|]. split; [apply call_live|].
    by intros fn frame n v r w p bl [= _ <-] _ _.
Defined.

(** Both paths of the call above answer 9. *)
Example calc_both_ways :
  match fulfill_inline 5 calc_code no_callback 3 2 "add" 12 1 (RArr [int_ref]) ref_staged,
        fulfill_sync_queued 5 calc_code no_callback 2 2 2 (Some "add"%string) 12 1 (RArr [int_ref]) ref_world with
  | WRet r _, WRet r' w' => r = (GEAS_OK, nine) ∧ r' = r ∧ futs w' = ∅ ∧ links w' !! 2 = Some []
  | _, _ => False
  end.
Proof. vm_compute. done. Qed.

(** A body that breaks its own instance: the break forfeits the queued call's
    future, so a host thread reads GEAS_ERR_STATE where a worker reads the body's
    answer. *)
Definition self_break_code : Z → Z → Z → Z → body (SA := mem_store) := λ _ c _ _,
  BBreak c (λ _, BRet GEAS_OK nine).
Example break_of_own_instance :
  match fulfill_inline 5 self_break_code no_callback 3 2 "add" 12 2 (RArr []) calc_world,
        fulfill_sync_queued 5 self_break_code no_callback 2 2 2 (Some "add"%string) 12 2 (RArr []) calc_world with
  | WRet r _, WRet r' _ => r = (GEAS_OK, nine) ∧ r' = (GEAS_ERR_STATE, gzero)
  | _, _ => False
  end.
Proof. vm_compute. done. Qed.

(** A body that refuses with a value: the queued path delivers the value beside
    the status, the inline path clears it. *)
Definition refusing_code : Z → Z → Z → Z → body (SA := mem_store) := λ _ _ _ _, BRet GEAS_ERR_STORE nine.
Example value_of_a_refusal :
  match fulfill_inline 5 refusing_code no_callback 3 2 "add" 12 2 (RArr []) calc_world,
        fulfill_sync_queued 5 refusing_code no_callback 2 2 2 (Some "add"%string) 12 2 (RArr []) calc_world with
  | WRet r _, WRet r' _ => r = (GEAS_ERR_STORE, gzero) ∧ r' = (GEAS_ERR_STORE, nine)
  | _, _ => False
  end.
Proof. vm_compute. done. Qed.

(** C37: [geas_runtime_shutdown] with the queue drained, over a table of distinct
    live instances whose futures are each listed once, always finishes and
    reclaims all of it: every instance struct, every block it owned, every future
    it issued is freed, exactly once and nothing else is; every module image is
    closed.  In particular a runtime that owns every instance, block and future
    there is leaves none behind. *)
Theorem shutdown_reclaims_everything `{SA : StoreApi} dfuel code callback fuel n w :
  queue w = [] → shut_ok (instances w) w →
  ∃ w', geas_runtime_shutdown dfuel code callback fuel (S n) w = WRet tt w' ∧
    (∀ c, ci w' !! c = without (instances w) (ci w) c) ∧
    (∀ p, heap (wm w') !! p = without (blocks_of (instances w) w) (heap (wm w)) p) ∧
    (∀ f, futs w' !! f = without (listed (instances w) w) (futs w) f) ∧
    closed (wr w') = rev (modules (wr w)) ++ closed (wr w) ∧
    ((∀ p, is_Some (heap (wm w) !! p) → p ∈ blocks_of (instances w) w) →
     (∀ f, is_Some (futs w !! f) → f ∈ listed (instances w) w) →
     heap (wm w') = ∅ ∧ futs w' = ∅).
Proof.
  intros Hq Hok. destruct (free_instances_run _ w Hok) as (w1 & Hrun & [S1 S2 S3 S4 S5]).
  assert (Hall : ∀ A (l : list Z) (h h' : gmap Z A), (∀ p, h' !! p = without l h p) →
    (∀ p, is_Some (h !! p) → p ∈ l) → h' = ∅).
  { intros A l h h' H Hin. apply map_empty. intros p. rewrite H. unfold without.
    case_bool_decide as Hp; [done|]. apply eq_None_not_Some. intros ?%Hin. done. }
  assert (Hcl : ∀ l r, closed (foldl (λ r h, close_handle h r) r l) = rev l ++ closed r).
  { induction l as [|h l IH]; intros r; [done|]. simpl. rewrite IH. simpl. by rewrite <- app_assoc. }
  exists (set_wr (foldl (λ r h, close_handle h r) (wr w1) (modules (wr w1))) w1). split.
  - unfold geas_runtime_shutdown. rewrite (W_bind_run (pool_drain _ _ _ _ _) _ w tt w).
    2: { cbn [pool_drain]. unfold mbind, W_bind, pool_worker. by rewrite Hq. }
    rewrite (W_bind_run get_instances _ w (instances w) w) by done.
    by rewrite (W_bind_run _ _ _ _ _ Hrun).
  - simpl. split_and!; auto.
    + by rewrite Hcl, S5.
    + intros Hh Hf. split; by eapply Hall.
Qed.

(** Two instances, one with a future outstanding. *)
Definition busy_world : world (SA := mem_store) :=
  World demo_mem {[1 := calc_inst; 2 := calc_inst]} (MemBase 0 0 false false) shop_rt [1; 2] 1000
    {[7 := fresh_future 2]} {[2 := [7]]} [].

Lemma shutdown_reclaims_everything_witness :
  ∃ w', geas_runtime_shutdown 5 calc_code no_callback 1 1 busy_world = WRet tt w' ∧
    (∀ c, ci w' !! c = without [1; 2] (ci busy_world) c) ∧
    (∀ p, heap (wm w') !! p = without [12; 11; 10] (heap demo_mem) p) ∧
    (∀ f, futs w' !! f = without [7] (futs busy_world) f) ∧
    closed (wr w') = [] ∧
    ((∀ p, is_Some (heap demo_mem !! p) → p ∈ [12; 11; 10]) →
     (∀ f, is_Some (futs busy_world !! f) → f ∈ [7]) →
     heap (wm w') = ∅ ∧ futs w' = ∅).
Proof.
  refine (shutdown_reclaims_everything (SA := mem_store) 5 calc_code no_callback 1 0 busy_world eq_refl _).
  split.
  - apply (bool_decide_unpack _). vm_compute. exact I.
  - intros c [->|[->|[]%not_elem_of_nil]%elem_of_cons]%elem_of_cons; split; eexists; reflexivity.
  - intros c f [->|[->|[]%not_elem_of_nil]%elem_of_cons]%elem_of_cons; simpl; intros Hf.
    + by apply not_elem_of_nil in Hf.
    + apply list_elem_of_singleton in Hf as ->. by eexists.
  - intros c [->|[->|[]%not_elem_of_nil]%elem_of_cons]%elem_of_cons; apply (bool_decide_unpack _); vm_compute; exact I.
  - intros c d f [->|[->|[]%not_elem_of_nil]%elem_of_cons]%elem_of_cons
      [->|[->|[]%not_elem_of_nil]%elem_of_cons]%elem_of_cons; simpl; try done;
      intros H1 H2; exfalso; first [by apply not_elem_of_nil in H1 | by apply not_elem_of_nil in H2].
Defined.
