(* ===== verification/Embed.v ===== *)
(** * Sequential runs inside the pool

    [Task] runs each operation to its end; [Pool] interleaves critical sections.
    Here every operation of [Task] is cut into the steps of the pool that make it
    up: [sees] relates a world to a pool state, [plays] reads off a body's run the
    locks it takes and the instances it breaks, and each operation from related
    states is a run of steps to related states. *)
From S2P Require Import Prelude Abi Memory Value Iname Frame Policy Store Future Lifecycle LifecycleSpec Task TaskSpec Pool PoolSpec.

Lemma filter_iff_in {A} (P Q : A → Prop) `{∀ x, Decision (P x), ∀ x, Decision (Q x)} (l : list A) :
  (∀ x, x ∈ l → P x ↔ Q x) → filter P l = filter Q l.
Proof.
  induction l as [|x l IH]; intros H1; [done|]. rewrite !filter_cons, IH by (intros y Hy; apply H1; by right).
  destruct (H1 x ltac:(left)). repeat case_decide; tauto.
Qed.

(** ** The relation *)

Section Sees.
Context `{SA : StoreApi}.

(** [ρ] gives the address of the pool's [i]-th future.  The same futures are live
    and have the same fields, every instance lists the same ones in the same
    order, the queue is the same, and an instance the pool calls dead is Broken. *)
Record sees (ρ : gmap nat Z) (w : world) (s : pool) : Prop := Sees {
  sees_inj : ∀ i j a, ρ !! i = Some a → ρ !! j = Some a → i = j;
  sees_next : ∀ i a, ρ !! i = Some a → (i < pnext s)%nat;
  sees_none : ∀ i, ρ !! i = None → pfuts s !! i = None;
  sees_fut : ∀ i a, ρ !! i = Some a → pfuts s !! i = futs w !! a ∧ is_Some (futs w !! a);
  sees_all : ∀ a, is_Some (futs w !! a) → ∃ i, ρ !! i = Some a;
  sees_links : ∀ c, Forall2 (λ i a, ρ !! i = Some a) (links_of s c) (default [] (links w !! c));
  sees_queue : Forall2 (λ i a, ρ !! i = Some a) (pqueue s) (queue w);
  sees_dead : ∀ c, c ∈ dead s → ∃ ct, ci w !! c = Some ct ∧ c_state ct = GEAS_BROKEN
}.

(** What is the futures' business is untouched, and no instance moves back. *)
Record quiet (w w' : world) : Prop := Quiet {
  q_futs : futs w' = futs w;
  q_links : links w' = links w;
  q_queue : queue w' = queue w;
  q_le : world_le w w'
}.
Lemma quiet_refl w : quiet w w.
Proof. split; [done..|apply world_le_refl]. Qed.
Lemma quiet_trans a b c : quiet a b → quiet b c → quiet a c.
Proof. intros [A1 A2 A3 A4] [B1 B2 B3 B4]. split; [congruence..|by eapply world_le_trans]. Qed.
Lemma quiet_same w w' : futs w' = futs w → links w' = links w → queue w' = queue w → ci w' = ci w → quiet w w'.
Proof. intros. split; [done..|by apply world_le_ci]. Qed.

Lemma blind_quiet {A} (e : W A) w a w' : blind e → keeps e → e w = WRet a w' → quiet w w'.
Proof.
  intros Hb Hk H. pose proof (Hb w (futs w) (links w) (queue w)) as E.
  assert (Ew : wsub (futs w) (links w) (queue w) w = w) by (by destruct w). rewrite Ew, H in E. simpl in E.
  injection E as E. split; [by rewrite E..|by eapply Hk].
Qed.
Lemma quiet_in_mem {A} (e : M A) w a w' : in_mem e w = WRet a w' → quiet w w'.
Proof. intros H. eapply blind_quiet; [apply blind_in_mem|apply keeps_in_mem|exact H]. Qed.

Lemma sees_quiet ρ w w' s : sees ρ w s → quiet w w' → sees ρ w' s.
Proof.
  intros [S1 S2 S3 S4 S5 S6 S7 S8] [Q1 Q2 Q3 Q4]. split; [done..| | | | |]; rewrite ?Q1, ?Q2, ?Q3; try done.
  intros c Hc. destruct (S8 c Hc) as (ct & Hct & Hb). destruct (Q4 c ct Hct) as (ct' & Hct' & L).
  exists ct'. split; [done|by apply L].
Qed.

Lemma sees_live ρ w s i a : sees ρ w s → ρ !! i = Some a → ∃ x, pfuts s !! i = Some x ∧ futs w !! a = Some x.
Proof. intros S H. destruct (sees_fut _ _ _ S i a H) as [E [x Hx]]. exists x. by rewrite E, Hx. Qed.
Lemma sees_back ρ w s i a x : sees ρ w s → ρ !! i = Some a → futs w !! a = Some x → pfuts s !! i = Some x.
Proof. intros S H Hx. destruct (sees_fut _ _ _ S i a H) as [E _]. by rewrite E. Qed.
Lemma sees_at ρ w s a x : sees ρ w s → futs w !! a = Some x → ∃ i, ρ !! i = Some a ∧ pfuts s !! i = Some x.
Proof. intros S Hx. destruct (sees_all _ _ _ S a) as [i Hi]; [eauto|]. exists i. split; [done|by eapply sees_back]. Qed.

(** Where threads stand, the deliveries and the completions do not show. *)
Record same_futs (s s' : pool) : Prop := SameFuts {
  sf_futs : pfuts s' = pfuts s; sf_next : pnext s' = pnext s; sf_linked : plinked s' = plinked s;
  sf_queue : pqueue s' = pqueue s; sf_dead : dead s' = dead s
}.
Lemma links_of_ext s s' c : plinked s' = plinked s → (∀ i, fu_c <$> pfuts s' !! i = fu_c <$> pfuts s !! i) →
  links_of s' c = links_of s c.
Proof. intros E H. unfold links_of. rewrite E. apply list_filter_iff. intros i. by rewrite H. Qed.
Lemma sees_same ρ w s s' : sees ρ w s → same_futs s s' → sees ρ w s'.
Proof.
  intros [S1 S2 S3 S4 S5 S6 S7 S8] [E1 E2 E3 E4 E5]. split; rewrite ?E1, ?E2, ?E3, ?E4, ?E5; try done.
  intros c. rewrite (links_of_ext s s'); [done|done|by rewrite E1].
Qed.
Lemma sees_goto ρ w s t p : sees ρ w s → sees ρ w (goto t p s).
Proof. intros S. by eapply sees_same. Qed.

(** One future's fields change on both sides. *)
Lemma sees_put ρ w s i a x y s' : sees ρ w s → ρ !! i = Some a → pfuts s !! i = Some x → fu_c y = fu_c x →
  same_futs (put_fut i y s) s' → sees ρ (set_futs (λ m, <[a := y]> m) w) s'.
Proof.
  intros S Hi Hx Hc Sf. eapply sees_same; [|exact Sf]. destruct S as [S1 S2 S3 S4 S5 S6 S7 S8]. split; simpl; try done.
  - intros j Hj. rewrite lookup_insert_ne by congruence. by apply S3.
  - intros j b Hj. destruct (decide (i = j)) as [<-|Hne].
    + assert (a = b) as <- by congruence. rewrite !lookup_insert_eq. eauto.
    + assert (a ≠ b) by (intros <-; eauto). rewrite !lookup_insert_ne by done. by apply S4.
  - intros b Hb. destruct (decide (a = b)) as [<-|Hne]; [eauto|]. rewrite lookup_insert_ne in Hb by done. by apply S5.
  - intros c. rewrite (links_of_ext s); [done|done|]. intros j. simpl. destruct (decide (i = j)) as [<-|Hne].
    + rewrite lookup_insert_eq, Hx. simpl. by rewrite Hc.
    + by rewrite lookup_insert_ne.
Qed.

(** A future is made, unlinked, freed. *)
Lemma linked_old s i : pool_inv s → i ∈ plinked s → i ≠ pnext s.
Proof.
  intros V Hi ->. assert (H : is_Some (pfuts s !! pnext s)); [|apply (pi_fresh s V) in H; lia].
  apply tok_live; [apply V|]. apply occ_in in Hi. lia.
Qed.
Lemma links_of_create s c d : pool_inv s →
  links_of (create c s) d = if decide (d = c) then pnext s :: links_of s d else links_of s d.
Proof.
  intros V. unfold links_of. simpl. rewrite filter_cons, lookup_insert_eq. simpl.
  assert (E : filter (λ f, fu_c <$> <[pnext s := fresh_future c]> (pfuts s) !! f = Some d) (plinked s) = links_of s d).
  { apply filter_iff_in. intros j Hj%(linked_old s j V). by rewrite lookup_insert_ne. }
  fold (links_of s d). rewrite E. repeat case_decide; congruence.
Qed.
Definition linked_world (c : Z) (w : world) : world :=
  let f := 1 + max_key (futs w) in
  set_links (λ l, <[c := f :: default [] (l !! c)]> l) (set_futs (λ m, <[f := fresh_future c]> m) w).
Lemma sees_create ρ w s c : pool_inv s → sees ρ w s →
  sees (<[pnext s := 1 + max_key (futs w)]> ρ) (linked_world c w) (create c s).
Proof.
  intros V S. pose proof S as [S1 S2 S3 S4 S5 S6 S7 S8]. destruct (fresh_fut w) as [Hf _]. set (f := 1 + max_key (futs w)) in *.
  assert (Hn : ρ !! pnext s = None) by (apply eq_None_not_Some; intros [a Ha]; apply S2 in Ha; lia).
  assert (Hne : ∀ i a, ρ !! i = Some a → a ≠ f) by (intros i a Hi ->; destruct (S4 _ _ Hi) as [_ [? ?]]; congruence).
  assert (Hin : ∀ l k, Forall2 (λ i a, ρ !! i = Some a) l k → Forall2 (λ i a, <[pnext s := f]> ρ !! i = Some a) l k).
  { intros l k H. eapply Forall2_impl; [exact H|]. intros i a Hi. by rewrite lookup_insert_ne by congruence. }
  split; simpl.
  - intros i j a. rewrite !lookup_insert_Some. intros [[<- <-]|[? Hi]] [[<- ?]|[? Hj]]; try done; [|exfalso|by eapply S1].
    + by destruct (Hne _ _ Hj).
    + subst. by destruct (Hne _ _ Hi).
  - intros i a. rewrite lookup_insert_Some. intros [[<- _]|[_ Hi]]; [lia|]. apply S2 in Hi. lia.
  - intros i [Hi Hne']%lookup_insert_None. rewrite lookup_insert_ne by done. by apply S3.
  - intros i a. rewrite lookup_insert_Some. intros [[<- <-]|[Hd Hi]].
    + rewrite !lookup_insert_eq. eauto.
    + rewrite !lookup_insert_ne by (done || by apply not_eq_sym, (Hne i)). by apply S4.
  - intros a Ha. destruct (decide (a = f)) as [->|Hd]; [exists (pnext s); apply lookup_insert_eq|].
    rewrite lookup_insert_ne in Ha by done. destruct (S5 a Ha) as [i Hi]. exists i. by rewrite lookup_insert_ne by congruence.
  - intros d. rewrite links_of_create by done. destruct (decide (d = c)) as [->|Hd].
    + rewrite lookup_insert_eq. constructor; [apply lookup_insert_eq|]. by apply Hin.
    + rewrite lookup_insert_ne by done. by apply Hin.
  - by apply Hin.
  - done.
Qed.

Lemma Forall2_unlink (ρ : gmap nat Z) i a l k : (∀ i j b, ρ !! i = Some b → ρ !! j = Some b → i = j) → ρ !! i = Some a →
  Forall2 (λ i a, ρ !! i = Some a) l k → Forall2 (λ i a, ρ !! i = Some a) (unlink_nat i l) (unlink a k).
Proof.
  intros Hinj Hi. induction 1 as [|j b l k Hj Hlk IH]; simpl; [done|].
  destruct (Nat.eqb_spec j i) as [->|Hne], (Z.eqb_spec b a) as [->|Hba]; [done|congruence| |by constructor].
  destruct Hne. by eapply Hinj.
Qed.
Lemma filter_unlink (P : nat → Prop) `{∀ i, Decision (P i)} i l :
  filter P (unlink_nat i l) = if decide (P i) then unlink_nat i (filter P l) else filter P l.
Proof.
  induction l as [|j l IH]; [by destruct (decide (P i))|]. cbn [unlink_nat]. rewrite (filter_cons P j l).
  destruct (Nat.eqb_spec j i) as [->|Hne].
  - destruct (decide (P i)); [|done]. simpl. by rewrite Nat.eqb_refl.
  - rewrite filter_cons, IH. destruct (decide (P i)), (decide (P j)); simpl; try done.
    by rewrite (proj2 (Nat.eqb_neq j i)).
Qed.
Lemma sees_unlink ρ w s i a x : sees ρ w s → ρ !! i = Some a → pfuts s !! i = Some x →
  sees ρ (set_links (λ m, <[fu_c x := unlink a (default [] (links w !! fu_c x))]> m) w) (unlinked i s).
Proof.
  intros [S1 S2 S3 S4 S5 S6 S7 S8] Hi Hx. split; simpl; try done. intros c. unfold links_of. simpl.
  rewrite (filter_unlink (λ f, fu_c <$> pfuts s !! f = Some c)), Hx. destruct (decide (fu_c x = c)) as [<-|Hne].
  - rewrite lookup_insert_eq. rewrite decide_True by done. apply Forall2_unlink; [exact S1|exact Hi|apply S6].
  - rewrite lookup_insert_ne by done. rewrite decide_False; [apply S6|]. intros E. simpl in E. congruence.
Qed.
Lemma sees_delete ρ w s i a s' : sees ρ w s → ρ !! i = Some a → i ∉ plinked s → i ∉ pqueue s →
  same_futs (Pool (delete i (pfuts s)) (pnext s) (plinked s) (pqueue s) (qstop s) (dead s) (threads s) (log s) (pub s)) s' →
  sees (delete i ρ) (set_futs (delete a) w) s'.
Proof.
  intros [S1 S2 S3 S4 S5 S6 S7 S8] Hi Hl Hq Sf. eapply sees_same; [|exact Sf].
  assert (Hin : ∀ l k, i ∉ l → Forall2 (λ i a, ρ !! i = Some a) l k → Forall2 (λ j a, delete i ρ !! j = Some a) l k).
  { intros l k Hni H. induction H as [|j b l k Hj _ IH]; [done|]. apply not_elem_of_cons in Hni as [? ?].
    constructor; [by rewrite lookup_delete_ne|by apply IH]. }
  split; simpl.
  - intros j k b [_ Hj]%lookup_delete_Some [_ Hk]%lookup_delete_Some. by eapply S1.
  - intros j b [_ Hj]%lookup_delete_Some. by eapply S2.
  - intros j. destruct (decide (i = j)) as [<-|Hne]; [by rewrite !lookup_delete_eq|]. rewrite !lookup_delete_ne by done. apply S3.
  - intros j b [Hne Hj]%lookup_delete_Some. assert (a ≠ b) by (intros <-; apply Hne; by eapply S1).
    rewrite !lookup_delete_ne by done. by apply S4.
  - intros b [x [Hne Hb]%lookup_delete_Some]. destruct (S5 b) as [j Hj]; [eauto|]. exists j. rewrite lookup_delete_ne by congruence. done.
  - intros c. assert (E : filter (λ f, fu_c <$> delete i (pfuts s) !! f = Some c) (plinked s) = links_of s c).
    { apply filter_iff_in. intros j Hj. by rewrite lookup_delete_ne by (intros ->; done). }
    unfold links_of. simpl. rewrite E. apply Hin; [|apply S6]. intros [_ ?]%list_elem_of_filter. done.
  - by apply Hin.
  - done.
Qed.
End Sees.

(** ** What a body's run shows the futures *)

Section Plays.
Context `{SA : StoreApi}.

(** A break: the futures it lists forfeited, and the instance left Broken. *)
Record broke (b : Z) (w w' : world) : Prop := Broke {
  bk_futs : futs w' = forfeited (default [] (links w !! b)) (futs w);
  bk_links : links w' = links w;
  bk_queue : queue w' = queue w;
  bk_le : world_le w w';
  bk_dead : ∃ ct, ci w' !! b = Some ct ∧ c_state ct = GEAS_BROKEN
}.

Inductive plays : list act → world → world → Prop :=
| plays_quiet w w' : quiet w w' → plays [] w w'
| plays_nest b s1 s2 w w1 w2 : plays s1 w w1 → plays s2 w1 w2 → plays (ALock b :: s1 ++ AUnlock :: s2) w w2
| plays_break b s w w1 w2 : broke b w w1 → plays s w1 w2 → plays (ABreak b :: s) w w2
| plays_then s w w1 w2 : quiet w w1 → plays s w1 w2 → plays s w w2.

Lemma plays_app s1 s2 w w1 w2 : plays s1 w w1 → plays s2 w1 w2 → plays (s1 ++ s2) w w2.
Proof.
  intros H. revert s2 w2. induction H as [w w' Q|b sa sb w wa wb Ha IHa Hb IHb|b s w wa wb Hk Hs IH|s w wa wb Q Hs IH];
    intros s2 w2 H2; simpl.
  - by eapply plays_then.
  - rewrite <- app_assoc. simpl. eapply plays_nest; [done|by apply IHb].
  - eapply plays_break; [done|by apply IH].
  - eapply plays_then; [done|by apply IH].
Qed.

(** Every future an instance lists is live; a run of steps and breaks keeps it. *)
Definition listed_live (w : world) : Prop := ∀ c f, f ∈ default [] (links w !! c) → is_Some (futs w !! f).

Lemma forfeited_live fs m f : is_Some (forfeited fs m !! f) ↔ is_Some (m !! f).
Proof.
  revert m. induction fs as [|g fs IH]; intros m; [done|]. unfold forfeited. simpl. fold (forfeited fs (alter future_forfeit g m)).
  rewrite IH. apply lookup_alter_is_Some.
Qed.
Lemma quiet_listed w w' : quiet w w' → listed_live w → listed_live w'.
Proof. intros [E1 E2 _ _] H c f. rewrite E1, E2. apply H. Qed.
Lemma broke_listed b w w' : broke b w w' → listed_live w → listed_live w'.
Proof. intros [E1 E2 _ _ _] H c f. rewrite E1, E2. rewrite forfeited_live. apply H. Qed.
Lemma plays_listed s w w' : plays s w w' → listed_live w → listed_live w'.
Proof. induction 1; eauto using quiet_listed, broke_listed. Qed.

Lemma break_plays b w st w' : listed_live w → geas_contract_break b w = WRet st w' → quiet w w' ∨ broke b w w'.
Proof.
  intros Hl H. pose proof (break_keeps b w st w' H) as L. unfold geas_contract_break in H. destruct (b =? 0).
  { injection H as _ <-. left. apply quiet_refl. }
  apply W_bind_inv in H as (ct & w1 & [Hc ->]%get_inst_inv & H). destruct (bool_decide _).
  { injection H as _ <-. left. apply quiet_refl. }
  apply W_bind_inv in H as (fs & w2 & [= <- <-] & H).
  rewrite (W_bind_run _ _ _ _ _ (forfeit_all_run _ w (Hl b))) in H. set (w1 := set_futs _ w) in *.
  apply W_bind_inv in H as (u & w4 & H4 & H). destruct (reclaim_owned _ _ _ _ _ H4) as [bl Hbl].
  rewrite (reclaim_run b w1 ct bl Hc Hbl) in H4. injection H4 as _ <-. injection H as _ <-.
  right. split; try done. simpl. rewrite lookup_insert_eq. eauto.
Qed.

Context (dfuel : nat) (code : Z → Z → Z → Z → body) (callback : Z → Z → GeasValue → Z → M unit).

(** A run that a script accounts for. *)
Definition scripted {A} (e : W A) : Prop := ∀ w a w', listed_live w → e w = WRet a w' → ∃ s, plays s w w'.
Lemma scripted_quiet {A} (e : W A) : blind e → keeps e → scripted e.
Proof. intros Hb Hk w a w' _ H. exists []. apply plays_quiet. by eapply blind_quiet. Qed.
Lemma scripted_bind {A B} (e : W A) (k : A → W B) : scripted e → (∀ a, scripted (k a)) → scripted (e ≫= k).
Proof.
  intros He Hk w b w2 Hl (a & w1 & H1 & H2)%W_bind_inv. destruct (He _ _ _ Hl H1) as [s1 P1].
  destruct (Hk a _ _ _ (plays_listed _ _ _ P1 Hl) H2) as [s2 P2]. exists (s1 ++ s2). by eapply plays_app.
Qed.
Lemma scripted_ret {A} (a : A) : scripted (mret a).
Proof. intros w b w' _ [= _ <-]. exists []. apply plays_quiet, quiet_refl. Qed.
Lemma scripted_mem {A} (e : M A) : scripted (in_mem e).
Proof. apply scripted_quiet; [apply blind_in_mem|apply keeps_in_mem]. Qed.
Lemma scripted_get c : scripted (get_inst c).
Proof. apply scripted_quiet; [apply blind_get|apply keeps_get]. Qed.

Lemma scripted_body fulfill b :
  (∀ c name args nargs refs w a w', listed_live w → fulfill c name args nargs refs w = WRet a w' →
     ∃ s, plays (ALock c :: s ++ [AUnlock]) w w') →
  scripted (run_body dfuel fulfill b).
Proof.
  intros Hf. induction b as [st out|f k IH|c name k IH|c q k IH|c name args nargs refs k IH|c k IH|name vows hash k IH];
    cbn [run_body]; [apply scripted_ret|..].
  - apply scripted_bind; [apply scripted_mem|apply IH].
  - apply scripted_bind; [apply scripted_quiet; [apply blind_vow|apply vow_ref_keeps]|apply IH].
  - apply scripted_bind; [apply scripted_get|]. intros ct. destruct (c_store ct); [|apply IH].
    apply scripted_bind; [apply scripted_quiet; [apply blind_in_store|apply keeps_in_store]|apply IH].
  - apply scripted_bind; [|apply IH]. intros w a w' Hl H. destruct (Hf _ _ _ _ _ _ _ _ Hl H) as [s P]. eauto.
  - apply scripted_bind; [|apply IH]. intros w st w' Hl H. destruct (break_plays c w st w' Hl H) as [Q|K].
    + exists []. by apply plays_quiet.
    + exists [ABreak c]. eapply plays_break; [exact K|apply plays_quiet, quiet_refl].
  - apply scripted_bind; [apply scripted_quiet; [apply blind_sign|apply sign_keeps]|apply IH].
Qed.

Lemma scripted_pledge fulfill c i fn frame nargs :
  (∀ b, scripted (run_body dfuel fulfill b)) → scripted (run_pledge dfuel code fulfill c i fn frame nargs).
Proof.
  intros Hf. unfold run_pledge. apply scripted_bind; [apply scripted_quiet; [apply blind_before|apply txn_before_keeps]|].
  intros g. destruct (negb (st_ok g)); [apply scripted_ret|]. apply scripted_bind; [apply Hf|]. intros [st out].
  apply scripted_bind.
  - destruct (st_ok st); [|apply scripted_ret]. apply scripted_quiet.
    + apply blind_bind; [apply blind_latch|intros _; apply blind_upd].
    + apply keeps_bind; [apply latch_pledge_keeps|]. intros _. apply keeps_upd, le_policy.
  - intros _. apply scripted_bind; [apply scripted_quiet; [apply blind_after|apply txn_after_keeps]|].
    intros st'. apply scripted_ret.
Qed.

(** A nested fulfillment, between its lock and its unlock. *)
Lemma nested_plays fuel c name args nargs refs w a w' :
  listed_live w → fulfill_inline dfuel code callback fuel c name args nargs refs w = WRet a w' →
  ∃ s, plays (ALock c :: s ++ [AUnlock]) w w'.
Proof.
  intros Hl H. assert (K : scripted (fulfill_inline dfuel code callback fuel c name args nargs refs)).
  2: { destruct (K _ _ _ Hl H) as [s P]. exists s. eapply plays_nest; [exact P|apply plays_quiet, quiet_refl]. }
  clear w a w' Hl H. revert c name args nargs refs. induction fuel as [|fuel IH]; intros c name args nargs refs; [done|].
  assert (Hb : ∀ b, scripted (run_body dfuel (fulfill_inline dfuel code callback fuel) b)).
  { intros b. apply scripted_body. intros c' n' a' na' r' w a w' Hl H. destruct (IH _ _ _ _ _ _ _ _ Hl H) as [s P].
    exists s. eapply plays_nest; [exact P|apply plays_quiet, quiet_refl]. }
  cbn [fulfill_inline]. apply scripted_bind; [apply scripted_get|]. intros ct.
  destruct (fulfill_checks ct name args nargs refs) as [st i]. destruct (negb (st_ok st)); [apply scripted_ret|].
  apply scripted_bind; [apply scripted_mem|]. intros [st1 frame]. destruct (negb (st_ok st1)); [apply scripted_ret|].
  destruct (c_fns ct !! i) as [fn|]; [|done]. apply scripted_bind; [by apply scripted_pledge|].
  intros [st2 [out|]]; [|apply scripted_ret]. destruct (negb (st_ok st2)); [apply scripted_ret|].
  destruct (_ && _); [|apply scripted_ret]. apply scripted_bind; [apply scripted_mem|]. intros wb.
  destruct (st_ok wb); apply scripted_ret.
Qed.

Lemma pledge_plays fuel c i fn frame nargs :
  scripted (run_pledge dfuel code (fulfill_inline dfuel code callback fuel) c i fn frame nargs).
Proof. apply scripted_pledge. intros b. apply scripted_body. apply nested_plays. Qed.
End Plays.

(** ** Runs of the pool by one thread *)

Section Sim.
Context `{SA : StoreApi}.

(** Only thread [t] has moved, to [q]. *)
Record moved (t : nat) (q : pc) (s s' : pool) : Prop := Moved {
  mv_threads : threads s' = <[t := q]> (threads s);
  mv_stop : qstop s' = qstop s
}.
Lemma moved_goto t q s s' : threads s' = threads s → qstop s' = qstop s → moved t q s (goto t q s').
Proof. intros E1 E2. split; simpl; [by rewrite E1|done]. Qed.
Lemma moved_trans t p q a b c : moved t p a b → moved t q b c → moved t q a c.
Proof. intros [E1 E2] [E3 E4]. split; [|congruence]. by rewrite E3, E1, list_insert_insert_eq. Qed.
Lemma moved_th t p q s s' : th s t p → moved t q s s' → th s' t q.
Proof. intros H [E _]. unfold th. rewrite E. apply list_lookup_insert_eq. by eapply lookup_lt_Some. Qed.
Lemma moved_back t p q s s' : th s t p → moved t q s s' → q = p → threads s' = threads s.
Proof. intros H [E _] ->. rewrite E. by apply list_insert_id. Qed.

(** No other thread holds an instance's lock. *)
Definition alone (s : pool) (t : nat) : Prop := ∀ u p, u ≠ t → th s u p → held p = [].
Lemma alone_free s t c : alone s t → free_for s t c.
Proof. intros A u p Hne Hu. rewrite (A u p Hne Hu). apply not_elem_of_nil. Qed.
Lemma alone_moved s s' t q : moved t q s s' → alone s t → alone s' t.
Proof. intros [E _] A u p Hne Hu. unfold th in Hu. rewrite E, list_lookup_insert_ne in Hu by done. by eapply A. Qed.

(** From [s], thread [t] runs to [q] and the pool sees [w'] then. *)
Definition runs_to (ρ : gmap nat Z) (w' : world) (s : pool) (t : nat) (q : pc) : Prop :=
  ∃ s', rtc step s s' ∧ sees ρ w' s' ∧ moved t q s s'.

Lemma runs_step ρ w' s t p p' q s1 : th s t p → alone s t → step s (goto t p' s1) →
  threads s1 = threads s → qstop s1 = qstop s →
  (th (goto t p' s1) t p' → alone (goto t p' s1) t → runs_to ρ w' (goto t p' s1) t q) → runs_to ρ w' s t q.
Proof.
  intros Ht A H E1 E2 K. assert (M : moved t p' s (goto t p' s1)) by by apply moved_goto.
  destruct (K (moved_th _ _ _ _ _ Ht M) (alone_moved _ _ _ _ M A)) as (s' & R & S & M').
  exists s'. split; [by eapply rtc_l|]. split; [done|by eapply moved_trans].
Qed.
Lemma runs_then ρ ρ1 w1 w' s t p0 p q : th s t p0 → alone s t → runs_to ρ1 w1 s t p →
  (∀ s1, rtc step s s1 → sees ρ1 w1 s1 → th s1 t p → alone s1 t → qstop s1 = qstop s → runs_to ρ w' s1 t q) → runs_to ρ w' s t q.
Proof.
  intros Ht A (s1 & R & S & M) K.
  destruct (K s1 R S (moved_th _ _ _ _ _ Ht M) (alone_moved _ _ _ _ M A) (mv_stop _ _ _ _ M)) as (s' & R' & S' & M').
  exists s'. split; [by etrans|]. split; [done|by eapply moved_trans].
Qed.
Lemma runs_last ρ w' s t q s1 : step s s1 → sees ρ w' s1 → moved t q s s1 → runs_to ρ w' s t q.
Proof. intros H S M. exists s1. split; [by apply rtc_once|done]. Qed.
Lemma runs_now ρ w' s t q : th s t q → sees ρ w' s → runs_to ρ w' s t q.
Proof.
  intros Ht S. exists s. split; [apply rtc_refl|]. split; [done|]. split; [|done]. symmetry. by apply list_insert_id.
Qed.

Lemma sees_kill ρ w s b ct : sees ρ w s → ci w !! b = Some ct → c_state ct = GEAS_BROKEN → sees ρ w (kill b s).
Proof.
  intros [S1 S2 S3 S4 S5 S6 S7 S8] Hc Hb. split; try done. intros c. simpl.
  rewrite elem_of_union, elem_of_singleton. intros [->|Hd]; eauto.
Qed.

Lemma alter_is_insert {A} (f : A → A) (m : gmap Z A) a x : m !! a = Some x → alter f a m = <[a := f x]> m.
Proof.
  intros H. apply map_eq. intros b. destruct (decide (a = b)) as [<-|Hne].
  - by rewrite lookup_alter_eq, lookup_insert_eq, H.
  - by rewrite lookup_alter_ne, lookup_insert_ne.
Qed.

(** The walk of a break over the futures left, whoever breaks. *)
Lemma forfeit_runs ρ (mk : list nat → pc) t rem :
  (∀ s g x rem, th s t (mk (g :: rem)) → pfuts s !! g = Some x →
     step s (goto t (mk rem) (put_fut g (future_forfeit x) s))) →
  ∀ s w fs, sees ρ w s → th s t (mk rem) → alone s t → Forall2 (λ i a, ρ !! i = Some a) rem fs →
  runs_to ρ (set_futs (forfeited fs) w) s t (mk []).
Proof.
  intros Hstep. induction rem as [|g rem IH]; intros s w fs S Ht A H; inversion H as [|? a ? fs' Hg Hrem]; subst.
  { apply runs_now; [done|]. eapply sees_quiet; [exact S|]. by apply quiet_same. }
  destruct (sees_live _ _ _ _ _ S Hg) as (x & Hx & Hw).
  eapply runs_step; [exact Ht|exact A|by apply Hstep|done..|]. intros Ht1 A1.
  assert (S1 : sees ρ (set_futs (λ m, <[a := future_forfeit x]> m) w) (goto t (mk rem) (put_fut g (future_forfeit x) s)))
    by (eapply sees_put; [exact S|exact Hg|exact Hx|apply forfeit_fields|done]).
  destruct (IH _ _ fs' S1 Ht1 A1 Hrem) as (s' & R & S' & M). exists s'. split; [done|]. split; [|done].
  eapply sees_quiet; [exact S'|]. apply quiet_same; try done. simpl. unfold forfeited. simpl.
  by rewrite (alter_is_insert _ _ _ x).
Qed.

(** A body's script, played by a worker. *)
Lemma script_runs scr w w' : plays scr w w' → ∀ ρ s t f c ns rest,
  sees ρ w s → th s t (WRun f c ns (scr ++ rest)) → alone s t → runs_to ρ w' s t (WRun f c ns rest).
Proof.
  induction 1 as [w w' Q|b sa sb w wa wb Ha IHa Hb IHb|b sc w wa wb K Hs IH|sc w wa wb Q Hs IH];
    intros ρ s t f c ns rest S Ht A.
  - apply runs_now; [done|by eapply sees_quiet].
  - simpl in Ht. rewrite <- app_assoc in Ht. simpl in Ht.
    eapply runs_step; [exact Ht|exact A|left; by apply w_lock, alone_free|done..|]. intros Ht1 A1.
    eapply runs_then; [exact Ht1|exact A1|eapply IHa; [by apply sees_goto|exact Ht1|exact A1]|]. intros s1 _ S1 Ht2 A2 _.
    eapply runs_step; [exact Ht2|exact A2|left; by apply w_unlock|done..|]. intros Ht3 A3.
    eapply IHb; [by apply sees_goto|exact Ht3|exact A3].
  - destruct K as [K1 K2 K3 K4 (ct & K5 & K6)]. simpl in Ht.
    eapply runs_step; [exact Ht|exact A|left; by apply w_break, alone_free|done..|]. intros Ht1 A1.
    eapply runs_then; [exact Ht1|exact A1|..].
    { eapply (forfeit_runs ρ (WBreak f c ns (sc ++ rest) b)); [|by apply sees_goto|exact Ht1|exact A1|apply S].
      intros. left. by apply w_forfeit. }
    intros s1 _ S1 Ht2 A2 _.
    eapply runs_step; [exact Ht2|exact A2|left; by apply w_broke|done..|]. intros Ht3 A3.
    eapply IH; [|exact Ht3|exact A3]. apply sees_goto. eapply sees_kill; [|exact K5|exact K6].
    eapply sees_quiet; [exact S1|]. split; simpl; [done..|]. exact K4.
  - eapply IH; [by eapply sees_quiet|done..].
Qed.
End Sim.

(** ** Each operation is a run *)

Section Ops.
Context `{SA : StoreApi}.
Context (dfuel : nat) (code : Z → Z → Z → Z → body) (callback : Z → Z → GeasValue → Z → M unit).

Lemma get_fut_inv a w x w' : get_fut a w = WRet x w' → futs w !! a = Some x ∧ w' = w.
Proof. unfold get_fut. destruct (futs w !! a); intros; by simplify_eq. Qed.
Lemma upd_fut_inv a g w u w' : upd_fut a g w = WRet u w' →
  ∃ x, futs w !! a = Some x ∧ w' = set_futs (λ m, <[a := g x]> m) w.
Proof. unfold upd_fut. destruct (futs w !! a) as [x|]; intros; simplify_eq; eauto. Qed.

Lemma sees_listed ρ w s : sees ρ w s → listed_live w.
Proof.
  intros S c a Ha. apply list_elem_of_lookup in Ha as [k Hk].
  destruct (Forall2_lookup_r _ _ _ _ _ (sees_links _ _ _ S c) Hk) as (i & _ & Hi).
  by destruct (sees_fut _ _ _ S i a Hi).
Qed.
Lemma reachable_rtc s s' : reachable s → rtc step s s' → reachable s'.
Proof. intros (h & k & R) R'. exists h, k. by etrans. Qed.

(** *** The worker *)

Lemma unref_sees ρ w u w' s t p q i a x : pool_inv s → sees ρ w s → ρ !! i = Some a → pfuts s !! i = Some x →
  th s t p → p = WDrop i ∨ p = HDrop i → future_unref a w = WRet u w' →
  ∃ ρ', ρ' ⊆ ρ ∧ sees ρ' w' (goto t q (unref i x s)).
Proof.
  intros V S Hi Hx Ht Hp H. unfold future_unref in H. apply W_bind_inv in H as (y & w1 & [Hy ->]%get_fut_inv & H).
  assert (y = x) as -> by (destruct (sees_live _ _ _ _ _ S Hi) as (? & ? & ?); congruence).
  pose proof (pi_tok s V i) as T. unfold tokens in T. rewrite Hx in T. destruct T as (T1 & T2 & _ & T4 & T5 & _).
  apply W_bind_inv in H as (u1 & w1 & (z & Hz & ->)%upd_fut_inv & H). assert (z = x) as -> by congruence.
  unfold unref. destruct (Z.eqb_spec (u32 (fu_refcnt x - 1)) 0) as [E|E].
  - injection H as _ <-. exists (delete i ρ). split; [apply delete_subseteq|].
    assert (L : occ i (pqueue s) = 0%nat ∧ occ i (plinked s) = 0%nat).
    { assert (E1 : fu_refcnt x = 1) by (unfold u32 in E; rewrite Z.mod_small in E by lia; lia).
      destruct Hp as [->| ->].
      - pose proof (tsum_in pool_at _ _ _ i Ht) as B. simpl in B. rewrite Nat.eqb_refl in B. lia.
      - pose proof (tsum_in drop_at _ _ _ i Ht) as B. simpl in B. rewrite Nat.eqb_refl in B. lia. }
    eapply sees_quiet; [eapply (sees_delete ρ w s i a); [done|done|rewrite occ_in; lia..|done]|].
    apply quiet_same; try done. simpl. by rewrite delete_insert_eq.
  - injection H as _ <-. exists ρ. split; [done|]. eapply sees_put; [exact S|exact Hi|exact Hx| |]; done.
Qed.

Lemma finish_runs ρ w w' s t i a x p q st val : sees ρ w s → ρ !! i = Some a → pfuts s !! i = Some x →
  th s t p → step s (goto t q (finish i x st val s)) →
  w' = set_futs (λ m, <[a := future_finish st val x]> m) w → runs_to ρ w' s t q.
Proof.
  intros S Hi Hx Ht Hstep ->. eapply runs_last; [exact Hstep| |by apply moved_goto].
  eapply sees_put; [exact S|exact Hi|exact Hx|apply finish_fields|done].
Qed.

Lemma task_runs fuel ρ w u w' s t i a : sees ρ w s → ρ !! i = Some a → th s t (WTask i) → alone s t →
  run_task dfuel code callback fuel a w = WRet u w' → runs_to ρ w' s t (WDrop i).
Proof.
  intros S Hi Ht A H. destruct (sees_live _ _ _ _ _ S Hi) as (x & Hx & Hw). unfold run_task in H.
  apply W_bind_inv in H as (y & w1 & [Hy ->]%get_fut_inv & H). assert (y = x) as -> by congruence.
  apply W_bind_inv in H as (ct & w1 & [Hc ->]%get_inst_inv & H). destruct (state_live (c_state ct)) eqn:El; simpl in H.
  - apply W_bind_inv in H as ([st out] & w1 & Hr & H). destruct (pledge_plays dfuel code callback _ _ _ _ _ _ _ _ _ (sees_listed _ _ _ S) Hr) as [scr P].
    assert (Hd : fu_c x ∉ dead s).
    { intros Hd. destruct (sees_dead _ _ _ S _ Hd) as (ct' & Hct' & Hb). assert (ct' = ct) as -> by congruence. by rewrite Hb in El. }
    eapply (runs_step _ _ _ _ _ (WRun i (fu_c x) [] scr)); [exact Ht|exact A|left; by apply w_run, Hd; [..|apply alone_free]|done..|].
    intros Ht1 A1. eapply runs_then; [exact Ht1|exact A1|eapply (script_runs scr w w1 P ρ _ t i (fu_c x) [] []);
      [by apply sees_goto|by rewrite app_nil_r|exact A1]|].
    intros s1 _ S1 Ht2 A2 _. apply upd_fut_inv in H as (z & Hz & ->). pose proof (sees_back _ _ _ _ _ _ S1 Hi Hz) as Hz1.
    eapply finish_runs; [exact S1|exact Hi|exact Hz1|exact Ht2|left; by eapply w_done|done].
  - apply upd_fut_inv in H as (z & Hz & ->). assert (z = x) as -> by congruence.
    destruct (decide (fu_c x ∈ dead s)) as [Hd|Hd].
    + eapply finish_runs; [exact S|exact Hi|exact Hx|exact Ht|left; by apply w_refuse; [..|apply alone_free|]|done].
    + eapply (runs_step _ _ _ _ _ (WRun i (fu_c x) [] [])); [exact Ht|exact A|left; by apply w_run; [..|apply alone_free|]|done..|].
      intros Ht1 A1. eapply finish_runs; [by apply sees_goto|exact Hi|exact Hx|exact Ht1|left; by eapply w_done|done].
Qed.

Lemma turn_runs fuel ρ w more w' s t : reachable s → sees ρ w s → th s t WIdle → alone s t →
  pool_worker dfuel code callback fuel w = WRet more w' → ∃ ρ', ρ' ⊆ ρ ∧ runs_to ρ' w' s t WIdle.
Proof.
  intros V S Ht A H. unfold pool_worker in H. pose proof (sees_queue _ _ _ S) as Q. destruct (queue w) as [|a q] eqn:Eq.
  { injection H as _ <-. exists ρ. split; [done|]. by apply runs_now. }
  inversion Q as [|i ? qi ? Hi Hq Eqi]; subst. symmetry in Eqi.
  assert (Hstep : step s (goto t (WTask i) (set_pqueue qi s))) by (left; by apply w_take).
  assert (S1 : sees ρ (set_queue q w) (goto t (WTask i) (set_pqueue qi s))).
  { destruct S as [S1 S2 S3 S4 S5 S6 S7 S8]. by split. }
  apply W_bind_inv in H as (u & w1 & H1 & H). apply W_bind_inv in H as (u2 & w2 & H2 & H). injection H as _ <-.
  assert (M : moved t (WTask i) s (goto t (WTask i) (set_pqueue qi s))) by by apply moved_goto.
  pose proof (moved_th _ _ _ _ _ Ht M) as Ht1. pose proof (alone_moved _ _ _ _ M A) as A1.
  destruct (task_runs fuel ρ _ u w1 _ t i a S1 Hi Ht1 A1 H1) as (s2 & R2 & S2 & M2).
  pose proof (moved_th _ _ _ _ _ Ht1 M2) as Ht2. destruct (sees_live _ _ _ _ _ S2 Hi) as (x & Hx & _).
  assert (V2 : reachable s2) by (eapply reachable_rtc; [exact V|by eapply rtc_l]).
  destruct (unref_sees ρ w1 u2 w2 s2 t (WDrop i) WIdle i a x) as (ρ' & Hs & S3); try done; [by apply reachable_inv|by left|].
  exists ρ'. split; [done|]. exists (goto t WIdle (unref i x s2)). split_and!; [|done|].
  - eapply rtc_l; [exact Hstep|]. eapply rtc_r; [exact R2|]. left. by apply w_drop.
  - eapply moved_trans; [exact M|]. eapply moved_trans; [exact M2|]. by apply moved_goto.
Qed.

(** *** The host: fulfill *)

Record prepared (a : Z) (x : GeasFuture) (pidx : nat) (st : GeasStatus) (w w' : world) (y : GeasFuture) : Prop := Prepared {
  pr_futs : futs w' = <[a := y]> (futs w);
  pr_links : links w' = links w;
  pr_queue : queue w' = queue w;
  pr_ci : ci w' = ci w;
  pr_fut : if st_ok st then ∃ p l fn fr na sl off, y = with_task fn pidx fr na sl off (with_refs p l x)
           else y = x ∨ ∃ p l, y = with_refs p l x
}.
Lemma prepare_inv c a pidx nargs args refs w st w' :
  futs w !! a = Some (fresh_future c) → prepare_task dfuel c a pidx nargs args refs w = WRet st w' →
  ∃ y, prepared a (fresh_future c) pidx st w w' y.
Proof.
  intros Hx H. unfold prepare_task in H. set (n := Z.of_nat (length refs)) in *.
  assert (Same : ∀ m y, <[a := y]> (futs w) = <[a := y]> (futs (set_wm m w))) by done.
  apply W_bind_inv in H as (p & w1 & H1 & H).
  assert (E1 : ∃ m, w1 = set_wm m w).
  { destruct (0 <? n); [apply in_mem_inv in H1 as (m & _ & ->); eauto|]. injection H1 as _ <-. exists (wm w). by destruct w. }
  destruct E1 as [m1 ->]. destruct (p =? 0).
  { injection H as <- <-. exists (fresh_future c). split; try done; [|by left]. symmetry. by apply insert_id. }
  apply W_bind_inv in H as (u & w2 & H2 & H).
  assert (E2 : ∃ y, w2 = set_futs (λ m, <[a := y]> m) (set_wm m1 w) ∧ ∃ p l, y = with_refs p l (fresh_future c)).
  { destruct (0 <? n).
    - apply upd_fut_inv in H2 as (z & Hz & ->). simpl in Hz. assert (z = fresh_future c) as -> by congruence. eauto.
    - injection H2 as _ <-. exists (fresh_future c). split; [|by exists 0, []]. unfold set_futs, set_wm. simpl.
      by rewrite insert_id. }
  destruct E2 as (y & -> & p1 & l1 & ->). clear H2.
  apply W_bind_inv in H as ([st1 frame] & w3 & (m3 & _ & ->)%in_mem_inv & H).
  destruct (st_ok st1) eqn:Eo; simpl in H.
  2: { injection H as <- <-. eexists. split; [done..|]. rewrite Eo. right. eauto. }
  apply W_bind_inv in H as (ct & w4 & [_ ->]%get_inst_inv & H). destruct (c_fns ct !! pidx) as [fn|]; [|done].
  apply W_bind_inv in H as (u4 & w4 & (z & Hz & ->)%upd_fut_inv & H). injection H as <- <-.
  simpl in Hz. rewrite lookup_insert_eq in Hz. injection Hz as <-.
  eexists. split; [simpl; by rewrite insert_insert_eq|done..|]. simpl. by eexists _, _, _, _, _, _, _.
Qed.

Lemma checks_live ct name args nargs refs st i : fulfill_checks ct name args nargs refs = (st, i) → st_ok st = true →
  c_state ct ≠ GEAS_BROKEN.
Proof.
  unfold fulfill_checks. destruct (_ || _); [by intros [= <- _]|]. destruct (state_live (c_state ct)) eqn:E; simpl.
  - intros _ _ Hb. by rewrite Hb in E.
  - by intros [= <- _].
Qed.

(** From a validated, linked future to the end of [geas_pledge_fulfill]. *)
Lemma finish_fulfill_runs ρ w w1 w' s t sync i a c pidx st y r : sees ρ w s → ρ !! i = Some a →
  pfuts s !! i = Some (fresh_future c) → th s t (HNew sync i) → alone s t →
  prepared a (fresh_future c) pidx st w w1 y → y = fresh_future c ∧ st_ok st = false ∨ c ∉ dead s →
  (if negb (st_ok st) then upd_fut a (future_finish st None);; mret a
   else upd_fut a (with_refcnt 2);; pool_enqueue a;; mret a) w1 = WRet r w' →
  r = a ∧ runs_to ρ w' s t (after sync i).
Proof.
  intros S Hi Hx Ht A [E1 E2 E3 E4 Hy] Hd H. assert (Hwa : futs w1 !! a = Some y) by (rewrite E1; apply lookup_insert_eq).
  assert (Hput : fu_c y = c → ∀ p, sees ρ w1 (goto t p (put_fut i y s))).
  { intros Hc p. eapply sees_quiet; [eapply (sees_put ρ w s i a (fresh_future c) y _ S Hi Hx Hc); by split|]. by apply quiet_same. }
  destruct (st_ok st) eqn:Eo; simpl in H, Hy.
  - destruct Hy as (p & l & fn & fr & na & sl & off & ->). set (y := with_task _ _ _ _ _ _ _) in *.
    apply W_bind_inv in H as (u & w2 & (z & Hz & ->)%upd_fut_inv & H). assert (z = y) as -> by congruence.
    apply W_bind_inv in H as (u2 & w2 & [= _ <-] & H). injection H as <- <-. split; [done|].
    eapply (runs_step _ _ _ _ _ (HReady sync i)); [exact Ht|exact A|right; apply h_ready; [done|done|by apply alone_free|by destruct Hd as [[_ [=]]|Hd]]|done..|].
    intros Ht1 A1. assert (Hx1 : pfuts (goto t (HReady sync i) (put_fut i y s)) !! i = Some y) by apply lookup_insert_eq.
    eapply (runs_step _ _ _ _ _ (HEnq sync i)); [exact Ht1|exact A1|right; by apply h_hold|done..|]. intros Ht2 A2.
    eapply runs_last; [right; by apply h_enqueue| |by apply moved_goto].
    pose proof (sees_put ρ w1 _ i a y (with_refcnt 2 y) (goto t (HEnq sync i) (put_fut i (with_refcnt 2 y) (goto t (HReady sync i) (put_fut i y s))))
      (Hput eq_refl _) Hi Hx1 eq_refl ltac:(by split)) as S2.
    destruct S2 as [P1 P2 P3 P4 P5 P6 P7 P8]. split; try done. simpl. apply Forall2_app; [exact P7|]. by repeat constructor.
  - apply W_bind_inv in H as (u & w2 & (z & Hz & ->)%upd_fut_inv & H). assert (z = y) as -> by congruence.
    injection H as <- <-. split; [done|].
    assert (K : ∃ s1, step s (goto t (HFail sync i st) s1) ∧ s1 = put_fut i y s).
    { eexists. split; [|done]. right.
      assert (K0 : y = fresh_future c → hstep s (goto t (HFail sync i st) (put_fut i y s))).
      { intros ->. replace (put_fut i (fresh_future c) s) with s; [by apply h_fail|].
        destruct s. unfold put_fut. simpl in *. by rewrite insert_id. }
      destruct Hy as [Hy|(p & l & Hy)]; [by apply K0|]. destruct Hd as [[Hd _]|Hd]; [by apply K0|].
      rewrite Hy. apply h_fail_refs; [done|done|by apply alone_free|done]. }
    destruct K as (s1 & K & ->).
    eapply (runs_step _ _ _ _ _ (HFail sync i st)); [exact Ht|exact A|exact K|done..|]. intros Ht1 A1.
    assert (Hx1 : pfuts (goto t (HFail sync i st) (put_fut i y s)) !! i = Some y) by apply lookup_insert_eq.
    eapply finish_runs; [apply Hput|exact Hi|exact Hx1|exact Ht1|right; by apply h_finish|done].
    by destruct Hy as [->|(p & l & ->)].
Qed.

Lemma link_runs c w a w' : future_new c w = WRet a w' →
  a = 0 ∧ quiet w w' ∨ a ≠ 0 ∧ ∃ w1, quiet w w1 ∧ w' = linked_world c w1 ∧ a = 1 + max_key (futs w1).
Proof.
  intros H. unfold future_new in H. apply W_bind_inv in H as (ok & w1 & H1 & H). apply quiet_in_mem in H1.
  destruct ok; simpl in H; [|injection H as <- <-; by left]. injection H as <- <-. right.
  pose proof (fresh_fut w1) as [_ Hf]. split; [lia|]. by exists w1.
Qed.

Lemma fulfill_runs sync c name args nargs refs w a w' ρ s t :
  reachable s → sees ρ w s → th s t HIdle → alone s t → qstop s = false →
  geas_pledge_fulfill dfuel c name args nargs refs w = WRet a w' →
  a = 0 ∧ sees ρ w' s ∨ a ≠ 0 ∧ runs_to (<[pnext s := a]> ρ) w' s t (after sync (pnext s)).
Proof.
  intros V S Ht A Hq H. unfold geas_pledge_fulfill in H. destruct name as [name|]; [|injection H as <- <-; by left].
  destruct (c =? 0); [injection H as <- <-; by left|].
  apply W_bind_inv in H as (f & w1 & [[-> Q]|(Hf & w0 & Q & -> & ->)]%link_runs & H).
  { injection H as <- <-. left. split; [done|by eapply sees_quiet]. }
  rewrite (proj2 (Z.eqb_neq _ 0)) in H by done. pose proof (sees_quiet _ _ _ _ S Q) as S0.
  set (f := 1 + max_key (futs w0)) in *. set (i := pnext s) in *.
  assert (S1 : ∀ p, sees (<[i := f]> ρ) (linked_world c w0) (goto t p (create c s)))
    by (intros p; apply sees_goto, sees_create; [by apply reachable_inv|done]).
  set (w1 := linked_world c w0) in *. assert (Hw1 : futs w1 !! f = Some (fresh_future c)) by apply lookup_insert_eq.
  apply W_bind_inv in H as (ct & w2 & [Hc ->]%get_inst_inv & H).
  destruct (fulfill_checks ct name args nargs refs) as [st pidx] eqn:Ec.
  apply W_bind_inv in H as (st2 & w2 & Hp & H).
  assert (P : ∃ y, prepared f (fresh_future c) pidx st2 w1 w2 y ∧
    (y = fresh_future c ∧ st_ok st2 = false ∨ c ∉ dead s)).
  { destruct (st_ok st) eqn:Eo.
    - destruct (prepare_inv _ _ _ _ _ _ _ _ _ Hw1 Hp) as (y & P). exists y. split; [done|]. right. intros Hd.
      destruct (sees_dead _ _ _ (S1 HIdle) c Hd) as (ct' & Hct' & Hb). assert (ct' = ct) as -> by congruence.
      by apply (checks_live _ _ _ _ _ _ _ Ec Eo).
    - injection Hp as <- <-. exists (fresh_future c). split; [|by left]. split; try done.
      + symmetry. by apply insert_id.
      + rewrite Eo. by left. }
  destruct P as (y & P & Hd).
  assert (K : runs_to (<[i := f]> ρ) w' s t (after sync i) ∧ a = f); [|destruct K as [K ->]; by right].
  assert (Hstep : step s (goto t (HNew sync i) (create c s))) by (right; apply h_new; [done|done|by apply alone_free]).
  assert (M : moved t (HNew sync i) s (goto t (HNew sync i) (create c s))) by by apply moved_goto.
  destruct (finish_fulfill_runs (<[i := f]> ρ) w1 w2 w' _ t sync i f c pidx st2 y a (S1 _)
    (lookup_insert_eq _ _ _) (lookup_insert_eq _ _ _) (moved_th _ _ _ _ _ Ht M) (alone_moved _ _ _ _ M A) P Hd H)
    as [-> (s' & R & S' & M')].
  split; [|done]. exists s'. split; [by eapply rtc_l|]. split; [done|by eapply moved_trans].
Qed.

(** *** The host: wait, release, break *)

Lemma wait_inv a w r w' : a ≠ 0 → geas_future_wait callback a w = WRet r w' → ∃ x, futs w !! a = Some x ∧
  (fu_done x = false ∧ r = None ∧ w' = w ∨
   fu_done x = true ∧ quiet (if fu_waited x then w else set_futs (λ m, <[a := with_waited x]> m) w) w').
Proof.
  intros Ha H. unfold geas_future_wait in H. rewrite (proj2 (Z.eqb_neq a 0)) in H by done.
  apply W_bind_inv in H as (x & w1 & [Hx ->]%get_fut_inv & H). exists x. split; [done|].
  destruct (fu_done x); simpl in H; [|injection H as <- <-; by left]. right. split; [done|].
  destruct (fu_waited x); [injection H as <- <-; apply quiet_refl|].
  apply W_bind_inv in H as (u & w1 & (z & Hz & ->)%upd_fut_inv & H). assert (z = x) as -> by congruence.
  destruct (_ && _); [|injection H as <- <-; apply quiet_refl].
  apply W_bind_inv in H as (b & w2 & H2%quiet_in_mem & H). apply W_bind_inv in H as (wb & w3 & H3%quiet_in_mem & H).
  assert (w' = w3) as -> by (by destruct (st_ok wb); injection H as _ <-). by eapply quiet_trans.
Qed.
Lemma deliver_sees ρ w w' s i a x : sees ρ w s → ρ !! i = Some a → pfuts s !! i = Some x →
  quiet (if fu_waited x then w else set_futs (λ m, <[a := with_waited x]> m) w) w' → sees ρ w' (deliver i x s).
Proof.
  intros S Hi Hx Q. eapply sees_quiet; [|exact Q]. unfold deliver. destruct (fu_waited x); [done|].
  eapply sees_put; [exact S|exact Hi|exact Hx| |]; done.
Qed.

Lemma wait_runs ρ w s t a r w' : sees ρ w s → th s t HIdle →
  (∃ x, futs w !! a = Some x ∧ a ∈ default [] (links w !! fu_c x)) →
  geas_future_wait callback a w = WRet r w' → a ≠ 0 → runs_to ρ w' s t HIdle.
Proof.
  intros S Ht (x & Hx & Hin) H Ha. destruct (wait_inv _ _ _ _ Ha H) as (z & Hz & [(_ & _ & ->)|[Hd Q]]); [by apply runs_now|].
  assert (z = x) as -> by congruence. destruct (sees_at _ _ _ _ _ S Hx) as (i & Hi & Hp).
  assert (Hl : i ∈ plinked s).
  { apply list_elem_of_lookup in Hin as [k Hk]. destruct (Forall2_lookup_r _ _ _ _ _ (sees_links _ _ _ S _) Hk) as (j & Hj & Hja).
    assert (j = i) as -> by (by eapply (sees_inj _ _ _ S)). apply list_elem_of_lookup_2 in Hj.
    unfold links_of in Hj. by apply list_elem_of_filter in Hj as [_ ?]. }
  eapply runs_last; [right; by eapply h_wait|by eapply deliver_sees|].
  unfold deliver. destruct (fu_waited x); (split; [|done]); symmetry; by apply list_insert_id.
Qed.

Lemma release_runs ρ w s t i a u w' : reachable s → sees ρ w s → ρ !! i = Some a → th s t (HRel i) → alone s t →
  future_release a w = WRet u w' → ∃ ρ', ρ' ⊆ ρ ∧ runs_to ρ' w' s t HIdle.
Proof.
  intros V S Hi Ht A H. destruct (sees_live _ _ _ _ _ S Hi) as (x & Hx & Hw). unfold future_release in H.
  apply W_bind_inv in H as (y & w1 & [Hy ->]%get_fut_inv & H). assert (y = x) as -> by congruence.
  apply W_bind_inv in H as (l & w1 & [= <- <-] & H). apply W_bind_inv in H as (u1 & w1 & [= _ <-] & H).
  assert (Hstep : step s (goto t (HDrop i) (unlinked i s))) by (right; eapply h_release; [done|done|by apply alone_free]).
  pose proof (sees_goto _ _ _ t (HDrop i) (sees_unlink ρ w s i a x S Hi Hx)) as S1.
  assert (M : moved t (HDrop i) s (goto t (HDrop i) (unlinked i s))) by by apply moved_goto.
  pose proof (moved_th _ _ _ _ _ Ht M) as Ht1.
  assert (V1 : pool_inv (goto t (HDrop i) (unlinked i s))) by (eapply reachable_inv, reachable_rtc; [exact V|by apply rtc_once]).
  destruct (unref_sees ρ _ u w' _ t (HDrop i) HIdle i a x V1 S1 Hi Hx Ht1 (or_intror eq_refl) H) as (ρ' & Hs & S2).
  exists ρ'. split; [done|]. eexists. split; [eapply rtc_l; [exact Hstep|]; apply rtc_once; right; by apply h_drop|].
  split; [exact S2|]. eapply moved_trans; [exact M|by apply moved_goto].
Qed.

Lemma break_runs ρ w s t c st w' : sees ρ w s → th s t HIdle → alone s t → qstop s = false →
  geas_contract_break c w = WRet st w' → runs_to ρ w' s t HIdle.
Proof.
  intros S Ht A Hq H. destruct (break_plays _ _ _ _ (sees_listed _ _ _ S) H) as [Q|[K1 K2 K3 K4 (ct & K5 & K6)]].
  { apply runs_now; [done|by eapply sees_quiet]. }
  eapply runs_step; [exact Ht|exact A|right; apply (h_break s t c); [done|done|by apply alone_free]|done..|]. intros Ht1 A1.
  eapply runs_then; [exact Ht1|exact A1|..].
  { eapply (forfeit_runs ρ (HBreak c)); [|by apply sees_goto|exact Ht1|exact A1|apply S]. intros. right. by apply h_forfeit. }
  intros s1 _ S1 Ht2 A2 _. eapply runs_last; [right; by apply h_broke| |by apply moved_goto].
  apply sees_goto. eapply sees_kill; [|exact K5|exact K6]. eapply sees_quiet; [exact S1|]. by split.
Qed.
End Ops.
