(* ===== verification/EmbedProps.v ===== *)
(** * Sequential runs inside the pool: the theorem *)
From S2P Require Import Prelude Abi Memory Value Iname Frame Policy Store StoreMem Future Lifecycle LifecycleSpec Task TaskSpec Pool PoolSpec Embed LifecycleProps.

Section Steps.
Context `{SA : StoreApi}.
Context (dfuel : nat) (code : Z → Z → Z → Z → body) (callback : Z → Z → GeasValue → Z → M unit).

(** One call of a host, or one turn of a worker, run to its end.  A receipt is
    waited on while its instance lists it. *)
Inductive task_step (w w' : world) : Prop :=
| ts_fulfill c name args nargs refs a :
    geas_pledge_fulfill dfuel c name args nargs refs w = WRet a w' → task_step w w'
| ts_turn fuel more : pool_worker dfuel code callback fuel w = WRet more w' → task_step w w'
| ts_wait a x r : futs w !! a = Some x → a ∈ default [] (links w !! fu_c x) → a ≠ 0 →
    geas_future_wait callback a w = WRet r w' → task_step w w'
| ts_sync fuel n c name args nargs refs r :
    fulfill_sync_queued dfuel code callback fuel n c name args nargs refs w = WRet r w' → task_step w w'
| ts_break c st : geas_contract_break c w = WRet st w' → task_step w w'
| ts_sign name vows nvows hash r :
    geas_contract_sign dfuel name vows nvows hash w = WRet r w' → task_step w w'.

(** The pool between two calls: one host, one worker, both at rest. *)
Record at_rest (ρ : gmap nat Z) (w : world) (s : pool) : Prop := AtRest {
  ar_run : rtc step (pool_init 1 0) s;
  ar_threads : threads s = [HIdle; WIdle];
  ar_stop : qstop s = false;
  ar_sees : sees ρ w s
}.

Lemma rest_reachable s : rtc step (pool_init 1 0) s → reachable s.
Proof. intros R. by exists 1%nat, 0%nat. Qed.
Lemma rest_alone s t h k : threads s = [h; k] → held h = [] → held k = [] → alone s t.
Proof. intros E Hh Hk [|[|u]] p _ Hu; unfold th in Hu; rewrite E in Hu; simplify_eq/=; done. Qed.
Lemma rest_steps ρ ρ' w w' s t q : at_rest ρ w s → th s t q → runs_to ρ' w' s t q → ∃ s', at_rest ρ' w' s'.
Proof.
  intros [R E Q _] Ht (s' & R' & S' & M). exists s'. pose proof (moved_back _ _ _ _ _ Ht M eq_refl) as E'.
  split; [by etrans|by rewrite E'|by rewrite (mv_stop _ _ _ _ M)|done].
Qed.

Lemma drain_runs fuel n : ∀ ρ w s h u w', threads s = [h; WIdle] → held h = [] → reachable s → sees ρ w s →
  pool_drain dfuel code callback fuel n w = WRet u w' →
  ∃ ρ' s', ρ' ⊆ ρ ∧ rtc step s s' ∧ sees ρ' w' s' ∧ threads s' = threads s ∧ qstop s' = qstop s.
Proof.
  induction n as [|n IH]; intros ρ w s h u w' E Hh V S H; cbn [pool_drain] in H.
  { injection H as _ <-. exists ρ, s. split_and!; try done. }
  apply W_bind_inv in H as (more & w1 & H1 & H). assert (Ht : th s 1 WIdle) by (unfold th; by rewrite E).
  destruct (turn_runs dfuel code callback fuel ρ w more w1 s 1 V S Ht (rest_alone _ _ _ _ E Hh eq_refl) H1)
    as (ρ1 & Hs & s1 & R1 & S1 & M1).
  pose proof (moved_back _ _ _ _ _ Ht M1 eq_refl) as E1. pose proof (mv_stop _ _ _ _ M1) as Q1.
  destruct more; [|injection H as _ <-; by exists ρ1, s1].
  destruct (IH ρ1 w1 s1 h u w') as (ρ2 & s2 & Hs2 & R2 & S2 & E2 & Q2); [congruence|done|by eapply reachable_rtc|done..|].
  exists ρ2, s2. split_and!; [by etrans|by etrans|done|congruence..].
Qed.

Lemma sync_rest fuel n c name args nargs refs ρ w s r w' : at_rest ρ w s →
  fulfill_sync_queued dfuel code callback fuel n c name args nargs refs w = WRet r w' → ∃ ρ' s', at_rest ρ' w' s'.
Proof.
  intros A H. pose proof A as [R E Q S]. unfold fulfill_sync_queued in H.
  destruct (_ || _); [injection H as _ <-; eauto|]. apply W_bind_inv in H as (a & w1 & H1 & H).
  assert (Ht : th s 0 HIdle) by (unfold th; by rewrite E).
  destruct (fulfill_runs dfuel true c name args nargs refs w a w1 ρ s 0 (rest_reachable _ R) S Ht
    (rest_alone _ _ _ _ E eq_refl eq_refl) Q H1) as [[-> S1]|[Ha (s1 & R1 & S1 & M1)]].
  { injection H as _ <-. exists ρ, s. by split. }
  rewrite (proj2 (Z.eqb_neq a 0)) in H by done. set (i := pnext s) in *. simpl in M1.
  assert (E1 : threads s1 = [HWait i; WIdle]) by (by rewrite (mv_threads _ _ _ _ M1), E).
  assert (V1 : reachable s1) by (eapply reachable_rtc; [by apply rest_reachable|done]).
  apply W_bind_inv in H as (u & w2 & H2 & H).
  destruct (drain_runs fuel n _ w1 s1 (HWait i) u w2 E1 eq_refl V1 S1 H2) as (ρ2 & s2 & Hs2 & R2 & S2 & E2 & Q2).
  rewrite E1 in E2. assert (V2 : reachable s2) by by eapply reachable_rtc.
  assert (Ht2 : th s2 0 (HWait i)) by (unfold th; by rewrite E2).
  assert (Hi : ρ2 !! i = Some a).
  { assert (L : is_Some (pfuts s2 !! i)).
    { apply tok_live; [by apply reachable_inv|]. pose proof (tsum_in host_at _ _ _ i Ht2) as B. simpl in B.
      rewrite Nat.eqb_refl in B. lia. }
    destruct (ρ2 !! i) as [b|] eqn:Eb; [|rewrite (sees_none _ _ _ S2 i Eb) in L; by destruct L].
    pose proof (lookup_weaken _ _ _ _ Eb Hs2) as Eb1. rewrite lookup_insert_eq in Eb1. congruence. }
  apply W_bind_inv in H as (o & w3 & H3 & H). destruct (wait_inv callback _ _ _ _ Ha H3) as (x & Hx & [(_ & -> & _)|[Hd Qx]]); [done|].
  destruct o as [[st v]|]; [|done]. pose proof (sees_back _ _ _ _ _ _ S2 Hi Hx) as Hp.
  assert (Hstep : step s2 (goto 0 (HRel i) (deliver i x s2))) by (right; by apply h_wait_sync).
  assert (M3 : moved 0 (HRel i) s2 (goto 0 (HRel i) (deliver i x s2))).
  { apply moved_goto; unfold deliver; by destruct (fu_waited x). }
  pose proof (sees_goto _ _ _ 0 (HRel i) (deliver_sees _ _ _ _ _ _ _ S2 Hi Hp Qx)) as S3.
  apply W_bind_inv in H as (u4 & w4 & H4 & H). injection H as _ <-.
  destruct (release_runs ρ2 w3 _ 0 i a u4 w4 (reachable_rtc _ _ V2 (rtc_once _ _ Hstep)) S3 Hi (moved_th _ _ _ _ _ Ht2 M3)
    (alone_moved _ _ _ _ M3 (rest_alone _ _ _ _ E2 eq_refl eq_refl)) H4) as (ρ4 & _ & s4 & R4 & S4 & M4).
  exists ρ4, s4. split; [| | |done].
  - etrans; [exact R|]. etrans; [exact R1|]. etrans; [exact R2|]. by eapply rtc_l.
  - by rewrite (mv_threads _ _ _ _ M4), (mv_threads _ _ _ _ M3), E2.
  - rewrite (mv_stop _ _ _ _ M4), (mv_stop _ _ _ _ M3), Q2. by rewrite (mv_stop _ _ _ _ M1).
Qed.

Lemma step_rest ρ w s w' : at_rest ρ w s → task_step w w' → ∃ ρ' s', at_rest ρ' w' s'.
Proof.
  intros A H. pose proof A as [R E Q S]. assert (Ht : th s 0 HIdle) by (unfold th; by rewrite E).
  assert (Hu : th s 1 WIdle) by (unfold th; by rewrite E).
  assert (Al : ∀ t, alone s t) by (intros t; by eapply rest_alone).
  pose proof (rest_reachable _ R) as V.
  destruct H as [c name args nargs refs a H|fuel more H|a x r Hx Hin Ha H|fuel n c name args nargs refs r H|c st H|name vows nvows hash r H].
  - destruct (fulfill_runs dfuel false c name args nargs refs w a w' ρ s 0 V S Ht (Al 0%nat) Q H) as [[_ S']|[_ K]].
    + exists ρ, s. by split.
    + eexists. eapply rest_steps; [exact A|exact Ht|exact K].
  - destruct (turn_runs dfuel code callback fuel ρ w more w' s 1 V S Hu (Al 1%nat) H) as (ρ' & _ & K). exists ρ'. eapply rest_steps; [exact A|exact Hu|exact K].
  - exists ρ. eapply rest_steps; [exact A|exact Ht|]. eapply wait_runs; [exact S|exact Ht|by exists x|exact H|exact Ha].
  - eapply sync_rest; [exact A|exact H].
  - exists ρ. eapply rest_steps; [exact A|exact Ht|]. eapply break_runs; [exact S|exact Ht|apply Al|exact Q|exact H].
  - exists ρ, s. split; try done. eapply sees_quiet; [exact S|]. eapply blind_quiet; [apply blind_sign|apply sign_keeps|exact H].
Qed.

Lemma run_rest ρ w s w' : at_rest ρ w s → rtc task_step w w' → ∃ ρ' s', at_rest ρ' w' s'.
Proof.
  intros A H. revert ρ s A. induction H as [w|w w1 w' H1 _ IH]; intros ρ s A; [eauto|].
  destruct (step_rest _ _ _ _ A H1) as (ρ1 & s1 & A1). by eapply IH.
Qed.

(** ** Counting places *)

Definition count (a : Z) (l : list Z) : nat := length (filter (a =.) l).

Lemma occ_count (ρ : gmap nat Z) i a l k : (∀ i j b, ρ !! i = Some b → ρ !! j = Some b → i = j) → ρ !! i = Some a →
  Forall2 (λ i a, ρ !! i = Some a) l k → occ i l = count a k.
Proof.
  intros Hinj Hi. unfold count. induction 1 as [|j b l k Hj _ IH]; [done|]. cbn [occ is_at]. rewrite filter_cons, IH.
  destruct (Nat.eqb_spec j i) as [->|Hne].
  - rewrite decide_True by congruence. done.
  - rewrite decide_False; [done|]. intros <-. apply Hne. by eapply Hinj.
Qed.
Lemma occ_filter (P : nat → Prop) `{∀ i, Decision (P i)} i l : P i → occ i (filter P l) = occ i l.
Proof.
  intros Hi. induction l as [|j l IH]; [done|]. rewrite filter_cons. cbn [occ is_at]. destruct (decide (P j)) as [Hj|Hj]; simpl.
  - by rewrite IH.
  - rewrite IH. destruct (Nat.eqb_spec j i) as [->|]; done.
Qed.

(** The holds of a future, of the world's own queue and lists. *)
Definition places (w : world) (a : Z) (x : GeasFuture) : nat :=
  count a (queue w) + count a (default [] (links w !! fu_c x)).
Lemma rest_places ρ w s a x : at_rest ρ w s → futs w !! a = Some x →
  fu_refcnt x = Z.of_nat (places w a x) ∧ (1 ≤ places w a x ≤ 2)%nat ∧ (fu_done x = false → a ∈ queue w).
Proof.
  intros [R E Q S] Hx. destruct (sees_at _ _ _ _ _ S Hx) as (i & Hi & Hp).
  pose proof (pi_tok s (reachable_inv _ (rest_reachable _ R)) i) as T. unfold tokens in T. rewrite Hp, E in T. simpl in T.
  rewrite (occ_count ρ i a _ _ (sees_inj _ _ _ S) Hi (sees_queue _ _ _ S)) in T.
  assert (L : occ i (plinked s) = count a (default [] (links w !! fu_c x))).
  { rewrite <- (occ_count ρ i a _ _ (sees_inj _ _ _ S) Hi (sees_links _ _ _ S (fu_c x))).
    unfold links_of. symmetry. apply (occ_filter (λ f, fu_c <$> pfuts s !! f = Some (fu_c x))). by rewrite Hp. }
  rewrite L in T. unfold places. destruct T as (T1 & T2 & _ & T4 & T5 & T6 & _). split_and!; [rewrite T4; f_equal; lia|lia..|].
  intros Hd. rewrite Hd in T6. simpl in T6. assert (C : count a (queue w) ≠ 0%nat) by lia. unfold count in C.
  destruct (filter (a =.) (queue w)) as [|b l] eqn:Ef; [done|].
  assert (Hb : b ∈ filter (a =.) (queue w)) by (rewrite Ef; left). apply list_elem_of_filter in Hb as [-> ?]. done.
Qed.
End Steps.

(** C15: what [Task] computes in one go is what the threads do.  Every sequence of
    calls run to their end (fulfillments queued or synchronous, worker turns with
    arbitrary reentrant bodies, waits on listed receipts, breaks, signs), from a
    world without futures, is a run of the pool's steps by one host thread and one
    worker, at rest between calls, whose futures, lists and queue are the world's
    and whose dead instances are Broken; so whatever holds of the pool in every
    interleaving holds of these runs.  In particular no call leaves a dangling
    future or a lost one: each one's hold count is exactly its places in the queue
    and in its instance's list, one or two, and one without an outcome is queued. *)
Theorem task_runs_in_pool `{SA : StoreApi} dfuel code callback w w' :
  futs w = ∅ → links w = ∅ → queue w = [] → rtc (task_step dfuel code callback) w w' →
  (∃ ρ s, at_rest ρ w' s) ∧
  ∀ a x, futs w' !! a = Some x →
    fu_refcnt x = Z.of_nat (places w' a x) ∧ (1 ≤ places w' a x ≤ 2)%nat ∧ (fu_done x = false → a ∈ queue w').
Proof.
  intros Hf Hl Hq H. assert (K : ∃ ρ s, at_rest ρ w' s).
  2: { split; [done|]. intros a x Hx. destruct K as (ρ & s & A). by eapply rest_places. }
  assert (K0 : ∃ ρ s, at_rest ρ w s).
  { exists ∅, (pool_init 1 0). split; [apply rtc_refl|done..|]. split; simpl; rewrite ?Hf, ?Hl, ?Hq; try done.
    by intros a [x [=]]. }
  destruct K0 as (ρ & s & A). by eapply run_rest.
Qed.

(** A fulfillment queued, a synchronous one in which the worker serves both, and a
    break. *)
Definition wout_world {A} (w0 : world (SA := mem_store)) (r : wout (SA := mem_store) A) : world (SA := mem_store) :=
  match r with WRet _ w => w | _ => w0 end.
Definition queued_world : world (SA := mem_store) :=
  wout_world calc_world (geas_pledge_fulfill 5 2 (Some "add"%string) 12 2 (RArr []) calc_world).
Definition served_world : world (SA := mem_store) :=
  wout_world queued_world (fulfill_sync_queued 5 calc_code no_callback 1 3 2 (Some "add"%string) 12 2 (RArr []) queued_world).
Definition ended_world : world (SA := mem_store) := wout_world served_world (geas_contract_break 2 served_world).

Lemma task_runs_in_pool_witness :
  (∃ ρ s, at_rest (SA := mem_store) ρ ended_world s) ∧
  ∃ x, futs ended_world !! 1 = Some x ∧ fu_status x = GEAS_ERR_STATE ∧ fu_refcnt x = 1.
Proof.
  destruct (task_runs_in_pool (SA := mem_store) 5 calc_code no_callback calc_world ended_world eq_refl eq_refl eq_refl) as [H1 H2].
  - eapply rtc_l.
    + apply (ts_fulfill 5 calc_code no_callback calc_world queued_world 2 (Some "add"%string) 12 2 (RArr []) 1). vm_compute. reflexivity.
    + eapply rtc_l.
      * apply (ts_sync 5 calc_code no_callback queued_world served_world 1 3 2 (Some "add"%string) 12 2 (RArr []) (GEAS_OK, nine)).
        vm_compute. reflexivity.
      * eapply rtc_l; [|apply rtc_refl].
        apply (ts_break 5 calc_code no_callback served_world ended_world 2 GEAS_OK). vm_compute. reflexivity.
  - split; [exact H1|]. eassert (E : futs ended_world !! 1 = Some _) by (vm_compute; reflexivity).
    eexists. split; [exact E|]. split; [reflexivity|]. exact (proj1 (H2 1 _ E)).
Defined.
