(* ===== verification/StoreSql.v ===== *)
(** * SQL text for the store surface

    [runtime.c]: [store_col_types], [store_cols_span], the thirteen
    [store_sql_*] builders and the text [geas_store_delete] prints.  Each builder
    sizes a buffer, asks [malloc] for it and fills it with [snprintf] calls at a
    running offset; the buffer's bound is part of the model, so a builder that
    sized it short would truncate or run past it here too. *)
From S2P Require Import Prelude Abi Memory Iname Store Lifecycle.

(** ** Comparisons and terms *)

Definition GEAS_CMP_GE : Z := 5.
(** The [ops] table of the builders. *)
Definition ops : list string := ["="; "<>"; "<"; "<="; ">"; ">="].

(** [t_value] is [None] for a NULL pointer. *)
Record GeasStoreTerm := StoreTerm { t_col : Z; t_cmp : Z; t_value : option GeasValue }.

Definition GEAS_STORE_NO_ORDER : Z := U32_MAX.

Definition strlen (s : string) : Z := Z.of_nat (String.length s).
Definition ncols (s : GeasSchemaDesc) : Z := Z.of_nat (length (s_cols s)).

(** [s->cols[i].name], [s->cols[i].ty] and [ops[cmp]]; reading past a table is
    undefined. *)
Definition col_at (s : GeasSchemaDesc) (i : Z) : M GeasSchemaCol :=
  match s_cols s !! Z.to_nat i with Some c => ret c | None => undef end.
Definition op_at (cmp : Z) : M string :=
  match ops !! Z.to_nat cmp with Some o => ret o | None => undef end.

(** ** The bounded printer

    The buffer of [need] bytes with [n] characters claimed and the text in it. *)
Record sqlbuf := SqlBuf { b_need : Z; b_n : Z; b_text : string }.

(** [n += snprintf(q + n, need - n, ...)] printing [x]: what fits before the NUL
    is written, and [n] grows by all of it.  An offset past the buffer makes the
    size wrap, and a text past [INT_MAX] has no length to answer. *)
Definition emit (x : string) (b : sqlbuf) : M sqlbuf :=
  if (b_need b <? b_n b) || (INT_MAX <? strlen x) then undef else
  ret (SqlBuf (b_need b) (b_n b + strlen x)
         (b_text b +:+ String.substring 0 (Z.to_nat (b_need b - b_n b - 1)) x)).

(** [malloc(need)], then the fill; [None] is NULL. *)
Definition sized (need : Z) (fill : sqlbuf → M sqlbuf) : M (option string) :=
  ok <- sys_alloc (u64 need);
  if negb ok then ret None else
  b <- fill (SqlBuf (u64 need) 0 EmptyString);
  ret (Some (b_text b)).

(** ** Shared loops *)

Definition store_col_types (s : GeasSchemaDesc) : M (option (list Z)) :=
  ok <- sys_alloc (u64 (ncols s * 4));
  ret (if ok then Some (map sc_ty (s_cols s)) else None).

Definition store_cols_span (s : GeasSchemaDesc) : Z :=
  foldr (λ c n, strlen (sc_name c) + 4 + n) 0 (s_cols s).

(** The separated column names, each with its suffix. *)
Fixpoint emit_cols (suffix : string) (cs : list GeasSchemaCol) (first : bool) (b : sqlbuf)
    : M sqlbuf :=
  match cs with
  | [] => ret b
  | c :: cs' =>
      b <- emit ((if first then "" else ", ") +:+ sc_name c +:+ suffix) b;
      emit_cols suffix cs' false b
  end.

(** The buffer's share of the terms. *)
Fixpoint terms_span (s : GeasSchemaDesc) (ts : list GeasStoreTerm) : M Z :=
  match ts with
  | [] => ret 0
  | t :: ts' =>
      c <- col_at s (t_col t);
      o <- op_at (t_cmp t);
      n <- terms_span s ts';
      ret (strlen (sc_name c) + strlen o + 24 + n)
  end.

(** The conjunction; [i] counts the terms of the whole statement. *)
Fixpoint emit_terms (s : GeasSchemaDesc) (ts : list GeasStoreTerm) (first : bool) (i : Z)
    (b : sqlbuf) : M sqlbuf :=
  match ts with
  | [] => ret b
  | t :: ts' =>
      c <- col_at s (t_col t);
      o <- op_at (t_cmp t);
      b <- emit ((if first then "" else " AND ") +:+ sc_name c +:+ " " +:+ o +:+ " ?" +:+ dec_str (i + 1)) b;
      emit_terms s ts' false (i + 1) b
  end.

Definition select_head (s : GeasSchemaDesc) (b : sqlbuf) : M sqlbuf :=
  b <- emit "SELECT " b; emit_cols "" (s_cols s) true b.

(** ** The builders *)

Definition store_sql_select (s : GeasSchemaDesc) : M (option string) :=
  k <- col_at s 0;
  sized (48 + strlen (s_table s) + strlen (sc_name k) + store_cols_span s) (λ b,
    b <- select_head s b;
    emit (" FROM " +:+ s_table s +:+ " WHERE " +:+ sc_name k +:+ "=?") b).

Definition store_sql_select_eq (s : GeasSchemaDesc) (col : Z) : M (option string) :=
  k <- col_at s col;
  sized (48 + strlen (s_table s) + strlen (sc_name k) + store_cols_span s) (λ b,
    b <- select_head s b;
    emit (" FROM " +:+ s_table s +:+ " WHERE " +:+ sc_name k +:+ "=?1") b).

Definition store_sql_select_where (s : GeasSchemaDesc) (ts : list GeasStoreTerm) : M (option string) :=
  span <- terms_span s ts;
  sized (48 + strlen (s_table s) + store_cols_span s + span) (λ b,
    b <- select_head s b;
    b <- emit (" FROM " +:+ s_table s +:+ " WHERE ") b;
    emit_terms s ts true 0 b).

Definition store_sql_count_where (s : GeasSchemaDesc) (ts : list GeasStoreTerm) : M (option string) :=
  span <- terms_span s ts;
  sized (48 + strlen (s_table s) + span) (λ b,
    b <- emit ("SELECT COUNT(*) FROM " +:+ s_table s +:+ " WHERE ") b;
    emit_terms s ts true 0 b).

(** The literal an empty sum reads. *)
Definition zero_text (ty : Z) : string := if ty =? tag_num GEAS_TY_FLOAT then "0.0" else "0".

Definition store_sql_sum_where (s : GeasSchemaDesc) (sum_col : Z) (ts : list GeasStoreTerm)
    : M (option string) :=
  k <- col_at s sum_col;
  let zero := zero_text (sc_ty k) in
  span <- terms_span s ts;
  sized (72 + strlen (s_table s) + strlen (sc_name k) + strlen zero + span) (λ b,
    b <- emit ("SELECT COALESCE(SUM(" +:+ sc_name k +:+ "), " +:+ zero +:+ ") FROM " +:+
               s_table s +:+ " WHERE ") b;
    emit_terms s ts true 0 b).

Definition dir_text (order_desc : Z) : string := if order_desc =? 0 then "ASC" else "DESC".

Definition store_sql_select_ordered (s : GeasSchemaDesc) (ts : list GeasStoreTerm)
    (order_col order_desc : Z) : M (option string) :=
  k <- col_at s order_col;
  let dir := dir_text order_desc in
  span <- terms_span s ts;
  sized (64 + strlen (s_table s) + store_cols_span s + strlen (sc_name k) + strlen dir + span) (λ b,
    b <- select_head s b;
    b <- emit (" FROM " +:+ s_table s +:+ " WHERE ") b;
    b <- emit_terms s ts true 0 b;
    emit (" ORDER BY " +:+ sc_name k +:+ " " +:+ dir) b).

Definition store_sql_select_page (s : GeasSchemaDesc) (ts : list GeasStoreTerm)
    (order_col order_desc : Z) : M (option string) :=
  k <- col_at s order_col;
  let dir := dir_text order_desc in
  span <- terms_span s ts;
  sized (80 + strlen (s_table s) + store_cols_span s + strlen (sc_name k) + strlen dir + span) (λ b,
    b <- select_head s b;
    b <- emit (" FROM " +:+ s_table s +:+ " WHERE ") b;
    b <- emit_terms s ts true 0 b;
    emit (" ORDER BY " +:+ sc_name k +:+ " " +:+ dir +:+ " LIMIT ?" +:+
          dec_str (Z.of_nat (length ts) + 1)) b).

(** ** Disjunctions of groups

    [lens] cuts the flat term array; every group takes its next terms. *)

Definition store_sql_any_where_span (s : GeasSchemaDesc) (ts : list GeasStoreTerm) (lens : list Z)
    : M Z :=
  span <- terms_span s ts;
  ret (Z.of_nat (length lens) * 8 + span).

Fixpoint emit_groups (s : GeasSchemaDesc) (ts : list GeasStoreTerm) (lens : list Z) (first : bool)
    (i : Z) (b : sqlbuf) : M sqlbuf :=
  match lens with
  | [] => ret b
  | n :: lens' =>
      b <- emit ((if first then "" else " OR ") +:+ "(") b;
      b <- (if (length ts <? Z.to_nat n)%nat then undef
            else emit_terms s (take (Z.to_nat n) ts) true i b);
      b <- emit ")" b;
      emit_groups s (drop (Z.to_nat n) ts) lens' false (i + n) b
  end.

Definition store_sql_emit_any_where (s : GeasSchemaDesc) (ts : list GeasStoreTerm) (lens : list Z)
    (b : sqlbuf) : M sqlbuf := emit_groups s ts lens true 0 b.

Definition store_sql_select_any (s : GeasSchemaDesc) (ts : list GeasStoreTerm) (lens : list Z)
    (order_col order_desc : Z) (bounded : bool) : M (option string) :=
  let ordered := negb (order_col =? GEAS_STORE_NO_ORDER) in
  let dir := dir_text order_desc in
  span <- store_sql_any_where_span s ts lens;
  key <- (if ordered then k <- col_at s order_col; ret (sc_name k) else ret EmptyString);
  sized (80 + strlen (s_table s) + store_cols_span s + span +
         (if ordered then strlen key + strlen dir + 16 else 0) + (if bounded then 24 else 0)) (λ b,
    b <- select_head s b;
    b <- emit (" FROM " +:+ s_table s +:+ " WHERE ") b;
    b <- store_sql_emit_any_where s ts lens b;
    b <- (if ordered then emit (" ORDER BY " +:+ key +:+ " " +:+ dir) b else ret b);
    if bounded then emit (" LIMIT ?" +:+ dec_str (Z.of_nat (length ts) + 1)) b else ret b).

Definition store_sql_count_any (s : GeasSchemaDesc) (ts : list GeasStoreTerm) (lens : list Z)
    : M (option string) :=
  span <- store_sql_any_where_span s ts lens;
  sized (48 + strlen (s_table s) + span) (λ b,
    b <- emit ("SELECT COUNT(*) FROM " +:+ s_table s +:+ " WHERE ") b;
    store_sql_emit_any_where s ts lens b).

Definition store_sql_sum_any (s : GeasSchemaDesc) (sum_col : Z) (ts : list GeasStoreTerm)
    (lens : list Z) : M (option string) :=
  k <- col_at s sum_col;
  let zero := zero_text (sc_ty k) in
  span <- store_sql_any_where_span s ts lens;
  sized (72 + strlen (s_table s) + strlen (sc_name k) + strlen zero + span) (λ b,
    b <- emit ("SELECT COALESCE(SUM(" +:+ sc_name k +:+ "), " +:+ zero +:+ ") FROM " +:+
               s_table s +:+ " WHERE ") b;
    store_sql_emit_any_where s ts lens b).

Definition store_sql_extreme_any (s : GeasSchemaDesc) (agg_col : Z) (desc : bool)
    (ts : list GeasStoreTerm) (lens : list Z) : M (option string) :=
  k <- col_at s agg_col;
  let dir := if desc then "DESC" else "ASC" in
  span <- store_sql_any_where_span s ts lens;
  sized (80 + strlen (s_table s) + strlen (sc_name k) * 2 + strlen dir + span) (λ b,
    b <- emit ("SELECT " +:+ sc_name k +:+ " FROM " +:+ s_table s +:+ " WHERE ") b;
    b <- store_sql_emit_any_where s ts lens b;
    emit (" ORDER BY " +:+ sc_name k +:+ " " +:+ dir +:+ " LIMIT 1") b).

Definition store_sql_avg_any (s : GeasSchemaDesc) (agg_col : Z) (ts : list GeasStoreTerm)
    (lens : list Z) : M (option string) :=
  k <- col_at s agg_col;
  let zero := zero_text (sc_ty k) in
  span <- store_sql_any_where_span s ts lens;
  sized (96 + strlen (s_table s) + strlen (sc_name k) + strlen zero + span) (λ b,
    b <- emit ("SELECT COUNT(*), COALESCE(SUM(" +:+ sc_name k +:+ "), " +:+ zero +:+ ") FROM " +:+
               s_table s +:+ " WHERE ") b;
    store_sql_emit_any_where s ts lens b).

(** ** Writes *)

(** The placeholders, one per column. *)
Fixpoint emit_marks (cs : list GeasSchemaCol) (first : bool) (b : sqlbuf) : M sqlbuf :=
  match cs with
  | [] => ret b
  | _ :: cs' => b <- emit ((if first then "" else ", ") +:+ "?") b; emit_marks cs' false b
  end.

Definition store_sql_insert (s : GeasSchemaDesc) : M (option string) :=
  sized (48 + strlen (s_table s) + store_cols_span s + ncols s * 3) (λ b,
    b <- emit ("INSERT INTO " +:+ s_table s +:+ "(") b;
    b <- emit_cols "" (s_cols s) true b;
    b <- emit ") VALUES(" b;
    b <- emit_marks (s_cols s) true b;
    emit ")" b).

Definition store_sql_update (s : GeasSchemaDesc) : M (option string) :=
  k <- col_at s 0;
  sized (48 + strlen (s_table s) + strlen (sc_name k) + store_cols_span s * 2) (λ b,
    b <- emit ("UPDATE " +:+ s_table s +:+ " SET ") b;
    b <- emit_cols "=?" (s_cols s) true b;
    emit (" WHERE " +:+ sc_name k +:+ "=?") b).

(** The statement [geas_store_delete] prints in place. *)
Definition sql_delete (s : GeasSchemaDesc) : M (option string) :=
  k <- col_at s 0;
  sized (48 + strlen (s_table s) + strlen (sc_name k)) (λ b,
    emit ("DELETE FROM " +:+ s_table s +:+ " WHERE " +:+ sc_name k +:+ "=?") b).
