(* ===== verification/StoreSqlSpec.v ===== *)
(** * The SQL texts: the grammar

    One constructor per statement the surface runs, the text each is meant to
    print, the values it binds, and what the surface has checked by then. *)
From S2P Require Import Prelude Abi Memory Iname Store Lifecycle StoreSql.

(** ** The statements and their texts *)

Inductive sql_stmt :=
| SSelect | SSelectEq (col : Z)
| SWhere (ts : list GeasStoreTerm)
| SCount (ts : list GeasStoreTerm)
| SSum (col : Z) (ts : list GeasStoreTerm)
| SOrdered (ts : list GeasStoreTerm) (col desc : Z)
| SPage (ts : list GeasStoreTerm) (col desc : Z)
| SAny (ts : list GeasStoreTerm) (lens : list Z) (col desc : Z) (bounded : bool)
| SCountAny (ts : list GeasStoreTerm) (lens : list Z)
| SSumAny (col : Z) (ts : list GeasStoreTerm) (lens : list Z)
| SExtreme (col : Z) (desc : bool) (ts : list GeasStoreTerm) (lens : list Z)
| SAvg (col : Z) (ts : list GeasStoreTerm) (lens : list Z)
| SInsert | SUpdate | SDelete.

(** The runtime's builder for each. *)
Definition build (q : sql_stmt) (s : GeasSchemaDesc) : M (option string) :=
  match q with
  | SSelect => store_sql_select s
  | SSelectEq col => store_sql_select_eq s col
  | SWhere ts => store_sql_select_where s ts
  | SCount ts => store_sql_count_where s ts
  | SSum col ts => store_sql_sum_where s col ts
  | SOrdered ts col desc => store_sql_select_ordered s ts col desc
  | SPage ts col desc => store_sql_select_page s ts col desc
  | SAny ts lens col desc bd => store_sql_select_any s ts lens col desc bd
  | SCountAny ts lens => store_sql_count_any s ts lens
  | SSumAny col ts lens => store_sql_sum_any s col ts lens
  | SExtreme col desc ts lens => store_sql_extreme_any s col desc ts lens
  | SAvg col ts lens => store_sql_avg_any s col ts lens
  | SInsert => store_sql_insert s
  | SUpdate => store_sql_update s
  | SDelete => sql_delete s
  end.

Definition cname (s : GeasSchemaDesc) (i : Z) : string := default "" (sc_name <$> s_cols s !! Z.to_nat i).
Definition cty (s : GeasSchemaDesc) (i : Z) : Z := default 0 (sc_ty <$> s_cols s !! Z.to_nat i).
Definition opname (k : Z) : string := default "" (ops !! Z.to_nat k).

Definition names (s : GeasSchemaDesc) : list string := map sc_name (s_cols s).
Definition columns (s : GeasSchemaDesc) : string := String.concat ", " (names s).

(** Term [i] of the statement: its column, its comparison, its placeholder. *)
Definition term_text (s : GeasSchemaDesc) (i : Z) (t : GeasStoreTerm) : string :=
  cname s (t_col t) +:+ " " +:+ opname (t_cmp t) +:+ " ?" +:+ dec_str (i + 1).
Definition conj_text (s : GeasSchemaDesc) (i : Z) (ts : list GeasStoreTerm) : string :=
  String.concat " AND " (imap (λ j t, term_text s (i + Z.of_nat j) t) ts).

(** The term array cut into its groups, each with the number of its first term. *)
Fixpoint groups (i : Z) (ts : list GeasStoreTerm) (lens : list Z) : list (Z * list GeasStoreTerm) :=
  match lens with
  | [] => []
  | n :: lens' => (i, take (Z.to_nat n) ts) :: groups (i + n) (drop (Z.to_nat n) ts) lens'
  end.
Definition disj_text (s : GeasSchemaDesc) (ts : list GeasStoreTerm) (lens : list Z) : string :=
  String.concat " OR " (map (λ '(i, g), "(" +:+ conj_text s i g +:+ ")") (groups 0 ts lens)).

Definition order_text (s : GeasSchemaDesc) (col desc : Z) : string :=
  " ORDER BY " +:+ cname s col +:+ " " +:+ dir_text desc.
Definition limit_text (ts : list GeasStoreTerm) : string :=
  " LIMIT ?" +:+ dec_str (Z.of_nat (length ts) + 1).
Definition sum_text (s : GeasSchemaDesc) (col : Z) : string :=
  "COALESCE(SUM(" +:+ cname s col +:+ "), " +:+ zero_text (cty s col) +:+ ")".

Definition sql_text (q : sql_stmt) (s : GeasSchemaDesc) : string :=
  let from := " FROM " +:+ s_table s +:+ " WHERE " in
  let all := "SELECT " +:+ columns s +:+ from in
  match q with
  | SSelect => all +:+ cname s 0 +:+ "=?"
  | SSelectEq col => all +:+ cname s col +:+ "=?1"
  | SWhere ts => all +:+ conj_text s 0 ts
  | SCount ts => "SELECT COUNT(*)" +:+ from +:+ conj_text s 0 ts
  | SSum col ts => "SELECT " +:+ sum_text s col +:+ from +:+ conj_text s 0 ts
  | SOrdered ts col desc => all +:+ conj_text s 0 ts +:+ order_text s col desc
  | SPage ts col desc => all +:+ conj_text s 0 ts +:+ order_text s col desc +:+ limit_text ts
  | SAny ts lens col desc bd =>
      all +:+ disj_text s ts lens +:+
      (if col =? GEAS_STORE_NO_ORDER then "" else order_text s col desc) +:+
      (if bd then limit_text ts else "")
  | SCountAny ts lens => "SELECT COUNT(*)" +:+ from +:+ disj_text s ts lens
  | SSumAny col ts lens => "SELECT " +:+ sum_text s col +:+ from +:+ disj_text s ts lens
  | SExtreme col desc ts lens =>
      "SELECT " +:+ cname s col +:+ from +:+ disj_text s ts lens +:+ " ORDER BY " +:+ cname s col +:+
      " " +:+ (if desc then "DESC" else "ASC") +:+ " LIMIT 1"
  | SAvg col ts lens =>
      "SELECT COUNT(*), " +:+ sum_text s col +:+ from +:+ disj_text s ts lens
  | SInsert =>
      "INSERT INTO " +:+ s_table s +:+ "(" +:+ columns s +:+ ") VALUES(" +:+
      String.concat ", " (map (λ _, "?") (s_cols s)) +:+ ")"
  | SUpdate =>
      "UPDATE " +:+ s_table s +:+ " SET " +:+ String.concat ", " (map (λ n, n +:+ "=?") (names s)) +:+
      " WHERE " +:+ cname s 0 +:+ "=?"
  | SDelete => "DELETE FROM " +:+ s_table s +:+ " WHERE " +:+ cname s 0 +:+ "=?"
  end.

(** How many values the surface binds to each. *)
Definition nparams (q : sql_stmt) (s : GeasSchemaDesc) : nat :=
  match q with
  | SSelect | SSelectEq _ | SDelete => 1
  | SWhere ts | SCount ts | SSum _ ts | SOrdered ts _ _ | SCountAny ts _ | SSumAny _ ts _
  | SExtreme _ _ ts _ | SAvg _ ts _ => length ts
  | SPage ts _ _ => S (length ts)
  | SAny ts _ _ _ bd => length ts + Nat.b2n bd
  | SInsert => length (s_cols s)
  | SUpdate => S (length (s_cols s))
  end.

(** ** What the surface has checked *)

Definition NAME_MAX : Z := 536870912.
Record schema_ok (s : GeasSchemaDesc) : Prop := SchemaOk {
  so_table : strlen (s_table s) <= NAME_MAX;
  so_names : Forall (λ c, strlen (sc_name c) <= NAME_MAX) (s_cols s);
  so_ncols : 0 < ncols s <= U32_MAX
}.
Definition term_ok (s : GeasSchemaDesc) (t : GeasStoreTerm) : Prop :=
  0 <= t_col t < ncols s ∧ 0 <= t_cmp t <= GEAS_CMP_GE.
Definition terms_ok (s : GeasSchemaDesc) (ts : list GeasStoreTerm) : Prop :=
  Forall (term_ok s) ts ∧ Z.of_nat (length ts) <= U32_MAX.
Definition lens_ok (ts : list GeasStoreTerm) (lens : list Z) : Prop :=
  Forall (λ n, 0 < n) lens ∧ foldr Z.add 0 lens = Z.of_nat (length ts).

Definition stmt_ok (q : sql_stmt) (s : GeasSchemaDesc) : Prop :=
  match q with
  | SSelect | SInsert | SUpdate | SDelete => True
  | SSelectEq col => 0 <= col < ncols s
  | SWhere ts | SCount ts => terms_ok s ts
  | SSum col ts | SOrdered ts col _ => terms_ok s ts ∧ 0 <= col < ncols s
  | SPage ts col _ => terms_ok s ts ∧ 0 <= col < ncols s ∧ Z.of_nat (length ts) < U32_MAX
  | SAny ts lens col _ bd =>
      terms_ok s ts ∧ lens_ok ts lens ∧ (col = GEAS_STORE_NO_ORDER ∨ 0 <= col < ncols s) ∧
      (bd = true → Z.of_nat (length ts) < U32_MAX)
  | SCountAny ts lens => terms_ok s ts ∧ lens_ok ts lens
  | SSumAny col ts lens | SExtreme col _ ts lens | SAvg col ts lens =>
      terms_ok s ts ∧ lens_ok ts lens ∧ 0 <= col < ncols s
  end.
