(* ===== verification/StoreSqlProps.v ===== *)
(** * The SQL texts: every builder against one grammar *)
From S2P Require Import Prelude Abi Memory Iname Store Lifecycle StoreSql StoreSqlSpec.

(** ** Strings *)

Lemma sapp_cons x a b : String x a +:+ b = String x (a +:+ b).
Proof. done. Qed.
Lemma sapp_nil a : "" +:+ a = a.
Proof. done. Qed.
Lemma strlen_app a b : strlen (a +:+ b) = strlen a + strlen b.
Proof.
  unfold strlen. induction a as [|x a IH]; [done|]. rewrite sapp_cons. cbn [String.length]. lia.
Qed.
Lemma strlen_nonneg s : 0 <= strlen s.
Proof. unfold strlen. lia. Qed.
Lemma sapp_assoc a b c : (a +:+ b) +:+ c = a +:+ b +:+ c.
Proof. induction a as [|x a IH]; [done|]. by rewrite !sapp_cons, IH. Qed.
Lemma sapp_nil_r a : a +:+ "" = a.
Proof. induction a as [|x a IH]; [done|]. by rewrite !sapp_cons, IH. Qed.
Lemma substring_all x : ∀ n, (String.length x ≤ n)%nat → String.substring 0 n x = x.
Proof.
  induction x as [|a x IH]; intros [|n] H; simpl in *; try done; [lia|]. by rewrite IH by lia.
Qed.

(** [String.concat] one piece at a time, as the loops print it. *)
Fixpoint join (sep : string) (first : bool) (l : list string) : string :=
  match l with
  | [] => ""
  | x :: l' => (if first then "" else sep) +:+ x +:+ join sep false l'
  end.
Lemma join_false sep l : join sep false l = match l with [] => "" | _ => sep +:+ String.concat sep l end.
Proof.
  induction l as [|x l IH]; [done|]. cbn [join String.concat]. rewrite IH. destruct l; [|done].
  by rewrite sapp_nil_r.
Qed.
Lemma join_concat sep l : join sep true l = String.concat sep l.
Proof.
  destruct l as [|x l]; [done|]. cbn [join String.concat]. rewrite join_false. destruct l; [|done].
  apply sapp_nil_r.
Qed.

Lemma dec_digits_len fuel v acc :
  (String.length (dec_digits fuel v acc) ≤ fuel + String.length acc)%nat.
Proof.
  revert v acc. induction fuel as [|n IH]; intros v acc; simpl; [lia|]. destruct (v <? 10); simpl; [lia|].
  etransitivity; [apply IH|]. simpl. lia.
Qed.
Lemma dec_str_len v : strlen (dec_str v) <= 10.
Proof. unfold strlen, dec_str. pose proof (dec_digits_len 10 (u32 v) ""). cbn in *. lia. Qed.

(** ** The buffer *)

(** The buffer after [t] was printed into it. *)
Definition full (need : Z) (t : string) : sqlbuf := SqlBuf need (strlen t) t.

Lemma emit_at need t x m :
  strlen t + strlen x < need → strlen x <= INT_MAX →
  emit x (full need t) m = Ret (full need (t +:+ x)) m.
Proof.
  intros Hn Hx. pose proof (strlen_nonneg x). unfold emit, full. cbn [b_need b_n b_text].
  rewrite (proj2 (Z.ltb_ge need (strlen t))), (proj2 (Z.ltb_ge INT_MAX (strlen x))) by lia. simpl.
  unfold ret. do 2 f_equal; [by rewrite strlen_app|]. f_equal. apply substring_all.
  unfold strlen in *. lia.
Qed.

Definition ticked_mem (m : mem) : mem := Mem (heap m) (owned m) (brk m) (S (ticks m)) (lib m).

Lemma sized_at need fill text m :
  0 <= need <= U64_MAX → (∀ m', fill (full need "") m' = Ret (full need text) m') →
  sized need fill m = Ret (if lib_malloc (lib m) (ticks m) need then Some text else None) (ticked_mem m).
Proof.
  intros Hn Hf. unfold sized, bind, sys_alloc. rewrite !u64_id by (z_norm; lia).
  destruct (lib_malloc _ _ _); simpl; [|done]. change (SqlBuf need 0 "") with (full need "").
  by rewrite Hf.
Qed.

Section Schema.
Context (s : GeasSchemaDesc) (Hs : schema_ok s).

Lemma col_at_eq i m : 0 <= i < ncols s →
  ∃ c, col_at s i m = Ret c m ∧ sc_name c = cname s i ∧ sc_ty c = cty s i ∧ strlen (cname s i) <= NAME_MAX.
Proof.
  unfold ncols. intros Hi. unfold col_at, cname, cty.
  destruct (s_cols s !! Z.to_nat i) as [c|] eqn:E.
  - exists c. split_and!; try done. simpl. pose proof (so_names s Hs) as F.
    rewrite Forall_lookup in F. by apply (F _ _ E).
  - apply lookup_ge_None in E. lia.
Qed.

Lemma op_at_eq k m : 0 <= k <= GEAS_CMP_GE → op_at k m = Ret (opname k) m ∧ 1 <= strlen (opname k) <= 2.
Proof.
  unfold GEAS_CMP_GE. intros Hk. assert (k = 0 ∨ k = 1 ∨ k = 2 ∨ k = 3 ∨ k = 4 ∨ k = 5) as Hc by lia.
  destruct_or! Hc; subst; (split; [done|by vm_compute]).
Qed.

Definition tspan (ts : list GeasStoreTerm) : Z :=
  foldr (λ t n, strlen (cname s (t_col t)) + strlen (opname (t_cmp t)) + 24 + n) 0 ts.

Lemma terms_span_eq ts m : Forall (term_ok s) ts → terms_span s ts m = Ret (tspan ts) m.
Proof.
  induction 1 as [|t ts [Hc Ho] _ IH]; [done|]. cbn [terms_span tspan foldr].
  destruct (col_at_eq (t_col t) m Hc) as (c & E & En & _ & _). rewrite (bind_Ret _ _ _ _ _ E).
  rewrite (bind_Ret _ _ _ _ _ (proj1 (op_at_eq _ m Ho))), (bind_Ret _ _ _ _ _ IH). by rewrite En.
Qed.

Lemma tspan_nonneg ts : 0 <= tspan ts.
Proof.
  induction ts as [|t ts IH]; cbn; [lia|].
  pose proof (strlen_nonneg (cname s (t_col t))). pose proof (strlen_nonneg (opname (t_cmp t))).
  unfold tspan in IH. lia.
Qed.

Lemma tspan_bound ts : Forall (term_ok s) ts → tspan ts <= Z.of_nat (length ts) * 600000000.
Proof.
  induction 1 as [|t ts [Hc Ho] _ IH]; [done|]. cbn [tspan foldr length].
  destruct (col_at_eq (t_col t) (Mem ∅ ∅ 0 0 (CLib (λ _ _, true) gzero 0)) Hc) as (_ & _ & _ & _ & Hn).
  pose proof (proj2 (op_at_eq _ (Mem ∅ ∅ 0 0 (CLib (λ _ _, true) gzero 0)) Ho)).
  fold (tspan ts). unfold NAME_MAX in *. lia.
Qed.

Lemma span_bound : 0 <= store_cols_span s <= ncols s * 600000000.
Proof.
  unfold store_cols_span, ncols. induction (so_names s Hs) as [|c cs Hc _ IH]; [done|]. cbn [foldr length].
  pose proof (strlen_nonneg (sc_name c)). unfold NAME_MAX in *. lia.
Qed.

(** ** The loops *)

Definition col_texts (suffix : string) (cs : list GeasSchemaCol) : list string :=
  map (λ c, sc_name c +:+ suffix) cs.

Lemma join_cons sep first x l :
  join sep first (x :: l) = (if first then "" else sep) +:+ x +:+ join sep false l.
Proof. done. Qed.

Lemma emit_cols_at need suffix cs : ∀ first t m,
  Forall (λ c, strlen (sc_name c) <= NAME_MAX) cs → strlen suffix <= 8 →
  strlen t + strlen (join ", " first (col_texts suffix cs)) < need →
  emit_cols suffix cs first (full need t) m = Ret (full need (t +:+ join ", " first (col_texts suffix cs))) m.
Proof.
  induction cs as [|c cs IH]; intros first t m Hc Hsuf Hn; [simpl; by rewrite sapp_nil_r|].
  apply Forall_cons in Hc as [Hc Hcs]. cbn [emit_cols col_texts map]. rewrite join_cons in *.
  cbn [col_texts map] in Hn. rewrite join_cons in Hn. fold (col_texts suffix cs) in *.
  rewrite !strlen_app in Hn. pose proof (strlen_nonneg (join ", " false (col_texts suffix cs))).
  assert (strlen (if first then "" else ", ") <= 2) by (destruct first; by vm_compute).
  assert (Hi : INT_MAX = 2147483647) by done. unfold NAME_MAX in *.
  erewrite bind_Ret; [|apply emit_at; rewrite !strlen_app; lia].
  rewrite IH; [|done..|rewrite !strlen_app; lia]. by rewrite !sapp_assoc.
Qed.

Definition term_texts (i : Z) (ts : list GeasStoreTerm) : list string :=
  imap (λ j t, term_text s (i + Z.of_nat j) t) ts.

Lemma term_texts_cons i t ts : term_texts i (t :: ts) = term_text s i t :: term_texts (i + 1) ts.
Proof.
  unfold term_texts. cbn [imap]. f_equal; [by rewrite Z.add_0_r|].
  apply imap_ext. intros j x _. unfold compose. f_equal. lia.
Qed.

Lemma term_text_len i t : term_ok s t →
  strlen (term_text s i t) <= strlen (cname s (t_col t)) + strlen (opname (t_cmp t)) + 13.
Proof.
  intros [Hc Ho]. unfold term_text. rewrite !strlen_app. pose proof (dec_str_len (i + 1)).
  change (strlen " ") with 1. change (strlen " ?") with 2. lia.
Qed.

Lemma emit_terms_at need ts : ∀ first i t m,
  Forall (term_ok s) ts → strlen t + strlen (join " AND " first (term_texts i ts)) < need →
  emit_terms s ts first i (full need t) m = Ret (full need (t +:+ join " AND " first (term_texts i ts))) m.
Proof.
  induction ts as [|x ts IH]; intros first i t m Hts Hn; [simpl; by rewrite sapp_nil_r|].
  apply Forall_cons in Hts as [Hx Hts]. pose proof Hx as [Hc Ho].
  rewrite term_texts_cons, join_cons in *. cbn [emit_terms].
  destruct (col_at_eq (t_col x) m Hc) as (c & E & En & _ & Hlen). rewrite (bind_Ret _ _ _ _ _ E).
  destruct (op_at_eq (t_cmp x) m Ho) as [Eo Holen]. rewrite (bind_Ret _ _ _ _ _ Eo), En.
  pose proof (strlen_nonneg (join " AND " false (term_texts (i + 1) ts))) as Hj.
  pose proof (term_text_len i x Hx) as Ht. unfold term_text in *.
  set (y := cname s (t_col x) +:+ " " +:+ opname (t_cmp x) +:+ " ?" +:+ dec_str (i + 1)) in *.
  rewrite !strlen_app in Hn.
  assert (strlen (if first then "" else " AND ") <= 5) by (destruct first; by vm_compute).
  assert (Hi : INT_MAX = 2147483647) by done. unfold NAME_MAX in *.
  erewrite bind_Ret; [|apply emit_at; rewrite strlen_app; lia].
  rewrite IH; [|done|rewrite !strlen_app; lia]. by rewrite !sapp_assoc.
Qed.

Lemma col_texts_len suffix cs first : strlen suffix <= 2 →
  strlen (join ", " first (col_texts suffix cs)) <= foldr (λ c n, strlen (sc_name c) + 4 + n) 0 cs.
Proof.
  intros Hx. revert first. induction cs as [|c cs IH]; intros first; [done|]. cbn [col_texts map foldr].
  rewrite join_cons, !strlen_app. specialize (IH false). fold (col_texts suffix cs).
  assert (strlen (if first then "" else ", ") <= 2) by (destruct first; by vm_compute). lia.
Qed.

Lemma term_texts_len ts : ∀ first i, Forall (term_ok s) ts →
  strlen (join " AND " first (term_texts i ts)) <= tspan ts.
Proof.
  induction ts as [|x ts IH]; intros first i Hts; [done|]. apply Forall_cons in Hts as [Hx Hts].
  rewrite term_texts_cons, join_cons, !strlen_app. cbn [tspan foldr]. fold (tspan ts).
  pose proof (term_text_len i x Hx). specialize (IH false (i + 1) Hts).
  assert (strlen (if first then "" else " AND ") <= 5) by (destruct first; by vm_compute). lia.
Qed.

Lemma tspan_app ts us : tspan (ts ++ us) = tspan ts + tspan us.
Proof. induction ts as [|t ts IH]; [done|]. cbn [tspan foldr app]. fold (tspan (ts ++ us)) (tspan ts). lia. Qed.

Definition group_texts (i : Z) (ts : list GeasStoreTerm) (lens : list Z) : list string :=
  map (λ '(j, g), "(" +:+ join " AND " true (term_texts j g) +:+ ")") (groups i ts lens).

Lemma group_texts_cons i ts n lens :
  group_texts i ts (n :: lens) =
  ("(" +:+ join " AND " true (term_texts i (take (Z.to_nat n) ts)) +:+ ")")
    :: group_texts (i + n) (drop (Z.to_nat n) ts) lens.
Proof. done. Qed.

Lemma cut_ok ts n lens : lens_ok ts (n :: lens) →
  (Z.to_nat n ≤ length ts)%nat ∧ lens_ok (drop (Z.to_nat n) ts) lens.
Proof.
  intros [Hp Hsum]. apply Forall_cons in Hp as [Hn Hp]. cbn [foldr] in Hsum.
  assert (0 <= foldr Z.add 0 lens) by (clear -Hp; induction Hp; simpl; lia).
  split; [lia|]. split; [done|]. rewrite length_drop. lia.
Qed.

Lemma group_texts_len lens : ∀ ts first i, Forall (term_ok s) ts → lens_ok ts lens →
  strlen (join " OR " first (group_texts i ts lens)) <= Z.of_nat (length lens) * 6 + tspan ts.
Proof.
  induction lens as [|n lens IH]; intros ts first i Hts Hl; [pose proof (tspan_nonneg ts); change (0 <= 0 + tspan ts); lia|].
  apply cut_ok in Hl as [Hn Hl]. rewrite group_texts_cons, join_cons, !strlen_app.
  specialize (IH (drop (Z.to_nat n) ts) false (i + n) (Forall_drop _ _ _ Hts) Hl).
  pose proof (term_texts_len (take (Z.to_nat n) ts) true i (Forall_take _ _ _ Hts)).
  pose proof (tspan_app (take (Z.to_nat n) ts) (drop (Z.to_nat n) ts)) as T. rewrite take_drop in T.
  change (strlen "(") with 1. change (strlen ")") with 1. cbn [length].
  assert (strlen (if first then "" else " OR ") <= 4) by (destruct first; by vm_compute). lia.
Qed.

Lemma emit_groups_at need lens : ∀ ts first i t m, Forall (term_ok s) ts → lens_ok ts lens →
  strlen t + strlen (join " OR " first (group_texts i ts lens)) < need →
  emit_groups s ts lens first i (full need t) m = Ret (full need (t +:+ join " OR " first (group_texts i ts lens))) m.
Proof.
  induction lens as [|n lens IH]; intros ts first i t m Hts Hl Hn; [simpl; by rewrite sapp_nil_r|].
  apply cut_ok in Hl as [Hle Hl]. rewrite group_texts_cons, join_cons in *. cbn [emit_groups].
  set (A := join " AND " true _) in *. set (B := join " OR " false _) in *.
  rewrite !strlen_app in Hn. change (strlen "(") with 1 in Hn. change (strlen ")") with 1 in Hn.
  pose proof (strlen_nonneg A). pose proof (strlen_nonneg B).
  assert (strlen (if first then "" else " OR ") <= 4) by (destruct first; by vm_compute).
  assert (Hi : INT_MAX = 2147483647) by done.
  erewrite bind_Ret; [|apply emit_at; rewrite strlen_app; change (strlen "(") with 1; lia].
  rewrite (proj2 (Nat.ltb_ge _ _)) by done.
  erewrite bind_Ret; [|apply emit_terms_at; [by apply Forall_take|]; fold A; rewrite !strlen_app;
    change (strlen "(") with 1; lia]. fold A.
  erewrite bind_Ret; [|apply emit_at; [rewrite !strlen_app; change (strlen "(") with 1;
    change (strlen ")") with 1; lia|done]].
  rewrite IH; [|by apply Forall_drop|done|fold B; rewrite !strlen_app; change (strlen "(") with 1;
    change (strlen ")") with 1; lia].
  fold B. by rewrite !sapp_assoc.
Qed.

Definition mark_texts (cs : list GeasSchemaCol) : list string := map (λ _, "?") cs.
Lemma mark_texts_len cs first : strlen (join ", " first (mark_texts cs)) <= Z.of_nat (length cs) * 3.
Proof.
  revert first. induction cs as [|c cs IH]; intros first; [done|]. cbn [mark_texts map length].
  rewrite join_cons, !strlen_app. specialize (IH false). fold (mark_texts cs).
  change (strlen "?") with 1.
  assert (strlen (if first then "" else ", ") <= 2) by (destruct first; by vm_compute). lia.
Qed.
Lemma emit_marks_at need cs : ∀ first t m,
  strlen t + strlen (join ", " first (mark_texts cs)) < need →
  emit_marks cs first (full need t) m = Ret (full need (t +:+ join ", " first (mark_texts cs))) m.
Proof.
  induction cs as [|c cs IH]; intros first t m Hn; [simpl; by rewrite sapp_nil_r|].
  cbn [emit_marks mark_texts map] in *. fold (mark_texts cs) in *. rewrite join_cons in *.
  rewrite !strlen_app in Hn. change (strlen "?") with 1 in Hn.
  pose proof (strlen_nonneg (join ", " false (mark_texts cs))).
  assert (strlen (if first then "" else ", ") <= 2) by (destruct first; by vm_compute).
  assert (Hi : INT_MAX = 2147483647) by done.
  erewrite bind_Ret; [|apply emit_at; rewrite strlen_app; change (strlen "?") with 1; lia].
  rewrite IH; [|rewrite !strlen_app; change (strlen "?") with 1; lia]. by rewrite !sapp_assoc.
Qed.

(** ** The reference texts as the loops print them *)

Lemma columns_join : columns s = join ", " true (col_texts "" (s_cols s)).
Proof.
  unfold columns, names, col_texts. rewrite join_concat. f_equal. apply map_ext. intros c.
  by rewrite sapp_nil_r.
Qed.
Lemma sets_join : String.concat ", " (map (λ n, n +:+ "=?") (names s)) = join ", " true (col_texts "=?" (s_cols s)).
Proof. unfold names, col_texts. rewrite join_concat, map_map. done. Qed.
Lemma conj_join i ts : conj_text s i ts = join " AND " true (term_texts i ts).
Proof. unfold conj_text. by rewrite join_concat. Qed.
Lemma disj_join ts lens : disj_text s ts lens = join " OR " true (group_texts 0 ts lens).
Proof.
  unfold disj_text, group_texts. rewrite join_concat. f_equal. apply map_ext. intros [i g].
  by rewrite conj_join.
Qed.

(** ** Whole clauses *)

Definition sets_text : string := String.concat ", " (map (λ n, n +:+ "=?") (names s)).
Definition marks_text : string := String.concat ", " (map (λ _, "?") (s_cols s)).

Lemma columns_len : strlen (columns s) <= store_cols_span s.
Proof. rewrite columns_join. apply col_texts_len. by vm_compute. Qed.
Lemma sets_len : strlen sets_text <= store_cols_span s.
Proof. unfold sets_text. rewrite sets_join. apply col_texts_len. by vm_compute. Qed.
Lemma marks_len : strlen marks_text <= ncols s * 3.
Proof. unfold marks_text. rewrite <- join_concat. apply mark_texts_len. Qed.
Lemma conj_len ts : Forall (term_ok s) ts → strlen (conj_text s 0 ts) <= tspan ts.
Proof. rewrite conj_join. apply term_texts_len. Qed.
Lemma disj_len ts lens : Forall (term_ok s) ts → lens_ok ts lens →
  strlen (disj_text s ts lens) <= Z.of_nat (length lens) * 6 + tspan ts.
Proof. rewrite disj_join. apply group_texts_len. Qed.
Lemma lens_len ts lens : lens_ok ts lens → Z.of_nat (length lens) <= Z.of_nat (length ts).
Proof. intros [Hp <-]. induction Hp as [|n lens Hn _ IH]; [done|]. cbn [foldr length]. lia. Qed.

Lemma head_at need m : strlen (columns s) + 7 < need →
  select_head s (full need "") m = Ret (full need ("SELECT " +:+ columns s)) m.
Proof.
  intros Hn. pose proof (strlen_nonneg (columns s)). unfold select_head.
  erewrite bind_Ret; [|apply emit_at; [change (strlen "" + strlen "SELECT ") with 7; lia|done]].
  rewrite columns_join in *. apply emit_cols_at; [apply Hs|done|]. 
  change (strlen "SELECT ") with 7. lia.
Qed.
Lemma cols_at need t m : strlen t + strlen (columns s) < need →
  emit_cols "" (s_cols s) true (full need t) m = Ret (full need (t +:+ columns s)) m.
Proof. rewrite columns_join. intros. by apply emit_cols_at; [apply Hs|..]. Qed.
Lemma sets_at need t m : strlen t + strlen sets_text < need →
  emit_cols "=?" (s_cols s) true (full need t) m = Ret (full need (t +:+ sets_text)) m.
Proof. unfold sets_text. rewrite sets_join. intros. by apply emit_cols_at; [apply Hs|..]. Qed.
Lemma marks_at need t m : strlen t + strlen marks_text < need →
  emit_marks (s_cols s) true (full need t) m = Ret (full need (t +:+ marks_text)) m.
Proof. unfold marks_text. rewrite <- join_concat. apply emit_marks_at. Qed.
Lemma conj_at need ts t m : Forall (term_ok s) ts → strlen t + strlen (conj_text s 0 ts) < need →
  emit_terms s ts true 0 (full need t) m = Ret (full need (t +:+ conj_text s 0 ts)) m.
Proof. rewrite conj_join. apply emit_terms_at. Qed.
Lemma disj_at need ts lens t m : Forall (term_ok s) ts → lens_ok ts lens →
  strlen t + strlen (disj_text s ts lens) < need →
  store_sql_emit_any_where s ts lens (full need t) m = Ret (full need (t +:+ disj_text s ts lens)) m.
Proof. rewrite disj_join. apply emit_groups_at. Qed.
Lemma any_span_eq ts lens m : Forall (term_ok s) ts →
  store_sql_any_where_span s ts lens m = Ret (Z.of_nat (length lens) * 8 + tspan ts) m.
Proof. intros Hts. unfold store_sql_any_where_span. by rewrite (bind_Ret _ _ _ _ _ (terms_span_eq ts m Hts)). Qed.
End Schema.

(** [strlen] of the literals, then arithmetic over the rest. *)
Ltac lits :=
  repeat match goal with
         | |- context [strlen (String ?a ?b)] =>
             let v := eval vm_compute in (strlen (String a b)) in change (strlen (String a b)) with v
         | |- context [strlen EmptyString] => change (strlen EmptyString) with 0
         end.
Ltac slen :=
  unfold INT_MAX; rewrite ?strlen_app; lits;
  repeat match goal with
         | |- context [strlen (dec_str ?v)] =>
             let d := fresh in pose proof (dec_str_len v) as d; generalize dependent (strlen (dec_str v)); intros
         | |- context [strlen ?x] =>
             let d := fresh in pose proof (strlen_nonneg x) as d; generalize dependent (strlen x); intros
         end;
  lia.

Lemma dir_len d : strlen (dir_text d) <= 4.
Proof. unfold dir_text. destruct (d =? 0); by vm_compute. Qed.
Lemma zero_len ty : strlen (zero_text ty) <= 3.
Proof. unfold zero_text. destruct (ty =? _); by vm_compute. Qed.
Lemma desc_len (d : bool) : strlen (if d then "DESC" else "ASC") <= 4.
Proof. destruct d; by vm_compute. Qed.

(** What a builder answers: the text, in a buffer that holds it. *)
Definition built (e : M (option string)) (text : string) : Prop :=
  ∀ m, ∃ need, strlen text < need <= U64_MAX ∧
    e m = Ret (if lib_malloc (lib m) (ticks m) need then Some text else None) (ticked_mem m).

Lemma built_sized need fill text :
  strlen text < need <= U64_MAX → (∀ m, fill (full need "") m = Ret (full need text) m) →
  built (sized need fill) text.
Proof.
  intros Hn Hf m. exists need. split; [done|]. apply sized_at; [|done].
  pose proof (strlen_nonneg text). lia.
Qed.
Lemma built_bind {A} (e : M A) (k : A → M (option string)) a text :
  (∀ m, e m = Ret a m) → built (k a) text → built (bind e k) text.
Proof. intros He Hk m. destruct (Hk m) as (need & Hn & E). exists need. by rewrite (bind_Ret _ _ _ _ _ (He m)). Qed.

Section Build.
Context (s : GeasSchemaDesc) (Hs : schema_ok s).

Lemma col_ex i : 0 <= i < ncols s →
  ∃ c, (∀ m, col_at s i m = Ret c m) ∧ sc_name c = cname s i ∧ sc_ty c = cty s i ∧ strlen (cname s i) <= NAME_MAX.
Proof.
  intros Hi. destruct (col_at_eq s Hs i (Mem ∅ ∅ 0 0 (CLib (λ _ _, true) gzero 0)) Hi) as (c & E & ? & ? & ?).
  exists c. split_and!; try done. intros m. unfold col_at in *. destruct (_ !! _); [|done].
  unfold ret in *. by injection E as ->.
Qed.

Lemma first_col : 0 <= 0 < ncols s.
Proof. pose proof (so_ncols s Hs). lia. Qed.
End Build.

(** What is known of the pieces' lengths. *)
Ltac facts s Hs :=
  pose proof (so_table s Hs); pose proof (so_ncols s Hs); pose proof (span_bound s Hs);
  pose proof (columns_len s);
  repeat match goal with
         | H : terms_ok s ?ts |- _ =>
             let H1 := fresh in let H2 := fresh in destruct H as [H1 H2];
             pose proof (tspan_nonneg s ts); pose proof (tspan_bound s Hs ts H1);
             pose proof (conj_len s ts H1)
         end;
  repeat match goal with
         | H1 : Forall (term_ok s) ?ts, H : lens_ok ?ts ?lens |- _ =>
             lazymatch goal with
             | _ : Z.of_nat (length lens) <= _ |- _ => fail
             | _ => pose proof (lens_len ts lens H); pose proof (disj_len s ts lens H1 H)
             end
         end;
  unfold NAME_MAX, INT_MAX in *.

(** One printed piece. *)
Ltac piece s Hs :=
  first [ apply (head_at s Hs); slen | apply (cols_at s Hs); slen | apply (sets_at s Hs); slen
        | apply (marks_at s); slen | apply (conj_at s Hs); [assumption|slen]
        | apply (disj_at s Hs); [assumption|assumption|slen]
        | apply emit_at; [slen|slen]
        | match goal with |- ret _ _ = _ => reflexivity end ].
(** The pieces of a statement in the order they are printed. *)
Ltac prints s Hs :=
  repeat (erewrite bind_Ret; [|solve [piece s Hs]]);
  etransitivity; [solve [piece s Hs]|]; by rewrite ?sapp_assoc, ?sapp_nil, ?sapp_nil_r.

(** The column a builder reads first, and the span of its terms. *)
Ltac key s Hs col :=
  let k := fresh "k" in let Ek := fresh in let En := fresh in let Et := fresh in
  
  destruct (col_ex s Hs col) as (k & Ek & En & Et & ?); [first [assumption|split; assumption]|];
  eapply built_bind; [exact Ek|]; cbv zeta; rewrite ?En, ?Et.
Ltac spans s Hs :=
  eapply built_bind; [intros ?; first [apply (terms_span_eq s Hs)|apply (any_span_eq s Hs)];
    match goal with H : terms_ok s _ |- _ => apply H end|].
Ltac conclude s Hs :=
  facts s Hs; cbv zeta; cbn [sql_text]; unfold order_text, sum_text, limit_text;
  try fold (marks_text s); try fold (sets_text s); apply built_sized; [slen|]; intros ?; prints s Hs.

Section Built.
Context (s : GeasSchemaDesc) (Hs : schema_ok s).

Lemma built_rows q : match q with SSelect | SSelectEq _ | SInsert | SUpdate | SDelete => True | _ => False end →
  stmt_ok q s → built (build q s) (sql_text q s).
Proof.
  pose proof (first_col s Hs) as H0. pose proof (sets_len s). pose proof (marks_len s).
  destruct q; intros Hq Hok; try done; simpl in Hok;
    unfold build, store_sql_select, store_sql_select_eq, store_sql_insert, store_sql_update, sql_delete.
  - key s Hs 0. conclude s Hs.
  - key s Hs col. conclude s Hs.
  - conclude s Hs.
  - key s Hs 0. conclude s Hs.
  - key s Hs 0. conclude s Hs.
Qed.

Lemma built_conj q : match q with SWhere _ | SCount _ | SSum _ _ | SOrdered _ _ _ | SPage _ _ _ => True | _ => False end →
  stmt_ok q s → built (build q s) (sql_text q s).
Proof.
  destruct q; intros Hq Hok; try done; simpl in Hok; destruct_and?;
    unfold build, store_sql_select_where, store_sql_count_where, store_sql_sum_where,
      store_sql_select_ordered, store_sql_select_page;
    pose proof dir_len as Hd; pose proof zero_len as Hz.
  - spans s Hs. conclude s Hs.
  - spans s Hs. conclude s Hs.
  - key s Hs col. spans s Hs. specialize (Hz (cty s col)). conclude s Hs.
  - key s Hs col. spans s Hs. specialize (Hd desc). conclude s Hs.
  - key s Hs col. spans s Hs. specialize (Hd desc). conclude s Hs.
Qed.

Lemma built_any q :
  match q with SAny _ _ _ _ _ | SCountAny _ _ | SSumAny _ _ _ | SExtreme _ _ _ _ | SAvg _ _ _ => True | _ => False end →
  stmt_ok q s → built (build q s) (sql_text q s).
Proof.
  destruct q; intros Hq Hok; try done; simpl in Hok; destruct_and?;
    unfold build, store_sql_select_any, store_sql_count_any, store_sql_sum_any, store_sql_extreme_any,
      store_sql_avg_any;
    pose proof dir_len as Hd; pose proof zero_len as Hz; pose proof desc_len as He.
  - specialize (Hd desc). spans s Hs. cbv zeta. cbn [sql_text]. destruct (Z.eqb_spec col GEAS_STORE_NO_ORDER) as [E|E]; cbn [negb].
    + eapply built_bind; [done|]. destruct bounded; conclude s Hs.
    + assert (Hc : 0 <= col < ncols s) by (destruct_or!; done).
      destruct (col_ex s Hs col Hc) as (k & Ek & En & Et & ?).
      eapply (built_bind _ _ (cname s col)).
      { intros m. rewrite (bind_Ret _ _ _ _ _ (Ek m)). by rewrite En. }
      destruct bounded; conclude s Hs.
  - spans s Hs. conclude s Hs.
  - key s Hs col. spans s Hs. specialize (Hz (cty s col)). conclude s Hs.
  - key s Hs col. spans s Hs. specialize (He desc). conclude s Hs.
  - key s Hs col. spans s Hs. specialize (Hz (cty s col)). conclude s Hs.
Qed.
End Built.

(** ** Placeholders *)

Definition qmark : Ascii.ascii := Ascii.ascii_of_nat 63.
Fixpoint count_q (x : string) : nat :=
  match x with
  | EmptyString => 0
  | String a x' => (if Ascii.eqb a qmark then 1 else 0) + count_q x'
  end.

Lemma count_q_app a b : count_q (a +:+ b) = (count_q a + count_q b)%nat.
Proof. induction a as [|x a IH]; [done|]. rewrite sapp_cons. cbn [count_q]. lia. Qed.

Lemma count_q_dec v : count_q (dec_str v) = 0%nat.
Proof.
  assert (D : ∀ d, 0 <= d < 10 → Ascii.eqb (hex_digit d) qmark = false).
  { intros d Hd. assert (d = 0 ∨ d = 1 ∨ d = 2 ∨ d = 3 ∨ d = 4 ∨ d = 5 ∨ d = 6 ∨ d = 7 ∨ d = 8 ∨ d = 9) as K by lia.
    destruct_or! K; by subst. }
  assert (K : ∀ n v acc, count_q acc = 0%nat → count_q (dec_digits n v acc) = 0%nat).
  { intros n. induction n as [|n IH]; intros u acc Ha; [done|]. cbn [dec_digits].
    assert (Hd : count_q (String (hex_digit (u mod 10)) acc) = 0%nat).
    { cbn [count_q]. rewrite D by (apply Z.mod_pos_bound; lia). done. }
    destruct (u <? 10); [done|]. by apply IH. }
  by apply K.
Qed.

Lemma count_q_join sep l first : count_q sep = 0%nat →
  count_q (join sep first l) = foldr (λ x n, count_q x + n)%nat 0%nat l.
Proof.
  intros Hs. revert first. induction l as [|x l IH]; intros first; [done|].
  rewrite join_cons, !count_q_app, IH. cbn [foldr]. destruct first; [done|]. lia.
Qed.

Section Placeholders.
Context (s : GeasSchemaDesc).
Hypothesis Ht : count_q (s_table s) = 0%nat.
Hypothesis Hc : Forall (λ c, count_q (sc_name c) = 0%nat) (s_cols s).

Lemma count_cname i : count_q (cname s i) = 0%nat.
Proof.
  unfold cname. destruct (s_cols s !! Z.to_nat i) as [c|] eqn:E; [|done]. simpl.
  rewrite Forall_lookup in Hc. by eapply Hc.
Qed.
Lemma count_opname k : count_q (opname k) = 0%nat.
Proof.
  unfold opname. destruct (ops !! Z.to_nat k) as [o|] eqn:E; [|done]. apply list_elem_of_lookup_2 in E.
  unfold ops in E. rewrite !elem_of_cons in E. destruct_or! E; subst; try done. by apply not_elem_of_nil in E.
Qed.
Lemma count_cols suffix cs : Forall (λ c, count_q (sc_name c) = 0%nat) cs →
  foldr (λ x n, count_q x + n)%nat 0%nat (col_texts suffix cs) = (length cs * count_q suffix)%nat.
Proof.
  induction 1 as [|c cs Hx _ IH]; [done|]. cbn [col_texts map foldr length]. fold (col_texts suffix cs).
  rewrite count_q_app, Hx, IH. lia.
Qed.
Lemma count_terms ts : ∀ i, foldr (λ x n, count_q x + n)%nat 0%nat (term_texts s i ts) = length ts.
Proof.
  induction ts as [|t ts IH]; intros i; [done|]. rewrite term_texts_cons. cbn [foldr length]. rewrite IH.
  unfold term_text. by rewrite !count_q_app, count_cname, count_opname, count_q_dec.
Qed.
Lemma count_conj i ts : count_q (conj_text s i ts) = length ts.
Proof. rewrite conj_join, count_q_join by done. apply count_terms. Qed.
Lemma count_groups lens : ∀ ts i, lens_ok ts lens →
  foldr (λ x n, count_q x + n)%nat 0%nat (group_texts s i ts lens) = length ts.
Proof.
  induction lens as [|n lens IH]; intros ts i Hl.
  - destruct Hl as [_ Hl]. simpl in Hl. destruct ts; [done|simpl in Hl; lia].
  - apply cut_ok in Hl as [Hn Hl]. rewrite group_texts_cons. cbn [foldr]. rewrite (IH _ _ Hl), length_drop.
    rewrite !count_q_app, count_q_join, count_terms, length_take by done.
    change (count_q "(") with 0%nat. change (count_q ")") with 0%nat. lia.
Qed.
Lemma count_disj ts lens : lens_ok ts lens → count_q (disj_text s ts lens) = length ts.
Proof. intros. rewrite disj_join, count_q_join by done. by apply count_groups. Qed.
Lemma count_columns : count_q (columns s) = 0%nat.
Proof. rewrite columns_join, count_q_join, count_cols by done. simpl. lia. Qed.
Lemma count_sets : count_q (sets_text s) = length (s_cols s).
Proof. unfold sets_text. rewrite sets_join, count_q_join, count_cols by done. change (count_q "=?") with 1%nat. lia. Qed.
Lemma count_marks : count_q (marks_text s) = length (s_cols s).
Proof.
  unfold marks_text. rewrite <- join_concat, count_q_join by done. clear Hc.
  induction (s_cols s) as [|c cs IH]; [done|]. cbn [map foldr length]. by rewrite IH.
Qed.
Lemma count_dir d : count_q (dir_text d) = 0%nat.
Proof. unfold dir_text. by destruct (d =? 0). Qed.
Lemma count_zero ty : count_q (zero_text ty) = 0%nat.
Proof. unfold zero_text. by destruct (ty =? _). Qed.

Lemma placeholders q : stmt_ok q s → count_q (sql_text q s) = nparams q s.
Proof.
  intros Hok. destruct q; simpl in Hok; destruct_and?; cbn [sql_text nparams];
    unfold order_text, limit_text, sum_text; try fold (marks_text s); try fold (sets_text s);
    try destruct (col =? GEAS_STORE_NO_ORDER); try destruct bounded; try destruct desc;
    rewrite ?count_q_app, ?count_columns, ?Ht, ?count_cname, ?count_conj, ?count_dir, ?count_zero,
      ?count_q_dec, ?count_sets, ?count_marks, ?count_disj by done;
    repeat match goal with
      | |- context [count_q ?x] => let v := eval vm_compute in (count_q x) in change (count_q x) with v
      end; simpl; lia.
Qed.
End Placeholders.

Lemma build_exact q s : schema_ok s → stmt_ok q s → built (build q s) (sql_text q s).
Proof.
  intros Hs Hq. pose proof (built_rows s Hs q) as B1. pose proof (built_conj s Hs q) as B2.
  pose proof (built_any s Hs q) as B3. destruct q; first [by apply B1|by apply B2|by apply B3].
Qed.

(** ** The theorem *)

(** C25: every SQL builder prints exactly its statement.  For any schema and any
    call the surface lets through, the buffer the builder asks for holds the
    whole text with its NUL, nothing is cut off and nothing is written past it;
    the text is the statement's one spelling, with the table, the columns, the
    comparisons and the numbered placeholders in the order the values are bound,
    and no value ever in it; a refused allocation is NULL.  And a schema without
    a question mark in its names gets exactly as many placeholders as the surface
    binds values. *)
Theorem sql_builders_exact q s :
  schema_ok s → stmt_ok q s →
  (∀ m, ∃ need, strlen (sql_text q s) < need <= U64_MAX ∧
     build q s m = Ret (if lib_malloc (lib m) (ticks m) need then Some (sql_text q s) else None)
                       (ticked_mem m)) ∧
  (count_q (s_table s) = 0%nat → Forall (λ c, count_q (sc_name c) = 0%nat) (s_cols s) →
   count_q (sql_text q s) = nparams q s).
Proof.
  intros Hs Hq. split; [by apply build_exact|intros; by apply placeholders].
Qed.

Definition users : GeasSchemaDesc :=
  SchemaDesc "users" [SchemaCol "id" 1; SchemaCol "name" 7; SchemaCol "score" 3].
Definition users_query : sql_stmt :=
  SAny [StoreTerm 0 4 None; StoreTerm 1 1 None; StoreTerm 2 0 None] [2; 1] 1 1 true.

Example users_text : sql_text users_query users =
  "SELECT id, name, score FROM users WHERE (id > ?1 AND name <> ?2) OR (score = ?3) ORDER BY name DESC LIMIT ?4".
Proof. reflexivity. Qed.

Lemma sql_builders_exact_witness :
  (∀ m, ∃ need, strlen (sql_text users_query users) < need <= U64_MAX ∧
     build users_query users m =
       Ret (if lib_malloc (lib m) (ticks m) need then Some (sql_text users_query users) else None)
           (ticked_mem m)) ∧
  (count_q (s_table users) = 0%nat → Forall (λ c, count_q (sc_name c) = 0%nat) (s_cols users) →
   count_q (sql_text users_query users) = nparams users_query users).
Proof.
  apply sql_builders_exact.
  - split; [by vm_compute|repeat constructor; by vm_compute|by vm_compute].
  - split_and!; [split; [repeat constructor; by vm_compute|by vm_compute]| |by right|by vm_compute].
    split; [repeat constructor|done].
Defined.
