(* ===== verification/Sqlite.v ===== *)
(** * The SQLite library, as [store.c] calls it

    [third_party/sqlite3.h] is not the program's code: the calls the driver makes
    are a class over a state that holds the library, its connections, prepared
    statements and database files.  Connections and statements are words, 0 for
    NULL; a result code is what the driver tests it for. *)
From S2P Require Import Prelude.

(** What [sqlite3_step] answered. *)
Inductive step_rc := SQLITE_ROW | SQLITE_DONE | SQLITE_FAILED.
#[export] Instance step_rc_eq_dec : EqDecision step_rc.
Proof. solve_decision. Defined.

(** What a [sqlite3_bind_*] call carries: a 64 bit integer, the bits of a double,
    a byte string. *)
Inductive sqval := SInt (i : Z) | SReal (bits : Z) | SBlob (bs : list Z).
#[export] Instance sqval_eq_dec : EqDecision sqval.
Proof. solve_decision. Defined.

Class Sqlite := {
  sq : Type;
  sqlite3_malloc : Z → sq → bool * sq;                        (* whether granted *)
  sqlite3_open_v2 : string → sq → (bool * Z) * sq;            (* SQLITE_OK, handle *)
  sqlite3_busy_timeout : Z → Z → sq → sq;                     (* milliseconds *)
  sqlite3_close : Z → sq → sq;
  sqlite3_exec : Z → string → sq → bool * sq;
  sqlite3_prepare_v2 : Z → string → sq → (bool * Z) * sq;     (* SQLITE_OK, statement *)
  sqlite3_finalize : Z → sq → sq;
  sqlite3_reset : Z → sq → bool * sq;
  sqlite3_bind_parameter_count : Z → sq → Z;
  sqlite3_bind : Z → Z → sqval → sq → bool * sq;              (* one based index *)
  sqlite3_step : Z → sq → step_rc * sq;
  sqlite3_column_count : Z → sq → Z;
  sqlite3_column_int64 : Z → Z → sq → Z;
  sqlite3_column_double : Z → Z → sq → Z;                     (* the double's bits *)
  sqlite3_column_blob : Z → Z → sq → list Z;                  (* with sqlite3_column_bytes *)
  sqlite3_column_text : Z → Z → sq → option string;           (* NULL is [None] *)
  sqlite3_changes64 : Z → sq → Z
}.
