(* ===== verification/Driver.v ===== *)
(** * The SQLite driver

    [store.c]: the scalar type map, binding and reading a row, the connection's
    life, schema reconciliation, exec, query and the transaction statements.  The
    connection calls are functions of the library's state alone; a [GeasStore]
    is its one field, the connection, so its word is the connection's.  The calls
    that bind a heap value or build rows run over the world. *)
From S2P Require Import Prelude Abi Memory Iname Store Lifecycle StoreSql Sqlite.

Module Driver.
Section Driver.
Context `{SQ : Sqlite}.

(** ** The scalar type map *)

Definition tag_scalar (ty : Z) : bool :=
  match tag_of ty with
  | Some GEAS_TY_INT | Some GEAS_TY_UINT | Some GEAS_TY_FLOAT | Some GEAS_TY_BOOL
  | Some GEAS_TY_BYTE | Some GEAS_TY_CHAR | Some GEAS_TY_STRING => true
  | _ => false
  end.

(** ** The connection *)

(** A run over the library's state; [None] is a touch of memory it may not touch. *)
Definition D (A : Type) : Type := sq → option (A * sq).
#[local] Instance D_ret : MRet D := λ A a s, Some (a, s).
#[local] Instance D_bind : MBind D := λ A B k e s,
  match e s with Some (a, s') => k a s' | None => None end.
Definition call {A} (f : sq → A * sq) : D A := λ s, Some (f s).
Definition look {A} (f : sq → A) : D A := λ s, Some (f s, s).
Definition lift {A} (e : option A) : D A := λ s, (λ a, (a, s)) <$> e.
Definition sqlite3_finalize_ (stmt : Z) : D unit := λ s, Some (tt, sqlite3_finalize stmt s).

Definition sizeof_GeasStore : Z := 8.

(** The status and the connection, 0 when [*out] stays NULL. *)
Definition geas_store_open (dsn : option string) : D (GeasStatus * Z) :=
  match dsn with
  | None => mret (GEAS_ERR_STORE, 0)
  | Some dsn =>
      ok ← call (sqlite3_malloc sizeof_GeasStore);
      if negb ok then mret (GEAS_ERR_OOM, 0) else
      '(rc, db) ← call (sqlite3_open_v2 dsn);
      if negb rc || (db =? 0) then call (λ s, (tt, sqlite3_close db s));; mret (GEAS_ERR_STORE, 0)
      else call (λ s, (tt, sqlite3_busy_timeout db 5000 s));; mret (GEAS_OK, db)
  end.

Definition geas_store_close (h : Z) : D unit :=
  if h =? 0 then mret tt else call (λ s, (tt, sqlite3_close h s)).

Definition geas_store_exec (h : Z) (sql : option string) : D GeasStatus :=
  match sql with
  | None => mret GEAS_ERR_STORE
  | Some sql =>
      if h =? 0 then mret GEAS_ERR_STORE else
      rc ← call (sqlite3_exec h sql); mret (if rc : bool then GEAS_OK else GEAS_ERR_STORE)
  end.

Definition geas_store_begin (h : Z) : D GeasStatus := geas_store_exec h (Some "BEGIN").
Definition geas_store_commit (h : Z) : D GeasStatus := geas_store_exec h (Some "COMMIT").
Definition geas_store_rollback (h : Z) : D GeasStatus := geas_store_exec h (Some "ROLLBACK").

(** ** A statement with its values

    [geas_store_exec_params] once the values are read from memory: what is left is
    the library's.  Fuel bounds the rows walked over. *)
Fixpoint bind_words (stmt idx : Z) (xs : list sqval) : D bool :=
  match xs with
  | [] => mret true
  | x :: xs' =>
      ok ← call (sqlite3_bind stmt idx x);
      if ok : bool then bind_words stmt (i32 (idx + 1)) xs' else mret false
  end.
Fixpoint step_out (fuel : nat) (stmt : Z) : D step_rc :=
  match fuel with
  | O => lift None
  | S fuel' => rc ← call (sqlite3_step stmt); match rc with SQLITE_ROW => step_out fuel' stmt | _ => mret rc end
  end.
Definition exec_words (fuel : nat) (h : Z) (sql : string) (xs : list sqval) : D GeasStatus :=
  if h =? 0 then mret GEAS_ERR_STORE else
  '(ok, stmt) ← call (sqlite3_prepare_v2 h sql);
  if negb ok || (stmt =? 0) then sqlite3_finalize_ stmt;; mret GEAS_ERR_STORE else
  n ← look (sqlite3_bind_parameter_count stmt);
  ok ← (if n =? i32 (Z.of_nat (length xs)) then bind_words stmt 1 xs else mret false);
  if negb ok then sqlite3_finalize_ stmt;; mret GEAS_ERR_STORE else
  rc ← step_out fuel stmt;
  sqlite3_finalize_ stmt;;
  mret (if bool_decide (rc = SQLITE_DONE) then GEAS_OK else GEAS_ERR_STORE).

(** ** Reconciling a schema *)

Definition store_sql_type (ty : Z) : option string :=
  match tag_of ty with
  | Some GEAS_TY_INT | Some GEAS_TY_UINT | Some GEAS_TY_BOOL | Some GEAS_TY_BYTE
  | Some GEAS_TY_CHAR => Some "INTEGER"
  | Some GEAS_TY_FLOAT => Some "REAL"
  | Some GEAS_TY_STRING => Some "TEXT"
  | _ => None
  end.

Definition between (lo hi : Z) (a : Ascii.ascii) : bool :=
  let n := Z.of_N (Ascii.N_of_ascii a) in (lo <=? n) && (n <=? hi).
Definition alpha (a : Ascii.ascii) : bool := between 97 122 a || between 65 90 a || between 95 95 a.
Definition digit (a : Ascii.ascii) : bool := between 48 57 a.
Fixpoint ident_tail (s : string) : bool :=
  match s with EmptyString => true | String a s' => (alpha a || digit a) && ident_tail s' end.
Definition store_ident_ok (s : string) : bool :=
  match s with EmptyString => false | String a s' => alpha a && ident_tail s' end.

Definition lower (a : Ascii.ascii) : Ascii.ascii :=
  if between 65 90 a then Ascii.ascii_of_N (Ascii.N_of_ascii a + 32) else a.
Fixpoint store_ieq (a b : string) : bool :=
  match a, b with
  | EmptyString, EmptyString => true
  | String x a', String y b' => Ascii.eqb (lower x) (lower y) && store_ieq a' b'
  | _, _ => false
  end.

(** The sizing pass: the refusal, or the bytes the columns add. *)
Fixpoint create_span (cs : list GeasSchemaCol) : GeasStatus + Z :=
  match cs with
  | [] => inr 0
  | c :: cs' =>
      match store_sql_type (sc_ty c) with
      | None => inl GEAS_ERR_TYPE
      | Some ct =>
          if negb (store_ident_ok (sc_name c)) then inl GEAS_ERR_STORE else
          match create_span cs' with
          | inl st => inl st
          | inr n => inr (strlen (sc_name c) + strlen ct + 24 + n)
          end
      end
  end.

(** [emit] over no heap. *)
Definition emit_at_db (x : string) (b : sqlbuf) : option sqlbuf :=
  if (b_need b <? b_n b) || (INT_MAX <? strlen x) then None else
  Some (SqlBuf (b_need b) (b_n b + strlen x)
          (b_text b +:+ String.substring 0 (Z.to_nat (b_need b - b_n b - 1)) x)).

Fixpoint emit_decls (cs : list GeasSchemaCol) (first : bool) (b : sqlbuf) : option sqlbuf :=
  match cs with
  | [] => Some b
  | c :: cs' =>
      ct ← store_sql_type (sc_ty c);
      b ← emit_at_db ((if first then "" else ", ") +:+ sc_name c +:+ " " +:+ ct +:+
                      (if first then " PRIMARY KEY" else "")) b;
      emit_decls cs' false b
  end.

Definition create_text (s : GeasSchemaDesc) (need : Z) : option string :=
  b ← emit_at_db ("CREATE TABLE " +:+ s_table s +:+ "(") (SqlBuf need 0 "");
  b ← emit_decls (s_cols s) true b;
  b ← emit_at_db ")" b;
  Some (b_text b).

(** [(int)need] is what the allocator is asked; the printer gets [need] itself, so
    a request that lost bits is undefined when it is granted. *)
Definition store_create_table (h : Z) (s : GeasSchemaDesc) : D GeasStatus :=
  match create_span (s_cols s) with
  | inl st => mret st
  | inr span =>
      let need := 64 + strlen (s_table s) + span in
      ok ← call (sqlite3_malloc (i32 need));
      if negb ok then mret GEAS_ERR_OOM else
      if negb (i32 need =? need) then lift None else
      sql ← lift (create_text s need);
      geas_store_exec h (Some sql)
  end.

(** What fits the 192 bytes of the driver's [pragma] buffer. *)
Definition pragma_text (table : string) : string :=
  String.substring 0 191 ("PRAGMA table_info(" +:+ table +:+ ")").

(** The walk over [table_info]; one row past the schema's columns ends it. *)
Fixpoint validate_rows (stmt : Z) (cs : list GeasSchemaCol) : D (GeasStatus * step_rc * bool) :=
  rc ← call (sqlite3_step stmt);
  match rc with
  | SQLITE_ROW =>
      nm ← look (sqlite3_column_text stmt 1);
      tp ← look (sqlite3_column_text stmt 2);
      match cs with
      | [] => mret (GEAS_ERR_TYPE, rc, false)
      | c :: cs' =>
          match nm, tp, store_sql_type (sc_ty c) with
          | Some nm, Some tp, Some want =>
              if str_eqb nm (sc_name c) && store_ieq tp want then validate_rows stmt cs'
              else mret (GEAS_ERR_TYPE, rc, false)
          | _, _, _ => mret (GEAS_ERR_TYPE, rc, false)
          end
      end
  | _ => mret (GEAS_OK, rc, match cs with [] => true | _ => false end)
  end.

Definition prepare_pragma (h : Z) (table : string) : D (option Z) :=
  '(ok, stmt) ← call (sqlite3_prepare_v2 h (pragma_text table));
  if negb ok then sqlite3_finalize_ stmt;; mret None else mret (Some stmt).

Definition store_validate_table (h : Z) (s : GeasSchemaDesc) : D GeasStatus :=
  stmt ← prepare_pragma h (s_table s);
  match stmt with
  | None => mret GEAS_ERR_STORE
  | Some stmt =>
      '(st, rc, all) ← validate_rows stmt (s_cols s);
      sqlite3_finalize_ stmt;;
      if negb (st_ok st) then mret st else
      if bool_decide (rc ≠ SQLITE_DONE) && bool_decide (rc ≠ SQLITE_ROW) then mret GEAS_ERR_STORE else
      mret (if all : bool then GEAS_OK else GEAS_ERR_TYPE)
  end.

Definition geas_store_reconcile (h : Z) (s : GeasSchemaDesc) : D GeasStatus :=
  if h =? 0 then mret GEAS_ERR_STORE else
  if ncols s =? 0 then mret GEAS_ERR_TYPE else
  if negb (store_ident_ok (s_table s)) then mret GEAS_ERR_STORE else
  stmt ← prepare_pragma h (s_table s);
  match stmt with
  | None => mret GEAS_ERR_STORE
  | Some stmt =>
      rc ← call (sqlite3_step stmt);
      sqlite3_finalize_ stmt;;
      if bool_decide (rc = SQLITE_ROW) then store_validate_table h s else store_create_table h s
  end.
End Driver.
End Driver.
