(* ===== verification/Rows.v ===== *)
(** * Statements with parameters and result rows

    [store.c]: [bind_one], [bind_params], [read_row], [geas_store_exec_params] and
    [geas_store_query], over the world whose store is the SQLite driver; and the
    allocators the runtime hands it, [runtime.c]'s [instance_store_bytes] and
    [StoreScratchAlloc]. *)
From S2P Require Import Prelude Abi Memory Value Iname Store Future Lifecycle StoreSql StoreSqlSpec Sqlite Driver.

(** A statement a body runs on its instance's table: the surface's text over the
    schema, the values bound, and a bound on the rows it walks. *)
Record dml := Dml { m_stmt : sql_stmt; m_schema : GeasSchemaDesc; m_vals : list sqval; m_rows : nat }.

(** The driver as the store of the contract lifecycle.  The calls are total unless
    a schema's text passes 2 GiB ([ReconcileProps], [SqliteTxn]); a body's statement
    is [geas_store_exec_params] over the statement's text. *)
Definition run_total `{SQ : Sqlite} {A} (dflt : A) (e : Driver.D A) (s : sq) : A * sq := default (dflt, s) (e s).

#[export] Instance sqlite_store `{SQ : Sqlite} : StoreApi := {|
  sstate := sq;
  store_op := dml;
  geas_store_open dsn := run_total (GEAS_ERR_STORE, 0) (Driver.geas_store_open (Some dsn));
  geas_store_close h s := (run_total tt (Driver.geas_store_close h) s).2;
  geas_store_reconcile h sc := run_total GEAS_ERR_STORE (Driver.geas_store_reconcile h sc);
  geas_store_begin h := run_total GEAS_ERR_STORE (Driver.geas_store_begin h);
  geas_store_commit h := run_total GEAS_ERR_STORE (Driver.geas_store_commit h);
  geas_store_rollback h := run_total GEAS_ERR_STORE (Driver.geas_store_rollback h);
  store_exec h q := run_total GEAS_ERR_STORE
    (Driver.exec_words (S (m_rows q)) h (sql_text (m_stmt q) (m_schema q)) (m_vals q))
|}.

Section Rows.
Context `{SQ : Sqlite}.

Definition get_sq : W sq := λ w, WRet (ws w : sq) w.
Definition in_sq {A} (f : sq → A * sq) : W A := in_store (f : sstate → A * sstate).
Definition on_sq (f : sq → sq) : W unit := in_sq (λ s, (tt, f s)).

(** ** Allocators

    [GeasStoreAlloc]: what its [bytes] hook answers for a block of a kind. *)
Definition GeasStoreAlloc : Type := block_kind → Z → M Z.

Definition instance_store_bytes (c : Z) : GeasStoreAlloc := λ k n, geas_bytes k c n.

Definition sizeof_StoreScratchBlock : Z := 32.

(** A block on the list of [s]; the list is kept where an instance's is. *)
Definition scratch_store_bytes (s : Z) : GeasStoreAlloc := λ k n m,
  if U64_MAX - sizeof_StoreScratchBlock <? n then Ret 0 m else
  let m1 := Mem (heap m) (owned m) (brk m) (S (ticks m)) (lib m) in
  if lib_malloc (lib m) (ticks m) (sizeof_StoreScratchBlock + n) then
    match owned m !! s with
    | None => Undef
    | Some bl =>
        Ret (brk m) (Mem (<[brk m := fresh_block (lib m) k n]> (heap m)) (<[s := brk m :: bl]> (owned m))
                         (brk m + 1) (S (ticks m)) (lib m))
    end
  else Ret 0 m1.

(** [StoreScratchAlloc scratch = { NULL }] and the walk that frees it. *)
Definition scratch_new : W Z := λ w,
  let m := wm w in
  let s := next_addr w in
  WRet s (set_wm (Mem (heap m) (<[s := []]> (owned m)) (s + 1) (ticks m) (lib m)) w).
Definition drop_list (s : Z) : W unit := λ w,
  let m := wm w in WRet tt (set_wm (Mem (heap m) (delete s (owned m)) (brk m) (ticks m) (lib m)) w).
Definition scratch_store_free (s : Z) : W unit := in_mem (free_owned s);; drop_list s.

(** ** Binding *)

Definition sq_status (ok : bool) : GeasStatus := if ok then GEAS_OK else GEAS_ERR_STORE.

(** A blob's length is converted to [int]; a negative one is undefined. *)
Definition bind_one (stmt idx : Z) (v : GeasValue) : W GeasStatus :=
  let put x := ok ← in_sq (sqlite3_bind stmt idx x); mret (sq_status ok) in
  match tag_of (ty v) with
  | Some GEAS_TY_INT => put (SInt (as_i v))
  | Some GEAS_TY_UINT => put (SInt (i64 (as_u v)))
  | Some GEAS_TY_FLOAT => put (SReal (as_f v))
  | Some GEAS_TY_BOOL | Some GEAS_TY_BYTE => put (SInt (as_b v))
  | Some GEAS_TY_CHAR => put (SInt (as_ch v))
  | Some GEAS_TY_STRING =>
      if s_len v =? 0 then put (SBlob []) else
      let n := i32 (s_len v) in
      if n <? 0 then wundef else
      bs ← in_mem (if n =? 0 then ret [] else load_bytes (s_ptr v) (Z.to_nat n)); put (SBlob bs)
  | _ => mret GEAS_ERR_TYPE
  end.

Fixpoint bind_all (stmt idx : Z) (params : list GeasValue) : W GeasStatus :=
  match params with
  | [] => mret GEAS_OK
  | v :: params' =>
      st ← bind_one stmt idx v;
      if st_ok st then bind_all stmt (i32 (idx + 1)) params' else mret st
  end.

Definition bind_params (stmt : Z) (params : list GeasValue) : W GeasStatus :=
  s ← get_sq;
  if negb (sqlite3_bind_parameter_count stmt s =? i32 (Z.of_nat (length params))) then mret GEAS_ERR_STORE
  else bind_all stmt 1 params.

(** ** Reading a row *)

(** The word a scalar column reads to. *)
Definition read_scalar (stmt i : Z) (s : sq) (t : GeasTypeTag) : Z :=
  let n := sqlite3_column_int64 stmt i s in
  match t with
  | GEAS_TY_FLOAT => sqlite3_column_double stmt i s
  | GEAS_TY_BOOL => if n =? 0 then 0 else 1
  | GEAS_TY_BYTE => u8 n
  | GEAS_TY_CHAR => u32 n
  | _ => u64 n
  end.

Fixpoint read_fields (alloc : GeasStoreAlloc) (stmt : Z) (s : sq) (fields : Z) (tys : list Z) (i : nat)
    : M GeasStatus :=
  match tys with
  | [] => ret GEAS_OK
  | t :: tys' =>
      match tag_of t with
      | Some GEAS_TY_STRING =>
          store_slot fields i (g_string 0 0);;;
          let blob := sqlite3_column_blob stmt (i32 (Z.of_nat i)) s in
          let nb := Z.of_nat (length blob) in
          dst <- (if 0 <? nb then alloc KBytes nb else ret 0);
          if (0 <? nb) && (dst =? 0) then ret GEAS_ERR_OOM else
          (if 0 <? nb then store_bytes dst 0 blob else ret tt);;;
          store_slot fields i (g_string dst nb);;;
          read_fields alloc stmt s fields tys' (S i)
      | Some tg =>
          if negb (Driver.tag_scalar t) then ret GEAS_ERR_TYPE else
          store_slot fields i (g_scalar tg (read_scalar stmt (i32 (Z.of_nat i)) s tg));;;
          read_fields alloc stmt s fields tys' (S i)
      | None => ret GEAS_ERR_TYPE
      end
  end.

(** The status and [*rec_out], [None] where it was not written. *)
Definition read_row (alloc : GeasStoreAlloc) (stmt : Z) (s : sq) (tys : list Z) : M (GeasStatus * option GeasValue) :=
  let n := Z.of_nat (length tys) in
  fields <- (if n =? 0 then ret 0 else alloc KVals (slot_bytes n));
  if negb (n =? 0) && (fields =? 0) then ret (GEAS_ERR_OOM, None) else
  (if n =? 0 then ret tt else zero_slots fields (length tys));;;
  st <- read_fields alloc stmt s fields tys 0;
  if negb (st_ok st) then ret (st, None) else
  ret (GEAS_OK, Some (g_seq GEAS_TY_RECORD 0 fields n n 0)).

(** ** Statements with parameters *)

(** Steps to the end, counting the rows; fuel runs out on an endless result. *)
Fixpoint step_all (fuel : nat) (stmt : Z) (n : Z) : W (step_rc * Z) :=
  match fuel with
  | O => wnofuel
  | S fuel' =>
      rc ← in_sq (sqlite3_step stmt);
      match rc with
      | SQLITE_ROW => step_all fuel' stmt (u64 (n + 1))
      | _ => mret (rc, n)
      end
  end.

Definition prepare (h : Z) (sql : string) : W (option Z) :=
  '(ok, stmt) ← in_sq (sqlite3_prepare_v2 h sql);
  if negb ok || (stmt =? 0) then on_sq (sqlite3_finalize stmt);; mret None else mret (Some stmt).

(** The status and the change count. *)
Definition geas_store_exec_params (fuel : nat) (h : Z) (sql : string) (params : list GeasValue)
    : W (GeasStatus * option Z) :=
  if h =? 0 then mret (GEAS_ERR_STORE, None) else
  stmt ← prepare h sql;
  match stmt with
  | None => mret (GEAS_ERR_STORE, None)
  | Some stmt =>
      st ← bind_params stmt params;
      if negb (st_ok st) then on_sq (sqlite3_finalize stmt);; mret (st, None) else
      '(rc, _) ← step_all fuel stmt 0;
      on_sq (sqlite3_finalize stmt);;
      if bool_decide (rc ≠ SQLITE_DONE) then mret (GEAS_ERR_STORE, None) else
      s ← get_sq; mret (GEAS_OK, Some (u64 (sqlite3_changes64 h s)))
  end.

(** The second pass: [n] slots of [backbone] from [j] on. *)
Fixpoint read_rows (alloc : GeasStoreAlloc) (stmt : Z) (tys : list Z) (backbone : Z) (n j : nat)
    : W (GeasStatus * step_rc) :=
  rc ← in_sq (sqlite3_step stmt);
  match rc, n with
  | SQLITE_ROW, S n' =>
      s ← get_sq;
      '(st, rec) ← in_mem (read_row alloc stmt s tys);
      match rec with
      | Some rec => in_mem (store_slot backbone j rec);; read_rows alloc stmt tys backbone n' (S j)
      | None => mret (st, rc)
      end
  | _, _ => mret (GEAS_OK, rc)
  end.

(** The failing exits. *)
Definition query_drop (stmt : Z) (st : GeasStatus) : W (GeasStatus * GeasValue) :=
  on_sq (sqlite3_finalize stmt);; mret (st, gzero).

(** From the allocation of the backbone on, [n] rows having been counted. *)
Definition query_rows (alloc : GeasStoreAlloc) (stmt : Z) (tys : list Z) (n : Z) : W (GeasStatus * GeasValue) :=
  backbone ← in_mem (if n =? 0 then ret 0 else alloc KVals (slot_bytes n));
  if negb (n =? 0) && (backbone =? 0) then query_drop stmt GEAS_ERR_OOM else
  in_mem (if n =? 0 then ret tt else zero_slots backbone (Z.to_nat n));;
  '(st, rc) ← read_rows alloc stmt tys backbone (Z.to_nat n) 0;
  if negb (st_ok st) then query_drop stmt st else
  if bool_decide (rc ≠ SQLITE_DONE) && bool_decide (rc ≠ SQLITE_ROW) then query_drop stmt GEAS_ERR_STORE else
  on_sq (sqlite3_finalize stmt);;
  mret (GEAS_OK, g_seq GEAS_TY_LIST 0 backbone n n (tag_num GEAS_TY_RECORD)).

(** The status and [*rows_out]. *)
Definition geas_store_query (fuel : nat) (h : Z) (sql : string) (params : list GeasValue) (tys : list Z)
    (alloc : GeasStoreAlloc) : W (GeasStatus * GeasValue) :=
  if h =? 0 then mret (GEAS_ERR_STORE, gzero) else
  if negb (forallb Driver.tag_scalar tys) then mret (GEAS_ERR_TYPE, gzero) else
  stmt ← prepare h sql;
  match stmt with
  | None => mret (GEAS_ERR_STORE, gzero)
  | Some stmt =>
      s ← get_sq;
      if negb (u64 (sqlite3_column_count stmt s) =? Z.of_nat (length tys)) then query_drop stmt GEAS_ERR_TYPE else
      st ← bind_params stmt params;
      if negb (st_ok st) then query_drop stmt st else
      '(rc, n) ← step_all fuel stmt 0;
      if bool_decide (rc ≠ SQLITE_DONE) then query_drop stmt GEAS_ERR_STORE else
      ok ← in_sq (sqlite3_reset stmt);
      if negb ok then query_drop stmt GEAS_ERR_STORE else
      query_rows alloc stmt tys n
  end.
End Rows.
