(* ===== verification/Float.v ===== *)
(** * Doubles by value

    The two C operations on [double] the runtime computes with, the conversion of
    an [int64_t] and the division of an average, on the bit patterns, through the
    Standard Library's executable IEEE 754 arithmetic rounding to nearest even. *)
From Stdlib Require Import SpecFloat.
From S2P Require Import Prelude.

Definition prec64 : Z := 53.
Definition emax64 : Z := 1024.

Definition f64_of_bits (b : Z) : spec_float :=
  let s := 9223372036854775808 <=? b in
  let e := Z.shiftr b 52 mod 2048 in
  let m := b mod 4503599627370496 in
  if e =? 2047 then (if m =? 0 then S754_infinity s else S754_nan)
  else if e =? 0 then match m with Zpos p => S754_finite s p (-1074) | _ => S754_zero s end
  else match m + 4503599627370496 with Zpos p => S754_finite s p (e - 1075) | _ => S754_nan end.

(** Every NaN is one quiet pattern: the payload is not tracked. *)
Definition bits_of_f64 (x : spec_float) : Z :=
  let sg (s : bool) := if s then 9223372036854775808 else 0 in
  match x with
  | S754_zero s => sg s
  | S754_infinity s => sg s + 9218868437227405312
  | S754_nan => 9221120237041090560
  | S754_finite s m e =>
      if Zpos m <? 4503599627370496 then sg s + Zpos m
      else sg s + (e + 1075) * 4503599627370496 + (Zpos m - 4503599627370496)
  end.

(** [(double)i] *)
Definition f64_of_int (i : Z) : Z := bits_of_f64 (binary_normalize prec64 emax64 i 0 false).
Definition f64_div (a b : Z) : Z := bits_of_f64 (SFdiv prec64 emax64 (f64_of_bits a) (f64_of_bits b)).

Example f64_one : f64_of_int 1 = 4607182418800017408. Proof. reflexivity. Qed.
Example f64_minus_two : f64_of_int (-2) = 13835058055282163712. Proof. reflexivity. Qed.
Example f64_half : f64_div (f64_of_int 1) (f64_of_int 2) = 4602678819172646912. Proof. reflexivity. Qed.
(** 2/3 is 0x3FE5555555555555; 2^53 + 1 rounds to even. *)
Example f64_third : f64_div (f64_of_int 2) (f64_of_int 3) = 4604180019048437077. Proof. reflexivity. Qed.
Example f64_round : f64_of_int 9007199254740993 = f64_of_int 9007199254740992. Proof. reflexivity. Qed.
