(* ===== verification/Surface.v ===== *)
(** * The store surface

    [runtime.c]: [store_ok], [store_ok_unit], [store_row_params] and the
    [geas_store_*] calls a compiled body makes against its instance's connection.
    Every call checks its arguments, builds one statement ([StoreSql]), copies the
    values it binds into one array, runs it through the driver ([Rows]) and wraps
    the answer in an Ok.  The arguments come as the structs and lists the C pointers
    name, so each call's first line, GEAS_ERR_TYPE for a NULL one, has no counterpart
    here; a NULL limit of [geas_store_select] or value of a term is modelled
    where the code looks behind the first line. *)
From S2P Require Import Prelude Abi Memory Value Iname Policy Store Future Lifecycle StoreSql Sqlite Driver Rows Float.

(** ** Results *)

Definition store_ok (c : Z) (payload : GeasValue) : M (GeasStatus * GeasValue) :=
  box <- geas_box c;
  if box =? 0 then ret (GEAS_ERR_OOM, gzero) else
  store_slot box 0 payload;;;
  ret (GEAS_OK, g_box GEAS_TY_RESULT 0 box).

Definition store_ok_unit (c : Z) : M (GeasStatus * GeasValue) := store_ok c gzero.

(** The row's field array, when the value is a record of the schema's width. *)
Definition store_row_params (s : GeasSchemaDesc) (row : GeasValue) : option Z :=
  if negb (is_ty GEAS_TY_RECORD row) then None else
  if negb (l_len row =? ncols s) then None else
  if l_data row =? 0 then None else Some (l_data row).

(** ** Argument checks *)

Definition term_valid (s : GeasSchemaDesc) (t : GeasStoreTerm) : bool :=
  (t_col t <? ncols s) && (t_cmp t <=? GEAS_CMP_GE) &&
  match t_value t, s_cols s !! Z.to_nat (t_col t) with
  | Some v, Some c => ty v =? sc_ty c
  | _, _ => false
  end.

(** A flat conjunction is at least one term, every one in range. *)
Definition terms_valid (s : GeasSchemaDesc) (ts : list GeasStoreTerm) : bool :=
  negb (ncols s =? 0) && negb (Z.of_nat (length ts) =? 0) && forallb (term_valid s) ts.

(** The term count of the groups; [None] is an empty group or a wrapped sum. *)
Fixpoint total_terms (lens : list Z) (total : Z) : option Z :=
  match lens with
  | [] => Some total
  | n :: lens' =>
      if (n =? 0) || (U32_MAX - total <? n) then None else total_terms lens' (total + n)
  end.

(** The terms the groups take; reading past the array is undefined. *)
Definition group_terms (s : GeasSchemaDesc) (ts : list GeasStoreTerm) (lens : list Z)
    : option (option (list GeasStoreTerm)) :=
  if (ncols s =? 0) || (Z.of_nat (length lens) =? 0) then Some None else
  match total_terms lens 0 with
  | None => Some None
  | Some n =>
      let used := take (Z.to_nat n) ts in
      if negb (forallb (term_valid s) used) then Some None else
      if (length used <? Z.to_nat n)%nat then None else Some (Some used)
  end.

Definition order_valid (s : GeasSchemaDesc) (order_col order_desc : Z) : bool :=
  (order_col <? ncols s) && (order_desc <=? 1).
Definition limit_valid (limit : GeasValue) : bool :=
  is_ty GEAS_TY_INT limit && (0 <=? as_i limit).
Definition sum_valid (s : GeasSchemaDesc) (col : Z) : bool :=
  (col <? ncols s) &&
  match s_cols s !! Z.to_nat col with
  | Some c => (sc_ty c =? tag_num GEAS_TY_INT) || (sc_ty c =? tag_num GEAS_TY_FLOAT)
  | None => false
  end.

(** [params[i] = *terms[i].value], behind one [malloc]; the count is 32 bits wide,
    and one that wrapped leaves no room for the copies. *)
Definition term_params (ts : list GeasStoreTerm) (more : list GeasValue) : M (option (list GeasValue)) :=
  let n := Z.of_nat (length ts + length more) in
  ok <- sys_alloc (u32 n * sizeof_GeasValue);
  if ok && negb (u32 n =? n) then undef else
  ret (if ok then Some (omap t_value ts ++ more) else None).

Section Surface.
Context `{SQ : Sqlite}.
(** Fuel for walking a result set. *)
Context (fuel : nat).

(** ** One statement *)

(** The connection's status while there is none, then the call over it. *)
Definition on_store (c : Z) (k : Z → W (GeasStatus * GeasValue)) : W (GeasStatus * GeasValue) :=
  ct ← get_inst c;
  match c_store ct with None => mret (GEAS_ERR_STORE, gzero) | Some h => k h end.

(** A read: the text, the column tags, the parameters, then the rows on the
    instance heap. *)
Definition read_rows_of (c : Z) (s : GeasSchemaDesc) (sql : M (option string))
    (params : M (option (list GeasValue))) (k : GeasValue → M (GeasStatus * GeasValue))
    : W (GeasStatus * GeasValue) :=
  on_store c (λ h,
    q ← in_mem sql;
    cts ← in_mem (store_col_types s);
    ps ← in_mem params;
    match q, cts, ps with
    | Some q, Some cts, Some ps =>
        '(st, rows) ← geas_store_query fuel h q ps cts (instance_store_bytes c);
        if negb (st_ok st) then mret (st, gzero) else in_mem (k rows)
    | _, _, _ => mret (GEAS_ERR_OOM, gzero)
    end).

(** A lone parameter is read where the caller has it. *)
Definition one_param (v : GeasValue) : M (option (list GeasValue)) := ret (Some [v]).

Definition geas_store_find (c : Z) (s : GeasSchemaDesc) (key : GeasValue) : W (GeasStatus * GeasValue) :=
  ct ← get_inst c;
  if bool_decide (c_store ct = None) || (ncols s =? 0) then mret (GEAS_ERR_STORE, gzero) else
  read_rows_of c s (store_sql_select s) (one_param key) (λ rows,
    if 0 <? l_len rows then
      box <- geas_box c;
      if box =? 0 then ret (GEAS_ERR_OOM, gzero) else
      row <- load_slot (l_data rows) 0;
      store_slot box 0 row;;;
      store_ok c (g_box GEAS_TY_OPTION 1 box)
    else store_ok c (g_box GEAS_TY_OPTION 0 0)).

Definition geas_store_query_eq (c : Z) (s : GeasSchemaDesc) (col : Z) (value : GeasValue)
    : W (GeasStatus * GeasValue) :=
  if (ncols s =? 0) || (ncols s <=? col) then mret (GEAS_ERR_TYPE, gzero) else
  if negb (match s_cols s !! Z.to_nat col with Some k => ty value =? sc_ty k | None => false end)
  then mret (GEAS_ERR_TYPE, gzero) else
  read_rows_of c s (store_sql_select_eq s col) (one_param value) (store_ok c).

Definition geas_store_query_where (c : Z) (s : GeasSchemaDesc) (ts : list GeasStoreTerm)
    : W (GeasStatus * GeasValue) :=
  if negb (terms_valid s ts) then mret (GEAS_ERR_TYPE, gzero) else
  read_rows_of c s (store_sql_select_where s ts) (term_params ts []) (store_ok c).

Definition geas_store_query_ordered (c : Z) (s : GeasSchemaDesc) (ts : list GeasStoreTerm)
    (order_col order_desc : Z) : W (GeasStatus * GeasValue) :=
  if negb (terms_valid s ts && order_valid s order_col order_desc) then mret (GEAS_ERR_TYPE, gzero) else
  read_rows_of c s (store_sql_select_ordered s ts order_col order_desc) (term_params ts []) (store_ok c).

Definition geas_store_query_page (c : Z) (s : GeasSchemaDesc) (ts : list GeasStoreTerm)
    (order_col order_desc : Z) (limit : GeasValue) : W (GeasStatus * GeasValue) :=
  if negb (terms_valid s ts && order_valid s order_col order_desc && limit_valid limit)
  then mret (GEAS_ERR_TYPE, gzero) else
  read_rows_of c s (store_sql_select_page s ts order_col order_desc) (term_params ts [limit]) (store_ok c).

(** [limit] is [None] for NULL. *)
Definition select_valid (s : GeasSchemaDesc) (used : list GeasStoreTerm) (order_col order_desc : Z)
    (limit : option GeasValue) : bool :=
  (if order_col =? GEAS_STORE_NO_ORDER then bool_decide (limit = None)
   else order_valid s order_col order_desc) &&
  match limit with
  | None => true
  | Some l => limit_valid l && negb (Z.of_nat (length used) =? U32_MAX)
  end.

Definition geas_store_select (c : Z) (s : GeasSchemaDesc) (ts : list GeasStoreTerm) (lens : list Z)
    (order_col order_desc : Z) (limit : option GeasValue) : W (GeasStatus * GeasValue) :=
  match group_terms s ts lens with
  | None => wundef
  | Some None => mret (GEAS_ERR_TYPE, gzero)
  | Some (Some used) =>
      if negb (select_valid s used order_col order_desc limit) then mret (GEAS_ERR_TYPE, gzero) else
      read_rows_of c s
        (store_sql_select_any s used lens order_col order_desc (bool_decide (limit ≠ None)))
        (term_params used (option_list limit)) (store_ok c)
  end.

(** ** Aggregates

    One row read in scratch memory, its fields copied out before it is freed. *)

(** The fields of a one row answer of [n] columns. *)
Definition single_row (rows : GeasValue) (n : Z) : M (option Z) :=
  if negb (is_ty GEAS_TY_LIST rows) || negb (l_len rows =? 1) || (l_data rows =? 0) then ret None else
  rec <- load_slot (l_data rows) 0;
  if negb (is_ty GEAS_TY_RECORD rec) || negb (l_len rec =? n) || (l_data rec =? 0) then ret None else
  ret (Some (l_data rec)).

Definition aggregate (c : Z) (sql : M (option string)) (ts : list GeasStoreTerm) (tys : list Z)
    (k : GeasValue → M (GeasStatus * GeasValue)) : W (GeasStatus * GeasValue) :=
  on_store c (λ h,
    q ← in_mem sql;
    ps ← in_mem (term_params ts []);
    match q, ps with
    | Some q, Some ps =>
        a ← scratch_new;
        '(st, rows) ← geas_store_query fuel h q ps tys (scratch_store_bytes a);
        r ← (if st_ok st then in_mem (k rows) else mret (st, gzero));
        scratch_store_free a;;
        mret r
    | _, _ => mret (GEAS_ERR_OOM, gzero)
    end).

(** The lone field, of the type asked for, as a fresh value. *)
Definition scalar_answer (c : Z) (t : Z) (rows : GeasValue) : M (GeasStatus * GeasValue) :=
  fields <- single_row rows 1;
  match fields with
  | None => ret (GEAS_ERR_STORE, gzero)
  | Some p =>
      f <- load_slot p 0;
      if negb (ty f =? t) then ret (GEAS_ERR_STORE, gzero)
      else store_ok c (GV t 0 (w0 f) 0 0 0)
  end.

Definition geas_store_count_any (c : Z) (s : GeasSchemaDesc) (ts : list GeasStoreTerm) (lens : list Z)
    : W (GeasStatus * GeasValue) :=
  match group_terms s ts lens with
  | None => wundef
  | Some None => mret (GEAS_ERR_TYPE, gzero)
  | Some (Some used) =>
      aggregate c (store_sql_count_any s used lens) used [tag_num GEAS_TY_INT]
        (scalar_answer c (tag_num GEAS_TY_INT))
  end.

Definition col_ty (s : GeasSchemaDesc) (col : Z) : Z := default 0 (sc_ty <$> s_cols s !! Z.to_nat col).

Definition geas_store_sum_any (c : Z) (s : GeasSchemaDesc) (sum_col : Z) (ts : list GeasStoreTerm)
    (lens : list Z) : W (GeasStatus * GeasValue) :=
  match group_terms s ts lens with
  | None => wundef
  | Some None => mret (GEAS_ERR_TYPE, gzero)
  | Some (Some used) =>
      if negb (sum_valid s sum_col) then mret (GEAS_ERR_TYPE, gzero) else
      aggregate c (store_sql_sum_any s sum_col used lens) used [col_ty s sum_col]
        (scalar_answer c (col_ty s sum_col))
  end.

Definition geas_store_count_where (c : Z) (s : GeasSchemaDesc) (ts : list GeasStoreTerm)
    : W (GeasStatus * GeasValue) :=
  if negb (terms_valid s ts) then mret (GEAS_ERR_TYPE, gzero) else
  aggregate c (store_sql_count_where s ts) ts [tag_num GEAS_TY_INT]
    (scalar_answer c (tag_num GEAS_TY_INT)).

Definition geas_store_sum_where (c : Z) (s : GeasSchemaDesc) (sum_col : Z) (ts : list GeasStoreTerm)
    : W (GeasStatus * GeasValue) :=
  if negb (terms_valid s ts && sum_valid s sum_col) then mret (GEAS_ERR_TYPE, gzero) else
  aggregate c (store_sql_sum_where s sum_col ts) ts [col_ty s sum_col]
    (scalar_answer c (col_ty s sum_col)).

Definition GEAS_AGG_MIN : Z := 0.
Definition GEAS_AGG_MAX : Z := 1.
Definition GEAS_AGG_AVG : Z := 2.

(** The average: a count and a sum, None when nothing matched. *)
Definition avg_answer (c : Z) (t : Z) (rows : GeasValue) : M (GeasStatus * GeasValue) :=
  fields <- single_row rows 2;
  match fields with
  | None => ret (GEAS_ERR_STORE, gzero)
  | Some p =>
      n <- load_slot p 0;
      x <- load_slot p 1;
      if negb (is_ty GEAS_TY_INT n) || negb (ty x =? t) then ret (GEAS_ERR_STORE, gzero) else
      if as_i n =? 0 then store_ok c (g_box GEAS_TY_OPTION 0 0) else
      box <- geas_box c;
      if box =? 0 then ret (GEAS_ERR_OOM, gzero) else
      let sum := if t =? tag_num GEAS_TY_INT then f64_of_int (as_i x) else as_f x in
      store_slot box 0 (g_scalar GEAS_TY_FLOAT (f64_div sum (f64_of_int (as_i n))));;;
      store_ok c (g_box GEAS_TY_OPTION 1 box)
  end.

(** The extreme: at most one row, its field copied onto the instance. *)
Definition extreme_answer (dfuel : nat) (c : Z) (t : Z) (rows : GeasValue) : M (GeasStatus * GeasValue) :=
  if negb (is_ty GEAS_TY_LIST rows) || (1 <? l_len rows) || (negb (l_len rows =? 0) && (l_data rows =? 0))
  then ret (GEAS_ERR_STORE, gzero) else
  if l_len rows =? 0 then store_ok c (g_box GEAS_TY_OPTION 0 0) else
  fields <- single_row rows 1;
  match fields with
  | None => ret (GEAS_ERR_STORE, gzero)
  | Some p =>
      f <- load_slot p 0;
      if negb (ty f =? t) then ret (GEAS_ERR_STORE, gzero) else
      box <- geas_box c;
      if box =? 0 then ret (GEAS_ERR_OOM, gzero) else
      old <- load_slot box 0;
      '(st, v) <- geas_value_deep_copy dfuel c (Some f) old;
      store_slot box 0 v;;;
      if negb (st_ok st) then ret (st, gzero) else store_ok c (g_box GEAS_TY_OPTION 1 box)
  end.

Definition geas_store_agg_any (dfuel : nat) (c : Z) (s : GeasSchemaDesc) (agg agg_col : Z)
    (ts : list GeasStoreTerm) (lens : list Z) : W (GeasStatus * GeasValue) :=
  if GEAS_AGG_AVG <? agg then mret (GEAS_ERR_TYPE, gzero) else
  match group_terms s ts lens with
  | None => wundef
  | Some None => mret (GEAS_ERR_TYPE, gzero)
  | Some (Some used) =>
      if negb (agg_col <? ncols s) then mret (GEAS_ERR_TYPE, gzero) else
      let t := col_ty s agg_col in
      if agg =? GEAS_AGG_AVG then
        if negb (sum_valid s agg_col) then mret (GEAS_ERR_TYPE, gzero) else
        aggregate c (store_sql_avg_any s agg_col used lens) used [tag_num GEAS_TY_INT; t] (avg_answer c t)
      else
        aggregate c (store_sql_extreme_any s agg_col (agg =? GEAS_AGG_MAX) used lens) used [t]
          (extreme_answer dfuel c t)
  end.

(** ** Writes *)

(** The [n] slots of a row, copied or read in place. *)
Fixpoint load_slots (p : Z) (n i : nat) : M (list GeasValue) :=
  match n with
  | O => ret []
  | S n' => v <- load_slot p i; vs <- load_slots p n' (S i); ret (v :: vs)
  end.

Definition run_write (c : Z) (sql : M (option string)) (params : M (option (list GeasValue)))
    : W (GeasStatus * GeasValue) :=
  on_store c (λ h,
    q ← in_mem sql;
    ps ← in_mem params;
    match q, ps with
    | Some q, Some ps =>
        '(st, _) ← geas_store_exec_params fuel h q ps;
        if negb (st_ok st) then mret (st, gzero) else in_mem (store_ok_unit c)
    | _, _ => mret (GEAS_ERR_OOM, gzero)
    end).

Definition geas_store_insert (c : Z) (s : GeasSchemaDesc) (row : GeasValue) : W (GeasStatus * GeasValue) :=
  match store_row_params s row with
  | None => mret (GEAS_ERR_TYPE, gzero)
  | Some p =>
      run_write c (store_sql_insert s) (vs <- load_slots p (length (s_cols s)) 0; ret (Some vs))
  end.

Definition geas_store_update (c : Z) (s : GeasSchemaDesc) (key row : GeasValue) : W (GeasStatus * GeasValue) :=
  match store_row_params s row with
  | None => mret (GEAS_ERR_TYPE, gzero)
  | Some p =>
      run_write c (store_sql_update s)
        (let n := u32 (ncols s + 1) in
         ok <- sys_alloc (n * sizeof_GeasValue);
         if negb ok then ret None else
         if negb (n =? ncols s + 1) then undef else
         vs <- load_slots p (length (s_cols s)) 0; ret (Some (vs ++ [key])))
  end.

Definition geas_store_delete (c : Z) (s : GeasSchemaDesc) (key : GeasValue) : W (GeasStatus * GeasValue) :=
  ct ← get_inst c;
  if bool_decide (c_store ct = None) || (ncols s =? 0) then mret (GEAS_ERR_STORE, gzero) else
  run_write c (sql_delete s) (one_param key).
End Surface.
