(* ===== verification/Park.v ===== *)
(** * Parking an instance and resuming it

    [runtime.c], "the parked instance": [geas_instance_park] writes one row, the
    vows and error payloads in the wire encoding, the latches and the episode
    slots byte for byte; [geas_instance_resume] reads it back onto a new instance.

    Bytes that live outside the modelled heap, a C string or a [calloc]ed latch
    array, are made a block for the call that reads them ([expose], [conceal]). *)
From S2P Require Import Prelude Abi Memory Value Wire Iname Frame Policy Store Future Lifecycle StoreSql Sqlite Driver Rows.

Definition PARK_DDL : string :=
  "CREATE TABLE IF NOT EXISTS geas_park (pkey TEXT PRIMARY KEY, contract TEXT, version INTEGER, shape_hash INTEGER, state INTEGER, signed_at INTEGER, vows BLOB, latches BLOB, errs BLOB, subtxn BLOB)".
Definition PARK_PUT : string :=
  "INSERT OR REPLACE INTO geas_park VALUES (?1,?2,?3,?4,?5,?6,?7,?8,?9,?10)".
Definition PARK_GET : string :=
  "SELECT contract, version, shape_hash, state, signed_at, vows, latches, errs, subtxn FROM geas_park WHERE pkey = ?1".
Definition park_cols : list Z :=
  map tag_num [GEAS_TY_STRING; GEAS_TY_INT; GEAS_TY_UINT; GEAS_TY_INT; GEAS_TY_INT;
               GEAS_TY_STRING; GEAS_TY_STRING; GEAS_TY_STRING; GEAS_TY_STRING].

Definition latch_num (l : latch) : Z :=
  match l with PLEDGE_PENDING => 0 | PLEDGE_FULFILLED => 1 | PLEDGE_BROKEN => 2 end.
Definition latch_of (z : Z) : option latch :=
  match z with 0 => Some PLEDGE_PENDING | 1 => Some PLEDGE_FULFILLED | 2 => Some PLEDGE_BROKEN | _ => None end.
Definition txn_num (t : txn_slot) : Z := match t with TXN_NONE => 0 | TXN_OPEN => 1 | TXN_DONE => 2 end.
(** What a resumed slot may hold: an open episode is refused. *)
Definition txn_of (z : Z) : option txn_slot :=
  match z with 0 => Some TXN_NONE | 2 => Some TXN_DONE | _ => None end.

Definition park_err_present (v : GeasValue) : bool := negb (bool_decide (v = gzero)).

(** ** Encoding *)

(** The size of one value, GEAS_ERR_OOM being the codec's sizing answer. *)
Definition park_size (v : GeasValue) : M (GeasStatus * Z) :=
  '(st, need, _) <- geas_wire_encode_value (Some v) false 0 true;
  match st with
  | GEAS_OK | GEAS_ERR_OOM => ret (GEAS_OK, default 0 need)
  | _ => ret (st, 0)
  end.

(** One value written behind [out] in a buffer of [total] bytes. *)
Definition park_write (v : GeasValue) (total : Z) (out : list Z) : M (GeasStatus * list Z) :=
  '(st, _, bs) <- geas_wire_encode_value (Some v) true (u64 (total - Z.of_nat (length out))) true;
  ret (st, out ++ bs).

Fixpoint size_values (vals : Z) (n i : nat) (total : Z) : M (GeasStatus * Z) :=
  match n with
  | O => ret (GEAS_OK, total)
  | S n' =>
      v <- load_slot vals i;
      '(st, need) <- park_size v;
      if negb (st_ok st) then ret (st, total) else size_values vals n' (S i) (u64 (total + need))
  end.
Fixpoint write_values (vals : Z) (n i : nat) (total : Z) (out : list Z) : M (GeasStatus * list Z) :=
  match n with
  | O => ret (GEAS_OK, out)
  | S n' =>
      v <- load_slot vals i;
      '(st, out) <- park_write v total out;
      if negb (st_ok st) then ret (st, out) else write_values vals n' (S i) total out
  end.

(** [malloc(total ? total : 1)], then the fill. *)
Definition park_fill (total : Z) (fill : M (GeasStatus * list Z)) : M (GeasStatus * list Z) :=
  ok <- sys_alloc (if total =? 0 then 1 else total);
  if negb ok then ret (GEAS_ERR_OOM, []) else fill.

Definition park_encode_values (vals : Z) (n : nat) : M (GeasStatus * list Z) :=
  '(st, total) <- size_values vals n 0 0;
  if negb (st_ok st) then ret (st, []) else park_fill total (write_values vals n 0 total []).

Fixpoint size_errs (errs : list GeasValue) (total : Z) : M (GeasStatus * Z) :=
  match errs with
  | [] => ret (GEAS_OK, total)
  | e :: errs' =>
      if negb (park_err_present e) then size_errs errs' total else
      '(st, need) <- park_size e;
      if negb (st_ok st) then ret (st, total) else size_errs errs' (u64 (total + need))
  end.
Fixpoint write_errs (errs : list GeasValue) (total : Z) (out : list Z) : M (GeasStatus * list Z) :=
  match errs with
  | [] => ret (GEAS_OK, out)
  | e :: errs' =>
      if negb (park_err_present e) then write_errs errs' total (out ++ [0]) else
      '(st, out) <- park_write e total (out ++ [1]);
      if negb (st_ok st) then ret (st, out) else write_errs errs' total out
  end.

Definition park_encode_errs (errs : list GeasValue) : M (GeasStatus * list Z) :=
  '(st, total) <- size_errs errs (Z.of_nat (length errs));
  if negb (st_ok st) then ret (st, []) else park_fill total (write_errs errs total []).

Section Park.
Context `{SQ : Sqlite}.
(** Fuel for walking a result set. *)
Context (fuel : nat).

Definition in_driver {A} (e : Driver.D A) : W A := λ w,
  match e (ws w : sq) with Some (a, s) => WRet a (set_ws (s : sstate) w) | None => WUndef end.

(** ** Borrowed bytes *)

Definition expose (bs : list Z) : W Z := λ w,
  let m := wm w in
  WRet (brk m) (set_wm (Mem (<[brk m := BBytes bs]> (heap m)) (owned m) (brk m + 1) (ticks m) (lib m)) w).
Definition conceal (p : Z) : W unit := λ w, WRet tt (set_wm (set_heap (delete p) (wm w)) w).

Definition park_str_param (p n : Z) : GeasValue := g_string p n.
Definition park_int_param (i : Z) : GeasValue := g_scalar GEAS_TY_INT (u64 i).

(** The string parameter over borrowed bytes. *)
Definition str_param (bs : list Z) : W GeasValue :=
  p ← expose bs; mret (park_str_param p (Z.of_nat (length bs))).

(** The [n] bytes of a [calloc]ed array; a NULL one has none. *)
Definition array_bytes (n : nat) (l : option (list Z)) : W (list Z) :=
  match l with
  | Some bs => if (length bs <? n)%nat then wundef else mret (take n bs)
  | None => if (n =? 0)%nat then mret [] else wundef
  end.

(** ** Park *)

(** Whether the instance heap has a block. *)
Definition has_owned (c : Z) : W bool := λ w,
  match owned (wm w) !! c with
  | Some bl => WRet (match bl with [] => false | _ => true end) w
  | None => WUndef
  end.

(** Whether a future of the list is still to be waited on. *)
Fixpoint any_unwaited (fs : list Z) : W bool :=
  match fs with
  | [] => mret false
  | f :: fs' => x ← get_fut f; if fu_waited x then any_unwaited fs' else mret true
  end.

Definition park_checks (c : Z) (ct : GeasContract) : W GeasStatus :=
  if bool_decide (c_state ct = GEAS_UNSIGNED) then mret GEAS_ERR_STATE else
  own ← has_owned c;
  if (0 <? npledges (c_desc ct)) && negb own then mret GEAS_ERR_STATE else
  fs ← get_links c;
  air ← any_unwaited fs;
  if air : bool then mret GEAS_ERR_STATE else
  match c_sub_txn ct with
  | Some ts => mret (if existsb (λ t, bool_decide (t = TXN_OPEN)) ts then GEAS_ERR_STATE else GEAS_OK)
  | None => mret GEAS_OK
  end.

(** The row written on an open connection. *)
Definition park_row (s : Z) (key : string) (ct : GeasContract) (vows errs : list Z) : W GeasStatus :=
  k ← str_param (str_bytes key);
  nm ← str_param (str_bytes (d_name (c_desc ct)));
  vw ← str_param vows;
  lb ← array_bytes (length (d_pledges (c_desc ct))) (map latch_num <$> c_pledge_state ct);
  la ← str_param lb;
  er ← str_param errs;
  tb ← array_bytes (length (d_subs (c_desc ct))) (map txn_num <$> c_sub_txn ct);
  tx ← str_param tb;
  '(st, _) ← geas_store_exec_params fuel s PARK_PUT
    [k; nm; park_int_param (d_version (c_desc ct)); park_int_param (i64 (d_shape_hash (c_desc ct)));
     park_int_param (state_num (c_state ct)); park_int_param (c_signed_at ct); vw; la; er; tx];
  conceal (s_ptr k);; conceal (s_ptr nm);; conceal (s_ptr vw);; conceal (s_ptr la);;
  conceal (s_ptr er);; conceal (s_ptr tx);;
  mret st.

Definition geas_instance_park (c : Z) (dsn key : option string) : W GeasStatus :=
  match dsn, key with
  | Some dsn, Some key =>
      if c =? 0 then mret GEAS_ERR_TYPE else
      ct ← get_inst c;
      st ← park_checks c ct;
      if negb (st_ok st) then mret st else
      let d := c_desc ct in
      '(st, vows) ← (if (0 <? length (d_vows d))%nat
                     then in_mem (park_encode_values (c_vow_vals ct) (length (d_vows d)))
                     else mret (GEAS_OK, []));
      '(st, errs) ← (if st_ok st && (0 <? length (d_pledges d))%nat
                     then in_mem (park_encode_errs (c_pledge_err ct)) else mret (st, []));
      if negb (st_ok st) then mret st else
      '(st, s) ← in_driver (Driver.geas_store_open (Some dsn));
      st ← if_ok st (in_driver (Driver.geas_store_exec s (Some PARK_DDL)));
      st ← if_ok st (park_row s key ct vows errs);
      in_driver (Driver.geas_store_close s);;
      mret st
  | _, _ => mret GEAS_ERR_TYPE
  end.

(** ** Resume *)

(** The arena: [ParkChunk] has the instance block's one word header. *)
Definition park_arena_bytes (a : Z) : GeasStoreAlloc := λ k n, geas_bytes k a n.
Definition park_arena_free (a : Z) : W unit := in_mem (free_owned a);; drop_list a.

(** The row's bytes behind a String field. *)
Definition blob (f : GeasValue) : M (list Z) :=
  if s_len f =? 0 then ret [] else load_bytes (s_ptr f) (Z.to_nat (s_len f)).

(** One encoded value of [bs] from [off] on, into [cur]. *)
Definition resume_value (c : Z) (f : GeasValue) (bs : list Z) (off : Z) (cur : GeasValue)
    : M (GeasStatus * GeasValue * Z) :=
  let buf := if s_ptr f =? 0 then None else Some (drop (Z.to_nat off) bs) in
  '(st, out, used) <- geas_wire_decode_value c buf (u64 (s_len f - off)) (Some cur);
  ret (st, default cur out, used).

Fixpoint resume_vow_slots (c vals : Z) (f : GeasValue) (bs : list Z) (vds : list GeasVowDesc)
    (i : nat) (off : Z) : M (GeasStatus * Z) :=
  match vds with
  | [] => ret (GEAS_OK, off)
  | vd :: vds' =>
      cur <- load_slot vals i;
      '(st, v, used) <- resume_value c f bs off cur;
      store_slot vals i v;;;
      if negb (st_ok st) then ret (st, off) else
      if negb (ty v =? v_ty vd) then ret (GEAS_ERR_TYPE, off) else
      resume_vow_slots c vals f bs vds' (S i) (u64 (off + used))
  end.

(** The status and the vow array, 0 when there is none. *)
Definition resume_vows (c : Z) (d : GeasContractDesc) (f : GeasValue) : M (GeasStatus * Z) :=
  let n := length (d_vows d) in
  if (n =? 0)%nat then ret (if s_len f =? 0 then GEAS_OK else GEAS_ERR_TYPE, 0) else
  vals <- geas_bytes KVals c (slot_bytes (Z.of_nat n));
  if vals =? 0 then ret (GEAS_ERR_OOM, 0) else
  zero_slots vals n;;;
  bs <- blob f;
  '(st, off) <- resume_vow_slots c vals f bs (d_vows d) 0 0;
  if negb (st_ok st) then ret (st, vals) else
  ret (if off =? s_len f then GEAS_OK else GEAS_ERR_TYPE, vals).

(** The error payloads, one presence byte before each. *)
Fixpoint resume_errs (c : Z) (f : GeasValue) (bs : list Z) (n : nat) (off : Z) (acc : list GeasValue)
    : M (GeasStatus * list GeasValue * Z) :=
  match n with
  | O => ret (GEAS_OK, acc, off)
  | S n' =>
      match bs !! Z.to_nat off with
      | None => ret (GEAS_ERR_TYPE, acc, off)
      | Some present =>
          let off := off + 1 in
          if 1 <? present then ret (GEAS_ERR_TYPE, acc, off) else
          if present =? 1 then
            '(st, v, used) <- resume_value c f bs off gzero;
            if negb (st_ok st) then ret (st, acc ++ [v], off) else
            resume_errs c f bs n' (u64 (off + used)) (acc ++ [v])
          else resume_errs c f bs n' off (acc ++ [gzero])
      end
  end.

Definition resume_latches (c : Z) (d : GeasContractDesc) (fl fe : GeasValue) : W GeasStatus :=
  let n := length (d_pledges d) in
  if (n =? 0)%nat then mret GEAS_OK else
  a ← in_mem (sys_alloc (Z.of_nat n));
  b ← in_mem (sys_alloc (Z.of_nat n * sizeof_GeasValue));
  if negb (a && b) then mret GEAS_ERR_OOM else
  if negb (s_len fl =? Z.of_nat n) then mret GEAS_ERR_TYPE else
  lb ← in_mem (blob fl);
  match mapM latch_of lb with
  | None => mret GEAS_ERR_TYPE
  | Some ls =>
      upd_inst c (with_latches ls);;
      eb ← in_mem (blob fe);
      '(st, errs, off) ← in_mem (resume_errs c fe eb n 0 []);
      if negb (st_ok st) then mret st else
      upd_inst c (with_errs errs);;
      mret (if off =? s_len fe then GEAS_OK else GEAS_ERR_TYPE)
  end.

Definition resume_txns (c : Z) (d : GeasContractDesc) (ft : GeasValue) : W GeasStatus :=
  let n := length (d_subs d) in
  if (n =? 0)%nat then mret GEAS_OK else
  a ← in_mem (sys_alloc (Z.of_nat n));
  if negb a then mret GEAS_ERR_OOM else
  if negb (s_len ft =? Z.of_nat n) then mret GEAS_ERR_TYPE else
  tb ← in_mem (blob ft);
  match mapM txn_of tb with
  | None => mret GEAS_ERR_TYPE
  | Some ts => upd_inst c (with_txn ts);; mret GEAS_OK
  end.

Definition resume_publish (c : Z) (d : GeasContractDesc) (st : GeasContractState) (signed : Z) : W GeasStatus :=
  upd_inst c (λ ct, Contract (c_desc ct) st (c_vow_vals ct) (c_fns ct) (d_shape_hash d) signed
    (c_pledge_state ct) (c_pledge_err ct) (c_sub_txn ct) (c_store ct));;
  take_slot c.

(** The row's query, in the arena [a]. *)
Definition resume_query (dsn key : string) (a : Z) : W (GeasStatus * GeasValue) :=
  '(st, s) ← in_driver (Driver.geas_store_open (Some dsn));
  if negb (st_ok st) then mret (st, gzero) else
  st ← in_driver (Driver.geas_store_exec s (Some PARK_DDL));
  '(st, rows) ← (if st_ok st then
                   k ← str_param (str_bytes key);
                   r ← geas_store_query fuel s PARK_GET [k] park_cols (park_arena_bytes a);
                   conceal (s_ptr k);; mret r
                 else mret (st, gzero));
  in_driver (Driver.geas_store_close s);;
  mret (st, rows).

(** The instance of the row's fields [f], once the descriptor is known. *)
Definition resume_build (d : GeasContractDesc) (fns : list Z) (st : GeasContractState) (signed : Z)
    (fv fl fe ft : GeasValue) (a : Z) : W (GeasStatus * Z) :=
  ok ← in_mem contract_alloc;
  if negb ok then park_arena_free a;; mret (GEAS_ERR_OOM, 0) else
  c ← new_instance d;
  s ← sign_fns c d fns;
  s ← if_ok s ('(s, vals) ← in_mem (resume_vows c d fv);
               upd_inst c (λ ct, Contract (c_desc ct) (c_state ct) vals (c_fns ct) (c_shape_hash ct)
                 (c_signed_at ct) (c_pledge_state ct) (c_pledge_err ct) (c_sub_txn ct) (c_store ct));;
               mret s);
  s ← if_ok s (resume_latches c d fl fe);
  s ← if_ok s (resume_txns c d ft);
  s ← if_ok s (store_sign_reconcile c);
  s ← if_ok s (resume_publish c d st signed);
  park_arena_free a;;
  if negb (st_ok s) then drop_instance c;; mret (s, 0) else mret (s, c).

(** The refusals before an instance is begun. *)
Definition resume_fail (a : Z) (st : GeasStatus) : W (GeasStatus * Z) := park_arena_free a;; mret (st, 0).

(** From the first row's record on. *)
Definition resume_row (rows : GeasValue) (expected_hash a : Z) : W (GeasStatus * Z) :=
  rec ← in_mem (load_slot (l_data rows) 0);
  let fld i := in_mem (load_slot (l_data rec) i) in
  fn ← fld 0%nat; fver ← fld 1%nat; fhash ← fld 2%nat; fst ← fld 3%nat; fsig ← fld 4%nat;
  fv ← fld 5%nat; fl ← fld 6%nat; fe ← fld 7%nat; ft ← fld 8%nat;
  match (if (1 <=? as_i fst) && (as_i fst <=? 4) then state_of (as_i fst) else None) with
  | None => resume_fail a GEAS_ERR_TYPE
  | Some state =>
      ok ← in_mem (sys_alloc (u64 (s_len fn + 1)));
      if negb ok then resume_fail a GEAS_ERR_OOM else
      nm ← in_mem (blob fn);
      r ← get_rt;
      match find_desc r (c_string nm) with
      | None => resume_fail a GEAS_ERR_NAME
      | Some d =>
          if negb (d_version d =? as_i fver) || negb (d_shape_hash d =? as_u fhash) ||
             (negb (expected_hash =? 0) && negb (expected_hash =? d_shape_hash d))
          then resume_fail a GEAS_ERR_VERSION else
          let '(st, fns, r') := resolve_dispatch r d in
          put_rt r';;
          if negb (st_ok st) then resume_fail a st else
          resume_build d fns state (as_i fsig) fv fl fe ft a
      end
  end.

Definition geas_instance_resume (dsn key : option string) (expected_hash : Z) : W (GeasStatus * Z) :=
  match dsn, key with
  | Some dsn, Some key =>
      a ← scratch_new;
      '(st, rows) ← resume_query dsn key a;
      if negb (st_ok st) then resume_fail a st else
      if l_len rows =? 0 then resume_fail a GEAS_ERR_NAME else
      resume_row rows expected_hash a
  | _, _ => mret (GEAS_ERR_TYPE, 0)
  end.

(** ** Over values

    The compiled thunk's spelling: the names are String values, copied into NUL
    terminated buffers. *)
Definition park_cstr (v : GeasValue) : M (option string) :=
  if negb (is_ty GEAS_TY_STRING v) then ret None else
  ok <- sys_alloc (u64 (s_len v + 1));
  if negb ok then ret None else
  bs <- blob v; ret (Some (c_string bs)).

(** The two copies, then the call over them. *)
Definition over_cstrs {A} (bad oom : A) (dsn key : GeasValue) (k : option string → option string → W A) : W A :=
  if negb (is_ty GEAS_TY_STRING dsn) || negb (is_ty GEAS_TY_STRING key) then mret bad else
  d ← in_mem (park_cstr dsn);
  q ← in_mem (park_cstr key);
  match d, q with Some _, Some _ => k d q | _, _ => mret oom end.

Definition geas_instance_park_v (c : Z) (dsn key : GeasValue) : W GeasStatus :=
  if c =? 0 then mret GEAS_ERR_TYPE else
  over_cstrs GEAS_ERR_TYPE GEAS_ERR_OOM dsn key (geas_instance_park c).
Definition geas_instance_resume_v (dsn key : GeasValue) (expected_hash : Z) : W (GeasStatus * Z) :=
  over_cstrs (GEAS_ERR_TYPE, 0) (GEAS_ERR_OOM, 0) dsn key (λ d q, geas_instance_resume d q expected_hash).
End Park.
