(* ===== verification/Render.v ===== *)
(** * The debug renderer and the partial report as a value

    [runtime.c], "the debug renderer": the counting sink, [render_value] and its
    helpers, [geas_value_render]; and [partial_names_value], [geas_partial_value],
    [geas_state_name], [geas_state_value].  The spelling of a [double] under ["%g"]
    is the C library's, a parameter. *)
From S2P Require Import Prelude Abi Memory Value Iname Policy Store Future Lifecycle.

(** ** The sink *)

(** [k_buf] is false for the sizing pass; [k_out] is what landed in the buffer. *)
Record RenderSink := Sink { k_buf : bool; k_cap : Z; k_pos : Z; k_out : list Z }.

Definition sink_put (bs : list Z) (s : RenderSink) : RenderSink :=
  Sink (k_buf s) (k_cap s) (u64 (k_pos s + Z.of_nat (length bs)))
    (if k_buf s && (k_pos s <? k_cap s)
     then k_out s ++ take (Z.to_nat (k_cap s - k_pos s)) bs else k_out s).

Definition sink_str (z : string) (s : RenderSink) : RenderSink := sink_put (str_bytes z) s.

(** [vsnprintf] into 64 bytes, its NUL cutting a longer text; past 64 the copy
    would read beyond the buffer. *)
Definition sink_fmt (z : string) (s : RenderSink) : M RenderSink :=
  let bs := str_bytes z in
  if (64 <? length bs)%nat then undef else
  ret (sink_put (if (length bs =? 64)%nat then take 63 bs ++ [0] else bs) s).

(** ** Numbers *)

Definition dec_u64 (v : Z) : string := dec_digits 20 (u64 v) EmptyString.
Definition dec_i64 (v : Z) : string := if v <? 0 then "-" +:+ dec_u64 (- v) else dec_u64 v.
Definition hex_upper (d : Z) : Ascii.ascii := Ascii.ascii_of_N (Z.to_N (if d <? 10 then 48 + d else 55 + d)).
Fixpoint hex_digits_up (fuel : nat) (v : Z) (acc : string) : string :=
  match fuel with
  | O => acc
  | S fuel' =>
      let acc := String (hex_upper (v mod 16)) acc in
      if v <? 16 then acc else hex_digits_up fuel' (v / 16) acc
  end.
(** ["%04X"] *)
Definition hex4 (v : Z) : string :=
  let d := hex_digits_up 8 v EmptyString in
  let pad := (4 - String.length d)%nat in
  String.substring 0 pad "0000" +:+ d.

(** ** Values *)

Section Render.
(** ["%g"] of a double's bits. *)
Context (libc_g : Z → string).

(** One byte of a string in its spelling. *)
Definition put_byte (b : Z) (s : RenderSink) : RenderSink :=
  if b =? 34 then sink_put [92; 34] s
  else if b =? 92 then sink_put [92; 92] s
  else if (b <? 32) || (b =? 127) then
    sink_str ("\x" +:+ String (hex_digit (b / 16)) (String (hex_digit (b mod 16)) EmptyString)) s
  else sink_put [b] s.

Definition render_string (ptr len : Z) (s : RenderSink) : M RenderSink :=
  bs <- (if len =? 0 then ret [] else load_bytes ptr (Z.to_nat len));
  ret (sink_put [34] (foldl (λ s b, put_byte b s) (sink_put [34] s) bs)).

Section Elems.
Context (rec : GeasValue → RenderSink → M RenderSink).

Fixpoint elems_loop (data : Z) (n i : nat) (s : RenderSink) : M RenderSink :=
  match n with
  | O => ret s
  | S n' =>
      let s := if (i =? 0)%nat then s else sink_str ", " s in
      v <- load_slot data i;
      s <- rec v s;
      elems_loop data n' (S i) s
  end.
Definition render_elems (v : GeasValue) (opn cls : string) (s : RenderSink) : M RenderSink :=
  s <- elems_loop (l_data v) (Z.to_nat (l_len v)) 0 (sink_str opn s);
  ret (sink_str cls s).

(** [n] pairs from pair [i] on. *)
Fixpoint map_loop (data : Z) (n i : nat) (s : RenderSink) : M RenderSink :=
  match n with
  | O => ret s
  | S n' =>
      let s := if (i =? 0)%nat then s else sink_str ", " s in
      k <- load_slot data (2 * i);
      s <- rec k s;
      v <- load_slot data (2 * i + 1);
      s <- rec v (sink_str ": " s);
      map_loop data n' (S i) s
  end.
Definition render_map (v : GeasValue) (s : RenderSink) : M RenderSink :=
  s <- map_loop (l_data v) (Z.to_nat (l_len v / 2)) 0 (sink_str "{" s);
  ret (sink_str "}" s).

Definition render_box (v : GeasValue) (name : string) (s : RenderSink) : M RenderSink :=
  let s := sink_str "(" (sink_str name s) in
  s <- (if as_box v =? 0 then ret (sink_str "?" s) else b <- load_slot (as_box v) 0; rec b s);
  ret (sink_str ")" s).
End Elems.

Definition GEAS_RENDER_DEPTH : nat := 8.

(** [room] levels are left: the C depth is [GEAS_RENDER_DEPTH + 1 - room]. *)
Fixpoint render_value (room : nat) (v : GeasValue) (s : RenderSink) : M RenderSink :=
  match room with
  | O => ret (sink_str "..." s)
  | S room' =>
      match tag_of (ty v) with
      | Some GEAS_TY_UNIT => ret (sink_str "()" s)
      | Some GEAS_TY_INT => sink_fmt (dec_i64 (as_i v)) s
      | Some GEAS_TY_UINT => sink_fmt (dec_u64 (as_u v)) s
      | Some GEAS_TY_FLOAT => sink_fmt (libc_g (as_f v)) s
      | Some GEAS_TY_BOOL => ret (sink_str (if as_b v =? 0 then "false" else "true") s)
      | Some GEAS_TY_BYTE => sink_fmt (dec_str (as_b v)) s
      | Some GEAS_TY_CHAR => sink_fmt ("U+" +:+ hex4 (as_ch v)) s
      | Some GEAS_TY_STRING => render_string (s_ptr v) (s_len v) s
      | Some GEAS_TY_LIST => render_elems (render_value room') v "[" "]" s
      | Some GEAS_TY_TUPLE => render_elems (render_value room') v "(" ")" s
      | Some GEAS_TY_RECORD => render_elems (render_value room') v "{" "}" s
      | Some GEAS_TY_SUM =>
          s <- sink_fmt ("#" +:+ dec_str (tag v)) s;
          if l_len v =? 0 then ret s else render_elems (render_value room') v "(" ")" s
      | Some GEAS_TY_OPTION =>
          if tag v =? 0 then ret (sink_str "None" s) else render_box (render_value room') v "Some" s
      | Some GEAS_TY_RESULT =>
          render_box (render_value room') v (if tag v =? 0 then "Ok" else "Err") s
      | Some GEAS_TY_MAP => render_map (render_value room') v s
      | Some GEAS_TY_PLEDGE_REF => ret (sink_str "<pledge>" s)
      | Some GEAS_TY_INSTANCE => ret (sink_str "<instance>" s)
      | None => ret (sink_str "<?>" s)
      end
  end.

(** [v] and [need] are [None] and false for NULL; the status, [*need] and the
    bytes written with their NUL. *)
Definition geas_value_render (v : option GeasValue) (buf : bool) (cap : Z) (need : bool)
    : M (GeasStatus * option Z * option (list Z)) :=
  match v with
  | None => ret (GEAS_ERR_TYPE, None, None)
  | Some v =>
      if negb need then ret (GEAS_ERR_TYPE, None, None) else
      let cap := if buf then cap else 0 in
      s <- render_value (S GEAS_RENDER_DEPTH) v (Sink false 0 0 []);
      let n := u64 (k_pos s + 1) in
      if cap <? n then ret (GEAS_ERR_OOM, Some n, None) else
      s <- render_value (S GEAS_RENDER_DEPTH) v (Sink true cap 0 []);
      if negb (k_pos s <? cap) then undef else
      ret (GEAS_OK, Some n, Some (k_out s ++ [0]))
  end.
End Render.

(** ** The partial report as a value *)

Definition geas_state_name (s : GeasContractState) : string :=
  match s with
  | GEAS_UNSIGNED => "Unsigned" | GEAS_SIGNED => "Signed" | GEAS_FULFILLED => "Fulfilled"
  | GEAS_PARTIAL => "Partial" | GEAS_BROKEN => "Broken"
  end.

Section PartialValue.
(** Where a string of static storage lies: a state's name, a descriptor's. *)
Context (lit : string → Z).

Definition geas_state_value (ct : GeasContract) : GeasValue :=
  let n := geas_state_name (c_state ct) in g_string (lit n) (Z.of_nat (String.length n)).

(** The list's slots from [i] on; [found] are the names still to be copied. *)
Fixpoint names_loop (ct : GeasContract) (owner : Z) (k : GeasItemState) (data : Z) (n i : nat) : M GeasStatus :=
  match n with
  | O => ret GEAS_OK
  | S n' =>
      match (partial_scan ct k i).2 with
      | None => ret GEAS_ERR_NAME
      | Some name =>
          let len := Z.of_nat (String.length name) in
          s <- geas_string_copy owner (lit name) len;
          if (s_ptr s =? 0) && (s_len s =? 0) && negb (len =? 0) then ret GEAS_ERR_OOM else
          store_slot data i s;;;
          names_loop ct owner k data n' (S i)
      end
  end.

Definition partial_names_value (ct : GeasContract) (owner : Z) (k : GeasItemState) : M (GeasStatus * GeasValue) :=
  let n := (partial_scan ct k 0).1 in
  data <- (if (n =? 0)%nat then ret 0 else geas_bytes KVals owner (slot_bytes (Z.of_nat n)));
  if negb (n =? 0)%nat && (data =? 0) then ret (GEAS_ERR_OOM, gzero) else
  (if (n =? 0)%nat then ret tt else zero_slots data n);;;
  st <- names_loop ct owner k data n 0;
  if negb (st_ok st) then ret (st, gzero) else
  let l := Z.of_nat n in ret (GEAS_OK, g_seq GEAS_TY_LIST 0 data l l (tag_num GEAS_TY_STRING)).

(** The three item lists into the record's fields 1 to 3. *)
Fixpoint partial_fields (ct : GeasContract) (owner fields : Z) (ks : list GeasItemState) (i : nat) : M GeasStatus :=
  match ks with
  | [] => ret GEAS_OK
  | k :: ks' =>
      '(st, v) <- partial_names_value ct owner k;
      if negb (st_ok st) then ret st else
      store_slot fields i v;;; partial_fields ct owner fields ks' (S i)
  end.

Definition geas_partial_value (ct : GeasContract) (owner : Z) : M (GeasStatus * GeasValue) :=
  if owner =? 0 then ret (GEAS_ERR_TYPE, gzero) else
  fields <- geas_bytes KVals owner (4 * sizeof_GeasValue);
  if fields =? 0 then ret (GEAS_ERR_OOM, gzero) else
  zero_slots fields 4;;;
  store_slot fields 0 (geas_state_value ct);;;
  st <- partial_fields ct owner fields [GEAS_ITEM_FULFILLED; GEAS_ITEM_PENDING; GEAS_ITEM_BROKEN] 1;
  if negb (st_ok st) then ret (st, gzero) else
  ret (GEAS_OK, g_seq GEAS_TY_RECORD 0 fields 4 4 0).
End PartialValue.
