(* ===== verification/RowsSpec.v ===== *)
(** * What the driver builds and binds *)
From S2P Require Import Prelude Abi Memory Value ValueSpec Iname Store Future Lifecycle LifecycleSpec StoreSql Sqlite Driver Rows SignSpec.

(** ** Allocators *)

(** What an allocation hook promises over its owner's block list. *)
Definition alloc_ok (owner : Z) (alloc : GeasStoreAlloc) : Prop := ∀ k n m (Q : Z → mem → Prop),
  mem_wf m → live owner m → 0 <= n → sizeof_StoreScratchBlock + n <= U64_MAX →
  (∀ m', grown owner m {[brk m := fresh_block (lib m) k n]} m' → brk m ≠ 0 → Q (brk m) m') →
  (∀ m', grown owner m ∅ m' → refused m m' → Q 0 m') →
  wp (alloc k n) m Q.

Lemma instance_alloc c : alloc_ok c (instance_store_bytes c).
Proof.
  intros k n m Q Hwf Hl Hn Hmax Hok Hoom. unfold sizeof_StoreScratchBlock in Hmax.
  apply wp_geas_bytes; auto. unfold sizeof_GeasBlock. lia.
Qed.

(** The scratch block is the instance block with a longer header. *)
Lemma scratch_alloc s : alloc_ok s (scratch_store_bytes s).
Proof.
  intros k n m Q Hwf Hl Hn Hmax Hok Hoom. pose proof Hl as [Hs [bl Hbl]].
  unfold wp, scratch_store_bytes, sizeof_StoreScratchBlock in *. rewrite (proj2 (Z.ltb_ge _ _)) by lia.
  rewrite Hbl. destruct (lib_malloc (lib m) (ticks m) (32 + n)) eqn:E.
  - set (lm := CLib (λ _ _, true) (lib_junk_val (lib m)) (lib_junk_byte (lib m))).
    set (m1 := Mem (heap m) (owned m) (brk m) (ticks m) lm).
    assert (Hwf1 : mem_wf m1) by (destruct Hwf; by split).
    assert (G : ∃ m', geas_bytes k s n m1 = Ret (brk m) m' ∧
      grown s m1 {[brk m := fresh_block (lib m) k n]} m').
    { pose proof (wp_geas_bytes k s n m1 (λ p m', p = brk m ∧ grown s m1 {[brk m := fresh_block (lib m) k n]} m') Hwf1 Hl Hn) as W.
      assert (Hw : wp (geas_bytes k s n) m1 (λ p m', p = brk m ∧ grown s m1 {[brk m := fresh_block (lib m) k n]} m')).
      { apply W; [unfold sizeof_GeasBlock; lia|..].
        - intros m' G _. split; [done|]. exact G.
        - intros m' _ (? & ? & _ & Hf). done. }
      apply wp_run in Hw as (p & m' & Hr & -> & G). by exists m'. }
    destruct G as (m' & Hr & [W Hh Hf Hnew Hown Hlib Htk Hb]).
    unfold geas_bytes in Hr. rewrite (proj2 (Z.eqb_neq s 0)) in Hr by done. simpl in Hr.
    unfold sizeof_GeasBlock in Hr. rewrite u64_id in Hr by (z_norm; lia).
    rewrite (proj2 (Z.ltb_ge _ _)), Hbl in Hr by lia. injection Hr as <-.
    apply Hok; [|destruct Hwf; lia]. split; auto. by destruct W; split.
  - apply Hoom.
    + pose proof (grown_refl s m Hwf Hl) as []. split; simpl; auto. by destruct Hwf; split.
    + exists (ticks m), (32 + n). simpl. split; [lia|done].
Qed.

(** ** A row *)

Section ReadRow.
Context `{SQ : Sqlite}.
Context (owner : Z) (alloc : GeasStoreAlloc) (Hal : alloc_ok owner alloc).
Context (stmt : Z) (s : sq).

(** The value a column reads to at its declared type, and the row. *)
Definition cell_val (i : nat) (t : Z) : val :=
  match tag_of t with
  | Some GEAS_TY_STRING => VString 0 (sqlite3_column_blob stmt (i32 (Z.of_nat i)) s)
  | Some tg => VScalar tg 0 (read_scalar stmt (i32 (Z.of_nat i)) s tg)
  | None => VScalar GEAS_TY_UNIT 0 0
  end.
Definition row_cells (i : nat) (tys : list Z) : list val := imap (λ j t, cell_val (i + j) t) tys.
Definition row_val (tys : list Z) : val := VSeq GEAS_TY_RECORD 0 0 (row_cells 0 tys).

(** No column is past what [sqlite3_column_bytes] can count. *)
Definition blobs_ok : Prop := ∀ i, Z.of_nat (length (sqlite3_column_blob stmt i s)) <= INT_MAX.

Lemma row_cells_cons i t tys : row_cells i (t :: tys) = cell_val i t :: row_cells (S i) tys.
Proof.
  unfold row_cells. cbn [imap]. f_equal; [by rewrite Nat.add_0_r|].
  apply imap_ext. intros j x _. unfold compose. f_equal. lia.
Qed.
Lemma length_row_cells i tys : length (row_cells i tys) = length tys.
Proof. apply length_imap. Qed.

Lemma scalar_reads i tg : Driver.tag_scalar (tag_num tg) = true → tg ≠ GEAS_TY_STRING →
  repr ∅ (g_scalar tg (read_scalar stmt i s tg)) (VScalar tg 0 (read_scalar stmt i s tg)).
Proof.
  intros Ht Hn. unfold read_scalar. simpl. split_and!; try done; [by destruct tg|].
  destruct tg; try done; unfold scalar_arm, g_scalar, as_b, as_ch; simpl;
    first [apply u8_id; auto with geas|apply u32_id; auto with geas|done|idtac].
  destruct (_ =? 0); [done|by vm_compute].
Qed.

(** Rewriting a slot of the array under construction. *)
Lemma refill m fields ds hd m1 i d :
  grown owner m (<[fields := BVals ds]> hd) m1 → hd !! fields = None →
  grown owner m (<[fields := BVals (<[i := d]> ds)]> hd)
    (set_heap (λ h, <[fields := BVals (<[i := d]> ds)]> h) m1).
Proof.
  intros G Hn. eapply grown_update in G; [|apply lookup_insert_eq]. by rewrite insert_insert_eq in G.
Qed.

(** The array at [fields] in [m1], its first slots holding [prev]; the rest of the
    owner's new blocks are [hd]. *)
Record filling (m : mem) (fields : Z) (prev : list val) (n : nat) (m1 : mem) (hd : gmap Z block) (ds : list GeasValue) : Prop :=
  Filling {
    fi_grown : grown owner m (<[fields := BVals ds]> hd) m1;
    fi_new : hd !! fields = None;
    fi_length : length ds = n;
    fi_prev : reprs hd ds prev
  }.
Lemma filling_at m fields prev n m1 hd ds : filling m fields prev n m1 hd ds → heap m1 !! fields = Some (BVals ds).
Proof. intros [G _ _ _]. eapply lookup_weaken; [|eapply grown_incl_new; eauto]. apply lookup_insert_eq. Qed.
Lemma filling_refill m fields prev n m1 hd ds d : filling m fields prev n m1 hd ds →
  filling m fields prev n (set_heap (λ h, <[fields := BVals (<[length prev := d]> ds)]> h) m1) hd (<[length prev := d]> ds).
Proof.
  intros [G Hn Hl Hr]. split; [by apply refill|done|by rewrite length_insert|]. intros j x Hj.
  destruct (Hr j x Hj) as (v & Hv & Hx). exists v. split; [|done]. rewrite list_lookup_insert_ne; [done|].
  apply lookup_lt_Some in Hj. lia.
Qed.

(** What reading the fields from one on leaves. *)
Definition fields_read (m : mem) (fields : Z) (n : nat) (all : list val) (st : GeasStatus) (m2 : mem) : Prop :=
  ∃ hd ds, grown owner m (<[fields := BVals ds]> hd) m2 ∧ hd !! fields = None ∧ length ds = n ∧
    (st = GEAS_OK ∧ reprs hd ds all ∨ st = GEAS_ERR_OOM ∧ refused m m2).
Definition reads (m : mem) (fields : Z) (n : nat) (tys : list Z) (i : nat) : Prop :=
  ∀ m1 hd ds prev, filling m fields prev n m1 hd ds → length prev = i → (i + length tys)%nat = n →
  wp (read_fields alloc stmt s fields tys i) m1 (fields_read m fields n (prev ++ row_cells i tys)).

Lemma reads_next m fields n tys i m1 hd ds prev v : reads m fields n tys (S i) → filling m fields (prev ++ [v]) n m1 hd ds →
  length prev = i → (S i + length tys)%nat = n →
  wp (read_fields alloc stmt s fields tys (S i)) m1 (fields_read m fields n (prev ++ v :: row_cells (S i) tys)).
Proof.
  intros IH F Hi Hn. rewrite (cons_middle v prev), (app_assoc prev). eapply IH; [exact F| |exact Hn].
  rewrite length_app. simpl. lia.
Qed.

Lemma reads_scalar m fields n tys i m1 hd ds prev tg : reads m fields n tys (S i) → filling m fields prev n m1 hd ds →
  length prev = i → (S i + length tys)%nat = n → Driver.tag_scalar (tag_num tg) = true → tg ≠ GEAS_TY_STRING →
  wp (store_slot fields i (g_scalar tg (read_scalar stmt (i32 (Z.of_nat i)) s tg));;;
      read_fields alloc stmt s fields tys (S i)) m1
    (fields_read m fields n (prev ++ cell_val i (tag_num tg) :: row_cells (S i) tys)).
Proof.
  intros IH F Hi Hn Ht Hne. apply wp_bind. eapply wp_store_slot; [by eapply filling_at|rewrite (fi_length _ _ _ _ _ _ _ F); lia|].
  subst i. pose proof (filling_refill _ _ _ _ _ _ _ (g_scalar tg (read_scalar stmt (i32 (Z.of_nat (length prev))) s tg)) F) as [G1 N1 L1 _].
  assert (Ec : cell_val (length prev) (tag_num tg) = VScalar tg 0 (read_scalar stmt (i32 (Z.of_nat (length prev))) s tg)).
  { unfold cell_val. rewrite tag_of_num. by destruct tg. }
  eapply reads_next; [exact IH|split; [exact G1|exact N1|exact L1|]|done|done].
  rewrite Ec. apply reprs_snoc; [apply F|rewrite (fi_length _ _ _ _ _ _ _ F); lia|].
  eapply repr_mono; [apply map_empty_subseteq|]. by apply scalar_reads.
Qed.

(** A text column: its bytes go to a block of their own. *)
Lemma reads_text m fields n tys i m1 hd ds prev : live owner m → blobs_ok → reads m fields n tys (S i) →
  filling m fields prev n m1 hd ds → length prev = i → (S i + length tys)%nat = n →
  wp (read_fields alloc stmt s fields (tag_num GEAS_TY_STRING :: tys) i) m1
    (fields_read m fields n (prev ++ cell_val i (tag_num GEAS_TY_STRING) :: row_cells (S i) tys)).
Proof.
  intros Hl Hb IH F Hi Hn. cbn [read_fields]. change (tag_of (tag_num GEAS_TY_STRING)) with (Some GEAS_TY_STRING).
  change (cell_val i (tag_num GEAS_TY_STRING)) with (VString 0 (sqlite3_column_blob stmt (i32 (Z.of_nat i)) s)).
  pose proof (Hb (i32 (Z.of_nat i))) as Hbl. unfold INT_MAX in Hbl. cbv iota zeta.
  generalize dependent (sqlite3_column_blob stmt (i32 (Z.of_nat i)) s). intros bs Hbl. subst i.
  apply wp_bind. eapply wp_store_slot; [by eapply filling_at|rewrite (fi_length _ _ _ _ _ _ _ F); lia|].
  apply (filling_refill _ _ _ _ _ _ _ (g_string 0 0)) in F. set (m1' := set_heap _ m1) in *. set (ds1 := <[_ := _]> ds) in *.
  pose proof F as [G1 Hn1 Hl1 Hr1]. destruct (decide (bs = [])) as [->|Hbn].
  - simpl. apply wp_bind, wp_ret, wp_bind, wp_ret, wp_bind. eapply wp_store_slot; [by eapply filling_at|lia|].
    pose proof (filling_refill _ _ _ _ _ _ _ (g_string 0 0) F) as [G2 N2 L2 _].
    eapply reads_next; [exact IH|split; [exact G2|exact N2|exact L2|]|done|done].
    apply reprs_snoc; [done|lia|]. simpl. split_and!; auto.
  - assert (Hpos : 0 < Z.of_nat (length bs)) by (destruct bs; simpl; [done|lia]).
    rewrite (proj2 (Z.ltb_lt _ _)) by done. apply wp_bind.
    apply Hal; [by eapply gr_wf|by eapply grown_live|lia|unfold sizeof_StoreScratchBlock; lia|..].
    + intros m2 G2 Hp. rewrite (proj2 (Z.eqb_neq (brk m1') 0)) by done. cbn [andb].
      set (p := brk m1') in *. set (raw := replicate (Z.to_nat (Z.of_nat (length bs))) (lib_junk_byte (lib m1'))).
      change (fresh_block (lib m1') KBytes (Z.of_nat (length bs))) with (BBytes raw) in G2.
      apply wp_bind. eapply wp_store_bytes.
      { eapply lookup_weaken; [|by eapply grown_incl_new]. apply lookup_singleton_eq. }
      { unfold raw. rewrite length_replicate, Nat2Z.id. lia. }
      pose proof (grown_update _ _ _ _ p _ (BBytes (list_inserts 0 bs raw)) G2 (lookup_singleton_eq _ _)) as G3.
      rewrite insert_singleton_eq in G3. set (m3 := set_heap _ m2) in *. apply wp_bind.
      destruct (fill_grown _ _ _ _ _ _ _ _ (length prev) (g_string p (Z.of_nat (length bs))) G1 Hn1 G3) as [G4 Hn4].
      eapply wp_store_slot; [eapply lookup_weaken; [by eapply filling_at|by eapply grown_incl]|lia|].
      eapply reads_next; [exact IH|split; [exact G4|exact Hn4|by rewrite length_insert|]|done|done].
      eapply fill_reprs; [exact G1|done|exact G3|done|lia|].
      simpl. split_and!; try done; [unfold fits_bytes, sizeof_GeasBlock; lia|]. right.
      split; [done|]. exists (list_inserts 0 bs raw). rewrite lookup_singleton_eq. split; [done|].
      apply list_inserts_take_eq. unfold raw. by rewrite length_replicate, Nat2Z.id.
    + intros m2 G2 Href. rewrite Z.eqb_refl. cbn [andb]. apply wp_ret. exists hd, ds1. split_and!; try done.
      * pose proof (grown_trans _ _ _ _ _ _ G1 G2) as G3. by rewrite map_empty_union in G3.
      * right. split; [done|]. destruct (refused_trans_r _ _ _ _ _ G1 Href) as (k & z & ? & ?). by exists k, z.
Qed.

Lemma wp_read_fields m fields n (Hl : live owner m) (Hb : blobs_ok) tys :
  ∀ i, forallb Driver.tag_scalar tys = true → reads m fields n tys i.
Proof.
  induction tys as [|t tys IH]; intros i Ht m1 hd ds prev F Hi Hn.
  { apply wp_ret. exists hd, ds. rewrite app_nil_r. destruct F. split_and!; [done..|]. by left. }
  apply andb_true_iff in Ht as [Ht Hts]. cbn [length] in Hn. rewrite row_cells_cons.
  destruct (tag_of t) as [tg|] eqn:Etg; [|by unfold Driver.tag_scalar in Ht; rewrite Etg in Ht].
  pose proof (tag_of_Some _ _ Etg) as ->. destruct (decide (tg = GEAS_TY_STRING)) as [->|Hne].
  - eapply reads_text; eauto; lia.
  - cbn [read_fields]. rewrite Etg, Ht. cbn [negb].
    assert (W := reads_scalar m fields n tys i m1 hd ds prev tg (IH (S i) Hts) F Hi ltac:(lia) Ht Hne). by destruct tg.
Qed.

(** A row reads to its record, in new blocks of the owner, or memory ran out. *)
Lemma wp_read_row m tys : mem_wf m → live owner m → blobs_ok → forallb Driver.tag_scalar tys = true →
  Z.of_nat (length tys) <= INT_MAX →
  wp (read_row alloc stmt s tys) m (λ '(st, rec) m', ∃ hn, grown owner m hn m' ∧
    (st = GEAS_OK ∧ (∃ r, rec = Some r ∧ repr hn r (row_val tys)) ∨
     st = GEAS_ERR_OOM ∧ rec = None ∧ refused m m')).
Proof.
  intros Hwf Hl Hb Ht Hn. unfold INT_MAX in Hn. unfold read_row, row_val.
  pose proof (slot_bytes_fits (length tys)) as Hsb. unfold fits_slots, sizeof_GeasBlock, sizeof_GeasValue in Hsb.
  specialize (Hsb ltac:(lia)) as [Hsb _]. rewrite Hsb. apply wp_bind.
  assert (Hfin : ∀ fields hd ds, (tys = [] ∨ fields ≠ 0) → reprs hd ds (row_cells 0 tys) → hd !! fields = None →
    repr (<[fields := BVals ds]> hd) (g_seq GEAS_TY_RECORD 0 fields (Z.of_nat (length tys)) (Z.of_nat (length tys)) 0)
      (VSeq GEAS_TY_RECORD 0 0 (row_cells 0 tys))).
  { intros fields hd ds Hf Hr Hnf. apply repr_seq. rewrite length_row_cells. split_and!; try done.
    { unfold fits_slots, sizeof_GeasBlock, sizeof_GeasValue. lia. }
    destruct tys as [|t tys']; [by left|right]. destruct Hf as [?|Hf]; [done|]. split; [done|]. exists ds.
    simpl. rewrite lookup_insert_eq. split; [done|]. eapply reprs_mono; [by apply insert_subseteq|done]. }
  destruct (Z.eqb_spec (Z.of_nat (length tys)) 0) as [E0|Hne].
  { destruct tys; [|done]. apply wp_ret. simpl. apply wp_bind, wp_ret, wp_bind, wp_ret, wp_ret.
    exists ∅. split; [by apply grown_refl|]. left. split; [done|]. eexists. split; [done|].
    simpl. split_and!; try done. by left. }
  apply Hal; [done|done|lia|unfold sizeof_StoreScratchBlock; lia|..].
  - intros m1 G Hp. rewrite (proj2 (Z.eqb_neq _ 0)) by done. cbn [negb andb]. set (fields := brk m) in *.
    set (blk := fresh_block _ _ _) in G.
    assert (Ek : blk = BVals (replicate (length tys) (lib_junk_val (lib m)))).
    { unfold blk, fresh_block, sizeof_GeasValue. by rewrite Z.div_mul, Nat2Z.id. }
    apply wp_bind. eapply wp_zero_slots.
    { eapply lookup_weaken; [|by eapply grown_incl_new]. rewrite Ek. apply lookup_singleton_eq. }
    { by rewrite length_replicate. }
    rewrite drop_ge, app_nil_r by (by rewrite length_replicate).
    eapply (grown_update _ _ _ _ _ _ (BVals (replicate (length tys) gzero))) in G; [|apply lookup_singleton_eq].
    rewrite insert_singleton_eq in G. apply wp_bind. eapply wp_mono.
    { eapply (wp_read_fields m fields (length tys) Hl Hb tys 0 Ht _ ∅ _ []); [|done..].
      split; [exact G|apply lookup_empty|by rewrite length_replicate|apply reprs_nil]. }
    intros st m2 (hd & ds & G2 & Hnf & _ & [[-> Hr]|[-> Href]]); simpl; apply wp_ret; (eexists; split; [exact G2|]).
    + left. split; [done|]. eexists. split; [done|]. apply Hfin; auto.
    + by right.
  - intros m1 G Href. simpl. apply wp_ret. exists ∅. split; [done|]. by right.
Qed.
End ReadRow.

(** ** A query *)

Section Query.
Context `{SQ : Sqlite}.
Context (w : world).

(** The world with another memory and another library state. *)
Definition at_ms (m : mem) (s : sq) : world := set_ws (s : sstate) (set_wm m w).

Lemma wwp_get_sq m s (Q : sq → world → Prop) : Q s (at_ms m s) → wwp get_sq (at_ms m s) Q.
Proof. done. Qed.
Lemma wwp_in_sq {A} (f : sq → A * sq) m s a s' (Q : A → world → Prop) :
  f s = (a, s') → Q a (at_ms m s') → wwp (in_sq f) (at_ms m s) Q.
Proof. intros E H. unfold wwp, in_sq, in_store. simpl. by rewrite E. Qed.
Lemma wwp_on_sq (f : sq → sq) m s (Q : unit → world → Prop) :
  Q tt (at_ms m (f s)) → wwp (on_sq f) (at_ms m s) Q.
Proof. intros H. by eapply wwp_in_sq. Qed.
Lemma wwp_ms {A} (e : M A) m s (Q : A → world → Prop) :
  wp e m (λ a m', Q a (at_ms m' s)) → wwp (in_mem e) (at_ms m s) Q.
Proof. intros H. by apply wwp_in_mem. Qed.

(** [cursor stmt s rs s']: stepping from [s] visits the rows that the states [rs]
    show and ends, done, in [s']. *)
Inductive cursor (stmt : Z) : sq → list sq → sq → Prop :=
  | cursor_done s s' : sqlite3_step stmt s = (SQLITE_DONE, s') → cursor stmt s [] s'
  | cursor_row s s1 rs s' : sqlite3_step stmt s = (SQLITE_ROW, s1) →
      cursor stmt s1 rs s' → cursor stmt s (s1 :: rs) s'.

Lemma wwp_step_all stmt m s rs s' : cursor stmt s rs s' → ∀ fuel n,
  (length rs < fuel)%nat → 0 <= n → n + Z.of_nat (length rs) <= U64_MAX →
  wwp (step_all fuel stmt n) (at_ms m s) (λ r w', r = (SQLITE_DONE, n + Z.of_nat (length rs)) ∧ w' = at_ms m s').
Proof.
  induction 1 as [s s' E|s s1 rs s' E _ IH]; intros fuel n Hf Hn Hmax; (destruct fuel as [|fuel]; [lia|]);
    simpl in *; apply wwp_bind; (eapply wwp_in_sq; [exact E|]).
  - apply wwp_ret. split; [f_equal; lia|done].
  - rewrite u64_id by (z_norm; lia). eapply wwp_mono; [apply IH; lia|].
    intros r w' [-> ->]. split; [f_equal; lia|done].
Qed.

(** What binding a value stores, and binding them in order. *)
Definition sq_of_val (t : val) : option sqval :=
  match t with
  | VScalar GEAS_TY_INT _ x | VScalar GEAS_TY_UINT _ x => Some (SInt (i64 x))
  | VScalar GEAS_TY_FLOAT _ x => Some (SReal x)
  | VScalar GEAS_TY_BOOL _ x | VScalar GEAS_TY_BYTE _ x | VScalar GEAS_TY_CHAR _ x => Some (SInt x)
  | VString _ bs => Some (SBlob bs)
  | _ => None
  end.
Fixpoint bind_vals (stmt idx : Z) (ts : list val) (s : sq) : GeasStatus * sq :=
  match ts with
  | [] => (GEAS_OK, s)
  | t :: ts' =>
      match sq_of_val t with
      | None => (GEAS_ERR_TYPE, s)
      | Some x =>
          let '(ok, s') := sqlite3_bind stmt idx x s in
          if ok then bind_vals stmt (i32 (idx + 1)) ts' s' else (GEAS_ERR_STORE, s')
      end
  end.

(** A parameter's bytes fit the [int] they are counted in. *)
Definition int_bytes (t : val) : Prop := match t with VString _ bs => Z.of_nat (length bs) <= INT_MAX | _ => True end.

Lemma wwp_bind_one m s stmt idx v t : repr (heap m) v t → int_bytes t →
  wwp (bind_one stmt idx v) (at_ms m s) (λ st w', ∃ s', w' = at_ms m s' ∧
    match sq_of_val t with
    | None => st = GEAS_ERR_TYPE ∧ s' = s
    | Some x => sqlite3_bind stmt idx x s = (st_ok st, s') ∧ (st = GEAS_OK ∨ st = GEAS_ERR_STORE)
    end).
Proof.
  intros Hr Hi. unfold bind_one. rewrite (repr_ty _ _ _ Hr), tag_of_num.
  assert (Hput : ∀ x, wwp (ok ← in_sq (sqlite3_bind stmt idx x); mret (sq_status ok)) (at_ms m s) (λ st w', ∃ s', w' = at_ms m s' ∧
    (sqlite3_bind stmt idx x s = (st_ok st, s') ∧ (st = GEAS_OK ∨ st = GEAS_ERR_STORE)))).
  { intros x. apply wwp_bind. destruct (sqlite3_bind stmt idx x s) as [ok s'] eqn:E.
    eapply wwp_in_sq; [exact E|]. apply wwp_ret. exists s'. destruct ok; auto. }
  destruct t as [k tg x|tg bs|k tg e els|k tg b].
  - simpl in Hr. destruct Hr as (_ & Hk & _ & <-).
    destruct k; try done; try apply Hput; by apply wwp_ret; exists s.
  - destruct Hr as (_ & _ & Hlen & _ & Hp). simpl in *. rewrite Hlen. unfold INT_MAX in Hi.
    destruct (Z.eqb_spec (Z.of_nat (length bs)) 0) as [E|E].
    { destruct bs; [|done]. apply Hput. }
    assert (E32 : i32 (Z.of_nat (length bs)) = Z.of_nat (length bs)).
    { unfold i32. rewrite u32_id by (z_norm; lia). by rewrite (proj2 (Z.ltb_lt _ _)) by lia. }
    rewrite E32, (proj2 (Z.ltb_ge _ _)), (proj2 (Z.eqb_neq _ _)), Nat2Z.id by lia. apply wwp_bind, wwp_ms.
    destruct Hp as [->|(_ & raw & Hraw & Ht)]; [done|].
    assert (length bs ≤ length raw)%nat by (rewrite <- Ht, length_take; lia).
    eapply wp_load_bytes; [exact Hraw|done|]. rewrite Ht. apply Hput.
  - apply repr_seq in Hr as (_ & Hk & _). destruct k; try done; by apply wwp_ret; exists s.
  - destruct Hr as (_ & Hk & _). destruct k; try done; by apply wwp_ret; exists s.
Qed.

Lemma wwp_bind_all m stmt vs ts : Forall2 (repr (heap m)) vs ts → Forall int_bytes ts → ∀ s idx,
  wwp (bind_all stmt idx vs) (at_ms m s) (λ st w', ∃ s', w' = at_ms m s' ∧ bind_vals stmt idx ts s = (st, s')).
Proof.
  induction 1 as [|v t vs ts Hr _ IH]; intros Hi s idx; cbn [bind_all bind_vals].
  { apply wwp_ret. by exists s. }
  apply Forall_cons in Hi as [Ht Hts]. apply wwp_bind. eapply wwp_mono; [by apply wwp_bind_one|].
  intros st w' (s1 & -> & Hs). destruct (sq_of_val t) as [x|].
  - destruct Hs as [E [->| ->]]; rewrite E; simpl; [by apply IH|]. apply wwp_ret. by exists s1.
  - destruct Hs as [-> ->]. apply wwp_ret. by exists s.
Qed.

(** ** The second pass *)

Section Fill.
Context (owner : Z) (alloc : GeasStoreAlloc) (Hal : alloc_ok owner alloc).
Context (stmt : Z) (tys : list Z) (Ht : forallb Driver.tag_scalar tys = true)
        (Hcols : Z.of_nat (length tys) <= INT_MAX).

Lemma wwp_read_rows m backbone (Hl : live owner m) s rs s' : cursor stmt s rs s' → Forall (blobs_ok stmt) rs →
  ∀ j m1 hd ds prev, grown owner m (<[backbone := BVals ds]> hd) m1 → hd !! backbone = None →
  length prev = j → (j + length rs)%nat = length ds → reprs hd ds prev →
  wwp (read_rows alloc stmt tys backbone (length rs) j) (at_ms m1 s) (λ '(st, rc) w2, ∃ m2 s2 hd' ds',
    w2 = at_ms m2 s2 ∧ grown owner m (<[backbone := BVals ds']> hd') m2 ∧ hd' !! backbone = None ∧
    length ds' = length ds ∧
    (st = GEAS_OK ∧ rc = SQLITE_DONE ∧ s2 = s' ∧
       reprs hd' ds' (prev ++ map (λ r, row_val stmt r tys) rs) ∨
     st = GEAS_ERR_OOM ∧ refused m m2)).
Proof.
  induction 1 as [s s' E|s s1 rs s' E _ IH]; intros Hb j m1 hd ds prev G Hn Hj Hlen Hr;
    cbn [length read_rows map]; apply wwp_bind; (eapply wwp_in_sq; [exact E|]).
  { apply wwp_ret. exists m1, s', hd, ds. split_and!; try done. left. by rewrite app_nil_r. }
  apply Forall_cons in Hb as [Hb0 Hb]. cbn [length] in Hlen.
  apply wwp_bind, wwp_get_sq, wwp_bind, wwp_ms.
  pose proof (gr_wf _ _ _ _ G) as Hwf1. pose proof (grown_live _ _ _ _ G Hl) as Hl1.
  eapply wp_mono; [by apply (wp_read_row owner)|].
  intros [st rec] m2 (h2 & G2 & [(-> & r & -> & Hrep)|(-> & -> & Href)]).
  - destruct (fill_grown _ _ _ _ _ _ _ _ j r G Hn G2) as [G3 Hn3]. apply wwp_bind, wwp_ms.
    eapply wp_store_slot.
    { eapply lookup_weaken; [|by eapply grown_incl]. eapply lookup_weaken; [|by eapply grown_incl_new].
      apply lookup_insert_eq. }
    { lia. }
    eapply wwp_mono.
    { eapply (IH Hb (S j) _ (h2 ∪ hd) _ (prev ++ [row_val stmt s1 tys])); [exact G3|done|..].
      - rewrite length_app. simpl. lia.
      - rewrite length_insert. lia.
      - rewrite <- Hj. eapply fill_reprs; [exact G|done|exact G2|done|lia|done]. }
    intros [st rc] w2 (m3 & s3 & hd' & ds' & -> & G4 & Hn4 & Hl4 & Hres).
    exists m3, s3, hd', ds'. split_and!; try done.
    { rewrite Hl4, length_insert. done. }
    by rewrite <- (app_assoc prev) in Hres.
  - apply wwp_ret. exists m2, s1, (h2 ∪ hd), ds.
    pose proof (grown_trans _ _ _ _ _ _ G G2) as G3.
    assert (Hd2 : h2 !! backbone = None).
    { eapply map_disjoint_Some_r; [exact (gr_fresh _ _ _ _ G2)|].
      eapply lookup_weaken; [|by eapply grown_incl_new]. apply lookup_insert_eq. }
    rewrite <- insert_union_r in G3 by done.
    split_and!; try done; [by apply lookup_union_None|]. right. split; [done|].
    destruct (refused_trans_r _ _ _ _ _ G Href) as (n & z & ? & ?). exists n, z. by split.
Qed.

(** The query's value: a list of its rows. *)
Definition rows_val (rs : list sq) : val :=
  VSeq GEAS_TY_LIST 0 (tag_num GEAS_TY_RECORD) (map (λ r, row_val stmt r tys) rs).

Lemma repr_rows backbone hd ds rs :
  fits_slots (length rs) → (rs = [] ∨ backbone ≠ 0) → hd !! backbone = None →
  reprs hd ds (map (λ r, row_val stmt r tys) rs) →
  repr (<[backbone := BVals ds]> hd)
    (g_seq GEAS_TY_LIST 0 backbone (Z.of_nat (length rs)) (Z.of_nat (length rs)) (tag_num GEAS_TY_RECORD)) (rows_val rs).
Proof.
  intros Hf Hd Hn Hr. apply repr_seq. rewrite length_map. split_and!; try done.
  destruct Hd as [->|Hd]; [by left|]. right. split; [done|]. exists ds. simpl. rewrite lookup_insert_eq.
  split; [done|]. eapply reprs_mono; [by apply insert_subseteq|done].
Qed.
End Fill.

(** The library's side of a query that goes through: the statement is prepared
    with as many columns as types and as many parameters as arguments, they are
    bound, the first walk visits [rs], the reset succeeds and the second visits [rs']. *)
Record query_runs (h : Z) (sql : string) (tys : list Z) (ts : list val) (s0 : sq)
    (stmt : Z) (rs rs' : list sq) (s5 : sq) : Prop := QueryRuns {
  qr_h : h ≠ 0;
  qr_tys : forallb Driver.tag_scalar tys = true;
  qr_stmt : stmt ≠ 0;
  qr_run : ∃ s1 s2 s3 s4, sqlite3_prepare_v2 h sql s0 = (true, stmt, s1) ∧
    u64 (sqlite3_column_count stmt s1) = Z.of_nat (length tys) ∧
    sqlite3_bind_parameter_count stmt s1 = i32 (Z.of_nat (length ts)) ∧
    bind_vals stmt 1 ts s1 = (GEAS_OK, s2) ∧
    cursor stmt s2 rs s3 ∧ sqlite3_reset stmt s3 = (true, s4) ∧ cursor stmt s4 rs' s5;
  qr_len : length rs' = length rs
}.

Lemma wwp_prepare h sql m s0 s1 stmt (Q : option Z → world → Prop) :
  sqlite3_prepare_v2 h sql s0 = (true, stmt, s1) → stmt ≠ 0 → Q (Some stmt) (at_ms m s1) →
  wwp (prepare h sql) (at_ms m s0) Q.
Proof.
  intros E Hs H. apply wwp_bind. eapply wwp_in_sq; [exact E|]. simpl.
  by rewrite (proj2 (Z.eqb_neq _ _)) by done.
Qed.

Lemma wwp_bind_params m stmt vs ts s1 s2 (Q : GeasStatus → world → Prop) :
  Forall2 (repr (heap m)) vs ts → Forall int_bytes ts →
  sqlite3_bind_parameter_count stmt s1 = i32 (Z.of_nat (length ts)) →
  bind_vals stmt 1 ts s1 = (GEAS_OK, s2) → Q GEAS_OK (at_ms m s2) →
  wwp (bind_params stmt vs) (at_ms m s1) Q.
Proof.
  intros Hr Hi Hc Hb H. apply wwp_bind, wwp_get_sq. rewrite Hc, (Forall2_length _ _ _ Hr), Z.eqb_refl. simpl.
  eapply wwp_mono; [by apply wwp_bind_all|]. intros st w' (s' & -> & E). rewrite Hb in E. by injection E as <- <-.
Qed.

(** What the query leaves: its rows in new blocks of the owner, or nothing but the
    blocks it got before memory ran out; the statement is finalized either way. *)
Definition query_post (owner : Z) (m : mem) (stmt : Z) (tys : list Z) (rs : list sq) (s' : sq)
    (r : GeasStatus * GeasValue) (w' : world) : Prop :=
  ∃ m' s hn, w' = at_ms m' (sqlite3_finalize stmt s) ∧ grown owner m hn m' ∧
    (r.1 = GEAS_OK ∧ s = s' ∧ repr hn r.2 (rows_val stmt tys rs) ∨
     r = (GEAS_ERR_OOM, gzero) ∧ refused m m').

Lemma wwp_query_drop owner m stmt tys rs s' m1 s hn : grown owner m hn m1 → refused m m1 →
  wwp (query_drop stmt GEAS_ERR_OOM) (at_ms m1 s) (query_post owner m stmt tys rs s').
Proof.
  intros G Href. apply wwp_bind, wwp_on_sq, wwp_ret. do 3 eexists. split; [done|]. split; [exact G|]. by right.
Qed.

Lemma wwp_query_rows owner alloc stmt tys m s rs s' :
  alloc_ok owner alloc → mem_wf m → live owner m → forallb Driver.tag_scalar tys = true →
  Z.of_nat (length tys) <= INT_MAX → cursor stmt s rs s' → Forall (blobs_ok stmt) rs →
  sizeof_StoreScratchBlock + Z.of_nat (length rs) * sizeof_GeasValue <= U64_MAX →
  wwp (query_rows alloc stmt tys (Z.of_nat (length rs))) (at_ms m s) (query_post owner m stmt tys rs s').
Proof.
  intros Hal Hwf Hl Ht Hcols C Hblob Hsz. unfold sizeof_StoreScratchBlock, sizeof_GeasValue in Hsz.
  assert (Hfits : fits_slots (length rs)) by (unfold fits_slots, sizeof_GeasBlock, sizeof_GeasValue; lia).
  apply wwp_bind, wwp_ms. destruct (Z.eqb_spec (Z.of_nat (length rs)) 0) as [E0|E0].
  { destruct rs; [|done]. inversion C as [? ? E|]; subst. apply wp_ret. simpl.
    apply wwp_bind, wwp_ms, wp_ret, wwp_bind, wwp_bind. eapply wwp_in_sq; [exact E|]. apply wwp_ret. simpl.
    apply wwp_bind, wwp_on_sq, wwp_ret. do 3 eexists. split; [done|]. split; [by apply grown_refl|]. left.
    split; [done|]. split; [done|]. simpl. split_and!; try done. by left. }
  destruct (slot_bytes_fits _ Hfits) as [Hsb _]. rewrite Hsb.
  apply Hal; [done|done|lia|unfold sizeof_StoreScratchBlock, sizeof_GeasValue; lia|..].
  2: { intros m1 G Href. simpl. by eapply wwp_query_drop. }
  intros m1 G Hp. rewrite (proj2 (Z.eqb_neq (brk m) 0)) by done. cbn [negb andb]. set (backbone := brk m) in *.
  assert (Ek : fresh_block (lib m) KVals (Z.of_nat (length rs) * 40) = BVals (replicate (length rs) (lib_junk_val (lib m)))).
  { unfold fresh_block, sizeof_GeasValue. by rewrite Z.div_mul, Nat2Z.id. }
  unfold sizeof_GeasValue in G. rewrite Ek in G. apply wwp_bind, wwp_ms. rewrite Nat2Z.id. eapply wp_zero_slots.
  { eapply lookup_weaken; [|by eapply grown_incl_new]. apply lookup_singleton_eq. }
  { by rewrite length_replicate. }
  rewrite drop_ge, app_nil_r by (by rewrite length_replicate).
  eapply (grown_update _ _ _ _ _ _ (BVals (replicate (length rs) gzero))) in G; [|apply lookup_singleton_eq].
  rewrite insert_singleton_eq in G. apply wwp_bind. eapply wwp_mono.
  { eapply (wwp_read_rows owner alloc Hal stmt tys Ht Hcols m backbone Hl _ _ _ C Hblob 0 _ ∅ _ []);
      [exact G|apply lookup_empty|done|by rewrite length_replicate|apply reprs_nil]. }
  intros [st rc] w2 (m2 & sx & hd & ds & -> & G2 & Hn & _ & [(-> & -> & -> & Hrr)|(-> & Href)]); simpl.
  - apply wwp_bind, wwp_on_sq, wwp_ret. do 3 eexists. split; [done|]. split; [exact G2|]. left.
    split; [done|]. split; [done|]. apply repr_rows; auto.
  - by eapply wwp_query_drop.
Qed.

Lemma wwp_query owner alloc fuel h sql vs ts tys m s0 stmt rs rs' s5 :
  alloc_ok owner alloc → mem_wf m → live owner m →
  Forall2 (repr (heap m)) vs ts → Forall int_bytes ts → Z.of_nat (length tys) <= INT_MAX →
  query_runs h sql tys ts s0 stmt rs rs' s5 → Forall (blobs_ok stmt) rs' →
  (length rs < fuel)%nat → sizeof_StoreScratchBlock + Z.of_nat (length rs) * sizeof_GeasValue <= U64_MAX →
  wwp (geas_store_query fuel h sql vs tys alloc) (at_ms m s0) (query_post owner m stmt tys rs' s5).
Proof.
  intros Hal Hwf Hl Hr Hi Hcols [Hh Ht Hs (s1 & s2 & s3 & s4 & E1 & Ec & Ep & Eb & C1 & Er & C2) Hlen] Hblob Hf Hsz.
  unfold geas_store_query. rewrite (proj2 (Z.eqb_neq _ _)), Ht by done.
  apply wwp_bind. eapply wwp_prepare; [exact E1|done|].
  apply wwp_bind, wwp_get_sq. rewrite Ec, Z.eqb_refl. apply wwp_bind. eapply wwp_bind_params; eauto.
  apply wwp_bind. unfold sizeof_StoreScratchBlock, sizeof_GeasValue in Hsz.
  eapply wwp_mono; [eapply wwp_step_all; [exact C1|done|lia|lia]|].
  intros r w' [-> ->]. rewrite Z.add_0_l, bool_decide_false by (intros []; done).
  apply wwp_bind. eapply wwp_in_sq; [exact Er|]. cbn [negb]. rewrite <- Hlen in *. by apply wwp_query_rows.
Qed.
End Query.
