(* ===== verification/SqliteTxn.v ===== *)
(** * The driver implements the store interface

    What SQLite documents of transactions, as laws over the library's calls
    ([SqliteTxn]); under them [store.c]'s connection calls satisfy the laws the
    contract lifecycle is proved against, and the driver's statement over heap
    values acts on the library as the interface's statement over words. *)
From S2P Require Import Prelude Abi Memory Value ValueSpec ValueProps Iname Store Future Lifecycle LifecycleSpec SignSpec StoreSql StoreSqlSpec Sqlite Driver Rows RowsSpec.

(** The statements the surface runs, all of which read or write rows. *)
Definition row_sql (sql : string) : Prop := ∃ q s, sql = sql_text q s.

(** What another connection would read, which connections have a transaction open
    and what each reads inside its own, and the connection and text a statement was
    prepared from.  A step that fails may have rolled the transaction back. *)
Class SqliteTxn `{SQ : Sqlite} := {
  content : Type;
  committed : sq → content;
  open_txn : sq → Z → bool;
  view : sq → Z → content;
  prepared : sq → Z → option (Z * string);
  begin_opens h s s' : sqlite3_exec h "BEGIN" s = (true, s') →
    open_txn s h = false ∧ open_txn s' h = true ∧ committed s' = committed s ∧ view s' h = committed s;
  begin_fails h s s' : sqlite3_exec h "BEGIN" s = (false, s') → committed s' = committed s;
  commit_publishes h s s' : sqlite3_exec h "COMMIT" s = (true, s') → open_txn s h = true →
    committed s' = view s h ∧ open_txn s' h = false;
  commit_fails h s s' : sqlite3_exec h "COMMIT" s = (false, s') → committed s' = committed s;
  rollback_keeps h s b s' : sqlite3_exec h "ROLLBACK" s = (b, s') → committed s' = committed s;
  close_keeps h s : committed (sqlite3_close h s) = committed s;
  prepare_keeps h sql s ok stmt s' : sqlite3_prepare_v2 h sql s = (ok, stmt, s') →
    committed s' = committed s ∧ open_txn s' = open_txn s ∧
    (if ok && negb (stmt =? 0) then prepared s' stmt = Some (h, sql) else stmt = 0);
  finalize_null s : sqlite3_finalize 0 s = s;
  bind_keeps stmt i x s ok s' : sqlite3_bind stmt i x s = (ok, s') →
    committed s' = committed s ∧ open_txn s' = open_txn s ∧ prepared s' = prepared s;
  step_inside stmt h sql s rc s' : prepared s stmt = Some (h, sql) → row_sql sql → open_txn s h = true →
    sqlite3_step stmt s = (rc, s') →
    committed s' = committed s ∧ prepared s' = prepared s ∧ (rc ≠ SQLITE_FAILED → open_txn s' h = true);
  finalize_keeps stmt h sql s : prepared s stmt = Some (h, sql) → row_sql sql →
    committed (sqlite3_finalize stmt s) = committed s ∧ open_txn (sqlite3_finalize stmt s) = open_txn s
}.

(** ** The driver's calls under the laws *)

Section Laws.
Context `{ST : SqliteTxn}.

(** Inside a transaction on [h], with [stmt] prepared from a row statement. *)
Definition inside (h stmt : Z) (sql : string) (s : sq) : Prop :=
  open_txn s h = true ∧ prepared s stmt = Some (h, sql).

Lemma bind_words_inside h stmt sql xs : ∀ idx s ok s', inside h stmt sql s →
  Driver.bind_words stmt idx xs s = Some (ok, s') → inside h stmt sql s' ∧ committed s' = committed s.
Proof.
  unfold inside. induction xs as [|x xs IH]; intros idx s ok s' Hin H; simpl in H; [by injection H as <- <-|].
  unfold mbind, Driver.D_bind, Driver.call in H. destruct (sqlite3_bind stmt idx x s) as [b s1] eqn:E.
  apply bind_keeps in E as (Ec & Eo & Ep). rewrite <- Ec, <- Eo, <- Ep in *. destruct b.
  - by apply IH in H.
  - by injection H as <- <-.
Qed.

Lemma step_out_inside h stmt sql fuel : row_sql sql → ∀ s rc s', inside h stmt sql s →
  Driver.step_out fuel stmt s = Some (rc, s') →
  committed s' = committed s ∧ prepared s' stmt = Some (h, sql) ∧ (rc = SQLITE_DONE → open_txn s' h = true).
Proof.
  intros Hsql. induction fuel as [|fuel IH]; intros s rc s' [Ho Hp] H; [done|].
  simpl in H. unfold mbind, Driver.D_bind, Driver.call in H.
  destruct (sqlite3_step stmt s) as [r s1] eqn:E. destruct (step_inside _ _ _ _ _ _ Hp Hsql Ho E) as (Ec & Ep & Eo).
  rewrite <- Ec. destruct r.
  - apply IH in H; [done|]. split; [by apply Eo|by rewrite Ep].
  - injection H as <- <-. split_and!; [done|by rewrite Ep|intros _; by apply Eo].
  - injection H as <- <-. split_and!; [done|by rewrite Ep|done].
Qed.

Lemma exec_words_inside fuel h sql xs s st s' : row_sql sql → open_txn s h = true →
  Driver.exec_words fuel h sql xs s = Some (st, s') →
  committed s' = committed s ∧ (st = GEAS_OK → open_txn s' h = true).
Proof.
  intros Hsql Ho H. unfold Driver.exec_words in H. destruct (h =? 0); [by injection H as <- <-|].
  unfold mbind, Driver.D_bind, Driver.call, Driver.look, Driver.sqlite3_finalize_, mret, Driver.D_ret in H.
  destruct (sqlite3_prepare_v2 h sql s) as [[ok stmt] s1] eqn:E. apply prepare_keeps in E as (Ec & Eo & Ep).
  rewrite <- Ec. rewrite <- Eo in Ho.
  destruct (negb ok || (stmt =? 0)) eqn:En.
  { assert (Eand : ok && negb (stmt =? 0) = false) by (by destruct ok, (stmt =? 0)).
    rewrite Eand in Ep. subst stmt. injection H as <- <-. by rewrite finalize_null. }
  destruct ok; [|done]. destruct (stmt =? 0); [done|]. simpl in Ep. clear En.
  set (n := if _ =? _ then _ else _) in H.
  assert (Hb : ∀ b s2, n s1 = Some (b, s2) → inside h stmt sql s2 ∧ committed s2 = committed s1).
  { intros b s2. unfold n. destruct (_ =? _); [by apply bind_words_inside|]. by intros [= <- <-]. }
  destruct (n s1) as [[b s2]|]; [|done]. destruct (Hb b s2 eq_refl) as [Hin <-]. clear Hb n.
  destruct b; simpl in H; cycle 1.
  { injection H as <- <-. by destruct (finalize_keeps _ _ _ _ (proj2 Hin) Hsql) as [-> _]. }
  destruct (Driver.step_out fuel stmt s2) as [[rc s3]|] eqn:E3; [|done].
  apply (step_out_inside _ _ _ _ Hsql _ _ _ Hin) in E3 as (<- & Hp3 & Ho3). injection H as <- <-.
  destruct (finalize_keeps _ _ _ _ Hp3 Hsql) as [-> ->]. split; [done|].
  case_bool_decide; [by intros _; apply Ho3|done].
Qed.

(** A transaction statement, NULL connection apart. *)
Lemma exec_run h sql s st s' : run_total GEAS_ERR_STORE (Driver.geas_store_exec h (Some sql)) s = (st, s') →
  st = GEAS_ERR_STORE ∧ s' = s ∨ sqlite3_exec h sql s = (st_ok st, s').
Proof.
  unfold run_total, Driver.geas_store_exec, mbind, Driver.D_bind, Driver.call. destruct (h =? 0); simpl.
  - intros [= <- <-]. by left.
  - destruct (sqlite3_exec h sql s) as [b s1]. simpl. intros [= <- <-]. right. by destruct b.
Qed.
End Laws.

(** ** The statement over heap values *)

Section Words.
Context `{SQ : Sqlite}.
Context (w : world).

Lemma bind_vals_words stmt ts : ∀ xs idx s, mapM sq_of_val ts = Some xs →
  ∃ b s', Driver.bind_words stmt idx xs s = Some (b, s') ∧ bind_vals stmt idx ts s = (sq_status b, s').
Proof.
  induction ts as [|t ts IH]; intros xs idx s Hx; simpl in Hx.
  - injection Hx as <-. by exists true, s.
  - destruct (sq_of_val t) as [x|] eqn:E; [|done]. destruct (mapM sq_of_val ts) as [xs'|] eqn:Em; [|done].
    injection Hx as <-. simpl. unfold mbind, Driver.D_bind, Driver.call. rewrite E.
    destruct (sqlite3_bind stmt idx x s) as [[] s1]; [by apply IH|]. by exists false, s1.
Qed.

Lemma wwp_step_out m stmt fuel : ∀ n s rc s', Driver.step_out fuel stmt s = Some (rc, s') →
  wwp (step_all fuel stmt n) (at_ms w m s) (λ r w', r.1 = rc ∧ w' = at_ms w m s').
Proof.
  induction fuel as [|fuel IH]; intros n s rc s' H; [done|]. simpl in *. unfold mbind at 1, Driver.D_bind, Driver.call in H.
  destruct (sqlite3_step stmt s) as [r s1] eqn:E. apply wwp_bind. eapply wwp_in_sq; [exact E|].
  destruct r; [by apply IH| |]; injection H as <- <-; by apply wwp_ret.
Qed.

Lemma wwp_exec_words m fuel h sql vs ts xs s st s' :
  Forall2 (repr (heap m)) vs ts → Forall int_bytes ts → mapM sq_of_val ts = Some xs →
  Driver.exec_words fuel h sql xs s = Some (st, s') →
  wwp (geas_store_exec_params fuel h sql vs) (at_ms w m s) (λ r w', r.1 = st ∧ w' = at_ms w m s').
Proof.
  intros Hr Hi Hx. unfold Driver.exec_words, geas_store_exec_params. destruct (h =? 0).
  { intros [= <- <-]. by apply wwp_ret. }
  unfold mbind at 1 2 3 4 5 6, Driver.D_bind, Driver.call, Driver.look, Driver.sqlite3_finalize_, mret, Driver.D_ret.
  destruct (sqlite3_prepare_v2 h sql s) as [[ok stmt] s1] eqn:E1. intros H. apply wwp_bind, wwp_bind.
  eapply wwp_in_sq; [exact E1|]. simpl. destruct (negb ok || (stmt =? 0)).
  { injection H as <- <-. apply wwp_bind, wwp_on_sq. by do 2 apply wwp_ret. }
  apply wwp_ret, wwp_bind. unfold bind_params. apply wwp_bind, wwp_get_sq.
  assert (El : length vs = length xs).
  { rewrite (Forall2_length _ _ _ Hr). apply mapM_Some in Hx. by apply Forall2_length in Hx. }
  rewrite El. destruct (_ =? _); cycle 1; simpl in *.
  { injection H as <- <-. apply wwp_ret. simpl. apply wwp_bind, wwp_on_sq. by apply wwp_ret. }
  destruct (bind_vals_words stmt ts xs 1 s1 Hx) as (b & s2 & Eb & Ev). rewrite Eb in H.
  eapply wwp_mono; [by eapply wwp_bind_all|]. intros st1 w1 (s2' & -> & E2). rewrite Ev in E2. injection E2 as <- <-.
  destruct b; simpl in *; cycle 1.
  { injection H as <- <-. apply wwp_bind, wwp_on_sq. by apply wwp_ret. }
  destruct (Driver.step_out fuel stmt s2) as [[rc s3]|] eqn:E3; [|done]. injection H as <- <-.
  apply wwp_bind. eapply wwp_mono; [by eapply wwp_step_out|]. intros [rc' n] w1 [Erc ->]. simpl in Erc. subst rc'.
  apply wwp_bind, wwp_on_sq. destruct rc; repeat (rewrite bool_decide_true by done) || rewrite bool_decide_false by (by intros []);
    try (by apply wwp_ret). all: try (apply wwp_bind, wwp_get_sq; by apply wwp_ret).
Qed.
End Words.

(** ** The refinement *)

#[export] Instance driver_transactional `{ST : SqliteTxn} :
  Transactional (SA := sqlite_store) committed open_txn view.
Proof.
  split.
  - intros h s s' H. apply exec_run in H as [[? _]|H]; [done|]. by apply begin_opens.
  - intros h s st s' H Hst. apply exec_run in H as [[_ ->]|H]; [done|].
    destruct (st_ok st) eqn:E; [by apply st_ok_spec in E|]. by eapply begin_fails.
  - intros h q s st s' Ho H. simpl in H. unfold run_total in H.
    destruct (Driver.exec_words _ _ _ _ s) as [[st1 s1]|] eqn:E; simpl in H; injection H as <- <-; [|by split].
    eapply exec_words_inside; [|done|exact E]. by do 2 eexists.
  - intros h s s' H Ho. apply exec_run in H as [[? _]|H]; [done|]. by apply commit_publishes.
  - intros h s st s' H Hst. apply exec_run in H as [[_ ->]|H]; [done|].
    destruct (st_ok st) eqn:E; [by apply st_ok_spec in E|]. by eapply commit_fails.
  - intros h s st s' H. apply exec_run in H as [[_ ->]|H]; [done|]. by eapply rollback_keeps.
  - intros h s. simpl. unfold run_total, Driver.geas_store_close. destruct (h =? 0); [done|]. apply close_keeps.
Qed.
#[export] Instance sqlite_laws `{ST : SqliteTxn} : StoreLaws (SA := sqlite_store) :=
  {| store_transactional := driver_transactional |}.

(** A library with one connection, numbered 1, one statement at a time and a table
    that counts its rows; every INSERT adds one. *)
Module Tally.
Record tally := { rows : nat; work : option nat; text : option (Z * string) }.
Definition inserts (s : tally) : nat :=
  match text s with Some (_, t) => if String.prefix "INSERT" t then 1 else 0 | None => 0 end.

#[export] Instance lib : Sqlite := {|
  sq := tally;
  sqlite3_malloc _ s := (true, s);
  sqlite3_open_v2 _ s := (true, 1, s);
  sqlite3_busy_timeout _ _ s := s;
  sqlite3_close _ s := {| rows := rows s; work := None; text := None |};
  sqlite3_exec _ sql s :=
    match work s with
    | None => if str_eqb sql "BEGIN" then (true, {| rows := rows s; work := Some (rows s); text := text s |}) else (false, s)
    | Some n =>
        if str_eqb sql "COMMIT" then (true, {| rows := n; work := None; text := text s |}) else
        if str_eqb sql "ROLLBACK" then (true, {| rows := rows s; work := None; text := text s |}) else (false, s)
    end;
  sqlite3_prepare_v2 h sql s := (true, 1, {| rows := rows s; work := work s; text := Some (h, sql) |});
  sqlite3_finalize stmt s := if stmt =? 0 then s else {| rows := rows s; work := work s; text := None |};
  sqlite3_reset _ s := (true, s);
  sqlite3_bind_parameter_count _ _ := 2;
  sqlite3_bind _ _ _ s := (true, s);
  sqlite3_step _ s := (SQLITE_DONE,
    match work s with
    | Some n => {| rows := rows s; work := Some (inserts s + n)%nat; text := text s |}
    | None => {| rows := (inserts s + rows s)%nat; work := None; text := text s |}
    end);
  sqlite3_column_count _ _ := 0;
  sqlite3_column_int64 _ _ _ := 0;
  sqlite3_column_double _ _ _ := 0;
  sqlite3_column_blob _ _ _ := [];
  sqlite3_column_text _ _ _ := None;
  sqlite3_changes64 _ _ := 1
|}.

Definition started (s : tally) (h : Z) : bool := match work s with Some _ => true | None => false end.

(** Every connection word names the one connection, every statement word the one
    statement. *)
#[export] Instance lib_txn : SqliteTxn (SQ := lib).
Proof.
  refine (@Build_SqliteTxn lib nat rows started (λ s _, default (rows s) (work s)) (λ s _, text s)
    _ _ _ _ _ _ _ _ _ _ _); unfold started.
  - intros h [r [n|] t] s'; simpl; [done|]. by intros [= <-].
  - intros h [r [n|] t] s'; simpl; by intros [= <-].
  - intros h [r [n|] t] s'; simpl; [|done]. by intros [= <-].
  - intros h [r [n|] t] s'; simpl; by intros [= <-].
  - intros h [r [n|] t] b s'; simpl; by intros [= <- <-].
  - done.
  - intros h sql s ok stmt s'; simpl. by intros [= <- <- <-].
  - done.
  - intros stmt i x s ok s'; simpl. by intros [= <- <-].
  - intros stmt h sql [r [n|] t] rc s' _ _; simpl; [|done]. intros _ [= <- <-]. by split_and!.
  - intros stmt h sql s _ _; simpl. by destruct (stmt =? 0).
Defined.
End Tally.

(** C9: the SQLite driver is a store in the sense the contract lifecycle is
    proved against.  With SQLite's transactions as documented, a begin opens a
    transaction over what is committed, a commit that succeeds publishes what the
    transaction reads and closes it, and nothing else the runtime calls (a begin or
    a commit that is refused, a rollback, a close, a statement inside the
    transaction that succeeds or fails) changes what is committed.  None of the
    calls touches memory it may not.  And a statement over values on the heap
    answers what the interface's statement over their words does, leaves the
    library where it does, and changes nothing of the heap. *)
Theorem driver_refines_store `{ST : SqliteTxn} :
  Transactional (SA := sqlite_store) committed open_txn view ∧
  (∀ h s, is_Some (Driver.geas_store_begin h s) ∧ is_Some (Driver.geas_store_commit h s) ∧
          is_Some (Driver.geas_store_rollback h s) ∧ is_Some (Driver.geas_store_close h s)) ∧
  (∀ w m s h q vs ts, Forall2 (repr (heap m)) vs ts → Forall int_bytes ts → mapM sq_of_val ts = Some (m_vals q) →
     is_Some (Driver.exec_words (S (m_rows q)) h (sql_text (m_stmt q) (m_schema q)) (m_vals q) s) →
     wwp (geas_store_exec_params (S (m_rows q)) h (sql_text (m_stmt q) (m_schema q)) vs) (at_ms w m s)
       (λ r w', (r.1, w') = let '(st, s') := store_exec h q s in (st, at_ms w m s'))).
Proof.
  split; [apply _|split].
  - intros h s. unfold Driver.geas_store_begin, Driver.geas_store_commit, Driver.geas_store_rollback,
      Driver.geas_store_close, Driver.geas_store_exec, mbind, Driver.D_bind, Driver.call.
    destruct (h =? 0); split_and!; try (by eexists); destruct (sqlite3_exec _ _ s); by eexists.
  - intros w m s h q vs ts Hr Hi Hx [[st s'] E]. eapply wwp_mono; [by eapply wwp_exec_words|].
    intros [st1 n] w' [<- ->]. simpl. unfold run_total. by rewrite E.
Qed.

(** Inside a transaction, the insertion of a number and a text. *)
Definition pairs : GeasSchemaDesc :=
  SchemaDesc "pairs" [SchemaCol "a" (tag_num GEAS_TY_INT); SchemaCol "b" (tag_num GEAS_TY_STRING)].
Definition insert_pair : dml := Dml SInsert pairs [SInt 7; SBlob [104; 105]] 0.
Definition tally_at (r : nat) (k : option nat) : @sq Tally.lib := {| Tally.rows := r; Tally.work := k; Tally.text := None |}.
Definition tally_world : world (SA := sqlite_store (SQ := Tally.lib)) :=
  World (SA := sqlite_store (SQ := Tally.lib)) demo_mem ∅ (tally_at 5 None) (Runtime [] [] [] [] 0 false [] 0 (λ _ _, true)) [] 1000 ∅ ∅ [].

Lemma driver_refines_store_witness :
  let st := tally_at 5 (Some 6%nat) in
  Tally.rows (geas_store_commit (StoreApi := sqlite_store (SQ := Tally.lib)) 1 st).2 = 6%nat ∧
  wwp (geas_store_exec_params 1 1 (sql_text SInsert pairs) [g_scalar GEAS_TY_INT 7; hi_text])
    (at_ms (SQ := Tally.lib) tally_world demo_mem (tally_at 5 (Some 5%nat)))
    (λ r w', (r.1, w') = (GEAS_OK, at_ms (SQ := Tally.lib) tally_world demo_mem st)).
Proof.
  destruct (driver_refines_store (ST := Tally.lib_txn)) as (T & _ & X). split.
  - exact (proj1 (@commit_ok _ _ _ _ _ T 1 (tally_at 5 (Some 6%nat)) (tally_at 6 None) eq_refl eq_refl)).
  - refine (X tally_world demo_mem (tally_at 5 (Some 5%nat)) 1 insert_pair _
      [VScalar GEAS_TY_INT 0 7; VString 0 [104; 105]] _ _ _ _).
    + constructor; [|constructor; [|constructor]]; [done|].
      repeat split; try (by vm_compute). right. split; [done|]. by exists [104; 105].
    + repeat constructor; by vm_compute.
    + reflexivity.
    + eexists. vm_compute. reflexivity.
Defined.
