(* ===== verification/ParkSpec.v ===== *)
(** * What a park writes and what a resume makes of a row

    The blobs of a parked row as functions of the values they carry
    ([encs], [errs_bytes]) and their readers ([dec_vows], [dec_errs]); the
    memory level of park and resume against them. *)
From S2P Require Import Prelude Abi Memory Value ValueSpec Wire WireSpec WireProps Iname Policy Store Future Lifecycle LifecycleSpec SignSpec StoreSql Sqlite Driver Rows RowsSpec Park.

Lemma zlen_nonneg bs : 0 <= zlen bs.
Proof. unfold zlen. lia. Qed.
#[export] Hint Resolve zlen_nonneg : geas.

(** ** Writing the blobs *)

Definition storable (t : val) : Prop := val_wf t ∧ encodable t = true.

Lemma park_size_run m v t : storable t → repr (heap m) v t → zlen (enc t) <= U64_MAX →
  park_size v m = Ret (GEAS_OK, zlen (enc t)) m.
Proof.
  intros [Hwf He] Hr Hle. unfold park_size, bind.
  destruct (encode_value_run m v t false 0 Hwf Hr) as (st & nd & out & -> & Hp); [lia|].
  destruct st; try done.
  - by destruct Hp as (_ & ? & _).
  - destruct Hp as [Hp _]. congruence.
  - destruct Hp as (_ & [(-> & _)|[_ ?]]); [done|lia].
Qed.

Lemma park_write_run m v t total out : storable t → repr (heap m) v t →
  total <= U64_MAX → zlen out + zlen (enc t) <= total →
  park_write v total out m = Ret (GEAS_OK, out ++ enc t) m.
Proof.
  intros [Hwf He] Hr Ht Hle. unfold park_write, bind. fold (zlen out).
  pose proof (zlen_nonneg out). pose proof (zlen_nonneg (enc t)).
  rewrite u64_id by (z_norm; lia). erewrite encode_value_ok; [reflexivity|done..|lia|lia|reflexivity].
Qed.

Lemma encs_drop ts i t : ts !! i = Some t → encs (drop i ts) = enc t ++ encs (drop (S i) ts).
Proof. intros H. by rewrite (drop_S _ _ _ H). Qed.

Section Values.
Context (m : mem) (vals : Z) (slots : list GeasValue) (ts : list val).
Context (Hslots : heap m !! vals = Some (BVals slots)) (Hr : reprs (heap m) slots ts) (Hs : Forall storable ts).

Lemma size_values_run n : ∀ i total, (i + n = length ts)%nat → 0 <= total →
  total + zlen (encs (drop i ts)) <= U64_MAX →
  size_values vals n i total m = Ret (GEAS_OK, total + zlen (encs (drop i ts))) m.
Proof.
  induction n as [|n IH]; intros i total Hi H0 Hmax; simpl.
  { rewrite drop_ge by lia. simpl. unfold ret, zlen. simpl. do 2 f_equal. lia. }
  destruct (lookup_lt_is_Some_2 ts i) as [t Ht]; [lia|]. destruct (Hr i t Ht) as (s & Hi' & Hst).
  rewrite (encs_drop _ _ _ Ht), zlen_app in *.
  pose proof (zlen_nonneg (enc t)). pose proof (zlen_nonneg (encs (drop (S i) ts))).
  unfold bind at 1, load_slot. rewrite Hslots, Hi'. unfold bind at 1.
  erewrite park_size_run; [|by eapply Forall_lookup_1|exact Hst|lia]. simpl.
  rewrite u64_id by (z_norm; lia). rewrite IH by lia. do 2 f_equal. lia.
Qed.

Lemma write_values_run n total : ∀ i out, (i + n = length ts)%nat → total <= U64_MAX →
  zlen out + zlen (encs (drop i ts)) <= total →
  write_values vals n i total out m = Ret (GEAS_OK, out ++ encs (drop i ts)) m.
Proof.
  induction n as [|n IH]; intros i out Hi Hmax Hle; simpl.
  { rewrite drop_ge by lia. simpl. by rewrite app_nil_r. }
  destruct (lookup_lt_is_Some_2 ts i) as [t Ht]; [lia|]. destruct (Hr i t Ht) as (s & Hi' & Hst).
  rewrite (encs_drop _ _ _ Ht), zlen_app in *. pose proof (zlen_nonneg (encs (drop (S i) ts))).
  unfold bind at 1, load_slot. rewrite Hslots, Hi'. unfold bind at 1.
  erewrite park_write_run; [|by eapply Forall_lookup_1|exact Hst|done|lia]. simpl.
  rewrite IH; [by rewrite <- app_assoc|lia|done|rewrite zlen_app; lia].
Qed.
End Values.

(** A refused [malloc] outside every block list. *)
Definition tick (m : mem) : mem := Mem (heap m) (owned m) (brk m) (S (ticks m)) (lib m).

Lemma park_fill_run total fill bs m : fill (tick m) = Ret (GEAS_OK, bs) (tick m) →
  park_fill total fill m =
    Ret (if lib_malloc (lib m) (ticks m) (if total =? 0 then 1 else total)
         then (GEAS_OK, bs) else (GEAS_ERR_OOM, [])) (tick m).
Proof. intros H. unfold park_fill, bind, sys_alloc, ret. by destruct (lib_malloc _ _ _). Qed.

Definition granted (m : mem) (n : Z) : bool := lib_malloc (lib m) (ticks m) (if n =? 0 then 1 else n).

Lemma park_encode_values_run m vals slots ts :
  heap m !! vals = Some (BVals slots) → reprs (heap m) slots ts → Forall storable ts →
  zlen (encs ts) <= U64_MAX →
  park_encode_values vals (length ts) m =
    Ret (if granted m (zlen (encs ts)) then (GEAS_OK, encs ts) else (GEAS_ERR_OOM, [])) (tick m).
Proof.
  intros Hs Hr Hst Hmax. unfold park_encode_values, bind at 1.
  rewrite (size_values_run m vals slots ts Hs Hr Hst) by (rewrite ?drop_0; lia).
  rewrite drop_0, Z.add_0_l. simpl. apply park_fill_run.
  apply (write_values_run (tick m) vals slots ts Hs Hr Hst _ _ 0 []); [done|done|].
  rewrite drop_0. unfold zlen at 1. simpl. lia.
Qed.

(** The error payloads: a presence byte before each present one. *)
Fixpoint errs_bytes (es : list (option val)) : list Z :=
  match es with
  | [] => []
  | None :: es' => 0 :: errs_bytes es'
  | Some t :: es' => 1 :: enc t ++ errs_bytes es'
  end.
Definition err_slot (h : gmap Z block) (e : GeasValue) (o : option val) : Prop :=
  match o with None => e = gzero | Some t => e ≠ gzero ∧ repr h e t ∧ storable t end.

Lemma err_present_iff h e o : err_slot h e o → park_err_present e = bool_decide (is_Some o).
Proof.
  unfold park_err_present. destruct o as [t|]; simpl.
  - intros [Hn _]. by rewrite bool_decide_eq_false_2.
  - intros ->. by rewrite bool_decide_eq_true_2.
Qed.

Lemma size_errs_run m errs es : Forall2 (err_slot (heap m)) errs es → ∀ total, 0 <= total →
  total + zlen (errs_bytes es) - Z.of_nat (length es) <= U64_MAX →
  size_errs errs total m = Ret (GEAS_OK, total + zlen (errs_bytes es) - Z.of_nat (length es)) m.
Proof.
  induction 1 as [|e o errs es He Hf IH]; intros total H0 Hmax; simpl.
  { unfold ret, zlen. simpl. do 2 f_equal. lia. }
  assert (K : Z.of_nat (length es) <= zlen (errs_bytes es)).
  { clear. unfold zlen. induction es as [|[t|] es IH]; simpl; rewrite ?length_app; lia. }
  rewrite (err_present_iff _ _ _ He). destruct o as [t|]; cbn [is_Some errs_bytes] in *.
  - rewrite bool_decide_eq_true_2 by eauto. destruct He as (_ & Hr & Hst). simpl.
    unfold zlen in *. simpl length in *. rewrite length_app in *. fold (zlen (enc t)) in *.
    unfold bind. rewrite (park_size_run _ _ _ Hst Hr) by (unfold zlen; lia). simpl.
    unfold zlen. rewrite u64_id by (z_norm; lia). rewrite IH by lia. do 2 f_equal. lia.
  - rewrite bool_decide_eq_false_2 by (by intros []). simpl. unfold zlen in *. simpl length in *.
    rewrite IH by lia. do 2 f_equal. lia.
Qed.

Lemma write_errs_run m total errs es : Forall2 (err_slot (heap m)) errs es → ∀ out, total <= U64_MAX →
  zlen out + zlen (errs_bytes es) <= total →
  write_errs errs total out m = Ret (GEAS_OK, out ++ errs_bytes es) m.
Proof.
  induction 1 as [|e o errs es He Hf IH]; intros out Hmax Hle; simpl.
  { by rewrite app_nil_r. }
  rewrite (err_present_iff _ _ _ He). destruct o as [t|]; cbn [errs_bytes] in *.
  - rewrite bool_decide_eq_true_2 by eauto. destruct He as (_ & Hr & Hst). simpl. unfold bind.
    unfold zlen in *. simpl length in *. rewrite length_app in *.
    erewrite park_write_run; [|done..|unfold zlen; rewrite length_app; simpl; lia]. simpl.
    rewrite IH; [|done|rewrite !length_app; simpl; lia]. by rewrite <- !app_assoc.
  - rewrite bool_decide_eq_false_2 by (by intros []). simpl. unfold zlen in *. simpl length in *.
    rewrite IH; [|done|rewrite length_app; simpl; lia]. by rewrite <- app_assoc.
Qed.

Lemma park_encode_errs_run m errs es :
  Forall2 (err_slot (heap m)) errs es → zlen (errs_bytes es) <= U64_MAX →
  park_encode_errs errs m =
    Ret (if granted m (zlen (errs_bytes es)) then (GEAS_OK, errs_bytes es) else (GEAS_ERR_OOM, [])) (tick m).
Proof.
  intros He Hmax. unfold park_encode_errs, bind at 1. rewrite (Forall2_length _ _ _ He).
  rewrite (size_errs_run m errs es He) by lia.
  replace (Z.of_nat (length es) + zlen (errs_bytes es) - Z.of_nat (length es)) with (zlen (errs_bytes es)) by lia.
  simpl. apply park_fill_run.
  by apply (write_errs_run (tick m) _ errs es He []).
Qed.

(** ** Reading the blobs *)

Fixpoint dec_vow_list (vds : list GeasVowDesc) (bs : list Z) : option (list val * list Z) :=
  match vds with
  | [] => Some ([], bs)
  | vd :: vds' =>
      match dec 64 bs with
      | Some (t, rest) =>
          if tag_num (val_ty t) =? v_ty vd then
            '(ts, rest) ← dec_vow_list vds' rest; Some (t :: ts, rest)
          else None
      | None => None
      end
  end.
(** Exactly the declared values, each of its declared type, and nothing after. *)
Definition dec_vows (vds : list GeasVowDesc) (bs : list Z) : option (list val) :=
  '(ts, rest) ← dec_vow_list vds bs; if decide (rest = []) then Some ts else None.

Fixpoint dec_err_list (n : nat) (bs : list Z) : option (list (option val) * list Z) :=
  match n with
  | O => Some ([], bs)
  | S n' =>
      match bs with
      | [] => None
      | p :: bs' =>
          if 1 <? p then None else
          if p =? 1 then
            '(t, rest) ← dec 64 bs'; '(es, rest) ← dec_err_list n' rest; Some (Some t :: es, rest)
          else '(es, rest) ← dec_err_list n' bs'; Some (None :: es, rest)
      end
  end.
Definition dec_errs (n : nat) (bs : list Z) : option (list (option val)) :=
  '(es, rest) ← dec_err_list n bs; if decide (rest = []) then Some es else None.

(** What decoding needs of the values it gives back. *)
Definition unpackable (t : val) : Prop := val_wf t ∧ wire_shape true t = true ∧ (height t ≤ 64)%nat.

Lemma unpackable_storable t : unpackable t → storable t.
Proof.
  intros (Hwf & Hs & Hh). split; [done|]. unfold encodable. apply andb_true_iff. split; [by apply strict_shape|].
  by apply Nat.leb_le.
Qed.

Lemma dec_vows_encs vds ts : Forall2 (λ vd t, v_ty vd = tag_num (val_ty t) ∧ unpackable t) vds ts →
  dec_vows vds (encs ts) = Some ts.
Proof.
  intros H. assert (K : ∀ rest, dec_vow_list vds (encs ts ++ rest) = Some (ts, rest)).
  { induction H as [|vd t vds ts [Ht (Hwf & Hs & Hh)] _ IH]; intros rest; [done|].
    cbn [dec_vow_list encs]. rewrite <- app_assoc, dec_enc by done. by rewrite Ht, Z.eqb_refl, IH. }
  unfold dec_vows. by rewrite <- (app_nil_r (encs ts)), K.
Qed.

Lemma dec_errs_bytes es : Forall (λ o, ∀ t, o = Some t → unpackable t) es →
  dec_errs (length es) (errs_bytes es) = Some es.
Proof.
  intros H. assert (K : ∀ rest, dec_err_list (length es) (errs_bytes es ++ rest) = Some (es, rest)).
  { induction H as [|o es Ho _ IH]; intros rest; [done|]. destruct o as [t|]; cbn [dec_err_list errs_bytes length app]; [|by rewrite IH].
    destruct (Ho t eq_refl) as (Hwf & Hs & Hh). rewrite <- app_assoc, dec_enc by done. cbn. by rewrite IH. }
  unfold dec_errs. by rewrite <- (app_nil_r (errs_bytes es)), K.
Qed.

(** A String field of the row and the bytes behind it. *)
Definition field_bytes (h : gmap Z block) (f : GeasValue) (bs : list Z) : Prop :=
  s_len f = zlen bs ∧ bytes_ok bs ∧ buffer_fits bs ∧
  (bs = [] ∨ s_ptr f ≠ 0 ∧ ∃ raw, h !! s_ptr f = Some (BBytes raw) ∧ take (length bs) raw = bs).

Lemma field_mono h h' f bs : h ⊆ h' → field_bytes h f bs → field_bytes h' f bs.
Proof.
  intros Hsub (? & ? & ? & [?|(? & raw & ? & ?)]); split_and!; auto.
  right. split; [done|]. exists raw. split; [by eapply lookup_weaken|done].
Qed.

Lemma wp_blob f bs m (Q : list Z → mem → Prop) : field_bytes (heap m) f bs → Q bs m → wp (blob f) m Q.
Proof.
  intros (Hl & _ & _ & Hp) H. unfold blob. rewrite Hl. destruct (Z.eqb_spec (zlen bs) 0) as [E|E].
  - destruct bs; [by apply wp_ret|]. unfold zlen in E. simpl in E. lia.
  - destruct Hp as [->|(_ & raw & Hraw & Ht)]; [done|]. unfold zlen. rewrite Nat2Z.id.
    eapply wp_load_bytes; [exact Hraw|by apply take_prefix_length|]. by rewrite Ht.
Qed.

Section Decode.
Context (c : Z) (f : GeasValue) (bs : list Z).

Lemma wp_resume_value m off cur : field_bytes (heap m) f bs → 0 <= off <= zlen bs → mem_wf m → live c m →
  wp (resume_value c f bs off cur) m (λ '(st, v, used) m', ∃ hn, grown c m hn m' ∧
    match st with
    | GEAS_OK => ∃ t, dec 64 (drop (Z.to_nat off) bs) = Some (t, drop (Z.to_nat (off + used)) bs) ∧
        repr hn v t ∧ 0 <= used <= zlen bs - off
    | GEAS_ERR_TYPE => dec 64 (drop (Z.to_nat off) bs) = None
    | GEAS_ERR_OOM => refused m m'
    | _ => False
    end).
Proof.
  intros (Hl & Hb & Hf & Hp) Hoff Hwf Hlive. unfold resume_value. cbv zeta.
  assert (Hz : zlen (drop (Z.to_nat off) bs) = zlen bs - off).
  { unfold zlen in *. rewrite length_drop. lia. }
  assert (Hlen : u64 (s_len f - off) = zlen (drop (Z.to_nat off) bs)).
  { rewrite Hl, Hz. unfold buffer_fits, sizeof_GeasBlock in Hf. apply u64_id. z_norm. lia. }
  assert (Htk : take (Z.to_nat (zlen (drop (Z.to_nat off) bs))) (drop (Z.to_nat off) bs) = drop (Z.to_nat off) bs).
  { unfold zlen. by rewrite Nat2Z.id, firstn_all. }
  rewrite Hlen. apply wp_bind.
  assert (W : wp (geas_wire_decode_value c (Some (drop (Z.to_nat off) bs)) (zlen (drop (Z.to_nat off) bs)) (Some cur)) m
    (λ '(st, out, used) m', ∃ hn, grown c m hn m' ∧
    match st with
    | GEAS_OK => ∃ t, dec 64 (drop (Z.to_nat off) bs) = Some (t, drop (Z.to_nat (off + used)) bs) ∧
        repr hn (default cur out) t ∧ 0 <= used <= zlen bs - off
    | GEAS_ERR_TYPE => dec 64 (drop (Z.to_nat off) bs) = None
    | GEAS_ERR_OOM => refused m m'
    | _ => False
    end)).
  { eapply wp_mono.
    - apply decode_value_run; [by apply Forall_drop|unfold zlen; lia| |done|done]. rewrite Htk.
      unfold buffer_fits in *. rewrite Hz. lia.
    - intros [[st out] used] m' (hn & G & Hres). exists hn. split; [done|]. rewrite Htk in Hres.
      destruct st; try done; [|by destruct Hres|by destruct Hres].
      destruct Hres as (t & v & -> & Hr & Hd & Hu). exists t. rewrite drop_drop in Hd.
      rewrite Hz in Hu. split_and!; try done; try lia. rewrite Z2Nat.inj_add by lia. done. }
  assert (E : geas_wire_decode_value c (if s_ptr f =? 0 then None else Some (drop (Z.to_nat off) bs))
    (zlen (drop (Z.to_nat off) bs)) (Some cur) = geas_wire_decode_value c (Some (drop (Z.to_nat off) bs))
    (zlen (drop (Z.to_nat off) bs)) (Some cur)).
  { destruct (Z.eqb_spec (s_ptr f) 0) as [E|]; [|done].
    destruct Hp as [->|[? _]]; [|done]. by rewrite drop_nil. }
  rewrite E. eapply wp_mono; [exact W|]. intros [[st out] used] m' H. by apply wp_ret.
Qed.

Lemma refused_after m h m1 m2 : grown c m h m1 → refused m1 m2 → refused m m2.
Proof. intros G Href. eapply refused_trans_r; eauto. Qed.

Lemma wp_resume_vow_slots m vals vds : field_bytes (heap m) f bs → live c m →
  ∀ i m1 hd ds off prev, grown c m (<[vals := BVals ds]> hd) m1 → hd !! vals = None →
  length prev = i → (i + length vds)%nat = length ds → reprs hd ds prev → 0 <= off <= zlen bs →
  wp (resume_vow_slots c vals f bs vds i off) m1 (λ '(st, off') m2, ∃ hd' ds',
    grown c m (<[vals := BVals ds']> hd') m2 ∧ hd' !! vals = None ∧ length ds' = length ds ∧
    match st with
    | GEAS_OK => ∃ ts, dec_vow_list vds (drop (Z.to_nat off) bs) = Some (ts, drop (Z.to_nat off') bs) ∧
        0 <= off' <= zlen bs ∧ length ts = length vds ∧ reprs hd' ds' (prev ++ ts)
    | GEAS_ERR_TYPE => dec_vow_list vds (drop (Z.to_nat off) bs) = None
    | GEAS_ERR_OOM => refused m m2
    | _ => False
    end).
Proof.
  intros Hf Hl. induction vds as [|vd vds IH]; intros i m1 hd ds off prev G Hn Hi Hlen Hr Hoff.
  { apply wp_ret. exists hd, ds. split_and!; try done. exists []. rewrite app_nil_r. split_and!; (done || lia). }
  cbn [length] in Hlen. cbn [resume_vow_slots dec_vow_list].
  assert (Hdl : heap m1 !! vals = Some (BVals ds)).
  { eapply lookup_weaken; [|by eapply grown_incl_new]. apply lookup_insert_eq. }
  destruct (lookup_lt_is_Some_2 ds i) as [d0 Hd0]; [lia|].
  apply wp_bind. eapply wp_load_slot; [exact Hdl|exact Hd0|]. apply wp_bind. eapply wp_mono.
  { apply wp_resume_value; [|done|by eapply gr_wf|by eapply grown_live].
    eapply field_mono; [by eapply grown_incl|exact Hf]. }
  intros [[st v] used] m2 (h2 & G2 & Hres). apply wp_bind. eapply wp_store_slot.
  { eapply lookup_weaken; [exact Hdl|by eapply grown_incl]. }
  { lia. }
  destruct (fill_grown _ _ _ _ _ _ _ _ i v G Hn G2) as [G3 Hn3].
  destruct st; try done; cbn [st_ok negb].
  - destruct Hres as (t & Hd & Hrep & Hu). rewrite Hd, (repr_ty _ _ _ Hrep).
    destruct (Z.eqb_spec (tag_num (val_ty t)) (v_ty vd)) as [Ety|Ety]; cbn [negb].
    + assert (Hb : buffer_fits bs) by apply Hf. unfold buffer_fits, sizeof_GeasBlock in Hb.
      rewrite u64_id by (z_norm; lia). eapply wp_mono.
      { eapply (IH (S i) _ (h2 ∪ hd) _ (off + used) (prev ++ [t])); [exact G3|done|..].
        - rewrite length_app. simpl. lia.
        - rewrite length_insert. lia.
        - rewrite <- Hi. eapply fill_reprs; [exact G|done|exact G2|done|lia|done].
        - lia. }
      intros [st off'] m3 (hd' & ds' & G4 & Hn4 & Hl4 & Hres). exists hd', ds'. split_and!; try done.
      { by rewrite Hl4, length_insert. }
      destruct st; try done.
      * destruct Hres as (ts & -> & Ho & Hlt & Hrs). exists (t :: ts). rewrite <- (app_assoc prev) in Hrs.
        simpl. split_and!; (done || lia || auto).
      * by rewrite Hres.
    + apply wp_ret. exists (h2 ∪ hd), (<[i := v]> ds). rewrite length_insert. by split_and!.
  - rewrite Hres. apply wp_ret. exists (h2 ∪ hd), (<[i := v]> ds). rewrite length_insert. by split_and!.
  - apply wp_ret. exists (h2 ∪ hd), (<[i := v]> ds). rewrite length_insert. split_and!; try done.
    destruct (refused_after _ _ _ _ G Hres) as (n & z & ? & ?). exists n, z. by split.
Qed.

(** The vow array inside the blocks [h]. *)
Definition vows_are (h : gmap Z block) (vals : Z) (ts : list val) : Prop :=
  ts = [] ∧ vals = 0 ∨
  vals ≠ 0 ∧ ∃ ds, h !! vals = Some (BVals ds) ∧ length ds = length ts ∧ reprs h ds ts.

Lemma wp_resume_vows m d : field_bytes (heap m) f bs → mem_wf m → live c m → fits_slots (length (d_vows d)) →
  wp (resume_vows c d f) m (λ '(st, vals) m', ∃ hn, grown c m hn m' ∧
    match st with
    | GEAS_OK => ∃ ts, dec_vows (d_vows d) bs = Some ts ∧ length ts = length (d_vows d) ∧ vows_are hn vals ts
    | GEAS_ERR_TYPE => dec_vows (d_vows d) bs = None
    | GEAS_ERR_OOM => refused m m'
    | _ => False
    end).
Proof.
  intros Hf Hwf Hl Hfit. unfold resume_vows. pose proof Hf as (Hlen & _).
  destruct (Nat.eqb_spec (length (d_vows d)) 0) as [E|E].
  { apply wp_ret. exists ∅. split; [by apply grown_refl|]. apply nil_length_inv in E. rewrite E, Hlen.
    unfold dec_vows. simpl. destruct bs as [|b bs']; simpl.
    - exists []. split_and!; try done. by left.
    - done. }
  destruct (slot_bytes_fits _ Hfit) as [Hsb _]. rewrite Hsb. apply wp_bind.
  unfold fits_slots, sizeof_GeasValue in Hfit. apply wp_geas_bytes; auto; [lia|..].
  2: { intros m1 G Href. rewrite Z.eqb_refl. apply wp_ret. by exists ∅. }
  intros m1 G Hp. rewrite (proj2 (Z.eqb_neq (brk m) 0)) by done. set (vals := brk m) in *.
  assert (Ek : fresh_block (lib m) KVals (Z.of_nat (length (d_vows d)) * 40) =
    BVals (replicate (length (d_vows d)) (lib_junk_val (lib m)))).
  { unfold fresh_block, sizeof_GeasValue. by rewrite Z.div_mul, Nat2Z.id. }
  rewrite Ek in G. apply wp_bind. eapply wp_zero_slots.
  { eapply lookup_weaken; [|by eapply grown_incl_new]. apply lookup_singleton_eq. }
  { by rewrite length_replicate. }
  rewrite drop_ge, app_nil_r by (by rewrite length_replicate).
  eapply (grown_update _ _ _ _ _ _ (BVals (replicate (length (d_vows d)) gzero))) in G; [|apply lookup_singleton_eq].
  rewrite insert_singleton_eq in G. apply wp_bind.
  eapply wp_blob; [eapply field_mono; [by eapply grown_incl|exact Hf]|]. apply wp_bind. eapply wp_mono.
  { eapply (wp_resume_vow_slots m vals (d_vows d) Hf Hl 0 _ ∅ _ 0 []);
      [exact G|apply lookup_empty|done|by rewrite length_replicate|apply reprs_nil|].
    pose proof (zlen_nonneg bs). lia. }
  intros [st off] m2 (hd & ds & G2 & Hn & Hlds & Hres).
  change (drop (Z.to_nat 0) bs) with bs in Hres. unfold dec_vows. destruct st; try done; cbn [st_ok negb].
  - destruct Hres as (ts & -> & Ho & Hlt & Hr). apply wp_ret. rewrite Hlen. eexists. split; [exact G2|]. simpl.
    destruct (Z.eqb_spec off (zlen bs)) as [->|Hne].
    + exists ts. unfold zlen. rewrite Nat2Z.id, drop_all, decide_True by done. split_and!; try done.
      right. split; [done|]. exists ds. rewrite lookup_insert_eq. split_and!; [done|by rewrite Hlds, length_replicate|].
      eapply reprs_mono; [by apply insert_subseteq|exact Hr].
    + rewrite decide_False; [done|]. intros Hnil. apply (f_equal length) in Hnil. unfold zlen in *.
      rewrite length_drop in Hnil. simpl in Hnil. lia.
  - apply wp_ret. eexists. split; [exact G2|]. by rewrite Hres.
  - apply wp_ret. eexists. split; [exact G2|]. done.
Qed.

(** The payload array against the presence bytes. *)
Definition err_is (h : gmap Z block) (e : GeasValue) (o : option val) : Prop :=
  match o with None => e = gzero | Some t => repr h e t end.

Lemma err_is_mono h h' e o : h ⊆ h' → err_is h e o → err_is h' e o.
Proof. intros Hsub. destruct o; simpl; [|done]. by apply repr_mono. Qed.

Lemma wp_resume_errs m n : field_bytes (heap m) f bs → live c m →
  ∀ m1 hd off acc es0, grown c m hd m1 → Forall2 (err_is hd) acc es0 → 0 <= off <= zlen bs →
  wp (resume_errs c f bs n off acc) m1 (λ '(st, errs, off') m2, ∃ hd', grown c m hd' m2 ∧
    match st with
    | GEAS_OK => ∃ es, dec_err_list n (drop (Z.to_nat off) bs) = Some (es, drop (Z.to_nat off') bs) ∧
        0 <= off' <= zlen bs ∧ length es = n ∧ Forall2 (err_is hd') errs (es0 ++ es)
    | GEAS_ERR_TYPE => dec_err_list n (drop (Z.to_nat off) bs) = None
    | GEAS_ERR_OOM => refused m m2
    | _ => False
    end).
Proof.
  intros Hf Hl. assert (Hb : buffer_fits bs) by apply Hf. unfold buffer_fits, sizeof_GeasBlock in Hb.
  induction n as [|n IH]; intros m1 hd off acc es0 G He Hoff; cbn [resume_errs dec_err_list].
  { apply wp_ret. exists hd. split; [done|]. exists []. rewrite app_nil_r. split_and!; (done || lia). }
  destruct (bs !! Z.to_nat off) as [p|] eqn:Ep.
  2: { apply wp_ret. exists hd. split; [done|]. apply lookup_ge_None in Ep. by rewrite drop_ge. }
  pose proof (lookup_lt_Some _ _ _ Ep). rewrite (drop_S _ _ _ Ep). cbv zeta.
  assert (Hz : off + 1 <= zlen bs) by (unfold zlen; lia).
  replace (S (Z.to_nat off)) with (Z.to_nat (off + 1)) by lia.
  destruct (1 <? p). { apply wp_ret. by exists hd. }
  destruct (p =? 1).
  - apply wp_bind. eapply wp_mono.
    { apply wp_resume_value; [|lia|by eapply gr_wf|by eapply grown_live].
      eapply field_mono; [by eapply grown_incl|exact Hf]. }
    intros [[st v] used] m2 (h2 & G2 & Hres). pose proof (grown_trans _ _ _ _ _ _ G G2) as G3.
    destruct st; try done; cbn [st_ok negb].
    + destruct Hres as (t & -> & Hr & Hu). rewrite u64_id by (z_norm; lia). cbn [mbind option_bind]. eapply wp_mono.
      { eapply (IH _ (h2 ∪ hd) (off + 1 + used) (acc ++ [v]) (es0 ++ [Some t])); [exact G3| |lia].
        apply Forall2_app; [|constructor; [|constructor]].
        - eapply Forall2_impl; [exact He|]. intros e o. apply err_is_mono.
          apply map_union_subseteq_r. pose proof (gr_fresh _ _ _ _ G2) as F. rewrite (gr_heap _ _ _ _ G) in F.
          by apply map_disjoint_union_r in F as [F _].
        - eapply repr_mono; [apply map_union_subseteq_l|exact Hr]. }
      intros [[st errs] off'] m3 (hd' & G4 & Hres). exists hd'. split; [done|]. destruct st; try done.
      * destruct Hres as (es & -> & Ho & Hle & Hes). exists (Some t :: es). rewrite <- (app_assoc es0) in Hes.
        simpl. split_and!; (done || lia).
      * by rewrite Hres.
    + apply wp_ret. exists (h2 ∪ hd). split; [done|]. by rewrite Hres.
    + apply wp_ret. exists (h2 ∪ hd). split; [done|]. exact (refused_after _ _ _ _ G Hres).
  - eapply wp_mono.
    { eapply (IH _ hd (off + 1) (acc ++ [gzero]) (es0 ++ [None])); [exact G| |lia].
      apply Forall2_app; [done|]. by repeat constructor. }
    intros [[st errs] off'] m3 (hd' & G4 & Hres). exists hd'. split; [done|]. destruct st; try done.
    + destruct Hres as (es & -> & Ho & Hle & Hes). exists (None :: es). rewrite <- (app_assoc es0) in Hes.
      simpl. split_and!; (done || lia).
    + by rewrite Hres.
Qed.
End Decode.
