(* ===== verification/ResumeSpec.v ===== *)
(** * Resuming: the instance rebuilt from a row

    The steps of [resume_build] over the instance under construction
    ([SignSpec], [building]) against the readers of the row's blobs
    ([ParkSpec]), and the arena that goes at the end. *)
From S2P Require Import Prelude Abi Memory Value ValueSpec Wire WireSpec Iname Policy Store Future Lifecycle LifecycleSpec SignSpec StoreSql Sqlite Driver Rows RowsSpec Park ParkSpec.

(** ** What a row unpacks to *)

(** The four blobs of a row. *)
Record blobs := Blobs { bl_vows : list Z; bl_latches : list Z; bl_errs : list Z; bl_txns : list Z }.

Definition dec_latches (n : nat) (lb eb : list Z) : option (option (list latch) * list (option val)) :=
  if (n =? 0)%nat then Some (None, []) else
  if (length lb =? n)%nat then
    ls ← mapM latch_of lb; es ← dec_errs n eb; Some (Some ls, es)
  else None.
Definition dec_txns (n : nat) (tb : list Z) : option (option (list txn_slot)) :=
  if (n =? 0)%nat then Some None else
  if (length tb =? n)%nat then ts ← mapM txn_of tb; Some (Some ts) else None.

(** What a row brings back: the vows, the latches, the payloads, the episodes. *)
Record cargo := Cargo {
  cg_vows : list val; cg_latches : option (list latch);
  cg_errs : list (option val); cg_txns : option (list txn_slot)
}.
Definition unpack (d : GeasContractDesc) (b : blobs) : option cargo :=
  ts ← dec_vows (d_vows d) (bl_vows b);
  '(ls, es) ← dec_latches (length (d_pledges d)) (bl_latches b) (bl_errs b);
  xs ← dec_txns (length (d_subs d)) (bl_txns b);
  Some (Cargo ts ls es xs).

Section Resume.
Context `{SQ : Sqlite}.
Context (w0 : world) (d : GeasContractDesc) (Hwf : mem_wf (wm w0)).
Notation c := (next_addr w0).
Notation building := (building w0).
Notation step_post := (step_post w0).
Notation blank := (blank d).
Notation short := (short w0).

Lemma building_incl w ct hn h1 m : building w ct hn → grown c (wm w) h1 m → hn ⊆ h1 ∪ hn.
Proof.
  intros (_ & G & _) G2. apply map_union_subseteq_r. pose proof (gr_fresh _ _ _ _ G2) as F.
  rewrite (gr_heap _ _ _ _ G) in F. by apply map_disjoint_union_r in F as [F _].
Qed.

Lemma building_heap w ct hn : building w ct hn → heap (wm w0) ⊆ heap (wm w).
Proof. intros (_ & G & _). apply grown_incl in G. exact G. Qed.

Lemma vows_are_mono h h' vals ts : h ⊆ h' → vows_are h vals ts → vows_are h' vals ts.
Proof.
  intros Hsub [?|(? & ds & ? & ? & ?)]; [by left|right]. split; [done|]. exists ds. split_and!; try done.
  - by eapply lookup_weaken.
  - by eapply reprs_mono.
Qed.

Lemma vows_are_full h vals ts : vows_are h vals ts → length ts = length (d_vows d) → vows_full d h vals.
Proof.
  intros [[-> ->]|(Hv & ds & Hds & _ & Hr)] Hlen; [left; by apply nil_length_inv|right].
  split; [done|]. exists ds. split; [done|]. intros j Hj.
  destruct (lookup_lt_is_Some_2 ts j) as [t Ht]; [lia|]. destruct (Hr j t Ht) as (s & ? & ?). eauto.
Qed.

(** What a finished or failed step says: why it failed, too. *)
Definition rstep (st : GeasStatus) (w : world) (Ok : GeasContract → gmap Z block → Prop) (bad : Prop) : Prop :=
  step_post st w Ok ∧ (st = GEAS_OK ∨ bad ∨ short w).

Lemma rstep_ok w ct hn (Ok : GeasContract → gmap Z block → Prop) bad :
  building w ct hn → Ok ct hn → rstep GEAS_OK w Ok bad.
Proof. intros B H. split; [|by left]. by exists ct, hn. Qed.
Lemma rstep_fail st w ct hn Ok (bad : Prop) :
  building w ct hn → st ≠ GEAS_OK → bad ∨ short w → rstep st w Ok bad.
Proof. intros B H Hb. split; [|by right]. by exists ct, hn. Qed.

Lemma wwp_vows_step fns w hn fv vb :
  building w (blank 0 fns None [] None None) hn → field_bytes (heap (wm w0)) fv vb → fits_slots (length (d_vows d)) →
  wwp ('(s, vals) ← in_mem (resume_vows c d fv);
       upd_inst c (λ ct, Contract (c_desc ct) (c_state ct) vals (c_fns ct) (c_shape_hash ct)
         (c_signed_at ct) (c_pledge_state ct) (c_pledge_err ct) (c_sub_txn ct) (c_store ct));;
       mret s) w (λ st w', rstep st w' (λ ct h, ∃ vals ts, dec_vows (d_vows d) vb = Some ts ∧
         ct = blank vals fns None [] None None ∧ vows_are h vals ts ∧ length ts = length (d_vows d))
       (dec_vows (d_vows d) vb = None)).
Proof.
  intros B Hf Hfit. destruct (building_live _ _ _ _ Hwf B) as [Hwf1 Hl1]. apply wwp_bind, wwp_in_mem.
  eapply wp_mono.
  { apply (wp_resume_vows c fv vb); [|done..]. eapply field_mono; [by eapply building_heap|exact Hf]. }
  intros [st vals] m' (h1 & G & Hres). apply wwp_bind.
  pose proof (building_mem _ _ _ _ _ _ B G) as B1. pose proof (building_incl _ _ _ _ _ B G) as Hsub.
  assert (Hu : h1 ⊆ h1 ∪ hn) by apply map_union_subseteq_l.
  eapply wwp_upd_building; [exact B1|]. intros w' B' Em. apply wwp_ret. destruct st; try done.
  - destruct Hres as (ts & Hd & Hlen & Hv). eapply rstep_ok; [exact B'|]. exists vals, ts. split_and!; try done.
    by eapply vows_are_mono.
  - eapply rstep_fail; [exact B'|done|by left].
  - eapply rstep_fail; [exact B'|done|right]. pose proof (building_short _ _ _ _ _ B Hres) as S.
    unfold SignSpec.short in *. by rewrite Em.
Qed.

Lemma wwp_latches_step fns vals w hn fl fe lb eb :
  building w (blank vals fns None [] None None) hn →
  field_bytes (heap (wm w0)) fl lb → field_bytes (heap (wm w0)) fe eb →
  let n := length (d_pledges d) in
  wwp (resume_latches c d fl fe) w (λ st w', rstep st w' (λ ct h, hn ⊆ h ∧ ∃ ls errs es,
      dec_latches n lb eb = Some (ls, es) ∧ ct = blank vals fns ls errs None None ∧ Forall2 (err_is h) errs es)
    (dec_latches n lb eb = None)).
Proof.
  intros B Hfl Hfe n. unfold resume_latches, dec_latches. fold n.
  destruct (Nat.eqb_spec n 0) as [E|E].
  { apply wwp_ret. eapply rstep_ok; [exact B|]. split; [done|]. by exists None, [], []. }
  apply wwp_bind. eapply wwp_sys_alloc; [exact B|]. intros a w1 B1 Ha.
  apply wwp_bind. eapply wwp_sys_alloc; [exact B1|]. intros b w2 B2 Hb'.
  assert (Hab : a && b = false → short w2).
  { intros [->| ->]%andb_false_iff; apply Hb'; auto. }
  destruct (a && b) eqn:Eab; cbn [negb]; [|by apply wwp_ret; eapply rstep_fail; [exact B2|done|right; auto]].
  destruct (building_live _ _ _ _ Hwf B2) as [Hwf2 Hl2].
  pose proof (field_mono _ _ _ _ (building_heap _ _ _ B2) Hfl) as Hfl2.
  pose proof (field_mono _ _ _ _ (building_heap _ _ _ B2) Hfe) as Hfe2.
  pose proof Hfl2 as (Hll & _). pose proof Hfe2 as (Hle & _). rewrite Hll. unfold zlen at 1.
  destruct (Nat.eqb_spec (length lb) n) as [El|El].
  2: { rewrite (proj2 (Z.eqb_neq _ _)) by lia. apply wwp_ret. eapply rstep_fail; [exact B2|done|by left]. }
  rewrite (proj2 (Z.eqb_eq _ _)) by lia. cbn [negb]. apply wwp_bind, wwp_in_mem. eapply wp_blob; [exact Hfl2|].
  replace (set_wm (wm w2) w2) with w2 by (by destruct w2).
  destruct (mapM latch_of lb) as [ls|] eqn:Els; cbn [mbind option_bind].
  2: { apply wwp_ret. eapply rstep_fail; [exact B2|done|by left]. }
  apply wwp_bind. eapply wwp_upd_building; [exact B2|]. intros w3 B3 Em. apply wwp_bind, wwp_in_mem.
  rewrite <- Em in *. eapply wp_blob; [exact Hfe2|]. replace (set_wm (wm w3) w3) with w3 by (by destruct w3).
  apply wwp_bind, wwp_in_mem. eapply wp_mono.
  { eapply (wp_resume_errs c fe eb (wm w3) n Hfe2 Hl2 (wm w3) ∅ 0 [] []);
      [by apply grown_refl|done|pose proof (zlen_nonneg eb); lia]. }
  intros [[st errs] off] m4 (h4 & G & Hres). change (drop (Z.to_nat 0) eb) with eb in Hres.
  pose proof (building_mem _ _ _ _ _ _ B3 G) as B4. pose proof (building_incl _ _ _ _ _ B3 G) as Hsub.
  unfold dec_errs. destruct st; try done; cbn [st_ok negb].
  - destruct Hres as (es & Hd & Ho & Hlen & Hes). rewrite Hd. cbn [mbind option_bind]. apply wwp_bind.
    eapply wwp_upd_building; [exact B4|]. intros w5 B5 _. apply wwp_ret. rewrite Hle.
    destruct (Z.eqb_spec off (zlen eb)) as [->|Hne].
    + unfold zlen. rewrite Nat2Z.id, drop_all, decide_True by done. eapply rstep_ok; [exact B5|]. split; [done|].
      exists (Some ls), errs, es. split_and!; try done. eapply Forall2_impl; [exact Hes|].
      intros e o. apply err_is_mono, map_union_subseteq_l.
    + rewrite decide_False. { eapply rstep_fail; [exact B5|done|by left]. }
      intros Hnil. apply (f_equal length) in Hnil. unfold zlen in *. rewrite length_drop in Hnil. simpl in Hnil. lia.
  - apply wwp_ret. rewrite Hres. eapply rstep_fail; [exact B4|done|by left].
  - apply wwp_ret. eapply rstep_fail; [exact B4|done|right]. by eapply building_short.
Qed.

Lemma wwp_txns_step fns vals ls errs w hn ft tb :
  building w (blank vals fns ls errs None None) hn → field_bytes (heap (wm w0)) ft tb →
  let n := length (d_subs d) in
  wwp (resume_txns c d ft) w (λ st w', rstep st w' (λ ct h, h = hn ∧ ∃ xs,
      dec_txns n tb = Some xs ∧ ct = blank vals fns ls errs xs None)
    (dec_txns n tb = None)).
Proof.
  intros B Hft n. unfold resume_txns, dec_txns. fold n.
  destruct (Nat.eqb_spec n 0) as [E|E].
  { apply wwp_ret. eapply rstep_ok; [exact B|]. split; [done|]. by exists None. }
  apply wwp_bind. eapply wwp_sys_alloc; [exact B|]. intros a w1 B1 Ha.
  destruct a; cbn [negb]; [|by apply wwp_ret; eapply rstep_fail; [exact B1|done|right; auto]].
  pose proof (field_mono _ _ _ _ (building_heap _ _ _ B1) Hft) as Hft1. pose proof Hft1 as (Hl & _).
  rewrite Hl. unfold zlen at 1. destruct (Nat.eqb_spec (length tb) n) as [El|El].
  2: { rewrite (proj2 (Z.eqb_neq _ _)) by lia. apply wwp_ret. eapply rstep_fail; [exact B1|done|by left]. }
  rewrite (proj2 (Z.eqb_eq _ _)) by lia. cbn [negb]. apply wwp_bind, wwp_in_mem. eapply wp_blob; [exact Hft1|].
  replace (set_wm (wm w1) w1) with w1 by (by destruct w1).
  destruct (mapM txn_of tb) as [xs|] eqn:Exs; cbn [mbind option_bind].
  - apply wwp_bind. eapply wwp_upd_building; [exact B1|]. intros w2 B2 _. apply wwp_ret.
    eapply rstep_ok; [exact B2|]. split; [done|]. by exists (Some xs).
  - apply wwp_ret. eapply rstep_fail; [exact B1|done|by left].
Qed.

Lemma wwp_resume_publish vals fns ls errs xs sto w hn st signed :
  building w (blank vals fns ls errs xs sto) hn → (length (instances w0) ≤ GEAS_MAX_INSTANCES)%nat →
  wwp (resume_publish c d st signed) w (λ r w',
    r = GEAS_OK ∧ (length (instances w0) < GEAS_MAX_INSTANCES)%nat ∧
      (∃ w1, building w1 (Contract d st vals fns (d_shape_hash d) signed ls errs xs sto) hn ∧
        w' = set_instances (instances w0 ++ [c]) w1) ∨
    r = GEAS_ERR_OOM ∧ length (instances w0) = GEAS_MAX_INSTANCES ∧ ∃ ct, building w' ct hn).
Proof.
  intros B Hcap. unfold resume_publish. apply wwp_bind. eapply wwp_upd_building; [exact B|]. intros w1 B1 _.
  unfold wwp, take_slot. pose proof B1 as (_ & _ & _ & Ei & _). rewrite Ei.
  destruct (Nat.eqb_spec (length (instances w0)) GEAS_MAX_INSTANCES) as [E|E].
  - right. split_and!; eauto.
  - left. split; [done|]. split; [lia|]. by exists w1.
Qed.
End Resume.

(** ** The arena *)

Section Arena.
Context `{SQ : Sqlite}.

Lemma arena_free_run a w bl : owned (wm w) !! a = Some bl →
  park_arena_free a w = WRet tt (set_wm (without_list a bl (wm w)) w).
Proof.
  intros Ha. unfold park_arena_free, mbind, W_bind, in_mem, free_owned, drop_list. rewrite Ha. simpl.
  unfold without_list, set_wm. simpl. by rewrite delete_insert_eq.
Qed.

(** What is left of [m] once the arena [a] is gone: the memory [mb] it was opened
    in and the blocks [hn] of the instance [c]. *)
Record settled (c a : Z) (mb : mem) (hn : gmap Z block) (m : mem) : Prop := Settled {
  se_wf : mem_wf m;
  se_heap : heap m = hn ∪ heap mb;
  se_fresh : hn ##ₘ heap mb;
  se_owned : ∃ new, owned m = <[c := new]> (delete a (owned mb)) ∧ ∀ p, p ∈ new ↔ is_Some (hn !! p)
}.

Lemma settle c a mb ha mw base hn m new : mem_wf m →
  grown a mb ha mw → owned mb !! a = Some [] → heap base = heap mw → owned base = <[c := []]> (owned mw) →
  grown c base hn m → c ≠ a → owned m !! a = Some new → settled c a mb hn (without_list a new m).
Proof.
  intros Hwf [W1 H1 F1 N1 (na & oa & Oa & Ea & Ia) _ _ _] Hnil Hb Hob [W2 H2 F2 _ (nc & oc & Oc & Ec & Ic) _ _ _] Hne Ha.
  rewrite Hnil in Oa. injection Oa as <-. rewrite app_nil_r in Ea.
  rewrite Hob, lookup_insert_eq in Oc. injection Oc as <-. rewrite app_nil_r, Hob, insert_insert_eq, Ea in Ec.
  rewrite Ec, lookup_insert_ne, lookup_insert_eq in Ha by done. injection Ha as <-.
  rewrite Hb, H1 in F2. apply map_disjoint_union_r in F2 as [F21 F22].
  split.
  - apply mem_wf_without; [done|]. by rewrite Ec, lookup_insert_ne, lookup_insert_eq.
  - simpl. rewrite H2, Hb, H1, map_union_assoc, (map_union_comm hn ha), <- map_union_assoc by done.
    apply foldr_delete_union; [|done]. apply map_disjoint_union_r. split; [by apply map_disjoint_sym|done].
  - done.
  - exists nc. simpl. rewrite Ec. split; [|done]. rewrite delete_insert_ne by done. by rewrite delete_insert_eq.
Qed.

(** ** The whole rebuild *)

Definition revived (c a : Z) (mb : mem) (w : world) (d : GeasContractDesc) (fns : list Z)
    (st : GeasContractState) (signed : Z) (cg : cargo) (w' : world) : Prop :=
  ∃ vals errs sto hn,
    vows_are hn vals (cg_vows cg) ∧ Forall2 (err_is hn) errs (cg_errs cg) ∧ (sto = None ↔ d_schemas d = []) ∧
    settled c a mb hn (wm w') ∧ instances w' = instances w ++ [c] ∧
    (length (instances w) < GEAS_MAX_INSTANCES)%nat ∧
    ci w' = <[c := Contract d st vals fns (d_shape_hash d) signed (cg_latches cg) errs (cg_txns cg) sto]> (ci w).

Definition unresumed (a : Z) (mb : mem) (w w' : world) : Prop :=
  ci w' = ci w ∧ heap (wm w') = heap mb ∧ owned (wm w') = delete a (owned mb) ∧
  instances w' = instances w ∧ wr w' = wr w ∧ clock w' = clock w.

(** What a refusal to resume may come from. *)
Definition why_not (d : GeasContractDesc) (b : blobs) (w w' : world) : Prop :=
  unpack d b = None ∨ d_schemas d ≠ [] ∨ length (instances w) = GEAS_MAX_INSTANCES ∨ refused (wm w) (wm w').

Definition resume_post (d : GeasContractDesc) (b : blobs) (fns : list Z) (state : GeasContractState) (signed : Z)
    (a : Z) (mb : mem) (w : world) (r : GeasStatus * Z) (w' : world) : Prop :=
  let c := next_addr w in
  r = (GEAS_OK, c) ∧ (∃ cg, unpack d b = Some cg ∧ revived c a mb w d fns state signed cg w') ∨
  r.1 ≠ GEAS_OK ∧ r.2 = 0 ∧ unresumed a mb w w' ∧ why_not d b w w'.

Section Build.
Context (w : world) (d : GeasContractDesc) (b : blobs) (a : Z) (mb : mem) (ha : gmap Z block).
Context (Ga : grown a mb ha (wm w)) (Hnil : owned mb !! a = Some []).
Let w0 : world := set_wm (tick (tick (wm w))) w.
Notation c := (next_addr w0).

Lemma build_wf : mem_wf (wm w0).
Proof. destruct (gr_wf _ _ _ _ Ga). by split. Qed.

Lemma arena_owned : ∃ new, owned (wm w) !! a = Some new.
Proof. destruct (gr_owned _ _ _ _ Ga) as (new & old & _ & -> & _). rewrite lookup_insert_eq. eauto. Qed.

Lemma arena_apart : c ≠ a.
Proof.
  destruct (next_addr_fresh w0) as (_ & Ho & _). destruct arena_owned as [new Hn]. intros E.
  rewrite E in Ho. simpl in Ho. congruence.
Qed.

Lemma build_settle w1 ct hn : building w0 w1 ct hn →
  ∃ new, owned (wm w1) !! a = Some new ∧ settled c a mb hn (without_list a new (wm w1)) ∧
    (short w0 w1 → refused (wm w) (without_list a new (wm w1))).
Proof.
  intros (_ & G & _). destruct arena_owned as [new Hn]. exists new.
  assert (Hn1 : owned (wm w1) !! a = Some new).
  { destruct (gr_owned _ _ _ _ G) as (nc & oc & Hoc & -> & _). pose proof arena_apart.
    rewrite lookup_insert_ne by done. simpl. by rewrite lookup_insert_ne. }
  split; [done|]. split.
  - eapply (settle c a mb ha (wm w) (sign_mem w0)); [by eapply gr_wf|done..|exact G|apply arena_apart|done].
  - intros (k & z & Hk & Hz). exists k, z. simpl in *. split; [lia|done].
Qed.

(** The failing tail: the arena, then the instance. *)
Lemma wwp_build_fail st w1 ct hn : st ≠ GEAS_OK → building w0 w1 ct hn →
  unpack d b = None ∨ d_schemas d ≠ [] ∨ length (instances w) = GEAS_MAX_INSTANCES ∨ short w0 w1 →
  ∀ fns state signed,
  wwp (park_arena_free a;; if negb (st_ok st) then drop_instance c;; mret (st, 0) else mret (st, c)) w1
    (resume_post d b fns state signed a mb w).
Proof.
  intros Hst B Hwhy fns state signed. destruct (build_settle _ _ _ B) as (na & Hna & [Wf Hh Hfr (nc & Ho & Hc)] & Hsh).
  apply wwp_bind. unfold wwp at 1. rewrite (arena_free_run a w1 na Hna).
  destruct (st_ok st) eqn:E; [by apply st_ok_spec in E|]. cbn [negb]. apply wwp_bind. unfold wwp at 1.
  destruct B as (B1 & _ & B3 & B4 & B5). erewrite drop_run; [|simpl; by rewrite B1, lookup_insert_eq|
    simpl in *; by rewrite Ho, lookup_insert_eq].
  apply wwp_ret. right. destruct (next_addr_fresh w0) as (Hfc & Hfo & _). split_and!; [done..| |].
  - split_and!; try done.
    + simpl. rewrite B1, delete_insert_eq. by apply delete_id.
    + simpl in *. rewrite Hh. by apply foldr_delete_union.
    + simpl in *. rewrite Ho, delete_insert_eq. apply delete_id.
      destruct (gr_owned _ _ _ _ Ga) as (new & old & _ & Ea & _). rewrite Ea in Hfo.
      pose proof arena_apart. rewrite lookup_insert_ne in Hfo by done. by rewrite lookup_delete_ne.
  - destruct Hwhy as [?|[?|[?|Hs]]]; unfold why_not; [by left|by right; left|by right; right; left|].
    right; right; right. destruct (Hsh Hs) as (k & z & ? & ?). by exists k, z.
Qed.

(** A step that follows a good one runs; after a bad one the rest is skipped. *)
Lemma rstep_next st w1 Ok bad (e : W GeasStatus) (Q : GeasStatus → world → Prop) :
  rstep w0 st w1 Ok bad →
  (∀ ct hn, building w0 w1 ct hn → Ok ct hn → wwp e w1 Q) →
  (st ≠ GEAS_OK → ∀ ct hn, building w0 w1 ct hn → bad ∨ short w0 w1 → Q st w1) →
  wwp (if_ok st e) w1 Q.
Proof.
  intros [P Hb] Hok Hno. eapply wwp_if_ok; [exact P|exact Hok|]. intros ct hn Hst B. eapply Hno; eauto.
  by destruct Hb.
Qed.
Lemma skip_step st (e : W GeasStatus) w1 (Q : GeasStatus → world → Prop) :
  st ≠ GEAS_OK → Q st w1 → wwp (if_ok st e) w1 Q.
Proof.
  intros Hst H. unfold if_ok. destruct (st_ok st) eqn:E; [by apply st_ok_spec in E|]. by apply wwp_ret.
Qed.

Lemma unpack_none : dec_vows (d_vows d) (bl_vows b) = None ∨
  dec_latches (length (d_pledges d)) (bl_latches b) (bl_errs b) = None ∨
  dec_txns (length (d_subs d)) (bl_txns b) = None → unpack d b = None.
Proof.
  unfold unpack. intros [->|[E|E]]; [done| |].
  - destruct (dec_vows _ _); simpl; [|done]. by rewrite E.
  - destruct (dec_vows _ _); simpl; [|done]. destruct (dec_latches _ _ _) as [[]|]; simpl; [|done]. by rewrite E.
Qed.

(** The instance struct and its lock: both granted, or memory only counted the
    requests. *)
Lemma contract_alloc_run m :
  contract_alloc m = Ret true (tick (tick m)) ∨
  ∃ m', contract_alloc m = Ret false m' ∧ heap m' = heap m ∧ owned m' = owned m ∧ refused m m'.
Proof.
  unfold contract_alloc, pthread_init, bind, sys_alloc, ret.
  destruct (lib_malloc (lib m) (ticks m) sizeof_contract) eqn:E1; cbn [lib ticks];
    [destruct (lib_malloc (lib m) (S (ticks m)) 0) eqn:E2|].
  - by left.
  - right. eexists. split; [done|]. split_and!; [done..|]. exists (S (ticks m)), 0. simpl. split; [lia|done].
  - right. eexists. split; [done|]. split_and!; [done..|]. exists (ticks m), sizeof_contract. simpl. split; [lia|done].
Qed.

Lemma wwp_resume_build fns state signed fv fl fe ft :
  field_bytes (heap (wm w)) fv (bl_vows b) → field_bytes (heap (wm w)) fl (bl_latches b) →
  field_bytes (heap (wm w)) fe (bl_errs b) → field_bytes (heap (wm w)) ft (bl_txns b) →
  fits_slots (length (d_vows d)) → fits_slots (length (d_pledges d)) →
  (length (d_pledges d) = 0%nat → fns = []) → (length (instances w) ≤ GEAS_MAX_INSTANCES)%nat →
  wwp (resume_build d fns state signed fv fl fe ft a) w (resume_post d b fns state signed a mb w).
Proof.
  intros Hv Hl He Ht Hfv Hfp Hfns Hcap. pose proof build_wf as Hwf. unfold resume_build.
  apply wwp_bind, wwp_in_mem. unfold wp at 1.
  destruct (contract_alloc_run (wm w)) as [->|(m' & -> & Hh' & Ho' & Hr')]; cbn [negb].
  2: { destruct arena_owned as [new Hn]. apply wwp_bind. unfold wwp at 1.
       rewrite (arena_free_run a (set_wm m' w) new) by (simpl; by rewrite Ho').
       apply wwp_ret. right. split_and!; [done..| |].
       - destruct Ga as [_ Hh Hf _ (na & oa & Oa & Ea & Ia) _ _ _]. rewrite Hnil in Oa. injection Oa as <-.
         rewrite app_nil_r in Ea. rewrite Ea, lookup_insert_eq in Hn. injection Hn as <-.
         split_and!; try done; simpl; [rewrite Hh', Hh; by apply foldr_delete_union|by rewrite Ho', Ea, delete_insert_eq].
       - right; right; right. destruct Hr' as (k & z & ? & ?). by exists k, z. }
  change (set_wm (tick (tick (wm w))) w) with w0.
  apply wwp_bind. unfold wwp at 1, new_instance.
  eapply wwp_bind, wwp_mono.
  { eapply (wwp_sign_fns w0 d fns _ ∅); [done| |done|done]. split; [done|]. split; [|done].
    apply grown_refl; by apply sign_mem_wf. }
  intros st1 w1 [P1 Hs1].
  assert (P1' : rstep w0 st1 w1 (λ ct _, ct = blank d 0 fns None [] None None) False).
  { split; [exact P1|]. destruct Hs1 as [?|[_ ?]]; auto. }
  apply wwp_bind. eapply (rstep_next _ _ _ _ _ _ P1'); cycle 1.
  { intros Hst ct hn B [[]|Hsh]. do 4 (apply wwp_bind, skip_step; [done|]). eapply wwp_build_fail; eauto. }
  intros ct1 h1 B1 ->. eapply wwp_mono; [by eapply wwp_vows_step|]. intros st2 w2 P2.
  apply wwp_bind. eapply (rstep_next _ _ _ _ _ _ P2); cycle 1.
  { intros Hst ct hn B Hbad. do 3 (apply wwp_bind, skip_step; [done|]). eapply wwp_build_fail; eauto.
    destruct Hbad; [left; apply unpack_none|]; auto. }
  intros ct2 h2 B2 (vals & ts & Hdv & -> & Hva & Hlts).
  eapply wwp_mono; [by eapply wwp_latches_step|]. intros st3 w3 P3.
  apply wwp_bind. eapply (rstep_next _ _ _ _ _ _ P3); cycle 1.
  { intros Hst ct hn B Hbad. do 2 (apply wwp_bind, skip_step; [done|]). eapply wwp_build_fail; eauto.
    destruct Hbad; [left; apply unpack_none|]; auto. }
  intros ct3 h3 B3 (Hsub & ls & errs & es & Hdl & -> & Hes).
  eapply wwp_mono; [by eapply wwp_txns_step|]. intros st4 w4 P4.
  apply wwp_bind. eapply (rstep_next _ _ _ _ _ _ P4); cycle 1.
  { intros Hst ct hn B Hbad. apply wwp_bind, skip_step; [done|]. eapply wwp_build_fail; eauto.
    destruct Hbad; [left; apply unpack_none|]; auto. }
  intros ct4 h4 B4 (-> & xs & Hdx & ->). apply vows_are_mono with (h' := h3) in Hva; [|done].
  eapply wwp_mono; [eapply wwp_store_sign; [done|exact B4|by eapply vows_are_full]|]. intros st5 w5 [P5 Hsch].
  apply wwp_bind. eapply (wwp_if_ok _ _ _ _ _ _ P5); cycle 1.
  { intros ct hn Hst B. eapply wwp_build_fail; [done|exact B|]. right; left. intros Hx. by apply Hst, Hsch. }
  intros ct5 h5 B5 (-> & sto & -> & Hsto).
  eapply wwp_mono; [by eapply wwp_resume_publish|]. intros st6 w6 [(-> & Hlt & w7 & B7 & ->)|(-> & Hfull & ct & B6)].
  2: { eapply wwp_build_fail; eauto. }
  destruct (build_settle _ _ _ B7) as (na & Hna & Hse & _). apply wwp_bind. unfold wwp at 1.
  rewrite (arena_free_run a (set_instances (instances w0 ++ [c]) w7) na Hna). apply wwp_ret. left. split; [done|].
  exists (Cargo ts ls es xs). split; [unfold unpack; by rewrite Hdv; cbn [mbind option_bind]; rewrite Hdl; cbn [mbind option_bind]; rewrite Hdx|].
  exists vals, errs, sto, h3. split_and!; try done. by destruct B7 as (E & _).
Qed.
End Build.
End Arena.
