(* ===== verification/ResumeRun.v ===== *)
(** * Resuming: from the key to the row's fields

    [resume_query] through the driver, the borrowed key, and the fields of the
    row the query built in the arena. *)
From S2P Require Import Prelude Abi Memory Value ValueSpec Wire WireSpec Iname InameSpec Policy Store Future Lifecycle LifecycleSpec SignSpec StoreSql Sqlite Driver Rows RowsSpec Park ParkSpec ResumeSpec.

(** ** Borrowed bytes *)

Definition exposed (bs : list Z) (m : mem) : mem :=
  Mem (<[brk m := BBytes bs]> (heap m)) (owned m) (brk m + 1) (ticks m) (lib m).
Definition concealed (p : Z) (m : mem) : mem := set_heap (delete p) m.

Lemma wf_fresh m : mem_wf m → heap m !! brk m = None.
Proof. intros [B D _ _ _]. apply eq_None_not_Some. intros H%D. lia. Qed.

Lemma exposed_wf bs m : mem_wf m → mem_wf (exposed bs m).
Proof.
  intros [B D O N J]. split; simpl; [lia| | |done|done].
  - intros p [E|[_ H]]%lookup_insert_is_Some; [lia|]. apply D in H. lia.
  - intros c bl p Hc Hp. apply lookup_insert_is_Some. destruct (decide (brk m = p)); [by left|right]. eauto.
Qed.

Lemma grown_conceal a bs m ha m2 : mem_wf m → grown a (exposed bs m) ha m2 →
  grown a m ha (concealed (brk m) m2).
Proof.
  intros Hwf [W2 H2 F2 N2 (new & old & Ho & E2 & I2) L2 T2 B2]. simpl in *.
  pose proof (wf_fresh _ Hwf) as Hfr. apply map_disjoint_insert_r in F2 as [Hp F2].
  assert (Hne : ∀ p, p ∈ new → p ≠ brk m) by (intros p Hp' E; apply I2 in Hp' as [? ?]; congruence).
  assert (Hold : ∀ c bl p, owned m !! c = Some bl → p ∈ bl → p ≠ brk m).
  { intros c bl p Hc Hp' E. destruct (wf_owned _ Hwf _ _ _ Hc Hp') as [? ?]. congruence. }
  split; simpl; try done; try lia.
  - destruct W2 as [B D O N J]. split; simpl; [done| | |done|done].
    + intros p [_ H]%lookup_delete_is_Some. by apply D.
    + intros c bl p Hc Hp'. apply lookup_delete_is_Some. split; [|by eapply O]. intros E.
      rewrite E2 in Hc. apply lookup_insert_Some in Hc as [[<- <-]|[_ Hc]]; [|by eapply (Hold _ _ p)].
      apply elem_of_app in Hp' as [Hp'|Hp']; [by eapply (Hne p)|by eapply (Hold _ _ p)].
  - by rewrite H2, delete_union, delete_insert_id, delete_id by done.
  - intros p Hp'. apply N2 in Hp'. lia.
  - by exists new, old.
Qed.

Lemma exposed_repr bs m : mem_wf m → Z.of_nat (length bs) <= INT_MAX →
  repr (heap (exposed bs m)) (park_str_param (brk m) (Z.of_nat (length bs))) (VString 0 bs).
Proof.
  intros [B _ _ _ _] Hle. unfold INT_MAX in Hle. simpl. split_and!; try done.
  { unfold fits_bytes, sizeof_GeasBlock. lia. }
  right. unfold s_ptr. simpl. split; [lia|]. exists bs. by rewrite lookup_insert_eq, firstn_all.
Qed.

(** ** The query *)

Section Serve.
Context `{SQ : Sqlite}.

(** The library serves the key: the database opens, the table is there, and the
    query's second walk visits [rs]; the columns are byte strings an [int] counts. *)
Record row_served (dsn key : string) (s0 : sq) (stmt : Z) (rs0 rs : list sq) : Prop := RowServed {
  rs_run : ∃ h s1 s2 s5, Driver.geas_store_open (Some dsn) s0 = Some (GEAS_OK, h, s1) ∧
    Driver.geas_store_exec h (Some PARK_DDL) s1 = Some (GEAS_OK, s2) ∧
    query_runs h PARK_GET park_cols [VString 0 (str_bytes key)] s2 stmt rs0 rs s5;
  rs_key : Z.of_nat (length (str_bytes key)) <= INT_MAX;
  rs_blobs : Forall (λ r, blobs_ok stmt r ∧ ∀ i, bytes_ok (sqlite3_column_blob stmt i r)) rs
}.

Definition query_left (a : Z) (m : mem) (stmt : Z) (rs : list sq) (r : GeasStatus * GeasValue) (m' : mem) : Prop :=
  ∃ ha, grown a m ha m' ∧
    (r.1 = GEAS_OK ∧ repr ha r.2 (rows_val stmt park_cols rs) ∨ r = (GEAS_ERR_OOM, gzero) ∧ refused m m').

Lemma wwp_resume_query w fuel dsn key a m s0 stmt rs0 rs :
  row_served dsn key s0 stmt rs0 rs → mem_wf m → live a m → (length rs0 < fuel)%nat →
  sizeof_StoreScratchBlock + Z.of_nat (length rs0) * sizeof_GeasValue <= U64_MAX →
  wwp (resume_query fuel dsn key a) (at_ms w m s0) (λ r w', ∃ m' s', w' = at_ms w m' s' ∧ query_left a m stmt rs r m').
Proof.
  intros [(h & s1 & s2 & s5 & Eo & Ee & Hq) Hk Hb] Hwf Hl Hfuel Hsz. unfold resume_query.
  apply wwp_bind. unfold wwp at 1, in_driver. simpl ws. rewrite Eo. cbn [st_ok negb].
  apply wwp_bind. unfold wwp at 1, in_driver. simpl ws. rewrite Ee. cbn [st_ok].
  change (set_ws _ (set_ws _ (at_ms w m s0))) with (at_ms w m s2).
  apply wwp_bind, wwp_bind. unfold str_param, expose. unfold wwp at 1, mbind at 1, W_bind at 1. cbn [wm at_ms set_ws set_wm].
  change (set_wm _ (at_ms w m s2)) with (at_ms w (exposed (str_bytes key) m) s2).
  unfold mret at 1, W_ret at 1. apply wwp_bind.
  set (k := park_str_param _ _). pose proof (exposed_wf (str_bytes key) m Hwf) as Hwfe.
  eapply wwp_mono.
  { eapply (wwp_query w a (park_arena_bytes a) fuel h PARK_GET [k] [VString 0 (str_bytes key)]); [|exact Hwfe|exact Hl|..|exact Hq| |exact Hfuel|exact Hsz].
    - apply instance_alloc.
    - constructor; [|constructor]. by apply exposed_repr.
    - by constructor.
    - vm_compute. congruence.
    - eapply Forall_impl; [exact Hb|]. by intros r [? _]. }
  intros r w' (m' & s' & hn & -> & G & Hres). apply wwp_bind. unfold wwp at 1, conceal. cbn [s_ptr k park_str_param g_string w0].
  change (set_wm _ (at_ms w m' _)) with (at_ms w (concealed (brk m) m') (sqlite3_finalize stmt s')).
  apply wwp_ret. destruct r as [st rows]. apply wwp_bind. unfold wwp at 1, in_driver, Driver.geas_store_close.
  pose proof (qr_h _ _ _ _ _ _ _ _ _ Hq) as Hh. rewrite (proj2 (Z.eqb_neq _ _)) by done. simpl ws. unfold Driver.call.
  apply wwp_ret. eexists (concealed (brk m) m'), _. split; [done|]. exists hn.
  split; [by eapply grown_conceal|]. destruct Hres as [(? & _ & ?)|[? (n & z & ? & ?)]]; [left|right]; [done|].
  split; [done|]. by exists n, z.
Qed.

(** ** The row's fields *)

Record parked_row := ParkRow {
  pr_name : list Z; pr_version : Z; pr_shape : Z; pr_state : Z; pr_signed : Z; pr_blobs : blobs
}.

(** What the columns of the current row say. *)
Definition row_of (stmt : Z) (r : sq) : parked_row :=
  let blob i := sqlite3_column_blob stmt i r in
  let int i := u64 (sqlite3_column_int64 stmt i r) in
  ParkRow (blob 0) (i64 (int 1)) (int 2) (i64 (int 3)) (i64 (int 4)) (Blobs (blob 5) (blob 6) (blob 7) (blob 8)).

Lemma row_cells_park stmt r : row_cells stmt r 0 park_cols =
  let blob i := VString 0 (sqlite3_column_blob stmt i r) in
  let int k i := VScalar k 0 (u64 (sqlite3_column_int64 stmt i r)) in
  [blob 0; int GEAS_TY_INT 1; int GEAS_TY_UINT 2; int GEAS_TY_INT 3; int GEAS_TY_INT 4; blob 5; blob 6; blob 7; blob 8].
Proof. reflexivity. Qed.

(** The first row's record and its nine fields. *)
Definition row_fields (h : gmap Z block) (rows : GeasValue) (p : parked_row) : Prop :=
  ∃ ss rec fs fn fver fhash fst fsig fv fl fe ft,
    h !! l_data rows = Some (BVals ss) ∧ ss !! 0%nat = Some rec ∧ h !! l_data rec = Some (BVals fs) ∧
    fs !! 0%nat = Some fn ∧ fs !! 1%nat = Some fver ∧ fs !! 2%nat = Some fhash ∧ fs !! 3%nat = Some fst ∧
    fs !! 4%nat = Some fsig ∧ fs !! 5%nat = Some fv ∧ fs !! 6%nat = Some fl ∧ fs !! 7%nat = Some fe ∧
    fs !! 8%nat = Some ft ∧
    field_bytes h fn (pr_name p) ∧ as_i fver = pr_version p ∧ as_u fhash = pr_shape p ∧
    as_i fst = pr_state p ∧ as_i fsig = pr_signed p ∧ field_bytes h fv (bl_vows (pr_blobs p)) ∧
    field_bytes h fl (bl_latches (pr_blobs p)) ∧ field_bytes h fe (bl_errs (pr_blobs p)) ∧
    field_bytes h ft (bl_txns (pr_blobs p)).

Lemma repr_field h f bs : repr h f (VString 0 bs) → bytes_ok bs → Z.of_nat (length bs) <= INT_MAX →
  field_bytes h f bs.
Proof.
  intros (_ & _ & Hl & _ & Hp) Hb Hle. unfold INT_MAX in Hle. split_and!; try done.
  unfold buffer_fits, sizeof_GeasBlock, zlen. lia.
Qed.

Lemma rows_fields h rows stmt r rs : repr h rows (rows_val stmt park_cols (r :: rs)) →
  blobs_ok stmt r → (∀ i, bytes_ok (sqlite3_column_blob stmt i r)) →
  l_len rows ≠ 0 ∧ row_fields h rows (row_of stmt r).
Proof.
  intros Hr Hb Hbytes. apply repr_seq in Hr as (_ & _ & _ & _ & Hlen & _ & [?|(_ & ss & Hss & Hrs)]); [done|].
  split; [rewrite Hlen; simpl; lia|]. destruct (Hrs 0%nat _ eq_refl) as (rec & Hrec & Hrep).
  unfold row_val in Hrep. rewrite row_cells_park in Hrep. cbv zeta in Hrep.
  apply repr_seq in Hrep as (_ & _ & _ & _ & _ & _ & [?|(_ & fs & Hfs & Hf)]); [done|].
  destruct (Hf 0%nat _ eq_refl) as (fn & H0 & R0), (Hf 1%nat _ eq_refl) as (f1 & H1 & R1),
    (Hf 2%nat _ eq_refl) as (f2 & H2 & R2), (Hf 3%nat _ eq_refl) as (f3 & H3 & R3),
    (Hf 4%nat _ eq_refl) as (f4 & H4 & R4), (Hf 5%nat _ eq_refl) as (f5 & H5 & R5),
    (Hf 6%nat _ eq_refl) as (f6 & H6 & R6), (Hf 7%nat _ eq_refl) as (f7 & H7 & R7),
    (Hf 8%nat _ eq_refl) as (f8 & H8 & R8).
  exists ss, rec, fs, fn, f1, f2, f3, f4, f5, f6, f7, f8.
  destruct R1 as (_ & _ & _ & E1), R2 as (_ & _ & _ & E2), R3 as (_ & _ & _ & E3), R4 as (_ & _ & _ & E4).
  simpl in E1, E2, E3, E4. unfold as_i, as_u. rewrite E1, E2, E3, E4.
  repeat match goal with |- _ ∧ _ => split end; try done; simpl; (apply repr_field; [done|apply Hbytes|apply Hb]).
Qed.

(** ** From the record to the instance *)

(** What the row decides before its blobs are read. *)
Definition verdict (r : GeasRuntime) (expected : Z) (p : parked_row) : GeasStatus + GeasContractDesc * GeasContractState :=
  match (if (1 <=? pr_state p) && (pr_state p <=? 4) then state_of (pr_state p) else None) with
  | None => inl GEAS_ERR_TYPE
  | Some state =>
      match find_desc r (c_string (pr_name p)) with
      | None => inl GEAS_ERR_NAME
      | Some d =>
          if negb (d_version d =? pr_version p) || negb (d_shape_hash d =? pr_shape p) ||
             (negb (expected =? 0) && negb (expected =? d_shape_hash d))
          then inl GEAS_ERR_VERSION else inr (d, state)
      end
  end.

Lemma wwp_load p i w vs x (Q : GeasValue → world → Prop) :
  heap (wm w) !! p = Some (BVals vs) → vs !! i = Some x → Q x w → wwp (in_mem (load_slot p i)) w Q.
Proof.
  intros Hp Hi H. apply wwp_in_mem. eapply wp_load_slot; [exact Hp|exact Hi|]. by destruct w.
Qed.
Lemma wwp_blob f bs w (Q : list Z → world → Prop) :
  field_bytes (heap (wm w)) f bs → Q bs w → wwp (in_mem (blob f)) w Q.
Proof. intros Hf H. apply wwp_in_mem. eapply wp_blob; [exact Hf|]. by destruct w. Qed.

Section Row.
Context (a : Z) (mb : mem) (ha : gmap Z block) (Hnil : owned mb !! a = Some []).

Lemma wwp_resume_fail st w (Q : GeasStatus * Z → world → Prop) : grown a mb ha (wm w) →
  (∀ w', unresumed a mb w w' → ticks (wm w') = ticks (wm w) → Q (st, 0) w') →
  wwp (resume_fail a st) w Q.
Proof.
  intros Ga HQ. destruct (arena_owned w a mb ha Ga) as [new Hn]. apply wwp_bind. unfold wwp at 1.
  rewrite (arena_free_run a w new Hn). apply wwp_ret. apply HQ; [|done].
  destruct Ga as [_ Hh Hf _ (na & oa & Oa & Ea & Ia) _ _ _]. rewrite Hnil in Oa. injection Oa as <-.
  rewrite app_nil_r in Ea. rewrite Ea, lookup_insert_eq in Hn. injection Hn as <-.
  split_and!; try done; simpl; [rewrite Hh; by apply foldr_delete_union|by rewrite Ea, delete_insert_eq].
Qed.

(** The outcome of [resume_row], by what the row says. *)
Definition row_post (w : world) (p : parked_row) (expected : Z) (r : GeasStatus * Z) (w' : world) : Prop :=
  let starved := r.1 = GEAS_ERR_OOM ∧ r.2 = 0 ∧ unresumed a mb w w' ∧ refused (wm w) (wm w') in
  match verdict (wr w) expected p with
  | inl e => r = (e, 0) ∧ unresumed a mb w w' ∨ starved
  | inr (d, state) =>
      let '(dst, fns, rt) := resolve_dispatch (wr w) d in
      starved ∨
      dst ≠ GEAS_OK ∧ r = (dst, 0) ∧ unresumed a mb (set_wr rt w) w' ∨
      dst = GEAS_OK ∧
        resume_post d (pr_blobs p) fns state (pr_signed p) a mb (set_wr rt (set_wm (tick (wm w)) w)) r w'
  end.

Lemma grown_ticked m : grown a mb ha m → grown a mb ha (tick m).
Proof. apply grown_tick. Qed.

Lemma wwp_resume_row w rows p expected :
  grown a mb ha (wm w) → row_fields (heap (wm w)) rows p → (length (instances w) ≤ GEAS_MAX_INSTANCES)%nat →
  (∀ d, find_desc (wr w) (c_string (pr_name p)) = Some d →
     fits_slots (length (d_vows d)) ∧ fits_slots (length (d_pledges d))) →
  wwp (resume_row rows expected a) w (row_post w p expected).
Proof.
  intros Ga (ss & rec & fs & fn & fver & fhash & fst & fsig & fv & fl & fe & ft & Hss & Hrec & Hfs &
    H0 & H1 & H2 & H3 & H4 & H5 & H6 & H7 & H8 & Rn & Ev & Eh & Es & Eg & Rv & Rl & Re & Rt) Hcap Hfit.
  unfold resume_row, row_post, verdict. apply wwp_bind. eapply wwp_load; [exact Hss|exact Hrec|]. cbv zeta.
  do 9 (apply wwp_bind; eapply wwp_load; [exact Hfs|eassumption|]). rewrite Es, Ev, Eh, Eg.
  destruct (if (1 <=? pr_state p) && (pr_state p <=? 4) then state_of (pr_state p) else None) as [state|].
  2: { eapply wwp_resume_fail; [exact Ga|]. intros w' Hu _. by left. }
  apply wwp_bind, wwp_in_mem. unfold wp, sys_alloc. set (w1 := set_wm _ w).
  assert (Ga1 : grown a mb ha (wm w1)) by (by apply grown_ticked).
  destruct (lib_malloc _ _ _) eqn:Em; cbn [negb].
  2: { eapply wwp_resume_fail; [exact Ga1|]. intros w' Hu Htk.
       assert (K : GEAS_ERR_OOM = GEAS_ERR_OOM ∧ 0 = 0 ∧ unresumed a mb w w' ∧ refused (wm w) (wm w')).
       { split_and!; [done|done|exact Hu|]. exists (ticks (wm w)). eexists. rewrite Htk. simpl. split; [lia|exact Em]. }
       destruct (find_desc _ _) as [d|]; [|by right]. destruct (_ || _ || _); [by right|].
       destruct (resolve_dispatch _ _) as [[? ?] ?]. by left. }
  apply wwp_bind. eapply wwp_blob; [exact Rn|]. apply wwp_bind. unfold wwp at 1, get_rt.
  change (wr w1) with (wr w). destruct (find_desc (wr w) (c_string (pr_name p))) as [d|] eqn:Ed.
  2: { eapply wwp_resume_fail; [exact Ga1|]. intros w' Hu _. by left. }
  destruct (Hfit d eq_refl) as [Hfv Hfp].
  destruct (negb (d_version d =? pr_version p) || negb (d_shape_hash d =? pr_shape p) || _).
  { eapply wwp_resume_fail; [exact Ga1|]. intros w' Hu _. by left. }
  destruct (resolve_dispatch (wr w) d) as [[dst fns] rt] eqn:Er. apply wwp_bind. unfold wwp at 1, put_rt.
  destruct (st_ok dst) eqn:Est; cbn [negb].
  - apply st_ok_spec in Est as ->. eapply wwp_mono.
    + eapply (wwp_resume_build (set_wr rt w1) d (pr_blobs p) a mb ha Ga1 Hnil fns state (pr_signed p));
        [exact Rv|exact Rl|exact Re|exact Rt|done|done| |done].
      intros E. unfold resolve_dispatch in Er. rewrite E in Er. by injection Er as <- _.
    + intros r w' H. right; right. split; [done|]. exact H.
  - eapply wwp_resume_fail; [exact Ga1|]. intros w' Hu _. right; left. split; [by intros ->|]. by split.
Qed.
End Row.

(** ** The whole call *)

(** Nothing of the runtime has changed, the store and the registry's memo aside. *)
Definition unchanged (w w' : world) : Prop :=
  ci w' = ci w ∧ heap (wm w') = heap (wm w) ∧ owned (wm w') = owned (wm w) ∧
  instances w' = instances w ∧ clock w' = clock w.

(** A new instance [x] holding the cargo, in new blocks of its own. *)
Definition resumed (w : world) (d : GeasContractDesc) (fns : list Z) (state : GeasContractState)
    (signed : Z) (cg : cargo) (x : Z) (w' : world) : Prop :=
  ∃ vals errs sto hn new,
    ci w !! x = None ∧
    ci w' = <[x := Contract d state vals fns (d_shape_hash d) signed (cg_latches cg) errs (cg_txns cg) sto]> (ci w) ∧
    vows_are hn vals (cg_vows cg) ∧ Forall2 (err_is hn) errs (cg_errs cg) ∧ (sto = None ↔ d_schemas d = []) ∧
    mem_wf (wm w') ∧ heap (wm w') = hn ∪ heap (wm w) ∧ hn ##ₘ heap (wm w) ∧
    owned (wm w') = <[x := new]> (owned (wm w)) ∧ (∀ p, p ∈ new ↔ is_Some (hn !! p)) ∧
    instances w' = instances w ++ [x] ∧ (length (instances w) < GEAS_MAX_INSTANCES)%nat.

Definition resume_says (w : world) (expected : Z) (rows : list parked_row) (r : GeasStatus * Z) (w' : world) : Prop :=
  let starved := r = (GEAS_ERR_OOM, 0) ∧ unchanged w w' ∧ refused (wm w) (wm w') in
  match rows with
  | [] => r = (GEAS_ERR_NAME, 0) ∧ unchanged w w' ∨ starved
  | p :: _ =>
      match verdict (wr w) expected p with
      | inl e => r = (e, 0) ∧ unchanged w w' ∨ starved
      | inr (d, state) =>
          let '(dst, fns, rt) := resolve_dispatch (wr w) d in
          starved ∨
          dst ≠ GEAS_OK ∧ r = (dst, 0) ∧ unchanged w w' ∨
          dst = GEAS_OK ∧
            (r.1 = GEAS_OK ∧ (∃ cg, unpack d (pr_blobs p) = Some cg ∧ resumed w d fns state (pr_signed p) cg r.2 w') ∨
             r.1 ≠ GEAS_OK ∧ r.2 = 0 ∧ unchanged w w' ∧ why_not d (pr_blobs p) w w')
      end
  end.

Section Whole.
Context (w : world) (Hwf : mem_wf (wm w)).
Notation a := (next_addr w).
Notation m1 := (sign_mem w).

Lemma unresumed_unchanged v w' : unresumed a m1 v w' → ci v = ci w → instances v = instances w →
  clock v = clock w → unchanged w w'.
Proof.
  intros (E1 & E2 & E3 & E4 & _ & E6) C1 C2 C3. destruct (next_addr_fresh w) as (_ & Ho & _).
  split_and!; try (simpl in *; congruence). rewrite E3. simpl. rewrite delete_insert_eq. by apply delete_id.
Qed.

Lemma refused_since ha m' m'' : grown a m1 ha m' → refused m' m'' → refused (wm w) m''.
Proof. intros G H. destruct (refused_trans_r _ _ _ _ _ G H) as (n & z & ? & ?). by exists n, z. Qed.

(** Only what a world shows matters here. *)
Lemma row_says ha v p expected r w' : grown a m1 ha (wm v) → ci v = ci w → instances v = instances w →
  clock v = clock w → wr v = wr w → row_post a m1 v p expected r w' → resume_says w expected [p] r w'.
Proof.
  intros G C1 C2 C3 C4 H. unfold row_post in H. rewrite C4 in H. cbn [resume_says].
  assert (St : r.1 = GEAS_ERR_OOM ∧ r.2 = 0 ∧ unresumed a m1 v w' ∧ refused (wm v) (wm w') →
    r = (GEAS_ERR_OOM, 0) ∧ unchanged w w' ∧ refused (wm w) (wm w')).
  { destruct r as [st x]. simpl. intros (-> & -> & Hu & Hr). split; [done|].
    split; [by eapply unresumed_unchanged|by eapply refused_since]. }
  destruct (verdict (wr w) expected p) as [e|[d state]].
  - destruct H as [[-> Hu]|H]; [left|right; by apply St]. split; [done|]. by eapply unresumed_unchanged.
  - destruct (resolve_dispatch (wr w) d) as [[dst fns] rt]. destruct H as [H|[(Hd & -> & Hu)|(-> & H)]].
    + left. by apply St.
    + right; left. split_and!; [done..|]. by eapply unresumed_unchanged.
    + right; right. split; [done|]. destruct H as [[-> (cg & Hc & Hrev)]|(Hn & Hx & Hu & Hw)].
      * left. split; [done|]. exists cg. split; [done|].
        destruct Hrev as (vals & errs & sto & hn & Hv & He & Hs & [W E F (new & Eo & Hin)] & Ei & Hlt & Eci).
        simpl in *. destruct (next_addr_fresh w) as (_ & Ho & _). exists vals, errs, sto, hn, new.
        split_and!; try done; try congruence.
        -- rewrite <- C1. apply (next_addr_fresh (set_wr rt (set_wm (tick (wm v)) v))).
        -- rewrite Eo. f_equal. rewrite delete_insert_eq. by apply delete_id.
      * right. split_and!; [done..| |]; [by eapply unresumed_unchanged|].
        destruct Hw as [?|[?|[?|Hr]]]; unfold why_not; [by left|by right; left|right; right; left; simpl in *; congruence|].
        right; right; right. eapply refused_since; [apply grown_ticked; exact G|exact Hr].
Qed.

Lemma wwp_resume fuel dsn key expected stmt rs0 rs :
  row_served dsn key (ws w : sq) stmt rs0 rs → (length rs0 < fuel)%nat →
  sizeof_StoreScratchBlock + Z.of_nat (length rs0) * sizeof_GeasValue <= U64_MAX →
  (length (instances w) ≤ GEAS_MAX_INSTANCES)%nat →
  (∀ n d, find_desc (wr w) n = Some d → fits_slots (length (d_vows d)) ∧ fits_slots (length (d_pledges d))) →
  wwp (geas_instance_resume fuel (Some dsn) (Some key) expected) w
    (resume_says w expected (map (row_of stmt) rs)).
Proof.
  intros Hsv Hf Hsz Hcap Hfit. unfold geas_instance_resume. apply wwp_bind. unfold wwp at 1, scratch_new.
  change (set_wm _ w) with (at_ms w m1 (ws w)).
  destruct (sign_mem_wf w Hwf) as [Hwf1 Hl1]. destruct (next_addr_fresh w) as (_ & _ & _ & Hpos).
  assert (Hnil : owned m1 !! a = Some []) by apply lookup_insert_eq.
  apply wwp_bind. eapply wwp_mono; [by eapply wwp_resume_query|]. intros [st rows] w1 (m' & s' & -> & ha & G & Hres).
  assert (Hst : ∀ v', unresumed a m1 (at_ms w m' s') v' → unchanged w v') by (intros; by eapply unresumed_unchanged).
  destruct Hres as [[Hst0 Hrep]|[[= -> ->] Href]]; [simpl in Hst0; subst st|]; cbn [st_ok negb].
  - destruct rs as [|r rs].
    + assert (El : l_len rows = 0).
      { cbn [snd] in Hrep. unfold rows_val in Hrep. apply repr_seq in Hrep as (_ & _ & _ & _ & -> & _). done. }
      rewrite El, Z.eqb_refl. eapply wwp_resume_fail; [exact Hnil|exact G|]. intros w' Hu _. left. split; [done|]. by apply Hst.
    + pose proof (rs_blobs _ _ _ _ _ _ Hsv) as Hb. apply Forall_cons in Hb as [[Hb Hby] _].
      eapply repr_mono in Hrep; [|by eapply grown_incl_new].
      destruct (rows_fields _ _ _ _ _ Hrep Hb Hby) as [Hne Hfl]. rewrite (proj2 (Z.eqb_neq _ 0)) by done.
      eapply wwp_mono.
      { eapply (wwp_resume_row a m1 ha Hnil (at_ms w m' s') rows (row_of stmt r) expected G Hfl Hcap).
        intros d. apply Hfit. }
      intros res w' H. eapply (row_says ha (at_ms w m' s')) in H; done.
  - eapply wwp_resume_fail; [exact Hnil|exact G|]. intros w' Hu Htk.
    assert (K : (GEAS_ERR_OOM, 0) = (GEAS_ERR_OOM, 0) ∧ unchanged w w' ∧ refused (wm w) (wm w')).
    { split; [done|]. split; [by apply Hst|]. destruct Href as (n & z & Hn & Hz). exists n, z. rewrite Htk. by split. }
    unfold resume_says. destruct (map _ rs) as [|p ps]; [by right|]. destruct (verdict _ _ _) as [e|[d state]]; [by right|].
    destruct (resolve_dispatch _ _) as [[? ?] ?]. by left.
Qed.
End Whole.
End Serve.
