(* ===== verification/ParkRun.v ===== *)
(** * Parking: the row an instance is written as

    [geas_instance_park] against the library's side of the statement
    ([exec_runs]) and the row's values ([park_image]). *)
From S2P Require Import Prelude Abi Memory Value ValueSpec Wire WireSpec WireProps Iname Policy Store Future Lifecycle LifecycleSpec SignSpec StoreSql Sqlite Driver Rows RowsSpec Park ParkSpec ResumeSpec ResumeRun.

Section ParkRun.
Context `{SQ : Sqlite}.

(** ** A statement with parameters *)

(** The library's side of a statement that goes through. *)
Record exec_runs (h : Z) (sql : string) (ts : list val) (s0 : sq) (rs : list sq) (s' : sq) : Prop := ExecRuns {
  er_h : h ≠ 0;
  er_run : ∃ stmt s1 s2 s3, stmt ≠ 0 ∧ sqlite3_prepare_v2 h sql s0 = (true, stmt, s1) ∧
    sqlite3_bind_parameter_count stmt s1 = i32 (Z.of_nat (length ts)) ∧
    bind_vals stmt 1 ts s1 = (GEAS_OK, s2) ∧ cursor stmt s2 rs s3 ∧ s' = sqlite3_finalize stmt s3
}.

Lemma wwp_exec_params w fuel h sql vs ts m s0 rs s' (Q : GeasStatus * option Z → world → Prop) :
  exec_runs h sql ts s0 rs s' → Forall2 (repr (heap m)) vs ts → Forall int_bytes ts →
  (length rs < fuel)%nat → Z.of_nat (length rs) <= U64_MAX →
  Q (GEAS_OK, Some (u64 (sqlite3_changes64 h s'))) (at_ms w m s') →
  wwp (geas_store_exec_params fuel h sql vs) (at_ms w m s0) Q.
Proof.
  intros [Hh (stmt & s1 & s2 & s3 & Hs & E1 & Ep & Eb & C & ->)] Hr Hi Hf Hsz HQ. unfold geas_store_exec_params.
  rewrite (proj2 (Z.eqb_neq _ _)) by done. apply wwp_bind. eapply wwp_prepare; [exact E1|done|].
  apply wwp_bind. eapply wwp_bind_params; eauto. cbn [st_ok negb].
  apply wwp_bind. eapply wwp_mono; [eapply wwp_step_all; [exact C|done|lia|lia]|].
  intros r w' [-> ->]. apply wwp_bind, wwp_on_sq. rewrite bool_decide_false by (intros []; done).
  apply wwp_bind, wwp_get_sq, wwp_ret. exact HQ.
Qed.

(** ** The row *)

Definition latch_bytes (ct : GeasContract) : list Z := default [] (map latch_num <$> c_pledge_state ct).
Definition txn_bytes (ct : GeasContract) : list Z := default [] (map txn_num <$> c_sub_txn ct).
Definition park_int (i : Z) : val := VScalar GEAS_TY_INT 0 (u64 i).

(** The ten values of an instance's row, [ts] being its vows and [es] its payloads. *)
Definition park_image (key : string) (ct : GeasContract) (ts : list val) (es : list (option val)) : list val :=
  let d := c_desc ct in
  [VString 0 (str_bytes key); VString 0 (str_bytes (d_name d)); park_int (d_version d);
   park_int (i64 (d_shape_hash d)); park_int (state_num (c_state ct)); park_int (c_signed_at ct);
   VString 0 (encs ts); VString 0 (latch_bytes ct); VString 0 (errs_bytes es); VString 0 (txn_bytes ct)].

(** An instance whose data [ts] and [es] read, with the sizes an [int] counts. *)
Record parkable (key : string) (ct : GeasContract) (ts : list val) (es : list (option val)) (m : mem) : Prop := Parkable {
  pk_vows : length ts = length (d_vows (c_desc ct)) ∧ Forall storable ts ∧
    (ts = [] ∨ ∃ slots, heap m !! c_vow_vals ct = Some (BVals slots) ∧ reprs (heap m) slots ts);
  pk_errs : length es = length (d_pledges (c_desc ct)) ∧ Forall2 (err_slot (heap m)) (c_pledge_err ct) es;
  pk_latches : length (latch_bytes ct) = length (d_pledges (c_desc ct));
  pk_txns : length (txn_bytes ct) = length (d_subs (c_desc ct));
  pk_sizes : Forall int_bytes (park_image key ct ts es)
}.

(** ** The row's statement *)

Lemma wwp_str_param w bs m s (Q : GeasValue → world → Prop) :
  Q (park_str_param (brk m) (Z.of_nat (length bs))) (at_ms w (exposed bs m) s) →
  wwp (str_param bs) (at_ms w m s) Q.
Proof. intros H. exact H. Qed.

Lemma wwp_conceal w p m s (Q : unit → world → Prop) :
  Q tt (at_ms w (concealed p m) s) → wwp (conceal p) (at_ms w m s) Q.
Proof. intros H. exact H. Qed.

Lemma wwp_array_bytes {A} (f : A → Z) (l : option (list A)) n w (Q : list Z → world → Prop) :
  length (default [] (map f <$> l)) = n → Q (default [] (map f <$> l)) w →
  wwp (array_bytes n (map f <$> l)) w Q.
Proof.
  intros Hn HQ. unfold array_bytes. destruct l as [xs|]; simpl in *.
  - rewrite (proj2 (Nat.ltb_ge _ _)), firstn_all2 by lia. by apply wwp_ret.
  - subst n. by apply wwp_ret.
Qed.

Lemma exposed_incl bs m : mem_wf m → heap m ⊆ heap (exposed bs m).
Proof. intros Hwf. apply insert_subseteq. by apply wf_fresh. Qed.

Lemma repr_park_int h i : repr h (park_int_param i) (park_int i).
Proof. done. Qed.

(** The same memory but for the break. *)
Definition same_blocks (m m' : mem) : Prop :=
  heap m' = heap m ∧ owned m' = owned m ∧ ticks m' = ticks m ∧ lib m' = lib m ∧ brk m <= brk m'.

(** Six blocks exposed and concealed again. *)
Lemma concealed_six m b1 b2 b3 b4 b5 b6 : mem_wf m →
  let p := brk m in
  same_blocks m (concealed (p + 5) (concealed (p + 4) (concealed (p + 3) (concealed (p + 2) (concealed (p + 1)
    (concealed p (exposed b6 (exposed b5 (exposed b4 (exposed b3 (exposed b2 (exposed b1 m)))))))))))).
Proof.
  intros [B D _ _ _] p. unfold p. clear p.
  assert (F : ∀ k, 0 <= k → heap m !! (brk m + k) = None).
  { intros k Hk. apply eq_None_not_Some. intros H. apply D in H. lia. }
  split; [|simpl; split_and!; try done; lia].
  assert (E : ∀ i b, 0 <= i → delete (brk m + i) (<[brk m + i := b]> (heap m)) = heap m).
  { intros i b Hi. apply delete_insert_id. by apply F. }
  cbn [heap concealed set_heap exposed brk].
  replace (brk m + 1 + 1) with (brk m + 2) by lia. replace (brk m + 2 + 1) with (brk m + 3) by lia.
  replace (brk m + 3 + 1) with (brk m + 4) by lia. replace (brk m + 4 + 1) with (brk m + 5) by lia.
  rewrite !(delete_insert_ne _ (brk m)) by lia. rewrite (delete_insert_id (heap m) (brk m)) by (rewrite <- (Z.add_0_r (brk m)); by apply F).
  rewrite !(delete_insert_ne _ (brk m + 1)), E by lia. rewrite !(delete_insert_ne _ (brk m + 2)), E by lia.
  rewrite !(delete_insert_ne _ (brk m + 3)), E by lia. rewrite !(delete_insert_ne _ (brk m + 4)), E by lia.
  apply E. lia.
Qed.

Lemma wwp_park_row w fuel h key ct vows errs ts es m s0 rs s' :
  mem_wf m → parkable key ct ts es m → vows = encs ts → errs = errs_bytes es →
  exec_runs h PARK_PUT (park_image key ct ts es) s0 rs s' →
  (length rs < fuel)%nat → Z.of_nat (length rs) <= U64_MAX →
  wwp (park_row fuel h key ct vows errs) (at_ms w m s0)
    (λ st w', st = GEAS_OK ∧ ∃ m', w' = at_ms w m' s' ∧ same_blocks m m').
Proof.
  intros Hwf [_ _ Hl Hx Hsz] -> -> He Hf Hrs. unfold park_row.
  pose proof Hsz as Hsz'. unfold park_image in Hsz. repeat (apply Forall_cons in Hsz as [? Hsz]). simpl in *.
  apply wwp_bind, wwp_str_param. set (m1 := exposed (str_bytes key) m). pose proof (exposed_wf (str_bytes key) m Hwf : mem_wf m1) as W1.
  apply wwp_bind, wwp_str_param. set (m2 := exposed (str_bytes (d_name (c_desc ct))) m1). pose proof (exposed_wf _ m1 W1 : mem_wf m2) as W2.
  apply wwp_bind, wwp_str_param. set (m3 := exposed (encs ts) m2). pose proof (exposed_wf _ m2 W2 : mem_wf m3) as W3.
  apply wwp_bind, wwp_array_bytes; [exact Hl|].
  apply wwp_bind, wwp_str_param. set (m4 := exposed _ m3). pose proof (exposed_wf _ m3 W3 : mem_wf m4) as W4.
  apply wwp_bind, wwp_str_param. set (m5 := exposed _ m4). pose proof (exposed_wf _ m4 W4 : mem_wf m5) as W5.
  apply wwp_bind, wwp_array_bytes; [exact Hx|].
  apply wwp_bind, wwp_str_param. set (m6 := exposed _ m5).
  pose proof (exposed_incl (txn_bytes ct) m5 W5 : heap m5 ⊆ heap m6) as I5.
  pose proof (exposed_incl (errs_bytes es) m4 W4 : heap m4 ⊆ heap m5) as I4.
  pose proof (exposed_incl (latch_bytes ct) m3 W3 : heap m3 ⊆ heap m4) as I3.
  pose proof (exposed_incl (encs ts) m2 W2 : heap m2 ⊆ heap m3) as I2.
  pose proof (exposed_incl (str_bytes (d_name (c_desc ct))) m1 W1 : heap m1 ⊆ heap m2) as I1.
  apply wwp_bind. eapply wwp_exec_params; [exact He| |exact Hsz'|exact Hf|exact Hrs|].
  - pose proof (transitivity I4 I5) as J4. pose proof (transitivity I3 J4) as J3.
    pose proof (transitivity I2 J3) as J2. pose proof (transitivity I1 J2) as J1.
    do 10 (constructor; [first [apply repr_park_int |
      eapply repr_mono; [|apply exposed_repr; eassumption]; first [exact J1|exact J2|exact J3|exact J4|exact I5|reflexivity]]|]).
    constructor.
  - do 6 (apply wwp_bind, wwp_conceal). apply wwp_ret. split; [done|]. eexists. split; [done|].
    pose proof (concealed_six m (str_bytes key) (str_bytes (d_name (c_desc ct))) (encs ts) (latch_bytes ct) (errs_bytes es) (txn_bytes ct) Hwf) as H'.
    cbv zeta in H'. cbn [s_ptr park_str_param g_string w0]. simpl brk.
    replace (brk m + 1 + 1) with (brk m + 2) by lia. replace (brk m + 2 + 1) with (brk m + 3) by lia.
    replace (brk m + 3 + 1) with (brk m + 4) by lia. replace (brk m + 4 + 1) with (brk m + 5) by lia. exact H'.
Qed.

(** ** The refusals *)

(** Signed, its heap still there if it has pledges, no walk in the air, no open episode. *)
Definition can_park (c : Z) (ct : GeasContract) (w : world) : bool :=
  negb (bool_decide (c_state ct = GEAS_UNSIGNED)) &&
  ((length (d_pledges (c_desc ct)) =? 0)%nat || negb (bool_decide (owned (wm w) !! c = Some []))) &&
  forallb (λ f, default true (fu_waited <$> futs w !! f)) (default [] (links w !! c)) &&
  negb (existsb (λ t, bool_decide (t = TXN_OPEN)) (default [] (c_sub_txn ct))).

Lemma any_unwaited_run w fs : (∀ f, f ∈ fs → is_Some (futs w !! f)) →
  any_unwaited fs w = WRet (negb (forallb (λ f, default true (fu_waited <$> futs w !! f)) fs)) w.
Proof.
  induction fs as [|f fs IH]; intros Hf; [done|]. destruct (Hf f) as [x Hx]; [left|]. cbn [any_unwaited forallb].
  unfold mbind, W_bind, get_fut. rewrite Hx. simpl. destruct (fu_waited x); simpl; [|done].
  apply IH. intros g Hg. apply Hf. by right.
Qed.

Lemma park_checks_run c ct w : is_Some (owned (wm w) !! c) →
  (∀ f, f ∈ default [] (links w !! c) → is_Some (futs w !! f)) →
  park_checks c ct w = WRet (if can_park c ct w then GEAS_OK else GEAS_ERR_STATE) w.
Proof.
  intros [bl Hbl] Hf. unfold park_checks, can_park. case_bool_decide; [done|]. cbn [negb andb].
  unfold mbind, W_bind, has_owned. rewrite Hbl. unfold npledges.
  replace (0 <? Z.of_nat (length (d_pledges (c_desc ct)))) with (negb (length (d_pledges (c_desc ct)) =? 0)%nat)
    by (by destruct (d_pledges (c_desc ct))).
  replace (bool_decide (Some bl = Some [])) with (match bl with [] => true | _ => false end)
    by (by destruct bl; [rewrite bool_decide_eq_true_2|rewrite bool_decide_eq_false_2]).
  destruct (length (d_pledges (c_desc ct)) =? 0)%nat, bl; cbn [negb andb orb]; try done;
    unfold get_links; rewrite (any_unwaited_run w _ Hf); destruct (forallb _ _); cbn [negb andb]; try done;
    destruct (c_sub_txn ct) as [xs|]; simpl; try done; by destruct (existsb _ xs).
Qed.

(** ** The whole call *)

(** The library takes the row: the database opens, the table is there, the
    statement runs to its end and the connection closes. *)
Definition row_taken (dsn : string) (xs : list val) (s0 s' : sq) (steps : nat) : Prop :=
  ∃ h s1 s2 rs s3, Driver.geas_store_open (Some dsn) s0 = Some (GEAS_OK, h, s1) ∧
    Driver.geas_store_exec h (Some PARK_DDL) s1 = Some (GEAS_OK, s2) ∧
    exec_runs h PARK_PUT xs s2 rs s3 ∧ steps = length rs ∧ s' = sqlite3_close h s3.

Definition park_says (w : world) (s' : sq) (st : GeasStatus) (w' : world) : Prop :=
  ∃ m', unchanged w w' ∧
    (st = GEAS_OK ∧ w' = at_ms w m' s' ∨
     st = GEAS_ERR_OOM ∧ w' = at_ms w m' (ws w) ∧ refused (wm w) m').

Lemma same_blocks_wf m m' : mem_wf m → same_blocks m m' → mem_wf m'.
Proof.
  intros [B D O N J] (E1 & E2 & _ & _ & E5). split; rewrite ?E1, ?E2; try done; [lia|].
  intros p Hp. apply D in Hp. lia.
Qed.

Lemma wwp_park_store w0 fuel dsn key ct ts es m s0 s' steps :
  mem_wf m → parkable key ct ts es m → row_taken dsn (park_image key ct ts es) s0 s' steps →
  (steps < fuel)%nat → Z.of_nat steps <= U64_MAX →
  wwp ('(st, s) ← in_driver (Driver.geas_store_open (Some dsn));
       st ← if_ok st (in_driver (Driver.geas_store_exec s (Some PARK_DDL)));
       st ← if_ok st (park_row fuel s key ct (encs ts) (errs_bytes es));
       in_driver (Driver.geas_store_close s);; mret st) (at_ms w0 m s0)
    (λ st w', st = GEAS_OK ∧ ∃ m', w' = at_ms w0 m' s' ∧ same_blocks m m').
Proof.
  intros Hwf Hpk (h & s1 & s2 & rs & s3 & Eo & Ed & He & -> & ->) Hf Hn.
  apply wwp_bind. unfold wwp at 1, in_driver. simpl ws. rewrite Eo.
  apply wwp_bind. unfold if_ok. cbn [st_ok]. unfold wwp at 1, in_driver. simpl ws. rewrite Ed. cbn [st_ok].
  change (set_ws _ (set_ws _ (at_ms w0 m s0))) with (at_ms w0 m s2).
  apply wwp_bind. eapply wwp_mono; [by eapply wwp_park_row|]. intros st w' (-> & m' & -> & Hs).
  apply wwp_bind. unfold wwp at 1, in_driver, Driver.geas_store_close. pose proof (er_h _ _ _ _ _ _ He).
  rewrite (proj2 (Z.eqb_neq _ _)) by done. simpl ws. unfold Driver.call. apply wwp_ret. split; [done|].
  by exists m'.
Qed.

(** The two blobs, each a grant away. *)
Lemma wwp_vows_blob w ct ts es key m s (Q : GeasStatus * list Z → world → Prop) :
  parkable key ct ts es m →
  (∀ m', heap m' = heap m → owned m' = owned m → lib m' = lib m → (ticks m ≤ ticks m')%nat → brk m' = brk m →
     Q (GEAS_OK, encs ts) (at_ms w m' s)) →
  (∀ m', heap m' = heap m → owned m' = owned m → refused m m' → Q (GEAS_ERR_OOM, []) (at_ms w m' s)) →
  wwp (if (0 <? length (d_vows (c_desc ct)))%nat
       then in_mem (park_encode_values (c_vow_vals ct) (length (d_vows (c_desc ct))))
       else mret (GEAS_OK, [])) (at_ms w m s) Q.
Proof.
  intros [(Hlen & Hst & Hts) _ _ _ Hsz] HQ HO. destruct (Nat.ltb_spec 0 (length (d_vows (c_desc ct)))) as [H0|H0].
  - destruct Hts as [->|(slots & Hs & Hr)]; [simpl in Hlen; lia|]. apply wwp_in_mem. simpl wm. rewrite <- Hlen.
    assert (Hz : zlen (encs ts) <= U64_MAX).
    { unfold park_image in Hsz. do 6 (apply Forall_cons in Hsz as [_ Hsz]). apply Forall_cons in Hsz as [Hz _].
      simpl in Hz. unfold INT_MAX in Hz. unfold zlen. lia. }
    unfold wp. rewrite (park_encode_values_run m _ slots ts Hs Hr Hst Hz).
    unfold granted. destruct (lib_malloc _ _ _) eqn:E; [apply HQ|apply HO]; try done; simpl; [lia|].
    eexists (ticks m), _. simpl. split; [lia|exact E].
  - destruct ts; [|simpl in Hlen; lia]. apply wwp_ret. by apply HQ.
Qed.

Lemma wwp_errs_blob w ct ts es key m s (Q : GeasStatus * list Z → world → Prop) :
  parkable key ct ts es m →
  (∀ m', heap m' = heap m → owned m' = owned m → lib m' = lib m → (ticks m ≤ ticks m')%nat → brk m' = brk m →
     Q (GEAS_OK, errs_bytes es) (at_ms w m' s)) →
  (∀ m', heap m' = heap m → owned m' = owned m → refused m m' → Q (GEAS_ERR_OOM, []) (at_ms w m' s)) →
  wwp (if st_ok GEAS_OK && (0 <? length (d_pledges (c_desc ct)))%nat
       then in_mem (park_encode_errs (c_pledge_err ct)) else mret (GEAS_OK, [])) (at_ms w m s) Q.
Proof.
  intros [_ [Hlen He] _ _ Hsz] HQ HO. destruct (Nat.ltb_spec 0 (length (d_pledges (c_desc ct)))) as [H0|H0]; simpl.
  - apply wwp_in_mem. simpl wm.
    assert (Hz : zlen (errs_bytes es) <= U64_MAX).
    { unfold park_image in Hsz. do 8 (apply Forall_cons in Hsz as [_ Hsz]). apply Forall_cons in Hsz as [Hz _].
      simpl in Hz. unfold INT_MAX in Hz. unfold zlen. lia. }
    unfold wp. rewrite (park_encode_errs_run m _ es He Hz).
    unfold granted. destruct (lib_malloc _ _ _) eqn:E; [apply HQ|apply HO]; try done; simpl; [lia|].
    eexists (ticks m), _. simpl. split; [lia|exact E].
  - destruct es; [|simpl in Hlen; lia]. apply wwp_ret. by apply HQ.
Qed.

(** Parking depends on the blocks alone. *)
Lemma parkable_heap key ct ts es m m' : heap m' = heap m → parkable key ct ts es m → parkable key ct ts es m'.
Proof. intros E []. split; rewrite ?E; done. Qed.
Lemma wf_blocks m m' : heap m' = heap m → owned m' = owned m → brk m' = brk m → mem_wf m → mem_wf m'.
Proof. intros E1 E2 E3 []. split; rewrite ?E1, ?E2, ?E3; done. Qed.

Lemma wwp_park w fuel c dsn key ct ts es s' steps :
  c ≠ 0 → ci w !! c = Some ct → mem_wf (wm w) → is_Some (owned (wm w) !! c) →
  (∀ f, f ∈ default [] (links w !! c) → is_Some (futs w !! f)) → can_park c ct w = true →
  parkable key ct ts es (wm w) → row_taken dsn (park_image key ct ts es) (ws w : sq) s' steps →
  (steps < fuel)%nat → Z.of_nat steps <= U64_MAX →
  wwp (geas_instance_park fuel c (Some dsn) (Some key)) w (park_says w s').
Proof.
  intros Hc Hct Hwf Ho Hf Hcan Hpk Htk Hfu Hst. unfold geas_instance_park.
  rewrite (proj2 (Z.eqb_neq c 0)) by done. apply wwp_bind. eapply wwp_get; [exact Hct|].
  apply wwp_bind. unfold wwp at 1. rewrite (park_checks_run c ct w Ho Hf), Hcan. cbn [st_ok negb].
  replace w with (at_ms w (wm w) (ws w : sq)) at 1 by (by destruct w).
  assert (Hoom : ∀ m', heap m' = heap (wm w) → owned m' = owned (wm w) → refused (wm w) m' →
    park_says w s' GEAS_ERR_OOM (at_ms w m' (ws w : sq))).
  { intros m' E1 E2 Href. exists m'. split; [by split_and!|]. by right. }
  apply wwp_bind. eapply wwp_vows_blob; [exact Hpk| |].
  2: { intros m' E1 E2 Href. apply wwp_bind, wwp_ret. cbn [st_ok negb]. apply wwp_ret. by apply Hoom. }
  intros m1 E1 O1 L1 T1 B1. pose proof (parkable_heap _ _ _ _ _ m1 E1 Hpk) as Hpk1.
  apply wwp_bind. eapply wwp_errs_blob; [exact Hpk1|..].
  2: { intros m' E2 O2 (n & z & Hn & Hz). cbn [st_ok negb]. apply wwp_ret. apply Hoom; [congruence..|].
       exists n, z. rewrite <- L1. split; [lia|done]. }
  intros m2 E2 O2 L2 T2 B2. pose proof (parkable_heap _ _ _ _ _ m2 E2 Hpk1) as Hpk2.
  cbn [st_ok negb]. eapply wwp_mono.
  { eapply (wwp_park_store w fuel dsn key ct ts es m2); [|exact Hpk2|exact Htk|done|done].
    eapply (wf_blocks m1); [done..|]. by eapply (wf_blocks (wm w)). }
  intros st w' (-> & m3 & -> & (E3 & O3 & _)). exists m3. split; [|by left].
  split_and!; simpl; try done; congruence.
Qed.
End ParkRun.

(** ** A row that holds an image *)

Section RoundTrip.
Context `{SQ : Sqlite}.

(** Column [i] holds what binding [t] stored; a double comes back unless it is a NaN. *)
Definition holds (stmt i : Z) (r : sq) (t : val) : Prop :=
  match sq_of_val t with
  | Some (SInt n) => sqlite3_column_int64 stmt i r = n
  | Some (SReal x) => f64_is_nan x = false → sqlite3_column_double stmt i r = x
  | Some (SBlob bs) => sqlite3_column_blob stmt i r = bs
  | None => False
  end.
Definition row_holds (stmt : Z) (r : sq) (xs : list val) : Prop :=
  ∀ i t, xs !! i = Some t → holds stmt (Z.of_nat i) r t.

(** What an instance's data must be for a row to bring it back: each vow of its
    declared type, the payloads decodable, the arrays as long as the tables, no
    episode open, the integers within their columns. *)
Record restorable (ct : GeasContract) (ts : list val) (es : list (option val)) : Prop := Restorable {
  rb_vows : Forall2 (λ vd t, v_ty vd = tag_num (val_ty t) ∧ unpackable t) (d_vows (c_desc ct)) ts;
  rb_errs : length es = length (d_pledges (c_desc ct)) ∧ Forall (λ o, ∀ t, o = Some t → unpackable t) es;
  rb_latches : match c_pledge_state ct with
               | None => d_pledges (c_desc ct) = []
               | Some ls => ls ≠ [] ∧ length ls = length (d_pledges (c_desc ct)) end;
  rb_txns : match c_sub_txn ct with
            | None => d_subs (c_desc ct) = []
            | Some xs => xs ≠ [] ∧ length xs = length (d_subs (c_desc ct)) ∧ Forall (λ t, t ≠ TXN_OPEN) xs end;
  rb_state : c_state ct ≠ GEAS_UNSIGNED;
  rb_ints : is_i64 (d_version (c_desc ct)) ∧ is_u64 (d_shape_hash (c_desc ct)) ∧ is_i64 (c_signed_at ct);
  rb_name : c_string (str_bytes (d_name (c_desc ct))) = d_name (c_desc ct)
}.

Lemma latches_back ls : mapM latch_of (map latch_num ls) = Some ls.
Proof. apply mapM_Some. rewrite Forall2_fmap_l. induction ls as [|[]]; by constructor. Qed.
Lemma txns_back xs : Forall (λ t, t ≠ TXN_OPEN) xs → mapM txn_of (map txn_num xs) = Some xs.
Proof.
  intros H. apply mapM_Some. rewrite Forall2_fmap_l. induction H as [|[] xs Hx _ IH]; by constructor.
Qed.

Lemma unpack_image ct ts es : restorable ct ts es →
  unpack (c_desc ct) (Blobs (encs ts) (latch_bytes ct) (errs_bytes es) (txn_bytes ct)) =
    Some (Cargo ts (c_pledge_state ct) es (c_sub_txn ct)).
Proof.
  intros [Hv [Hle He] Hl Hx _ _ _]. unfold unpack. cbn [bl_vows bl_latches bl_errs bl_txns].
  rewrite (dec_vows_encs _ _ Hv). cbn [mbind option_bind].
  assert (El : dec_latches (length (d_pledges (c_desc ct))) (latch_bytes ct) (errs_bytes es) = Some (c_pledge_state ct, es)).
  { unfold dec_latches, latch_bytes. destruct (c_pledge_state ct) as [ls|]; simpl.
    - destruct Hl as [Hn Hl]. rewrite length_map, <- Hl, Nat.eqb_refl.
      destruct (Nat.eqb_spec (length ls) 0) as [E|_]; [by apply nil_length_inv in E|].
      rewrite latches_back. cbn [mbind option_bind]. by rewrite Hl, <- Hle, dec_errs_bytes.
    - rewrite Hl in *. by destruct es. }
  rewrite El. cbn [mbind option_bind].
  assert (Ex : dec_txns (length (d_subs (c_desc ct))) (txn_bytes ct) = Some (c_sub_txn ct)).
  { unfold dec_txns, txn_bytes. destruct (c_sub_txn ct) as [xs|]; simpl.
    - destruct Hx as (Hn & Hx & Ho). rewrite <- Hx, length_map, Nat.eqb_refl.
      destruct (Nat.eqb_spec (length xs) 0) as [E|_]; [by apply nil_length_inv in E|]. by rewrite txns_back.
    - by rewrite Hx. }
  by rewrite Ex.
Qed.

Lemma word_back i : is_i64 i → i64 (u64 (i64 (u64 i))) = i.
Proof. intros H. rewrite (i64_u64 i H). by apply i64_u64. Qed.

(** The row the image of an instance reads back as. *)
Lemma row_of_image key ct ts es stmt r : restorable ct ts es → row_holds stmt r (tail (park_image key ct ts es)) →
  row_of stmt r = ParkRow (str_bytes (d_name (c_desc ct))) (d_version (c_desc ct)) (d_shape_hash (c_desc ct))
    (state_num (c_state ct)) (c_signed_at ct)
    (Blobs (encs ts) (latch_bytes ct) (errs_bytes es) (txn_bytes ct)).
Proof.
  intros [_ _ _ _ _ (Hver & Hsh & Hsig) _] H. unfold row_of.
  pose proof (H 0%nat _ eq_refl : sqlite3_column_blob stmt 0 r = _) as H0.
  pose proof (H 1%nat _ eq_refl : sqlite3_column_int64 stmt 1 r = _) as H1.
  pose proof (H 2%nat _ eq_refl : sqlite3_column_int64 stmt 2 r = _) as H2.
  pose proof (H 3%nat _ eq_refl : sqlite3_column_int64 stmt 3 r = _) as H3.
  pose proof (H 4%nat _ eq_refl : sqlite3_column_int64 stmt 4 r = _) as H4.
  pose proof (H 5%nat _ eq_refl : sqlite3_column_blob stmt 5 r = _) as H5.
  pose proof (H 6%nat _ eq_refl : sqlite3_column_blob stmt 6 r = _) as H6.
  pose proof (H 7%nat _ eq_refl : sqlite3_column_blob stmt 7 r = _) as H7.
  pose proof (H 8%nat _ eq_refl : sqlite3_column_blob stmt 8 r = _) as H8.
  cbv zeta. rewrite H0, H1, H2, H3, H4, H5, H6, H7, H8. f_equal.
  - by apply word_back.
  - rewrite i64_u64 by apply i64_range. by apply u64_i64.
  - apply word_back. by destruct (c_state ct).
  - by apply word_back.
Qed.

Lemma verdict_image rt expected ct ts es blobs : restorable ct ts es →
  find_desc rt (d_name (c_desc ct)) = Some (c_desc ct) → expected = 0 ∨ expected = d_shape_hash (c_desc ct) →
  verdict rt expected (ParkRow (str_bytes (d_name (c_desc ct))) (d_version (c_desc ct)) (d_shape_hash (c_desc ct))
    (state_num (c_state ct)) (c_signed_at ct) blobs) = inr (c_desc ct, c_state ct).
Proof.
  intros [_ _ _ _ Hst _ Hn] Hd He. unfold verdict. cbn [pr_state pr_name pr_version pr_shape].
  rewrite Hn, Hd, state_of_num, !Z.eqb_refl. cbn [negb orb].
  replace ((1 <=? state_num (c_state ct)) && (state_num (c_state ct) <=? 4)) with true by (by destruct (c_state ct)).
  by replace (negb (expected =? 0) && negb (expected =? d_shape_hash (c_desc ct))) with false by (destruct He; lia).
Qed.
End RoundTrip.


