(* ===== verification/SurfaceSpec.v ===== *)
(** * What the store surface does

    The calls of [Surface] as compositions of four steps: a request to the
    allocator for text and arrays ([asks]), the driver ([query_runs],
    [exec_runs]), the answer wrapped in a Result on the instance, and the scratch
    memory an aggregate reads its row in. *)
From S2P Require Import Prelude Abi Memory Value ValueSpec Iname Policy Store Future Lifecycle LifecycleSpec SignSpec StoreSql StoreSqlSpec StoreSqlProps Sqlite Driver Rows RowsSpec Park ParkSpec ResumeSpec ResumeRun ParkRun Float Surface.

(** ** Asking for memory *)

(** The same memory after some requests. *)
Definition ticked (m m' : mem) : Prop :=
  heap m' = heap m ∧ owned m' = owned m ∧ brk m' = brk m ∧ lib m' = lib m ∧ (ticks m ≤ ticks m')%nat.

(** [e] makes [a] in [malloc]ed memory it gives back, or was refused some. *)
Definition asks {A} (h : gmap Z block) (e : M (option A)) (a : A) : Prop := ∀ m, heap m = h →
  ∃ r m', e m = Ret r m' ∧ ticked m m' ∧ (r = Some a ∨ r = None ∧ refused m m').

Lemma grown_ticked_by c m m' : mem_wf m → live c m → ticked m m' → grown c m ∅ m'.
Proof.
  intros Hwf [Hc [bl Hbl]] (Eh & Eo & Eb & El & Et). split.
  - destruct Hwf as [B D O N J]. split; rewrite ?Eh, ?Eo, ?Eb; auto.
  - by rewrite Eh, map_empty_union.
  - apply map_disjoint_empty_l.
  - intros p [? Hp]. by rewrite lookup_empty in Hp.
  - exists [], bl. split; [done|]. split; [by rewrite Eo, insert_id|]. intros p. rewrite lookup_empty.
    split; [by intros ?%elem_of_nil|by intros []].
  - done.
  - done.
  - lia.
Qed.

Lemma ticked_one m : ticked m (Mem (heap m) (owned m) (brk m) (S (ticks m)) (lib m)).
Proof. split_and!; try done. simpl. lia. Qed.

Lemma asks_alloc {A} h n (a : A) : asks h (ok <- sys_alloc n; ret (if ok : bool then Some a else None)) a.
Proof.
  intros m _. unfold bind, sys_alloc. do 2 eexists. split; [done|]. split; [apply ticked_one|].
  destruct (lib_malloc _ _ _) eqn:E; [by left|right]. split; [done|]. exists (ticks m), n. simpl. split; [lia|done].
Qed.

Lemma asks_build h q s : schema_ok s → stmt_ok q s → asks h (build q s) (sql_text q s).
Proof.
  intros Hs Hq m _. destruct (build_exact q s Hs Hq m) as (need & Hn & ->). do 2 eexists. split; [done|].
  split; [apply ticked_one|]. destruct (lib_malloc _ _ _) eqn:E; [by left|right]. split; [done|].
  exists (ticks m), need. simpl. split; [lia|done].
Qed.

Lemma asks_col_types h s : asks h (store_col_types s) (map sc_ty (s_cols s)).
Proof. apply asks_alloc. Qed.

Lemma asks_ret {A} h (a : A) : asks h (ret (Some a)) a.
Proof. intros m _. do 2 eexists. split; [done|]. split; [by split_and!|by left]. Qed.

(** The values the terms carry. *)
Definition term_vals (ts : list GeasStoreTerm) : list GeasValue := omap t_value ts.

Lemma asks_term_params h ts more : Z.of_nat (length ts + length more) <= U32_MAX →
  asks h (term_params ts more) (term_vals ts ++ more).
Proof.
  intros Hn m Hm. unfold term_params. rewrite u32_id by (z_norm; lia). rewrite Z.eqb_refl.
  destruct (asks_alloc h (Z.of_nat (length ts + length more) * sizeof_GeasValue) (term_vals ts ++ more) m Hm)
    as (r & m' & E & Ht & Hr). exists r, m'. split; [|done]. rewrite <- E. unfold bind.
  destruct (sys_alloc _ m) as [[] ?| |]; done.
Qed.

(** ** Answers *)

Section Answers.
Context `{SQ : Sqlite}.
Context (w : world).

(** What a call leaves: [Ok(t)] in new blocks of the instance with the library
    where the statement left it, or no memory. *)
Definition answered (c : Z) (m : mem) (s' : sq) (t : val) (r : GeasStatus * GeasValue) (w' : world) : Prop :=
  ∃ m' s hn, w' = at_ms w m' s ∧ grown c m hn m' ∧
    (r.1 = GEAS_OK ∧ s = s' ∧ repr hn r.2 (VBox GEAS_TY_RESULT 0 (Some t)) ∨
     r = (GEAS_ERR_OOM, gzero) ∧ refused m m').

Lemma wwp_asks {A} h m s (e : M (option A)) a (Q : option A → world → Prop) : asks h e a → heap m = h →
  (∀ r m', ticked m m' → (r = Some a ∨ r = None ∧ refused m m') → Q r (at_ms w m' s)) →
  wwp (in_mem e) (at_ms w m s) Q.
Proof.
  intros Ha Hh H. apply wwp_ms. destruct (Ha m Hh) as (r & m' & E & Ht & Hr). unfold wp. rewrite E. auto.
Qed.

Lemma ticked_trans m m1 m2 : ticked m m1 → ticked m1 m2 → ticked m m2.
Proof. intros (?&?&?&?&?) (?&?&?&?&?). split_and!; try congruence. lia. Qed.
Lemma ticked_refused_l m m1 m2 : refused m m1 → ticked m1 m2 → refused m m2.
Proof. intros (k & z & ? & ?) (_ & _ & _ & _ & ?). exists k, z. split; [lia|done]. Qed.
Lemma ticked_refused_r m m1 m2 : ticked m m1 → refused m1 m2 → refused m m2.
Proof. intros (_ & _ & _ & El & ?) (k & z & ? & Hf). exists k, z. rewrite El in Hf. split; [lia|done]. Qed.

Lemma answered_oom c m m' s s' t : grown c m ∅ m' → refused m m' →
  answered c m s' t (GEAS_ERR_OOM, gzero) (at_ms w m' s).
Proof. intros G Hr. exists m', s, ∅. split; [done|]. split; [done|]. by right. Qed.

(** A box of the instance around a value [g] reads, built before the box. *)
Lemma wp_boxed_get {A} c m m1 hn v t k tg (g : M GeasValue) (e : M A) (f : Z → M A) (Q : A → mem → Prop) :
  grown c m hn m1 → live c m → repr hn v t → box_tag k = true →
  (∀ m2, heap m1 ⊆ heap m2 → g m2 = Ret v m2) →
  (∀ box m' hn', grown c m hn' m' → repr hn' (g_box k tg box) (VBox k tg (Some t)) → wp (f box) m' Q) →
  (∀ m', grown c m hn m' → refused m m' → wp e m' Q) →
  wp (box <- geas_box c; if box =? 0 then e else x <- g; store_slot box 0 x;;; f box) m1 Q.
Proof.
  intros G Hl Hr Hk Hg Hok Hoom. pose proof (gr_wf _ _ _ _ G) as Hwf1. pose proof (grown_live _ _ _ _ G Hl) as Hl1.
  apply wp_bind, wp_geas_box; [done|done|..].
  - intros m2 G2 Hb. rewrite (proj2 (Z.eqb_neq _ _)) by done. apply wp_bind. unfold wp at 1.
    rewrite Hg by (by eapply grown_incl). apply wp_bind. eapply wp_store_slot.
    { eapply lookup_weaken; [apply lookup_singleton_eq|]. exact (grown_incl_new _ _ _ _ G2). }
    { simpl. lia. }
    eapply (grown_update _ _ _ _ _ _ (BVals [v])) in G2; [|apply lookup_singleton_eq]. rewrite insert_singleton_eq in G2.
    refine (Hok _ _ _ (grown_trans _ _ _ _ _ _ G G2) _).
    simpl. split_and!; try done. exists v, []. split.
    + apply lookup_union_Some_l, lookup_singleton_eq.
    + eapply repr_mono; [|exact Hr]. apply map_union_subseteq_r.
      eapply map_disjoint_weaken_r; [exact (gr_fresh _ _ _ _ G2)|]. by eapply grown_incl_new.
  - intros m2 G2 Href. rewrite Z.eqb_refl. apply Hoom.
    + pose proof (grown_trans _ _ _ _ _ _ G G2) as G3. by rewrite map_empty_union in G3.
    + destruct (refused_trans_r _ _ _ _ _ G Href) as (n & z & ? & ?). by exists n, z.
Qed.
Lemma wp_boxed {A} c m m1 hn v t k tg (e : M A) (f : Z → M A) (Q : A → mem → Prop) :
  grown c m hn m1 → live c m → repr hn v t → box_tag k = true →
  (∀ box m' hn', grown c m hn' m' → repr hn' (g_box k tg box) (VBox k tg (Some t)) → wp (f box) m' Q) →
  (∀ m', grown c m hn m' → refused m m' → wp e m' Q) →
  wp (box <- geas_box c; if box =? 0 then e else store_slot box 0 v;;; f box) m1 Q.
Proof. intros. by eapply (wp_boxed_get c m m1 hn v t k tg (ret v)). Qed.

(** [store_ok]: the payload in an Ok. *)
Definition ok_mem (c : Z) (m : mem) (t : val) (r : GeasStatus * GeasValue) (m' : mem) : Prop :=
  ∃ hn, grown c m hn m' ∧
    (r.1 = GEAS_OK ∧ repr hn r.2 (VBox GEAS_TY_RESULT 0 (Some t)) ∨ r = (GEAS_ERR_OOM, gzero) ∧ refused m m').

Lemma ok_mem_oom c m hn m' t : grown c m hn m' → refused m m' → ok_mem c m t (GEAS_ERR_OOM, gzero) m'.
Proof. intros G Hr. exists hn. split; [done|]. by right. Qed.

Lemma wp_store_ok c m m1 hn v t : grown c m hn m1 → live c m → repr hn v t →
  wp (store_ok c v) m1 (ok_mem c m t).
Proof.
  intros G Hl Hr. eapply (wp_boxed c m m1 hn v t GEAS_TY_RESULT 0); [exact G|exact Hl|exact Hr|done|..].
  - intros box m' hn' G' Hr'. apply wp_ret. exists hn'. split; [done|]. left. by split.
  - intros m' G' Href. apply wp_ret. by eapply ok_mem_oom.
Qed.

(** An option in an Ok. *)
Lemma wp_store_ok_none c m m1 hn : grown c m hn m1 → live c m →
  wp (store_ok c (g_box GEAS_TY_OPTION 0 0)) m1 (ok_mem c m (VBox GEAS_TY_OPTION 0 None)).
Proof. intros G Hl. by eapply wp_store_ok. Qed.
Lemma wp_store_ok_some c m m1 hn v t (g : M GeasValue) : grown c m hn m1 → live c m → repr hn v t →
  (∀ m2, heap m1 ⊆ heap m2 → g m2 = Ret v m2) →
  wp (box <- geas_box c; if box =? 0 then ret (GEAS_ERR_OOM, gzero) else
      x <- g; store_slot box 0 x;;; store_ok c (g_box GEAS_TY_OPTION 1 box)) m1
    (ok_mem c m (VBox GEAS_TY_OPTION 1 (Some t))).
Proof.
  intros G Hl Hr Hg. eapply (wp_boxed_get c m m1 hn v t GEAS_TY_OPTION 1); [exact G|exact Hl|exact Hr|done|exact Hg|..].
  - intros box m' hn' G' Hr'. by eapply wp_store_ok.
  - intros m' G' Href. apply wp_ret. by eapply ok_mem_oom.
Qed.

(** The instance's connection. *)
Lemma wwp_on_store c ct h m s (k : Z → W (GeasStatus * GeasValue)) (Q : GeasStatus * GeasValue → world → Prop) :
  ci w !! c = Some ct → c_store ct = Some h → wwp (k h) (at_ms w m s) Q → wwp (on_store c k) (at_ms w m s) Q.
Proof. intros Hc Hs H. unfold wwp, on_store, mbind, W_bind, get_inst. simpl. by rewrite Hc, Hs. Qed.

(** ** Reads *)

(** What the library serves a read of [sql] with the arguments [ts]: the second
    walk shows [rs'], whose columns an [int] can count; [n] is the first walk's. *)
Record served (h : Z) (sql : string) (tys : list Z) (ts : list val) (s0 : sq)
    (stmt : Z) (n : nat) (rs' : list sq) (s5 : sq) : Prop := Served {
  sv_run : ∃ rs, query_runs h sql tys ts s0 stmt rs rs' s5 ∧ n = length rs;
  sv_blobs : Forall (blobs_ok stmt) rs';
  sv_size : sizeof_StoreScratchBlock + Z.of_nat n * sizeof_GeasValue <= U64_MAX
}.

(** The arguments of a statement: what they stand for, counted by an [int]. *)
Definition stand_for (h : gmap Z block) (vs : list GeasValue) (ts : list val) : Prop :=
  Forall2 (repr h) vs ts ∧ Forall int_bytes ts.

Lemma wwp_read_rows_of fuel c s q params vs ts k t ct h m s0 stmt n rs' s5 :
  ci w !! c = Some ct → c_store ct = Some h → mem_wf m → live c m → schema_ok s → stmt_ok q s →
  Z.of_nat (length (s_cols s)) <= INT_MAX →
  asks (heap m) params vs → stand_for (heap m) vs ts →
  served h (sql_text q s) (map sc_ty (s_cols s)) ts s0 stmt n rs' s5 → (n < fuel)%nat →
  (∀ m1 hn rows, grown c m hn m1 → repr hn rows (rows_val stmt (map sc_ty (s_cols s)) rs') →
     wp (k rows) m1 (ok_mem c m t)) →
  wwp (read_rows_of fuel c s (build q s) params k) (at_ms w m s0) (answered c m (sqlite3_finalize stmt s5) t).
Proof.
  intros Hc Hh Hwf Hl Hs Hq Hn Hp [Hr Hi] [(rs & Hrun & ->) Hb Hsz] Hf Hk. eapply wwp_on_store; [done..|].
  apply wwp_bind. eapply wwp_asks; [by apply asks_build|done|]. intros q1 m1 T1 R1.
  apply wwp_bind. eapply wwp_asks; [by apply (asks_col_types (heap m))|by destruct T1|]. intros q2 m2 T2 R2.
  pose proof (ticked_trans _ _ _ T1 T2) as T12.
  apply wwp_bind. eapply wwp_asks; [exact Hp|by destruct T12|]. intros q3 m3 T3 R3.
  pose proof (ticked_trans _ _ _ T12 T3) as T. pose proof (grown_ticked_by c _ _ Hwf Hl T) as G.
  destruct R1 as [->|[-> R1]].
  2: { apply wwp_ret. apply answered_oom; [done|]. eapply ticked_refused_l; [|exact T3]. exact (ticked_refused_l _ _ _ R1 T2). }
  destruct R2 as [->|[-> R2]].
  2: { apply wwp_ret. apply answered_oom; [done|]. eapply ticked_refused_l; [|exact T3]. exact (ticked_refused_r _ _ _ T1 R2). }
  destruct R3 as [->|[-> R3]].
  2: { apply wwp_ret. apply answered_oom; [done|]. exact (ticked_refused_r _ _ _ T12 R3). }
  apply wwp_bind. eapply wwp_mono.
  { eapply (wwp_query w c (instance_store_bytes c) fuel h (sql_text q s) vs ts);
      [apply instance_alloc|by eapply gr_wf|by eapply grown_live| |exact Hi|rewrite length_map; exact Hn|exact Hrun|exact Hb|exact Hf|exact Hsz].
    destruct T as [-> _]. exact Hr. }
  intros [st rows] w' (m4 & sx & hn & -> & G4 & [(Hst & -> & Hrep)|[[= -> ->] Href]]); simpl in *.
  - subst st. cbn [st_ok negb]. apply wwp_ms.
    pose proof (grown_trans _ _ _ _ _ _ G G4) as G5. rewrite map_union_empty in G5.
    eapply wp_mono; [by eapply (Hk m4 hn)|]. intros r m5 (hn' & G6 & Hres). exists m5, (sqlite3_finalize stmt s5), hn'.
    split; [done|]. split; [done|]. destruct Hres as [[? ?]|[? ?]]; [left|right]; done.
  - cbn [st_ok negb]. apply wwp_ret. exists m4, (sqlite3_finalize stmt sx), hn. split; [done|].
    pose proof (grown_trans _ _ _ _ _ _ G G4) as G5. rewrite map_union_empty in G5. split; [done|]. right.
    split; [done|]. exact (ticked_refused_r _ _ _ T Href).
Qed.
End Answers.

(** ** The read calls *)

(** The arguments are 32 bit words. *)
Definition term_words (t : GeasStoreTerm) : Prop := 0 <= t_col t ∧ 0 <= t_cmp t.
Definition words (ts : list GeasStoreTerm) : Prop := Forall term_words ts ∧ Z.of_nat (length ts) <= U32_MAX.

Lemma term_valid_ok s t : term_words t → term_valid s t = true → term_ok s t.
Proof.
  intros [H1 H2] [[Hc Hk]%andb_true_iff _]%andb_true_iff. apply Z.ltb_lt in Hc. apply Z.leb_le in Hk. by split.
Qed.
Lemma all_valid_ok s ts : words ts → forallb (term_valid s) ts = true → terms_ok s ts.
Proof.
  intros [Hw Hn] Hv. split; [|done]. apply Forall_forall. intros t Hin. apply term_valid_ok.
  - by eapply Forall_forall in Hw.
  - apply list_elem_of_In in Hin. by eapply forallb_forall in Hv.
Qed.

Lemma total_terms_sum lens : Forall (λ n, 0 <= n) lens → ∀ acc n, total_terms lens acc = Some n →
  0 <= acc <= U32_MAX → Forall (λ n, 0 < n) lens ∧ n = acc + foldr Z.add 0 lens ∧ n <= U32_MAX.
Proof.
  induction 1 as [|x lens Hx _ IH]; simpl; intros acc n Ht Ha; [injection Ht as <-; split; [done|lia]|].
  destruct (Z.eqb_spec x 0); simpl in Ht; [done|]. destruct (Z.ltb_spec (U32_MAX - acc) x); [done|].
  apply IH in Ht as (Hp & -> & Hm); [|lia]. split; [|lia]. constructor; [lia|done].
Qed.

Lemma group_terms_ok s ts lens used : group_terms s ts lens = Some (Some used) →
  words ts → Forall (λ n, 0 <= n) lens → terms_ok s used ∧ lens_ok used lens.
Proof.
  unfold group_terms. intros H [Hw Hn] Hl. destruct (_ || _); [done|].
  destruct (total_terms lens 0) as [n|] eqn:Et; [|done]. destruct (forallb _ _) eqn:Ev; [|done]. simpl in H.
  destruct (Nat.ltb_spec (length (take (Z.to_nat n) ts)) (Z.to_nat n)); [done|]. injection H as <-.
  apply total_terms_sum in Et as (Hp & En & Hm); [|done|lia]. rewrite length_take in *. split.
  - apply all_valid_ok; [|done]. split; [by apply Forall_take|]. rewrite length_take. lia.
  - split; [done|]. rewrite length_take. assert (0 <= n); [|lia]. rewrite En. clear -Hl. induction Hl; simpl; lia.
Qed.

Inductive read_call :=
| RFind (key : GeasValue)
| REq (col : Z) (value : GeasValue)
| RWhere (ts : list GeasStoreTerm)
| ROrdered (ts : list GeasStoreTerm) (col desc : Z)
| RPage (ts : list GeasStoreTerm) (col desc : Z) (limit : GeasValue)
| RSelect (ts : list GeasStoreTerm) (lens : list Z) (col desc : Z) (limit : option GeasValue).

Definition run_read `{SQ : Sqlite} (fuel : nat) (c : Z) (s : GeasSchemaDesc) (q : read_call) : W (GeasStatus * GeasValue) :=
  match q with
  | RFind key => geas_store_find fuel c s key
  | REq col v => geas_store_query_eq fuel c s col v
  | RWhere ts => geas_store_query_where fuel c s ts
  | ROrdered ts col desc => geas_store_query_ordered fuel c s ts col desc
  | RPage ts col desc limit => geas_store_query_page fuel c s ts col desc limit
  | RSelect ts lens col desc limit => geas_store_select fuel c s ts lens col desc limit
  end.

(** The terms the groups take, all of them when there are no groups. *)
Definition taken (ts : list GeasStoreTerm) (lens : list Z) : list GeasStoreTerm := take (Z.to_nat (foldr Z.add 0 lens)) ts.

Definition read_words (q : read_call) : Prop :=
  match q with
  | RFind _ => True
  | REq col _ => 0 <= col
  | RWhere ts => words ts
  | ROrdered ts col _ | RPage ts col _ _ => words ts ∧ 0 <= col ∧ Z.of_nat (length ts) < U32_MAX
  | RSelect ts lens col _ _ =>
      words ts ∧ Forall (λ n, 0 <= n) lens ∧ foldr Z.add 0 lens <= Z.of_nat (length ts) ∧ 0 <= col
  end.

(** The statement of a call and the values bound to it. *)
Definition read_stmt (q : read_call) : sql_stmt :=
  match q with
  | RFind _ => SSelect
  | REq col _ => SSelectEq col
  | RWhere ts => SWhere ts
  | ROrdered ts col desc => SOrdered ts col desc
  | RPage ts col desc _ => SPage ts col desc
  | RSelect ts lens col desc limit => SAny (taken ts lens) lens col desc (bool_decide (limit ≠ None))
  end.
Definition read_params (q : read_call) : list GeasValue :=
  match q with
  | RFind v | REq _ v => [v]
  | RWhere ts | ROrdered ts _ _ => term_vals ts
  | RPage ts _ _ limit => term_vals ts ++ [limit]
  | RSelect ts lens _ _ limit => term_vals (taken ts lens) ++ option_list limit
  end.

(** The status a call is refused with before the driver is asked. *)
Definition read_refusal (s : GeasSchemaDesc) (q : read_call) : option GeasStatus :=
  let typed b := if b : bool then None else Some GEAS_ERR_TYPE in
  match q with
  | RFind _ => if ncols s =? 0 then Some GEAS_ERR_STORE else None
  | REq col v => typed ((col <? ncols s) && bool_decide (sc_ty <$> s_cols s !! Z.to_nat col = Some (ty v)))
  | RWhere ts => typed (terms_valid s ts)
  | ROrdered ts col desc => typed (terms_valid s ts && order_valid s col desc)
  | RPage ts col desc limit => typed (terms_valid s ts && order_valid s col desc && limit_valid limit)
  | RSelect ts lens col desc limit =>
      typed (negb (ncols s =? 0) && negb (Z.of_nat (length lens) =? 0) &&
             bool_decide (total_terms lens 0 ≠ None) && forallb (term_valid s) (taken ts lens) &&
             select_valid s (taken ts lens) col desc limit)
  end.

(** What the rows answer: the first one or none for a find, all of them otherwise. *)
Definition read_answer `{SQ : Sqlite} (s : GeasSchemaDesc) (q : read_call) (stmt : Z) (rs : list sq) : val :=
  let tys := map sc_ty (s_cols s) in
  match q with
  | RFind _ => match rs with
               | [] => VBox GEAS_TY_OPTION 0 None
               | r :: _ => VBox GEAS_TY_OPTION 1 (Some (row_val stmt r tys))
               end
  | _ => rows_val stmt tys rs
  end.

Lemma total_taken s ts lens : Forall (λ n, 0 <= n) lens → ncols s ≠ 0 → lens ≠ [] →
  foldr Z.add 0 lens <= Z.of_nat (length ts) →
  group_terms s ts lens =
    (if bool_decide (total_terms lens 0 ≠ None) && forallb (term_valid s) (taken ts lens)
     then Some (Some (taken ts lens)) else Some None).
Proof.
  intros Hl Hc Hne Hsum. unfold group_terms. rewrite (proj2 (Z.eqb_neq _ _)) by done.
  rewrite (proj2 (Z.eqb_neq (Z.of_nat (length lens)) 0)) by (destruct lens; [done|simpl; lia]). simpl.
  destruct (total_terms lens 0) as [n|] eqn:Et; [|by rewrite bool_decide_eq_false_2 by naive_solver].
  rewrite bool_decide_eq_true_2 by done. apply total_terms_sum in Et as (_ & -> & _); [|done|lia].
  rewrite Z.add_0_l. fold (taken ts lens). destruct (forallb _ _); [|done]. simpl.
  destruct (Nat.ltb_spec (length (taken ts lens)) (Z.to_nat (foldr Z.add 0 lens))) as [H|]; [|done].
  unfold taken in H. rewrite length_take in H. lia.
Qed.

Section Reads.
Context `{SQ : Sqlite}.

(** Every read is one statement, once its arguments pass. *)
Definition a_read (fuel : nat) (c : Z) (s : GeasSchemaDesc) (q : read_call) (w : world) : Prop :=
  ∃ params k, run_read fuel c s q w = read_rows_of fuel c s (build (read_stmt q) s) params k w ∧
    (∀ h, asks h params (read_params q)) ∧
    ∀ stmt rs m m1 hn rows, grown c m hn m1 → live c m → repr hn rows (rows_val stmt (map sc_ty (s_cols s)) rs) →
      wp (k rows) m1 (ok_mem c m (read_answer s q stmt rs)).

Definition find_answer (c : Z) (rows : GeasValue) : M (GeasStatus * GeasValue) :=
  if 0 <? l_len rows then
    box <- geas_box c;
    if box =? 0 then ret (GEAS_ERR_OOM, gzero) else
    row <- load_slot (l_data rows) 0;
    store_slot box 0 row;;;
    store_ok c (g_box GEAS_TY_OPTION 1 box)
  else store_ok c (g_box GEAS_TY_OPTION 0 0).

Lemma wp_find_answer c s key stmt rs m m1 hn rows : grown c m hn m1 → live c m →
  repr hn rows (rows_val stmt (map sc_ty (s_cols s)) rs) →
  wp (find_answer c rows) m1 (ok_mem c m (read_answer s (RFind key) stmt rs)).
Proof.
  intros G Hl Hr. apply repr_seq in Hr as (_ & _ & _ & _ & Hlen & _ & Hd). rewrite length_map in Hlen.
  unfold find_answer. rewrite Hlen. destruct rs as [|r rs]; [by eapply wp_store_ok_none|].
  rewrite (proj2 (Z.ltb_lt _ _)) by (simpl; lia). destruct Hd as [|(_ & slots & Hs & Hr)]; [done|].
  destruct (Hr 0%nat _ eq_refl) as (v & Hv & Hrep). eapply wp_store_ok_some; [done|done|exact Hrep|].
  intros m2 Hsub. unfold load_slot. erewrite lookup_weaken; [|exact Hs|].
  - simpl. by rewrite Hv.
  - etrans; [|exact Hsub]. by eapply grown_incl_new.
Qed.

Lemma terms_valid_ok s ts : words ts → terms_valid s ts = true → terms_ok s ts.
Proof. intros Hw Hv. unfold terms_valid in Hv. apply andb_true_iff in Hv as [_ Hf]. by apply all_valid_ok. Qed.
Lemma order_valid_ok s col desc : 0 <= col → order_valid s col desc = true → 0 <= col < ncols s.
Proof. intros H0 [Hc _]%andb_true_iff. apply Z.ltb_lt in Hc. lia. Qed.

Ltac one_read params k := exists params, k; split; [|split].
(** A statement over terms. *)
Lemma terms_read fuel c s q w used more :
  run_read fuel c s q w = read_rows_of fuel c s (build (read_stmt q) s) (term_params used more) (store_ok c) w →
  read_params q = term_vals used ++ more →
  (∀ stmt rs, read_answer s q stmt rs = rows_val stmt (map sc_ty (s_cols s)) rs) →
  Z.of_nat (length used + length more) <= U32_MAX → a_read fuel c s q w.
Proof.
  intros E Ep Ea Hn. one_read (term_params used more) (store_ok c); [done|..].
  - intros h. rewrite Ep. by apply asks_term_params.
  - intros. rewrite Ea. by eapply wp_store_ok.
Qed.

Lemma read_is fuel c s q w ct : read_refusal s q = None → read_words q → 0 < ncols s →
  ci w !! c = Some ct → (match q with RFind _ => c_store ct ≠ None | _ => True end) → stmt_ok (read_stmt q) s ∧ a_read fuel c s q w.
Proof.
  intros Hr Hw Hc Hct Hst. assert (Hc0 : (ncols s =? 0) = false) by (apply Z.eqb_neq; lia).
  destruct q as [key|col v|ts|ts col desc|ts col desc limit|ts lens col desc limit];
    simpl in Hr, Hw;
    try (match type of Hr with (if ?b then None else Some GEAS_ERR_TYPE) = _ => destruct b eqn:Hv; [|done] end).
  - split; [done|]. one_read (one_param key) (find_answer c).
    + simpl. unfold geas_store_find. unfold mbind at 1, W_bind at 1, get_inst. rewrite Hct.
      by rewrite bool_decide_eq_false_2, Hc0 by done.
    + intros m. apply asks_ret.
    + intros. by eapply wp_find_answer.
  - apply andb_true_iff in Hv as [Ec Et]. split; [apply Z.ltb_lt in Ec; simpl; lia|]. one_read (one_param v) (store_ok c).
    + simpl. unfold geas_store_query_eq. apply Z.ltb_lt in Ec. rewrite Hc0, (proj2 (Z.leb_gt _ _)) by done. simpl.
      apply bool_decide_eq_true in Et. destruct (s_cols s !! Z.to_nat col) as [k|]; [|done]. injection Et as ->.
      by rewrite Z.eqb_refl.
    + intros m. apply asks_ret.
    + intros. by eapply wp_store_ok.
  - split; [by eapply terms_valid_ok|]. apply (terms_read _ _ _ _ _ ts []); [|by rewrite app_nil_r|done|destruct Hw; simpl; lia].
    simpl. unfold geas_store_query_where. by rewrite Hv.
  - destruct Hw as (Hw & H0 & Hn). apply andb_true_iff in Hv as [Hv Ho]. apply order_valid_ok in Ho as Ho'; [|done].
    split; [split; [by eapply terms_valid_ok|done]|]. apply (terms_read _ _ _ _ _ ts []); [|by rewrite app_nil_r|done|simpl; lia].
    simpl. unfold geas_store_query_ordered. by rewrite Hv, Ho.
  - destruct Hw as (Hw & H0 & Hn). apply andb_true_iff in Hv as [[Hv Ho]%andb_true_iff Hl].
    apply order_valid_ok in Ho as Ho'; [|done]. split; [split; [by eapply terms_valid_ok|by split]|].
    apply (terms_read _ _ _ _ _ ts [limit]); [|done..|simpl; lia].
    simpl. unfold geas_store_query_page. by rewrite Hv, Ho, Hl.
  - destruct Hw as (Hw & Hl & Hsum & H0). apply andb_true_iff in Hv as [[[[_ Hne]%andb_true_iff Ht]%andb_true_iff Hf]%andb_true_iff Hsel].
    assert (lens ≠ []) by (intros ->; done).
    assert (Hg : group_terms s ts lens = Some (Some (taken ts lens))) by (rewrite total_taken, Ht, Hf by (done || lia); done).
    apply group_terms_ok in Hg as Hok; [|done..]. destruct Hok as [Hok Hlens].
    assert (Hlim : limit ≠ None → Z.of_nat (length (taken ts lens)) < U32_MAX).
    { intros Hx. destruct limit as [l|]; [|done]. unfold select_valid in Hsel. apply andb_true_iff in Hsel as [_ [_ Hu]%andb_true_iff].
      apply negb_true_iff, Z.eqb_neq in Hu. destruct Hok as [_ Hu']. lia. }
    split.
    + split; [done|]. split; [done|]. split.
      * unfold select_valid in Hsel. apply andb_true_iff in Hsel as [Ho _]. destruct (Z.eqb_spec col GEAS_STORE_NO_ORDER); [by left|right].
        by eapply order_valid_ok.
      * intros Hb%bool_decide_eq_true. auto.
    + apply (terms_read _ _ _ _ _ (taken ts lens) (option_list limit)); [|done..|].
      * simpl. unfold geas_store_select. by rewrite Hg, Hsel.
      * destruct limit; simpl; [specialize (Hlim ltac:(done))|destruct Hok as [_ Hok]]; lia.
Qed.

Lemma read_refused fuel c s q w ct e : read_refusal s q = Some e → read_words q → ci w !! c = Some ct →
  run_read fuel c s q w = WRet (e, gzero) w.
Proof.
  intros Hr Hw Hct. destruct q as [key|col v|ts|ts col desc|ts col desc limit|ts lens col desc limit];
    simpl in Hr, Hw; try (match type of Hr with (if ?b then None else Some GEAS_ERR_TYPE) = _ =>
      destruct b eqn:Hv; [done|] end; injection Hr as <-); simpl.
  - destruct (ncols s =? 0) eqn:E; [|done]. injection Hr as <-. unfold geas_store_find, mbind at 1, W_bind at 1, get_inst.
    by rewrite Hct, E, orb_true_r.
  - unfold geas_store_query_eq. destruct (Z.leb_spec (ncols s) col); [by rewrite orb_true_r|].
    rewrite (proj2 (Z.ltb_lt _ _)) in Hv by done. simpl in Hv.
    rewrite (proj2 (Z.eqb_neq (ncols s) 0)) by lia. simpl. apply bool_decide_eq_false in Hv.
    destruct (s_cols s !! Z.to_nat col) as [k|]; [|done]. destruct (Z.eqb_spec (ty v) (sc_ty k)) as [E|]; [|done].
    by rewrite E in Hv.
  - unfold geas_store_query_where. by rewrite Hv.
  - unfold geas_store_query_ordered. by rewrite Hv.
  - unfold geas_store_query_page. by rewrite Hv.
  - destruct Hw as (Hw & Hl & Hsum & H0). unfold geas_store_select.
    destruct (Z.eqb_spec (ncols s) 0) as [E|]; [unfold group_terms; by rewrite E|].
    destruct lens as [|g lens]; [unfold group_terms; by rewrite orb_true_r|].
    rewrite total_taken by done. cbn [negb andb] in Hv.
    rewrite (proj2 (Z.eqb_neq (Z.of_nat (length (g :: lens))) 0)) in Hv by (simpl; lia). cbn [negb andb] in Hv.
    destruct (bool_decide (total_terms (g :: lens) 0 ≠ None) && forallb (term_valid s) (taken ts (g :: lens))); [|done].
    simpl in Hv. by rewrite Hv.
Qed.

Lemma read_unconnected fuel c s q w ct : read_refusal s q = None → read_words q → 0 < ncols s →
  ci w !! c = Some ct → c_store ct = None → run_read fuel c s q w = WRet (GEAS_ERR_STORE, gzero) w.
Proof.
  intros Hr Hw Hc Hct Hst. destruct q as [key|col v|ts|ts col desc|ts col desc limit|ts lens col desc limit] eqn:Eq.
  { simpl. unfold geas_store_find, mbind at 1, W_bind at 1, get_inst. by rewrite Hct, Hst. }
  all: rewrite <- Eq in *; destruct (read_is fuel c s q w ct Hr Hw Hc Hct ltac:(by rewrite Eq)) as (_ & params & k & -> & _);
    unfold read_rows_of, on_store, mbind at 1, W_bind at 1, get_inst; by rewrite Hct, Hst.
Qed.
End Reads.

(** ** The write calls *)

Inductive write_call :=
| WInsert (row : GeasValue) | WUpdate (key row : GeasValue) | WDelete (key : GeasValue).

Definition run_store_write `{SQ : Sqlite} (fuel : nat) (c : Z) (s : GeasSchemaDesc) (q : write_call) : W (GeasStatus * GeasValue) :=
  match q with
  | WInsert row => geas_store_insert fuel c s row
  | WUpdate key row => geas_store_update fuel c s key row
  | WDelete key => geas_store_delete fuel c s key
  end.
Definition write_stmt (q : write_call) : sql_stmt :=
  match q with WInsert _ => SInsert | WUpdate _ _ => SUpdate | WDelete _ => SDelete end.
Definition write_refusal (s : GeasSchemaDesc) (q : write_call) : option GeasStatus :=
  match q with
  | WInsert row | WUpdate _ row => match store_row_params s row with None => Some GEAS_ERR_TYPE | _ => None end
  | WDelete _ => if ncols s =? 0 then Some GEAS_ERR_STORE else None
  end.

(** The values bound: the row's fields in order, then the key. *)
Definition written (h : gmap Z block) (s : GeasSchemaDesc) (q : write_call) (ts : list val) : Prop :=
  match q with
  | WInsert row => repr h row (VSeq GEAS_TY_RECORD (tag row) (l_elem row) ts)
  | WUpdate key row => ∃ els k, ts = els ++ [k] ∧
      repr h row (VSeq GEAS_TY_RECORD (tag row) (l_elem row) els) ∧ repr h key k
  | WDelete key => ∃ k, ts = [k] ∧ repr h key k
  end.

Lemma load_slots_reprs h p ss ts : h !! p = Some (BVals ss) → ∀ n i, reprs h (drop i ss) ts → length ts = n →
  ∃ vs, Forall2 (repr h) vs ts ∧ ∀ m, heap m = h → load_slots p n i m = Ret vs m.
Proof.
  intros Hp n i Hr <-. revert i Hr. induction ts as [|t ts IH]; intros i Hr; [by exists []|].
  destruct (Hr 0%nat t eq_refl) as (v & Hv & Hrv). rewrite lookup_drop, Nat.add_0_r in Hv.
  destruct (IH (S i)) as (vs & Hvs & Hrun).
  { intros j x Hj. destruct (Hr (S j) x Hj) as (y & Hy & Hry). exists y. split; [|done].
    rewrite lookup_drop in *. by replace (S i + j)%nat with (i + S j)%nat by lia. }
  exists (v :: vs). split; [by constructor|]. intros m Hm. simpl. unfold bind, load_slot. rewrite Hm, Hp, Hv. by rewrite Hrun.
Qed.

Lemma row_slots h s row els : store_row_params s row = Some (l_data row) →
  repr h row (VSeq GEAS_TY_RECORD (tag row) (l_elem row) els) →
  ∃ vs, Forall2 (repr h) vs els ∧ length els = length (s_cols s) ∧
    ∀ m, heap m = h → load_slots (l_data row) (length (s_cols s)) 0 m = Ret vs m.
Proof.
  intros Hp Hr. unfold store_row_params in Hp. destruct (is_ty _ _); [|done]. simpl in Hp.
  destruct (Z.eqb_spec (l_len row) (ncols s)) as [El|]; [|done]. simpl in Hp. destruct (l_data row =? 0); [done|].
  apply repr_seq in Hr as (_ & _ & _ & _ & Hlen & _ & Hd).
  assert (Ln : length els = length (s_cols s)) by (unfold ncols in El; lia).
  destruct Hd as [->|(_ & slots & Hs & Hr)].
  - exists []. split; [done|]. split; [done|]. by rewrite <- Ln.
  - destruct (load_slots_reprs h (l_data row) slots els Hs (length (s_cols s)) 0 Hr Ln) as (vs & Hv & Hrun). eauto.
Qed.

Lemma row_params_data s row p : store_row_params s row = Some p → p = l_data row.
Proof.
  unfold store_row_params. destruct (negb _); [done|]. destruct (negb _); [done|]. destruct (_ =? _); [done|]. congruence.
Qed.

Section Writes.
Context `{SQ : Sqlite}.

(** The statement prepares and binds, and its first step fails. *)
Definition exec_fails (h : Z) (sql : string) (ts : list val) (s0 s' : sq) : Prop :=
  h ≠ 0 ∧ ∃ stmt s1 s2 s3, stmt ≠ 0 ∧ sqlite3_prepare_v2 h sql s0 = (true, stmt, s1) ∧
    sqlite3_bind_parameter_count stmt s1 = i32 (Z.of_nat (length ts)) ∧
    bind_vals stmt 1 ts s1 = (GEAS_OK, s2) ∧ sqlite3_step stmt s2 = (SQLITE_FAILED, s3) ∧ s' = sqlite3_finalize stmt s3.

Lemma wwp_exec_fails w fuel h sql vs ts m s0 s' (Q : GeasStatus * option Z → world → Prop) :
  exec_fails h sql ts s0 s' → Forall2 (repr (heap m)) vs ts → Forall int_bytes ts → (0 < fuel)%nat →
  Q (GEAS_ERR_STORE, None) (at_ms w m s') → wwp (geas_store_exec_params fuel h sql vs) (at_ms w m s0) Q.
Proof.
  intros [Hh (stmt & s1 & s2 & s3 & Hs & E1 & Ep & Eb & Est & ->)] Hr Hi Hf HQ. unfold geas_store_exec_params.
  rewrite (proj2 (Z.eqb_neq _ _)) by done. apply wwp_bind. eapply wwp_prepare; [exact E1|done|].
  apply wwp_bind. eapply wwp_bind_params; eauto. cbn [st_ok negb]. apply wwp_bind. destruct fuel as [|fuel]; [lia|].
  apply wwp_bind. eapply wwp_in_sq; [exact Est|]. apply wwp_ret. apply wwp_bind, wwp_on_sq.
  rewrite bool_decide_true by done. by apply wwp_ret.
Qed.

(** A failed statement: its status, with nothing on the instance. *)
Definition failed (w : world) (m : mem) (s' : sq) (r : GeasStatus * GeasValue) (w' : world) : Prop :=
  ∃ m' s, w' = at_ms w m' s ∧ ticked m m' ∧
    (r = (GEAS_ERR_STORE, gzero) ∧ s = s' ∨ r = (GEAS_ERR_OOM, gzero) ∧ refused m m').

Definition unit_val : val := VScalar GEAS_TY_UNIT 0 0.

Lemma wwp_run_write w fuel c s q params vs ts ct h m s0 :
  ci w !! c = Some ct → c_store ct = Some h → mem_wf m → live c m → schema_ok s → stmt_ok q s →
  asks (heap m) params vs → stand_for (heap m) vs ts → (0 < fuel)%nat →
  (∀ rs s', exec_runs h (sql_text q s) ts s0 rs s' → (length rs < fuel)%nat → Z.of_nat (length rs) <= U64_MAX →
     wwp (run_write fuel c (build q s) params) (at_ms w m s0) (answered w c m s' unit_val)) ∧
  (∀ s', exec_fails h (sql_text q s) ts s0 s' →
     wwp (run_write fuel c (build q s) params) (at_ms w m s0) (failed w m s')).
Proof.
  intros Hc Hh Hwf Hl Hs Hq Hp [Hr Hi] Hf.
  assert (Hpre : ∀ Q : GeasStatus * GeasValue → world → Prop,
    (∀ m', ticked m m' → refused m m' → Q (GEAS_ERR_OOM, gzero) (at_ms w m' s0)) →
    (∀ m', ticked m m' → wwp ('(st, _) ← geas_store_exec_params fuel h (sql_text q s) vs;
        if negb (st_ok st) then mret (st, gzero) else in_mem (store_ok_unit c)) (at_ms w m' s0) Q) →
    wwp (run_write fuel c (build q s) params) (at_ms w m s0) Q).
  { intros Q Hoom Hgo. eapply wwp_on_store; [done..|]. apply wwp_bind. eapply wwp_asks; [by apply asks_build|done|].
    intros q1 m1 T1 R1. apply wwp_bind. eapply wwp_asks; [exact Hp|by destruct T1|]. intros q2 m2 T2 R2.
    pose proof (ticked_trans _ _ _ T1 T2) as T.
    destruct R1 as [->|[-> R1]]; [|apply wwp_ret, Hoom; [done|exact (ticked_refused_l _ _ _ R1 T2)]].
    destruct R2 as [->|[-> R2]]; [|apply wwp_ret, Hoom; [done|exact (ticked_refused_r _ _ _ T1 R2)]]. by apply Hgo. }
  split.
  - intros rs s' He Hlen Hsz. apply Hpre.
    + intros m' T Href. apply answered_oom; [by apply grown_ticked_by|done].
    + intros m' T. pose proof (grown_ticked_by c _ _ Hwf Hl T) as G. apply wwp_bind.
      eapply wwp_exec_params; [exact He| |exact Hi|exact Hlen|exact Hsz|]; [destruct T as [-> _]; exact Hr|].
      cbn [st_ok negb]. apply wwp_ms. eapply wp_mono; [by eapply (wp_store_ok c m m' ∅ gzero unit_val)|].
      intros r m2 (hn & G2 & Hres). exists m2, s', hn. split; [done|]. split; [done|].
      destruct Hres as [[? ?]|[? ?]]; [left|right]; done.
  - intros s' He. apply Hpre.
    + intros m' T Href. exists m', s0. split; [done|]. split; [done|]. by right.
    + intros m' T. apply wwp_bind. eapply wwp_exec_fails; [exact He| |exact Hi|exact Hf|]; [destruct T as [-> _]; exact Hr|].
      cbn [st_ok negb]. apply wwp_ret. exists m', s'. split; [done|]. split; [done|]. by left.
Qed.

Lemma write_is fuel c s q (w : world) ct ts : write_refusal s q = None → schema_ok s → Z.of_nat (length (s_cols s)) <= INT_MAX →
  ci w !! c = Some ct → (match q with WDelete _ => c_store ct ≠ None | _ => True end) →
  written (heap (wm w)) s q ts →
  stmt_ok (write_stmt q) s ∧ ∃ params vs,
    run_store_write fuel c s q w = run_write fuel c (build (write_stmt q) s) params w ∧
    asks (heap (wm w)) params vs ∧ Forall2 (repr (heap (wm w))) vs ts.
Proof.
  intros Hr Hs Hmax Hct Hst Hwr. unfold INT_MAX in Hmax. destruct q as [row|key row|key]; simpl in *; (split; [done|]).
  - destruct (store_row_params s row) as [p|] eqn:Ep; [|done]. pose proof (row_params_data _ _ _ Ep) as ->.
    destruct (row_slots _ _ _ _ Ep Hwr) as (vs & Hvs & _ & Hload). do 2 eexists. split; [|split; [|exact Hvs]].
    + unfold geas_store_insert. by rewrite Ep.
    + intros m Hm. exists (Some vs), m. split; [unfold bind; by rewrite Hload|]. split; [by split_and!|by left].
  - destruct (store_row_params s row) as [p|] eqn:Ep; [|done]. pose proof (row_params_data _ _ _ Ep) as ->.
    destruct Hwr as (els & k & -> & Hrow & Hkey). destruct (row_slots _ _ _ _ Ep Hrow) as (vs & Hvs & _ & Hload).
    exists (ok <- sys_alloc (u32 (ncols s + 1) * sizeof_GeasValue);
         if negb ok then ret None else
         if negb (u32 (ncols s + 1) =? ncols s + 1) then undef else
         vs <- load_slots (l_data row) (length (s_cols s)) 0; ret (Some (vs ++ [key]))), (vs ++ [key]).
    split; [|split]. 3: { apply Forall2_app; [done|]. by constructor. }
    + unfold geas_store_update. by rewrite Ep.
    + intros m Hm. rewrite u32_id, Z.eqb_refl by (unfold ncols; z_norm; lia).
      destruct (asks_alloc (heap (wm w)) ((ncols s + 1) * sizeof_GeasValue) (vs ++ [key]) m Hm) as (r & m' & E & Ht & Hx).
      exists r, m'. split; [|done]. rewrite <- E. unfold bind, sys_alloc. destruct (lib_malloc _ _ _); simpl; [|done].
      by rewrite Hload.
  - destruct Hwr as (k & -> & Hkey). do 2 eexists. split; [|split; [apply asks_ret|by constructor]].
    unfold geas_store_delete. unfold mbind at 1, W_bind at 1, get_inst. rewrite Hct.
    rewrite bool_decide_eq_false_2 by done. by destruct (ncols s =? 0).
Qed.

Lemma write_refused fuel c s q (w : world) ct e : write_refusal s q = Some e → ci w !! c = Some ct →
  run_store_write fuel c s q w = WRet (e, gzero) w.
Proof.
  intros Hr Hct. destruct q as [row|key row|key]; simpl in *.
  - unfold geas_store_insert. destruct (store_row_params s row); [done|]. by injection Hr as <-.
  - unfold geas_store_update. destruct (store_row_params s row); [done|]. by injection Hr as <-.
  - destruct (ncols s =? 0) eqn:E; [|done]. injection Hr as <-.
    unfold geas_store_delete. unfold mbind at 1, W_bind at 1, get_inst. by rewrite Hct, E, orb_true_r.
Qed.

Lemma write_unconnected fuel c s q (w : world) ct : write_refusal s q = None → ci w !! c = Some ct →
  c_store ct = None → run_store_write fuel c s q w = WRet (GEAS_ERR_STORE, gzero) w.
Proof.
  intros Hr Hct Hst. destruct q as [row|key row|key]; simpl in *.
  - unfold geas_store_insert. destruct (store_row_params s row); [|done].
    unfold run_write, on_store, mbind at 1, W_bind at 1, get_inst. by rewrite Hct, Hst.
  - unfold geas_store_update. destruct (store_row_params s row); [|done].
    unfold run_write, on_store, mbind at 1, W_bind at 1, get_inst. by rewrite Hct, Hst.
  - unfold geas_store_delete. unfold mbind at 1, W_bind at 1, get_inst. by rewrite Hct, Hst.
Qed.
End Writes.
