(* ===== verification/AggSpec.v ===== *)
(** * Aggregates: one row, read in scratch memory

    The scratch list opens above everything in use, the query fills it, the
    answer is built on the instance, and the list goes: what is left is the
    answer's blocks alone ([scratch_done]). *)
From S2P Require Import Prelude Abi Memory Value ValueSpec Iname Policy Store Future Lifecycle LifecycleSpec SignSpec StoreSql StoreSqlSpec StoreSqlProps Sqlite Driver Rows RowsSpec Park ParkSpec ResumeSpec ResumeRun ParkRun Float Surface SurfaceSpec.

(** ** Scratch memory *)

Lemma scratch_done a c m ha m1 hn m2 : owned m !! a = None → brk m <= a → live c m →
  grown a (Mem (heap m) (<[a := []]> (owned m)) (a + 1) (ticks m) (lib m)) ha m1 → grown c m1 hn m2 →
  ∃ new, owned m2 !! a = Some new ∧ grown c m hn (without_list a new m2).
Proof.
  intros Ha Hb [Hc0 [oc Hc]] [W1 H1 F1 N1 (na & oa & Oa & Ea & Ia) L1 T1 B1] [W2 H2 F2 N2 (nc & oc' & Oc & Ec & Ic) L2 T2 B2].
  simpl in *. assert (Hne : c ≠ a) by congruence. rewrite lookup_insert_eq in Oa. injection Oa as <-.
  rewrite app_nil_r, insert_insert_eq in Ea. rewrite Ea, lookup_insert_ne, Hc in Oc by done. injection Oc as <-.
  rewrite H1 in F2. apply map_disjoint_union_r in F2 as [F21 F22].
  assert (Hna : owned m2 !! a = Some na) by (rewrite Ec, Ea, lookup_insert_ne, lookup_insert_eq; done).
  exists na. split; [done|]. split.
  - by apply mem_wf_without.
  - simpl. rewrite H2, H1, map_union_assoc, (map_union_comm hn ha), <- map_union_assoc by done.
    apply foldr_delete_union; [|done]. apply map_disjoint_union_r. split; [by apply map_disjoint_sym|done].
  - done.
  - intros p Hp. apply N2 in Hp. lia.
  - exists nc, oc. split; [done|]. split; [|done]. simpl. rewrite Ec, Ea, delete_insert_ne by done.
    by rewrite delete_insert_eq, delete_id by done.
  - simpl. congruence.
  - simpl. lia.
  - simpl. lia.
Qed.

(** ** The row's fields *)

Section Fields.
Context `{SQ : Sqlite}.

(** The rows a query left, as the aggregates look at them. *)
Lemma wp_single_row stmt rs rows h tys m (Q : option Z → mem → Prop) : tys ≠ [] → heap m = h →
  repr h rows (rows_val stmt tys rs) →
  (match rs with
   | [r] => ∀ p fs, h !! p = Some (BVals fs) → reprs h fs (row_cells stmt r 0 tys) → Q (Some p) m
   | _ => Q None m
   end) →
  wp (single_row rows (Z.of_nat (length tys))) m Q.
Proof.
  intros Hne Hh Hr HQ. apply repr_seq in Hr as (Hty & _ & _ & _ & Hlen & _ & Hd). rewrite length_map in Hlen.
  unfold single_row, is_ty. rewrite Hty, Z.eqb_refl, Hlen. cbn [negb orb].
  destruct rs as [|r [|r2 rs]].
  - by apply wp_ret.
  - simpl. destruct Hd as [|(Hp & slots & Hs & Hr)]; [done|]. rewrite (proj2 (Z.eqb_neq _ _)) by done. cbn [negb orb].
    destruct (Hr 0%nat _ eq_refl) as (rec & Hrec & Hrep).
    apply wp_bind. eapply wp_load_slot; [by rewrite Hh|exact Hrec|].
    apply repr_seq in Hrep as (Hty2 & _ & _ & _ & Hlen2 & _ & Hd2). rewrite length_row_cells in Hlen2.
    rewrite Hty2, Z.eqb_refl, Hlen2, Z.eqb_refl. cbn [negb orb].
    destruct Hd2 as [E|(Hp2 & fs & Hfs & Hr2)].
    { destruct tys; [done|]. by rewrite row_cells_cons in E. }
    rewrite (proj2 (Z.eqb_neq _ _)) by done. apply wp_ret. by eapply HQ.
  - rewrite (proj2 (Z.eqb_neq _ _)) by (simpl; lia). by apply wp_ret.
Qed.

(** A number column: an integer or a double. *)
Definition numeric (t : Z) : Prop := t = tag_num GEAS_TY_INT ∨ t = tag_num GEAS_TY_FLOAT.
Definition word_of (t : val) : Z := match t with VScalar _ _ x => x | _ => 0 end.

Lemma numeric_cell h f stmt r i t : numeric t → repr h f (cell_val stmt r i t) →
  ty f = t ∧ w0 f = word_of (cell_val stmt r i t) ∧
  repr ∅ (GV t 0 (w0 f) 0 0 0) (cell_val stmt r i t).
Proof. intros [->| ->] (H1 & H2 & H3 & H4); simpl in *; rewrite <- H4; by split_and!. Qed.
End Fields.

(** ** The answers *)

(** What an aggregate's row makes of the instance's memory: [Ok] of a value, or,
    [None], a row that is not the one asked for. *)
Definition agg_mem (c : Z) (m : mem) (ans : option val) (r : GeasStatus * GeasValue) (m' : mem) : Prop :=
  ∃ hn, grown c m hn m' ∧
    (match ans with
     | Some t => r.1 = GEAS_OK ∧ repr hn r.2 (VBox GEAS_TY_RESULT 0 (Some t))
     | None => r = (GEAS_ERR_STORE, gzero) ∧ hn = ∅
     end ∨ r = (GEAS_ERR_OOM, gzero) ∧ refused m m').

Lemma ok_agg c m t r m' : ok_mem c m t r m' → agg_mem c m (Some t) r m'.
Proof. done. Qed.
Lemma wp_agg_none c m : mem_wf m → live c m → wp (ret (GEAS_ERR_STORE, gzero)) m (agg_mem c m None).
Proof. intros. apply wp_ret. exists ∅. split; [by apply grown_refl|]. by left. Qed.

Definition opt_val (b : option val) : val :=
  match b with None => VBox GEAS_TY_OPTION 0 None | Some t => VBox GEAS_TY_OPTION 1 (Some t) end.

Section Answer.
Context `{SQ : Sqlite}.

Definition scalar_agg (stmt : Z) (t : Z) (rs : list sq) : option val :=
  match rs with [r] => Some (cell_val stmt r 0 t) | _ => None end.

Lemma wp_scalar_answer c m stmt t rs rows h : numeric t → mem_wf m → live c m → heap m = h →
  repr h rows (rows_val stmt [t] rs) → wp (scalar_answer c t rows) m (agg_mem c m (scalar_agg stmt t rs)).
Proof.
  intros Ht Hwf Hl Hh Hr. unfold scalar_answer. apply wp_bind.
  eapply (wp_single_row stmt rs rows h [t]); [done|done|done|]. destruct rs as [|r [|r2 rs]]; try by apply wp_agg_none.
  intros p fs Hp Hfs. destruct (Hfs 0%nat _ eq_refl) as (f & Hf & Hrep). apply wp_bind.
  eapply wp_load_slot; [by rewrite Hh|exact Hf|]. destruct (numeric_cell _ _ _ _ _ _ Ht Hrep) as (-> & _ & Hc).
  rewrite Z.eqb_refl. cbn [negb]. eapply wp_mono; [by eapply (wp_store_ok c m m ∅); [by apply grown_refl|done|]|].
  intros a m'. apply ok_agg.
Qed.

(** The average of [n] values that add up to [x]. *)
Definition average (t n x : Z) : option val :=
  if n =? 0 then None else
  Some (VScalar GEAS_TY_FLOAT 0
    (f64_div (if t =? tag_num GEAS_TY_INT then f64_of_int (i64 x) else x) (f64_of_int n))).
Definition avg_agg (stmt : Z) (t : Z) (rs : list sq) : option val :=
  match rs with
  | [r] => Some (opt_val (average t (i64 (word_of (cell_val stmt r 0 (tag_num GEAS_TY_INT)))) (word_of (cell_val stmt r 1 t))))
  | _ => None
  end.

Lemma wp_avg_answer c m stmt t rs rows h : numeric t → mem_wf m → live c m → heap m = h →
  repr h rows (rows_val stmt [tag_num GEAS_TY_INT; t] rs) → wp (avg_answer c t rows) m (agg_mem c m (avg_agg stmt t rs)).
Proof.
  intros Ht Hwf Hl Hh Hr. unfold avg_answer. apply wp_bind.
  eapply (wp_single_row stmt rs rows h [_; t]); [done|done|done|]. destruct rs as [|r [|r2 rs]]; try by apply wp_agg_none.
  intros p fs Hp Hfs. destruct (Hfs 0%nat _ eq_refl) as (f & Hf & Hrf). destruct (Hfs 1%nat _ eq_refl) as (g & Hg & Hrg).
  apply wp_bind. eapply wp_load_slot; [by rewrite Hh|exact Hf|]. apply wp_bind. eapply wp_load_slot; [by rewrite Hh|exact Hg|].
  assert (Hn : numeric (tag_num GEAS_TY_INT)) by by left.
  destruct (numeric_cell _ _ _ _ _ _ Hn Hrf) as (Htf & Hwf' & _). destruct (numeric_cell _ _ _ _ _ _ Ht Hrg) as (Htg & Hwg & _).
  unfold is_ty. rewrite Htf, Htg, !Z.eqb_refl. cbn [negb orb]. unfold as_i, as_f. rewrite Hwf', Hwg.
  unfold avg_agg, average. destruct (_ =? 0).
  - eapply wp_mono; [by eapply (wp_store_ok_none c m m ∅); [by apply grown_refl|]|]. intros a m'. apply ok_agg.
  - set (v := g_scalar GEAS_TY_FLOAT _). eapply wp_mono; [|intros a m'; apply ok_agg].
    refine (wp_store_ok_some c m m ∅ v _ (ret v) _ Hl _ _); [by apply grown_refl|by split_and!|done].
Qed.

(** The extreme of a column, copied onto the instance. *)
Definition extreme_agg (stmt : Z) (t : Z) (rs : list sq) : option val :=
  match rs with
  | [] => Some (opt_val None)
  | [r] => Some (opt_val (Some (scrub (cell_val stmt r 0 t))))
  | _ => None
  end.

Lemma wp_extreme_answer dfuel c m stmt t rs rows h : (0 < dfuel)%nat → Driver.tag_scalar t = true →
  mem_wf m → live c m → heap m = h → repr h rows (rows_val stmt [t] rs) →
  wp (extreme_answer dfuel c t rows) m (agg_mem c m (extreme_agg stmt t rs)).
Proof.
  intros Hf Ht Hwf Hl Hh Hr. pose proof Hr as Hr0. apply repr_seq in Hr0 as (Hty & _ & _ & _ & Hlen & _ & Hd).
  rewrite length_map in Hlen. unfold extreme_answer, is_ty. rewrite Hty, Z.eqb_refl, Hlen. cbn [negb orb].
  destruct rs as [|r [|r2 rs]].
  - simpl. eapply wp_mono; [|intros a m'; apply ok_agg]. eapply wp_store_ok_none; [by apply grown_refl|done].
  - simpl. destruct Hd as [|(Hp & _)]; [done|]. rewrite (proj2 (Z.eqb_neq _ _)) by done. cbn [negb andb orb].
    apply wp_bind. eapply (wp_single_row stmt [r] rows h [t]); [done|done|done|]. intros p fs Hp' Hfs.
    destruct (Hfs 0%nat _ eq_refl) as (f & Hf' & Hrf). apply wp_bind. eapply wp_load_slot; [by rewrite Hh|exact Hf'|].
    assert (Etf : ty f = t).
    { rewrite (repr_ty _ _ _ Hrf). unfold Driver.tag_scalar in Ht. unfold cell_val. destruct (tag_of t) as [tg|] eqn:E; [|done].
      apply tag_of_Some in E as ->. by destruct tg. }
    rewrite Etf, Z.eqb_refl. cbn [negb]. set (u := cell_val stmt r 0 t) in *.
    apply wp_bind, wp_geas_box; [done|done|..].
    2: { intros m1 G Href. simpl. apply wp_ret. exists ∅. split; [done|]. by right. }
    intros m1 G Hb. rewrite (proj2 (Z.eqb_neq _ _)) by done. set (box := brk m) in *. set (b0 := BVals [gzero]) in *.
    assert (Hbox : heap m1 !! box = Some b0) by (eapply lookup_weaken; [apply lookup_singleton_eq|by eapply grown_incl_new]).
    apply wp_bind. eapply wp_load_slot; [exact Hbox|done|].
    assert (Hh1 : height u = 1%nat) by (unfold u, cell_val; destruct (tag_of t) as [[]|]; done).
    apply wp_bind. eapply wp_mono.
    { apply (wp_deep_copy u dfuel c); [lia|by eapply gr_wf|by eapply grown_live|].
      eapply repr_mono; [|exact Hrf]. rewrite <- Hh. by eapply grown_incl. }
    intros [st v] m2 (h2 & G2 & Hres). apply wp_bind. rewrite <- insert_empty in G.
    destruct (fill_grown _ _ _ _ _ _ _ _ 0 v G (lookup_empty _) G2) as [G3 Hn3]. rewrite map_union_empty in G3.
    eapply wp_store_slot; [eapply lookup_weaken; [exact Hbox|by eapply grown_incl]|simpl; lia|].
    destruct Hres as [[Hst Hrep]|[Hst Href]]; simpl in Hst; subst st; cbn [st_ok negb].
    + eapply wp_mono; [|intros a m'; apply ok_agg]. eapply wp_store_ok; [exact G3|done|].
      change (repr (<[box:=BVals [v]]> h2) (g_box GEAS_TY_OPTION 1 box) (VBox GEAS_TY_OPTION 1 (Some (scrub u)))).
      simpl. split_and!; try done. exists v, []. split; [apply lookup_insert_eq|].
      eapply repr_mono; [|exact Hrep]. apply insert_subseteq. by rewrite map_union_empty in Hn3.
    + apply wp_ret. eexists. split; [exact G3|]. right. split; [done|].
      destruct (refused_trans_r _ _ _ _ _ G Href) as (n & z & Hn & Hz). exists n, z. by split.
  - simpl. rewrite (proj2 (Z.ltb_lt _ _)) by lia. cbn [orb]. by apply wp_agg_none.
Qed.

(** ** The call *)

(** What an aggregate leaves of the world. *)
Definition agg_says (w : world) (c : Z) (m : mem) (s' : sq) (ans : option val) (r : GeasStatus * GeasValue) (w' : world) : Prop :=
  ∃ m' s, w' = at_ms w m' s ∧
    (agg_mem c m ans r m' ∧ s = s' ∨ ∃ hn, grown c m hn m' ∧ r = (GEAS_ERR_OOM, gzero) ∧ refused m m').

Lemma at_ms_ms w m s m' s' : at_ms (at_ms w m s) m' s' = at_ms w m' s'.
Proof. done. Qed.

Lemma wwp_aggregate w fuel c s q used vs tys k ans ct h ts m s0 stmt n rs' s5 :
  ci w !! c = Some ct → c_store ct = Some h → mem_wf m → live c m → schema_ok s → stmt_ok q s →
  Z.of_nat (length tys) <= INT_MAX → Z.of_nat (length used) <= U32_MAX → vs = term_vals used →
  stand_for (heap m) vs ts → served h (sql_text q s) tys ts s0 stmt n rs' s5 → (n < fuel)%nat →
  (∀ m1 rows, mem_wf m1 → live c m1 → repr (heap m1) rows (rows_val stmt tys rs') → wp (k rows) m1 (agg_mem c m1 ans)) →
  wwp (aggregate fuel c (build q s) used tys k) (at_ms w m s0) (agg_says w c m (sqlite3_finalize stmt s5) ans).
Proof.
  intros Hc Hh Hwf Hl Hs Hq Hn Hu -> [Hr Hi] [(rs & Hrun & ->) Hb Hsz] Hf Hk. eapply wwp_on_store; [done..|].
  apply wwp_bind. eapply wwp_asks; [by apply asks_build|done|]. intros q1 m1 T1 R1.
  apply wwp_bind. eapply wwp_asks; [apply (asks_term_params (heap m) used []); simpl; lia|by destruct T1|]. intros q2 m2 T2 R2.
  rewrite app_nil_r in R2. pose proof (ticked_trans _ _ _ T1 T2) as T. pose proof (grown_ticked_by c _ _ Hwf Hl T) as G.
  assert (Hoom : refused m m2 → wwp (mret (GEAS_ERR_OOM, gzero)) (at_ms w m2 s0) (agg_says w c m (sqlite3_finalize stmt s5) ans)).
  { intros Href. apply wwp_ret. exists m2, s0. split; [done|]. right. by exists ∅. }
  destruct R1 as [->|[-> R1]]; [|apply Hoom; exact (ticked_refused_l _ _ _ R1 T2)].
  destruct R2 as [->|[-> R2]]; [|apply Hoom; exact (ticked_refused_r _ _ _ T1 R2)].
  set (v := at_ms w m2 s0). destruct (next_addr_fresh v) as (_ & Ho & Hbrk & _). set (a := next_addr v) in *.
  pose proof (gr_wf _ _ _ _ G : mem_wf (wm v)) as Hwf2. destruct (sign_mem_wf v Hwf2) as [Hwfa Hla].
  pose proof (grown_live _ _ _ _ G Hl) as Hl2. apply wwp_bind. unfold wwp at 1, scratch_new. fold v. fold a.
  change (set_wm _ v) with (at_ms w (sign_mem v) s0). apply wwp_bind. eapply wwp_mono.
  { eapply (wwp_query w a (scratch_store_bytes a) fuel h (sql_text q s) (term_vals used) ts tys);
      [apply scratch_alloc|exact Hwfa|exact Hla| |exact Hi|exact Hn|exact Hrun|exact Hb|exact Hf|exact Hsz].
    destruct T as [E _]. simpl. rewrite E. exact Hr. }
  intros [st rows] w' (m3 & sx & ha & -> & Ga & Hres). unfold sign_mem in Ga. fold a in Ga. simpl wm in Ga.
  assert (Hl3 : live c m3).
  { destruct Hl2 as [Hc0 [oc Hoc]]. split; [done|]. destruct (gr_owned _ _ _ _ Ga) as (na & oa & _ & -> & _).
    simpl. assert (a ≠ c) by (intros <-; simpl in *; congruence). rewrite !lookup_insert_ne by done. by exists oc. }
  assert (Hfree : ∀ r m4 hn s4, grown c m3 hn m4 → ∃ m5, grown c m hn m5 ∧ ticks m5 = ticks m4 ∧ lib m5 = lib m4 ∧
    ∀ Q : GeasStatus * GeasValue → world → Prop, Q r (at_ms w m5 s4) →
      wwp (scratch_store_free a;; mret r) (at_ms w m4 s4) Q).
  { intros r m4 hn s4 G4. destruct (scratch_done a c m2 ha m3 hn m4 Ho Hbrk Hl2 Ga G4) as (new & Hnew & G5).
    exists (without_list a new m4). pose proof (grown_trans _ _ _ _ _ _ G G5) as G6. rewrite map_union_empty in G6.
    split; [done|]. split; [done|]. split; [done|]. intros Q HQ. apply wwp_bind. unfold wwp.
    change (scratch_store_free a) with (park_arena_free a). by rewrite (arena_free_run a _ new). }
  assert (Hsince : ∀ m5 m4, refused m3 m4 → ticks m5 = ticks m4 → lib m5 = lib m4 → refused m m5).
  { intros m5 m4 (i & z & Hi' & Hz) Et El. exists i, z. rewrite Et. destruct T as (_ & _ & _ & El2 & Et2).
    pose proof (gr_ticks _ _ _ _ Ga). pose proof (gr_lib _ _ _ _ Ga). simpl in *. split; [lia|congruence]. }
  destruct Hres as [(Hst & -> & Hrep)|[[= -> ->] Href]]; [simpl in Hst; subst st|]; cbn [st_ok].
  - apply wwp_bind, wwp_ms. simpl in Hrep. eapply wp_mono.
    { eapply (Hk m3 rows); [by eapply gr_wf|done|]. eapply repr_mono; [by eapply grown_incl_new|exact Hrep]. }
    intros r m4 (hn & G4 & Hans). destruct (Hfree r m4 hn (sqlite3_finalize stmt s5) G4) as (m5 & G5 & Et & El & HQ).
    apply HQ. exists m5, (sqlite3_finalize stmt s5). split; [done|]. destruct Hans as [Hans|[-> Href]].
    + left. split; [|done]. exists hn. split; [done|]. by left.
    + right. exists hn. split; [done|]. split; [done|]. by eapply Hsince.
  - apply wwp_bind, wwp_ret.
    destruct (Hfree (GEAS_ERR_OOM, gzero) m3 ∅ (sqlite3_finalize stmt sx) (grown_refl _ _ (gr_wf _ _ _ _ Ga) Hl3)) as (m5 & G5 & Et & El & HQ).
    apply HQ. exists m5, (sqlite3_finalize stmt sx). split; [done|]. right. exists ∅. split; [done|]. split; [done|].
    destruct Href as (i & z & Hi' & Hz). exists i, z. rewrite Et. destruct T as (_ & _ & _ & El2 & Et2). simpl in *.
    split; [lia|congruence].
Qed.
End Answer.

(** ** The aggregate calls *)

Inductive agg_call :=
| ACountAny (ts : list GeasStoreTerm) (lens : list Z)
| ASumAny (col : Z) (ts : list GeasStoreTerm) (lens : list Z)
| ACountWhere (ts : list GeasStoreTerm)
| ASumWhere (col : Z) (ts : list GeasStoreTerm)
| AAgg (agg col : Z) (ts : list GeasStoreTerm) (lens : list Z).

Definition run_agg `{SQ : Sqlite} (fuel dfuel : nat) (c : Z) (s : GeasSchemaDesc) (q : agg_call) : W (GeasStatus * GeasValue) :=
  match q with
  | ACountAny ts lens => geas_store_count_any fuel c s ts lens
  | ASumAny col ts lens => geas_store_sum_any fuel c s col ts lens
  | ACountWhere ts => geas_store_count_where fuel c s ts
  | ASumWhere col ts => geas_store_sum_where fuel c s col ts
  | AAgg agg col ts lens => geas_store_agg_any fuel dfuel c s agg col ts lens
  end.

Definition group_words (ts : list GeasStoreTerm) (lens : list Z) : Prop :=
  words ts ∧ Forall (λ n, 0 <= n) lens ∧ foldr Z.add 0 lens <= Z.of_nat (length ts).
Definition agg_words (q : agg_call) : Prop :=
  match q with
  | ACountAny ts lens => group_words ts lens
  | ASumAny col ts lens => group_words ts lens ∧ 0 <= col
  | ACountWhere ts => words ts
  | ASumWhere col ts => words ts ∧ 0 <= col
  | AAgg agg col ts lens => group_words ts lens ∧ 0 <= col
  end.

Definition agg_terms (q : agg_call) : list GeasStoreTerm :=
  match q with
  | ACountAny ts lens | ASumAny _ ts lens | AAgg _ _ ts lens => taken ts lens
  | ACountWhere ts | ASumWhere _ ts => ts
  end.
Definition agg_stmt (q : agg_call) : sql_stmt :=
  match q with
  | ACountAny ts lens => SCountAny (taken ts lens) lens
  | ASumAny col ts lens => SSumAny col (taken ts lens) lens
  | ACountWhere ts => SCount ts
  | ASumWhere col ts => SSum col ts
  | AAgg agg col ts lens =>
      if agg =? GEAS_AGG_AVG then SAvg col (taken ts lens) lens
      else SExtreme col (agg =? GEAS_AGG_MAX) (taken ts lens) lens
  end.
Definition agg_tys (s : GeasSchemaDesc) (q : agg_call) : list Z :=
  match q with
  | ACountAny _ _ | ACountWhere _ => [tag_num GEAS_TY_INT]
  | ASumAny col _ _ | ASumWhere col _ => [col_ty s col]
  | AAgg agg col _ _ => if agg =? GEAS_AGG_AVG then [tag_num GEAS_TY_INT; col_ty s col] else [col_ty s col]
  end.

Definition groups_valid (s : GeasSchemaDesc) (ts : list GeasStoreTerm) (lens : list Z) : bool :=
  negb (ncols s =? 0) && negb (Z.of_nat (length lens) =? 0) &&
  bool_decide (total_terms lens 0 ≠ None) && forallb (term_valid s) (taken ts lens).
Definition agg_valid (s : GeasSchemaDesc) (q : agg_call) : bool :=
  match q with
  | ACountAny ts lens => groups_valid s ts lens
  | ASumAny col ts lens => groups_valid s ts lens && sum_valid s col
  | ACountWhere ts => terms_valid s ts
  | ASumWhere col ts => terms_valid s ts && sum_valid s col
  | AAgg agg col ts lens =>
      (agg <=? GEAS_AGG_AVG) && groups_valid s ts lens && (col <? ncols s) &&
      (if agg =? GEAS_AGG_AVG then sum_valid s col else true)
  end.

(** What the rows answer; [None] is an answer the statement cannot give. *)
Definition agg_answer `{SQ : Sqlite} (s : GeasSchemaDesc) (q : agg_call) (stmt : Z) (rs : list sq) : option val :=
  match q with
  | ACountAny _ _ | ACountWhere _ => scalar_agg stmt (tag_num GEAS_TY_INT) rs
  | ASumAny col _ _ | ASumWhere col _ => scalar_agg stmt (col_ty s col) rs
  | AAgg agg col _ _ =>
      if agg =? GEAS_AGG_AVG then avg_agg stmt (col_ty s col) rs else extreme_agg stmt (col_ty s col) rs
  end.

Lemma sum_numeric s col : 0 <= col → sum_valid s col = true → 0 <= col < ncols s ∧ numeric (col_ty s col).
Proof.
  intros H0 [Hc Ht]%andb_true_iff. apply Z.ltb_lt in Hc. split; [lia|]. unfold col_ty, numeric.
  destruct (s_cols s !! Z.to_nat col) as [k|]; [|done]. simpl.
  apply orb_true_iff in Ht as [?%Z.eqb_eq|?%Z.eqb_eq]; auto.
Qed.

Lemma groups_run s ts lens : group_words ts lens →
  group_terms s ts lens = (if groups_valid s ts lens then Some (Some (taken ts lens)) else Some None) ∧
  (groups_valid s ts lens = true → terms_ok s (taken ts lens) ∧ lens_ok (taken ts lens) lens).
Proof.
  intros (Hw & Hl & Hsum). unfold groups_valid.
  destruct (Z.eqb_spec (ncols s) 0) as [E|Hc]; [unfold group_terms; by rewrite E|].
  destruct lens as [|g lens]; [unfold group_terms; by rewrite orb_true_r|].
  rewrite (proj2 (Z.eqb_neq (Z.of_nat (length (g :: lens))) 0)) by (simpl; lia). cbn [negb andb].
  rewrite total_taken by done. split; [done|]. intros Hv. eapply group_terms_ok; [|done|done].
  rewrite total_taken by done. by rewrite Hv.
Qed.

Section Aggs.
Context `{SQ : Sqlite}.

Definition an_agg (fuel dfuel : nat) (c : Z) (s : GeasSchemaDesc) (q : agg_call) : Prop := ∃ k,
  run_agg fuel dfuel c s q = aggregate fuel c (build (agg_stmt q) s) (agg_terms q) (agg_tys s q) k ∧
  ∀ m rows stmt rs, forallb Driver.tag_scalar (agg_tys s q) = true → mem_wf m → live c m →
    repr (heap m) rows (rows_val stmt (agg_tys s q) rs) → wp (k rows) m (agg_mem c m (agg_answer s q stmt rs)).

Lemma agg_is fuel dfuel c s q : agg_valid s q = true → agg_words q → (0 < dfuel)%nat →
  stmt_ok (agg_stmt q) s ∧ Z.of_nat (length (agg_terms q)) <= U32_MAX ∧ an_agg fuel dfuel c s q.
Proof.
  intros Hv Hw Hd. assert (Hint : numeric (tag_num GEAS_TY_INT)) by by left.
  destruct q as [ts lens|col ts lens|ts|col ts|agg col ts lens]; simpl in Hv, Hw; unfold an_agg; simpl.
  - destruct (groups_run s ts lens Hw) as [Hg Hok]. rewrite Hv in Hg. destruct (Hok Hv) as [[? ?] ?].
    split; [done|]. split; [done|]. exists (scalar_answer c (tag_num GEAS_TY_INT)). split.
    + unfold geas_store_count_any. by rewrite Hg.
    + intros. by eapply wp_scalar_answer.
  - destruct Hw as [Hw H0]. apply andb_true_iff in Hv as [Hv Hs]. destruct (groups_run s ts lens Hw) as [Hg Hok].
    rewrite Hv in Hg. destruct (Hok Hv) as [[? ?] ?]. destruct (sum_numeric _ _ H0 Hs) as [? Hn].
    split; [done|]. split; [done|]. exists (scalar_answer c (col_ty s col)). split.
    + unfold geas_store_sum_any. by rewrite Hg, Hs.
    + intros. by eapply wp_scalar_answer.
  - pose proof (terms_valid_ok s ts Hw Hv) as [? ?]. split; [done|]. split; [done|].
    exists (scalar_answer c (tag_num GEAS_TY_INT)). split.
    + unfold geas_store_count_where. by rewrite Hv.
    + intros. by eapply wp_scalar_answer.
  - destruct Hw as [Hw H0]. apply andb_true_iff in Hv as [Hv Hs]. pose proof (terms_valid_ok s ts Hw Hv) as [? ?].
    destruct (sum_numeric _ _ H0 Hs) as [? Hn]. split; [done|]. split; [done|].
    exists (scalar_answer c (col_ty s col)). split.
    + unfold geas_store_sum_where. by rewrite Hv, Hs.
    + intros. by eapply wp_scalar_answer.
  - destruct Hw as [Hw H0]. apply andb_true_iff in Hv as [[[Ha Hv]%andb_true_iff Hc]%andb_true_iff Hs].
    destruct (groups_run s ts lens Hw) as [Hg Hok]. rewrite Hv in Hg. destruct (Hok Hv) as [[? ?] ?].
    apply Z.leb_le in Ha. pose proof (proj1 (Z.ltb_lt _ _) Hc). destruct (agg =? GEAS_AGG_AVG) eqn:Eavg.
    + destruct (sum_numeric _ _ H0 Hs) as [? Hn]. split; [done|]. split; [done|]. exists (avg_answer c (col_ty s col)). split.
      * unfold geas_store_agg_any. rewrite (proj2 (Z.ltb_ge _ _)) by done. by rewrite Hg, Hc, Eavg, Hs.
      * intros. by eapply wp_avg_answer.
    + split; [done|]. split; [done|]. exists (extreme_answer dfuel c (col_ty s col)). split.
      * unfold geas_store_agg_any. rewrite (proj2 (Z.ltb_ge _ _)) by done. by rewrite Hg, Hc, Eavg.
      * intros m rows stmt rs Ht. apply andb_true_iff in Ht as [Ht _]. intros. by eapply wp_extreme_answer.
Qed.

Lemma agg_refused fuel dfuel c s q w : agg_valid s q = false → agg_words q →
  run_agg fuel dfuel c s q w = WRet (GEAS_ERR_TYPE, gzero) w.
Proof.
  intros Hv Hw. destruct q as [ts lens|col ts lens|ts|col ts|agg col ts lens]; simpl in *.
  - unfold geas_store_count_any. destruct (groups_run s ts lens Hw) as [-> _]. by rewrite Hv.
  - unfold geas_store_sum_any. destruct Hw as [Hw _]. destruct (groups_run s ts lens Hw) as [-> _].
    destruct (groups_valid s ts lens); [|done]. simpl in Hv. by rewrite Hv.
  - unfold geas_store_count_where. by rewrite Hv.
  - unfold geas_store_sum_where. by rewrite Hv.
  - unfold geas_store_agg_any. destruct (Z.ltb_spec GEAS_AGG_AVG agg) as [|Ha]; [done|].
    rewrite (proj2 (Z.leb_le _ _)) in Hv by done. destruct Hw as [Hw _]. destruct (groups_run s ts lens Hw) as [-> _].
    destruct (groups_valid s ts lens); [|done]. simpl in Hv. destruct (col <? ncols s); [|done]. simpl in *.
    destruct (agg =? GEAS_AGG_AVG); [|done]. by rewrite Hv.
Qed.

Lemma agg_unconnected fuel dfuel c s q (w : world) ct : agg_valid s q = true → agg_words q → (0 < dfuel)%nat →
  ci w !! c = Some ct → c_store ct = None → run_agg fuel dfuel c s q w = WRet (GEAS_ERR_STORE, gzero) w.
Proof.
  intros Hv Hw Hd Hct Hst. destruct (agg_is fuel dfuel c s q Hv Hw Hd) as (_ & _ & k & -> & _).
  unfold aggregate, on_store, mbind at 1, W_bind at 1, get_inst. by rewrite Hct, Hst.
Qed.
End Aggs.
