(* ===== verification/Shelf.v ===== *)
(** * A small library for the concrete runs

    In the place of SQLite: one table of rows under their first column; statement
    2 inserts or replaces, statement 3 selects by key.  And an instance to park. *)
From S2P Require Import Prelude Abi Memory Value ValueSpec ValueProps Wire WireSpec WireProps Iname InameSpec Policy Store Future Lifecycle LifecycleSpec SignSpec StoreSql Sqlite Driver Rows RowsSpec Park ParkSpec ResumeSpec ResumeRun ParkRun StoreSqlSpec StoreSqlProps SurfaceSpec.

Module Shelf.
Record db := Db {
  table : list (list Z * list sqval); params : list sqval; here : list sqval; stepped : bool
}.

Definition find_row (k : list Z) (s : db) : option (list sqval) :=
  snd <$> List.find (λ kr, bool_decide (kr.1 = k)) (table s).

Definition step (stmt : Z) (s : db) : step_rc * db :=
  if stmt =? 2 then
    match params s with
    | SBlob k :: row =>
        (SQLITE_DONE, Db ((k, row) :: List.filter (λ kr, negb (bool_decide (kr.1 = k))) (table s)) (params s) [] false)
    | _ => (SQLITE_FAILED, s)
    end
  else
    match params s with
    | [SBlob k] =>
        if stepped s then (SQLITE_DONE, s) else
        match find_row k s with
        | Some row => (SQLITE_ROW, Db (table s) (params s) row true)
        | None => (SQLITE_DONE, s)
        end
    | _ => (SQLITE_FAILED, s)
    end.

#[export] Instance shelf : Sqlite := {|
  sq := db;
  sqlite3_malloc _ s := (true, s);
  sqlite3_open_v2 _ s := (true, 1, s);
  sqlite3_busy_timeout _ _ s := s;
  sqlite3_close _ s := s;
  sqlite3_exec _ _ s := (true, s);
  sqlite3_prepare_v2 _ sql s :=
    if String.eqb sql PARK_PUT then (true, 2, Db (table s) [] [] false)
    else if String.eqb sql PARK_GET then (true, 3, Db (table s) [] [] false) else (false, 0, s);
  sqlite3_finalize _ s := Db (table s) [] [] false;
  sqlite3_reset _ s := (true, Db (table s) (params s) [] false);
  sqlite3_bind_parameter_count stmt _ := if stmt =? 2 then 10 else 1;
  sqlite3_bind _ _ x s := (true, Db (table s) (params s ++ [x]) [] false);
  sqlite3_step := step;
  sqlite3_column_count stmt _ := if stmt =? 3 then 9 else 0;
  sqlite3_column_int64 _ i s := match here s !! Z.to_nat i with Some (SInt n) => n | _ => 0 end;
  sqlite3_column_double _ i s := match here s !! Z.to_nat i with Some (SReal x) => x | _ => 0 end;
  sqlite3_column_blob _ i s := match here s !! Z.to_nat i with Some (SBlob bs) => bs | _ => [] end;
  sqlite3_column_text _ _ _ := None;
  sqlite3_changes64 _ _ := 1
|}.

(** A contract with a vow, two pledges and a transactional subcontract; an
    instance of it halfway: one pledge kept, the other broken with a payload. *)
Definition cart_desc : GeasContractDesc :=
  ContractDesc "Cart" 77 3 [PledgeDesc "pay" None 0 900 0; PledgeDesc "ship" None 0 901 0]
    [VowDesc "limit" (tag_num GEAS_TY_INT) 0 gzero] [Some "Buy"%string] [] 0 [] [] [] [] (Some [GEAS_SUB_TRANSACTIONAL]).
Definition cart_rt : GeasRuntime := Runtime [cart_desc] [] [] [] 0 false [] 0 (λ _ _, true).
Definition cart : GeasContract :=
  Contract cart_desc GEAS_PARTIAL 10 [900; 901] 77 1234 (Some [PLEDGE_FULFILLED; PLEDGE_BROKEN])
    [gzero; g_scalar GEAS_TY_INT 7] (Some [TXN_DONE]) None.
Definition cart_vows : list val := [VScalar GEAS_TY_INT 0 5].
Definition cart_errs : list (option val) := [None; Some (VScalar GEAS_TY_INT 0 7)].
Definition cart_mem : mem :=
  Mem {[ 10 := BVals [g_scalar GEAS_TY_INT 5] ]} {[ 20 := [10] ]} 21 0 lib0.
Definition cart_world : world :=
  World cart_mem {[ 20 := cart ]} (Db [] [] [] false : sq) cart_rt [20] 1000 ∅ ∅ [].

(** Park it, lose the process, resume it in a fresh runtime on the same database. *)
Definition fresh_world (s : sq) : world := World (Mem ∅ ∅ 1 0 lib0) ∅ s cart_rt [] 2000 ∅ ∅ [].
Example cart_comes_back :
  match geas_instance_park 5 20 (Some "db"%string) (Some "k1"%string) cart_world with
  | WRet st w1 =>
      match geas_instance_resume 5 (Some "db"%string) (Some "k1"%string) 77 (fresh_world (ws w1)) with
      | WRet (st2, x) w2 =>
          match ci w2 !! x with
          | Some ct => (st, st2, c_state ct, c_signed_at ct, c_pledge_state ct, c_sub_txn ct, c_pledge_err ct, heap (wm w2) !! c_vow_vals ct)
          | None => (st, st2, GEAS_UNSIGNED, 0, None, None, [], None)
          end
      | _ => (st, GEAS_ERR_TYPE, GEAS_UNSIGNED, 0, None, None, [], None)
      end
  | _ => (GEAS_ERR_TYPE, GEAS_ERR_TYPE, GEAS_UNSIGNED, 0, None, None, [], None)
  end = (GEAS_OK, GEAS_OK, GEAS_PARTIAL, 1234, Some [PLEDGE_FULFILLED; PLEDGE_BROKEN], Some [TXN_DONE],
         [gzero; g_scalar GEAS_TY_INT 7], Some (BVals [g_scalar GEAS_TY_INT 5])).
Proof. vm_compute. reflexivity. Qed.

(** ** The facts the runs rest on *)

Definition cart_image : list val := park_image "k1" cart cart_vows cart_errs.
Definition cart_row : list sqval := tail (omap sq_of_val cart_image).
Definition later_world : world := fresh_world (Db [(str_bytes "k1", cart_row)] [] [] false).
Definition found (k : list Z) : db := Db [(k, cart_row)] [SBlob k] cart_row true.
Definition cart_found : db := found (str_bytes "k1").
(** The same row under the bytes the demo memory has at hand. *)
Definition hi_world : world := set_wm demo_mem (fresh_world (Db [([104; 105], cart_row)] [] [] false)).

Lemma cart_mem_wf : mem_wf cart_mem.
Proof.
  split; simpl; [lia| | | |].
  - intros p Hp. destruct (decide (p = 10)) as [->|Hne]; [lia|].
    rewrite lookup_singleton_ne in Hp by done. by destruct Hp.
  - intros c bl p [<- <-]%lookup_singleton_Some ->%list_elem_of_singleton. rewrite lookup_singleton_eq. by eexists.
  - intros c bl [<- <-]%lookup_singleton_Some. apply NoDup_singleton.
  - intros c c' bl bl' p [<- _]%lookup_singleton_Some [<- _]%lookup_singleton_Some. done.
Qed.
Lemma later_wf : mem_wf (wm later_world).
Proof.
  split; simpl; [lia|..].
  - intros p [? Hp]. by rewrite lookup_empty in Hp.
  - intros c bl p Hc. by rewrite lookup_empty in Hc.
  - intros c bl Hc. by rewrite lookup_empty in Hc.
  - intros c c' bl bl' p Hc. by rewrite lookup_empty in Hc.
Qed.

Lemma cart_vows_ok : Forall unpackable cart_vows.
Proof. constructor; [|constructor]. split; [|by split; [|simpl; lia]]. simpl. unfold is_u32, is_u64. lia. Qed.
Lemma cart_err_ok : unpackable (VScalar GEAS_TY_INT 0 7).
Proof. split; [|by split; [|simpl; lia]]. simpl. unfold is_u32, is_u64. lia. Qed.

Lemma cart_parkable : parkable "k1" cart cart_vows cart_errs cart_mem.
Proof.
  split; try reflexivity.
  - split; [reflexivity|]. split.
    + eapply Forall_impl; [exact cart_vows_ok|exact unpackable_storable].
    + right. exists [g_scalar GEAS_TY_INT 5]. split; [apply lookup_singleton_eq|].
      intros i t Hi. destruct i as [|i]; [|by destruct i]. injection Hi as <-. by eexists.
  - split; [reflexivity|]. constructor; [done|]. constructor; [|constructor]. split; [done|].
    split; [done|]. apply unpackable_storable, cart_err_ok.
  - unfold park_image. repeat (apply Forall_cons; split; [first [exact I|vm_compute; congruence]|]). constructor.
Qed.

Lemma cart_taken : row_taken "db" cart_image (Db [] [] [] false : sq) (Db [(str_bytes "k1", cart_row)] [] [] false : sq) 0.
Proof.
  exists 1, (Db [] [] [] false), (Db [] [] [] false), [], (Db [(str_bytes "k1", cart_row)] [] [] false).
  split; [reflexivity|]. split; [reflexivity|]. split; [|by split].
  split; [done|]. do 4 eexists. split; [|split; [reflexivity|split; [reflexivity|split; [reflexivity|split]]]].
  - done.
  - apply cursor_done. reflexivity.
  - reflexivity.
Qed.

Definition column_ok (x : sqval) : bool :=
  match x with SBlob bs => (Z.of_nat (length bs) <=? INT_MAX) && forallb (λ b, bool_decide (is_u8 b)) bs | _ => true end.

Lemma columns_ok stmt (s : db) : forallb column_ok (here s) = true →
  blobs_ok (SQ := shelf) stmt s ∧ ∀ i, bytes_ok (sqlite3_column_blob stmt i (s : sq)).
Proof.
  intros H. assert (K : ∀ i, Z.of_nat (length (sqlite3_column_blob stmt i (s : sq))) <= INT_MAX ∧ bytes_ok (sqlite3_column_blob stmt i (s : sq))).
  { intros i. simpl. destruct (here s !! Z.to_nat i) as [x|] eqn:E; [|by split; [done|constructor]].
    apply list_elem_of_lookup_2, list_elem_of_In in E. pose proof (proj1 (forallb_forall _ _) H x E) as Hx.
    destruct x as [n|n|bs]; [by split; [done|constructor]..|]. simpl in Hx.
    apply andb_true_iff in Hx as [Hl Hb]. split; [by apply Z.leb_le|]. apply Forall_forall. intros b Hin.
    apply list_elem_of_In in Hin. pose proof (proj1 (forallb_forall _ _) Hb b Hin) as Hy. by apply bool_decide_eq_true in Hy. }
  split; intros i; apply K.
Qed.

Lemma cart_cursor k (s : db) : step 3 s = (SQLITE_ROW, found k) → cursor (SQ := shelf) 3 s [found k] (found k).
Proof.
  intros E. refine (cursor_row (SQ := shelf) 3 _ (found k) [] (found k) E _). apply cursor_done. reflexivity.
Qed.

Lemma found_columns k : blobs_ok (SQ := shelf) 3 (found k) ∧ ∀ i, bytes_ok (sqlite3_column_blob 3 i (found k : sq)).
Proof. apply columns_ok. vm_compute. reflexivity. Qed.

Lemma hi_query : query_runs 1 PARK_GET park_cols [VString 0 [104; 105]] (ws hi_world) 3
  [found [104; 105]] [found [104; 105]] (found [104; 105]).
Proof.
  split; [done|reflexivity|done| |reflexivity].
  do 4 eexists. split; [reflexivity|]. split; [reflexivity|]. split; [reflexivity|]. split; [reflexivity|].
  split; [apply cart_cursor; reflexivity|]. split; [reflexivity|]. apply cart_cursor. reflexivity.
Qed.

Lemma cart_served : row_served "db" "k1" (ws later_world) 3 [cart_found] [cart_found].
Proof.
  split.
  - exists 1, (ws later_world), (ws later_world), cart_found.
    split; [reflexivity|]. split; [reflexivity|]. split; [done|reflexivity|done| |reflexivity].
    do 4 eexists. split; [reflexivity|]. split; [reflexivity|]. split; [reflexivity|]. split; [reflexivity|].
    split; [apply cart_cursor; reflexivity|]. split; [reflexivity|]. apply cart_cursor. reflexivity.
  - vm_compute. congruence.
  - constructor; [|constructor]. apply found_columns.
Qed.

Lemma cart_restorable : restorable cart cart_vows cart_errs.
Proof.
  split; try done.
  - constructor; [|constructor]. split; [reflexivity|]. by apply (Forall_inv cart_vows_ok).
  - split; [reflexivity|]. constructor; [done|]. constructor; [|constructor]. intros t [= <-]. apply cart_err_ok.
  - split; [done|]. split; [done|]. by repeat constructor.
Qed.

Lemma cart_row_holds : row_holds 3 (cart_found : sq) (tail cart_image).
Proof. intros i t Hi. do 9 (destruct i as [|i]; [injection Hi as <-; reflexivity|]). by destruct i. Qed.

Lemma later_fits n d : find_desc (wr later_world) n = Some d →
  fits_slots (length (d_vows d)) ∧ fits_slots (length (d_pledges d)).
Proof.
  intros H. assert (d = cart_desc) as ->.
  { unfold find_desc in H. simpl in H. repeat case_match; by simplify_eq. }
  split; vm_compute; congruence.
Qed.
End Shelf.

(** A catalogue: the columns of the one table it has, and how many of them the
    running [table_info] has shown. *)
Module Catalog.
Record db := Db { columns : list (string * string); shown : nat }.
Definition items : GeasSchemaDesc :=
  SchemaDesc "items" [SchemaCol "id" (tag_num GEAS_TY_INT); SchemaCol "name" (tag_num GEAS_TY_STRING)].
Definition made : db := Db [("id", "INTEGER"); ("name", "text")]%string 0.
Definition other : GeasSchemaDesc :=
  SchemaDesc "items" [SchemaCol "id" (tag_num GEAS_TY_INT); SchemaCol "name" (tag_num GEAS_TY_FLOAT)].
Definition column (i : Z) (s : db) : option string :=
  c ← columns s !! pred (shown s); Some (if i =? 1 then c.1 else c.2).

#[export] Instance catalog : Sqlite := {|
  sq := db;
  sqlite3_malloc _ s := (true, s);
  sqlite3_open_v2 _ s := (true, 1, s);
  sqlite3_busy_timeout _ _ s := s;
  sqlite3_close _ s := s;
  sqlite3_exec _ sql s :=
    if String.eqb sql "CREATE TABLE items(id INTEGER PRIMARY KEY, name TEXT)" then (true, made) else (false, s);
  sqlite3_prepare_v2 _ sql s := (String.eqb sql "PRAGMA table_info(items)", 1, Db (columns s) 0);
  sqlite3_finalize _ s := Db (columns s) 0;
  sqlite3_reset _ s := (true, Db (columns s) 0);
  sqlite3_bind_parameter_count _ _ := 0;
  sqlite3_bind _ _ _ s := (false, s);
  sqlite3_step _ s :=
    if (shown s <? length (columns s))%nat then (SQLITE_ROW, Db (columns s) (S (shown s))) else (SQLITE_DONE, s);
  sqlite3_column_count _ _ := 6;
  sqlite3_column_int64 _ _ _ := 0;
  sqlite3_column_double _ _ _ := 0;
  sqlite3_column_blob _ _ _ := [];
  sqlite3_column_text _ i s := column i s;
  sqlite3_changes64 _ _ := 0
|}.

(** Created once, accepted as it stands the next time, refused under another type. *)
Example items_reconcile :
  (Driver.geas_store_reconcile 1 items (Db [] 0 : sq) = Some (GEAS_OK, made)) ∧
  (fst <$> Driver.geas_store_reconcile 1 items (made : sq)) = Some GEAS_OK ∧
  (fst <$> Driver.geas_store_reconcile 1 other (made : sq)) = Some GEAS_ERR_TYPE.
Proof. vm_compute. done. Qed.

Lemma made_cursor :
  cursor (SQ := catalog) 1 made [Db (columns made) 1; Db (columns made) 2] (Db (columns made) 2).
Proof.
  refine (cursor_row (SQ := catalog) 1 made (Db (columns made) 1) _ _ eq_refl _).
  refine (cursor_row (SQ := catalog) 1 (Db (columns made) 1) (Db (columns made) 2) _ _ eq_refl _).
  exact (cursor_done (SQ := catalog) 1 (Db (columns made) 2) (Db (columns made) 2) eq_refl).
Qed.
End Catalog.

(** A table of rows behind every SELECT; a count of them behind a SELECT COUNT, and
    a DELETE empties it. *)
Module Ledger.
Inductive shape := Rows | Count | Sweep.
Record db := Db { content : list (list sqval); mode : shape; shown : nat }.
Definition shape_of (sql : string) : shape :=
  if String.prefix "DELETE" sql then Sweep else if String.prefix "SELECT COUNT" sql then Count else Rows.
Definition visible (s : db) : list (list sqval) :=
  match mode s with
  | Rows => content s
  | Count => [[SInt (Z.of_nat (length (content s)))]]
  | Sweep => []
  end.
Definition cell (i : Z) (s : db) : option sqval := visible s !! pred (shown s) ≫= (.!! Z.to_nat i).

#[export] Instance ledger : Sqlite := {|
  sq := db;
  sqlite3_malloc _ s := (true, s);
  sqlite3_open_v2 _ s := (true, 1, s);
  sqlite3_busy_timeout _ _ s := s;
  sqlite3_close _ s := s;
  sqlite3_exec _ _ s := (true, s);
  sqlite3_prepare_v2 _ sql s := (true, 1, Db (content s) (shape_of sql) 0);
  sqlite3_finalize _ s := Db (content s) Rows 0;
  sqlite3_reset _ s := (true, Db (content s) (mode s) 0);
  sqlite3_bind_parameter_count _ _ := 1;
  sqlite3_bind _ _ _ s := (true, s);
  sqlite3_step _ s :=
    if (shown s <? length (visible s))%nat then (SQLITE_ROW, Db (content s) (mode s) (S (shown s)))
    else (SQLITE_DONE, match mode s with Sweep => Db [] Sweep (shown s) | _ => s end);
  sqlite3_column_count _ s := Z.of_nat (length (default [] (head (visible s))));
  sqlite3_column_int64 _ i s := match cell i s with Some (SInt n) => n | _ => 0 end;
  sqlite3_column_double _ i s := match cell i s with Some (SReal x) => x | _ => 0 end;
  sqlite3_column_blob _ i s := match cell i s with Some (SBlob bs) => bs | _ => [] end;
  sqlite3_column_text _ _ _ := None;
  sqlite3_changes64 _ _ := 1
|}.

Definition seven : db := Db [[SInt 7; SBlob [104; 105]]] Rows 0.
Definition member : GeasContract :=
  Contract Shelf.cart_desc GEAS_SIGNED 0 [900; 901] 77 1234 (Some [PLEDGE_PENDING; PLEDGE_PENDING]) [gzero; gzero] None (Some 1).
(** The demo memory's instance, connected to a table with one row. *)
Definition member_world : world := World demo_mem {[ 2 := member ]} (seven : sq) Shelf.cart_rt [2] 1000 ∅ ∅ [].
Definition seven_key : GeasValue := g_scalar GEAS_TY_INT 7.
Definition at_seven (k : shape) : db := Db (content seven) k 1.

Lemma items_ok : schema_ok Catalog.items.
Proof. split; [by vm_compute|repeat constructor; by vm_compute|by vm_compute]. Qed.

Lemma blobs_small stmt k : blobs_ok (SQ := ledger) stmt (at_seven k).
Proof.
  intros i. simpl. unfold cell. destruct k; simpl; destruct (Z.to_nat i) as [|[|n]]; simpl; unfold INT_MAX; lia.
Qed.

Lemma one_row k : k ≠ Sweep → cursor (SQ := ledger) 1 (Db (content seven) k 0) [at_seven k] (at_seven k).
Proof.
  intros Hk. refine (cursor_row (SQ := ledger) 1 (Db (content seven) k 0) (at_seven k) _ _ _ _); [by destruct k|].
  refine (cursor_done (SQ := ledger) 1 (at_seven k) (at_seven k) _). by destruct k.
Qed.

Lemma served_row k sql tys t : shape_of sql = k → k ≠ Sweep → forallb Driver.tag_scalar tys = true →
  length (default [] (head (visible (Db (content seven) k 0)))) = length tys → is_Some (sq_of_val t) →
  served (SQ := ledger) 1 sql tys [t] seven 1 1 [at_seven k] (at_seven k).
Proof.
  intros E Hk Ht Hlen [x Hx]. split; [|constructor; [apply blobs_small|constructor]|vm_compute; congruence].
  exists [at_seven k]. split; [|done]. split; [done|exact Ht|done| |done].
  exists (Db (content seven) k 0), (Db (content seven) k 0), (at_seven k), (Db (content seven) k 0).
  split; [simpl; by rewrite E|]. split.
  - change (u64 (Z.of_nat (length (default [] (head (visible (Db (content seven) k 0)))))) = Z.of_nat (length tys)).
    rewrite Hlen. apply u64_id. destruct k; simpl in Hlen; z_norm; lia.
  - split; [reflexivity|]. split; [simpl; by rewrite Hx|]. split; [by apply one_row|]. split; [reflexivity|by apply one_row].
Qed.

Lemma swept sql : shape_of sql = Sweep →
  exec_runs (SQ := ledger) 1 sql [VScalar GEAS_TY_INT 0 7] seven [] (Db [] Rows 0).
Proof.
  intros E. split; [done|]. exists 1, (Db (content seven) Sweep 0), (Db (content seven) Sweep 0), (Db [] Sweep 0).
  split; [done|]. split; [simpl; by rewrite E|]. split; [reflexivity|]. split; [reflexivity|]. split; [|done].
  refine (cursor_done (SQ := ledger) 1 _ _ _). reflexivity.
Qed.
End Ledger.
