(* ===== verification/RenderProps.v ===== *)
(** * The debug renderer against a printer of value trees *)
From S2P Require Import Prelude Abi Memory Value ValueSpec ValueProps Wire WireSpec WireProps Iname InameSpec Policy Store Future Lifecycle StoreSql StoreSqlSpec StoreSqlProps Render.

Section Shown.
Context (libc_g : Z → string).

(** ** The text of a value *)

Definition byte_text (b : Z) : list Z :=
  if b =? 34 then [92; 34] else if b =? 92 then [92; 92]
  else if (b <? 32) || (b =? 127) then
    str_bytes ("\x" +:+ String (hex_digit (b / 16)) (String (hex_digit (b mod 16)) EmptyString))
  else [b].
Definition quoted (bs : list Z) : list Z := 34 :: concat (map byte_text bs) ++ [34].

Definition scalar_text (k : GeasTypeTag) (x : Z) : string :=
  match k with
  | GEAS_TY_UNIT => "()"
  | GEAS_TY_INT => dec_i64 (i64 x)
  | GEAS_TY_UINT => dec_u64 x
  | GEAS_TY_FLOAT => libc_g x
  | GEAS_TY_BOOL => if x =? 0 then "false" else "true"
  | GEAS_TY_BYTE => dec_str x
  | GEAS_TY_CHAR => "U+" +:+ hex4 x
  | GEAS_TY_PLEDGE_REF => "<pledge>"
  | GEAS_TY_INSTANCE => "<instance>"
  | _ => ""
  end.

(** [first] is false once something has been printed. *)
Fixpoint commas (first : bool) (xs : list (list Z)) : list Z :=
  match xs with
  | [] => []
  | x :: xs' => (if first then [] else str_bytes ", ") ++ x ++ commas false xs'
  end.
Fixpoint pairs (xs : list (list Z)) : list (list Z) :=
  match xs with k :: v :: xs' => (k ++ str_bytes ": " ++ v) :: pairs xs' | _ => [] end.

Definition wrapped (o c : string) (xs : list (list Z)) : list Z := str_bytes o ++ commas true xs ++ str_bytes c.

Definition boxed_text (name : string) (b : option (list Z)) : list Z :=
  str_bytes name ++ str_bytes "(" ++ default (str_bytes "?") b ++ str_bytes ")".

(** [room] levels deep; what lies below them is an ellipsis. *)
Fixpoint shown (room : nat) (t : val) : list Z :=
  match room with
  | O => str_bytes "..."
  | S room' =>
      match t with
      | VScalar k _ x => str_bytes (scalar_text k x)
      | VString _ bs => quoted bs
      | VSeq k tg _ els =>
          let xs := map (shown room') els in
          match k with
          | GEAS_TY_LIST => wrapped "[" "]" xs
          | GEAS_TY_TUPLE => wrapped "(" ")" xs
          | GEAS_TY_RECORD => wrapped "{" "}" xs
          | GEAS_TY_MAP => wrapped "{" "}" (pairs xs)
          | _ => str_bytes ("#" +:+ dec_str tg) ++ (match els with [] => [] | _ => wrapped "(" ")" xs end)
          end
      | VBox k tg b =>
          match k with
          | GEAS_TY_OPTION => if tg =? 0 then str_bytes "None" else boxed_text "Some" (shown room' <$> b)
          | _ => boxed_text (if tg =? 0 then "Ok" else "Err") (shown room' <$> b)
          end
      end
  end.

(** ** A sink with room *)

Definition grow (bs : list Z) (s : RenderSink) : RenderSink :=
  Sink (k_buf s) (k_cap s) (k_pos s + Z.of_nat (length bs)) (if k_buf s then k_out s ++ bs else k_out s).
Definition roomy (n : nat) (s : RenderSink) : Prop :=
  0 <= k_pos s ∧ k_pos s + Z.of_nat n <= U64_MAX ∧ (k_buf s = true → k_pos s + Z.of_nat n <= k_cap s).

Lemma grow_app a b s : grow b (grow a s) = grow (a ++ b) s.
Proof. unfold grow. simpl. rewrite length_app. f_equal; [lia|]. destruct (k_buf s); [by rewrite app_assoc|done]. Qed.
Lemma grow_nil s : grow [] s = s.
Proof. destruct s as [[] c p o]; unfold grow; simpl; rewrite ?app_nil_r; f_equal; lia. Qed.
Lemma roomy_grow a n s : roomy (length a + n) s → roomy n (grow a s).
Proof. unfold roomy, grow. simpl. intros (? & ? & H). split_and!; [lia|lia|]. intros E. apply H in E. lia. Qed.
Lemma roomy_le n n' s : (n ≤ n')%nat → roomy n' s → roomy n s.
Proof. unfold roomy. intros Hl (? & ? & H). split_and!; [lia|lia|]. intros E. apply H in E. lia. Qed.

Lemma put_grow bs s : roomy (length bs) s → sink_put bs s = grow bs s.
Proof.
  unfold roomy, sink_put, grow. intros (H0 & H1 & H2). rewrite u64_id by (z_norm; lia). f_equal.
  destruct (k_buf s); simpl; [|done]. specialize (H2 eq_refl). destruct (Z.ltb_spec (k_pos s) (k_cap s)).
  - by rewrite firstn_all2 by lia.
  - destruct bs; [by rewrite app_nil_r|]. simpl in *. lia.
Qed.

Lemma length_str_bytes z : length (str_bytes z) = String.length z.
Proof. induction z; simpl; [done|]. by rewrite IHz. Qed.

Lemma fmt_grow z s m : (String.length z < 64)%nat → roomy (length (str_bytes z)) s →
  sink_fmt z s m = Ret (grow (str_bytes z) s) m.
Proof.
  intros Hl Hr. unfold sink_fmt. rewrite length_str_bytes, (proj2 (Nat.ltb_ge _ _)) by lia.
  rewrite (proj2 (Nat.eqb_neq _ _)) by lia. unfold ret. by rewrite put_grow.
Qed.

(** ** The renderer prints it *)

Lemma bytes_grow bs : ∀ s, roomy (length (concat (map byte_text bs))) s →
  foldl (λ s b, put_byte b s) s bs = grow (concat (map byte_text bs)) s.
Proof.
  induction bs as [|b bs IH]; intros s Hr; simpl; [by rewrite grow_nil|]. simpl in Hr. rewrite length_app in Hr.
  assert (E : put_byte b s = grow (byte_text b) s).
  { apply (roomy_le (length (byte_text b))) in Hr; [|lia]. unfold put_byte, byte_text, sink_str in *.
    repeat case_match; by apply put_grow. }
  rewrite E, IH by (by apply roomy_grow). by rewrite grow_app.
Qed.

Lemma render_string_run v bs m s : s_len v = Z.of_nat (length bs) → bytes_at (heap m) (s_ptr v) bs →
  roomy (length (quoted bs)) s → render_string (s_ptr v) (s_len v) s m = Ret (grow (quoted bs) s) m.
Proof.
  intros Hl Hp Hr. unfold render_string, bind. rewrite Hl.
  assert (E : (if Z.of_nat (length bs) =? 0 then ret [] else load_bytes (s_ptr v) (Z.to_nat (Z.of_nat (length bs)))) m = Ret bs m).
  { destruct Hp as [->|(_ & raw & Hraw & Ht)]; [done|]. destruct (Z.eqb_spec (Z.of_nat (length bs)) 0) as [E|E].
    - by destruct bs.
    - unfold load_bytes. rewrite Hraw, Nat2Z.id, decide_True by (by apply take_prefix_length). by rewrite Ht. }
  rewrite E. unfold ret. unfold quoted in *. simpl length in Hr. rewrite length_app in Hr. simpl in Hr.
  rewrite (put_grow [34] s) by (eapply roomy_le; [|exact Hr]; simpl; lia).
  rewrite bytes_grow by (apply roomy_grow; eapply roomy_le; [|exact Hr]; simpl; lia).
  rewrite grow_app, put_grow, grow_app; [done|]. apply roomy_grow. eapply roomy_le; [|exact Hr]. simpl. lia.
Qed.

Definition renders (rec : GeasValue → RenderSink → M RenderSink) (h : gmap Z block) (sh : val → list Z) (t : val) : Prop :=
  ∀ v s m, heap m = h → repr h v t → roomy (length (sh t)) s → rec v s m = Ret (grow (sh t) s) m.

Section Loops.
Context (rec : GeasValue → RenderSink → M RenderSink) (sh : val → list Z).
Context (m : mem) (data : Z) (slots : list GeasValue) (els : list val).
Context (Hs : heap m !! data = Some (BVals slots)) (Hr : reprs (heap m) slots els).
Context (Hrec : ∀ t, t ∈ els → renders rec (heap m) sh t).

Lemma slot_run i t : els !! i = Some t → ∃ v, load_slot data i m = Ret v m ∧
  ∀ s, roomy (length (sh t)) s → rec v s m = Ret (grow (sh t) s) m.
Proof.
  intros Ht. destruct (Hr i t Ht) as (v & Hv & Hrep). exists v. unfold load_slot. rewrite Hs, Hv.
  split; [done|]. intros s Hro. apply Hrec; [by eapply list_elem_of_lookup_2|done..].
Qed.

Lemma elems_run n : ∀ i s, (i + n = length els)%nat →
  roomy (length (commas (i =? 0)%nat (map sh (drop i els)))) s →
  elems_loop rec data n i s m = Ret (grow (commas (i =? 0)%nat (map sh (drop i els))) s) m.
Proof.
  induction n as [|n IH]; intros i s Hi Hro.
  { rewrite drop_ge by lia. simpl. by rewrite grow_nil. }
  destruct (lookup_lt_is_Some_2 els i) as [t Ht]; [lia|]. rewrite (drop_S _ _ _ Ht) in *.
  cbn [map commas elems_loop] in *. set (sep := if (i =? 0)%nat then [] else str_bytes ", ") in *.
  rewrite !length_app in Hro.
  assert (Es : (if (i =? 0)%nat then s else sink_str ", " s) = grow sep s).
  { unfold sep in *. destruct (i =? 0)%nat; [by rewrite grow_nil|]. unfold sink_str. apply put_grow.
    eapply roomy_le; [|exact Hro]. lia. }
  cbv zeta. rewrite Es. destruct (slot_run i t Ht) as (v & El & E).
  rewrite (bind_Ret _ _ _ _ _ El). erewrite bind_Ret.
  2: { apply E, roomy_grow. eapply roomy_le; [|exact Hro]. lia. }
  rewrite grow_app, IH; [|lia|apply roomy_grow; rewrite length_app; eapply roomy_le; [|exact Hro]; simpl; lia].
  by rewrite grow_app, <- app_assoc.
Qed.

(** A map's loop, a pair at a time. *)
Lemma pairs_run n : ∀ i s, n = ((length els - 2 * i) / 2)%nat → (2 * i ≤ length els)%nat →
  roomy (length (commas (i =? 0)%nat (pairs (map sh (drop (2 * i) els))))) s →
  map_loop rec data n i s m = Ret (grow (commas (i =? 0)%nat (pairs (map sh (drop (2 * i) els)))) s) m.
Proof.
  induction n as [|n IH]; intros i s Hn Hi Hro; cbn [map_loop].
  { assert (Hl : (length (drop (2 * i) els) < 2)%nat).
    { rewrite length_drop. pose proof (Nat.div_mod_eq (length els - 2 * i) 2).
      pose proof (Nat.mod_upper_bound (length els - 2 * i) 2). lia. }
    destruct (drop (2 * i) els) as [|x [|y l]]; simpl in *; [by rewrite grow_nil..|lia]. }
  assert (Hge : (2 * i + 2 ≤ length els)%nat).
  { pose proof (Nat.div_mod_eq (length els - 2 * i) 2). lia. }
  destruct (lookup_lt_is_Some_2 els (2 * i)) as [k Hk]; [lia|].
  destruct (lookup_lt_is_Some_2 els (2 * i + 1)) as [x Hx]; [lia|].
  assert (Ed : drop (2 * i) els = k :: x :: drop (2 * S i) els).
  { rewrite (drop_S _ _ _ Hk). f_equal. replace (S (2 * i)) with (2 * i + 1)%nat by lia. rewrite (drop_S _ _ _ Hx).
    do 2 f_equal. lia. }
  rewrite Ed in *. cbn [map pairs commas] in *. set (sep := if (i =? 0)%nat then [] else str_bytes ", ") in *.
  rewrite !length_app in Hro.
  assert (Es : (if (i =? 0)%nat then s else sink_str ", " s) = grow sep s).
  { unfold sep in *. destruct (i =? 0)%nat; [by rewrite grow_nil|]. unfold sink_str. apply put_grow.
    eapply roomy_le; [|exact Hro]. lia. }
  rewrite Es. destruct (slot_run _ _ Hk) as (kv & Elk & Ek). destruct (slot_run _ _ Hx) as (xv & Elx & Ex).
  replace (i + (i + 0))%nat with (2 * i)%nat by lia.
  rewrite (bind_Ret _ _ _ _ _ Elk). erewrite bind_Ret.
  2: { apply Ek, roomy_grow. eapply roomy_le; [|exact Hro]. lia. }
  rewrite (bind_Ret _ _ _ _ _ Elx). unfold sink_str. rewrite grow_app.
  rewrite put_grow by (apply roomy_grow; rewrite length_app; eapply roomy_le; [|exact Hro]; simpl; lia).
  rewrite grow_app. erewrite bind_Ret.
  2: { apply Ex, roomy_grow. rewrite !length_app. eapply roomy_le; [|exact Hro]. simpl. lia. }
  rewrite grow_app, IH; [| |lia|apply roomy_grow; rewrite !length_app; eapply roomy_le; [|exact Hro]; simpl; lia].
  - by rewrite grow_app, <- !app_assoc.
  - replace (length els - 2 * S i)%nat with (length els - 2 * i - 2)%nat by lia.
    pose proof (Nat.div_mod_eq (length els - 2 * i) 2). rewrite <- Hn in H.
    apply (Nat.div_unique _ 2 n ((length els - 2 * i) mod 2)).
    + apply Nat.mod_upper_bound. lia.
    + lia.
Qed.
End Loops.

(** ** Short texts *)

Lemma dec_u64_len v : (String.length (dec_u64 v) ≤ 20)%nat.
Proof. unfold dec_u64. pose proof (dec_digits_len 20 (u64 v) ""). cbn [String.length] in *. lia. Qed.
Lemma hex_up_len n : ∀ v acc, (String.length (hex_digits_up n v acc) ≤ n + String.length acc)%nat.
Proof.
  induction n as [|n IH]; intros v acc; simpl; [lia|]. destruct (v <? 16); simpl; [lia|].
  etransitivity; [apply IH|]. simpl. lia.
Qed.
Lemma slen_app a b : String.length (a +:+ b) = (String.length a + String.length b)%nat.
Proof. pose proof (strlen_app a b). unfold strlen in *. lia. Qed.

Lemma hex4_len v : (String.length (hex4 v) ≤ 12)%nat.
Proof.
  unfold hex4. rewrite slen_app. pose proof (hex_up_len 8 v "") as H. cbn [String.length] in H.
  assert (K : ∀ s n, (String.length (String.substring 0 n s) ≤ String.length s)%nat).
  { induction s as [|a s IH]; intros [|n]; simpl; try lia. specialize (IH n). lia. }
  specialize (K "0000" (4 - String.length (hex_digits_up 8 v ""))%nat). cbn [String.length] in K. lia.
Qed.

Context (Hg : ∀ x, (String.length (libc_g x) < 64)%nat).

Lemma scalar_text_len k x : (String.length (scalar_text k x) < 64)%nat.
Proof.
  destruct k; cbn [scalar_text]; try (simpl; lia).
  - unfold dec_i64. pose proof (dec_u64_len (i64 x)). pose proof (dec_u64_len (- i64 x)).
    destruct (_ <? 0); [rewrite slen_app; cbn [String.length]|]; lia.
  - pose proof (dec_u64_len x). lia.
  - apply Hg.
  - destruct (_ =? 0); simpl; lia.
  - pose proof (dec_str_len x). unfold strlen in *. lia.
  - pose proof (hex4_len x). rewrite slen_app. cbn [String.length]. lia.
Qed.

Lemma scalar_run room k tg x h : renders (render_value libc_g (S room)) h (shown (S room)) (VScalar k tg x).
Proof.
  intros v s m <- (Hty & Hk & _ & <-) Hro. cbn [render_value shown] in *. rewrite Hty, tag_of_num.
  pose proof (scalar_text_len k (scalar_arm k v)) as Hl.
  destruct k; try done; cbn [scalar_arm scalar_text] in *;
    first [by apply fmt_grow | unfold ret, sink_str; by rewrite put_grow].
Qed.

Lemma wrapped_run rec sh m v els o c s : l_len v = Z.of_nat (length els) →
  (els = [] ∨ l_data v ≠ 0 ∧ ∃ slots, heap m !! l_data v = Some (BVals slots) ∧ reprs (heap m) slots els) →
  (∀ t, t ∈ els → renders rec (heap m) sh t) → roomy (length (wrapped o c (map sh els))) s →
  render_elems rec v o c s m = Ret (grow (wrapped o c (map sh els)) s) m.
Proof.
  intros Hl Hd Hrec Hro. unfold render_elems, wrapped in *. rewrite !length_app in Hro. unfold sink_str.
  rewrite Hl, Nat2Z.id, (put_grow (str_bytes o)) by (eapply roomy_le; [|exact Hro]; lia).
  assert (E : elems_loop rec (l_data v) (length els) 0 (grow (str_bytes o) s) m =
    Ret (grow (commas true (map sh els)) (grow (str_bytes o) s)) m).
  { destruct Hd as [->|(_ & slots & Hs & Hr)]; [simpl; by rewrite grow_nil|].
    pose proof (elems_run rec sh m (l_data v) slots els Hs Hr Hrec (length els) 0 (grow (str_bytes o) s)) as E.
    rewrite drop_0 in E. apply E; [done|]. apply roomy_grow. eapply roomy_le; [|exact Hro]. simpl. lia. }
  rewrite (bind_Ret _ _ _ _ _ E). unfold ret. rewrite grow_app, put_grow.
  - by rewrite grow_app, <- app_assoc.
  - apply roomy_grow. rewrite length_app. eapply roomy_le; [|exact Hro]. lia.
Qed.

Lemma map_run rec sh m v els s : l_len v = Z.of_nat (length els) →
  (els = [] ∨ l_data v ≠ 0 ∧ ∃ slots, heap m !! l_data v = Some (BVals slots) ∧ reprs (heap m) slots els) →
  (∀ t, t ∈ els → renders rec (heap m) sh t) → roomy (length (wrapped "{" "}" (pairs (map sh els)))) s →
  render_map rec v s m = Ret (grow (wrapped "{" "}" (pairs (map sh els))) s) m.
Proof.
  intros Hl Hd Hrec Hro. unfold render_map, wrapped in *. rewrite !length_app in Hro. unfold sink_str.
  rewrite Hl, (put_grow (str_bytes "{")) by (eapply roomy_le; [|exact Hro]; lia).
  replace (Z.to_nat (Z.of_nat (length els) / 2)) with ((length els - 2 * 0) / 2)%nat
    by (change 2 with (Z.of_nat 2); rewrite <- Nat2Z.inj_div, Nat2Z.id; f_equal; lia).
  assert (E : map_loop rec (l_data v) ((length els - 2 * 0) / 2) 0 (grow (str_bytes "{") s) m =
    Ret (grow (commas true (pairs (map sh els))) (grow (str_bytes "{") s)) m).
  { destruct Hd as [->|(_ & slots & Hs & Hr)]; [simpl; by rewrite grow_nil|].
    pose proof (pairs_run rec sh m (l_data v) slots els Hs Hr Hrec _ 0 (grow (str_bytes "{") s) eq_refl) as E.
    change (2 * 0)%nat with 0%nat in E. rewrite !drop_0 in E. apply E; [lia|]. apply roomy_grow. eapply roomy_le; [|exact Hro]. simpl. lia. }
  rewrite (bind_Ret _ _ _ _ _ E). unfold ret. rewrite grow_app, put_grow.
  - by rewrite grow_app, <- app_assoc.
  - apply roomy_grow. rewrite length_app. eapply roomy_le; [|exact Hro]. lia.
Qed.

Lemma box_run rec sh m v name b s :
  match b with
  | None => as_box v = 0
  | Some t => as_box v ≠ 0 ∧ ∃ x ss, heap m !! as_box v = Some (BVals (x :: ss)) ∧ repr (heap m) x t
  end → (∀ t, b = Some t → renders rec (heap m) sh t) → roomy (length (boxed_text name (sh <$> b))) s →
  render_box rec v name s m = Ret (grow (boxed_text name (sh <$> b)) s) m.
Proof.
  intros Hb Hrec Hro. unfold render_box, boxed_text, sink_str in *. rewrite !length_app in Hro.
  rewrite (put_grow (str_bytes name)) by (eapply roomy_le; [|exact Hro]; lia).
  rewrite (put_grow (str_bytes "(")) by (apply roomy_grow; eapply roomy_le; [|exact Hro]; lia).
  rewrite grow_app.
  set (s1 := grow (str_bytes name ++ str_bytes "(") s).
  assert (E : (if as_box v =? 0 then ret (sink_put (str_bytes "?") s1) else b <- load_slot (as_box v) 0; rec b s1) m =
    Ret (grow (default (str_bytes "?") (sh <$> b)) s1) m).
  { assert (Hs1 : roomy (length (default (str_bytes "?") (sh <$> b))) s1).
    { apply roomy_grow. rewrite length_app. eapply roomy_le; [|exact Hro]. lia. }
    destruct b as [t|]; simpl in *.
    - destruct Hb as (Hn & x & ss & Hx & Hr). rewrite (proj2 (Z.eqb_neq _ 0)) by done.
      unfold bind, load_slot. rewrite Hx. simpl. by apply Hrec.
    - rewrite Hb. unfold ret. simpl. by rewrite put_grow. }
  rewrite (bind_Ret _ _ _ _ _ E). unfold ret, s1. rewrite grow_app, put_grow.
  - by rewrite grow_app, <- !app_assoc.
  - apply roomy_grow. rewrite !length_app. eapply roomy_le; [|exact Hro]. lia.
Qed.

Lemma render_run room : ∀ t h, renders (render_value libc_g room) h (shown room) t.
Proof.
  induction room as [|room IH]; intros t h v s m Hh Hrep Hro.
  { simpl in *. unfold ret, sink_str. by rewrite put_grow. }
  destruct t as [k tg x|tg bs|k tg e els|k tg b].
  - by eapply (scalar_run room k tg x).
  - subst h. destruct Hrep as (Hty & _ & Hl & _ & Hp). cbn [render_value shown] in *. rewrite Hty.
    by apply render_string_run.
  - subst h. apply repr_seq in Hrep as (Hty & Hk & Htg & _ & Hl & _ & Hd). cbn [render_value shown] in *.
    rewrite Hty, tag_of_num.
    assert (Hrec : ∀ t, t ∈ els → renders (render_value libc_g room) (heap m) (shown room) t) by (intros; apply IH).
    destruct k; try done; try by apply wrapped_run.
    + by apply map_run.
    + rewrite length_app in Hro. subst tg. pose proof (dec_str_len (tag v)) as Hlen. unfold strlen in Hlen.
      erewrite bind_Ret.
      2: { apply fmt_grow; [rewrite slen_app; simpl; lia|]. eapply roomy_le; [|exact Hro]. lia. }
      rewrite Hl. destruct els as [|t els]; [by rewrite app_nil_r|].
      rewrite (proj2 (Z.eqb_neq _ 0)) by (simpl; lia).
      rewrite (wrapped_run _ (shown room) m v (t :: els)); [by rewrite grow_app|done|done|done|].
      apply roomy_grow. exact Hro.
  - subst h. destruct Hrep as (Hty & Hk & <- & Hb). cbn [render_value shown] in *. rewrite Hty, tag_of_num.
    destruct k; try done.
    + destruct (tag v =? 0); [unfold ret, sink_str; by rewrite put_grow|]. apply box_run; [exact Hb|intros; apply IH|done].
    + apply box_run; [exact Hb|intros; apply IH|done].
Qed.

(** ** Nothing but printable bytes *)

Definition plain (b : Z) : Prop := 32 <= b ∧ b ≠ 127.
Definition plain_str (z : string) : Prop := Forall plain (str_bytes z).

Lemma plain_app a b : plain_str a → plain_str b → plain_str (a +:+ b).
Proof.
  unfold plain_str. induction a as [|x a IH]; [done|]. rewrite sapp_cons. simpl.
  intros [Hx Ha]%Forall_cons Hb. constructor; auto.
Qed.
Lemma plain_digit d : 0 <= d < 16 →
  plain (Z.of_N (Ascii.N_of_ascii (hex_digit d))) ∧ plain (Z.of_N (Ascii.N_of_ascii (hex_upper d))).
Proof.
  intros Hd. assert (d = 0 ∨ d = 1 ∨ d = 2 ∨ d = 3 ∨ d = 4 ∨ d = 5 ∨ d = 6 ∨ d = 7 ∨ d = 8 ∨ d = 9 ∨ d = 10 ∨ d = 11 ∨ d = 12 ∨ d = 13 ∨ d = 14 ∨ d = 15) as H by lia.
  repeat (destruct H as [->|H]; [vm_compute; intuition congruence|]). rewrite H. vm_compute. intuition congruence.
Qed.
Lemma plain_dec n : ∀ v acc, 0 <= v → plain_str acc → plain_str (dec_digits n v acc).
Proof.
  induction n as [|n IH]; intros v acc Hv Ha; simpl; [done|].
  assert (Hs : plain_str (String (hex_digit (v mod 10)) acc)).
  { constructor; [|exact Ha]. apply plain_digit. pose proof (Z.mod_pos_bound v 10). lia. }
  destruct (v <? 10); [exact Hs|]. apply IH; [|exact Hs]. apply Z.div_pos; lia.
Qed.
Lemma plain_hex n : ∀ v acc, 0 <= v → plain_str acc → plain_str (hex_digits_up n v acc).
Proof.
  induction n as [|n IH]; intros v acc Hv Ha; simpl; [done|].
  assert (Hs : plain_str (String (hex_upper (v mod 16)) acc)).
  { constructor; [|exact Ha]. apply plain_digit. pose proof (Z.mod_pos_bound v 16). lia. }
  destruct (v <? 16); [exact Hs|]. apply IH; [|exact Hs]. apply Z.div_pos; lia.
Qed.

(** A literal's bytes, by evaluation. *)
Ltac plain_lit := unfold plain_str; repeat (constructor; [vm_compute; intuition congruence|]); constructor.

Lemma plain_u64 v : plain_str (dec_u64 v).
Proof. apply plain_dec; [apply u64_range|constructor]. Qed.
Lemma plain_u32 v : plain_str (dec_str v).
Proof. apply plain_dec; [apply u32_range|constructor]. Qed.

Context (Hp : ∀ x, plain_str (libc_g x)).

Lemma plain_scalar k x : 0 <= x → plain_str (scalar_text k x).
Proof.
  intros Hx. destruct k; cbn [scalar_text]; try plain_lit; try apply plain_u64; try apply plain_u32.
  - unfold dec_i64. destruct (_ <? 0); [|apply plain_u64]. apply plain_app; [plain_lit|apply plain_u64].
  - apply Hp.
  - destruct (_ =? 0); plain_lit.
  - apply plain_app; [plain_lit|]. unfold hex4. apply plain_app; [|apply plain_hex; [done|constructor]].
    assert (K : ∀ n, (n ≤ 4)%nat → plain_str (String.substring 0 n "0000")).
    { intros n Hn. do 5 (destruct n as [|n]; [plain_lit|]). lia. }
    apply K. lia.
Qed.

Lemma plain_byte b : is_u8 b → Forall plain (byte_text b).
Proof.
  intros [H0 H1]. unfold byte_text. destruct (Z.eqb_spec b 34); [repeat constructor; done|].
  destruct (Z.eqb_spec b 92); [repeat constructor; done|].
  destruct ((b <? 32) || (b =? 127)) eqn:E.
  - apply (plain_app "\x" _); [plain_lit|].
    constructor; [|constructor; [|constructor]]; apply plain_digit.
    + split; [apply Z.div_pos; lia|apply Z.div_lt_upper_bound; lia].
    + apply Z.mod_pos_bound. lia.
  - constructor; [|constructor]. apply orb_false_iff in E as [E1 E2]. split; lia.
Qed.

Lemma plain_commas first xs : Forall (Forall plain) xs → Forall plain (commas first xs).
Proof.
  intros H. revert first. induction H as [|x xs Hx _ IH]; intros first; simpl; [constructor|].
  apply Forall_app. split; [destruct first; [constructor|plain_lit]|]. apply Forall_app. auto.
Qed.
Lemma plain_pairs n : ∀ xs, (length xs ≤ n)%nat → Forall (Forall plain) xs → Forall (Forall plain) (pairs xs).
Proof.
  induction n as [|n IH]; intros [|k [|v xs]] Hl H; simpl in *; try (by constructor); [lia|].
  apply Forall_cons in H as [Hk H]. apply Forall_cons in H as [Hv H]. constructor; [|apply IH; [lia|done]].
  apply Forall_app. split; [done|]. by repeat (constructor; [vm_compute; intuition congruence|]).
Qed.
Lemma plain_wrapped o c xs : plain_str o → plain_str c → Forall (Forall plain) xs → Forall plain (wrapped o c xs).
Proof. intros Ho Hc Hx. unfold wrapped. rewrite !Forall_app. split_and!; try done. by apply plain_commas. Qed.
Lemma plain_boxed name b : plain_str name → (∀ x, b = Some x → Forall plain x) → Forall plain (boxed_text name b).
Proof.
  intros Hn Hb. unfold boxed_text. rewrite !Forall_app. split_and!; [done|plain_lit| |plain_lit].
  destruct b; simpl; [by apply Hb|plain_lit].
Qed.

Lemma plain_shown room : ∀ t, val_wf t → Forall plain (shown room t).
Proof.
  induction room as [|room IH]; intros t Hwf; cbn [shown]; [plain_lit|].
  destruct t as [k tg x|tg bs|k tg e els|k tg b].
  - destruct Hwf as [_ Hf]. apply plain_scalar. destruct k; simpl in Hf; z_norm; lia.
  - destruct Hwf as (_ & Hb & _). unfold quoted. constructor; [vm_compute; intuition congruence|].
    apply Forall_app. split; [|plain_lit]. apply Forall_concat, Forall_map.
    eapply Forall_impl; [exact Hb|exact plain_byte].
  - apply val_wf_seq in Hwf as (_ & _ & _ & He).
    assert (Hx : Forall (Forall plain) (map (shown room) els)).
    { apply Forall_map. eapply Forall_impl; [exact He|exact IH]. }
    destruct k; try (apply plain_wrapped; [plain_lit|plain_lit|done || by eapply plain_pairs]);
      (apply Forall_app; split; [apply plain_app; [plain_lit|apply plain_u32]|]);
      (destruct els; [constructor|]); by apply plain_wrapped; [plain_lit|plain_lit|].
  - destruct Hwf as [_ Hb].
    assert (Hx : ∀ x, shown room <$> b = Some x → Forall plain x).
    { intros x Hx. destruct b as [t|]; [|done]. injection Hx as <-. by apply IH. }
    destruct k; try (apply plain_boxed; [destruct (tg =? 0); plain_lit|done]).
    destruct (tg =? 0); [plain_lit|]. by apply plain_boxed; [plain_lit|].
Qed.
End Shown.

(** ** The theorem *)

(** C27: [geas_value_render] prints the value tree.  Its text is the reference
    printer's, eight levels deep: scalars in their spellings, strings quoted with
    quotes, backslashes and control bytes escaped, sequences, records, sums,
    options, results and maps in theirs, an odd trailing map slot left out.  The
    size it reports is the text's with its NUL; a buffer that is missing or
    smaller gets nothing and GEAS_ERR_OOM, any other exactly the text and the NUL,
    so the write pass never passes the size pass; nothing else changes; and every
    byte of the text is printable or at least 128, on one line.  [libc_g] is the
    C library's ["%g"], short and printable. *)
Theorem value_render_exact libc_g v t m buf cap :
  (∀ x, (String.length (libc_g x) < 64)%nat) → (∀ x, plain_str (libc_g x)) →
  repr (heap m) v t → val_wf t →
  let text := shown libc_g (S GEAS_RENDER_DEPTH) t in
  let n := Z.of_nat (length text) + 1 in
  n <= U64_MAX →
  geas_value_render libc_g (Some v) buf cap true m =
    Ret (if (if buf then cap else 0) <? n then (GEAS_ERR_OOM, Some n, None)
         else (GEAS_OK, Some n, Some (text ++ [0]))) m ∧
  Forall plain text.
Proof.
  intros Hg Hp Hr Hwf text n Hn. split; [|by apply plain_shown]. unfold geas_value_render. cbn [negb]. cbv zeta.
  pose proof (render_run libc_g Hg (S GEAS_RENDER_DEPTH) t (heap m) v) as H. fold text in H.
  rewrite (bind_Ret _ _ _ _ _ (H (Sink false 0 0 []) m eq_refl Hr ltac:(split_and!; simpl; (done || lia)))).
  cbn [k_pos grow]. rewrite Z.add_0_l, u64_id by (z_norm; unfold n in *; lia). fold n.
  destruct (Z.ltb_spec (if buf then cap else 0) n) as [Hlt|Hge]; [done|].
  rewrite (bind_Ret _ _ _ _ _ (H (Sink true (if buf then cap else 0) 0 []) m eq_refl Hr
    ltac:(split_and!; simpl; unfold n in *; intros; lia))).
  cbn [k_pos k_cap k_out k_buf grow]. rewrite (proj2 (Z.ltb_lt _ _)) by (unfold n in *; lia). done.
Qed.

Lemma value_render_exact_witness :
  geas_value_render (λ _, "1.5") (Some demo_pair) true 64 true demo_mem =
    Ret (GEAS_OK, Some 10, Some [40; 55; 44; 32; 34; 104; 105; 34; 41; 0]) demo_mem ∧
  Forall plain (shown (λ _, "1.5") (S GEAS_RENDER_DEPTH) demo_pair_val).
Proof.
  apply (value_render_exact (λ _, "1.5") demo_pair demo_pair_val demo_mem true 64).
  - intros x. simpl. lia.
  - intros x. unfold plain_str. repeat (constructor; [vm_compute; intuition congruence|]). constructor.
  - apply demo_pair_repr.
  - apply demo_pair_wf.
  - vm_compute. congruence.
Defined.
