(* ===== verification/PartialProps.v ===== *)
(** * The partial report as a value: the theorem *)
From S2P Require Import Prelude Abi Memory Value ValueSpec ValueProps Wire WireSpec Iname Policy PolicySpec PolicyProps Store Future Lifecycle StoreSql StoreSqlSpec StoreSqlProps Render RenderProps Shelf.

(** ** The report *)

(** The names of the items in a state, in the report's order. *)
Definition names_in (ct : GeasContract) (k : GeasItemState) : list string :=
  (filter (in_state ct k) (named_items (c_desc ct))).*1.
Definition text_val (n : string) : val := VString 0 (str_bytes n).
Definition names_val (ns : list string) : val := VSeq GEAS_TY_LIST 0 (tag_num GEAS_TY_STRING) (map text_val ns).
Definition report_order : list GeasItemState := [GEAS_ITEM_FULFILLED; GEAS_ITEM_PENDING; GEAS_ITEM_BROKEN].
Definition report (ct : GeasContract) : val :=
  VSeq GEAS_TY_RECORD 0 0 (text_val (geas_state_name (c_state ct)) :: map (λ k, names_val (names_in ct k)) report_order).

(** The text of [n] lies at [lit n]. *)
Definition literal (lit : string → Z) (h : gmap Z block) (n : string) : Prop :=
  bytes_at h (lit n) (str_bytes n) ∧ fits_bytes (length (str_bytes n)).

Section Report.
Context (lit : string → Z) (ct : GeasContract) (owner : Z).

Lemma scan_count k i : (partial_scan ct k i).1 = length (names_in ct k).
Proof. rewrite partial_scan_run. unfold names_in. simpl. by rewrite length_fmap. Qed.
Lemma scan_name k i : (partial_scan ct k i).2 = names_in ct k !! i.
Proof. rewrite partial_scan_run. unfold names_in. simpl. by rewrite list_lookup_fmap. Qed.

Lemma literal_mono h h' n : h ⊆ h' → literal lit h n → literal lit h' n.
Proof.
  intros Hs [[He|(Hp & raw & Hr & Ht)] Hf]; (split; [|done]); [by left|right]. split; [done|]. exists raw.
  split; [by eapply lookup_weaken|done].
Qed.

Lemma wp_names_loop m k data (Hl : live owner m) : ∀ n i m1 hd ds prev,
  grown owner m (<[data := BVals ds]> hd) m1 → hd !! data = None →
  (i + n = length (names_in ct k))%nat → length ds = length (names_in ct k) →
  prev = take i (names_in ct k) → reprs hd ds (map text_val prev) →
  Forall (literal lit (heap m)) (names_in ct k) →
  wp (names_loop lit ct owner k data n i) m1 (λ st m2, ∃ hd' ds',
    grown owner m (<[data := BVals ds']> hd') m2 ∧ hd' !! data = None ∧ length ds' = length ds ∧
    (st = GEAS_OK ∧ reprs hd' ds' (map text_val (names_in ct k)) ∨ st = GEAS_ERR_OOM ∧ refused m m2)).
Proof.
  induction n as [|n IH]; intros i m1 hd ds prev G Hn Hi Hlen -> Hr Hlit; cbn [names_loop].
  { apply wp_ret. exists hd, ds. split_and!; try done. left. split; [done|].
    by rewrite take_ge in Hr by lia. }
  rewrite scan_name. destruct (lookup_lt_is_Some_2 (names_in ct k) i) as [name Hname]; [lia|]. rewrite Hname.
  pose proof (Forall_lookup_1 _ _ _ _ Hlit Hname) as Hx.
  pose proof (literal_mono _ _ _ (grown_incl _ _ _ _ G) Hx) as [Hb Hf]. cbv zeta. apply wp_bind.
  pose proof (gr_wf _ _ _ _ G) as Hwf1. pose proof (grown_live _ _ _ _ G Hl) as Hl1.
  rewrite <- length_str_bytes. eapply wp_mono; [by apply wp_string_copy|]. intros s m2 (h2 & G2 & Hres).
  assert (K : repr h2 s (text_val name) ∧ ((s_ptr s =? 0) && (s_len s =? 0) && negb (Z.of_nat (length (str_bytes name)) =? 0) = false) ∨
    ((s_ptr s =? 0) && (s_len s =? 0) && negb (Z.of_nat (length (str_bytes name)) =? 0) = true) ∧ refused m1 m2).
  { destruct Hres as [[Hp Hrep]|[-> Href]].
    - left. split; [done|]. by rewrite (proj2 (Z.eqb_neq _ _)) by done.
    - simpl. destruct (str_bytes name) as [|b bs] eqn:En; [left; split; [|done]|right; split; [|done]].
      + by split_and!; try left.
      + by rewrite (proj2 (Z.eqb_neq _ _)) by (simpl; lia). }
  clear Hres. destruct K as [[Hrep ->]|[-> Href]].
  - destruct (fill_grown _ _ _ _ _ _ _ _ i s G Hn G2) as [G3 Hn3]. apply wp_bind. eapply wp_store_slot.
    { eapply lookup_weaken; [|by eapply grown_incl]. eapply lookup_weaken; [apply lookup_insert_eq|by eapply grown_incl_new]. }
    { lia. }
    assert (Htk : take (S i) (names_in ct k) = take i (names_in ct k) ++ [name]) by (by apply take_S_r).
    assert (Hti : length (map text_val (take i (names_in ct k))) = i) by (rewrite length_map, length_take; lia).
    eapply wp_mono.
    { eapply (IH (S i) _ (h2 ∪ hd)); [exact G3|done|lia|rewrite length_insert; done|reflexivity| |done].
      rewrite Htk, map_app. simpl. rewrite <- Hti at 1. eapply fill_reprs; [exact G|done|exact G2|done|lia|exact Hrep]. }
    intros st m3 (hd' & ds' & G4 & Hn4 & Hl4 & Hres). exists hd', ds'. rewrite length_insert in Hl4. by split_and!.
  - apply wp_ret. pose proof (grown_trans _ _ _ _ _ _ G G2) as G3.
    assert (Hd2 : h2 !! data = None).
    { eapply map_disjoint_Some_r; [exact (gr_fresh _ _ _ _ G2)|]. eapply lookup_weaken; [apply lookup_insert_eq|by eapply grown_incl_new]. }
    rewrite <- insert_union_r in G3 by done. exists (h2 ∪ hd), ds. split_and!; try done; [by apply lookup_union_None|].
    right. split; [done|]. destruct (refused_trans_r _ _ _ _ _ G Href) as (z & y & ? & ?). by exists z, y.
Qed.

(** One list of the record. *)
Lemma wp_names_value m k : mem_wf m → live owner m → fits_slots (length (names_in ct k)) →
  Forall (literal lit (heap m)) (names_in ct k) →
  wp (partial_names_value lit ct owner k) m (λ '(st, v) m', ∃ hn, grown owner m hn m' ∧
    (st = GEAS_OK ∧ repr hn v (names_val (names_in ct k)) ∨ st = GEAS_ERR_OOM ∧ refused m m')).
Proof.
  intros Hwf Hl Hfit Hlit. unfold partial_names_value. rewrite scan_count. set (ns := names_in ct k) in *.
  assert (Hv : ∀ data hd ds, (ns = [] ∨ data ≠ 0) → hd !! data = None → reprs hd ds (map text_val ns) →
    repr (<[data := BVals ds]> hd) (g_seq GEAS_TY_LIST 0 data (Z.of_nat (length ns)) (Z.of_nat (length ns)) (tag_num GEAS_TY_STRING)) (names_val ns)).
  { intros data hd ds Hd Hn Hr. apply repr_seq. rewrite length_map. split_and!; try done.
    destruct Hd as [->|Hd]; [by left|]. right. split; [done|]. exists ds. simpl. rewrite lookup_insert_eq. split; [done|].
    eapply reprs_mono; [by apply insert_subseteq|done]. }
  destruct (Nat.eqb_spec (length ns) 0) as [E0|E0].
  { apply length_zero_iff_nil in E0. rewrite E0. apply wp_bind, wp_ret. simpl. apply wp_bind, wp_ret, wp_bind, wp_ret, wp_ret.
    exists ∅. split; [by apply grown_refl|]. left. split; [done|]. simpl. split_and!; try done. by left. }
  destruct (slot_bytes_fits _ Hfit) as [Hsb _]. rewrite Hsb. unfold fits_slots, sizeof_GeasBlock, sizeof_GeasValue in Hfit.
  apply wp_bind, wp_geas_bytes; [done|done|lia|unfold sizeof_GeasBlock; lia|..].
  2: { intros m1 G Href. simpl. apply wp_ret. exists ∅. split; [done|]. by right. }
  intros m1 G Hp. rewrite (proj2 (Z.eqb_neq (brk m) 0)) by done. cbn [negb andb]. set (data := brk m) in *.
  assert (Ek : fresh_block (lib m) KVals (Z.of_nat (length ns) * 40) = BVals (replicate (length ns) (lib_junk_val (lib m)))).
  { unfold fresh_block, sizeof_GeasValue. by rewrite Z.div_mul, Nat2Z.id. }
  rewrite Ek in G. apply wp_bind. eapply wp_zero_slots.
  { eapply lookup_weaken; [apply lookup_singleton_eq|by eapply grown_incl_new]. }
  { by rewrite length_replicate. }
  rewrite drop_ge, app_nil_r by (by rewrite length_replicate).
  eapply (grown_update _ _ _ _ _ _ (BVals (replicate (length ns) gzero))) in G; [|apply lookup_singleton_eq].
  rewrite insert_singleton_eq in G. apply wp_bind. eapply wp_mono.
  { eapply (wp_names_loop m k data Hl (length ns) 0 _ ∅ _ []); [exact G|apply lookup_empty|done|by rewrite length_replicate|done|apply reprs_nil|done]. }
  intros st m2 (hd & ds & G2 & Hn & _ & [[-> Hr]|[-> Href]]); simpl; apply wp_ret; (eexists; split; [exact G2|]).
  - left. split; [done|]. apply Hv; auto.
  - by right.
Qed.

(** The three lists into fields 1 to 3, beside what is there already. *)
Lemma wp_partial_fields m fields (Hl : live owner m) : fields ≠ 0 → ∀ ks i m1 hd ds prev,
  grown owner m (<[fields := BVals ds]> hd) m1 → hd !! fields = None → length prev = i → (i + length ks)%nat = length ds →
  reprs (hd ∪ heap m) ds prev →
  Forall (λ k, fits_slots (length (names_in ct k)) ∧ Forall (literal lit (heap m)) (names_in ct k)) ks →
  wp (partial_fields lit ct owner fields ks i) m1 (λ st m2, ∃ hd' ds',
    grown owner m (<[fields := BVals ds']> hd') m2 ∧ hd' !! fields = None ∧ length ds' = length ds ∧
    (st = GEAS_OK ∧ reprs (hd' ∪ heap m) ds' (prev ++ map (λ k, names_val (names_in ct k)) ks) ∨
     st = GEAS_ERR_OOM ∧ refused m m2)).
Proof.
  intros Hf0. induction ks as [|k ks IH]; intros i m1 hd ds prev G Hn Hi Hlen Hr Hk; cbn [partial_fields].
  { apply wp_ret. exists hd, ds. split_and!; try done. left. by rewrite app_nil_r. }
  apply Forall_cons in Hk as [[Hfit Hlit] Hks]. cbn [length] in Hlen. apply wp_bind.
  pose proof (gr_wf _ _ _ _ G) as Hwf1. pose proof (grown_live _ _ _ _ G Hl) as Hl1.
  eapply wp_mono.
  { apply wp_names_value; [done|done|done|]. eapply Forall_impl; [exact Hlit|]. intros n. apply literal_mono. by eapply grown_incl. }
  intros [st v] m2 (h2 & G2 & Hres).
  destruct (fill_grown _ _ _ _ _ _ _ _ i v G Hn G2) as [G3 Hn3].
  destruct Hres as [[-> Hrep]|[-> Href]]; cbn [st_ok negb].
  - apply wp_bind. eapply wp_store_slot.
    { eapply lookup_weaken; [|by eapply grown_incl]. eapply lookup_weaken; [apply lookup_insert_eq|by eapply grown_incl_new]. }
    { lia. }
    pose proof (gr_fresh _ _ _ _ G2) as F. rewrite (gr_heap _ _ _ _ G) in F. apply map_disjoint_union_r in F as [F1 F2].
    apply map_disjoint_insert_r in F1 as [_ F1].
    eapply wp_mono.
    { eapply (IH (S i) _ (h2 ∪ hd) _ (prev ++ [names_val (names_in ct k)])); [exact G3|done|rewrite length_app; simpl; lia|rewrite length_insert; lia| |done].
      rewrite <- Hi. apply reprs_snoc.
      - eapply reprs_mono; [|exact Hr]. rewrite <- map_union_assoc. apply map_union_subseteq_r. by apply map_disjoint_union_r.
      - lia.
      - eapply repr_mono; [|exact Hrep]. rewrite <- map_union_assoc. apply map_union_subseteq_l. }
    intros st m3 (hd' & ds' & G4 & Hn4 & Hl4 & Hres). exists hd', ds'. rewrite length_insert in Hl4. split_and!; try done.
    by rewrite <- (app_assoc prev) in Hres.
  - apply wp_ret. pose proof (grown_trans _ _ _ _ _ _ G G2) as G4.
    assert (Hd2 : h2 !! fields = None) by (by apply lookup_union_None in Hn3 as [? _]).
    rewrite <- insert_union_r in G4 by done. exists (h2 ∪ hd), ds. split_and!; try done.
    right. split; [done|]. destruct (refused_trans_r _ _ _ _ _ G Href) as (z & y & ? & ?). by exists z, y.
Qed.
End Report.

Lemma repr_literal lit h n : literal lit h n → repr h (g_string (lit n) (Z.of_nat (String.length n))) (text_val n).
Proof. intros [Hb Hf]. rewrite <- length_str_bytes. by split_and!. Qed.

(** C28: [geas_partial_value] is the partial report as one record on the asking
    instance: the state's name, then the names of the fulfilled, of the pending and
    of the broken items, each list exactly the items the enumeration counts in that
    state and in its order, every name a copy in new blocks of the asker (the
    state's the static text); or GEAS_ERR_OOM, a zeroed result and only the blocks
    got before the refusal.  A NULL asker is GEAS_ERR_TYPE, and the reported
    contract is not touched. *)
Theorem partial_value_exact lit ct owner m :
  mem_wf m → fits_slots (length (named_items (c_desc ct))) →
  literal lit (heap m) (geas_state_name (c_state ct)) → Forall (λ ni, literal lit (heap m) ni.1) (named_items (c_desc ct)) →
  geas_partial_value lit ct 0 m = Ret (GEAS_ERR_TYPE, gzero) m ∧
  (live owner m → ∃ st v m' hn, geas_partial_value lit ct owner m = Ret (st, v) m' ∧ grown owner m hn m' ∧
    (st = GEAS_OK ∧ repr (heap m') v (report ct) ∨ st = GEAS_ERR_OOM ∧ v = gzero ∧ refused m m')).
Proof.
  intros Hwf Hfit Hst Hlit. split; [done|]. intros Hl.
  assert (Hks : Forall (λ k, fits_slots (length (names_in ct k)) ∧ Forall (literal lit (heap m)) (names_in ct k)) report_order).
  { apply Forall_true. intros k. unfold names_in. split.
    - rewrite length_fmap. pose proof (length_filter (in_state ct k) (named_items (c_desc ct))). unfold fits_slots in *.
      unfold sizeof_GeasBlock, sizeof_GeasValue in *. lia.
    - rewrite Forall_fmap. apply Forall_forall. intros ni [_ Hin]%list_elem_of_filter.
      by eapply Forall_forall in Hlit. }
  assert (W : wp (geas_partial_value lit ct owner) m (λ '(st, v) m', ∃ hn, grown owner m hn m' ∧
    (st = GEAS_OK ∧ repr (heap m') v (report ct) ∨ st = GEAS_ERR_OOM ∧ v = gzero ∧ refused m m'))).
  2: { apply wp_run in W as ([st v] & m' & E & hn & G & H). by exists st, v, m', hn. }
  unfold geas_partial_value. pose proof Hl as [Ho _]. rewrite (proj2 (Z.eqb_neq owner 0)) by done.
  apply wp_bind, wp_geas_bytes; [done|done|vm_compute; congruence|vm_compute; congruence|..].
  2: { intros m1 G Href. simpl. apply wp_ret. exists ∅. split; [done|]. by right. }
  intros m1 G Hp. rewrite (proj2 (Z.eqb_neq (brk m) 0)) by done. set (fields := brk m) in *.
  change (fresh_block (lib m) KVals (4 * sizeof_GeasValue)) with (BVals (replicate 4 (lib_junk_val (lib m)))) in G.
  apply wp_bind. eapply wp_zero_slots.
  { eapply lookup_weaken; [apply lookup_singleton_eq|by eapply grown_incl_new]. }
  { done. }
  eapply (grown_update _ _ _ _ _ _ (BVals (replicate 4 gzero))) in G; [|apply lookup_singleton_eq]. rewrite insert_singleton_eq in G.
  apply wp_bind. eapply wp_store_slot.
  { eapply lookup_weaken; [apply lookup_singleton_eq|exact (grown_incl_new _ _ _ _ G)]. }
  { simpl. lia. }
  eapply (grown_update _ _ _ _ _ _ (BVals (<[0%nat := geas_state_value lit ct]> (replicate 4 gzero)))) in G; [|apply lookup_singleton_eq].
  rewrite insert_singleton_eq, <- insert_empty in G. apply wp_bind. eapply wp_mono.
  { eapply (wp_partial_fields lit ct owner m fields Hl Hp report_order 1 _ ∅ _ [text_val (geas_state_name (c_state ct))]);
      [exact G|apply lookup_empty|done|done| |exact Hks].
    intros i t Hi. destruct i as [|i]; [|by destruct i]. injection Hi as <-. eexists. split; [done|].
    rewrite map_empty_union. by apply repr_literal. }
  intros st m2 (hd & ds & G2 & Hn & Hlen & [[-> Hr]|[-> Href]]); cbn [st_ok negb]; apply wp_ret; (eexists; split; [exact G2|]).
  - left. split; [done|]. apply repr_seq. split_and!; try done. right. split; [done|]. exists ds. simpl l_data.
    rewrite (gr_heap _ _ _ _ G2). split; [apply lookup_union_Some_l, lookup_insert_eq|].
    eapply reprs_mono; [|exact Hr]. rewrite <- insert_union_l. apply insert_subseteq.
    apply lookup_union_None. split; [done|]. eapply map_disjoint_Some_r; [apply map_disjoint_sym; exact (gr_fresh _ _ _ _ G2)|].
    apply lookup_insert_eq.
  - by right.
Qed.

(** The parked cart's report, asked for by itself. *)
Definition cart_lit (n : string) : Z := if String.eqb n "Partial" then 30 else if String.eqb n "Buy" then 31 else 0.
Definition report_mem : mem :=
  Mem {[ 30 := BBytes (str_bytes "Partial"); 31 := BBytes (str_bytes "Buy") ]} {[ 20 := [] ]} 32 0 lib0.

Lemma report_mem_wf : mem_wf report_mem.
Proof.
  split; simpl; [lia| | | |].
  - intros p [?|[_ Hp]]%lookup_insert_is_Some; [lia|]. destruct (decide (p = 31)); [lia|].
    rewrite lookup_singleton_ne in Hp by done. by destruct Hp.
  - intros c bl p [<- <-]%lookup_singleton_Some Hp. by apply not_elem_of_nil in Hp.
  - intros c bl [<- <-]%lookup_singleton_Some. constructor.
  - intros c c' bl bl' p [<- _]%lookup_singleton_Some [<- _]%lookup_singleton_Some. done.
Qed.

Lemma partial_value_exact_witness :
  report Shelf.cart = VSeq GEAS_TY_RECORD 0 0 [text_val "Partial"; names_val []; names_val ["Buy"%string]; names_val []] ∧
  ∃ st v m' hn, geas_partial_value cart_lit Shelf.cart 20 report_mem = Ret (st, v) m' ∧ grown 20 report_mem hn m' ∧
    (st = GEAS_OK ∧ repr (heap m') v (report Shelf.cart) ∨ st = GEAS_ERR_OOM ∧ v = gzero ∧ refused report_mem m').
Proof.
  split; [vm_compute; reflexivity|]. apply (partial_value_exact cart_lit Shelf.cart 20 report_mem).
  - apply report_mem_wf.
  - vm_compute. congruence.
  - split; [|vm_compute; congruence]. right. split; [done|]. eexists. split; reflexivity.
  - constructor; [|constructor]. split; [|vm_compute; congruence]. right. split; [done|]. eexists. split; reflexivity.
  - split; [done|]. by eexists.
Defined.
