(* ===== verification/RowsProps.v ===== *)
(** * Queries and the round trip of a row *)
From S2P Require Import Prelude Abi Memory Value ValueSpec ValueProps Wire WireSpec Iname Store Future Lifecycle LifecycleSpec SignSpec StoreSql Sqlite Driver Rows RowsSpec Park ParkSpec ResumeSpec ResumeRun ParkRun Shelf.

Section Cells.
Context `{SQ : Sqlite}.

(** A value a column can hold and give back: of a scalar type, its word within the
    type, a Bool one of the two, a double that is no NaN. *)
Definition cell_ok (t : val) : Prop :=
  val_wf t ∧ Driver.tag_scalar (tag_num (val_ty t)) = true ∧ int_bytes t ∧
  match t with
  | VScalar GEAS_TY_BOOL _ x => x = 0 ∨ x = 1
  | VScalar GEAS_TY_FLOAT _ x => f64_is_nan x = false
  | VScalar _ _ _ | VString _ _ => True
  | _ => False
  end.

(** What the row keeps: all but the unused variant tag. *)
Definition retag (t : val) : val :=
  match t with VScalar k _ x => VScalar k 0 x | VString _ bs => VString 0 bs | _ => t end.

Lemma cell_back stmt r i t : cell_ok t → Z.of_nat i <= INT_MAX → holds stmt (Z.of_nat i) r t →
  cell_val stmt r i (tag_num (val_ty t)) = retag t.
Proof.
  intros (Hwf & Hs & _ & Hk) Hi Hh. unfold cell_val. rewrite tag_of_num. unfold INT_MAX in Hi.
  replace (i32 (Z.of_nat i)) with (Z.of_nat i).
  2: { unfold i32. rewrite u32_id by (z_norm; lia). by rewrite (proj2 (Z.ltb_lt _ _)) by lia. }
  unfold holds in Hh. destruct t as [k tg x|tg bs|k tg e els|k tg b]; [|by rewrite Hh|done..].
  destruct Hwf as [_ Hf]. destruct k; try done; simpl in *; unfold read_scalar; rewrite ?Hh by done; f_equal.
  - by apply u64_i64.
  - by apply u64_i64.
  - by destruct Hk as [->| ->].
  - by apply u8_id.
  - by apply u32_id.
Qed.

Lemma row_back stmt r ts : Forall cell_ok ts → Z.of_nat (length ts) <= INT_MAX → row_holds stmt r ts →
  row_val stmt r (map (λ t, tag_num (val_ty t)) ts) = VSeq GEAS_TY_RECORD 0 0 (map retag ts).
Proof.
  intros Hok Hlen Hh. unfold row_val, row_cells. f_equal. apply list_eq. intros i.
  rewrite list_lookup_imap, !list_lookup_fmap. destruct (ts !! i) as [t|] eqn:E; [|done]. simpl. f_equal.
  pose proof (lookup_lt_Some _ _ _ E). apply cell_back; [by eapply Forall_lookup_1|lia|by apply Hh].
Qed.
End Cells.

(** Values survive the store.  Binding scalar values hands the library, in
    order, exactly their words and bytes (an unsigned word by its signed reading,
    a String as a blob), stopping at the first refusal; and on any row whose
    columns hold what was bound, reading at the values' own types builds a record
    of the same values in new blocks of the owner, or runs out of memory and
    keeps only the blocks it got. *)
Theorem row_round_trip `{SQ : Sqlite} w vs ts stmt :
  Forall2 (repr (heap (wm w))) vs ts → Forall cell_ok ts → Z.of_nat (length ts) <= INT_MAX →
  (∃ st s', bind_all stmt 1 vs w = WRet st (at_ms w (wm w) s') ∧ bind_vals stmt 1 ts (ws w : sq) = (st, s')) ∧
  ∀ stmt' r owner alloc m, row_holds stmt' r ts → blobs_ok stmt' r → alloc_ok owner alloc → mem_wf m → live owner m →
    ∃ st rec m' hn, read_row alloc stmt' r (map ty vs) m = Ret (st, rec) m' ∧ grown owner m hn m' ∧
      (st = GEAS_OK ∧ (∃ v, rec = Some v ∧ repr hn v (VSeq GEAS_TY_RECORD 0 0 (map retag ts))) ∨
       st = GEAS_ERR_OOM ∧ rec = None ∧ refused m m').
Proof.
  intros Hr Hok Hlen. split.
  - pose proof (wwp_bind_all w (wm w) stmt vs ts Hr) as H.
    specialize (H ltac:(eapply Forall_impl; [exact Hok|by intros t (_ & _ & ? & _)]) (ws w) 1).
    apply wwp_run in H as (st & w' & Hrun & s' & -> & Hb). exists st, s'. split; [|done].
    rewrite <- Hrun. by destruct w.
  - intros stmt' r owner alloc m Hh Hb Hal Hwf Hl.
    assert (Ety : map ty vs = map (λ t, tag_num (val_ty t)) ts).
    { clear -Hr. induction Hr as [|v t vs ts Hv _ IH]; [done|]. simpl. by rewrite (repr_ty _ _ _ Hv), IH. }
    rewrite Ety. pose proof (wp_read_row owner alloc Hal stmt' r m (map (λ t, tag_num (val_ty t)) ts) Hwf Hl Hb) as H.
    rewrite length_map in H. specialize (H ltac:(apply forallb_forall; intros x [t [<- Hin]]%in_map_iff;
      apply list_elem_of_In in Hin; eapply Forall_forall in Hok; [by apply Hok|done]) Hlen).
    apply wp_run in H as ([st rec] & m' & Hrun & hn & G & Hres). exists st, rec, m', hn. split; [done|].
    split; [done|]. by rewrite (row_back _ _ _ Hok Hlen Hh) in Hres.
Qed.

(** [geas_store_query] builds what the library serves.  When the statement
    prepares with the declared columns, the arguments bind and both walks end,
    the answer is a list with one record for each row the second walk visited,
    every column read at its declared type, all of it in new blocks of the owner
    the allocator serves; or GEAS_ERR_OOM, a zeroed result and only the blocks
    got before the refusal.  The statement is finalized either way, and nothing
    of the world but that memory and the library has changed. *)
Theorem query_reads_rows `{SQ : Sqlite} owner alloc fuel h sql vs ts tys w stmt rs rs' s5 :
  alloc_ok owner alloc → mem_wf (wm w) → live owner (wm w) →
  Forall2 (repr (heap (wm w))) vs ts → Forall int_bytes ts → Z.of_nat (length tys) <= INT_MAX →
  query_runs h sql tys ts (ws w : sq) stmt rs rs' s5 → Forall (blobs_ok stmt) rs' →
  (length rs < fuel)%nat → sizeof_StoreScratchBlock + Z.of_nat (length rs) * sizeof_GeasValue <= U64_MAX →
  ∃ r w', geas_store_query fuel h sql vs tys alloc w = WRet r w' ∧ query_post w owner (wm w) stmt tys rs' s5 r w'.
Proof.
  intros. apply wwp_run. replace w with (at_ms w (wm w) (ws w : sq)) at 1 by (by destruct w). by eapply wwp_query.
Qed.

(** ** Concrete runs *)

Lemma row_round_trip_witness :
  let w := set_wm demo_mem Shelf.later_world in
  let ts := [VScalar GEAS_TY_INT 0 7; VString 0 [104; 105]] in
  (∃ st s', bind_all (SQ := Shelf.shelf) 2 1 [g_scalar GEAS_TY_INT 7; hi_text] w = WRet st (at_ms (SQ := Shelf.shelf) w (wm w) s') ∧
     bind_vals (SQ := Shelf.shelf) 2 1 ts (ws w) = (st, s')) ∧
  ∃ st rec m' hn,
    read_row (SQ := Shelf.shelf) (instance_store_bytes 2) 3 (Shelf.Db [] [] [SInt 7; SBlob [104; 105]] true)
      [tag_num GEAS_TY_INT; tag_num GEAS_TY_STRING] demo_mem = Ret (st, rec) m' ∧ grown 2 demo_mem hn m' ∧
    (st = GEAS_OK ∧ (∃ v, rec = Some v ∧ repr hn v (VSeq GEAS_TY_RECORD 0 0 ts)) ∨
     st = GEAS_ERR_OOM ∧ rec = None ∧ refused demo_mem m').
Proof.
  intros w ts. destruct (row_round_trip (SQ := Shelf.shelf) w [g_scalar GEAS_TY_INT 7; hi_text] ts 2) as [H1 H2].
  - constructor; [done|]. constructor; [|constructor]. simpl.
    split; [reflexivity|split; [reflexivity|split; [reflexivity|split]]]; [vm_compute; congruence|].
    right. split; [discriminate|]. eexists. split; reflexivity.
  - constructor; [|constructor; [|constructor]]; (split; [|split; [reflexivity|split; [|exact I]]]).
    + simpl. unfold is_u32, is_u64. lia.
    + exact I.
    + simpl. unfold is_u32, is_u64, bytes_ok. split_and!; try lia. repeat constructor; lia.
    + vm_compute. congruence.
  - vm_compute. congruence.
  - split; [exact H1|]. apply (H2 3 (Shelf.Db [] [] [SInt 7; SBlob [104; 105]] true) 2 (instance_store_bytes 2) demo_mem).
    + intros i t Hi. do 2 (destruct i as [|i]; [injection Hi as <-; reflexivity|]). by destruct i.
    + apply Shelf.columns_ok. reflexivity.
    + apply instance_alloc.
    + apply demo_mem_wf.
    + apply demo_live.
Defined.

Lemma query_reads_rows_witness :
  let found := Shelf.found [104; 105] in
  ∃ r w', geas_store_query (SQ := Shelf.shelf) 5 1 PARK_GET [hi_text] park_cols (park_arena_bytes 2) Shelf.hi_world = WRet r w' ∧
    query_post (SQ := Shelf.shelf) Shelf.hi_world 2 demo_mem 3 park_cols [found] found r w'.
Proof.
  intros found.
  apply (query_reads_rows (SQ := Shelf.shelf) 2 (park_arena_bytes 2) 5 1 PARK_GET [hi_text] [VString 0 [104; 105]]
    park_cols Shelf.hi_world 3 [found] [found] found).
  - apply instance_alloc.
  - apply demo_mem_wf.
  - apply demo_live.
  - constructor; [|constructor]. simpl.
    split; [reflexivity|split; [reflexivity|split; [reflexivity|split]]]; [vm_compute; congruence|].
    right. split; [discriminate|]. eexists. split; reflexivity.
  - constructor; [|constructor]. vm_compute. congruence.
  - vm_compute. congruence.
  - apply Shelf.hi_query.
  - constructor; [|constructor]. apply Shelf.found_columns.
  - simpl. lia.
  - vm_compute. congruence.
Defined.
