(* ===== verification/ReconcileProps.v ===== *)
(** * Reconciling a schema: create or validate *)
From S2P Require Import Prelude Abi Memory Value ValueProps Iname Store Future Lifecycle StoreSql StoreSqlSpec StoreSqlProps Sqlite Driver Rows RowsSpec Park Shelf.

Section Reconcile.
Context `{SQ : Sqlite}.

(** ** The statement a schema makes *)

Definition sql_type (c : GeasSchemaCol) : string := default "" (Driver.store_sql_type (sc_ty c)).
Definition decl (first : bool) (c : GeasSchemaCol) : string :=
  sc_name c +:+ " " +:+ sql_type c +:+ (if first then " PRIMARY KEY" else "").
Definition create_stmt (s : GeasSchemaDesc) : string :=
  match s_cols s with
  | [] => "CREATE TABLE " +:+ s_table s +:+ "()"
  | c :: cs => "CREATE TABLE " +:+ s_table s +:+ "(" +:+ String.concat ", " (decl true c :: map (decl false) cs) +:+ ")"
  end.

(** What the sizing pass refuses: the first column without a storage type, or with
    a name that is no identifier. *)
Definition col_fault (c : GeasSchemaCol) : option GeasStatus :=
  match Driver.store_sql_type (sc_ty c) with
  | None => Some GEAS_ERR_TYPE
  | Some _ => if Driver.store_ident_ok (sc_name c) then None else Some GEAS_ERR_STORE
  end.
Definition cols_fault (cs : list GeasSchemaCol) : option GeasStatus := head (omap col_fault cs).

Definition span (cs : list GeasSchemaCol) : Z :=
  foldr (λ c n, strlen (sc_name c) + strlen (sql_type c) + 24 + n) 0 cs.
Definition need_of (s : GeasSchemaDesc) : Z := 64 + strlen (s_table s) + span (s_cols s).

(** What creating the table does to the library. *)
Definition creates (h : Z) (s : GeasSchemaDesc) (st : sq) : GeasStatus * sq :=
  match cols_fault (s_cols s) with
  | Some e => (e, st)
  | None =>
      let '(granted, st) := sqlite3_malloc (need_of s) st in
      if negb granted then (GEAS_ERR_OOM, st) else
      let '(done, st) := sqlite3_exec h (create_stmt s) st in
      (if done then GEAS_OK else GEAS_ERR_STORE, st)
  end.

(** The name and the declared type a row of [table_info] shows. *)
Definition info (stmt : Z) (st : sq) : option string * option string :=
  (sqlite3_column_text stmt 1 st, sqlite3_column_text stmt 2 st).

(** Names equal, types equal up to the case of ASCII letters. *)
Fixpoint lowercase (s : string) : string :=
  match s with EmptyString => EmptyString | String a s' => String (Driver.lower a) (lowercase s') end.
Definition same_column (c : GeasSchemaCol) (i : option string * option string) : Prop :=
  ∃ ty got, Driver.store_sql_type (sc_ty c) = Some ty ∧ i = (Some (sc_name c), Some got) ∧
            lowercase got = lowercase ty.
#[global] Instance same_column_dec c i : Decision (same_column c i).
Proof.
  destruct i as [[nm|] [got|]]; try (by right; intros (? & ? & _ & [=] & _)).
  destruct (Driver.store_sql_type (sc_ty c)) as [ty|] eqn:E; [|by right; intros (? & ? & [=] & _); congruence].
  destruct (decide (nm = sc_name c)) as [->|Hn]; [|by right; intros (? & ? & _ & [=] & _)].
  destruct (decide (lowercase got = lowercase ty)) as [He|Hne]; [left; by exists ty, got|].
  right. intros (? & ? & Ht & [= <-] & He). rewrite E in Ht. injection Ht as <-. done.
Defined.
Definition same_shape (s : GeasSchemaDesc) (infos : list (option string * option string)) : Prop :=
  Forall2 same_column (s_cols s) infos.
#[global] Instance same_shape_dec s infos : Decision (same_shape s infos).
Proof. unfold same_shape. apply _. Defined.

Lemma create_span_eq cs : Driver.create_span cs =
  match cols_fault cs with Some st => inl st | None => inr (span cs) end.
Proof.
  induction cs as [|c cs IH]; [done|]. cbn [Driver.create_span]. unfold cols_fault in *. simpl omap.
  unfold col_fault at 1, sql_type. cbn [span foldr]. fold (span cs).
  destruct (Driver.store_sql_type (sc_ty c)) as [ct|] eqn:E; [|done].
  destruct (Driver.store_ident_ok (sc_name c)); simpl; [|done]. rewrite IH.
  change (list_omap _ _ col_fault cs) with (omap col_fault cs). unfold sql_type. rewrite E.
  by destruct (head (omap col_fault cs)).
Qed.

Lemma span_nonneg cs : 0 <= span cs.
Proof.
  induction cs as [|c cs IH]; simpl; [lia|]. pose proof (strlen_nonneg (sc_name c)). pose proof (strlen_nonneg (sql_type c)). lia.
Qed.

Lemma emit_db need t x : strlen t + strlen x < need → strlen x <= INT_MAX →
  Driver.emit_at_db x (full need t) = Some (full need (t +:+ x)).
Proof.
  intros Hn Hx. pose proof (strlen_nonneg x). unfold Driver.emit_at_db, full. cbn [b_need b_n b_text].
  rewrite (proj2 (Z.ltb_ge need (strlen t))), (proj2 (Z.ltb_ge INT_MAX (strlen x))) by lia. simpl.
  f_equal. f_equal; [by rewrite strlen_app|]. f_equal. apply substring_all. unfold strlen in *. lia.
Qed.

Definition decls (first : bool) (cs : list GeasSchemaCol) : string :=
  match cs with [] => "" | c :: cs' => join ", " first (decl first c :: map (decl false) cs') end.

Lemma decls_cons first c cs : decls first (c :: cs) =
  ((if first then "" else ", ") +:+ decl first c) +:+ decls false cs.
Proof.
  unfold decls. cbn [join]. rewrite sapp_assoc. f_equal. f_equal. destruct cs; [done|]. done.
Qed.

Lemma decls_emit need cs : cols_fault cs = None → ∀ first t,
  strlen t + 12 + span cs < need → need <= INT_MAX →
  Driver.emit_decls cs first (full need t) = Some (full need (t +:+ decls first cs)) ∧
  strlen (decls first cs) <= span cs.
Proof.
  unfold cols_fault. induction cs as [|c cs IH]; intros Hf first t Hn Hmax.
  { simpl. by rewrite sapp_nil_r. }
  cbn [Driver.emit_decls]. simpl omap in Hf. cbn [span foldr] in *. fold (span cs) in *.
  pose proof (span_nonneg cs). pose proof (strlen_nonneg t). pose proof (strlen_nonneg (sc_name c)).
  pose proof (strlen_nonneg (sql_type c)).
  destruct (col_fault c) eqn:Ef; [done|]. unfold col_fault in Ef.
  destruct (Driver.store_sql_type (sc_ty c)) as [ct|] eqn:Et; [|done]. cbn [mbind option_bind].
  assert (Ect : ct = sql_type c) by (unfold sql_type; by rewrite Et). rewrite Ect.
  assert (El : strlen ((if first then "" else ", ") +:+ sc_name c +:+ " " +:+ sql_type c +:+ (if first then " PRIMARY KEY" else ""))
    <= strlen (sc_name c) + strlen (sql_type c) + 13).
  { rewrite !strlen_app. destruct first; unfold strlen; simpl; lia. }
  rewrite emit_db by lia. cbn [mbind option_bind].
  destruct (IH Hf false (t +:+ (if first then "" else ", ") +:+ sc_name c +:+ " " +:+ sql_type c +:+ (if first then " PRIMARY KEY" else "")))
    as [-> Hs]; [rewrite strlen_app; lia|done|].
  rewrite decls_cons. unfold decl. split; [by rewrite !sapp_assoc|]. rewrite strlen_app. lia.
Qed.

Lemma create_text_eq s : s_cols s ≠ [] → cols_fault (s_cols s) = None → need_of s <= INT_MAX →
  Driver.create_text s (need_of s) = Some (create_stmt s).
Proof.
  intros Hne Hf Hmax. unfold Driver.create_text. change (SqlBuf (need_of s) 0 "") with (full (need_of s) "").
  pose proof (span_nonneg (s_cols s)). pose proof (strlen_nonneg (s_table s)). unfold need_of in *.
  assert (Eh : strlen ("CREATE TABLE " +:+ s_table s +:+ "(") = 14 + strlen (s_table s)).
  { rewrite !strlen_app. change (strlen "CREATE TABLE ") with 13. change (strlen "(") with 1. lia. }
  rewrite emit_db; [|rewrite Eh; change (strlen "") with 0; lia|rewrite Eh; lia].
  cbn [mbind option_bind]. rewrite sapp_nil.
  destruct (decls_emit (64 + strlen (s_table s) + span (s_cols s)) (s_cols s) Hf true ("CREATE TABLE " +:+ s_table s +:+ "("))
    as [-> Hs]; [lia|done|]. cbn [mbind option_bind].
  rewrite emit_db; [|rewrite (strlen_app (_ +:+ _)), Eh; change (strlen ")") with 1; lia|done]. cbn [mbind option_bind b_text full]. f_equal.
  unfold create_stmt. destruct (s_cols s) as [|c cs]; [done|]. unfold decls. rewrite join_concat. by rewrite !sapp_assoc.
Qed.

(** ** The two halves of a reconciliation *)

Lemma create_runs h s st : h ≠ 0 → s_cols s ≠ [] → need_of s <= INT_MAX →
  Driver.store_create_table h s st = Some (creates h s st).
Proof.
  intros Hh Hne Hmax. unfold Driver.store_create_table, creates. rewrite create_span_eq.
  destruct (cols_fault (s_cols s)) as [e|] eqn:Ef; [done|].
  change (64 + strlen (s_table s) + span (s_cols s)) with (need_of s).
  assert (H0 : 0 <= need_of s).
  { unfold need_of. pose proof (span_nonneg (s_cols s)). pose proof (strlen_nonneg (s_table s)). lia. }
  assert (E32 : i32 (need_of s) = need_of s).
  { unfold INT_MAX in Hmax. unfold i32. rewrite u32_id by (z_norm; lia). by rewrite (proj2 (Z.ltb_lt _ _)) by lia. }
  rewrite E32, Z.eqb_refl, create_text_eq by done. cbv [mbind Driver.D_bind Driver.call mret Driver.D_ret Driver.lift].
  destruct (sqlite3_malloc _ st) as [[] st1]; [|done]. cbn [negb fmap option_fmap option_map].
  unfold Driver.geas_store_exec. rewrite (proj2 (Z.eqb_neq h 0)) by done.
  cbv [mbind Driver.D_bind Driver.call mret Driver.D_ret]. by destruct (sqlite3_exec _ _ st1) as [[] st2].
Qed.

Lemma ieq_lowercase a b : Driver.store_ieq a b = true ↔ lowercase a = lowercase b.
Proof.
  revert b. induction a as [|x a IH]; intros [|y b]; simpl; [done..|].
  rewrite andb_true_iff, Ascii.eqb_eq, IH. split; [intros [-> ->]|intros [= -> ->]]; done.
Qed.

Lemma same_columnb c nm tp : same_column c (nm, tp) ↔
  match nm, tp, Driver.store_sql_type (sc_ty c) with
  | Some nm, Some tp, Some want => str_eqb nm (sc_name c) && Driver.store_ieq tp want = true
  | _, _, _ => False
  end.
Proof.
  split.
  - intros (ty & got & -> & [= -> ->] & He). by rewrite str_eqb_refl, (proj2 (ieq_lowercase _ _)).
  - destruct nm as [nm|], tp as [tp|]; try done. destruct (Driver.store_sql_type (sc_ty c)) as [ty|] eqn:E; [|done].
    intros [->%str_eqb_eq ?%ieq_lowercase]%andb_true_iff. by exists ty, tp.
Qed.

(** The walk over the rows agrees with comparing the whole list. *)
Lemma validate_walk stmt st rs st' : cursor stmt st rs st' → ∀ cs,
  ∃ e rc b st2, Driver.validate_rows stmt cs st = Some ((e, rc, b), st2) ∧
    (if st_ok e then (if bool_decide (rc ≠ SQLITE_DONE) && bool_decide (rc ≠ SQLITE_ROW) then GEAS_ERR_STORE
       else if b : bool then GEAS_OK else GEAS_ERR_TYPE) else e) =
    (if bool_decide (Forall2 same_column cs (map (info stmt) rs)) then GEAS_OK else GEAS_ERR_TYPE).
Proof.
  induction 1 as [st st' E|st s1 rs st' E _ IH]; intros cs.
  { destruct cs; (do 4 eexists; split; [simpl; unfold mbind, Driver.D_bind, Driver.call; by rewrite E|]); [done|].
    rewrite (bool_decide_eq_false_2 (Forall2 _ _ _)); [done|]. intros H. inversion H. }
  destruct cs as [|c cs].
  { do 4 eexists. split; [simpl; unfold mbind, Driver.D_bind, Driver.call; by rewrite E|].
    rewrite (bool_decide_eq_false_2 (Forall2 _ _ _)); [done|]. intros H. inversion H. }
  cbn [Driver.validate_rows]. unfold mbind, Driver.D_bind, Driver.call at 1. rewrite E. unfold Driver.look.
  pose proof (same_columnb c (sqlite3_column_text stmt 1 s1) (sqlite3_column_text stmt 2 s1)) as Hc.
  destruct (decide (same_column c (info stmt s1))) as [Hs|Hs].
  - apply Hc in Hs as Hm. destruct (sqlite3_column_text stmt 1 s1), (sqlite3_column_text stmt 2 s1),
      (Driver.store_sql_type (sc_ty c)); try done. rewrite Hm.
    destruct (IH cs) as (e & rc & b & st2 & -> & He). do 4 eexists. split; [done|]. rewrite He.
    by rewrite (bool_decide_ext (Forall2 same_column (c :: cs) (map (info stmt) (s1 :: rs))) (Forall2 same_column cs (map (info stmt) rs)))
      by (simpl; rewrite Forall2_cons; tauto).
  - rewrite (bool_decide_eq_false_2 (Forall2 _ _ (map _ (s1 :: rs)))) by (simpl; rewrite Forall2_cons; tauto).
    unfold info in Hs. rewrite Hc in Hs.
    destruct (sqlite3_column_text stmt 1 s1), (sqlite3_column_text stmt 2 s1),
      (Driver.store_sql_type (sc_ty c)); try (by do 4 eexists).
    rewrite (not_true_is_false _ Hs). by do 4 eexists.
Qed.

(** The probe's text, whole when the table's name leaves room for it. *)
Definition probe (s : GeasSchemaDesc) : string := "PRAGMA table_info(" +:+ s_table s +:+ ")".
Lemma pragma_whole s : strlen (s_table s) <= 172 → Driver.pragma_text (s_table s) = probe s.
Proof.
  intros H. apply substring_all. assert (E : strlen (probe s) = 19 + strlen (s_table s)).
  { unfold probe. rewrite !strlen_app. change (strlen ")") with 1. change (strlen "PRAGMA table_info(") with 18. lia. }
  unfold probe, strlen in *. lia.
Qed.

Lemma validate_runs h s st q st1 rs st2 : strlen (s_table s) <= 172 →
  sqlite3_prepare_v2 h (probe s) st = ((true, q), st1) → cursor q st1 rs st2 → ∃ st3,
  Driver.store_validate_table h s st =
    Some (if bool_decide (same_shape s (map (info q) rs)) then GEAS_OK else GEAS_ERR_TYPE, st3).
Proof.
  intros Hn Hp Hc. unfold Driver.store_validate_table, Driver.prepare_pragma.
  rewrite pragma_whole by done. cbv [mbind Driver.D_bind Driver.call]. rewrite Hp. cbn [negb mret Driver.D_ret].
  destruct (validate_walk q st1 rs st2 Hc (s_cols s)) as (e & rc & b & st3 & -> & He).
  assert (Eb : (if bool_decide (same_shape s (map (info q) rs)) then GEAS_OK else GEAS_ERR_TYPE) =
    (if st_ok e then (if bool_decide (rc ≠ SQLITE_DONE) && bool_decide (rc ≠ SQLITE_ROW) then GEAS_ERR_STORE
       else if b : bool then GEAS_OK else GEAS_ERR_TYPE) else e)).
  { rewrite He. destruct (decide (same_shape s (map (info q) rs))) as [H|H].
    - by rewrite (bool_decide_eq_true_2 _ H), (bool_decide_eq_true_2 (Forall2 _ _ _) H).
    - by rewrite (bool_decide_eq_false_2 _ H), (bool_decide_eq_false_2 (Forall2 _ _ _) H). }
  rewrite Eb.
  unfold Driver.sqlite3_finalize_, mret, Driver.D_ret.
  destruct (st_ok e); [|by eexists]. cbn [negb]. by destruct (bool_decide _ && _); eexists.
Qed.

(** What is refused before the library is asked anything. *)
Definition refusal (h : Z) (s : GeasSchemaDesc) : option GeasStatus :=
  if h =? 0 then Some GEAS_ERR_STORE else
  match s_cols s with
  | [] => Some GEAS_ERR_TYPE
  | _ => if Driver.store_ident_ok (s_table s) then None else Some GEAS_ERR_STORE
  end.

(** C26: a schema is refused before the library is asked anything when the handle
    is NULL, it has no column or its table is no identifier.  Otherwise the table is
    probed: a probe that cannot be prepared is a store error; no row means no table,
    and the outcome is exactly that of creating it - the first bad column's refusal,
    or the one statement that declares every column at its storage type with the
    first as the key; a row means a table, which is accepted if and only if the
    columns it shows are the schema's, in number, order, name and type up to case. *)
Theorem reconcile_correct h s st :
  strlen (s_table s) <= 172 → need_of s <= INT_MAX →
  match refusal h s with
  | Some e => Driver.geas_store_reconcile h s st = Some (e, st)
  | None => ∀ ok p st1, sqlite3_prepare_v2 h (probe s) st = ((ok, p), st1) →
      if ok : bool then ∀ rc st2, sqlite3_step p st1 = (rc, st2) →
        if decide (rc = SQLITE_ROW) then ∀ q st3 rs st4,
          sqlite3_prepare_v2 h (probe s) (sqlite3_finalize p st2) = ((true, q), st3) → cursor q st3 rs st4 →
          ∃ st5, Driver.geas_store_reconcile h s st =
            Some (if bool_decide (same_shape s (map (info q) rs)) then GEAS_OK else GEAS_ERR_TYPE, st5)
        else Driver.geas_store_reconcile h s st = Some (creates h s (sqlite3_finalize p st2))
      else Driver.geas_store_reconcile h s st = Some (GEAS_ERR_STORE, sqlite3_finalize p st1)
  end.
Proof.
  intros Ht Hn. unfold Driver.geas_store_reconcile, refusal, ncols, Driver.prepare_pragma.
  rewrite pragma_whole by done. destruct (Z.eqb_spec h 0) as [->|Hh]; [done|].
  destruct (s_cols s) as [|c cs] eqn:Ec; [done|].
  rewrite (proj2 (Z.eqb_neq (Z.of_nat (length (c :: cs))) 0)) by (simpl; lia).
  destruct (Driver.store_ident_ok (s_table s)); [|done]. cbn [negb].
  intros ok p st1 Hp. cbv [mbind Driver.D_bind Driver.call mret Driver.D_ret]. rewrite Hp.
  destruct ok; [|done]. cbn [negb]. intros rc st2 Hs. rewrite Hs. cbn [Driver.sqlite3_finalize_].
  destruct (decide (rc = SQLITE_ROW)) as [->|Hr].
  - intros q st3 rs st4 Hq Hc. cbn [Driver.sqlite3_finalize_]. by eapply validate_runs.
  - cbn [Driver.sqlite3_finalize_]. rewrite bool_decide_eq_false_2 by done. apply create_runs; [done|by rewrite Ec|done].
Qed.
End Reconcile.

Lemma reconcile_correct_witness :
  Driver.geas_store_reconcile (SQ := Catalog.catalog) 1 Catalog.items (Catalog.Db [] 0) = Some (GEAS_OK, Catalog.made) ∧
  ∃ st, Driver.geas_store_reconcile (SQ := Catalog.catalog) 1 Catalog.other Catalog.made = Some (GEAS_ERR_TYPE, st).
Proof.
  split.
  - exact (reconcile_correct (SQ := Catalog.catalog) 1 Catalog.items (Catalog.Db [] 0) ltac:(done) ltac:(done)
             true 1 (Catalog.Db [] 0) eq_refl SQLITE_DONE (Catalog.Db [] 0) eq_refl).
  - exact (reconcile_correct (SQ := Catalog.catalog) 1 Catalog.other Catalog.made ltac:(done) ltac:(done)
             true 1 Catalog.made eq_refl SQLITE_ROW (Catalog.Db (Catalog.columns Catalog.made) 1) eq_refl
             1 Catalog.made
             [Catalog.Db (Catalog.columns Catalog.made) 1; Catalog.Db (Catalog.columns Catalog.made) 2]
             (Catalog.Db (Catalog.columns Catalog.made) 2) eq_refl
             Catalog.made_cursor).
Defined.
