(* ===== verification/ParkProps.v ===== *)
(** * Parking and resuming: the theorems *)
From S2P Require Import Prelude Abi Memory Value ValueSpec ValueProps Wire WireSpec WireProps Iname InameSpec Policy Store Future Lifecycle LifecycleSpec SignSpec StoreSql Sqlite Driver Rows RowsSpec Park ParkSpec ResumeSpec ResumeRun ParkRun Shelf.

(** ** The theorems *)

(** C18: [geas_instance_park] refuses with GEAS_ERR_STATE, touching nothing, an
    unsigned instance, one whose heap an explicit break took, one with a future
    not waited on and one with an open episode.  Any other instance whose data is
    readable is written, when the library takes the statement, as exactly one
    row: the key, the contract's name, version and shape hash, the state, the
    signing time, the canonical encodings of the vows and of the present error
    payloads, and the latches and episode slots byte for byte.  The instance, its
    heap and every other block are as they were, borrowed bytes included; short
    of a refused allocation, which writes nothing, the park succeeds. *)
Theorem park_correct `{SQ : Sqlite} fuel c dsn key ct w :
  c ≠ 0 → ci w !! c = Some ct → mem_wf (wm w) → is_Some (owned (wm w) !! c) →
  (∀ f, f ∈ default [] (links w !! c) → is_Some (futs w !! f)) →
  let park := geas_instance_park fuel c (Some dsn) (Some key) w in
  (can_park c ct w = false → park = WRet GEAS_ERR_STATE w) ∧
  (can_park c ct w = true → ∀ ts es s' steps, parkable key ct ts es (wm w) →
     row_taken dsn (park_image key ct ts es) (ws w : sq) s' steps → (steps < fuel)%nat → Z.of_nat steps <= U64_MAX →
     ∃ st w', park = WRet st w' ∧ park_says w s' st w').
Proof.
  intros Hc Hct Hwf Ho Hf park. split.
  - intros Hcan. unfold park, geas_instance_park. rewrite (proj2 (Z.eqb_neq c 0)) by done.
    unfold mbind, W_bind. rewrite (get_inst_run _ _ _ Hct), (park_checks_run c ct w Ho Hf), Hcan. done.
  - intros Hcan ts es s' steps Hpk Htk Hfu Hst. apply wwp_run. by eapply wwp_park.
Qed.

Lemma park_correct_witness :
  let park := geas_instance_park (SQ := Shelf.shelf) 5 20 (Some "db"%string) (Some "k1"%string) Shelf.cart_world in
  let s' := Shelf.Db [(str_bytes "k1", Shelf.cart_row)] [] [] false in
  (can_park (SQ := Shelf.shelf) 20 Shelf.cart Shelf.cart_world = false → park = WRet GEAS_ERR_STATE Shelf.cart_world) ∧
  ∃ st w', park = WRet st w' ∧ park_says (SQ := Shelf.shelf) Shelf.cart_world s' st w'.
Proof.
  intros park s'. destruct (park_correct (SQ := Shelf.shelf) 5 20 "db" "k1" Shelf.cart Shelf.cart_world)
    as [H1 H2]; [done|reflexivity|apply Shelf.cart_mem_wf|by eexists|by intros f Hf%elem_of_nil|].
  split; [exact H1|]. apply (H2 eq_refl Shelf.cart_vows Shelf.cart_errs s' 0%nat); [|apply Shelf.cart_taken|lia|lia].
  apply Shelf.cart_parkable.
Defined.

(** C17: [geas_instance_resume], on any row the library serves for the key, is all
    or nothing.  No row is GEAS_ERR_NAME; a state out of range, an unregistered
    name, a version or shape hash that differs are GEAS_ERR_TYPE, GEAS_ERR_NAME
    and GEAS_ERR_VERSION; a dispatch that does not resolve is its own status.
    Otherwise it answers GEAS_OK only with a new instance in the next table slot
    that holds exactly what the row's blobs unpack to (every vow decoded at its
    declared type, the whole blob consumed, latches and slots in range, no
    episode open), its blocks new and its own; and it refuses only because the
    blobs do not unpack, a schema must be reconciled, the table is full or an
    allocation was refused.  A refusal leaves the instances, every block and
    every block list as they were, the arena included. *)
Theorem resume_correct `{SQ : Sqlite} fuel dsn key expected w stmt rs0 rs :
  mem_wf (wm w) → row_served dsn key (ws w : sq) stmt rs0 rs → (length rs0 < fuel)%nat →
  sizeof_StoreScratchBlock + Z.of_nat (length rs0) * sizeof_GeasValue <= U64_MAX →
  (length (instances w) ≤ GEAS_MAX_INSTANCES)%nat →
  (∀ n d, find_desc (wr w) n = Some d → fits_slots (length (d_vows d)) ∧ fits_slots (length (d_pledges d))) →
  ∃ r w', geas_instance_resume fuel (Some dsn) (Some key) expected w = WRet r w' ∧
    resume_says w expected (map (row_of stmt) rs) r w'.
Proof. intros Hwf Hs Hf Hsz Hc Hfit. apply wwp_run. by eapply wwp_resume. Qed.

Lemma resume_correct_witness :
  ∃ r w', geas_instance_resume (SQ := Shelf.shelf) 5 (Some "db"%string) (Some "k1"%string) 77 Shelf.later_world = WRet r w' ∧
    resume_says (SQ := Shelf.shelf) Shelf.later_world 77 (map (row_of (SQ := Shelf.shelf) 3) [Shelf.cart_found]) r w'.
Proof.
  apply (resume_correct (SQ := Shelf.shelf) 5 "db" "k1" 77 Shelf.later_world 3 [Shelf.cart_found] [Shelf.cart_found]).
  - apply Shelf.later_wf.
  - apply Shelf.cart_served.
  - simpl; lia.
  - vm_compute; congruence.
  - vm_compute; lia.
  - apply Shelf.later_fits.
Defined.

(** C16: what was parked comes back.  When the library serves for the key one row
    whose columns hold the values [geas_instance_park] binds for an instance, and
    the runtime has the instance's module registered, [geas_instance_resume]
    under that module's hash or none answers a new instance with the parked
    instance's state, signing time, latches and episode slots, and with vows and
    error payloads that are the same value trees in blocks of its own; or it
    refuses, changing nothing, because the dispatch table does not resolve, a
    schema must be reconciled, the instance table is full or an allocation was
    refused. *)
Theorem park_resume_round_trip `{SQ : Sqlite} fuel dsn key expected ct ts es w stmt rs0 r :
  restorable ct ts es → find_desc (wr w) (d_name (c_desc ct)) = Some (c_desc ct) →
  expected = 0 ∨ expected = d_shape_hash (c_desc ct) →
  mem_wf (wm w) → row_served dsn key (ws w : sq) stmt rs0 [r] →
  row_holds stmt r (tail (park_image key ct ts es)) → (length rs0 < fuel)%nat →
  sizeof_StoreScratchBlock + Z.of_nat (length rs0) * sizeof_GeasValue <= U64_MAX →
  (length (instances w) ≤ GEAS_MAX_INSTANCES)%nat →
  (∀ n d, find_desc (wr w) n = Some d → fits_slots (length (d_vows d)) ∧ fits_slots (length (d_pledges d))) →
  let '(dst, fns, rt) := resolve_dispatch (wr w) (c_desc ct) in
  ∃ st x w', geas_instance_resume fuel (Some dsn) (Some key) expected w = WRet (st, x) w' ∧
    (st = GEAS_OK ∧ dst = GEAS_OK ∧
       resumed w (c_desc ct) fns (c_state ct) (c_signed_at ct) (Cargo ts (c_pledge_state ct) es (c_sub_txn ct)) x w' ∨
     st ≠ GEAS_OK ∧ x = 0 ∧ unchanged w w' ∧
       (dst ≠ GEAS_OK ∨ d_schemas (c_desc ct) ≠ [] ∨ length (instances w) = GEAS_MAX_INSTANCES ∨
        refused (wm w) (wm w'))).
Proof.
  intros Hrb Hd He Hwf Hsv Hh Hf Hsz Hcap Hfit.
  destruct (resolve_dispatch (wr w) (c_desc ct)) as [[dst fns] rt] eqn:Er.
  pose proof (wwp_resume w Hwf fuel dsn key expected stmt rs0 [r] Hsv Hf Hsz Hcap Hfit) as H.
  apply wwp_run in H as ([st x] & w' & Hrun & H). exists st, x, w'. split; [exact Hrun|]. revert H.
  unfold resume_says. cbn [map]. rewrite (row_of_image _ _ _ _ _ _ Hrb Hh).
  rewrite (verdict_image _ _ _ _ _ _ Hrb Hd He), Er. cbn [pr_blobs pr_signed fst snd].
  rewrite (unpack_image _ _ _ Hrb). intros [([= -> ->] & Hu & Hr)|[(Hn & [= -> ->] & Hu)|(-> & H)]].
  - right. split_and!; try done. by right; right; right.
  - right. split_and!; try done. by left.
  - destruct H as [(Hok & cg & [= <-] & Hres)|(Hn & Hx & Hu & Hw)]; [by left|]. right. split_and!; try done.
    right. destruct Hw as [Hw|Hw]; [|exact Hw].
    by rewrite (unpack_image _ _ _ Hrb) in Hw.
Qed.

Lemma park_resume_round_trip_witness :
  let '(dst, fns, rt) := resolve_dispatch (wr Shelf.later_world) Shelf.cart_desc in
  ∃ st x w', geas_instance_resume (SQ := Shelf.shelf) 5 (Some "db"%string) (Some "k1"%string) 77 Shelf.later_world = WRet (st, x) w' ∧
    (st = GEAS_OK ∧ dst = GEAS_OK ∧
       resumed (SQ := Shelf.shelf) Shelf.later_world Shelf.cart_desc fns GEAS_PARTIAL 1234
         (Cargo Shelf.cart_vows (Some [PLEDGE_FULFILLED; PLEDGE_BROKEN]) Shelf.cart_errs (Some [TXN_DONE])) x w' ∨
     st ≠ GEAS_OK ∧ x = 0 ∧ unchanged Shelf.later_world w' ∧
       (dst ≠ GEAS_OK ∨ d_schemas Shelf.cart_desc ≠ [] ∨ length (instances Shelf.later_world) = GEAS_MAX_INSTANCES ∨
        refused (wm Shelf.later_world) (wm w'))).
Proof.
  apply (park_resume_round_trip (SQ := Shelf.shelf) 5 "db" "k1" 77 Shelf.cart Shelf.cart_vows Shelf.cart_errs
    Shelf.later_world 3 [Shelf.cart_found] Shelf.cart_found).
  - apply Shelf.cart_restorable.
  - reflexivity.
  - by right.
  - apply Shelf.later_wf.
  - apply Shelf.cart_served.
  - apply Shelf.cart_row_holds.
  - simpl; lia.
  - vm_compute; congruence.
  - vm_compute; lia.
  - apply Shelf.later_fits.
Defined.
