(* ===== verification/SurfaceProps.v ===== *)
(** * The store surface: the theorems *)
From S2P Require Import Prelude Abi Memory Value ValueSpec ValueProps Iname Policy Store Future Lifecycle LifecycleSpec SignSpec StoreSql StoreSqlSpec StoreSqlProps Sqlite Driver Rows RowsSpec Park ParkRun Float Surface SurfaceSpec AggSpec Shelf.

Lemma at_ms_self `{SQ : Sqlite} w : at_ms w (wm w) (ws w : sq) = w.
Proof. by destruct w. Qed.

(** C20: the six read calls of a body.  A call with a column, a comparison, a term's
    type, an order or a limit out of range is refused with GEAS_ERR_TYPE (a find
    over no columns with GEAS_ERR_STORE), one on an unconnected instance with
    GEAS_ERR_STORE, the world untouched.  Otherwise it runs exactly its one
    statement with exactly its values in placeholder order, and answers Ok of what
    the library served, each row a record of the schema's columns in new blocks of
    the instance (a find: Some of the first row, or None), or GEAS_ERR_OOM. *)
Theorem store_reads_correct `{SQ : Sqlite} fuel c s q w ct :
  schema_ok s → Z.of_nat (length (s_cols s)) <= INT_MAX → read_words q →
  mem_wf (wm w) → live c (wm w) → ci w !! c = Some ct →
  match read_refusal s q, c_store ct with
  | Some e, _ => run_read fuel c s q w = WRet (e, gzero) w
  | None, None => run_read fuel c s q w = WRet (GEAS_ERR_STORE, gzero) w
  | None, Some h => ∀ ts stmt n rs s', stand_for (heap (wm w)) (read_params q) ts →
      served h (sql_text (read_stmt q) s) (map sc_ty (s_cols s)) ts (ws w : sq) stmt n rs s' → (n < fuel)%nat →
      ∃ r w', run_read fuel c s q w = WRet r w' ∧
        answered w c (wm w) (sqlite3_finalize stmt s') (read_answer s q stmt rs) r w'
  end.
Proof.
  intros Hs Hn Hw Hwf Hl Hct. pose proof (so_ncols s Hs) as [Hc _].
  destruct (read_refusal s q) as [e|] eqn:Er; [by eapply read_refused|].
  destruct (c_store ct) as [h|] eqn:Eh; [|by eapply read_unconnected].
  intros ts stmt n rs s' Hst Hsv Hf. apply wwp_run.
  destruct (read_is fuel c s q w ct Er Hw Hc Hct ltac:(by destruct q; rewrite ?Eh)) as (Hok & params & k & E & Ha & Hk).
  unfold wwp. rewrite E.
  assert (H : wwp (read_rows_of fuel c s (build (read_stmt q) s) params k) (at_ms w (wm w) (ws w : sq))
    (answered w c (wm w) (sqlite3_finalize stmt s') (read_answer s q stmt rs)))
    by (eapply (wwp_read_rows_of w fuel c s (read_stmt q) params (read_params q) ts); eauto).
  by rewrite at_ms_self in H.
Qed.

(** C21: the three write calls.  A row that is no record of the schema's width is
    refused with GEAS_ERR_TYPE, an unconnected instance with GEAS_ERR_STORE, the
    world untouched.  Otherwise the call runs exactly its statement over the row's
    fields in column order, the key last: a statement that goes through answers
    Ok(Unit) on the instance, one the library fails (a constraint, a full disk) is
    GEAS_ERR_STORE with nothing left on the instance, and a refused allocation
    GEAS_ERR_OOM. *)
Theorem store_writes_correct `{SQ : Sqlite} fuel c s q w ct :
  schema_ok s → Z.of_nat (length (s_cols s)) <= INT_MAX →
  mem_wf (wm w) → live c (wm w) → ci w !! c = Some ct → (0 < fuel)%nat →
  match write_refusal s q, c_store ct with
  | Some e, _ => run_store_write fuel c s q w = WRet (e, gzero) w
  | None, None => run_store_write fuel c s q w = WRet (GEAS_ERR_STORE, gzero) w
  | None, Some h => ∀ ts, written (heap (wm w)) s q ts → Forall int_bytes ts →
      (∀ rs s', exec_runs h (sql_text (write_stmt q) s) ts (ws w : sq) rs s' →
         (length rs < fuel)%nat → Z.of_nat (length rs) <= U64_MAX →
         ∃ r w', run_store_write fuel c s q w = WRet r w' ∧ answered w c (wm w) s' unit_val r w') ∧
      (∀ s', exec_fails h (sql_text (write_stmt q) s) ts (ws w : sq) s' →
         ∃ r w', run_store_write fuel c s q w = WRet r w' ∧ failed w (wm w) s' r w')
  end.
Proof.
  intros Hs Hn Hwf Hl Hct Hf. destruct (write_refusal s q) as [e|] eqn:Er; [by eapply write_refused|].
  destruct (c_store ct) as [h|] eqn:Eh; [|by eapply write_unconnected]. intros ts Hwr Hi.
  destruct (write_is fuel c s q w ct ts Er Hs Hn Hct ltac:(by destruct q; rewrite ?Eh) Hwr) as (Hok & params & vs & E & Ha & Hr).
  destruct (wwp_run_write w fuel c s (write_stmt q) params vs ts ct h (wm w) (ws w : sq) Hct Eh Hwf Hl Hs Hok Ha (conj Hr Hi) Hf) as [H1 H2].
  rewrite at_ms_self in H1, H2.
  split; [intros rs s' He Hlen Hsz|intros s' He]; apply wwp_run; unfold wwp; rewrite E; [by eapply H1|by eapply H2].
Qed.

(** C22: the five aggregate calls.  A term, a group, a column or an aggregate out
    of range, or a sum over a column that is no number, is refused with
    GEAS_ERR_TYPE, an unconnected instance with GEAS_ERR_STORE, the world
    untouched.  Otherwise the statement's row is read in scratch memory that is all
    gone at the end: the instance keeps only the answer's own blocks, Ok of the
    count or the sum as the column holds it, of the average as the quotient of the
    two columns in double arithmetic (None of nothing), of the extreme as a deep
    copy (None of nothing); another number of rows is GEAS_ERR_STORE and leaves
    nothing, and a refused allocation GEAS_ERR_OOM. *)
Theorem store_aggregates_correct `{SQ : Sqlite} fuel dfuel c s q w ct :
  schema_ok s → agg_words q → (0 < dfuel)%nat →
  mem_wf (wm w) → live c (wm w) → ci w !! c = Some ct →
  match agg_valid s q, c_store ct with
  | false, _ => run_agg fuel dfuel c s q w = WRet (GEAS_ERR_TYPE, gzero) w
  | true, None => run_agg fuel dfuel c s q w = WRet (GEAS_ERR_STORE, gzero) w
  | true, Some h => ∀ ts stmt n rs s', stand_for (heap (wm w)) (term_vals (agg_terms q)) ts →
      served h (sql_text (agg_stmt q) s) (agg_tys s q) ts (ws w : sq) stmt n rs s' → (n < fuel)%nat →
      ∃ r w', run_agg fuel dfuel c s q w = WRet r w' ∧
        agg_says w c (wm w) (sqlite3_finalize stmt s') (agg_answer s q stmt rs) r w'
  end.
Proof.
  intros Hs Hw Hd Hwf Hl Hct. destruct (agg_valid s q) eqn:Ev; [|by apply agg_refused].
  destruct (c_store ct) as [h|] eqn:Eh; [|by eapply agg_unconnected]. intros ts stmt n rs s' Hst Hsv Hf.
  destruct (agg_is fuel dfuel c s q Ev Hw Hd) as (Hok & Hu & k & E & Hk). apply wwp_run. unfold wwp. rewrite E.
  pose proof Hsv as [(rs0 & Hq & _) _ _]. pose proof (qr_tys _ _ _ _ _ _ _ _ _ Hq) as Ht.
  assert (H : wwp (aggregate fuel c (build (agg_stmt q) s) (agg_terms q) (agg_tys s q) k) (at_ms w (wm w) (ws w : sq))
    (agg_says w c (wm w) (sqlite3_finalize stmt s') (agg_answer s q stmt rs))).
  { eapply (wwp_aggregate w fuel c s (agg_stmt q) (agg_terms q)); eauto.
    destruct q as [| | | |agg ? ? ?]; simpl; try destruct (agg =? GEAS_AGG_AVG); vm_compute; congruence. }
  by rewrite at_ms_self in H.
Qed.

(** ** Concrete runs *)

Lemma store_reads_correct_witness :
  ∃ r w', run_read (SQ := Ledger.ledger) 5 2 Catalog.items (RFind Ledger.seven_key) Ledger.member_world = WRet r w' ∧
    answered (SQ := Ledger.ledger) Ledger.member_world 2 demo_mem Ledger.seven
      (VBox GEAS_TY_OPTION 1 (Some (VSeq GEAS_TY_RECORD 0 0 [VScalar GEAS_TY_INT 0 7; VString 0 [104; 105]]))) r w'.
Proof.
  apply (store_reads_correct (SQ := Ledger.ledger) 5 2 Catalog.items (RFind Ledger.seven_key) Ledger.member_world
    Ledger.member Ledger.items_ok ltac:(vm_compute; congruence) I demo_mem_wf demo_live (lookup_singleton_eq 2 Ledger.member)
    [VScalar GEAS_TY_INT 0 7] 1 1%nat [Ledger.at_seven Ledger.Rows] (Ledger.at_seven Ledger.Rows)).
  - split; [constructor; [by split_and!|constructor]|repeat constructor].
  - apply (Ledger.served_row Ledger.Rows); [reflexivity|discriminate|reflexivity|reflexivity|by eexists].
  - lia.
Defined.

Lemma store_writes_correct_witness :
  ∃ r w', run_store_write (SQ := Ledger.ledger) 5 2 Catalog.items (WDelete Ledger.seven_key) Ledger.member_world = WRet r w' ∧
    answered (SQ := Ledger.ledger) Ledger.member_world 2 demo_mem (Ledger.Db [] Ledger.Rows 0) unit_val r w'.
Proof.
  apply (store_writes_correct (SQ := Ledger.ledger) 5 2 Catalog.items (WDelete Ledger.seven_key) Ledger.member_world
    Ledger.member Ledger.items_ok ltac:(vm_compute; congruence) demo_mem_wf demo_live (lookup_singleton_eq 2 Ledger.member)
    ltac:(lia) [VScalar GEAS_TY_INT 0 7]) with (rs := []).
  - eexists. split; [reflexivity|by split_and!].
  - repeat constructor.
  - by apply Ledger.swept.
  - simpl. lia.
  - simpl. lia.
Defined.

Lemma store_aggregates_correct_witness :
  let q := ACountWhere [StoreTerm 0 0 (Some Ledger.seven_key)] in
  ∃ r w', run_agg (SQ := Ledger.ledger) 5 1 2 Catalog.items q Ledger.member_world = WRet r w' ∧
    agg_says (SQ := Ledger.ledger) Ledger.member_world 2 demo_mem Ledger.seven (Some (VScalar GEAS_TY_INT 0 1)) r w'.
Proof.
  intros q. apply (store_aggregates_correct (SQ := Ledger.ledger) 5 1 2 Catalog.items q Ledger.member_world
    Ledger.member Ledger.items_ok) with (ts := [VScalar GEAS_TY_INT 0 7]) (stmt := 1) (n := 1%nat)
    (rs := [Ledger.at_seven Ledger.Count]) (s' := Ledger.at_seven Ledger.Count).
  - split; [repeat constructor; simpl; lia|simpl; lia].
  - lia.
  - apply demo_mem_wf.
  - apply demo_live.
  - apply lookup_singleton_eq.
  - split; [constructor; [by split_and!|constructor]|repeat constructor].
  - apply (Ledger.served_row Ledger.Count); [reflexivity|discriminate|reflexivity|reflexivity|by eexists].
  - lia.
Defined.
