(* ===== verification/Boot.v ===== *)
(** * Bringing the runtime up and taking it down

    [runtime.c]: [geas_runtime_init], the pool's half of [geas_runtime_shutdown],
    [mutex_init_recursive], [future_new] and [future_free], over the system
    objects they make and destroy.  What the system grants is a parameter: the
    n-th request is answered by [grant n].  Destroying, using or freeing what is
    not held, or what a running thread still uses, is undefined; a join on a
    thread that was never told to stop hangs. *)
From S2P Require Import Prelude Abi.

(** What the code makes: the struct, its two mutexes and its condition, the array
    of thread ids; a mutex attribute; a mutex of an instance; a future and its
    pair. *)
Inductive resource :=
| RRuntime | RLock | RQmu | RQcv | RWorkers | RAttr | RMutex | RFuture | RFutMu | RFutCv.
#[export] Instance resource_eq_dec : EqDecision resource.
Proof. solve_decision. Defined.

(** [told]: [qstop] is up and a broadcast followed it. *)
Record sys := Sys {
  held : list resource;
  running : list Z;             (* workers created and not joined *)
  qstop : bool;
  told : bool;
  asked : nat;                  (* requests made so far *)
  grant : nat → bool
}.

Inductive ran (A : Type) := Done (a : A) (s : sys) | Bad | Hang.
Arguments Done {A}. Arguments Bad {A}. Arguments Hang {A}.
Definition B (A : Type) : Type := sys → ran A.
#[export] Instance B_ret : MRet B := λ A a s, Done a s.
#[export] Instance B_bind : MBind B := λ A C k e s,
  match e s with Done a s' => k a s' | Bad => Bad | Hang => Hang end.

(** ** The system's calls *)

Fixpoint remove_one {A} `{EqDecision A} (x : A) (l : list A) : list A :=
  match l with [] => [] | y :: l' => if decide (x = y) then l' else y :: remove_one x l' end.

(** What each is part of, or is used through. *)
Definition within (r : resource) : list resource :=
  match r with
  | RLock | RQmu | RQcv | RWorkers => [RRuntime]
  | RFutMu | RFutCv => [RFuture]
  | _ => []
  end.
(** What a pool thread uses. *)
Definition shared (r : resource) : bool := bool_decide (r = RRuntime ∨ r = RQmu ∨ r = RQcv).
Definition all_held (rs : list resource) (s : sys) : bool := forallb (λ r, bool_decide (r ∈ held s)) rs.

Definition ask (s : sys) : sys := Sys (held s) (running s) (qstop s) (told s) (S (asked s)) (grant s).
Definition put_held (l : list resource) (s : sys) : sys := Sys l (running s) (qstop s) (told s) (asked s) (grant s).
Definition put_running (l : list Z) (s : sys) : sys := Sys (held s) l (qstop s) (told s) (asked s) (grant s).

(** [calloc], [pthread_mutex_init], [pthread_cond_init], [pthread_mutexattr_init]. *)
Definition make (r : resource) : B bool := λ s,
  if negb (all_held (within r) s) then Bad else
  if grant s (asked s) then Done true (put_held (r :: held s) (ask s)) else Done false (ask s).

(** [free], [pthread_mutex_destroy], [pthread_cond_destroy]. *)
Definition destroy (r : resource) : B unit := λ s,
  if negb (all_held (r :: within r) s) then Bad else
  if shared r && negb (bool_decide (running s = [])) then Bad else
  Done tt (put_held (remove_one r (held s)) s).

Definition pthread_create (i : Z) : B bool := λ s,
  if negb (all_held [RRuntime; RWorkers; RQmu; RQcv] s) then Bad else
  if grant s (asked s) then Done true (put_running (i :: running s) (ask s)) else Done false (ask s).
Definition pthread_join (i : Z) : B unit := λ s,
  if negb (all_held [RRuntime; RWorkers] s) || negb (bool_decide (i ∈ running s)) then Bad else
  if negb (told s) then Hang else Done tt (put_running (remove_one i (running s)) s).

(** Under [qmu]: raise [qstop], broadcast. *)
Definition raise_qstop : B unit := λ s,
  if negb (all_held [RRuntime; RQmu] s) then Bad else
  Done tt (Sys (held s) (running s) true (told s) (asked s) (grant s)).
Definition broadcast_qcv : B unit := λ s,
  if negb (all_held [RRuntime; RQcv] s) then Bad else
  Done tt (Sys (held s) (running s) (qstop s) (qstop s) (asked s) (grant s)).

(** ** The runtime *)

Definition GEAS_POOL_DEFAULT_THREADS : Z := 4.
Definition GEAS_POOL_MAX_THREADS : Z := 256.

Record GeasRuntimeConfig := RuntimeConfig { max_threads : Z; handshake_ms : Z }.

Fixpoint join_workers (n : nat) (j : Z) : B unit :=
  match n with
  | O => mret tt
  | S n' => pthread_join j;; join_workers n' (j + 1)
  end.

(** From worker [i] on, [n] are left to create; true when all were. *)
Fixpoint create_workers (n : nat) (i : Z) : B bool :=
  match n with
  | O => mret true
  | S n' =>
      ok ← pthread_create i;
      if ok : bool then create_workers n' (i + 1) else
      raise_qstop;; broadcast_qcv;;
      join_workers (Z.to_nat i) 0;;
      destroy RWorkers;; destroy RQcv;; destroy RQmu;; destroy RLock;; destroy RRuntime;;
      mret false
  end.

(** The status and [rt->nworkers], [None] where [*out] was not written.  [out]
    says whether the pointer is not NULL. *)
Definition geas_runtime_init (cfg : option GeasRuntimeConfig) (out : bool) : B (GeasStatus * option Z) :=
  if negb out then mret (GEAS_ERR_TYPE, None) else
  let asks := match cfg with Some c => max_threads c | None => 0 end in
  if negb (asks =? 0) && (GEAS_POOL_MAX_THREADS <? asks) then mret (GEAS_ERR_TYPE, None) else
  let nworkers := if asks =? 0 then GEAS_POOL_DEFAULT_THREADS else asks in
  ok ← make RRuntime;
  if negb ok then mret (GEAS_ERR_OOM, None) else
  ok ← make RLock;
  if negb ok then destroy RRuntime;; mret (GEAS_ERR_OOM, None) else
  ok ← make RQmu;
  if negb ok then destroy RLock;; destroy RRuntime;; mret (GEAS_ERR_OOM, None) else
  ok ← make RQcv;
  if negb ok then destroy RQmu;; destroy RLock;; destroy RRuntime;; mret (GEAS_ERR_OOM, None) else
  ok ← make RWorkers;
  if negb ok then
    destroy RQcv;; destroy RQmu;; destroy RLock;; destroy RRuntime;; mret (GEAS_ERR_OOM, None)
  else
  ok ← create_workers (Z.to_nat nworkers) 0;
  mret (if ok : bool then (GEAS_OK, Some nworkers) else (GEAS_ERR_OOM, None)).

(** The head of [geas_runtime_shutdown], up to [free(rt->workers)], and its tail;
    the instances and the tables in between are [Task.geas_runtime_shutdown]. *)
Definition stop_workers (nworkers : Z) : B unit :=
  raise_qstop;; broadcast_qcv;; join_workers (Z.to_nat nworkers) 0;; destroy RWorkers.
Definition free_runtime : B unit := destroy RQcv;; destroy RQmu;; destroy RLock;; destroy RRuntime.

(** ** Instances and futures *)

(** The recursive mutex of an instance, whether it was made. *)
Definition mutex_init_recursive : B bool :=
  ok ← make RAttr;
  if negb ok then mret false else
  rc ← make RMutex;
  destroy RAttr;;
  mret rc.

(** Whether the future was made; it is linked on its instance then
    ([Task.future_new]). *)
Definition future_make : B bool :=
  ok ← make RFuture;
  if negb ok then mret false else
  ok ← make RFutMu;
  if negb ok then destroy RFuture;; mret false else
  ok ← make RFutCv;
  if negb ok then destroy RFutMu;; destroy RFuture;; mret false else
  mret true.
Definition future_free : B unit := destroy RFutMu;; destroy RFutCv;; destroy RFuture.
