(* ===== verification/BootProps.v ===== *)
(** * Bringing the runtime up: all of it or nothing

    [geas_runtime_init] over every pattern of refusals, and the shutdown of what
    it brought up. *)
From S2P Require Import Prelude Abi Boot.

(** ** What is held on the way up *)

Definition up : list resource := [RWorkers; RQcv; RQmu; RLock; RRuntime].

(** The ids of [n] workers from [i] on, the youngest first. *)
Fixpoint workers (i : Z) (n : nat) : list Z :=
  match n with O => [] | S n' => workers (i + 1) n' ++ [i] end.

Lemma workers_above i n x : x ∈ workers i n → i <= x.
Proof.
  revert i. induction n as [|n IH]; intros i; simpl; [by intros ?%elem_of_nil|].
  intros [H|H]%elem_of_app; [apply IH in H|apply list_elem_of_singleton in H]; lia.
Qed.
Lemma workers_next n i : workers i (S n) = (i + Z.of_nat n) :: workers i n.
Proof.
  revert i. induction n as [|n IH]; intros i.
  - simpl. f_equal. lia.
  - change (workers i (S (S n))) with (workers (i + 1) (S n) ++ [i]).
    rewrite IH. simpl. f_equal. lia.
Qed.

Lemma remove_last {A} `{EqDecision A} (x : A) l : x ∉ l → remove_one x (l ++ [x]) = l.
Proof.
  induction l as [|y l IH]; intros Hx; simpl.
  - by rewrite decide_True.
  - apply not_elem_of_cons in Hx as [Hy Hl]. by rewrite decide_False, IH.
Qed.

(** Joining every worker, all told to stop. *)
Lemma join_all n : ∀ j s, held s = up → running s = workers j n → told s = true →
  join_workers n j s = Done tt (put_running [] s).
Proof.
  induction n as [|n IH]; intros j s Hh Hr Ht.
  - simpl. unfold mret, B_ret. f_equal. destruct s; simpl in *. by subst.
  - simpl. unfold mbind, B_bind, pthread_join, all_held. rewrite Hh, Hr, Ht. simpl.
    rewrite bool_decide_true by (apply elem_of_app; right; by apply list_elem_of_singleton). simpl.
    rewrite remove_last by (intros H%workers_above; lia). rewrite IH; [|done..]. by destruct s.
Qed.

(** [runs e s Q]: [e] neither misuses an object nor hangs, and ends in [Q]. *)
Definition runs {A} (e : B A) (s : sys) (Q : A → sys → Prop) : Prop :=
  match e s with Done a s' => Q a s' | _ => False end.

Lemma runs_bind {A C} (e : B A) (k : A → B C) s Q : runs e s (λ a s', runs (k a) s' Q) → runs (e ≫= k) s Q.
Proof. unfold runs, mbind, B_bind. by destruct (e s). Qed.

Lemma runs_make {C} r (k : bool → B C) h l q t a g Q : forallb (λ x, bool_decide (x ∈ h)) (within r) = true →
  (g a = true → runs (k true) (Sys (r :: h) l q t (S a) g) Q) →
  (g a = false → runs (k false) (Sys h l q t (S a) g) Q) → runs (make r ≫= k) (Sys h l q t a g) Q.
Proof.
  intros Hw Ht Hf. apply runs_bind. unfold runs at 1, make, all_held. simpl. rewrite Hw. simpl. destruct (g a); auto.
Qed.

Lemma runs_mono {A} (e : B A) s (P Q : A → sys → Prop) : runs e s P → (∀ a s', P a s' → Q a s') → runs e s Q.
Proof. unfold runs. destruct (e s); eauto. Qed.

(** A request, and where the answers to the next [n] stand. *)
Definition granted (s : sys) (n : nat) : Prop := ∀ k, (k < n)%nat → grant s (asked s + k)%nat = true.
Definition refused (s : sys) (n : nat) : Prop := ∃ k, (k < n)%nat ∧ grant s (asked s + k)%nat = false.

Lemma granted_S s n : grant s (asked s) = true → granted (ask s) n → granted s (S n).
Proof.
  intros H0 H [|k] Hk; [by rewrite Nat.add_0_r|]. rewrite Nat.add_succ_r, <- Nat.add_succ_l. apply H. lia.
Qed.
Lemma refused_S s n : refused (ask s) n → refused s (S n).
Proof. intros (k & Hk & H). exists (S k). split; [lia|]. by rewrite Nat.add_succ_r, <- Nat.add_succ_l. Qed.
Lemma refused_0 s n : grant s (asked s) = false → refused s (S n).
Proof. intros H. exists 0%nat. split; [lia|]. by rewrite Nat.add_0_r. Qed.

(** Nothing is left, and some request of the [n] was refused. *)
Definition undone (s : sys) (n : nat) (s' : sys) : Prop := held s' = [] ∧ running s' = [] ∧ refused s n.

(** The workers told to stop and joined, whatever comes next. *)
Lemma runs_stop {C} n s (k : B C) Q : held s = up → running s = workers 0 n →
  (∀ s', held s' = up → running s' = [] → asked s' = asked s → grant s' = grant s → runs k s' Q) →
  runs (raise_qstop;; broadcast_qcv;; join_workers n 0;; k) s Q.
Proof.
  intros Hh Hr H. unfold runs, mbind, B_bind, raise_qstop, all_held. rewrite Hh. simpl.
  unfold broadcast_qcv, all_held. simpl. rewrite (join_all n 0) by done. by apply H.
Qed.

(** Everything freed, in the order of the code. *)
Lemma runs_free {C} s (a : C) (Q : C → sys → Prop) : held s = up → running s = [] →
  (∀ s', held s' = [] → running s' = [] → Q a s') →
  runs (destroy RWorkers;; destroy RQcv;; destroy RQmu;; destroy RLock;; destroy RRuntime;; mret a) s Q.
Proof. intros Hh Hr H. destruct s as [h r q t n g]. simpl in *. subst h r. by apply H. Qed.

Lemma create_all n : ∀ i s, held s = up → 0 <= i → running s = workers 0 (Z.to_nat i) →
  runs (create_workers n i) s (λ ok s', if ok : bool
    then held s' = up ∧ running s' = workers 0 (Z.to_nat i + n) ∧ granted s n
    else undone s n s').
Proof.
  induction n as [|n IH]; intros i s Hh Hi Hr.
  - simpl. unfold runs. simpl. rewrite Nat.add_0_r. split_and!; [done..|]. intros k. lia.
  - cbn [create_workers]. apply runs_bind. unfold runs at 1, pthread_create, all_held. rewrite Hh. simpl.
    destruct (grant s (asked s)) eqn:E; cbv iota beta.
    + assert (Er : running (put_running (i :: running s) (ask s)) = workers 0 (Z.to_nat (i + 1))).
      { simpl. rewrite Hr. replace (Z.to_nat (i + 1)) with (S (Z.to_nat i)) by lia. rewrite workers_next. f_equal. lia. }
      eapply runs_mono; [apply (IH (i + 1)); [done|lia|exact Er]|]. intros [] s'.
      * replace (Z.to_nat (i + 1) + n)%nat with (Z.to_nat i + S n)%nat by lia.
        intros (? & ? & Hg). split_and!; [done..|]. by apply granted_S.
      * intros (? & ? & Hg). split_and!; [done..|]. by apply refused_S.
    + apply runs_stop; [done..|]. intros s' Hh' Hr' _ _. apply runs_free; [done..|]. intros s'' ? ?.
      split_and!; [done..|]. by apply refused_0.
Qed.

Lemma stop_clears n s : held s = up → running s = workers 0 (Z.to_nat n) →
  runs (stop_workers n;; free_runtime) s (λ _ s', held s' = [] ∧ running s' = []).
Proof.
  intros Hh Hr. apply runs_bind, runs_stop with (k := destroy RWorkers); [done..|]. intros [h r q t a g] Hh' Hr' _ _.
  simpl in Hh', Hr'. by subst h r.
Qed.

(** ** Instances' mutexes and futures *)

Definition kept (l : list resource) (s s' : sys) : Prop := held s' = l ++ held s ∧ running s' = running s.

(** The attribute is gone either way; the mutex stays exactly when it was made. *)
Lemma mutex_init_recursive_runs s :
  runs mutex_init_recursive s (λ ok s', kept (if ok : bool then [RMutex] else []) s s').
Proof.
  destruct s as [h l q t a g]. unfold mutex_init_recursive. apply runs_make; [done| |done].
  intros _. cbv beta iota delta [negb]. apply runs_make; [done| |]; intros _; unfold runs, mbind, B_bind, destroy, all_held; simpl.
  - done.
  - done.
Qed.

(** A future keeps all three of its objects or none, and freeing it gives them back. *)
Lemma future_make_runs s :
  runs future_make s (λ ok s', kept (if ok : bool then [RFutCv; RFutMu; RFuture] else []) s s' ∧
    (ok = true → runs future_free s' (λ _ s'', kept [] s s''))).
Proof.
  destruct s as [h l q t a g]. unfold future_make.
  repeat (apply runs_make; [done|intros _|intros _]; cbv beta iota delta [negb]); done.
Qed.

(** ** The claim *)

Definition workers_of (cfg : option GeasRuntimeConfig) : Z :=
  match cfg with Some c => if max_threads c =? 0 then 4 else max_threads c | None => 4 end.

(** A start in full: every object and worker, or none. *)
Lemma runtime_init_runs cfg out s :
  held s = [] → running s = [] → 0 <= workers_of cfg →
  runs (geas_runtime_init cfg out) s (λ r s',
    if negb out || (256 <? workers_of cfg) then r = (GEAS_ERR_TYPE, None) ∧ s' = s else
    let n := Z.to_nat (workers_of cfg) in
    r = (GEAS_OK, Some (workers_of cfg)) ∧ granted s (5 + n) ∧ running s' = workers 0 n ∧
      runs (stop_workers (workers_of cfg);; free_runtime) s' (λ _ s'', held s'' = [] ∧ running s'' = []) ∨
    r = (GEAS_ERR_OOM, None) ∧ undone s (5 + n) s').
Proof.
  intros Hh Hr Hn. unfold geas_runtime_init. destruct out; [|done]. simpl negb. cbv iota.
  set (req := match cfg with Some c => max_threads c | None => 0 end).
  assert (En : (if req =? 0 then GEAS_POOL_DEFAULT_THREADS else req) = workers_of cfg).
  { unfold req, workers_of. by destruct cfg. }
  assert (Er : negb (req =? 0) && (GEAS_POOL_MAX_THREADS <? req) = (256 <? workers_of cfg)).
  { rewrite <- En. by destruct (req =? 0). }
  rewrite Er, En. simpl orb. destruct (256 <? workers_of cfg); [done|]. clear Er En req.
  set (n := Z.to_nat (workers_of cfg)). destruct s as [h r q t a g]. simpl in Hh, Hr. subst h r.
  repeat first [apply runs_make; [reflexivity|intros ?|intros ?] | progress cbv iota beta delta [negb]].
  2-6: assert (R : refused (Sys [] [] q t a g) (5 + n)) by (repeat first [by apply refused_0 | apply refused_S]);
    exact (or_intror (conj eq_refl (conj eq_refl (conj eq_refl R)))).
  apply runs_bind. eapply runs_mono; [by apply create_all|]. intros [] s'.
  - intros (Hh & Hr & Hg). left. split; [done|]. split; [repeat (apply granted_S; [done|]); exact Hg|].
    split; [done|]. by apply stop_clears.
  - intros (? & ? & R). right. split; [done|]. split_and!; [done..|]. by repeat (apply refused_S).
Qed.

(** C19: the runtime comes up whole or not at all.  A NULL [out] or more than 256
    threads is GEAS_ERR_TYPE before anything is asked of the system.  Otherwise,
    whatever the system refuses, no object is misused and no join hangs: if the
    five objects and every worker are granted the answer is GEAS_OK with as many
    workers running as were asked for, 4 by default, and if any is refused the
    answer is GEAS_ERR_OOM, every worker already started has been stopped and
    joined, and nothing is held.  Shutting down what came up stops and joins every
    worker and leaves nothing either. *)
Theorem runtime_init_all_or_nothing cfg out s :
  held s = [] → running s = [] → 0 <= workers_of cfg →
  runs (geas_runtime_init cfg out) s (λ r s',
    if negb out || (256 <? workers_of cfg) then r = (GEAS_ERR_TYPE, None) ∧ s' = s else
    let n := Z.to_nat (workers_of cfg) in
    r = (GEAS_OK, Some (workers_of cfg)) ∧ granted s (5 + n) ∧ running s' = workers 0 n ∧
      runs (stop_workers (workers_of cfg);; free_runtime) s' (λ _ s'', held s'' = [] ∧ running s'' = []) ∨
    r = (GEAS_ERR_OOM, None) ∧ undone s (5 + n) s').
Proof. apply runtime_init_runs. Qed.

(** The third thread is refused: the two that started are joined. *)
Definition boot_at (g : nat → bool) : sys := Sys [] [] false false 0 g.
Definition cramped : sys := boot_at (λ k, negb (k =? 7)%nat).

Lemma runtime_init_all_or_nothing_witness :
  runs (geas_runtime_init None true) cramped (λ r s', r = (GEAS_ERR_OOM, None) ∧ held s' = [] ∧ running s' = []) ∧
  runs (geas_runtime_init (Some (RuntimeConfig 2 0)) true) (boot_at (λ _, true))
    (λ r s', r = (GEAS_OK, Some 2) ∧ running s' = [1; 0]).
Proof.
  split; (eapply runs_mono; [apply runtime_init_all_or_nothing; [reflexivity|reflexivity|done]|]); intros r s'; simpl orb; cbv iota.
  - intros [(_ & Hg & _)|(-> & Hh & Hr & _)]; [|done]. by specialize (Hg 7%nat ltac:(vm_compute; lia)).
  - intros [(-> & _ & -> & _)|(_ & _ & _ & k & _ & Hk)]; [done|]. by simpl in Hk.
Defined.
