(* ===== verification/Host.v ===== *)
(** * The example host

    [src/skeleton/host.c]: the pledge body the host binds, its write-back callback,
    its argument and answer helpers, the worker threads, and [main] over the whole
    runtime.  The compiled module behind [dlopen] is a parameter, and so are which
    threads the system grants and the order in which the threads of each concurrent
    phase take their turns.  A turn is one synchronous fulfillment and is taken
    whole; what interleaves inside a fulfillment is [Pool].  When the second thread
    of a phase is refused the first is left running behind the shutdown: how many
    turns it gets before the runtime goes down, and how many between that and the
    end of the process, are parameters too.  What [main] prints is left out; each
    [return fail(..)] shuts the runtime down first, but for the very first. *)
From S2P Require Import Prelude Abi Memory Value Iname Frame Policy Store Future Lifecycle Task Boot.

Section Host.
Context `{SA : StoreApi}.

(** ** The bound body *)

(** [up.as.s.ptr[i]], read and written. *)
Definition load_byte (p : Z) (i : nat) : M Z :=
  bs <- load_bytes p (S i); match bs !! i with Some b => ret b | None => undef end.
Definition shout_byte (ch : Z) : Z := if (97 <=? ch) && (ch <=? 122) then u8 (ch - 32) else ch.
Fixpoint shout_loop (n : nat) (p : Z) (i : nat) : M unit :=
  match n with
  | O => ret tt
  | S n' =>
      ch <- load_byte p i;
      (if (97 <=? ch) && (ch <=? 122) then store_bytes p i [u8 (ch - 32)] else ret tt);;;
      shout_loop n' p (S i)
  end.

Definition host_shout (c args nargs : Z) : body :=
  if negb (nargs =? 1) then BRet GEAS_ERR_TYPE gzero else
  BMem (load_slot args 0) (λ a,
  if negb (is_ty GEAS_TY_STRING a) then BRet GEAS_ERR_TYPE gzero else
  BMem (geas_string_copy c (s_ptr a) (s_len a)) (λ up,
  if negb (s_len a =? 0) && (s_ptr up =? 0) then BRet GEAS_ERR_OOM gzero else
  BMem (shout_loop (Z.to_nat (s_len up)) (s_ptr up) 0;;;
        store_slot args 0 up;;;
        box <- geas_box c; ret (g_box GEAS_TY_RESULT 0 box)) (λ out,
  if as_box out =? 0 then BRet GEAS_ERR_OOM gzero else
  BMem (store_slot (as_box out) 0 up;;; ret out) (λ out, BRet GEAS_OK out)))).

(** ** The helpers *)

Definition SHOUT_CAP : Z := 32.
Definition copy_shout_out (v : GeasValue) (user : Z) : M unit :=
  let n := if s_len v <? SHOUT_CAP - 1 then s_len v else SHOUT_CAP - 1 in
  bs <- (if n =? 0 then ret [] else load_bytes (s_ptr v) (Z.to_nat n));
  store_bytes user 0 bs;;;
  store_bytes user (Z.to_nat n) [0].

(** A block of the host's own: a literal, a local. *)
Definition host_new (b : block) : W Z := λ w,
  let m := wm w in
  let p := next_addr w in
  WRet p (set_wm (Mem (<[p := b]> (heap m)) (owned m) (p + 1) (ticks m) (lib m)) w).
Definition literal (s : string) : W Z := host_new (BBytes (str_bytes s ++ [0])).

Definition str_arg (s : string) : W GeasValue := p ← literal s; mret (g_string p (Z.of_nat (String.length s))).

Definition check_ok_string (out : GeasValue) (want : string) : M bool :=
  if negb (is_ty GEAS_TY_RESULT out) || negb (tag out =? 0) then ret false else
  if as_box out =? 0 then ret false else
  inner <- load_slot (as_box out) 0;
  if negb (is_ty GEAS_TY_STRING inner) then ret false else
  if negb (s_len inner =? Z.of_nat (String.length want)) then ret false else
  if s_len inner =? 0 then ret true else
  bs <- load_bytes (s_ptr inner) (Z.to_nat (s_len inner)); ret (bool_decide (bs = str_bytes want)).

(** ** Its world *)

(** The addresses of the two functions it hands over. *)
Definition host_shout_fn : Z := 7001.
Definition copy_shout_out_fn : Z := 7002.

Context (dfuel fuel turns : nat).
Context (module_code : Z → Z → Z → Z → body).
Context (dlopen : string → option Z) (dlsym : Z → option registrar).
Context (spawn : nat → bool).      (* the n-th pthread_create of the host *)

Definition host_code (fn c frame nargs : Z) : body :=
  if fn =? host_shout_fn then host_shout c frame nargs else module_code fn c frame nargs.
Definition host_callback (fn host : Z) (v : GeasValue) (user : Z) : M unit :=
  if fn =? copy_shout_out_fn then copy_shout_out v user else undef.

Definition fulfill_sync (c : Z) (name : string) (args nargs : Z) (refs : ref_arg) : W (GeasStatus * GeasValue) :=
  fulfill_sync_queued dfuel host_code host_callback fuel turns c (Some name) args nargs refs.
Definition fulfill (c : Z) (name : string) (args nargs : Z) (refs : ref_arg) : W Z :=
  geas_pledge_fulfill dfuel c (Some name) args nargs refs.
Definition drain : W unit := pool_drain dfuel host_code host_callback fuel turns.
(** A wait that blocks is woken by the pool. *)
Definition wait (f : Z) : W (GeasStatus * GeasValue) :=
  r ← geas_future_wait host_callback f;
  match r with Some (st, v) => mret (st, default gzero v) | None => wnofuel end.
Definition sign (name : string) (vows : list GeasVowBinding) (hash : Z) : W (GeasStatus * Z) :=
  geas_contract_sign dfuel (Some name) (match vows with [] => None | _ => Some vows end) (Z.of_nat (length vows)) hash.

Definition on_rt {A} (f : GeasRuntime → A * GeasRuntime) : W A :=
  r ← get_rt; let '(a, r') := f r in put_rt r';; mret a.
Definition load_module (path : string) : W GeasStatus :=
  r ← get_rt;
  match geas_module_load dlopen dlsym r path with
  | Some (st, r') => put_rt r';; mret st
  | None => wundef
  end.

(** ** [main]

    A phase ends early at the first check that does not hold. *)
Definition GREET_ITERS : nat := 32.
Record GreetJob := Greet { g_c : Z; g_want : string; g_iters : nat; g_failures : Z }.

(** A worker thread left behind: its [name], its job, the turns it has to go. *)
Record stray := Stray { s_name : Z; s_job : GreetJob; s_turns : nat }.
Inductive ending (A : Type) := Went (a : A) | Failed (left : option stray).
#[global] Arguments Went {A} a.
#[global] Arguments Failed {A} left.

Definition H (A : Type) : Type := W (ending A).
#[local] Instance H_ret : MRet H := λ A a w, WRet (Went a) w.
#[local] Instance H_bind : MBind H := λ A C k e w,
  match e w with
  | WRet (Went a) w' => k a w' | WRet (Failed o) w' => WRet (Failed o) w'
  | WUndef => WUndef | WNoFuel => WNoFuel
  end.
Definition does {A} (e : W A) : H A := λ w,
  match e w with WRet a w' => WRet (Went a) w' | WUndef => WUndef | WNoFuel => WNoFuel end.
Definition ensure (b : bool) : H unit := λ w, WRet (if b then Went tt else Failed None) w.
Definition halt {A} : H A := λ w, WRet (Failed None) w.
Definition leave {A} (o : stray) : H A := λ w, WRet (Failed (Some o)) w.
Definition answers (st : GeasStatus) (want : GeasStatus) : H unit := ensure (bool_decide (st = want)).
Definition in_state (c : Z) (want : GeasContractState) : H unit :=
  st ← does (geas_contract_state c); ensure (bool_decide (st = want)).
Definition ok_string (st : GeasStatus) (out : GeasValue) (want : string) : H unit :=
  answers st GEAS_OK;; ok ← does (in_mem (check_ok_string out want)); ensure ok.

Definition HELLO : string := "target/geas-out/libhello.geas.so".
Definition GREET_MANGLED : string := "__geas_ash_Greeter_greet_17cef80f14421b9b_v1".
Definition GREET_WRONG : string := "__geas_ash_Greeter_greet_0000000000000000_v1".

Definition main_bind : H unit :=
  st ← does (load_module HELLO); answers st GEAS_OK;;
  '(st, _) ← does (sign "Greeter" [] 0); answers st GEAS_ERR_UNBOUND;;
  st ← does (on_rt (λ r, geas_pledge_bind r "Greeter.nope" host_shout_fn)); answers st GEAS_ERR_NAME;;
  st ← does (on_rt (λ r, geas_pledge_bind r "Greeter.shout" host_shout_fn)); answers st GEAS_OK.

Definition lookup_iname (name : string) : H (GeasStatus * option GeasInameEntry) :=
  r ← does get_rt;
  match geas_iname_lookup r name with Some a => mret a | None => does wundef end.

Definition main_discover : H GeasInameEntry :=
  '(st, ent) ← lookup_iname GREET_MANGLED; answers st GEAS_OK;;
  match ent with
  | None => halt
  | Some ent =>
      ensure (bool_decide (ie_kind ent = GEAS_INAME_PLEDGE) && str_eqb (ie_contract ent) "Greeter" &&
              bool_decide (ie_symbol ent = Some "greet"%string) && (ie_nargs ent =? 1) && (ie_version ent =? 1) &&
              negb (ie_shape_hash ent =? 0));;
      '(st, _) ← lookup_iname GREET_WRONG; answers st GEAS_ERR_NAME;;
      mret ent
  end.

(** Locals by address: an argument array, a [GeasString] and the bytes it names. *)
Definition arg_array (s : string) : H Z := v ← does (str_arg s); does (host_new (BVals [v])).
Definition gstring (s : string) : H Z :=
  p ← does (literal s);
  does (host_new (BBytes (le_bytes 8 p ++ le_bytes 8 (Z.of_nat (String.length s))))).
(** [strcmp(p, want) == 0] over an array of [n] bytes. *)
Definition c_string_at (p : Z) (n : nat) (want : string) : H bool :=
  bs ← does (in_mem (load_bytes p n)); mret (str_eqb (c_string bs) want).

Definition main_default (ent : GeasInameEntry) (name : Z) : H Z :=
  '(st, c) ← does (sign (ie_contract ent) [] (ie_shape_hash ent)); answers st GEAS_OK;;
  in_state c GEAS_SIGNED;;
  h ← does (geas_contract_hash c); ensure (negb (h =? 0));;
  at_ ← does (geas_contract_signed_at c); ensure (negb (at_ <=? 0));;
  '(st, out) ← does (fulfill_sync c "greet" name 1 (RNull 0));
  ok_string st out "hello, world";;
  in_state c GEAS_SIGNED;;
  mret c.

Definition main_shout (c : Z) : H unit :=
  by_ref ← gstring "whisper";
  '(st, out) ← does (fulfill_sync c "shout" 0 0 (RArr [Ref by_ref (tag_num GEAS_TY_STRING) 0 0 0]));
  ok_string st out "WHISPER";;
  '(p, n) ← does (in_mem (load_gstring by_ref));
  ensure (n =? 7);;
  bs ← does (in_mem (load_bytes p 7)); ensure (bool_decide (bs = str_bytes "WHISPER"));;
  in_state c GEAS_FULFILLED.

Definition main_shout_future (c : Z) : H unit :=
  sink ← does (host_new (BBytes (replicate (Z.to_nat SHOUT_CAP) 0)));
  by_ref2 ← gstring "quiet";
  fr ← does (fulfill c "shout" 0 0 (RArr [Ref by_ref2 (tag_num GEAS_TY_STRING) SHOUT_CAP copy_shout_out_fn sink]));
  ensure (negb (fr =? 0));;
  empty ← c_string_at sink 32 ""; ensure empty;;
  does drain;;
  '(st, rout) ← does (wait fr);
  ok_string st rout "QUIET";;
  full ← c_string_at sink 32 "QUIET"; ensure full.

Definition main_errors (c : Z) : H unit :=
  '(st, _) ← does (fulfill_sync c "nope" 0 0 (RNull 0)); answers st GEAS_ERR_NAME;;
  '(st, _) ← does (sign "Nope" [] 0); answers st GEAS_ERR_NAME.

Definition main_override (name : Z) : H Z :=
  v ← does (str_arg "hey, ");
  '(st, c3) ← does (sign "Greeter" [VowBinding (Some "prefix"%string) v] 0); answers st GEAS_OK;;
  '(st, out) ← does (fulfill_sync c3 "greet" name 1 (RNull 0));
  ok_string st out "hey, world";;
  vref ← does (geas_vow_ref c3 (Some "prefix"%string));
  match vref with
  | None => halt
  | Some (p, i) =>
      v ← does (in_mem (load_slot p i)); ensure (is_ty GEAS_TY_STRING v && (s_len v =? 5));;
      x ← does (str_arg "x");
      '(st, _) ← does (sign "Greeter" [VowBinding (Some "nope"%string) x] 0); answers st GEAS_ERR_NAME;;
      '(st, _) ← does (sign "Greeter" [VowBinding (Some "prefix"%string) (g_scalar GEAS_TY_INT 7)] 0);
      answers st GEAS_ERR_TYPE;;
      mret c3
  end.

Definition main_future (c3 name : Z) : H unit :=
  f ← does (fulfill c3 "greet" name 1 (RNull 0)); ensure (negb (f =? 0));;
  does drain;;
  '(st, fout) ← does (wait f);
  ok_string st fout "hey, world";;
  '(st, _) ← does (wait f); answers st GEAS_ERR_STATE.

Definition main_signature (c3 : Z) : H unit :=
  hash ← does (geas_contract_hash c3);
  '(st, _) ← does (sign "Greeter" [] hash); answers st GEAS_OK;;
  '(st, _) ← does (sign "Greeter" [] (u64 (hash + 1))); answers st GEAS_ERR_VERSION.

Definition main_break (c name : Z) : H unit :=
  st ← does (geas_contract_break c); answers st GEAS_OK;;
  in_state c GEAS_BROKEN;;
  '(st, _) ← does (fulfill_sync c "greet" name 1 (RNull 0)); answers st GEAS_ERR_STATE;;
  f2 ← does (fulfill c "greet" name 1 (RNull 0)); ensure (negb (f2 =? 0));;
  does drain;;
  '(st, _) ← does (wait f2); answers st GEAS_ERR_STATE.

(** ** The concurrent phases *)

(** One turn of [greet_worker]'s loop, its [name] at an address. *)
Definition greet_turn (name : Z) (job : GreetJob) : W GreetJob :=
  '(st, out) ← fulfill_sync (g_c job) "greet" name 1 (RNull 0);
  ok ← (if st_ok st then in_mem (check_ok_string out (g_want job)) else mret false);
  mret (Greet (g_c job) (g_want job) (g_iters job) (if ok : bool then g_failures job else g_failures job + 1)).
Fixpoint greet_worker (n : nat) (name : Z) (job : GreetJob) : W GreetJob :=
  match n with O => mret job | S n' => job ← greet_turn name job; greet_worker n' name job end.

(** Two workers, [i] and [j] turns left to them, by turns: [true] is the first's. *)
Fixpoint two_workers (turn : list bool) (i j : nat) (na nb : Z) (a b : GreetJob) : W (GreetJob * GreetJob) :=
  match turn, i, j with
  | true :: turn, S i, _ => a ← greet_turn na a; two_workers turn i j na nb a b
  | false :: turn, _, S j => b ← greet_turn nb b; two_workers turn i j na nb a b
  | _ :: turn, _, _ => two_workers turn i j na nb a b
  | [], _, _ => a ← greet_worker i na a; b ← greet_worker j nb b; mret (a, b)
  end.
(** [pthread_create] twice, the [i]-th of the host and the next; both joined.  With
    the second refused the first has made [early] turns when the host gives up. *)
Definition run_workers (i early : nat) (turn : list bool) (a b : GreetJob) : H unit :=
  ensure (spawn i);;
  na ← arg_array "world";
  if negb (spawn (S i)) then
    let n := min early (g_iters a) in
    a ← does (greet_worker n na a); leave (Stray na a (g_iters a - n))
  else
  nb ← arg_array "world";
  '(a, b) ← does (two_workers turn (g_iters a) (g_iters b) na nb a b);
  ensure ((g_failures a =? 0) && (g_failures b =? 0)).

Definition greet_job (c : Z) : GreetJob := Greet c "hello, world" GREET_ITERS 0.
Definition main_threads (early : nat) (same apart : list bool) : H unit :=
  '(st, tc1) ← does (sign "Greeter" [] 0); answers st GEAS_OK;;
  '(st, tc2) ← does (sign "Greeter" [] 0); answers st GEAS_OK;;
  run_workers 0 early same (greet_job tc1) (greet_job tc1);;
  run_workers 2 early apart (greet_job tc1) (greet_job tc2).

(** How the waiter, the pool and the break fall out: delivered before the break,
    run before it and waited after, or forfeited in the queue. *)
Inductive race_order := Delivered | RanFirst | BrokenFirst.

Definition wait_worker (f : Z) : W GeasStatus := '(st, _) ← wait f; mret st.
Definition break_ok (c : Z) : H unit := st ← does (geas_contract_break c); answers st GEAS_OK.
Definition race_status (race : race_order) (rc f : Z) : H GeasStatus :=
  match race with
  | Delivered => does drain;; st ← does (wait_worker f); break_ok rc;; mret st
  | RanFirst => does drain;; break_ok rc;; does (wait_worker f)
  | BrokenFirst => break_ok rc;; does drain;; does (wait_worker f)
  end.
Definition main_race (race : race_order) (name : Z) : H unit :=
  '(st, rc) ← does (sign "Greeter" [] 0); answers st GEAS_OK;;
  f ← does (fulfill rc "greet" name 1 (RNull 0)); ensure (negb (f =? 0));;
  ensure (spawn 4);;
  status ← race_status race rc f;
  ensure (bool_decide (status = GEAS_OK ∨ status = GEAS_ERR_STATE)).

(** ** Freeze and dump *)

Definition main_freeze (ent : GeasInameEntry) (name : Z) : H unit :=
  st ← does (on_rt geas_runtime_freeze); answers st GEAS_OK;;
  st ← does (on_rt geas_runtime_freeze); answers st GEAS_OK;;
  st ← does (on_rt (λ r, geas_pledge_bind r "Greeter.shout" host_shout_fn)); answers st GEAS_ERR_STATE;;
  st ← does (load_module HELLO); answers st GEAS_ERR_STATE;;
  '(st, fc) ← does (sign (ie_contract ent) [] (ie_shape_hash ent)); answers st GEAS_OK;;
  '(st, out) ← does (fulfill_sync fc "greet" name 1 (RNull 0));
  ok_string st out "hello, world".

(** [strstr(s, x)] *)
Fixpoint contains (x s : string) : bool :=
  String.prefix x s || match s with EmptyString => false | String _ s' => contains x s' end.

Definition main_dump : H unit :=
  r ← does get_rt;
  let '(st, dneed, _) := geas_iname_dump r false 0 in
  answers st GEAS_ERR_OOM;;
  ensure (negb (default 0 dneed <=? 1));;
  ok ← does (in_mem (sys_alloc (default 0 dneed))); ensure ok;;
  let '(st, dneed', dump) := geas_iname_dump r true (default 0 dneed) in
  answers st GEAS_OK;;
  let text := default "" dump in
  ensure ((Z.of_nat (String.length text) + 1 =? default 0 dneed') && contains GREET_MANGLED text).

(** Every check in order. *)
Definition main_checks (race : race_order) (early : nat) (same apart : list bool) : H unit :=
  main_bind;;
  ent ← main_discover;
  name ← arg_array "world";
  c ← main_default ent name;
  main_shout c;;
  main_shout_future c;;
  main_errors c;;
  c3 ← main_override name;
  main_future c3 name;;
  main_signature c3;;
  main_break c name;;
  main_threads early same apart;;
  main_race race name;;
  main_freeze ent name;;
  main_dump.

(** The exit code and what is left of the system's objects, [boot] being what the
    system makes of [geas_runtime_init].  [geas_runtime_shutdown] is the pool's half,
    the instances and the tables, the runtime's own objects.  A thread left behind
    has [late] more turns at the freed runtime before the process ends. *)
Definition on_sys {A} (e : B A) (s : sys) : W (A * sys) :=
  match e s with Done a s' => mret (a, s') | Bad => wundef | Hang => wnofuel end.
Definition main (boot : sys) (race : race_order) (early late : nat) (same apart : list bool) : W (Z * sys) :=
  '(st, nworkers, s) ← on_sys (geas_runtime_init None true) boot;
  if negb (st_ok st) then mret (1, s) else
  r ← main_checks race early same apart;
  '(_, s) ← on_sys (stop_workers (default 0 nworkers)) s;
  geas_runtime_shutdown dfuel host_code host_callback fuel turns;;
  '(_, s) ← on_sys free_runtime s;
  match r with
  | Went _ => mret (0, s)
  | Failed None => mret (1, s)
  | Failed (Some o) => greet_worker (min late (s_turns o)) (s_name o) (s_job o);; mret (1, s)
  end.
End Host.
