(* ===== verification/HostProps.v ===== *)
(** * The example host: the theorems

    [host_shout] on every argument and in every world, the way out of [main], and
    two runs of [main]. *)
From S2P Require Import Prelude Abi Boot BootProps Memory Value ValueSpec Iname Frame Policy Store StoreMem ValueProps Future Lifecycle LifecycleSpec Task SignSpec TaskSpec TaskProps Host.

(** ** The bound body *)

(** The bytes [i], ..., [i + n - 1] shouted. *)
Fixpoint shouted (n i : nat) (raw : list Z) : list Z :=
  match n with O => raw | S n' => shouted n' (S i) (alter shout_byte i raw) end.

Lemma length_shouted n : ∀ i raw, length (shouted n i raw) = length raw.
Proof. induction n as [|n IH]; intros i raw; simpl; [done|]. by rewrite IH, length_alter. Qed.
Lemma lookup_shouted n : ∀ i raw j,
  shouted n i raw !! j = (if decide (i ≤ j < i + n)%nat then shout_byte else id) <$> raw !! j.
Proof.
  induction n as [|n IH]; intros i raw j; cbn [shouted].
  { rewrite decide_False by lia. by rewrite option_fmap_id. }
  rewrite IH. destruct (decide (j = i)) as [->|Hne].
  - rewrite list_lookup_alter_eq, decide_False, decide_True, option_fmap_id by lia. done.
  - rewrite list_lookup_alter_ne by done. do 2 case_decide; (done || lia).
Qed.
Lemma take_shouted bs raw : take (length bs) raw = bs → take (length bs) (shouted (length bs) 0 raw) = map shout_byte bs.
Proof.
  intros Ht. apply list_eq. intros j. change (map shout_byte bs) with (shout_byte <$> bs).
  rewrite list_lookup_fmap. destruct (decide (j < length bs)%nat) as [Hj|Hj].
  - rewrite lookup_take_lt, lookup_shouted, decide_True by lia. by rewrite <- Ht, lookup_take_lt.
  - rewrite lookup_take_ge, (lookup_ge_None_2 bs) by lia. done.
Qed.

Lemma wp_shout_loop p n : ∀ i raw m, heap m !! p = Some (BBytes raw) → (i + n ≤ length raw)%nat →
  wp (shout_loop n p i) m (λ _ m', m' = set_heap (λ h, <[p := BBytes (shouted n i raw)]> h) m).
Proof.
  induction n as [|n IH]; intros i raw m Hp Hn; cbn [shout_loop shouted].
  { apply wp_ret. unfold set_heap. rewrite insert_id by done. by destruct m. }
  destruct (lookup_lt_is_Some_2 raw i ltac:(lia)) as [ch Hch].
  apply wp_bind. unfold load_byte. apply wp_bind. eapply wp_load_bytes; [done|lia|].
  rewrite lookup_take_lt, Hch by lia. apply wp_ret, wp_bind.
  assert (Ea : alter shout_byte i raw = <[i := shout_byte ch]> raw).
  { apply list_eq. intros j. destruct (decide (j = i)) as [->|Hj].
    - rewrite list_lookup_alter_eq, list_lookup_insert_eq, Hch by lia. done.
    - by rewrite list_lookup_alter_ne, list_lookup_insert_ne. }
  enough (H : wp (if (97 <=? ch) && (ch <=? 122) then store_bytes p i [u8 (ch - 32)] else ret tt) m
    (λ _ m', m' = set_heap (λ h, <[p := BBytes (alter shout_byte i raw)]> h) m)).
  { eapply wp_mono; [exact H|]. intros _ m' ->. eapply wp_mono.
    - apply (IH (S i) (alter shout_byte i raw)); [apply lookup_insert_eq|rewrite length_alter; lia].
    - intros _ m2 ->. unfold set_heap. simpl. by rewrite insert_insert_eq. }
  rewrite Ea. unfold shout_byte. destruct (_ && _).
  - eapply wp_store_bytes; [done|simpl; lia|]. simpl. done.
  - apply wp_ret. unfold set_heap. rewrite list_insert_id, insert_id by done. by destruct m.
Qed.

(** The copy, and its bytes in upper case. *)
Lemma wp_shout_copy c v bs tg m : mem_wf m → live c m → repr (heap m) v (VString tg bs) →
  wp (geas_string_copy c (s_ptr v) (s_len v)) m (λ up m1,
    if negb (s_len v =? 0) && (s_ptr up =? 0) then refused m m1 ∧ ∃ hn, grown c m hn m1 else
    wp (shout_loop (Z.to_nat (s_len up)) (s_ptr up) 0) m1 (λ _ m', ∃ hn, grown c m hn m' ∧
      repr hn up (VString 0 (map shout_byte bs)))).
Proof.
  intros Hwf Hl (_ & _ & Hlen & Hf & Hp). rewrite Hlen.
  eapply wp_mono; [apply wp_string_copy; done|]. intros d m1 (h1 & G & [[Hd Hr]|[-> Href]]).
  - rewrite (proj2 (Z.eqb_neq (s_ptr d) 0)), andb_false_r by done.
    destruct Hr as (Hty & Htg & Hdl & _ & Hraw). rewrite Hdl, Nat2Z.id. destruct Hraw as [->|(_ & raw & Hraw & Ht)].
    + apply wp_ret. exists h1. split; [done|]. split_and!; auto.
    + assert (Hn : (length bs ≤ length raw)%nat) by (rewrite <- Ht, length_take; lia).
      eapply wp_mono; [apply (wp_shout_loop _ _ 0 raw); [|lia]|].
      { eapply lookup_weaken; [exact Hraw|by eapply grown_incl_new]. }
      intros _ m2 ->. eexists. split; [by eapply grown_update|].
      split_and!; auto; rewrite ?length_map; auto. right. split; [done|]. eexists. split; [apply lookup_insert_eq|].
      by apply take_shouted.
  - destruct (Z.eqb_spec (Z.of_nat (length bs)) 0) as [E|E]; simpl; [|by eauto].
    apply wp_ret. exists h1. split; [done|]. destruct bs; [|done]. split_and!; auto.
Qed.

(** Nothing but slot 0 of the frame changed of what was there. *)
Definition only_slot (c args : Z) (ss : list GeasValue) (up : GeasValue) (m m' : mem) : Prop :=
  mem_wf m' ∧ live c m' ∧ heap m' !! args = Some (BVals (up :: ss)) ∧
  (∀ p b, p ≠ args → heap m !! p = Some b → heap m' !! p = Some b) ∧
  (∀ d, d ≠ c → owned m' !! d = owned m !! d).

Definition shout_post (c args : Z) (a : GeasValue) (ss : list GeasValue) (t : val) (m : mem)
    (st : GeasStatus) (out : GeasValue) (m' : mem) : Prop :=
  match t with
  | VString _ bs =>
      let loud := VString 0 (map shout_byte bs) in
      (st = GEAS_OK ∧ repr (heap m') out (VBox GEAS_TY_RESULT 0 (Some loud)) ∧
         ∃ up, repr (heap m') up loud ∧ only_slot c args ss up m m') ∨
      (st = GEAS_ERR_OOM ∧ out = gzero ∧ refused m m' ∧ ∃ up, only_slot c args ss up m m')
  | _ => st = GEAS_ERR_TYPE ∧ out = gzero ∧ m' = m
  end.

Lemma only_slot_grown c args ss up a m hn m1 : mem_wf m → live c m → heap m !! args = Some (BVals (a :: ss)) →
  grown c m hn m1 → only_slot c args ss up m (set_heap (λ h, <[args := BVals (up :: ss)]> h) m1).
Proof.
  intros Hwf Hl Ha G. pose proof (grown_incl _ _ _ _ G) as Hsub.
  assert (Ha1 : is_Some (heap m1 !! args)) by (eexists; by eapply lookup_weaken).
  split_and!.
  - apply mem_wf_update; [by destruct G|done].
  - exact (grown_live _ _ _ _ G Hl).
  - apply lookup_insert_eq.
  - intros p b Hp Hb. simpl. rewrite lookup_insert_ne by done. by eapply lookup_weaken.
  - intros d Hd. simpl. destruct G as [_ _ _ _ (n & o & _ & -> & _) _ _ _]. by rewrite lookup_insert_ne.
Qed.

Lemma only_slot_trans c args ss up m m1 hn m2 : only_slot c args ss up m m1 → grown c m1 hn m2 → only_slot c args ss up m m2.
Proof.
  intros (W & L & A & K & O) G. pose proof (grown_incl _ _ _ _ G) as Hsub. split_and!.
  - by destruct G.
  - exact (grown_live _ _ _ _ G L).
  - by eapply lookup_weaken.
  - intros p b Hp Hb. eapply lookup_weaken; [by apply K|done].
  - intros d Hd. destruct G as [_ _ _ _ (n & o & _ & -> & _) _ _ _]. by rewrite lookup_insert_ne, O.
Qed.

Lemma body_wp_mono `{SA : StoreApi} c ct (Q Q' : GeasStatus → GeasValue → mem → Prop) b : ∀ m,
  body_wp c ct Q b m → (∀ st out m', Q st out m' → Q' st out m') → body_wp c ct Q' b m.
Proof.
  induction b as [| f k IH|x name k IH|x q k IH| | |]; intros m Hb HQ; cbn [body_wp] in *; try done; auto.
  - eapply wp_mono; [exact Hb|]. eauto.
  - destruct Hb as (? & ? & ?). eauto.
  - destruct Hb as [? Hb]. eauto.
Qed.

Section Shout.
Context `{SA : StoreApi}.

(** Bodies of memory steps alone leave the rest of the world as it was. *)
Inductive mem_body : body → Prop :=
| mem_ret st out : mem_body (BRet st out)
| mem_step f k : (∀ v, mem_body (k v)) → mem_body (BMem f k).

Lemma run_mem_body dfuel fulfill b : mem_body b → ∀ w r w',
  run_body dfuel fulfill b w = WRet r w' → ∃ m, w' = set_wm m w.
Proof.
  induction 1 as [st out|f k _ IH]; intros w r w' Hr; cbn [run_body] in Hr.
  - injection Hr as _ <-. exists (wm w). by destruct w.
  - apply W_bind_inv in Hr as (v & w1 & (m1 & _ & ->)%in_mem_inv & Hr).
    destruct (IH _ _ _ _ Hr) as (m & ->). by exists m.
Qed.

Lemma shout_mem_body c args nargs : mem_body (host_shout c args nargs).
Proof.
  unfold host_shout. destruct (negb (nargs =? 1)); [constructor|]. constructor. intros a.
  destruct (negb (is_ty GEAS_TY_STRING a)); [constructor|]. constructor. intros up.
  destruct (_ && _); [constructor|]. constructor. intros out. destruct (as_box out =? 0); repeat constructor.
Qed.

Lemma shout_wp c ct args nargs a ss t m : mem_wf m → live c m →
  heap m !! args = Some (BVals (a :: ss)) → repr (heap m) a t →
  body_wp c ct (λ st out m', if nargs =? 1 then shout_post c args a ss t m st out m'
                             else st = GEAS_ERR_TYPE ∧ out = gzero ∧ m' = m)
    (host_shout c args nargs) m.
Proof.
  intros Hwf Hl Ha Hr. unfold host_shout. destruct (nargs =? 1); simpl negb; cbv iota; [|done].
  cbn [body_wp]. eapply wp_load_slot; [exact Ha|done|]. unfold is_ty. rewrite (repr_ty _ _ _ Hr).
  destruct (decide (val_ty t = GEAS_TY_STRING)) as [E|E]; cycle 1.
  { rewrite (proj2 (Z.eqb_neq _ _)) by (intros ?%tag_num_inj; done). destruct t; try done; simpl in E; done. }
  rewrite E, Z.eqb_refl. simpl negb. cbv iota. cbn [body_wp]. destruct t as [k| tg bs | |]; simpl in E.
  1,3,4: destruct Hr as (_ & Hk & _); by subst k.
  eapply wp_mono; [by eapply wp_shout_copy|]. cbv beta. intros up m1 Hup.
  assert (Hoom : ∀ m', refused m m' → (∃ hn, grown c m hn m') → refused m m' ∧ ∃ up', only_slot c args ss up' m m').
  { intros m' Hf (hn & G). split; [done|]. exists a. pose proof (grown_incl _ _ _ _ G) as Hsub. split_and!.
    - by destruct G.
    - exact (grown_live _ _ _ _ G Hl).
    - by eapply lookup_weaken.
    - intros p b _ Hb. exact (lookup_weaken _ _ _ _ Hb Hsub).
    - intros d Hd. destruct G as [_ _ _ _ (n & o & _ & -> & _) _ _ _]. by rewrite lookup_insert_ne. }
  revert Hup. destruct (negb (s_len a =? 0) && (s_ptr up =? 0)); intros Hup.
  { cbn [body_wp shout_post]. right. split; [done|]. split; [done|]. destruct Hup; by apply Hoom. }
  cbn [body_wp]. apply wp_bind. eapply wp_mono; [exact Hup|]. intros _ m2 (h2 & G & Hru). clear Hup.
  pose proof (only_slot_grown c args ss up a m h2 m2 Hwf Hl Ha G) as S3.
  assert (Ha2 : heap m2 !! args = Some (BVals (a :: ss))) by (eapply lookup_weaken; [exact Ha|by eapply grown_incl]).
  apply wp_bind. eapply wp_store_slot; [exact Ha2|simpl; lia|]. simpl. set (m3 := set_heap _ m2) in *.
  assert (Hru3 : repr (heap m3) up (VString 0 (map shout_byte bs))).
  { eapply repr_mono; [|exact Hru]. apply insert_subseteq_r; [|by eapply grown_incl_new].
    destruct G as [_ _ F _ _ _ _ _]. by eapply map_disjoint_Some_r. }
  assert (R3 : ∀ m', refused m3 m' → refused m m').
  { intros m' Hf. eapply refused_trans_r; [exact G|exact Hf]. }
  destruct (S3) as (W3 & L3 & _). apply wp_bind, wp_geas_box; [done..| |].
  - intros m4 G4 Hb. apply wp_ret. simpl. rewrite (proj2 (Z.eqb_neq _ _)) by done. cbn [body_wp]. apply wp_bind.
    eapply (wp_store_slot _ _ _ _ _ [gzero]); [eapply lookup_weaken; [apply lookup_singleton_eq|by eapply grown_incl_new]|simpl; lia|].
    apply wp_ret. cbn [body_wp shout_post]. left. split; [done|].
    pose proof (grown_update _ _ _ _ _ _ (BVals [up]) G4 (lookup_singleton_eq _ _)) as G5.
    simpl. set (m5 := set_heap _ m4) in *.
    assert (Hr5 : repr (heap m5) up (VString 0 (map shout_byte bs))) by (eapply repr_mono; [by eapply grown_incl|exact Hru3]).
    split.
    + split_and!; [done..|]. exists up, []. split; [|done]. apply lookup_insert_eq.
    + exists up. split; [done|]. by eapply only_slot_trans.
  - intros m4 G4 Hf. apply wp_ret. cbn [as_box g_box w0 body_wp]. right. split; [done|]. split; [done|]. split; [by apply R3|].
    exists up. by eapply only_slot_trans.
Qed.

(** C40: the body the host binds over [Greeter.shout], run as a worker runs it, in
    any world.  It always comes back, and only memory has moved.  On a frame of one
    string it answers Ok of that string in upper case, byte by byte, boxed in
    blocks of the instance, and leaves the same bytes in the frame's slot for the
    write back; the caller's own bytes and every other block stay as they were.  A
    refused allocation is GEAS_ERR_OOM, with no value, and another type or another
    number of arguments is GEAS_ERR_TYPE with nothing touched. *)
Theorem host_shout_correct dfuel fulfill c ct args nargs a ss t w :
  ci w !! c = Some ct → mem_wf (wm w) → live c (wm w) →
  heap (wm w) !! args = Some (BVals (a :: ss)) → repr (heap (wm w)) a t →
  ∃ st out m', run_body dfuel fulfill (host_shout c args nargs) w = WRet (st, out) (set_wm m' w) ∧
    if nargs =? 1 then shout_post c args a ss t (wm w) st out m'
    else st = GEAS_ERR_TYPE ∧ out = gzero ∧ m' = wm w.
Proof.
  intros Hc Hwf Hl Ha Hr.
  destruct (run_body_wp dfuel c _ _ w ct fulfill Hc (shout_wp c ct args nargs a ss t (wm w) Hwf Hl Ha Hr))
    as (st & out & w' & Hrun & _ & _ & HQ).
  destruct (run_mem_body _ _ _ (shout_mem_body c args nargs) _ _ _ Hrun) as (m' & ->). eauto.
Qed.
End Shout.

(** One run of the pledge: the text "hi" in a frame of its instance. *)
Definition hi_frame : mem := set_heap (λ h, <[12 := BVals [hi_text]]> h) demo_mem.
Definition hi_world : world (SA := mem_store) :=
  World hi_frame {[2 := Contract (plain_desc "Greeter" 7 1 []) GEAS_SIGNED 0 [] 0 0 None [] None None]}
    (MemBase 0 0 false false) (Runtime [] [] [] [] 0 false [] 0 (λ _ _, true)) [2] 1000 ∅ ∅ [].

Lemma host_shout_correct_witness :
  ∃ st out m', run_body (SA := mem_store) 5 (λ _ _ _ _ _, wundef) (host_shout 2 12 1) hi_world =
      WRet (st, out) (set_wm m' hi_world) ∧
    (st = GEAS_OK ∧ (∃ up, repr (heap m') up (VString 0 [72; 73]) ∧ heap m' !! 12 = Some (BVals [up])) ∨
     st = GEAS_ERR_OOM ∧ out = gzero).
Proof.
  assert (Hwf : mem_wf hi_frame) by (apply mem_wf_update; [apply demo_mem_wf|by eexists]).
  assert (Hl : live 2 hi_frame) by (split; [done|by eexists]).
  assert (Hr : repr (heap hi_frame) hi_text (VString 0 [104; 105])).
  { split_and!; try done. right. split; [done|]. by exists [104; 105]. }
  destruct (host_shout_correct (SA := mem_store) 5 (λ _ _ _ _ _, wundef) 2
    (Contract (plain_desc "Greeter" 7 1 []) GEAS_SIGNED 0 [] 0 0 None [] None None) 12 1 hi_text []
    (VString 0 [104; 105]) hi_world eq_refl Hwf Hl eq_refl Hr) as (st & out & m' & Hrun & HQ).
  exists st, out, m'. split; [exact Hrun|].
  destruct HQ as [(-> & _ & up & Hu & (_ & _ & Hs & _))|(-> & -> & _)]; [left|by right].
  split; [done|]. by exists up.
Defined.

(** ** [main]

    Whatever the loaded module, the system's grants, the schedules and the race are,
    every way out of [main] has taken the runtime down: the exit code is 0 or 1, no
    object of the system's is held and every pool worker has been joined. *)
Lemma main_exits `{SA : StoreApi} dfuel fuel turns module_code dlopen dlsym spawn boot race early late same apart w z s w' :
  held boot = [] → running boot = [] →
  main dfuel fuel turns module_code dlopen dlsym spawn boot race early late same apart w = WRet (z, s) w' →
  (z = 0 ∨ z = 1) ∧ held s = [] ∧ running s = [].
Proof.
  intros Hh Hr Hm. unfold main in Hm.
  pose proof (runtime_init_runs None true boot Hh Hr ltac:(done)) as Hi. unfold runs in Hi.
  apply W_bind_inv in Hm as ([[st n] s1] & w0 & Hb & Hm). unfold on_sys in Hb.
  destruct (geas_runtime_init None true boot) as [r1 s1'| |]; [|done..]. cbv beta iota in Hb, Hi; injection Hb as -> -> ->.
  destruct Hi as [(E & _ & _ & Hdown)|(E & Hh1 & Hr1 & _)]; injection E as -> ->; cbn [st_ok negb] in Hm.
  2: { injection Hm as <- <- _. split_and!; [by right|done..]. }
  change (workers_of None) with 4 in Hdown. apply W_bind_inv in Hm as (r & w1 & _ & Hm).
  apply W_bind_inv in Hm as ([u2 s2] & w2 & Hs & Hm). unfold on_sys in Hs. unfold runs, mbind, B_bind in Hdown.
  change (default 0 (Some 4)) with 4 in Hs. destruct (stop_workers 4 s1) as [u s2'| |]; [|done..]. cbv beta iota in Hs, Hdown; injection Hs as _ -> ->.
  apply W_bind_inv in Hm as (u3 & w3 & _ & Hm). apply W_bind_inv in Hm as ([u4 s4] & w4 & Hf & Hm).
  unfold on_sys in Hf. destruct (free_runtime s2) as [u5 s5| |]; [|done..]. cbv beta iota in Hf, Hdown; injection Hf as _ -> ->.
  destruct Hdown as [Hh4 Hr4].
  destruct r as [?|[o|]]; [|apply W_bind_inv in Hm as (j & w5 & _ & Hm)|]; injection Hm as <- <- _; auto.
Qed.

(** ** Two runs

    [main] against a module written after [src/skeleton/hello.geas]: one vow with a
    default, a pledge with a body and an abstract one.  The compiler's output is not
    under [src/]; this stands in for it so that the definitions can be run.  The
    default's bytes are the module's, at address 5. *)
Definition greet_fn : Z := 900.
Definition greeter : GeasContractDesc :=
  ContractDesc "Greeter" 1234567 1
    [PledgeDesc "greet" (Some GREET_MANGLED) 1 greet_fn (-1);
     PledgeDesc "shout" (Some "__geas_ash_Greeter_shout_17cef80f14421b9b_v1"%string) 1 0 (-1)]
    [VowDesc "prefix" (tag_num GEAS_TY_STRING) 1 (g_string 5 7)] [] [] 0 [] [] [] [] None.

(** [return Ok(prefix + name)] *)
Definition greet (c frame : Z) : body (SA := mem_store) :=
  BVow (SA := mem_store) c "prefix" (λ p,
  match p with
  | None => BRet (SA := mem_store) GEAS_ERR_NAME gzero
  | Some (vals, i) =>
      BMem (SA := mem_store) (pre <- load_slot vals i; nm <- load_slot frame 0;
            '(st, r) <- geas_string_concat c (Some pre) (Some nm) (Some gzero);
            box <- geas_box c;
            (if st_ok st && negb (box =? 0) then store_slot box 0 (default gzero r) else ret tt);;;
            ret (g_box GEAS_TY_RESULT 0 (if st_ok st then box else 0)))
        (λ out, if as_box out =? 0 then BRet (SA := mem_store) GEAS_ERR_OOM gzero else BRet (SA := mem_store) GEAS_OK out)
  end).
Definition hello_code (fn c frame n : Z) : body (SA := mem_store) := greet c frame.

Definition hello_open (path : string) : option Z := if str_eqb path HELLO then Some 41 else None.
Definition hello_sym (h : Z) : option registrar := Some (register_all [greeter]).

Definition host_world (mallocs table : nat → bool) : world (SA := mem_store) :=
  World (Mem {[ 5 := BBytes (str_bytes "hello, ") ]} ∅ 10 0 (CLib (λ n _, mallocs n) gzero 0)) ∅
    (MemBase 0 0 false false) (Runtime [] [] [] [] 0 false [] 0 (λ n _, table n)) [] 1000 ∅ ∅ [].

(** [main] with the host's threads granted by [threads], all else granted. *)
Definition run_main (threads : nat → bool) (race : race_order) (early late : nat) (turns : list bool)
    : wout (SA := mem_store) (Z * sys) :=
  main 5 5 3 hello_code hello_open hello_sym threads (Sys [] [] false false 0 (λ _, true)) race early late
    turns turns (host_world (λ _, true) (λ _, true)).

(** The world is clean: no instance, future or instance block is left, nothing is
    queued, and the module was closed once. *)
Definition clean (w : world (SA := mem_store)) : bool :=
  bool_decide (ci w = ∅) && bool_decide (owned (wm w) = ∅) && bool_decide (dom (futs w) = ∅) &&
  bool_decide (closed (wr w) = [41]) && bool_decide (queue w = []).
Definition ends (code : Z) (r : wout (SA := mem_store) (Z * sys)) : bool :=
  match r with WRet (z, _) w => (z =? code) && clean w | _ => false end.

(** Everything granted, the workers alternating: 0 in each outcome of the race. *)
Example main_runs race : ends 0 (run_main (λ _, true) race 0 0 (flat_map (λ _, [true; false]) (seq 0 32))) = true.
Proof. destruct race; vm_compute; reflexivity. Qed.

(** The second thread refused, the first three turns in: the process ends 1 with
    the runtime gone if the thread gets no further, and the thread's next turn runs
    on an instance that has been freed. *)
Example left_behind :
  ends 1 (run_main (λ n, negb (n =? 1)%nat) Delivered 3 0 []) = true ∧
  run_main (λ n, negb (n =? 1)%nat) Delivered 3 1 [] = WUndef.
Proof. split; vm_compute; reflexivity. Qed.
